(* ===== verification/_CoqProject ===== *)
-Q . S2P
Prelude.v
OrdMap.v
Version.v
Tower.v
Interval.v
PageLen.v
LeafPage.v
InternalPage.v
Node.v
Clock.v
ClockProtocol.v
Gc.v
RootIndex.v
VersionHistory.v
VersionLists.v
VersionIndex.v
VersionedLeaf.v
BaselineTheorems.v
Latch.v
RetryStats.v
Tree.v
Traversal.v
Query.v
Dispatch.v
Transaction.v
Units.v
NodeInv.v
Store.v
TreeInv.v
Alloc.v
Smo.v
Sibling.v
Parent.v
Reorganise.v
RootOps.v
Descent.v
Mvbt.v
LeafOps.v
Spec.v
LeafRefine.v
Refine.v
RangeRead.v
Examples.v
TreeTheorems.v
PageTheorems.v
OpTheorems.v
DexaLocking.v
DexaCell.v
DexaTree.v
DexaSmo.v
DexaDescent.v
DexaScan.v
DexaLatch.v
DexaDispatch.v
DexaWeaver.v
DexaKeys.v
DexaInv.v
DexaSplit.v
DexaGuard.v
DexaRepair.v
DexaWrite.v
DexaRead.v
DexaTable.v
DexaRefine.v
DexaRange.v
DexaRun.v
DexaLinks.v
DexaWeaverScan.v
DexaLinkStep.v
DexaWeaverRun.v
DexaTheorems.v
WeaverTheorems.v
YcsbValue.v
YcsbWorkload.v
YcsbStats.v
YcsbTheorems.v
