(* ===== verification/Prelude.v ===== *)
(** * cMVBT: a verification library for the concurrent multiversion B-tree

    The repository implements a multiversion B-tree for concurrent writers and
    snapshot readers ([src/src/mv_*]), and the baseline trees it is measured
    against ([src/src/dexa/]). Writers lock optimistically, draw a version from a
    global clock for every commit, and repair every node that could become too
    full or too empty on their way down; nothing is overwritten, so that a reader
    finds the state of any older version.

    ** The parts, and where they are modelled

    Pages. [Version.v] has versions, deletion marks and the obsolete mark of
    [mv_record_model/version_info.rs] and [mv_page_model/time_matcher.rs],
    [Interval.v] the fences of [mv_utils/interval.rs], [PageLen.v] the packed
    counters, [LeafPage.v], [InternalPage.v] and [Node.v] the pages of
    [mv_page_model/] with the fill thresholds of [mv_tree/smo.rs]. A page is a
    region of written slots under a length word; an operation on it is a
    function that fails where the code would read or write outside.

    Versions and memory. [Clock.v] is [mv_sync/clock.rs] as one thread runs it,
    [ClockProtocol.v] every interleaving of its atomic steps; [Latch.v] is the
    protocol of [mv_sync/smart_cell.rs]; [Gc.v] is [mv_gc/], the live readers,
    the dead blocks and their reclamation; [RetryStats.v] is
    [mv_utils/retry_stats.rs]. [RootIndex.v] is [mv_root/], all four variants of
    the index of roots, behind the interface [RootStore]; [Tower.v] is the list
    with skip links two of them and of the baselines are built on. [OrdMap.v]
    states what the code relies on of the ordered maps of [crossbeam_skiplist],
    [RootIndex.v] and [VersionIndex.v] what it relies on of the B+ tree of the
    [CCBPlusTree] crate; both are parameters with laws, and have an instance.

    The tree. [Tree.v] has the state of [mv_tree/mvbt.rs], the allocation of
    [mv_block/block_handle.rs] and the splits and merges of [mv_tree/smo.rs];
    [Traversal.v] the descents of writers ([mv_query/olc_query.rs],
    [rand_query.rs]); [Query.v] point reads, range reads and the lazy iterator
    ([query.rs], [iter_query.rs]); [Dispatch.v] every arm of
    [mv_query/dispatch.rs]; [Transaction.v] the transactions of [mv_tx_model/]
    and [mv_tx_query/] and the exported operations of [lib.rs]; [Mvbt.v] the
    constructor. They run in [Comp], a partial state monad over [TreeSt]: a
    function returns a value and a state, or fails, which stands for a panic, an
    [unreachable!], memory the code must not touch, or fuel that has run out.

    The baselines. [VersionLists.v], [VersionIndex.v] and [VersionedLeaf.v] are
    the version lists and indexes of [dexa/mvb_version_index/] and the record
    operations of the leaves that hold them ([dexa/mvb_page_model/node.rs],
    [dexa/mvb_crud_model/dispatch.rs]); [VersionHistory.v] is the interface
    between the two: the history of one record. [DexaLocking.v], [DexaCell.v] and
    [DexaLatch.v] are the locking strategies and the cells of
    [dexa/mvb_locking/] and [dexa/mvb_utils/smart_cell.rs]; [DexaTree.v] the
    state of [dexa/mvb_tree/], its pages and guards, [DexaSmo.v] the splits,
    merges and redistributions of [mvb_crud_model/query.rs], [DexaDescent.v] the
    descents of [query.rs] and [olc_query.rs], [DexaScan.v] the range scans,
    [DexaDispatch.v] every arm of the dispatch, and [DexaWeaver.v] the links of
    the vWeaver, the callback that sets them and the scan that follows them
    ([mvb_version_index/v_weaver.rs]). They run in [Comp] over [MVBPlusTree], the
    last over the tree and its links.

    The workloads. [YcsbValue.v], [YcsbWorkload.v] and [YcsbStats.v] are the record
    values, the generator of operations and the statistics of the benchmark that
    drives all these trees ([ycsb/value.rs], [workload.rs], [stats.rs]). Doubles
    are those of the Standard Library's specification of IEEE 754; the logarithm
    and the exponential are parameters without laws.

    ** The proofs

    [Units.v] and [NodeInv.v] say what a node holds for a key, [Store.v] what
    holds of the whole heap of blocks, [TreeInv.v] what a good tree is: it
    represents a history, a payload or none for every version and key, total
    from version 1 on. [Alloc.v], [Smo.v], [Sibling.v], [Parent.v],
    [Reorganise.v], [RootOps.v] and [Descent.v] prove, bottom up with the rules
    of [wp], that the repairs of a descent succeed and keep that history;
    [LeafOps.v], [LeafRefine.v] that the write at the leaf changes it from its
    own version on; [Refine.v] composes them into the refinement of [Spec.v],
    [RangeRead.v] does the iterator. [Examples.v] builds trees by running the
    code, with their invariant, for the witnesses.

    For the baselines [DexaKeys.v] cuts the keys of a page among its children,
    [DexaInv.v] is the invariant: a typing of the blocks by depth and interval,
    under which the leaves hold the table of histories. [DexaSplit.v],
    [DexaRepair.v] and [DexaWrite.v] show that a descent of a writer keeps it,
    with the rules of [DexaGuard.v] for guards and lost latches; [DexaRead.v],
    [DexaTable.v], [DexaRefine.v] and [DexaRange.v] that each operation is a step
    of the table, [DexaRun.v] that a run is. [DexaLinks.v] says what a link of the
    vWeaver means in that table, [DexaWeaverScan.v] what a scan along true links
    finds, [DexaLinkStep.v] that writes keep the links true, [DexaWeaverRun.v]
    composes them.

    ** What the theorems show

    - [TreeTheorems.v]: point operations and transactions on a good tree return
      and implement the history; snapshots are immutable; a committed write is
      read back; commits of a transaction rise; a range read returns exactly
      what point reads return; descents end at a leaf with room whatever latches
      they lose, and no reader can see their repairs; a new tree is good and
      empty.
    - [PageTheorems.v]: searches in a page agree with each other and with a plain
      search, a split deals the live entries out to safe nodes, the sibling of a
      merge is a neighbour, a copied page is exact.
    - [OpTheorems.v]: outcomes and errors of transactions; what updates in place,
      random operations and the edges of the key range really do.
    - [ClockProtocol.v]: under the commit discipline a snapshot is final and
      snapshots never go back; four executions show where the discipline is not
      enough. [Gc.v]: a block is recycled only when no reader can reach it, and
      what is kept is needed. [Latch.v]: one writer at a time, and a reader that
      validates has seen no write. [RootIndex.v]: all variants answer alike.
    - [BaselineTheorems.v]: every version index but the B+ tree answers as the
      history of its record whatever its coins; a leaf implements the table of
      its histories; a read under latches invents records.
    - [DexaTheorems.v]: a run of operations on a baseline tree is a run of a table
      of histories; scans are exact and descents end; the tree stays balanced and
      typed; its height is never raised; with the collector on, merging and
      redistributing lose children and with them records. [DexaLatch.v],
      [DexaCell.v]: the guards of the tree against the cells they stand for.
    - [WeaverTheorems.v]: without latches a run of a tree of the vWeaver is a run of
      the table, its scans return what a reader may see and miss only keys that
      were deleted since, and links stay true; which of these keys a scan passes
      by although a read at its version finds them; under optimistic latches an
      insertion can wait for itself for ever.
    - [YcsbTheorems.v]: the scramble of ranks is a permutation, a chosen key lies
      in its window, a damaged record is always noticed, a quantile is at most a
      quarter below the latency it stands for.

    ** Bounds and fuel

    Integers are [Z] with their wrap-around written out. Pages have between 8 and
    2^16 - 1 entries, as the halves of the counter word require and the
    thresholds of the splits need; the tree of the repository has 125. The clock
    stays below 2^63, where the marks begin: a run of [n] operations at depth [D]
    with [L] latch outcomes left needs [run_versions D L n] versions. Loops of
    the code take fuel, and every theorem on them says how much is enough:
    [traversal_fuel D L] = 2 (D + L) + 4 for a descent, since an attempt is
    repeated only when a latch is lost, [op_fuel] and [run_fuel] for operations
    and transactions, the clock's value for a point read, since a tree is never
    deeper than its clock.

    The tree is proved for one thread. What it sees of the others is a stream of
    outcomes of its latch operations, of any finite length: it can lose any latch
    at any time. The theorems on the tree are about a tree without a tracker, so
    that no block is recycled; the tracker has its own theorems in [Gc.v]. Range
    reads are proved at versions up to one behind the clock or newer and below
    the greatest key, where [OpTheorems.v] shows that the iterator does not end.

    The baseline trees need a fan-out of at least 5 and leaves of at least 3; the
    repository's have far more. They are proved for the strategies whose splits
    seal nothing ([split_seals], all but the two hybrid ones), with the collector
    of the merges off, since [DexaTheorems.v] shows that it loses records. An
    operation needs 2 L + 200 of fuel for [L] latches to lose, since no tree of
    64-bit keys is deeper than 64, a scan one more for every key of the table and
    a scan along links two, since no leaf but the root is empty. The links of the
    vWeaver are proved for the strategy without latches; scans along them for all
    of those strategies, up to keys below the greatest one, which such a scan
    finds twice.

    The search of a multiplier for the scramble needs at most 2^63 + 1 steps, and
    Euclid's algorithm on 64 bits at most 130. The rejection loop of the zipfian
    ranks has no bound: it depends on the random numbers.

    ** Not modelled

    - [mv_page_model/leaf_pagev2.rs], [mv_buffer/block_buffer.rs],
      [mv_utils/outdated.rs]: no module declares them, they are not compiled.
    - [mv_utils/crud_rate_control.rs], [un_cell.rs]: timing of the benchmarks, a
      cell without logic. [main.rs], [paper/], the runs of [ycsb/mod.rs] and
      [ycsb/systems.rs], the tests: threads, timing, options and output of the
      experiments. [Mix::parse], which parses decimal fractions.
    - The thread pool and the raw pointers of [tx_manager.rs], hardware lock
      elision, drops, and the weak memory behind [Acquire] and [Release]: the
      interleavings of [ClockProtocol.v] and [Latch.v] are sequentially
      consistent.
    - Of the baselines, the back-off of a thread that waits, the counts of node
      visits, and writers and readers of one tree as interleaved steps: as in the
      tree of the repository a thread meets the others as latches it loses. The
      memory order of the cells is sequentially consistent.
    - The tree with its tracker, so that recycled blocks would be covered by the
      refinement; range reads at old versions. *)

From stdpp Require Export ssreflect base numbers list sorting gmap.

#[export] Set Warnings "-rewrite-rw,-clear-no-such-hyp".
#[export] Set Default Proof Using "Type".
#[export] Set Default Goal Selector "!".

Declare Scope mvbt_scope.
Delimit Scope mvbt_scope with mvbt.

(** ** Machine integers

    A [u64]/[u32]/[usize] is a [Z]; the operations that can wrap or saturate
    are written out with these constants. *)
Definition U64_MAX : Z := 2 ^ 64 - 1.
Definition U32_MAX : Z := 2 ^ 32 - 1.
Definition u64_wrap (z : Z) : Z := z `mod` 2 ^ 64.
Definition u32_wrap (z : Z) : Z := z `mod` 2 ^ 32.
Definition is_u64 (z : Z) : Prop := (0 ≤ z ≤ U64_MAX)%Z.

(** ** Searching from the back

    [slice.iter().rfind(p)], and the index it is found at. *)
Section rfind.
Context {A : Type}.
Implicit Types (p : A → bool) (l : list A).

Fixpoint rfind_idx p l : option nat :=
  match l with
  | [] => None
  | x :: l' =>
      match rfind_idx p l' with
      | Some i => Some (S i)
      | None => if p x then Some 0 else None
      end
  end.

Definition rfind p l : option A := rfind_idx p l ≫= λ i, l !! i.

Fixpoint find_idx p l : option nat :=
  match l with
  | [] => None
  | x :: l' => if p x then Some 0 else S <$> find_idx p l'
  end.

Lemma rfind_idx_Some p l i :
  rfind_idx p l = Some i ↔
  (∃ x, l !! i = Some x ∧ p x = true) ∧
  (∀ j y, i < j → l !! j = Some y → p y = false).
Proof.
  revert i. induction l as [|x l IH]; intros i; simpl.
  { split; [done|]. intros [(y & Hy & _) _]. by rewrite lookup_nil in Hy. }
  destruct (rfind_idx p l) as [i'|] eqn:E.
  - split.
    + intros [= <-]. destruct (IH i') as [[(y & Hy & Hp) Hlast] _]; [done|].
      split; [by exists y|]. intros [|j] z Hj Hz; [lia|].
      eapply Hlast; [|exact Hz]. lia.
    + intros [(y & Hy & Hp) Hlast].
      destruct (IH i') as [[(z & Hz & Hpz) Hl'] _]; [done|].
      destruct i as [|i].
      { specialize (Hlast (S i') z). rewrite Hlast in Hpz; [done|lia|done]. }
      f_equal. f_equal. apply (inj Some). rewrite -(proj2 (IH i)); [done|].
      split; [by exists y|]. intros j w Hj Hw. eapply (Hlast (S j)); [lia|done].
  - assert (∀ j y, l !! j = Some y → p y = false) as Hnone.
    { intros j. remember (length l - j) as n eqn:Hn. revert j Hn.
      induction (lt_wf n) as [n _ IHn]. intros j -> y Hy.
      destruct (p y) eqn:Hp; [|done]. exfalso.
      assert (None = Some j) as [=]. apply IH.
      split; [by exists y|]. intros j' z Hj' Hz.
      eapply (IHn (length l - j')); [|done|done].
      apply lookup_lt_Some in Hy, Hz. lia. }
    destruct (p x) eqn:Hp.
    + split.
      * intros [= <-]. split; [by exists x|]. intros [|j] y Hj Hy; [lia|eauto].
      * intros [(y & Hy & Hpy) _]. destruct i as [|i]; [done|].
        simpl in Hy. by rewrite (Hnone _ _ Hy) in Hpy.
    + split; [done|]. intros [(y & Hy & Hpy) _]. destruct i as [|i].
      * simplify_eq/=. congruence.
      * simpl in Hy. by rewrite (Hnone _ _ Hy) in Hpy.
Qed.

Lemma rfind_idx_None p l :
  rfind_idx p l = None ↔ ∀ x, x ∈ l → p x = false.
Proof.
  induction l as [|x l IH]; simpl.
  { split; [intros _ x Hx; by apply elem_of_nil in Hx|done]. }
  destruct (rfind_idx p l) as [i|] eqn:E.
  - split; [done|]. intros H. apply rfind_idx_Some in E as [(y & Hy & Hp) _].
    apply list_elem_of_lookup_2 in Hy. rewrite H in Hp; [done|by right].
  - destruct (p x) eqn:Hp.
    + split; [done|]. intros H. rewrite H in Hp; [done|by left].
    + split; [|done]. intros _ y [->|Hy]%elem_of_cons; [done|]. by apply IH.
Qed.

Lemma rfind_idx_lt p l i : rfind_idx p l = Some i → i < length l.
Proof. intros [(x & Hx & _) _]%rfind_idx_Some. by eapply lookup_lt_Some. Qed.

Lemma rfind_Some p l x :
  rfind p l = Some x →
  p x = true ∧ x ∈ l.
Proof.
  unfold rfind. intros (i & [(y & Hy & Hp) _]%rfind_idx_Some & Hx)%bind_Some.
  simplify_eq. split; [done|]. by eapply list_elem_of_lookup_2.
Qed.

Lemma rfind_None p l :
  rfind p l = None ↔ ∀ x, x ∈ l → p x = false.
Proof.
  rewrite <-rfind_idx_None. unfold rfind.
  destruct (rfind_idx p l) as [i|] eqn:E; simpl; [|done].
  apply rfind_idx_lt in E. apply lookup_lt_is_Some in E as [x ->]. done.
Qed.

Lemma rfind_idx_app p l1 l2 :
  rfind_idx p (l1 ++ l2) =
  match rfind_idx p l2 with
  | Some i => Some (length l1 + i)
  | None => rfind_idx p l1
  end.
Proof.
  induction l1 as [|x l1 IH]; simpl; [by destruct (rfind_idx p l2)|].
  rewrite IH. by destruct (rfind_idx p l2).
Qed.

Lemma rfind_app p l1 l2 :
  rfind p (l1 ++ l2) =
  match rfind p l2 with Some x => Some x | None => rfind p l1 end.
Proof.
  unfold rfind. rewrite rfind_idx_app.
  destruct (rfind_idx p l2) as [i|] eqn:E; simpl.
  - rewrite lookup_app_r; [|lia]. replace (length l1 + i - length l1) with i by lia.
    pose proof (rfind_idx_lt _ _ _ E) as [x Hx]%lookup_lt_is_Some. by rewrite Hx.
  - destruct (rfind_idx p l1) as [i|] eqn:E1; simpl; [|done].
    apply rfind_idx_lt in E1. by rewrite lookup_app_l.
Qed.

Lemma rfind_snoc p l x :
  rfind p (l ++ [x]) = if p x then Some x else rfind p l.
Proof. rewrite rfind_app. unfold rfind at 1. simpl. by destruct (p x). Qed.

Lemma rfind_ext p q l :
  (∀ x, x ∈ l → p x = q x) → rfind p l = rfind q l.
Proof.
  intros H. unfold rfind. assert (rfind_idx p l = rfind_idx q l) as ->; [|done].
  induction l as [|x l IH]; simpl; [done|].
  rewrite IH; [|intros y Hy; apply H; by right].
  rewrite H; [done|by left].
Qed.

Lemma rfind_idx_ext p q l :
  (∀ x, x ∈ l → p x = q x) → rfind_idx p l = rfind_idx q l.
Proof.
  intros H. induction l as [|x l IH]; simpl; [done|].
  rewrite IH; [|intros y Hy; apply H; by right].
  rewrite H; [done|by left].
Qed.

(** A stronger test that the last hit of a weaker one passes. *)
Lemma rfind_idx_sub p q l i x :
  (∀ y, q y = true → p y = true) → rfind_idx p l = Some i → l !! i = Some x → q x = true →
  rfind_idx q l = Some i.
Proof.
  intros Hpq [_ Hlast]%rfind_idx_Some Hi Hq. apply rfind_idx_Some.
  split; [by exists x|]. intros j y Hj Hy. specialize (Hlast j y Hj Hy).
  destruct (q y) eqn:E; [|done]. apply Hpq in E. congruence.
Qed.

Lemma rfind_idx_snoc p l x :
  rfind_idx p (l ++ [x]) = if p x then Some (length l) else rfind_idx p l.
Proof. rewrite rfind_idx_app. simpl. destruct (p x); [by rewrite Nat.add_0_r|done]. Qed.
End rfind.

Lemma rfind_idx_fmap {A B} (f : A → B) (p : B → bool) l :
  rfind_idx p (f <$> l) = rfind_idx (λ x, p (f x)) l.
Proof. induction l as [|x l IH]; simpl; [done|]. by rewrite IH. Qed.

Lemma zip_fmap {A B C} (f : A → B) (g : A → C) l :
  zip (f <$> l) (g <$> l) = (λ x, (f x, g x)) <$> l.
Proof. induction l as [|x l IH]; simpl; [done|]. by rewrite IH. Qed.

(** ** Bits

    The top bit of a 64-bit word and the 63 bits below it. *)
Definition TOP_BIT : Z := 0x8000000000000000.
Definition LOW_63 : Z := 0x7FFFFFFFFFFFFFFF.

(** [!x] on a [u64]. *)
Definition u64_not (x : Z) : Z := (U64_MAX - x)%Z.

Section bits.
Local Open Scope Z_scope.

Lemma LOW_63_ones : LOW_63 = Z.ones 63.
Proof. reflexivity. Qed.

Lemma land_low_63 z : Z.land z LOW_63 = z `mod` 2 ^ 63.
Proof. rewrite LOW_63_ones. apply Z.land_ones. lia. Qed.

Lemma testbit_TOP_BIT i : 0 ≤ i → Z.testbit TOP_BIT i = (63 =? i).
Proof.
  intros Hi. change TOP_BIT with (2 ^ 63). rewrite Z.pow2_bits_eqb; lia.
Qed.

Lemma testbit_high z i : 0 ≤ z < 2 ^ 63 → 63 ≤ i → Z.testbit z i = false.
Proof.
  intros Hz Hi. rewrite -(Z.mod_small z (2 ^ 63)); [|lia].
  apply Z.mod_pow2_bits_high. lia.
Qed.

Lemma land_TOP_BIT_small z : 0 ≤ z < 2 ^ 63 → Z.land z TOP_BIT = 0.
Proof.
  intros Hz. apply Z.bits_inj'. intros i Hi.
  rewrite Z.land_spec testbit_TOP_BIT // Z.bits_0.
  destruct (Z.eqb_spec 63 i) as [<-|]; [|by rewrite andb_false_r].
  by rewrite testbit_high.
Qed.

Lemma lor_TOP_BIT_small z : 0 ≤ z < 2 ^ 63 → Z.lor z TOP_BIT = z + TOP_BIT.
Proof.
  intros Hz. symmetry. apply Z.add_nocarry_lor.
  by apply land_TOP_BIT_small.
Qed.

Lemma land_lor_TOP_BIT z : Z.land (Z.lor z TOP_BIT) TOP_BIT = TOP_BIT.
Proof.
  apply Z.bits_inj'. intros i Hi. rewrite Z.land_spec Z.lor_spec testbit_TOP_BIT //.
  by destruct (63 =? i), (Z.testbit z i).
Qed.

Lemma lor_TOP_BIT_mod z : Z.lor z TOP_BIT `mod` 2 ^ 63 = z `mod` 2 ^ 63.
Proof.
  rewrite -!land_low_63. apply Z.bits_inj'. intros i Hi.
  rewrite !Z.land_spec Z.lor_spec testbit_TOP_BIT // LOW_63_ones.
  destruct (Z.eqb_spec 63 i) as [<-|]; [|by rewrite orb_false_r].
  by rewrite Z.ones_spec_high ?andb_false_r.
Qed.
End bits.

(** ** Stable sorting and merging by a key

    [sorted_by_key]/[sort_by_key] are stable, so they are insertion sort here;
    [merge_by] is the lazy two-way merge of the [itertools] crate run to its
    end: while both sides have a head it takes the left one exactly when
    [is_first] says so. *)
Section sorting.
Context {A : Type}.
Implicit Types (key : A → Z) (l : list A).

Fixpoint insert_by_key key (x : A) l : list A :=
  match l with
  | [] => [x]
  | y :: l' =>
      if (key x <=? key y)%Z then x :: y :: l' else y :: insert_by_key key x l'
  end.

Definition sort_by_key key l : list A := foldr (insert_by_key key) [] l.

Fixpoint merge_by (is_first : A → A → bool) l : list A → list A :=
  match l with
  | [] => id
  | x :: l' =>
      fix merge_right (r : list A) : list A :=
        match r with
        | [] => x :: l'
        | y :: r' =>
            if is_first x y then x :: merge_by is_first l' r
            else y :: merge_right r'
        end
  end.

Definition key_le key : relation A := λ x y, (key x ≤ key y)%Z.

Lemma insert_by_key_perm key x l : insert_by_key key x l ≡ₚ x :: l.
Proof.
  induction l as [|y l IH]; simpl; [done|].
  destruct (key x <=? key y)%Z; [done|]. rewrite IH. constructor.
Qed.

Lemma sort_by_key_perm key l : sort_by_key key l ≡ₚ l.
Proof.
  induction l as [|x l IH]; simpl; [done|]. by rewrite insert_by_key_perm IH.
Qed.

Lemma insert_by_key_sorted key x l :
  StronglySorted (key_le key) l → StronglySorted (key_le key) (insert_by_key key x l).
Proof.
  induction 1 as [|y l Hl IH Hy]; simpl; [by repeat constructor|].
  destruct (Z.leb_spec (key x) (key y)) as [Hle|Hlt].
  - constructor; [by constructor|]. constructor; [done|].
    eapply Forall_impl; [exact Hy|]. unfold key_le. intros z Hz. simpl in *. lia.
  - constructor; [done|]. rewrite insert_by_key_perm. constructor; [|done].
    unfold key_le. lia.
Qed.

Lemma sort_by_key_sorted key l : StronglySorted (key_le key) (sort_by_key key l).
Proof.
  induction l as [|x l IH]; simpl; [constructor|]. by apply insert_by_key_sorted.
Qed.

Lemma elem_of_sort_by_key key l x : x ∈ sort_by_key key l ↔ x ∈ l.
Proof. by rewrite sort_by_key_perm. Qed.

Lemma length_sort_by_key key l : length (sort_by_key key l) = length l.
Proof. by rewrite sort_by_key_perm. Qed.

Lemma merge_by_cons is_first x y l r :
  merge_by is_first (x :: l) (y :: r) =
  if is_first x y then x :: merge_by is_first l (y :: r)
  else y :: merge_by is_first (x :: l) r.
Proof. done. Qed.

Lemma merge_by_perm is_first l r : merge_by is_first l r ≡ₚ l ++ r.
Proof.
  revert r. induction l as [|x l IH]; intros r; [done|].
  induction r as [|y r IHr]; [by rewrite app_nil_r|].
  rewrite merge_by_cons. destruct (is_first x y); [by rewrite IH|].
  rewrite IHr. by rewrite (Permutation_middle (x :: l) r y).
Qed.

Lemma length_merge_by is_first l r :
  length (merge_by is_first l r) = length l + length r.
Proof. by rewrite merge_by_perm length_app. Qed.

(** A merge of two sorted lists with the key's order is sorted: with [<=] it
    prefers the left side on ties, with [<] the right one. *)
Lemma merge_by_sorted key is_first l r :
  (∀ x y, is_first x y = true → (key x ≤ key y)%Z) →
  (∀ x y, is_first x y = false → (key y ≤ key x)%Z) →
  StronglySorted (key_le key) l → StronglySorted (key_le key) r →
  StronglySorted (key_le key) (merge_by is_first l r).
Proof.
  intros Ht Hf Hl. revert r. induction Hl as [|x l Hl IH Hx]; [done|].
  intros r Hr. induction Hr as [|y r Hr IHr Hy]; [by constructor|].
  assert (∀ z w u : A, key_le key z w → key_le key w u → key_le key z u) as Htr
    by (unfold key_le; lia).
  rewrite merge_by_cons.
  destruct (is_first x y) eqn:E.
  - apply Ht in E. constructor; [apply IH; by constructor|].
    rewrite merge_by_perm. apply Forall_app. split; [done|].
    constructor; [done|]. eapply Forall_impl; [exact Hy|]. intros z ?. by eapply Htr.
  - apply Hf in E. constructor; [done|].
    rewrite merge_by_perm. apply Forall_app. split; [|done].
    constructor; [done|]. eapply Forall_impl; [exact Hx|]. intros z ?. by eapply Htr.
Qed.
End sorting.

Section sorting_fmap.
Context {A B : Type} (f : A → B).

Lemma insert_by_key_fmap (key : B → Z) x l :
  insert_by_key key (f x) (f <$> l) = f <$> insert_by_key (λ a, key (f a)) x l.
Proof. induction l as [|y l IH]; [done|]. cbn. case_match; [done|]. by rewrite IH. Qed.

Lemma sort_by_key_fmap (key : B → Z) l :
  sort_by_key key (f <$> l) = f <$> sort_by_key (λ a, key (f a)) l.
Proof. induction l as [|x l IH]; simpl; [done|]. by rewrite IH insert_by_key_fmap. Qed.

Lemma merge_by_fmap (is_first : B → B → bool) l r :
  merge_by is_first (f <$> l) (f <$> r) = f <$> merge_by (λ a b, is_first (f a) (f b)) l r.
Proof.
  revert r. induction l as [|x l IH]; intros r; [done|].
  induction r as [|y r IHr]; [done|]. rewrite !fmap_cons !merge_by_cons.
  destruct (is_first (f x) (f y)); rewrite fmap_cons -?IH -?IHr; done.
Qed.

Lemma filter_fmap_ext (Q : B → Prop) (Q' : A → Prop)
    `{!∀ b, Decision (Q b), !∀ a, Decision (Q' a)} (l : list A) :
  (∀ a, Q (f a) ↔ Q' a) → filter Q (f <$> l) = f <$> filter Q' l.
Proof.
  intros HQ. induction l as [|x l IH]; [done|]. rewrite fmap_cons !filter_cons IH.
  repeat case_decide; naive_solver.
Qed.
End sorting_fmap.

(** ** Results

    Rust's [Result<T, E>]. *)
Inductive result (T E : Type) : Type :=
  | Ok (t : T)
  | Err (e : E).
Arguments Ok {_ _} _.
Arguments Err {_ _} _.

(** ** Slot regions

    [[MaybeUninit<A>; cap]]: the initialised slots of such an array are always a
    prefix of it, so a region is the list of that prefix. A write out of bounds
    is undefined behaviour in the source and [None] here, and so is one that
    would leave a hole. *)
Section region.
Context {A : Type}.
Implicit Types (l : list A).

Definition region_write (cap index : nat) (x : A) l : option (list A) :=
  if decide (index < cap ∧ index ≤ length l) then Some (take index l ++ x :: drop (S index) l)
  else None.

(** [xs] written one after the other from slot [index] on. *)
Fixpoint region_write_all (cap index : nat) (xs : list A) l : option (list A) :=
  match xs with
  | [] => Some l
  | x :: xs' =>
      l' ← region_write cap index x l;
      region_write_all cap (S index) xs' l'
  end.

Lemma region_write_Some cap i x l :
  i < cap → i ≤ length l →
  region_write cap i x l = Some (take i l ++ x :: drop (S i) l).
Proof. intros. unfold region_write. by rewrite decide_True. Qed.

Lemma region_write_is_Some cap i x l :
  i < cap → i ≤ length l → ∃ l', region_write cap i x l = Some l'.
Proof. intros. rewrite region_write_Some //. by eexists. Qed.

Lemma region_write_take cap i x l l' :
  region_write cap i x l = Some l' →
  take (S i) l' = take i l ++ [x] ∧ length l' = Nat.max (length l) (S i) ∧ S i ≤ cap.
Proof.
  unfold region_write. case_decide as Hd; [|done]. intros [= <-].
  destruct Hd as [Hc Hi]. split_and!; [|..|lia].
  - rewrite take_app length_take. replace (i `min` length l) with i by lia.
    rewrite take_take. replace (S i `min` i) with i by lia.
    replace (S i - i) with 1 by lia. done.
  - rewrite length_app /= length_take length_drop. lia.
Qed.

Lemma region_write_lookup_ne cap i j x l l' :
  region_write cap i x l = Some l' → j ≠ i → l' !! j = l !! j.
Proof.
  unfold region_write. case_decide as Hd; [|done]. intros [= <-] Hj.
  destruct Hd as [Hc Hi]. destruct (decide (j < i)) as [Hlt|].
  - rewrite lookup_app_l; [|rewrite length_take; lia]. by rewrite lookup_take_lt.
  - rewrite lookup_app_r; [|rewrite length_take; lia].
    rewrite length_take. replace (j - i `min` length l) with (S (j - S i)) by lia.
    simpl. rewrite lookup_drop. f_equal. lia.
Qed.

Lemma region_write_all_app cap i xs l :
  i + length xs ≤ cap → i ≤ length l →
  ∃ l', region_write_all cap i xs l = Some l' ∧
    take (i + length xs) l' = take i l ++ xs ∧ i + length xs ≤ length l' ∧
    length l' = Nat.max (length l) (i + length xs).
Proof.
  revert i l. induction xs as [|x xs IH]; intros i l Hcap Hi; simpl in *.
  { exists l. rewrite !Nat.add_0_r app_nil_r. split_and!; [done..|lia]. }
  rewrite region_write_Some; [|lia..]. simpl.
  destruct (region_write_take cap i x l _ ltac:(apply region_write_Some; lia))
    as (Ht & Hl & _).
  destruct (IH (S i) (take i l ++ x :: drop (S i) l)) as (l' & -> & Htk & Hlen & Hmax);
    [lia|lia|].
  exists l'. replace (i + S (length xs)) with (S i + length xs) by lia.
  split_and!; [done| |lia|lia]. rewrite Htk Ht -app_assoc. done.
Qed.
End region.

Lemma filter_all {A} (Q : A → Prop) `{∀ x, Decision (Q x)} (l : list A) :
  (∀ x, x ∈ l → Q x) → filter Q l = l.
Proof.
  intros Hl. induction l as [|x l IH]; [done|].
  rewrite filter_cons_True; [|apply Hl; by left]. by rewrite IH; [|intros; apply Hl; by right].
Qed.

Lemma filter_none {A} (Q : A → Prop) `{∀ x, Decision (Q x)} l :
  (∀ x, x ∈ l → ¬ Q x) → filter Q l = [].
Proof.
  intros Hl. destruct (filter Q l) as [|x l'] eqn:E; [done|].
  assert (x ∈ filter Q l) as [Hq Hin]%list_elem_of_filter by (rewrite E; by left).
  by destruct (Hl x).
Qed.

(** ** Binary search

    [slice.binary_search_by_key] on a slice sorted by the key: the position of an
    element with the key, or the position it would be inserted at. *)
Definition binary_search_by_key {A} (k : A → Z) (target : Z) (l : list A) : nat + nat :=
  match find_idx (λ x, (k x =? target)%Z) l with
  | Some i => inl i
  | None => inr (length (filter (λ x, k x < target)%Z l))
  end.

(** ** Stateful, partial computations

    [None] is a panic, an [unreachable!], or memory the code must not touch. *)
Definition Comp (St A : Type) : Type := St → option (A * St).

#[export] Instance Comp_ret St : MRet (Comp St) := λ A a s, Some (a, s).
#[export] Instance Comp_bind St : MBind (Comp St) := λ A B k m s,
  match m s with Some (a, s') => k a s' | None => None end.

Definition gets {St A} (f : St → A) : Comp St A := λ s, Some (f s, s).
Definition modify {St} (f : St → St) : Comp St () := λ s, Some ((), f s).
Definition lift {St A} (o : option A) : Comp St A := λ s, (λ a, (a, s)) <$> o.
Definition panic {St A} : Comp St A := λ _, None.

Section comp.
Context {St : Type}.

Lemma bind_comp_Some {A B} (m : Comp St A) (k : A → Comp St B) s r :
  (m ≫= k) s = Some r ↔ ∃ a s', m s = Some (a, s') ∧ k a s' = Some r.
Proof.
  unfold mbind, Comp_bind. destruct (m s) as [[a s']|]; [|naive_solver].
  split; [intros H; by eexists _, _|]. intros (a' & s'' & [= <- <-] & H). done.
Qed.

Lemma bind_comp_eq {A B} (m : Comp St A) (k : A → Comp St B) s a s' :
  m s = Some (a, s') → (m ≫= k) s = k a s'.
Proof. unfold mbind, Comp_bind. by intros ->. Qed.

Lemma lift_Some {A} (o : option A) (s : St) r :
  lift o s = Some r ↔ ∃ a, o = Some a ∧ r = (a, s).
Proof. unfold lift. destruct o; simpl; naive_solver. Qed.
End comp.

(** ** Total correctness of such a computation

    [wp m s Q]: [m] runs from [s] without failing, and [Q] holds of its result
    and of the state it leaves. *)
Definition wp {St A} (m : Comp St A) (s : St) (Q : A → St → Prop) : Prop :=
  match m s with Some (a, s') => Q a s' | None => False end.

Section wp.
Context {St : Type}.
Implicit Types s : St.

Lemma wp_run {A} (m : Comp St A) s Q :
  wp m s Q ↔ ∃ a s', m s = Some (a, s') ∧ Q a s'.
Proof. unfold wp. destruct (m s) as [[a s']|]; naive_solver. Qed.

Lemma wp_bind {A B} (m : Comp St A) (k : A → Comp St B) s Q :
  wp m s (λ a s', wp (k a) s' Q) → wp (m ≫= k) s Q.
Proof. unfold wp, mbind, Comp_bind. by destruct (m s) as [[a s']|]. Qed.

Lemma wp_mono {A} (m : Comp St A) s (Q Q' : A → St → Prop) :
  wp m s Q → (∀ a s', Q a s' → Q' a s') → wp m s Q'.
Proof. unfold wp. destruct (m s) as [[a s']|]; auto. Qed.

Lemma wp_ret {A} (a : A) s (Q : A → St → Prop) : Q a s → wp (mret a) s Q.
Proof. done. Qed.

Lemma wp_gets {A} (f : St → A) s (Q : A → St → Prop) : Q (f s) s → wp (gets f) s Q.
Proof. done. Qed.

Lemma wp_modify (f : St → St) s (Q : () → St → Prop) : Q () (f s) → wp (modify f) s Q.
Proof. done. Qed.

Lemma wp_lift {A} (o : option A) a s (Q : A → St → Prop) :
  o = Some a → Q a s → wp (lift o) s Q.
Proof. by intros ->. Qed.
End wp.

(** One step of a computation whose first part is known. *)
Ltac wp_step :=
  first [ apply wp_bind | apply wp_ret | apply wp_gets | apply wp_modify ]; cbn beta iota.
Ltac wp_steps := repeat wp_step.

(** ** The one element with a property *)
Section unique_hit.
Context {A : Type} (Q : A → Prop) `{Q_dec : !∀ x, Decision (Q x)}.
Implicit Types l : list A.

Lemma head_filter_perm l l' :
  length (filter Q l) ≤ 1 → l ≡ₚ l' → head (filter Q l) = head (filter Q l').
Proof.
  intros Hl Hp. assert (filter Q l ≡ₚ filter Q l') as Hf by by rewrite Hp.
  destruct (filter Q l) as [|x [|y l2]]; simpl in *; [|..|lia].
  - by apply Permutation_nil_l in Hf as <-.
  - by apply Permutation_singleton_l in Hf as <-.
Qed.

Lemma head_filter_app l l' :
  head (filter Q (l ++ l')) = match head (filter Q l) with
                              | Some x => Some x
                              | None => head (filter Q l')
                              end.
Proof. rewrite filter_app. by destruct (filter Q l). Qed.

Lemma head_filter_Some l x : head (filter Q l) = Some x → Q x ∧ x ∈ l.
Proof. intros H%head_Some_elem_of. by apply list_elem_of_filter in H. Qed.

Lemma head_filter_None l : head (filter Q l) = None ↔ ∀ x, x ∈ l → ¬ Q x.
Proof.
  split.
  - intros H x Hx Hq. assert (x ∈ filter Q l) as Hf by by apply list_elem_of_filter.
    destruct (filter Q l); [by apply not_elem_of_nil in Hf|done].
  - intros H. destruct (filter Q l) as [|x l'] eqn:E; [done|].
    assert (x ∈ filter Q l) as [Hq Hx]%list_elem_of_filter by (rewrite E; by left).
    by destruct (H x).
Qed.
End unique_hit.
