(* ===== verification/OrdMap.v ===== *)
(** * Ordered maps of the dependencies

    The code keeps its live readers, its dead blocks and two of its root indexes
    in ordered maps of third-party crates ([crossbeam_skiplist] and
    [CCBPlusTree]). This file states what it relies on as an interface: the
    entries in iteration order, insertion and removal. Every component that uses
    such a map is proved against the interface; an association list is the
    instance the examples run on. *)
From S2P Require Import Prelude.
#[local] Set Default Proof Using "Type*".

(** ** Ordered keys *)
Class KeyOrder (K : Type) := {
  kle : relation K;
  key_eq_dec :: EqDecision K;
  kle_dec :: RelDecision kle;
  kle_total :: TotalOrder kle;
}.

#[export] Instance Z_le_TotalOrder : TotalOrder Z.le.
Proof.
  split; [apply _|]. intros x y. unfold strict.
  destruct (Z.lt_trichotomy x y) as [|[|]]; [left; lia|right; left; done|right; right; lia].
Qed.

#[export] Instance Z_KeyOrder : KeyOrder Z := {| kle := Z.le |}.

(** Pairs by their first component, the derived [Ord] of a tuple. *)
Definition lex_le (x y : Z * Z) : Prop :=
  (x.1 < y.1 ∨ (x.1 = y.1 ∧ x.2 ≤ y.2))%Z.

#[export] Instance lex_le_dec : RelDecision lex_le.
Proof. intros x y. unfold lex_le. apply _. Defined.

#[export] Instance lex_le_total : TotalOrder lex_le.
Proof.
  split; [split; [split|]|].
  - intros x. right. lia.
  - intros x y z. unfold lex_le. lia.
  - intros [x1 x2] [y1 y2]. unfold lex_le. simpl. intros. f_equal; lia.
  - intros [x1 x2] [y1 y2]. unfold strict, lex_le. simpl.
    destruct (decide (x1 = y1 ∧ x2 = y2)) as [[-> ->]|]; [by right; left|].
    destruct (Z.lt_trichotomy x1 y1) as [|[->|]]; [left; lia| |right; right; lia].
    destruct (Z.lt_trichotomy x2 y2) as [|[->|]]; [left; lia|lia|right; right; lia].
Qed.

#[export] Instance pair_KeyOrder : KeyOrder (Z * Z) := {| kle := lex_le |}.

(** ** The interface *)
Class OrdMap (M : ∀ K, KeyOrder K → Type → Type) := {
  om_empty {K} {o : KeyOrder K} {V} : M K o V;
  om_insert {K} {o : KeyOrder K} {V} : K → V → M K o V → M K o V;
  om_remove {K} {o : KeyOrder K} {V} : K → M K o V → M K o V;
  om_entries {K} {o : KeyOrder K} {V} : M K o V → list (K * V);
}.

Class OrdMapLaws (M : ∀ K, KeyOrder K → Type → Type) `{!OrdMap M} := {
  entries_empty {K} {o : KeyOrder K} {V} : om_entries (om_empty : M K o V) = [];
  entries_sorted {K} {o : KeyOrder K} {V} (m : M K o V) :
    StronglySorted kle (om_entries m).*1;
  entries_nodup {K} {o : KeyOrder K} {V} (m : M K o V) : NoDup (om_entries m).*1;
  entries_insert {K} {o : KeyOrder K} {V} (k : K) (v : V) (m : M K o V) e :
    e ∈ om_entries (om_insert k v m) ↔ e = (k, v) ∨ (e ∈ om_entries m ∧ e.1 ≠ k);
  entries_remove {K} {o : KeyOrder K} {V} (k : K) (m : M K o V) e :
    e ∈ om_entries (om_remove k m) ↔ e ∈ om_entries m ∧ e.1 ≠ k;
}.

Section ops.
Context {M : ∀ K, KeyOrder K → Type → Type} `{!OrdMap M} {K : Type} {o : KeyOrder K} {V : Type}.
Implicit Types (m : M K o V) (k : K).

Definition om_front m : option (K * V) := head (om_entries m).
Definition om_back m : option (K * V) := last (om_entries m).
Definition om_len m : nat := length (om_entries m).
Definition om_range (lo hi : K) m : list (K * V) :=
  filter (λ e, kle lo e.1 ∧ kle e.1 hi) (om_entries m).
(** The entries up to a key: [range(..=k)]. *)
Definition om_upto (k : K) m : list (K * V) := filter (λ e, kle e.1 k) (om_entries m).
End ops.

(** ** What follows from the laws *)
Section laws.
Context {M : ∀ K, KeyOrder K → Type → Type} `{!OrdMap M, !OrdMapLaws M}.
Context {K : Type} {o : KeyOrder K} {V : Type}.
Implicit Types (m : M K o V) (k : K).

Lemma entries_nodup' m : NoDup (om_entries m).
Proof. eapply NoDup_fmap_1, entries_nodup. Qed.

Lemma entries_functional m k v w :
  (k, v) ∈ om_entries m → (k, w) ∈ om_entries m → v = w.
Proof.
  intros Hv Hw. pose proof (entries_nodup m) as Hnd.
  apply list_elem_of_lookup in Hv as [i Hi], Hw as [j Hj].
  assert (i = j) as ->; [|congruence].
  eapply (NoDup_lookup _ i j k Hnd); by rewrite list_lookup_fmap ?Hi ?Hj.
Qed.

Lemma entries_insert_perm k v m :
  (∀ w, (k, w) ∉ om_entries m) → om_entries (om_insert k v m) ≡ₚ (k, v) :: om_entries m.
Proof.
  intros Hk. apply NoDup_Permutation; [apply entries_nodup'| |].
  { constructor; [apply Hk|apply entries_nodup']. }
  intros e. rewrite entries_insert elem_of_cons. split; [naive_solver|].
  intros [->|He]; [by left|]. right. split; [done|]. destruct e as [k' w]. simpl.
  intros ->. by eapply Hk.
Qed.

Lemma entries_remove_perm k v m :
  (k, v) ∈ om_entries m → om_entries m ≡ₚ (k, v) :: om_entries (om_remove k m).
Proof.
  intros Hk. apply NoDup_Permutation; [apply entries_nodup'| |].
  { constructor; [|apply entries_nodup']. rewrite entries_remove. naive_solver. }
  intros e. rewrite elem_of_cons entries_remove.
  destruct e as [k' w]. simpl. destruct (decide (k' = k)) as [->|]; [|naive_solver].
  split; [|naive_solver]. intros He. left. f_equal. by eapply entries_functional.
Qed.

Lemma entries_remove_absent k m :
  (∀ w, (k, w) ∉ om_entries m) → om_entries (om_remove k m) ≡ₚ om_entries m.
Proof.
  intros Hk. apply NoDup_Permutation; [apply entries_nodup'..|].
  intros [k' w]. rewrite entries_remove. simpl. naive_solver.
Qed.

Definition entry_le (e f : K * V) : Prop := kle e.1 f.1.

Lemma entries_sorted_by m : StronglySorted entry_le (om_entries m).
Proof.
  pose proof (entries_sorted m) as Hs. induction (om_entries m) as [|e l IH]; [constructor|].
  simpl in Hs. apply StronglySorted_inv in Hs as [Hs Hall]. constructor; [by apply IH|].
  by rewrite Forall_fmap in Hall.
Qed.

(** Two listings of the same entries in key order are the same listing. *)
Lemma sorted_entries_unique m l :
  StronglySorted entry_le l → om_entries m ≡ₚ l → om_entries m = l.
Proof.
  intros Hl Hp. eapply StronglySorted_unique_strong; [|apply entries_sorted_by|done..].
  intros [k1 v1] [k2 v2] H1 H2 H12 H21. unfold entry_le in *. simpl in *.
  assert (k1 = k2) as -> by by apply (anti_symm kle). f_equal.
  eapply entries_functional; [done|]. by rewrite Hp.
Qed.

Lemma entries_insert_max k v m :
  (∀ e, e ∈ om_entries m → kle e.1 k ∧ e.1 ≠ k) →
  om_entries (om_insert k v m) = om_entries m ++ [(k, v)].
Proof.
  intros Hk. apply sorted_entries_unique.
  - apply StronglySorted_app_2; [|apply entries_sorted_by|by repeat constructor].
    intros x1 x2 H1 ->%list_elem_of_singleton. by apply Hk.
  - rewrite entries_insert_perm; [|intros w Hw; by destruct (Hk _ Hw)]. by rewrite comm.
Qed.

(** Replacing the value of the greatest key. *)
Lemma entries_replace_last k v v' m l :
  om_entries m = l ++ [(k, v)] → om_entries (om_insert k v' m) = l ++ [(k, v')].
Proof.
  intros Hm. pose proof (entries_nodup m) as Hnd. pose proof (entries_nodup' m) as Hnd'.
  pose proof (entries_sorted_by m) as Hs.
  rewrite Hm in Hnd, Hnd', Hs. rewrite fmap_app in Hnd. apply NoDup_app in Hnd as (_ & Hk & _).
  apply NoDup_app in Hnd' as (Hl & _ & _).
  assert (∀ e, e ∈ l → e.1 ≠ k) as Hne.
  { intros e He Heq. apply (Hk e.1); [by apply list_elem_of_fmap_2|]. rewrite Heq. by left. }
  apply sorted_entries_unique.
  - apply StronglySorted_app_2; [|by eapply StronglySorted_app_1_l|by repeat constructor].
    intros e f He ->%list_elem_of_singleton.
    apply (StronglySorted_app_1_elem_of entry_le l [(k, v)] e (k, v) Hs He). by left.
  - apply NoDup_Permutation; [apply entries_nodup'| |].
    { apply NoDup_app. split; [done|]. split; [|apply NoDup_singleton].
      intros e He ->%list_elem_of_singleton. by apply (Hne _ He). }
    intros e. rewrite entries_insert Hm !elem_of_app !list_elem_of_singleton. naive_solver.
Qed.

Lemma om_front_min m e : om_front m = Some e → ∀ f, f ∈ om_entries m → kle e.1 f.1.
Proof.
  unfold om_front. pose proof (entries_sorted_by m) as Hs. intros He f Hf.
  destruct (om_entries m) as [|e' l]; [done|]. simpl in He. simplify_eq.
  apply StronglySorted_inv in Hs as [_ Hall]. apply elem_of_cons in Hf as [->|Hf]; [done|].
  by eapply Forall_forall in Hall.
Qed.

Lemma om_front_elem m e : om_front m = Some e → e ∈ om_entries m.
Proof. unfold om_front. destruct (om_entries m); [done|]. intros [= ->]. by left. Qed.

Lemma om_front_None m : om_front m = None ↔ om_entries m = [].
Proof. unfold om_front. by destruct (om_entries m). Qed.

Lemma om_back_elem m e : om_back m = Some e → e ∈ om_entries m.
Proof. apply last_Some_elem_of. Qed.

Lemma om_back_None m : om_back m = None ↔ om_entries m = [].
Proof. apply last_None. Qed.

Lemma om_back_max m e : om_back m = Some e → ∀ f, f ∈ om_entries m → kle f.1 e.1.
Proof.
  unfold om_back. intros [l Hl]%last_Some f Hf. pose proof (entries_sorted_by m) as Hs.
  rewrite Hl in Hs Hf. apply elem_of_app in Hf as [Hf|Hf%list_elem_of_singleton]; [|by subst].
  exact (StronglySorted_app_1_elem_of entry_le l [e] f e Hs Hf ltac:(by left)).
Qed.
End laws.

(** ** An instance *)
Section assoc.
Context {K : Type} {o : KeyOrder K} {V : Type}.
Implicit Types (l : list (K * V)) (k : K).

(** The entry in key order, in place of one of the same key. *)
Fixpoint assoc_put (k : K) (v : V) l : list (K * V) :=
  match l with
  | [] => [(k, v)]
  | (k', v') :: l' =>
      if decide (k = k') then (k, v) :: l'
      else if decide (kle k k') then (k, v) :: l
      else (k', v') :: assoc_put k v l'
  end.

Definition assoc_norm l : list (K * V) := foldr (λ e acc, assoc_put e.1 e.2 acc) [] l.

Definition assoc_ok l : Prop := StronglySorted kle l.*1 ∧ NoDup l.*1.

Lemma elem_of_assoc_put k v l e :
  assoc_ok l → e ∈ assoc_put k v l ↔ e = (k, v) ∨ (e ∈ l ∧ e.1 ≠ k).
Proof.
  intros [Hs Hn]. induction l as [|[k' v'] l IH]; simpl.
  { rewrite list_elem_of_singleton. set_solver. }
  simpl in Hs, Hn. apply StronglySorted_inv in Hs as [Hs Hall]. apply NoDup_cons in Hn as [Hk' Hn].
  specialize (IH Hs Hn). destruct (decide (k = k')) as [->|Hne].
  - rewrite !elem_of_cons. split; [|naive_solver].
    intros [?|He]; [by left|]. right. split; [by right|].
    intros <-. apply Hk', list_elem_of_fmap. by exists e.
  - destruct (decide (kle k k')) as [Hle|Hgt]; rewrite !elem_of_cons.
    + split; [|naive_solver]. intros [?|[->|He]]; [by left|by right; split; [left|]|].
      right. split; [by right|]. intros <-. apply Hne.
      apply (anti_symm kle); [done|]. rewrite Forall_fmap Forall_forall in Hall. by apply Hall.
    + rewrite IH. naive_solver.
Qed.

Lemma assoc_put_ok k v l : assoc_ok l → assoc_ok (assoc_put k v l).
Proof.
  intros Hok. pose proof Hok as [Hs Hn]. induction l as [|[k' v'] l IH]; simpl.
  { split; [by repeat constructor|apply NoDup_singleton]. }
  simpl in Hs, Hn. apply StronglySorted_inv in Hs as [Hs Hall]. apply NoDup_cons in Hn as [Hk' Hn].
  specialize (IH (conj Hs Hn) Hs Hn). destruct (decide (k = k')) as [->|Hne].
  - split; simpl; [by constructor|by apply NoDup_cons].
  - destruct (decide (kle k k')) as [Hle|Hgt].
    + split; simpl.
      * constructor; [by constructor|]. constructor; [done|].
        eapply Forall_impl; [done|]. intros x. by apply transitivity.
      * apply NoDup_cons. split; [|by apply NoDup_cons]. rewrite elem_of_cons.
        intros [?|Hin]; [done|]. apply Hne. apply (anti_symm kle); [done|].
        rewrite Forall_forall in Hall. by apply Hall.
    + destruct IH as [IHs IHn]. assert (kle k' k) by (destruct (total kle k k'); done).
      assert (∀ x, x ∈ (assoc_put k v l).*1 → x = k ∨ x ∈ l.*1) as Hin.
      { intros x (e & -> & He)%list_elem_of_fmap.
        apply elem_of_assoc_put in He; [|done]. destruct He as [->|[He _]]; [by left|].
        right. apply list_elem_of_fmap. by exists e. }
      split; simpl.
      * constructor; [done|]. apply Forall_forall. intros x [->|Hx]%Hin; [done|].
        rewrite Forall_forall in Hall. by apply Hall.
      * apply NoDup_cons. split; [|done]. intros [->|Hx]%Hin; done.
Qed.

Lemma assoc_norm_ok l : assoc_ok (assoc_norm l).
Proof. induction l; [by split; constructor|]. by apply assoc_put_ok. Qed.
End assoc.

Definition AssocMap (K : Type) (o : KeyOrder K) (V : Type) : Type := list (K * V).

#[export] Instance AssocMap_ops : OrdMap AssocMap := {|
  om_empty _ _ _ := [];
  om_insert _ _ _ k v m := (k, v) :: m;
  om_remove K o V k m := filter (λ e, e.1 ≠ k) m;
  om_entries _ _ _ m := assoc_norm m;
|}.

#[export] Instance AssocMap_laws : OrdMapLaws AssocMap.
Proof.
  split; intros K o V; simpl.
  - done.
  - intros m. apply assoc_norm_ok.
  - intros m. apply assoc_norm_ok.
  - intros k v m e. apply elem_of_assoc_put, assoc_norm_ok.
  - intros k m e. induction m as [|[k' v'] m IH]; [set_solver|].
    rewrite filter_cons. simpl. case_decide as Hk; simpl.
    + rewrite !elem_of_assoc_put; [|apply assoc_norm_ok..]. rewrite IH. simpl. naive_solver.
    + subst k'.
      rewrite IH elem_of_assoc_put; [|apply assoc_norm_ok]. simpl. naive_solver.
Qed.
