(* ===== verification/Version.v ===== *)
(** * Record versions and the time matcher

    [src/src/mv_record_model/version_info.rs] and
    [src/src/mv_page_model/time_matcher.rs]: a version is a [u64]; a deletion
    version keeps the version in its low 63 bits and a non-null flag in the top
    bit; a version in an internal page carries an obsolete mark in the same bit.
    The key successor and predecessor of the [u64] tree
    ([src/src/mv_tree/mvbt.rs], [make_standard]) are here as well. *)
From S2P Require Import Prelude.
Local Open Scope Z_scope.

Definition Version := Z.
Definition START_VERSION : Version := 1.

(** ** Deletion versions *)
Module DeletedVersion.
Definition t := Z.
Definition NON_NULL_FLAG : Version := 0x8000000000000000.
Definition NULL_FLAG : Version := 0.
Definition EXTRACTOR : Version := 0x7FFFFFFFFFFFFFFF.

Definition new_null : t := NULL_FLAG.
Definition new (del_version : Version) : t := Z.lor del_version NON_NULL_FLAG.
Definition get (self : t) : option Version :=
  match Z.land self NON_NULL_FLAG with
  | 0 => None
  | _ => Some (Z.land self EXTRACTOR)
  end.

Lemma get_null : get new_null = None.
Proof. reflexivity. Qed.

Lemma get_new_mod d : get (new d) = Some (d `mod` 2 ^ 63).
Proof.
  unfold get, new. change NON_NULL_FLAG with TOP_BIT. rewrite land_lor_TOP_BIT.
  change EXTRACTOR with LOW_63. by rewrite land_low_63 lor_TOP_BIT_mod.
Qed.

Lemma get_new d : 0 ≤ d < 2 ^ 63 → get (new d) = Some d.
Proof. intros Hd. by rewrite get_new_mod Z.mod_small. Qed.
End DeletedVersion.

(** ** Version information of a record *)
Record VersionInfo := mkVersionInfo {
  insert_version : Version;
  delete_version : DeletedVersion.t;
}.

#[export] Instance VersionInfo_eq_dec : EqDecision VersionInfo.
Proof. solve_decision. Defined.

Module VersionInfo.
Definition new (ins : Version) : VersionInfo :=
  {| insert_version := ins; delete_version := DeletedVersion.new_null |}.

Definition from (ins del : Version) : VersionInfo :=
  {| insert_version := ins; delete_version := DeletedVersion.new del |}.

Definition insertion_version (self : VersionInfo) : Version := insert_version self.
Definition deletion_version (self : VersionInfo) : option Version :=
  DeletedVersion.get (delete_version self).

Definition is_deleted (self : VersionInfo) : bool :=
  match DeletedVersion.get (delete_version self) with Some _ => true | None => false end.

Definition matches (self : VersionInfo) (version : Version) : bool :=
  (insert_version self <=? version) &&
  match DeletedVersion.get (delete_version self) with
  | Some del => version <? del
  | None => true
  end.

(** [delete] answers whether it set the deletion version. *)
Definition delete (self : VersionInfo) (del : Version) : bool * VersionInfo :=
  if is_deleted self then (false, self)
  else (true, {| insert_version := insert_version self;
                 delete_version := DeletedVersion.new del |}).

Definition undelete (self : VersionInfo) : VersionInfo :=
  {| insert_version := insert_version self;
     delete_version := DeletedVersion.new_null |}.
End VersionInfo.

(** The life time of a record as a half-open interval of versions. *)
Definition visible (ins : Version) (del : option Version) (v : Version) : Prop :=
  ins ≤ v ∧ match del with Some d => v < d | None => True end.

Lemma matches_visible vi v :
  VersionInfo.matches vi v = true ↔
  visible (insert_version vi) (VersionInfo.deletion_version vi) v.
Proof.
  unfold VersionInfo.matches, visible, VersionInfo.deletion_version.
  rewrite andb_true_iff Z.leb_le.
  destruct (DeletedVersion.get _); [by rewrite Z.ltb_lt|tauto].
Qed.

Lemma matches_live vi v :
  VersionInfo.is_deleted vi = false →
  VersionInfo.matches vi v = (insert_version vi <=? v).
Proof.
  unfold VersionInfo.is_deleted, VersionInfo.matches.
  destruct (DeletedVersion.get _); [done|]. by rewrite andb_true_r.
Qed.

Lemma is_deleted_new v : VersionInfo.is_deleted (VersionInfo.new v) = false.
Proof. reflexivity. Qed.

Lemma is_deleted_from i d : VersionInfo.is_deleted (VersionInfo.from i d) = true.
Proof. unfold VersionInfo.is_deleted, VersionInfo.from. simpl.
  by rewrite DeletedVersion.get_new_mod. Qed.

(** Deleting a live record at [d] cuts its life time at [d] and nothing else. *)
Lemma matches_delete vi vi' d v :
  0 ≤ d < 2 ^ 63 →
  VersionInfo.delete vi d = (true, vi') →
  VersionInfo.matches vi' v = VersionInfo.matches vi v && (v <? d).
Proof.
  intros Hd. unfold VersionInfo.delete.
  destruct (VersionInfo.is_deleted vi) eqn:E; intros [=]; subst vi'.
  rewrite (matches_live vi) //. unfold VersionInfo.matches. simpl.
  by rewrite DeletedVersion.get_new.
Qed.

(** ** Versions of internal-page entries *)
Definition OBSOLETE_VERSION_MARK : Version := 0x8000000000000000.

Module TimeMatcher.
Definition into_cmp (self : Version) : Version :=
  Z.land self (u64_not OBSOLETE_VERSION_MARK).
Definition match_version_active (self other : Version) : bool := self <=? other.
Definition lt_self_any (self other : Version) : bool :=
  Z.land self (u64_not OBSOLETE_VERSION_MARK) <? other.
Definition is_obsolete (self : Version) : bool :=
  negb (Z.land self OBSOLETE_VERSION_MARK =? 0).
Definition is_active (self : Version) : bool :=
  Z.land self OBSOLETE_VERSION_MARK =? 0.
Definition matched (self other : Version) : bool :=
  Z.land self (u64_not OBSOLETE_VERSION_MARK) <=? other.
End TimeMatcher.

#[global] Arguments TimeMatcher.into_cmp : simpl never.
#[global] Arguments TimeMatcher.lt_self_any : simpl never.
#[global] Arguments TimeMatcher.is_obsolete : simpl never.
#[global] Arguments TimeMatcher.is_active : simpl never.
#[global] Arguments TimeMatcher.matched : simpl never.
#[global] Arguments DeletedVersion.get : simpl never.
#[global] Arguments DeletedVersion.new : simpl never.

(** [*ptr | OBSOLETE_VERSION_MARK], the write of [mark_version_obsolete]. *)
Definition mark_obsolete (v : Version) : Version := Z.lor v OBSOLETE_VERSION_MARK.

Lemma into_cmp_mod v : TimeMatcher.into_cmp v = v `mod` 2 ^ 63.
Proof. unfold TimeMatcher.into_cmp. change (u64_not OBSOLETE_VERSION_MARK) with LOW_63.
  apply land_low_63. Qed.

Lemma into_cmp_small v : 0 ≤ v < 2 ^ 63 → TimeMatcher.into_cmp v = v.
Proof. intros Hv. by rewrite into_cmp_mod Z.mod_small. Qed.

Lemma matched_into_cmp v o : TimeMatcher.matched v o = (TimeMatcher.into_cmp v <=? o).
Proof. reflexivity. Qed.

Lemma into_cmp_mark v : TimeMatcher.into_cmp (mark_obsolete v) = TimeMatcher.into_cmp v.
Proof. rewrite !into_cmp_mod. apply lor_TOP_BIT_mod. Qed.

Lemma matched_mark v o : TimeMatcher.matched (mark_obsolete v) o = TimeMatcher.matched v o.
Proof. by rewrite !matched_into_cmp into_cmp_mark. Qed.

Lemma is_active_mark v : TimeMatcher.is_active (mark_obsolete v) = false.
Proof.
  unfold TimeMatcher.is_active, mark_obsolete. change OBSOLETE_VERSION_MARK with TOP_BIT.
  by rewrite land_lor_TOP_BIT.
Qed.

Lemma is_active_small v : 0 ≤ v < 2 ^ 63 → TimeMatcher.is_active v = true.
Proof. intros Hv. unfold TimeMatcher.is_active. change OBSOLETE_VERSION_MARK with TOP_BIT.
  by rewrite land_TOP_BIT_small. Qed.

Lemma is_obsolete_active v : TimeMatcher.is_obsolete v = negb (TimeMatcher.is_active v).
Proof. reflexivity. Qed.

(** ** Key successor and predecessor *)
Definition inc_key (k : Z) : Z := if k + 1 <=? U64_MAX then k + 1 else U64_MAX.
Definition dec_key (k : Z) : Z := if 0 <=? k - 1 then k - 1 else 0.

Create Rewrite HintDb version.
#[export] Hint Rewrite matched_mark into_cmp_mark is_active_mark is_deleted_new
  is_deleted_from DeletedVersion.get_null : version.
