(* ===== verification/Tower.v ===== *)
(** * Version lists with towers

    Nodes of a singly linked list of versions that also link back to an older
    node, the first tower of at least their own level. The index of the roots
    ([src/src/mv_root/frugal_root.rs]) and two of the version lists
    ([src/src/dexa/mvb_version_index/frugal.rs], [v_weaver.rs]) are such lists;
    they differ in what a node carries and in how its level is picked. *)
From S2P Require Import Prelude Version.
#[local] Set Default Proof Using "Type".
Local Open Scope Z_scope.

Definition TowerLevel := Z.
Definition FLAT_LEVEL : TowerLevel := 0.
Definition SENTINEL_LEVEL : TowerLevel := U64_MAX.

(** ** Nodes *)
Inductive FrugalNode (P : Type) :=
  FNode (next v_ridgy : option (FrugalNode P)) (payload : P)
    (insert_version : Version) (level : TowerLevel).
Arguments FNode {_} _ _ _ _ _.

Section nodes.
Context {P : Type}.
Local Abbreviation FrugalNode := (FrugalNode P).

Definition fn_next (n : FrugalNode) := let '(FNode x _ _ _ _) := n in x.
Definition fn_ridgy (n : FrugalNode) := let '(FNode _ x _ _ _) := n in x.
Definition fn_payload (n : FrugalNode) := let '(FNode _ _ x _ _) := n in x.
Definition fn_version (n : FrugalNode) := let '(FNode _ _ _ x _) := n in x.
Definition fn_level (n : FrugalNode) := let '(FNode _ _ _ _ x) := n in x.

Fixpoint iter_from (n : FrugalNode) : list FrugalNode :=
  let '(FNode nx _ _ _ _) := n in
  n :: match nx with Some m => iter_from m | None => [] end.

(** The walk to the first tower that is high enough; [None] is the
    [unreachable!] behind a node without a link. *)
Fixpoint climb (new_level : TowerLevel) (curr : FrugalNode) : option FrugalNode :=
  let '(FNode _ r _ _ l) := curr in
  if l <? new_level
  then match r with Some n => climb new_level n | None => None end
  else Some curr.

(** [None] outside is the [unwrap] of a missing link, [None] inside the answer
    that no version is old enough. *)
Fixpoint find_from (curr : FrugalNode) (look_up_version : Version)
    : option (option FrugalNode) :=
  let '(FNode nx r _ v l) := curr in
  if (l <? SENTINEL_LEVEL) && (look_up_version <? v) then
    match r with
    | Some ridgy =>
        if look_up_version <? fn_version ridgy then find_from ridgy look_up_version
        else match nx with Some n => find_from n look_up_version | None => None end
    | None => match nx with Some n => find_from n look_up_version | None => None end
    end
  else Some (if v <=? look_up_version then Some curr else None).

(** ** Well-formed frugal lists: versions fall along [next], every node but the
    sentinel links back into its own tail *)
Inductive frugal_wf : FrugalNode → Prop :=
  | wf_sentinel p v : frugal_wf (FNode None None p v SENTINEL_LEVEL)
  | wf_node m r p v l :
      frugal_wf m → fn_version m < v → l < SENTINEL_LEVEL → r ∈ iter_from m →
      frugal_wf (FNode (Some m) (Some r) p v l).

Lemma iter_self n : n ∈ iter_from n.
Proof. destruct n. by left. Qed.

Lemma iter_next (n m : FrugalNode) :
  fn_next n = Some m → iter_from n = n :: iter_from m.
Proof. destruct n. simpl. by intros ->. Qed.

Lemma iter_wf n m : frugal_wf n → m ∈ iter_from n → frugal_wf m.
Proof.
  induction 1 as [p v|x r p v l Hx IH Hv Hl Hr]; simpl; intros [->|Hm]%elem_of_cons.
  - constructor.
  - by apply elem_of_nil in Hm.
  - by constructor.
  - by apply IH.
Qed.

Lemma iter_version_le n m :
  frugal_wf n → m ∈ iter_from n → fn_version m ≤ fn_version n.
Proof.
  induction 1 as [p v|x r p v l Hx IH Hv Hl Hr]; simpl; intros [->|Hm]%elem_of_cons; simpl.
  - done.
  - by apply elem_of_nil in Hm.
  - done.
  - specialize (IH Hm). lia.
Qed.

Lemma iter_suffix n m :
  frugal_wf n → m ∈ iter_from n →
  ∃ pre, iter_from n = pre ++ iter_from m ∧
    ∀ x, x ∈ pre → fn_version m < fn_version x.
Proof.
  induction 1 as [p v|x r p v l Hx IH Hv Hl Hr]; simpl; intros [->|Hm]%elem_of_cons.
  - exists []. split; [done|]. by intros x ?%elem_of_nil.
  - by apply elem_of_nil in Hm.
  - exists []. split; [done|]. by intros y ?%elem_of_nil.
  - destruct (IH Hm) as (pre & Heq & Hpre).
    exists (FNode (Some x) (Some r) p v l :: pre). split; [by rewrite Heq|].
    intros y [->|Hy]%elem_of_cons; [|by apply Hpre]. simpl.
    pose proof (iter_version_le x m Hx Hm). lia.
Qed.

(** Induction along the links: every node of the tail is smaller. *)
Lemma frugal_ind (Q : FrugalNode → Prop) :
  (∀ n, frugal_wf n →
    (∀ x m, fn_next n = Some x → m ∈ iter_from x → Q m) → Q n) →
  ∀ n, frugal_wf n → Q n.
Proof.
  intros Hstep n Hn. apply (iter_wf n n) in Hn as Hwf; [|apply iter_self].
  assert (∀ m, m ∈ iter_from n → Q m) as H; [|by apply H, iter_self].
  clear Hwf. induction Hn as [p v|x r p v l Hx IH Hv Hl Hr]; simpl.
  - intros m [->|Hm]%elem_of_cons; [|by apply elem_of_nil in Hm].
    apply Hstep; [constructor|]. done.
  - intros m [->|Hm]%elem_of_cons; [|by apply IH].
    apply Hstep; [by constructor|]. simpl. intros y z [= <-] Hz. by apply IH.
Qed.

Lemma climb_wf lvl n :
  frugal_wf n → lvl ≤ SENTINEL_LEVEL →
  ∃ c, climb lvl n = Some c ∧ c ∈ iter_from n.
Proof.
  intros Hn Hlvl. revert n Hn. refine (frugal_ind _ _). intros n Hwf IH.
  inversion Hwf as [p v|x r p v l Hx Hv Hl Hr]; subst n; simpl.
  - case_match; [lia|]. eexists. split; [done|]. by left.
  - case_match; [|eexists; split; [done|by left]].
    destruct (IH x r eq_refl Hr) as (c & Hc & Hin). exists c. split; [done|].
    right. destruct (iter_suffix x r) as (pre & -> & _); [done..|]. apply elem_of_app. by right.
Qed.

(** The search finds the newest node that is old enough. *)
Lemma find_from_spec n v :
  frugal_wf n →
  find_from n v =
    Some (list.head (filter (λ m, fn_version m ≤ v) (iter_from n))).
Proof.
  revert n. refine (frugal_ind _ _). intros n Hwf IH.
  inversion Hwf as [p w|x r p w l Hx Hw Hl Hr]; subst n; cbn [find_from].
  - cbn [iter_from]. rewrite Z.ltb_irrefl andb_false_l filter_cons.
    case_match; simpl; case_decide; simpl; try done; lia.
  - apply Z.ltb_lt in Hl as ->. rewrite andb_true_l. cbn [iter_from].
    rewrite filter_cons. cbn [fn_version]. destruct (v <? w) eqn:Hvw.
    + apply Z.ltb_lt in Hvw. rewrite decide_False; [|lia].
      destruct (v <? fn_version r) eqn:Hvr; [|by apply (IH x x eq_refl), iter_self].
      apply Z.ltb_lt in Hvr. rewrite (IH x r eq_refl Hr).
      destruct (iter_suffix x r) as (pre & -> & Hpre); [done..|].
      rewrite filter_app (filter_none _ pre) //. intros y Hy. apply Hpre in Hy. lia.
    + apply Z.ltb_ge in Hvw. rewrite decide_True; [|lia].
      rewrite (proj2 (Z.leb_le w v)) //.
Qed.
End nodes.
