(* ===== verification/Interval.v ===== *)
(** * Key intervals

    [src/src/mv_utils/interval.rs]: closed intervals with inclusive bounds, the
    fences of internal pages and the ranges of queries. The element type is the
    tree's key type [u64]. *)
From S2P Require Import Prelude Version.
Local Open Scope Z_scope.

Record Interval := mkInterval { lower : Z; upper : Z }.

#[export] Instance Interval_eq_dec : EqDecision Interval.
Proof. solve_decision. Defined.

Module Interval.
Definition new (lower upper : Z) : Interval := mkInterval lower upper.
Definition blank : Interval := {| lower := U64_MAX; upper := 0 |}.
Definition max : Interval := {| lower := 0; upper := U64_MAX |}.
Definition is_upper_max (self : Interval) : bool := upper self =? U64_MAX.
Definition is_lower_min (self : Interval) : bool := lower self =? 0.

Definition set_lower (self : Interval) (e : Z) : Interval :=
  {| lower := e; upper := upper self |}.
Definition set_upper (self : Interval) (e : Z) : Interval :=
  {| lower := lower self; upper := e |}.

(** [merge], [merge_mut] and [merged] compute the same interval; they differ
    in what they hand back. *)
Definition merge (self interval : Interval) : Interval :=
  {| lower := Z.min (lower interval) (lower self);
     upper := Z.max (upper interval) (upper self) |}.

(** [expand], [expand_mut] and [expanded]. *)
Definition expand (self : Interval) (e : Z) : Interval :=
  {| lower := Z.min (lower self) e; upper := Z.max (upper self) e |}.

Definition intersection (self other : Interval) : Interval :=
  new (Z.max (lower self) (lower other)) (Z.min (upper self) (upper other)).

Definition covers (self other : Interval) : bool :=
  (lower self <=? lower other) && (upper other <=? upper self).

(** The answer, and the receiver afterwards. *)
Definition covers_or_merge (self other : Interval) : bool * Interval :=
  if covers self other then (true, self) else (false, merge self other).

Definition is_disjoint (self other : Interval) : bool :=
  (upper other <? lower self) || (upper self <? lower other).

Definition overlap (self other : Interval) : bool := negb (is_disjoint self other).

Definition is_subset (self other : Interval) : bool :=
  (lower other <=? lower self) && (upper self <=? upper other).

Definition contains (self : Interval) (value : Z) : bool :=
  (lower self <=? value) && (value <=? upper self).

(** [RangeInclusive] and [Range] conversions; [checked_sub(1).unwrap_or(MIN)]. *)
Definition of_range_inclusive (s e : Z) : Interval := new s e.
Definition of_range (s e : Z) : Interval := new s (dec_key e).

Definition cmp (self other : Interval) : comparison := lower self ?= lower other.
End Interval.

Lemma contains_spec f k : Interval.contains f k = true ↔ lower f ≤ k ≤ upper f.
Proof. unfold Interval.contains. rewrite andb_true_iff !Z.leb_le. lia. Qed.

Lemma contains_false f k : Interval.contains f k = false ↔ ¬ (lower f ≤ k ≤ upper f).
Proof. rewrite -contains_spec. by destruct (Interval.contains f k). Qed.

Lemma covers_spec a b : Interval.covers a b = true ↔ lower a ≤ lower b ∧ upper b ≤ upper a.
Proof. unfold Interval.covers. by rewrite andb_true_iff !Z.leb_le. Qed.

Lemma covers_contains a b k :
  Interval.covers a b = true → Interval.contains b k = true → Interval.contains a k = true.
Proof. rewrite covers_spec !contains_spec. lia. Qed.

Lemma overlap_spec a b :
  Interval.overlap a b = true ↔ lower a ≤ upper b ∧ lower b ≤ upper a.
Proof.
  unfold Interval.overlap, Interval.is_disjoint.
  rewrite negb_true_iff orb_false_iff !Z.ltb_ge. lia.
Qed.

Create Rewrite HintDb interval.
#[export] Hint Rewrite contains_spec covers_spec overlap_spec : interval.

(** ** Order theory of the intervals *)

(** [merge] is the least interval covering both of its arguments, so a merged
    fence loses no key of either sibling and claims no more than it must. *)
Theorem merge_least_upper_bound a b c :
  Interval.covers c (Interval.merge a b) = true ↔
  Interval.covers c a = true ∧ Interval.covers c b = true.
Proof. rewrite !covers_spec. simpl. lia. Qed.

(** the intersection of two intervals has exactly the keys of both, also when
    they are disjoint. *)
Theorem intersection_exact a b k :
  Interval.contains (Interval.intersection a b) k =
  Interval.contains a k && Interval.contains b k.
Proof.
  apply eq_bool_prop_intro. rewrite !Is_true_true andb_true_iff !contains_spec.
  simpl. lia.
Qed.
