(* ===== verification/PageLen.v ===== *)
(** * Packed page lengths

    [src/src/mv_page_model/node.rs]: the length word of a page is a [u32] with
    the number of active units in its upper and the number of dead units in its
    lower half, so that one store publishes both. *)
From S2P Require Import Prelude.
Local Open Scope Z_scope.

Definition PageLenPrimitive := Z.
Definition Active := Z.
Definition Dead := Z.

Definition active_len (len : PageLenPrimitive) : Active := Z.shiftr len 16.
Definition dead_len (len : PageLenPrimitive) : Dead := Z.land len 0xFFFF.
Definition from_len (len : PageLenPrimitive) : Active * Dead := (active_len len, dead_len len).
Definition from_len_sum (len : PageLenPrimitive) : nat :=
  Z.to_nat (active_len len + dead_len len).

(** [(active << 16) | dead]: the shift drops the bits that leave the word. *)
Definition from_active_dead (active : Active) (dead : Dead) : PageLenPrimitive :=
  Z.lor (u32_wrap (Z.shiftl active 16)) dead.

(** [active_len(len) as i32 + delta], cast back [as u32]. *)
Definition add_delta (n delta : Z) : Z := u32_wrap (n + delta).

Definition half_word (n : Z) : Prop := 0 ≤ n < 2 ^ 16.

Lemma from_active_dead_eq a d :
  half_word a → half_word d → from_active_dead a d = a * 2 ^ 16 + d.
Proof.
  unfold half_word, from_active_dead, u32_wrap. intros Ha Hd.
  rewrite Z.shiftl_mul_pow2; [|lia]. rewrite Z.mod_small; [|lia].
  rewrite -Z.add_nocarry_lor; [done|].
  apply Z.bits_inj'. intros i Hi. rewrite Z.land_spec Z.bits_0.
  destruct (decide (i < 16)).
  - by rewrite Z.mul_pow2_bits_low.
  - rewrite (_ : Z.testbit d i = false) ?andb_false_r //.
    rewrite -(Z.mod_small d (2 ^ 16)); [|lia]. apply Z.mod_pow2_bits_high. lia.
Qed.

Lemma active_len_pack a d :
  half_word a → half_word d → active_len (from_active_dead a d) = a.
Proof.
  intros Ha Hd. rewrite from_active_dead_eq //. unfold active_len, half_word in *.
  rewrite Z.shiftr_div_pow2; [|lia]. rewrite Z.div_add_l; [|lia].
  rewrite Z.div_small; lia.
Qed.

Lemma dead_len_pack a d :
  half_word a → half_word d → dead_len (from_active_dead a d) = d.
Proof.
  intros Ha Hd. rewrite from_active_dead_eq //. unfold dead_len, half_word in *.
  change 0xFFFF with (Z.ones 16). rewrite Z.land_ones; [|lia].
  rewrite Z.add_comm Z.mod_add; [|lia]. by rewrite Z.mod_small.
Qed.

Lemma from_len_sum_pack a d :
  half_word a → half_word d → from_len_sum (from_active_dead a d) = Z.to_nat (a + d).
Proof. intros. unfold from_len_sum. by rewrite active_len_pack // dead_len_pack. Qed.

Lemma add_delta_small n delta : half_word (n + delta) → add_delta n delta = n + delta.
Proof. unfold half_word, add_delta, u32_wrap. intros. apply Z.mod_small. lia. Qed.

Create Rewrite HintDb page_len.
#[export] Hint Rewrite active_len_pack dead_len_pack from_len_sum_pack
  using (unfold half_word in *; lia) : page_len.

(** The counters a length word holds, as naturals. *)
Definition len_counts (len : PageLenPrimitive) (active dead : nat) : Prop :=
  Z.of_nat active < 2 ^ 16 ∧ Z.of_nat dead < 2 ^ 16 ∧
  len = from_active_dead (Z.of_nat active) (Z.of_nat dead).

Lemma len_counts_active len a d : len_counts len a d → active_len len = Z.of_nat a.
Proof. intros (? & ? & ->). apply active_len_pack; unfold half_word; lia. Qed.

Lemma len_counts_dead len a d : len_counts len a d → dead_len len = Z.of_nat d.
Proof. intros (? & ? & ->). apply dead_len_pack; unfold half_word; lia. Qed.

Lemma len_counts_sum len a d : len_counts len a d → from_len_sum len = (a + d)%nat.
Proof. intros (? & ? & ->). rewrite from_len_sum_pack; unfold half_word; lia. Qed.

Lemma len_counts_delta len a d da dd a' d' :
  len_counts len a d →
  Z.of_nat a' = Z.of_nat a + da → Z.of_nat d' = Z.of_nat d + dd →
  Z.of_nat a' < 2 ^ 16 → Z.of_nat d' < 2 ^ 16 →
  len_counts (from_active_dead (add_delta (active_len len) da) (add_delta (dead_len len) dd))
    a' d'.
Proof.
  intros Hl Ha Hd Hla Hld. rewrite (len_counts_active _ _ _ Hl) (len_counts_dead _ _ _ Hl).
  rewrite !add_delta_small; [|unfold half_word; lia..]. by rewrite -Ha -Hd.
Qed.

(** every pair of half words survives the packing, and with it the sum the
    page iterates over. *)
Theorem page_len_roundtrip a d :
  half_word a → half_word d →
  from_len (from_active_dead a d) = (a, d) ∧
  from_len_sum (from_active_dead a d) = Z.to_nat (a + d) ∧
  0 ≤ from_active_dead a d ≤ U32_MAX.
Proof.
  intros Ha Hd. split_and!.
  - unfold from_len. by rewrite active_len_pack // dead_len_pack.
  - by apply from_len_sum_pack.
  - rewrite from_active_dead_eq //. unfold half_word in *. lia.
  - rewrite from_active_dead_eq //. unfold half_word, U32_MAX in *. lia.
Qed.
Lemma page_len_roundtrip_witness :
  from_len (from_active_dead 125 7) = (125, 7) ∧
  from_len_sum (from_active_dead 125 7) = Z.to_nat (125 + 7) ∧
  0 ≤ from_active_dead 125 7 ≤ U32_MAX.
Proof. apply (page_len_roundtrip 125 7); unfold half_word; lia. Defined.

(** subtracting a dead unit from a page that has none wraps the lower half
    around and takes the whole upper half with it. *)
Theorem dead_underflow_corrupts a :
  half_word a →
  from_active_dead (add_delta a 1) (add_delta 0 (-1)) = U32_MAX.
Proof.
  unfold from_active_dead, add_delta. intros Ha.
  change (u32_wrap (0 + -1)) with (Z.ones 32). change U32_MAX with (Z.ones 32).
  apply Z.bits_inj'. intros i Hi. rewrite Z.lor_spec.
  destruct (decide (i < 32)).
  - rewrite Z.ones_spec_low; [|lia]. apply orb_true_r.
  - rewrite Z.ones_spec_high; [|lia]. rewrite orb_false_r.
    unfold u32_wrap. apply Z.mod_pow2_bits_high. lia.
Qed.
Lemma dead_underflow_corrupts_witness :
  from_active_dead (add_delta 5 1) (add_delta 0 (-1)) = U32_MAX.
Proof. apply (dead_underflow_corrupts 5). unfold half_word. lia. Defined.

(** From here on only the lemmas above speak about the halves of a length word. *)
#[global] Opaque active_len dead_len.
