(* ===== verification/LeafPage.v ===== *)
(** * Leaf pages

    [src/src/mv_page_model/leaf_page.rs] and the records of
    [src/src/mv_record_model/record_point.rs]: an append-only array of
    [NUM_RECORDS] records under a packed length word. The slots of the array are
    a region of the prelude; [len] is the packed word. *)
From S2P Require Import Prelude Version PageLen.

Record RecordPoint (P : Type) := mkRecord {
  key : Z;
  version : VersionInfo;
  payload : P;
}.
Arguments mkRecord {_} _ _ _.
Arguments key {_} _.
Arguments version {_} _.
Arguments payload {_} _.

(** What a query hands out of a record: [RecordPointResult]. *)
Definition RecordPointResult (P : Type) : Type := Z * P.

Record LeafPage (P : Type) := mkLeafPage {
  leaf_len : PageLenPrimitive;
  record_data : list (RecordPoint P);
}.
Arguments mkLeafPage {_} _ _.
Arguments leaf_len {_} _.
Arguments record_data {_} _.

Module RecordPoint.
Section record.
Context {P : Type}.
Definition new (k : Z) (v : VersionInfo) (p : P) : RecordPoint P := mkRecord k v p.
Definition set_version (r : RecordPoint P) (v : VersionInfo) : RecordPoint P :=
  mkRecord (key r) v (payload r).
Definition set_payload (r : RecordPoint P) (p : P) : RecordPoint P :=
  mkRecord (key r) (version r) p.
Definition result_from (r : RecordPoint P) : RecordPointResult P := (key r, payload r).
End record.
End RecordPoint.

Module LeafPage.
Section leaf.
Context {P : Type} (NUM_RECORDS : nat).
Implicit Types (self : LeafPage P) (r : RecordPoint P).

Definition new : LeafPage P := mkLeafPage 0%Z [].

Definition len self : nat := from_len_sum (leaf_len self).
Definition is_empty self : bool := bool_decide (len self = 0).
Definition is_full self : bool := bool_decide (len self = NUM_RECORDS).
Definition active_dead_count self : Active * Dead := from_len (leaf_len self).

(** The slice of the committed records. *)
Definition as_records self : list (RecordPoint P) := take (len self) (record_data self).

Definition push_uncommitted self r (index : nat) : option (LeafPage P) :=
  data ← region_write NUM_RECORDS index r (record_data self);
  Some (mkLeafPage (leaf_len self) data).

Definition commit_delta self (active_delta dead_delta : Z) : LeafPage P :=
  let active := add_delta (active_len (leaf_len self)) active_delta in
  let dead := add_delta (dead_len (leaf_len self)) dead_delta in
  mkLeafPage (from_active_dead active dead) (record_data self).

(** [drop_in_place] of the slot; the slot must be the last initialised one. *)
Definition undo_uncommitted self (index : nat) : option (LeafPage P) :=
  if decide (S index = length (record_data self))
  then Some (mkLeafPage (leaf_len self) (take index (record_data self)))
  else None.

Definition on_reuse self : LeafPage P := mkLeafPage 0%Z [].

(** [bulk_push] and [bulk_push_from_slice_ref]: the [debug_assert] that the
    page is empty is off in release builds. *)
Definition bulk_push self (records : list (RecordPoint P)) : option (LeafPage P) :=
  data ← region_write_all NUM_RECORDS (len self) records (record_data self);
  Some (mkLeafPage
    (from_active_dead (u32_wrap (Z.of_nat (len self) + Z.of_nat (length records))%Z) 0%Z)
    data).

(** The copy constructor: the committed records, the same counters. *)
Definition from (leaf_page : LeafPage P) : option (LeafPage P) :=
  data ← region_write_all NUM_RECORDS 0 (as_records leaf_page) (record_data new);
  let '(active, dead) := active_dead_count leaf_page in
  Some (mkLeafPage (from_active_dead active dead) data).

(** Writing back the version of the record in slot [i]. *)
Definition set_record self (i : nat) r : LeafPage P :=
  mkLeafPage (leaf_len self) (<[i := r]> (record_data self)).

Definition delete_at self (found : option nat) (del : Version)
    : result (option VersionInfo) unit * LeafPage P :=
  match found ≫= λ i, (i,.) <$> record_data self !! i with
  | Some (i, r) =>
      let '(ok, vi) := VersionInfo.delete (version r) del in
      if ok then (Ok (Some vi), set_record self i (RecordPoint.set_version r vi))
      else (Err (), self)
  | None => (Ok None, self)
  end.

(** The newest record of the key. *)
Definition delete self (k : Z) (del : Version)
    : result (option VersionInfo) unit * LeafPage P :=
  delete_at self (rfind_idx (λ r, (key r =? k)%Z) (as_records self)) del.

(** [rev().skip(1).find(..)]: the newest record of the key but the last. *)
Definition delete_after_update self (k : Z) (del : Version)
    : result (option VersionInfo) unit * LeafPage P :=
  delete_at self
    (rfind_idx (λ r, (key r =? k)%Z) (take (len self - 1) (as_records self))) del.
End leaf.
End LeafPage.

(** ** The abstract view of a leaf page *)
Section leaf_view.
Context {P : Type}.
Implicit Types (p : LeafPage P) (r : RecordPoint P) (rs : list (RecordPoint P)).

Definition live r : Prop := VersionInfo.is_deleted (version r) = false.
#[global] Instance live_dec r : Decision (live r).
Proof. unfold live. apply _. Defined.

Definition n_live rs : nat := length (filter live rs).

(** A well-formed page of capacity [N] with committed records [rs]: the
    slots hold them, and the two counters are exact. *)
Definition leaf_wf (N : nat) p rs : Prop :=
  LeafPage.as_records p = rs ∧ length rs ≤ length (record_data p) ≤ N ∧
  (Z.of_nat N < 2 ^ 16)%Z ∧
  len_counts (leaf_len p) (n_live rs) (length rs - n_live rs).

Lemma n_live_app rs1 rs2 : n_live (rs1 ++ rs2) = n_live rs1 + n_live rs2.
Proof. unfold n_live. by rewrite filter_app length_app. Qed.

Lemma n_live_le rs : n_live rs ≤ length rs.
Proof. apply length_filter. Qed.

Lemma n_live_cons r rs : n_live (r :: rs) = (if decide (live r) then 1 else 0) + n_live rs.
Proof. unfold n_live. rewrite filter_cons. by case_decide. Qed.

Lemma n_live_all rs : Forall live rs → n_live rs = length rs.
Proof. induction 1; [done|]. rewrite n_live_cons decide_True //=. lia. Qed.

Lemma n_live_insert rs i r r' :
  rs !! i = Some r →
  n_live (<[i := r']> rs) + (if decide (live r) then 1 else 0) =
  n_live rs + (if decide (live r') then 1 else 0).
Proof.
  intros Hi. rewrite -{2}(take_drop_middle rs i r) //.
  rewrite insert_take_drop; [|by eapply lookup_lt_Some].
  rewrite !n_live_app !n_live_cons. lia.
Qed.

Lemma leaf_wf_len N p rs : leaf_wf N p rs → LeafPage.len p = length rs.
Proof.
  intros (_ & _ & _ & Hc). unfold LeafPage.len. rewrite (len_counts_sum _ _ _ Hc).
  pose proof (n_live_le rs). lia.
Qed.

Lemma leaf_wf_records N p rs : leaf_wf N p rs → LeafPage.as_records p = rs.
Proof. by intros (? & _). Qed.

Lemma leaf_wf_take N p rs : leaf_wf N p rs → take (length rs) (record_data p) = rs.
Proof.
  intros H. pose proof (leaf_wf_len _ _ _ H) as Hlen. destruct H as (H & _).
  unfold LeafPage.as_records in H. by rewrite Hlen in H.
Qed.

Lemma leaf_wf_bound N p rs : leaf_wf N p rs → length rs ≤ N.
Proof. intros (_ & ? & _). lia. Qed.

Lemma leaf_wf_active N p rs : leaf_wf N p rs →
  LeafPage.active_dead_count p =
  (Z.of_nat (n_live rs), Z.of_nat (length rs - n_live rs)).
Proof.
  intros (_ & _ & _ & Hc). unfold LeafPage.active_dead_count, from_len.
  by rewrite (len_counts_active _ _ _ Hc) (len_counts_dead _ _ _ Hc).
Qed.

Lemma leaf_wf_lookup N p rs i : leaf_wf N p rs → i < length rs → record_data p !! i = rs !! i.
Proof. intros H Hi. by rewrite -{1}(leaf_wf_take _ _ _ H) lookup_take_lt. Qed.

Lemma leaf_wf_intro N p rs :
  (Z.of_nat N < 2 ^ 16)%Z → length (record_data p) ≤ N → length rs ≤ length (record_data p) →
  take (length rs) (record_data p) = rs →
  len_counts (leaf_len p) (n_live rs) (length rs - n_live rs) →
  leaf_wf N p rs.
Proof.
  intros HN Hd Hrs Htake Hc. split_and!; [|done..].
  unfold LeafPage.as_records, LeafPage.len. rewrite (len_counts_sum _ _ _ Hc).
  pose proof (n_live_le rs). by replace (n_live rs + (length rs - n_live rs))
    with (length rs) by lia.
Qed.
End leaf_view.

#[export] Hint Resolve leaf_wf_len leaf_wf_records leaf_wf_bound leaf_wf_active : core.

(** ** Operations on well-formed pages *)
Section leaf_ops.
Context {P : Type} (N : nat).
Implicit Types (p : LeafPage P) (r : RecordPoint P) (rs : list (RecordPoint P)).

Lemma leaf_new_wf : (Z.of_nat N < 2 ^ 16)%Z → leaf_wf N (LeafPage.new (P:=P)) [].
Proof. intros HN. apply leaf_wf_intro; simpl; [done|lia|lia|done|]. done. Qed.

(** Appending a live record: the push, then the store of the counters. *)
Lemma leaf_push_commit p rs r :
  leaf_wf N p rs → length rs < N → live r →
  ∃ p', LeafPage.push_uncommitted N p r (LeafPage.len p) = Some p' ∧
    leaf_len p' = leaf_len p ∧
    leaf_wf N (LeafPage.commit_delta p' 1 0) (rs ++ [r]).
Proof.
  intros Hwf Hlt Hr. unfold LeafPage.push_uncommitted.
  rewrite (leaf_wf_len _ _ _ Hwf). pose proof (leaf_wf_take _ _ _ Hwf) as Htake.
  destruct Hwf as (_ & Hlen & HN & Hc).
  destruct (region_write_is_Some N (length rs) r (record_data p)) as [data Hdata]; [lia..|].
  destruct (region_write_take _ _ _ _ _ Hdata) as (Ht & Hl & _). rewrite Hdata /=.
  eexists. split_and!; [done..|]. pose proof (n_live_le rs).
  assert (n_live (rs ++ [r]) = S (n_live rs)) as Hn.
  { rewrite n_live_app (n_live_all [r]); [simpl; lia|by constructor]. }
  apply leaf_wf_intro; simpl; rewrite ?length_app /= ?Hn; [done|lia..| |].
  - by rewrite Nat.add_1_r Ht Htake.
  - eapply len_counts_delta; [exact Hc|lia..].
Qed.

(** A record whose life ends at [d]. *)
Definition kill r (d : Version) : RecordPoint P :=
  RecordPoint.set_version r (VersionInfo.from (insert_version (version r)) d).

Lemma kill_not_live r d : ¬ live (kill r d).
Proof. unfold live, kill. simpl. by rewrite is_deleted_from. Qed.

Lemma delete_live vi d :
  VersionInfo.is_deleted vi = false →
  VersionInfo.delete vi d = (true, VersionInfo.from (insert_version vi) d).
Proof. intros H. unfold VersionInfo.delete. by rewrite H. Qed.

Lemma as_records_set_record p rs i r :
  leaf_wf N p rs → i < length rs →
  LeafPage.as_records (LeafPage.set_record p i r) = <[i := r]> rs.
Proof.
  intros Hwf Hi. unfold LeafPage.as_records. simpl.
  change (LeafPage.len (LeafPage.set_record p i r)) with (LeafPage.len p).
  rewrite (leaf_wf_len _ _ _ Hwf) take_insert_lt //. by rewrite (leaf_wf_take _ _ _ Hwf).
Qed.

Lemma leaf_delete_at_live p rs i r d :
  leaf_wf N p rs → rs !! i = Some r → live r →
  LeafPage.delete_at p (Some i) d =
    (Ok (Some (version (kill r d))), LeafPage.set_record p i (kill r d)) ∧
  leaf_wf N (LeafPage.commit_delta (LeafPage.set_record p i (kill r d)) (-1) 1)
    (<[i := kill r d]> rs).
Proof.
  intros Hwf Hi Hr. pose proof (lookup_lt_Some _ _ _ Hi) as Hlt. split.
  { unfold LeafPage.delete_at. simpl. rewrite (leaf_wf_lookup _ _ _ _ Hwf Hlt) Hi /=.
    rewrite delete_live //. }
  pose proof (leaf_wf_take _ _ _ Hwf) as Htake. destruct Hwf as (_ & Hlen & HN & Hc).
  pose proof (n_live_insert rs i r (kill r d) Hi) as Hn.
  rewrite (decide_True (P:=live r)) // decide_False in Hn; [|apply kill_not_live].
  pose proof (n_live_le rs). pose proof (n_live_le (<[i:=kill r d]> rs)) as Hle.
  rewrite length_insert in Hle.
  apply leaf_wf_intro; simpl; rewrite ?length_insert; [done|lia..| |].
  - by rewrite take_insert_lt // Htake.
  - eapply len_counts_delta; [exact Hc|lia..].
Qed.

Lemma leaf_delete_at_dead p rs i r d :
  leaf_wf N p rs → rs !! i = Some r → ¬ live r →
  LeafPage.delete_at p (Some i) d = (Err (), p).
Proof.
  intros Hwf Hi Hr. pose proof (lookup_lt_Some _ _ _ Hi) as Hlt.
  unfold LeafPage.delete_at. simpl. rewrite (leaf_wf_lookup _ _ _ _ Hwf Hlt) Hi /=.
  unfold VersionInfo.delete, live in *. by destruct (VersionInfo.is_deleted _).
Qed.

(** Filling an empty page with live records. *)
Lemma leaf_bulk_push p rs :
  leaf_wf N p [] → Forall live rs → length rs ≤ N →
  ∃ p', LeafPage.bulk_push N p rs = Some p' ∧ leaf_wf N p' rs.
Proof.
  intros Hwf Hrs Hle. unfold LeafPage.bulk_push. rewrite (leaf_wf_len _ _ _ Hwf) /=.
  destruct Hwf as (_ & Hlen & HN & _).
  destruct (region_write_all_app N 0 rs (record_data p)) as (data & -> & Ht & Hl & Hmax);
    [simpl; lia|lia|]. simpl in *.
  eexists. split; [done|]. apply leaf_wf_intro; simpl; [done|lia|lia|done|].
  rewrite (n_live_all _ Hrs) Nat.sub_diag. split_and!; [lia|lia|].
  unfold u32_wrap. rewrite Z.mod_small; [done|lia].
Qed.
End leaf_ops.
