(* ===== verification/InternalPage.v ===== *)
(** * Internal pages

    [src/src/mv_page_model/internal_page.rs]: three parallel arrays of
    [FAN_OUT] slots (fences, versions, block pointers) under a packed length
    word. Entries are appended and never removed: a dead entry only gets the
    obsolete mark in its version. *)
From S2P Require Import Prelude Version Interval PageLen.

(** [BlockRef]: the identity of a heap block behind an [Arc]. *)
Definition BlockRef := nat.

Record InternalPage := mkInternalPage {
  int_len : PageLenPrimitive;
  key_interval_region : list Interval;
  version_region : list Version;
  pointer_region : list BlockRef;
}.

Module InternalPage.
Section internal.
Context (FAN_OUT : nat).
Implicit Types (self : InternalPage).

Definition new : InternalPage := mkInternalPage 0%Z [] [] [].

Definition active_dead_count self : Active * Dead := from_len (int_len self).
Definition active_len self : nat := Z.to_nat (PageLen.active_len (int_len self)).
Definition dead_len self : nat := Z.to_nat (PageLen.dead_len (int_len self)).
Definition sum_len self : nat := from_len_sum (int_len self).

Definition keys self : list Interval := take (sum_len self) (key_interval_region self).
Definition versions self : list Version := take (sum_len self) (version_region self).
Definition children self : list BlockRef := take (sum_len self) (pointer_region self).
Definition keys_versions self : list Interval * list Version := (keys self, versions self).
Definition keys_versions_pointers self : list Interval * list Version * list BlockRef :=
  (keys self, versions self, children self).

Definition get_key self (index : nat) : option Interval := key_interval_region self !! index.
Definition get_version self (index : nat) : option Version := version_region self !! index.
Definition get_pointer self (index : nat) : option BlockRef := pointer_region self !! index.
Definition last_child self : option BlockRef := get_pointer self (sum_len self - 1).

Definition push_uncommitted self (key_interval : Interval) (version : Version)
    (ptr : BlockRef) (index : nat) : option InternalPage :=
  ks ← region_write FAN_OUT index key_interval (key_interval_region self);
  vs ← region_write FAN_OUT index version (version_region self);
  ps ← region_write FAN_OUT index ptr (pointer_region self);
  Some (mkInternalPage (int_len self) ks vs ps).

Definition commit_delta self (active_delta dead_delta : Z) : InternalPage :=
  let active := add_delta (PageLen.active_len (int_len self)) active_delta in
  let dead := add_delta (PageLen.dead_len (int_len self)) dead_delta in
  mkInternalPage (from_active_dead active dead)
    (key_interval_region self) (version_region self) (pointer_region self).

(** The length is reset and the pointers dropped; fences and versions are
    plain words and stay. *)
Definition on_reuse self : InternalPage :=
  mkInternalPage 0%Z (key_interval_region self) (version_region self) [].

(** [bulk_push] and [bulk_push_from_slice]. *)
Definition bulk_push self (entries : list (Interval * Version * BlockRef))
    : option InternalPage :=
  let len := active_len self in
  ks ← region_write_all FAN_OUT len (entries.*1.*1) (key_interval_region self);
  vs ← region_write_all FAN_OUT len (entries.*1.*2) (version_region self);
  ps ← region_write_all FAN_OUT len (entries.*2) (pointer_region self);
  Some (mkInternalPage
    (from_active_dead (u32_wrap (Z.of_nat len + Z.of_nat (length entries))%Z) 0%Z) ks vs ps).

Definition from (self : InternalPage) : option InternalPage :=
  ks ← region_write_all FAN_OUT 0 (keys self) [];
  vs ← region_write_all FAN_OUT 0 (versions self) [];
  ps ← region_write_all FAN_OUT 0 (children self) [];
  let '(active, dead) := active_dead_count self in
  Some (mkInternalPage (from_active_dead active dead) ks vs ps).

Definition mark_version_obsolete self (index : nat) : InternalPage :=
  mkInternalPage (int_len self) (key_interval_region self)
    (alter mark_obsolete index (version_region self)) (pointer_region self).
End internal.
End InternalPage.

(** ** The abstract view of an internal page *)
Record Entry := mkEntry { fence : Interval; ver : Version; ptr : BlockRef }.

#[export] Instance Entry_eq_dec : EqDecision Entry.
Proof. solve_decision. Defined.

Definition triple (e : Entry) : Interval * Version * BlockRef := (fence e, ver e, ptr e).
Definition mark (e : Entry) : Entry := mkEntry (fence e) (mark_obsolete (ver e)) (ptr e).
Definition active (e : Entry) : Prop := TimeMatcher.is_active (ver e) = true.
#[export] Instance active_dec e : Decision (active e).
Proof. unfold active. apply _. Defined.

Definition n_active (es : list Entry) : nat := length (filter active es).

(** The three regions hold the entries [es] in their first slots. *)
Definition int_rep (F : nat) (p : InternalPage) (es : list Entry) : Prop :=
  take (length es) (key_interval_region p) = fence <$> es ∧
  take (length es) (version_region p) = ver <$> es ∧
  take (length es) (pointer_region p) = ptr <$> es ∧
  length (key_interval_region p) ≤ F ∧ length (version_region p) ≤ F ∧
  length (pointer_region p) ≤ F.

(** Well-formed: the committed entries are [es] and the counters are exact. *)
Definition int_wf (F : nat) (p : InternalPage) (es : list Entry) : Prop :=
  int_rep F p es ∧ (Z.of_nat F < 2 ^ 16)%Z ∧
  len_counts (int_len p) (n_active es) (length es - n_active es).

Section internal_view.
Context (F : nat).
Implicit Types (p : InternalPage) (e : Entry) (es : list Entry).

Lemma n_active_app es1 es2 : n_active (es1 ++ es2) = n_active es1 + n_active es2.
Proof. unfold n_active. by rewrite filter_app length_app. Qed.

Lemma n_active_cons e es :
  n_active (e :: es) = (if decide (active e) then 1 else 0) + n_active es.
Proof. unfold n_active. rewrite filter_cons. by case_decide. Qed.

Lemma n_active_le es : n_active es ≤ length es.
Proof. apply length_filter. Qed.

Lemma n_active_all es : Forall active es → n_active es = length es.
Proof. induction 1; [done|]. rewrite n_active_cons decide_True //=. lia. Qed.

Lemma mark_not_active e : ¬ active (mark e).
Proof. unfold active, mark. simpl. by rewrite is_active_mark. Qed.

Lemma n_active_mark es i e :
  es !! i = Some e → active e → S (n_active (<[i := mark e]> es)) = n_active es.
Proof.
  intros Hi He. rewrite -{2}(take_drop_middle es i e) //.
  rewrite insert_take_drop; [|by eapply lookup_lt_Some].
  rewrite !n_active_app !n_active_cons decide_False; [|apply mark_not_active].
  rewrite decide_True; [lia|done].
Qed.

Lemma int_rep_length p es : int_rep F p es →
  length es ≤ length (key_interval_region p) ∧ length es ≤ length (version_region p) ∧
  length es ≤ length (pointer_region p) ∧ length es ≤ F.
Proof.
  intros (Hk & Hv & Hp & ? & ? & ?).
  apply (f_equal length) in Hk, Hv, Hp. rewrite !length_take !length_fmap in Hk, Hv, Hp. lia.
Qed.

Lemma int_rep_new : int_rep F InternalPage.new [].
Proof. unfold int_rep. simpl. split_and!; first [done|lia]. Qed.

Lemma int_rep_push p es e :
  int_rep F p es → length es < F →
  ∃ p', InternalPage.push_uncommitted F p (fence e) (ver e) (ptr e) (length es) = Some p' ∧
    int_rep F p' (es ++ [e]) ∧ int_len p' = int_len p.
Proof.
  intros Hrep Hlt. destruct (int_rep_length _ _ Hrep) as (Hk & Hv & Hp & _).
  destruct Hrep as (Ek & Ev & Ep & ? & ? & ?).
  destruct (region_write_is_Some F (length es) (fence e) (key_interval_region p))
    as [ks Hks]; [lia..|].
  destruct (region_write_is_Some F (length es) (ver e) (version_region p))
    as [vs Hvs]; [lia..|].
  destruct (region_write_is_Some F (length es) (ptr e) (pointer_region p))
    as [ps Hps]; [lia..|].
  unfold InternalPage.push_uncommitted. rewrite Hks Hvs Hps /=.
  apply region_write_take in Hks as (Tk & Lk & _), Hvs as (Tv & Lv & _), Hps as (Tp & Lp & _).
  eexists. split_and!; [done| |done].
  unfold int_rep. simpl. rewrite length_app Nat.add_1_r !fmap_app /= Tk Tv Tp Ek Ev Ep.
  split_and!; first [done|lia].
Qed.

Lemma int_rep_commit p es da dd :
  int_rep F p es → int_rep F (InternalPage.commit_delta p da dd) es.
Proof. done. Qed.

Lemma int_rep_mark p es i e :
  int_rep F p es → es !! i = Some e →
  int_rep F (InternalPage.mark_version_obsolete p i) (<[i := mark e]> es).
Proof.
  intros (Ek & Ev & Ep & ? & ? & ?) Hi. unfold int_rep. simpl.
  rewrite length_insert length_alter !list_fmap_insert /=. split_and!; try done.
  - rewrite list_insert_id //. by rewrite list_lookup_fmap Hi.
  - rewrite -Ev. apply list_eq. intros j.
    assert (version_region p !! i = Some (ver e)) as Hvi.
    { rewrite -(lookup_take_lt _ (length es)); [|by eapply lookup_lt_Some].
      by rewrite Ev list_lookup_fmap Hi. }
    destruct (decide (j < length es)).
    + rewrite lookup_take_lt //. destruct (decide (i = j)) as [<-|].
      * rewrite list_lookup_alter_eq list_lookup_insert_eq ?Hvi //.
        rewrite length_take. apply lookup_lt_Some in Hvi. lia.
      * rewrite list_lookup_alter_ne // list_lookup_insert_ne // lookup_take_lt //.
    + rewrite !lookup_ge_None_2 //; rewrite ?length_insert length_take; lia.
  - rewrite list_insert_id //. by rewrite list_lookup_fmap Hi.
Qed.

Lemma int_wf_sum p es : int_wf F p es → InternalPage.sum_len p = length es.
Proof.
  intros (_ & _ & Hc). unfold InternalPage.sum_len. rewrite (len_counts_sum _ _ _ Hc).
  pose proof (n_active_le es). lia.
Qed.

Lemma int_wf_bound p es : int_wf F p es → length es ≤ F.
Proof. intros (Hrep & _). by apply int_rep_length in Hrep as (_ & _ & _ & ?). Qed.

Lemma int_wf_active p es : int_wf F p es →
  InternalPage.active_dead_count p =
  (Z.of_nat (n_active es), Z.of_nat (length es - n_active es)).
Proof.
  intros (_ & _ & Hc). unfold InternalPage.active_dead_count, from_len.
  by rewrite (len_counts_active _ _ _ Hc) (len_counts_dead _ _ _ Hc).
Qed.

Lemma int_wf_active_len p es : int_wf F p es → InternalPage.active_len p = n_active es.
Proof.
  intros (_ & _ & Hc). unfold InternalPage.active_len.
  rewrite (len_counts_active _ _ _ Hc). lia.
Qed.

Lemma int_wf_keys p es : int_wf F p es → InternalPage.keys p = fence <$> es.
Proof.
  intros H. unfold InternalPage.keys. rewrite (int_wf_sum _ _ H).
  by destruct H as ((? & ? & ?) & _).
Qed.

Lemma int_wf_versions p es : int_wf F p es → InternalPage.versions p = ver <$> es.
Proof.
  intros H. unfold InternalPage.versions. rewrite (int_wf_sum _ _ H).
  by destruct H as ((? & ? & ?) & _).
Qed.

Lemma int_wf_children p es : int_wf F p es → InternalPage.children p = ptr <$> es.
Proof.
  intros H. unfold InternalPage.children. rewrite (int_wf_sum _ _ H).
  by destruct H as ((? & ? & ? & _) & _).
Qed.

Lemma take_fmap_lookup {A} (f : Entry → A) (l : list A) es i e :
  take (length es) l = f <$> es → es !! i = Some e → l !! i = Some (f e).
Proof.
  intros Ht Hi. rewrite -(lookup_take_lt _ (length es)); [|by eapply lookup_lt_Some].
  by rewrite Ht list_lookup_fmap Hi.
Qed.

Lemma int_rep_get p es i e : int_rep F p es → es !! i = Some e →
  InternalPage.get_key p i = Some (fence e) ∧
  InternalPage.get_version p i = Some (ver e) ∧
  InternalPage.get_pointer p i = Some (ptr e).
Proof.
  intros (Ek & Ev & Ep & _) Hi. unfold InternalPage.get_key, InternalPage.get_version,
    InternalPage.get_pointer. split_and!; by eapply take_fmap_lookup.
Qed.

Lemma int_new_wf : (Z.of_nat F < 2 ^ 16)%Z → int_wf F InternalPage.new [].
Proof. intros HF. split_and!; [apply int_rep_new|done|]. done. Qed.

(** Filling an empty page with active entries. *)
Lemma int_bulk_push p es :
  int_wf F p [] → Forall active es → length es ≤ F →
  ∃ p', InternalPage.bulk_push F p (triple <$> es) = Some p' ∧ int_wf F p' es.
Proof.
  intros Hwf Hes Hle. unfold InternalPage.bulk_push.
  rewrite (int_wf_active_len _ _ Hwf). change (n_active []) with 0.
  rewrite -!list_fmap_compose length_fmap.
  destruct Hwf as ((_ & _ & _ & Lk & Lv & Lp) & HF & _).
  destruct (region_write_all_app F 0 (fence <$> es) (key_interval_region p))
    as (ks & Hks & Tk & _ & Mk); [rewrite length_fmap /=; lia|lia|].
  destruct (region_write_all_app F 0 (ver <$> es) (version_region p))
    as (vs & Hvs & Tv & _ & Mv); [rewrite length_fmap /=; lia|lia|].
  destruct (region_write_all_app F 0 (ptr <$> es) (pointer_region p))
    as (ps & Hps & Tp & _ & Mp); [rewrite length_fmap /=; lia|lia|].
  unfold compose, triple. simpl. rewrite Hks Hvs Hps /=.
  rewrite !length_fmap /= in Tk, Mk, Tv, Mv, Tp, Mp.
  eexists. split; [done|]. split_and!; simpl; [|done|].
  - unfold int_rep. simpl. split_and!; first [done|lia].
  - rewrite (n_active_all _ Hes) Nat.sub_diag. split_and!; [lia|lia|].
    unfold u32_wrap. rewrite Z.mod_small; [done|lia].
Qed.
End internal_view.
