(* ===== verification/Node.v ===== *)
(** * Nodes and their fill degree

    [src/src/mv_page_model/node.rs] (the tagged union of the two pages), the
    capacities of [src/src/mv_block/block_handle.rs], and the fill thresholds
    of [src/src/mv_tree/smo.rs] that decide when a node is split or merged. *)
From S2P Require Import Prelude Version Interval PageLen LeafPage InternalPage.

(** The tag [m_type] and the page it selects. *)
Inductive Node (P : Type) :=
  | Leaf (page : LeafPage P)
  | Index (page : InternalPage).
Arguments Leaf {_} _.
Arguments Index {_} _.

Definition PAGE_TYPE_INTERNAL : nat := 0.
Definition PAGE_TYPE_LEAF : nat := 1.

Module Node.
Section node.
Context {P : Type}.
Implicit Types (self : Node P).

Definition m_type self : nat :=
  match self with Index _ => PAGE_TYPE_INTERNAL | Leaf _ => PAGE_TYPE_LEAF end.
Definition is_leaf self : bool := bool_decide (m_type self = PAGE_TYPE_LEAF).

Definition new_leaf : Node P := Leaf LeafPage.new.
Definition new_internal : Node P := Index InternalPage.new.

(** The accessors of the wrong page kind are [unreachable!]: [None]. *)
Definition as_records self : option (list (RecordPoint P)) :=
  match self with Leaf p => Some (LeafPage.as_records p) | Index _ => None end.
Definition keys self : option (list Interval) :=
  match self with Index p => Some (InternalPage.keys p) | Leaf _ => None end.
Definition children self : option (list BlockRef) :=
  match self with Index p => Some (InternalPage.children p) | Leaf _ => None end.
Definition keys_versions_pointers self
    : option (list Interval * list Version * list BlockRef) :=
  match self with
  | Index p => Some (InternalPage.keys_versions_pointers p)
  | Leaf _ => None
  end.
Definition as_leaf_page self : option (LeafPage P) :=
  match self with Leaf p => Some p | Index _ => None end.
Definition as_internal_page self : option InternalPage :=
  match self with Index p => Some p | Leaf _ => None end.

Definition len self : nat :=
  match self with
  | Index p => InternalPage.sum_len p
  | Leaf p => LeafPage.len p
  end.

Definition on_reuse self : Node P :=
  match self with
  | Index p => Index (InternalPage.on_reuse p)
  | Leaf p => Leaf (LeafPage.on_reuse p)
  end.

(** Changing the tag of a recycled node: the length word is shared by the
    two page kinds, the slots are taken as not initialised. *)
Definition mark_leaf self : Node P :=
  match self with
  | Leaf p => Leaf p
  | Index p => Leaf (mkLeafPage (int_len p) [])
  end.
Definition mark_internal self : Node P :=
  match self with
  | Index p => Index p
  | Leaf p => Index (mkInternalPage (leaf_len p) [] [] [])
  end.

Definition clone (FAN_OUT NUM_RECORDS : nat) self : option (Node P) :=
  match self with
  | Leaf p => Leaf <$> LeafPage.from NUM_RECORDS p
  | Index p => Index <$> InternalPage.from FAN_OUT p
  end.

Definition active_dead_count self : Active * Dead :=
  match self with
  | Index p => InternalPage.active_dead_count p
  | Leaf p => LeafPage.active_dead_count p
  end.
End node.
End Node.

(** ** Fill thresholds *)
Inductive BlockUnsafeDegree := DegreeOk | Overflow | ActiveUnderflow.

#[export] Instance BlockUnsafeDegree_eq_dec : EqDecision BlockUnsafeDegree.
Proof. solve_decision. Defined.

Section degree.
Context {P : Type} (FAN_OUT NUM_RECORDS : nat).
Implicit Types (self : Node P).

Definition max_records : nat := NUM_RECORDS.
Definition overflow_records_count : nat := max_records.
Definition max_keys : nat := FAN_OUT.
Definition overflow_keys_count : nat := max_keys - 1.

Definition max_units self : nat := if Node.is_leaf self then max_records else max_keys.
Definition filling_40_percent self : nat := (2 * max_units self + 4) / 5.
Definition filling_80_percent self : nat := (4 * max_units self + 4) / 5.
Definition filling_20_percent self : nat := (max_units self + 4) / 5.
Definition overflow_units_count self : nat :=
  if Node.is_leaf self then overflow_records_count else overflow_keys_count.

Definition counts self : nat * nat :=
  let '(active, dead) := Node.active_dead_count self in (Z.to_nat active, Z.to_nat dead).

Definition unsafe_degree self : BlockUnsafeDegree :=
  let '(active, dead) := counts self in
  let one_d := filling_20_percent self in
  if decide (active <= one_d) then ActiveUnderflow
  else
    let is_overflow := bool_decide (overflow_units_count self <= active + dead) in
    if is_overflow && bool_decide (active <= one_d * 2) then ActiveUnderflow
    else if is_overflow then Overflow
    else DegreeOk.

Definition unsafe_degree_root self : BlockUnsafeDegree :=
  let '(active, dead) := counts self in
  let is_leaf := Node.is_leaf self in
  if bool_decide (active = 1) && negb is_leaf then ActiveUnderflow
  else if decide (overflow_units_count self <= active + dead) then Overflow
  else DegreeOk.

(** The units a well-formed node holds. *)
Inductive node_counts : Node P → nat → nat → Prop :=
  | counts_leaf p rs : leaf_wf NUM_RECORDS p rs →
      node_counts (Leaf p) (n_live rs) (length rs)
  | counts_index p es : int_wf FAN_OUT p es →
      node_counts (Index p) (n_active es) (length es).

Lemma counts_node self a s : node_counts self a s → counts self = (a, s - a).
Proof.
  destruct 1 as [p rs H|p es H]; unfold counts, Node.active_dead_count.
  - rewrite (leaf_wf_active _ _ _ H). f_equal; lia.
  - rewrite (int_wf_active _ _ _ H). f_equal; lia.
Qed.

Lemma node_counts_le self a s : node_counts self a s → a ≤ s.
Proof. destruct 1; [apply n_live_le|apply n_active_le]. Qed.

Ltac degree H :=
  rewrite (counts_node _ _ _ H);
  pose proof (node_counts_le _ _ _ H);
  repeat (case_decide || case_bool_decide || simpl);
  try (split; intros; first [done|lia|congruence]).

Lemma unsafe_degree_ok self a s :
  node_counts self a s →
  unsafe_degree self = DegreeOk ↔
  filling_20_percent self < a ∧ s < overflow_units_count self.
Proof. intros H. unfold unsafe_degree. degree H. Qed.

Lemma unsafe_degree_overflow self a s :
  node_counts self a s →
  unsafe_degree self = Overflow ↔
  2 * filling_20_percent self < a ∧ overflow_units_count self ≤ s.
Proof. intros H. unfold unsafe_degree. degree H. Qed.

Lemma unsafe_degree_underflow self a s :
  node_counts self a s →
  unsafe_degree self = ActiveUnderflow ↔
  a ≤ filling_20_percent self ∨
  (a ≤ 2 * filling_20_percent self ∧ overflow_units_count self ≤ s).
Proof. intros H. unfold unsafe_degree. degree H. Qed.

Lemma unsafe_degree_root_ok self a s :
  node_counts self a s →
  unsafe_degree_root self = DegreeOk ↔
  (a ≠ 1 ∨ Node.is_leaf self = true) ∧ s < overflow_units_count self.
Proof.
  intros H. unfold unsafe_degree_root. rewrite (counts_node _ _ _ H).
  pose proof (node_counts_le _ _ _ H).
  destruct (Node.is_leaf self); repeat (case_decide || case_bool_decide || simpl);
    (split; intros; first [done|lia|naive_solver lia]).
Qed.

Lemma unsafe_degree_root_underflow self a s :
  node_counts self a s →
  unsafe_degree_root self = ActiveUnderflow ↔ a = 1 ∧ Node.is_leaf self = false.
Proof.
  intros H. unfold unsafe_degree_root. rewrite (counts_node _ _ _ H).
  destruct (Node.is_leaf self); repeat (case_decide || case_bool_decide || simpl);
    naive_solver.
Qed.
End degree.
