(* ===== verification/Clock.v ===== *)
(** * The commit clock

    [src/src/mv_sync/clock.rs] and [src/src/mv_sync/version_handle.rs]: the
    global counter that hands out versions, one commit slot per thread, and the
    cached minimum of the slots that readers take as their snapshot. This file
    has the operations as a thread runs them alone; [ClockProtocol.v] has their
    interleavings. *)
From S2P Require Import Prelude Version.
Local Open Scope Z_scope.

Definition Tid := nat.

(** [GLOBAL_DIRTY]. *)
Inductive DirtyFlag := CLEAN | DIRTY | SCANNING.
#[export] Instance DirtyFlag_eq_dec : EqDecision DirtyFlag.
Proof. solve_decision. Defined.

Definition MAX_READS_IN_ROW_EPSILON : Z := 100.
Definition READ_IN_ROW_INACTIVE : Z := U64_MAX.
Definition INACTIVE_COMMIT_VERSION_MAX : Version := U64_MAX.
Definition MAX_THREADS : nat := 4096.

(** The statics of the module, the counter of one tree and the thread-local
    read counters. A slot that is not in the map still has its initial value. *)
Record ClockSt := mkClock {
  clock_time : Version;             (* [GlobalClock.0] *)
  global_min : Version;             (* [GLOBAL_MIN] *)
  dirty : DirtyFlag;                (* [GLOBAL_DIRTY] *)
  slots : gmap Tid Version;         (* [SLOTS] *)
  next_tid : nat;                   (* [THREAD_ID] *)
  free_tids : list Tid;             (* [FREE_TIDS] *)
  reads_in_row : gmap Tid Z;        (* [STATE.reads_in_row] of each thread *)
}.

Definition slot (s : ClockSt) (t : Tid) : Version :=
  default INACTIVE_COMMIT_VERSION_MAX (slots s !! t).
Definition reads (s : ClockSt) (t : Tid) : Z := default 0 (reads_in_row s !! t).

Definition set_time (s : ClockSt) v := mkClock v (global_min s) (dirty s) (slots s)
  (next_tid s) (free_tids s) (reads_in_row s).
Definition set_global_min (s : ClockSt) v := mkClock (clock_time s) v (dirty s) (slots s)
  (next_tid s) (free_tids s) (reads_in_row s).
Definition set_dirty (s : ClockSt) d := mkClock (clock_time s) (global_min s) d (slots s)
  (next_tid s) (free_tids s) (reads_in_row s).
Definition set_slot (s : ClockSt) t v := mkClock (clock_time s) (global_min s) (dirty s)
  (<[t := v]> (slots s)) (next_tid s) (free_tids s) (reads_in_row s).
Definition set_tids (s : ClockSt) n f := mkClock (clock_time s) (global_min s) (dirty s)
  (slots s) n f (reads_in_row s).
Definition set_reads (s : ClockSt) t r := mkClock (clock_time s) (global_min s) (dirty s)
  (slots s) (next_tid s) (free_tids s) (<[t := r]> (reads_in_row s)).

(** The statics before any thread used the clock, with a fresh [GlobalClock]. *)
Definition clock_init : ClockSt :=
  mkClock START_VERSION START_VERSION CLEAN ∅ 0 [] ∅.

(** ** Commit slots *)
Definition thread_local_commit (s : ClockSt) (id : Tid) (version : Version) : ClockSt :=
  set_dirty (set_slot s id version) DIRTY.

Definition thread_local_commit_inactive (s : ClockSt) (id : Tid) : ClockSt :=
  thread_local_commit s id INACTIVE_COMMIT_VERSION_MAX.

Module ThreadState.
Definition has_active_commit (s : ClockSt) (t : Tid) : bool :=
  negb (reads s t =? READ_IN_ROW_INACTIVE).
Definition set_inactive_commit (s : ClockSt) (t : Tid) : ClockSt :=
  thread_local_commit_inactive (set_reads s t READ_IN_ROW_INACTIVE) t.
Definition has_reads_in_row_max (s : ClockSt) (t : Tid) : bool :=
  MAX_READS_IN_ROW_EPSILON <? reads s t.
Definition inc_reads (s : ClockSt) (t : Tid) : ClockSt := set_reads s t (reads s t + 1).
Definition reset_reads (s : ClockSt) (t : Tid) : ClockSt := set_reads s t 0.

(** A recycled or a fresh thread id; the assertion on [MAX_THREADS] is [None]. *)
Definition new (s : ClockSt) : option (Tid * ClockSt) :=
  '(tid, s) ← match reverse (free_tids s) with
    | tid :: rest => Some (tid, set_tids s (next_tid s) (reverse rest))
    | [] =>
        if decide (next_tid s < MAX_THREADS)%nat
        then Some (next_tid s, set_tids s (S (next_tid s)) [])
        else None
    end;
  Some (tid, set_reads s tid 0).

Definition drop (s : ClockSt) (t : Tid) : ClockSt :=
  let s := thread_local_commit_inactive s t in
  set_tids s (next_tid s) (free_tids s ++ [t]).
End ThreadState.

Definition release_thread_commit (s : ClockSt) (t : Tid) : ClockSt :=
  ThreadState.set_inactive_commit s t.

(** ** Snapshots *)
Definition compare_exchange (s : ClockSt) (expected new : DirtyFlag) : bool * ClockSt :=
  if decide (dirty s = expected) then (true, set_dirty s new) else (false, s).

(** The fold over the slots of the registered threads. *)
Definition min_commit (s : ClockSt) (n : nat) (start : Version) : Version :=
  foldl (λ acc t, Z.min acc (slot s t)) start (seq 0 n).

Definition fetch_max (s : ClockSt) (v : Version) : Version * ClockSt :=
  (global_min s, set_global_min s (Z.max (global_min s) v)).

Definition committed_snapshot (s : ClockSt) (time : Version) : Version * ClockSt :=
  let d := dirty s in
  if decide (d = CLEAN) then (global_min s, s)
  else
    let '(owns_scan, s) :=
      if decide (d = DIRTY) then compare_exchange s DIRTY SCANNING else (false, s) in
    let agg_min_commit := min_commit s (next_tid s) time in
    let '(oo_min, s) := fetch_max s agg_min_commit in
    let s := if owns_scan then snd (compare_exchange s SCANNING CLEAN) else s in
    (Z.max agg_min_commit oo_min, s).

Definition committed_read (s : ClockSt) (t : Tid) (time : Version) : Version * ClockSt :=
  let s :=
    if ThreadState.has_active_commit s t then
      if ThreadState.has_reads_in_row_max s t
      then ThreadState.set_inactive_commit s t
      else ThreadState.inc_reads s t
    else s in
  committed_snapshot s time.

(** ** The global clock *)
Module GlobalClock.
Definition current_version (s : ClockSt) : Version := clock_time s.

(** [fetch_add(1)] after the calling thread's read counter is reset. *)
Definition start_commit (s : ClockSt) (t : Tid) : Version * ClockSt :=
  let s := ThreadState.reset_reads s t in
  (clock_time s, set_time s (u64_wrap (clock_time s + 1))).

Definition end_commit (s : ClockSt) (t : Tid) (version : Version) : ClockSt :=
  thread_local_commit s t version.
End GlobalClock.

Definition current_version_for_reader (s : ClockSt) (t : Tid) : Version * ClockSt :=
  committed_read s t (clock_time s).

(** ** Facts about the fold and the operations *)
Lemma slot_set_slot s t v t' :
  slot (set_slot s t v) t' = if decide (t = t') then v else slot s t'.
Proof. unfold slot. simpl. rewrite lookup_insert. by case_decide. Qed.

Lemma min_commit_S s n start :
  min_commit s (S n) start = Z.min (min_commit s n start) (slot s n).
Proof. unfold min_commit. by rewrite seq_S foldl_app. Qed.

Lemma min_commit_le s n start : min_commit s n start ≤ start.
Proof. induction n as [|n IH]; [done|]. rewrite min_commit_S. lia. Qed.

Lemma min_commit_slot s n start t : (t < n)%nat → min_commit s n start ≤ slot s t.
Proof.
  induction n as [|n IH]; [lia|]. intros Ht. rewrite min_commit_S.
  destruct (decide (t = n)) as [->|]; [lia|]. specialize (IH ltac:(lia)). lia.
Qed.

Lemma min_commit_glb s n start v :
  v ≤ start → (∀ t, (t < n)%nat → v ≤ slot s t) → v ≤ min_commit s n start.
Proof.
  intros Hs Ht. induction n as [|n IH]; [done|]. rewrite min_commit_S.
  apply Z.min_glb; [apply IH; intros; apply Ht; lia|apply Ht; lia].
Qed.

Lemma min_commit_ext s s' n start :
  (∀ t, (t < n)%nat → slot s t = slot s' t) → min_commit s n start = min_commit s' n start.
Proof.
  intros H. induction n as [|n IH]; [done|]. rewrite !min_commit_S H; [|lia].
  rewrite IH; [done|]. intros. apply H. lia.
Qed.
