(* ===== verification/ClockProtocol.v ===== *)
(** * Interleavings of the commit clock

    Every load, store, compare-exchange and read-modify-write of
    [src/src/mv_sync/clock.rs] as one step of one thread: a commit draws its
    version, stores it in its slot and only then raises the dirty flag; a reader
    loads the flag, may claim the scan, reads the slots one at a time, publishes
    the minimum and may clean the flag. *)
From S2P Require Import Prelude Version Clock.
Local Open Scope Z_scope.

(** Where a thread is between two of its accesses. *)
Inductive PC :=
  | Idle
  | InFlight (v : Version)                       (* version drawn, slot store pending *)
  | Published (then_read : option Version)       (* slot stored, flag store pending *)
  | Deactivate (ct : Version)                    (* too many reads: slot store pending *)
  | LoadDirty (ct : Version)
  | CasDirty (ct : Version)
  | LoadTids (owns : bool) (ct : Version)
  | Scan (owns : bool) (n i : nat) (acc : Version)
  | FetchMax (owns : bool) (acc : Version)
  | CasClean (r : Version)
  | Done (r : Version).

Record Config := mkConfig { st : ClockSt; pcs : gmap Tid PC }.

Definition pc (c : Config) (t : Tid) : PC := default Idle (pcs c !! t).
Definition goto (c : Config) (t : Tid) (s : ClockSt) (p : PC) : Config :=
  mkConfig s (<[t := p]> (pcs c)).

Definition after_publish (k : option Version) : PC :=
  match k with Some ct => LoadDirty ct | None => Idle end.

(** The step a thread takes next. Where the code leaves the choice to its
    caller (an idle thread, and a commit that is abandoned), [choice] makes it. *)
Inductive Choice := ChCommit | ChAbandon | ChRead | ChFree | ChRelease | ChNext.

Definition step_of (c : Config) (t : Tid) (ch : Choice) : option Config :=
  let s := st c in
  match pc c t, ch with
  | Idle, ChCommit =>
      let '(v, s) := GlobalClock.start_commit s t in Some (goto c t s (InFlight v))
  | Idle, ChRead =>
      let ct := clock_time s in
      if ThreadState.has_active_commit s t then
        if ThreadState.has_reads_in_row_max s t
        then Some (goto c t (set_reads s t READ_IN_ROW_INACTIVE) (Deactivate ct))
        else Some (goto c t (ThreadState.inc_reads s t) (LoadDirty ct))
      else Some (goto c t s (LoadDirty ct))
  | Idle, ChFree => Some (goto c t s (LoadDirty U64_MAX))
  | Idle, ChRelease =>
      Some (goto c t
        (set_slot (set_reads s t READ_IN_ROW_INACTIVE) t INACTIVE_COMMIT_VERSION_MAX)
        (Published None))
  | InFlight v, ChNext => Some (goto c t (set_slot s t v) (Published None))
  | InFlight v, ChAbandon => Some (goto c t s Idle)
  | Deactivate ct, ChNext =>
      Some (goto c t (set_slot s t INACTIVE_COMMIT_VERSION_MAX) (Published (Some ct)))
  | Published k, ChNext => Some (goto c t (set_dirty s DIRTY) (after_publish k))
  | LoadDirty ct, ChNext =>
      match dirty s with
      | CLEAN => Some (goto c t s (Done (global_min s)))
      | DIRTY => Some (goto c t s (CasDirty ct))
      | SCANNING => Some (goto c t s (LoadTids false ct))
      end
  | CasDirty ct, ChNext =>
      let '(ok, s) := compare_exchange s DIRTY SCANNING in
      Some (goto c t s (LoadTids ok ct))
  | LoadTids o ct, ChNext => Some (goto c t s (Scan o (next_tid s) 0 ct))
  | Scan o n i acc, ChNext =>
      if decide (i < n)%nat
      then Some (goto c t s (Scan o n (S i) (Z.min acc (slot s i))))
      else Some (goto c t s (FetchMax o acc))
  | FetchMax o acc, ChNext =>
      let '(oo, s) := fetch_max s acc in
      let r := Z.max acc oo in
      Some (goto c t s (if o then CasClean r else Done r))
  | CasClean r, ChNext =>
      let '(_, s) := compare_exchange s SCANNING CLEAN in Some (goto c t s (Done r))
  | Done _, ChNext => Some (goto c t s Idle)
  | _, _ => None
  end.

Inductive step : Config → Config → Prop :=
  | step_thread c t ch c' :
      (t < next_tid (st c))%nat → step_of c t ch = Some c' → step c c'
  | step_register c :
      (next_tid (st c) < MAX_THREADS)%nat →
      step c (mkConfig (set_tids (st c) (S (next_tid (st c))) (free_tids (st c))) (pcs c)).

(** A run picks the thread and its choice at every step; it is executable. *)
Fixpoint run (c : Config) (sched : list (Tid * Choice)) : option Config :=
  match sched with
  | [] => Some c
  | (t, ch) :: sched =>
      if decide (t < next_tid (st c))%nat
      then c' ← step_of c t ch; run c' sched
      else None
  end.

Lemma pc_goto c t s p t' : pc (goto c t s p) t' = if decide (t = t') then p else pc c t'.
Proof. unfold pc, goto. simpl. rewrite lookup_insert. by case_decide. Qed.

Lemma run_rtc c sched c' : run c sched = Some c' → rtc step c c'.
Proof.
  revert c. induction sched as [|[t ch] sched IH]; intros c; simpl.
  { intros [= ->]. done. }
  case_decide as Ht; [|done]. intros (c1 & Hc1 & Hrun)%bind_Some.
  eapply rtc_l; [by eapply step_thread|]. by apply IH.
Qed.

(** One goal per step of [step_of], with the successor written out. *)
Ltac step_cases H :=
  unfold step_of in H;
  let Hpc := fresh "Hpc" in
  match type of H with context [pc ?c ?t] => destruct (pc c t) eqn:Hpc end;
  match type of H with context [match ?ch with _ => _ end] => destruct ch end;
  try discriminate H;
  unfold compare_exchange, fetch_max, GlobalClock.start_commit in H; cbv zeta in H;
  repeat (case_match; try discriminate H); simplify_eq.

(** ** The cached minimum only grows *)
Lemma step_of_inv c t ch c' :
  step_of c t ch = Some c' → ∃ s p, c' = goto c t s p.
Proof.
  intros H. step_cases H; by do 2 eexists.
Qed.

Lemma global_min_mono c c' : step c c' → global_min (st c) ≤ global_min (st c').
Proof.
  destruct 1 as [c t ch c' _ H|c _]; [|done].
  step_cases H; simpl; lia.
Qed.

Lemma global_min_mono_rtc c c' : rtc step c c' → global_min (st c) ≤ global_min (st c').
Proof. induction 1 as [|c1 c2 c3 H%global_min_mono _ IH]; lia. Qed.

(** ** The snapshot protocol *)

(** No commit that is in flight, or still to come, has a version up to [r]. *)
Definition stable (c : Config) (r : Version) : Prop :=
  r < clock_time (st c) ∧ ∀ t v, pc c t = InFlight v → r < v.

(** The discipline under which the protocol is sound: commits in flight have a
    slot that is in use, and so has the thread [a]. *)
Definition disciplined (a : Tid) (c : Config) : Prop :=
  (∀ t v, pc c t = InFlight v → slot (st c) t ≠ INACTIVE_COMMIT_VERSION_MAX) ∧
  slot (st c) a ≠ INACTIVE_COMMIT_VERSION_MAX ∧
  clock_time (st c) < U64_MAX.

Definition dstep (a : Tid) (c c' : Config) : Prop := step c c' ∧ disciplined a c'.

Definition pc_ok (a : Tid) (c : Config) (p : PC) : Prop :=
  match p with
  | Scan _ n i acc =>
      (a < n)%nat ∧ (i <= n)%nat ∧
      (∀ t, (n <= t)%nat → slot (st c) t = INACTIVE_COMMIT_VERSION_MAX) ∧
      (∀ t, (t < i)%nat → slot (st c) t ≠ INACTIVE_COMMIT_VERSION_MAX →
        acc < clock_time (st c)) ∧
      (∀ t v, (t < i)%nat → pc c t = InFlight v → acc < v)
  | FetchMax _ r | CasClean r | Done r => stable c r
  | _ => True
  end.

Record clock_inv (a : Tid) (c : Config) : Prop := {
  inv_anchor : (a < next_tid (st c))%nat;
  inv_unregistered t : (next_tid (st c) <= t)%nat →
    slot (st c) t = INACTIVE_COMMIT_VERSION_MAX;
  inv_slot t : slot (st c) t ≠ INACTIVE_COMMIT_VERSION_MAX →
    slot (st c) t < clock_time (st c);
  inv_flight t v : pc c t = InFlight v → slot (st c) t < v < clock_time (st c);
  inv_min : stable c (global_min (st c));
  inv_pc t : pc_ok a c (pc c t);
}.

(** What one step can do to the state the invariant speaks of. *)
Record evolve (c c' : Config) : Prop := {
  ev_time : clock_time (st c) ≤ clock_time (st c');
  ev_slot t : slot (st c') t = slot (st c) t ∨
    slot (st c') t = INACTIVE_COMMIT_VERSION_MAX ∨
    (pc c t = InFlight (slot (st c') t) ∧ pc c' t = Published None);
  ev_flight t v : pc c' t = InFlight v → pc c t = InFlight v ∨
    (v = clock_time (st c) ∧ v < clock_time (st c') ∧ slot (st c') t = slot (st c) t);
  ev_tid : (next_tid (st c) <= next_tid (st c'))%nat;
}.

Lemma step_of_evolve c t ch c' :
  0 ≤ clock_time (st c) < U64_MAX → step_of c t ch = Some c' → evolve c c'.
Proof.
  intros Ht H.
  assert (u64_wrap (clock_time (st c) + 1) = clock_time (st c) + 1) as Hw.
  { unfold u64_wrap. apply Z.mod_small. unfold U64_MAX in Ht. lia. }
  step_cases H; split; intros; simpl in *; rewrite -> ?pc_goto, ?slot_set_slot in *;
    repeat case_decide; simplify_eq;
    try solve [lia | tauto | right; split_and!; (lia || done)
              | unfold after_publish in *; case_match; discriminate
              | case_match; discriminate].
Qed.

Lemma step_evolve c c' :
  0 ≤ clock_time (st c) < U64_MAX → step c c' → evolve c c'.
Proof.
  intros Ht H. destruct H as [c t ch c' _ H|c _]; [by eapply step_of_evolve|].
  split; simpl; [done|by left|by left|lia].
Qed.

Lemma stable_evolve c c' r : evolve c c' → stable c r → stable c' r.
Proof.
  intros E [Ht Hf]. split; [pose proof (ev_time _ _ E); lia|].
  intros t v [Hv|(-> & _)]%(ev_flight _ _ E); [by eapply Hf|done].
Qed.

Lemma pc_ok_evolve a c c' p :
  evolve c c' → disciplined a c → disciplined a c' → pc_ok a c p → pc_ok a c' p.
Proof.
  intros E (Hd & _) (Hd' & _). destruct p; simpl; try done; try by apply stable_evolve.
  intros (Ha & Hi & Hn & Hact & Hfl). split_and!; try done.
  - intros t Ht. destruct (ev_slot _ _ E t) as [->|[->|[Hf _]]]; [by apply Hn|done|].
    exfalso. by eapply (Hd _ _ Hf), Hn.
  - intros t Ht Hs. pose proof (ev_time _ _ E).
    assert (slot (st c) t ≠ INACTIVE_COMMIT_VERSION_MAX) as Hs'; [|specialize (Hact t Ht Hs'); lia].
    destruct (ev_slot _ _ E t) as [Heq|[Heq|[Hf _]]]; [by rewrite -Heq|done|by eapply Hd].
  - intros t v Ht Hv. pose proof (Hd' _ _ Hv) as Hs.
    apply (ev_flight _ _ E) in Hv as [Hv|(-> & _ & Heq)]; [by eapply Hfl|].
    apply (Hact t Ht). by rewrite -Heq.
Qed.

Lemma stable_max c r1 r2 : stable c r1 → stable c r2 → stable c (r1 `max` r2).
Proof.
  intros [Ht Hf] [Ht' Hf']. split; [lia|].
  intros u v Hv. specialize (Hf _ _ Hv). specialize (Hf' _ _ Hv). lia.
Qed.

(** The point the stepping thread arrives at is fine. *)
Lemma pc_ok_own a c t ch c' :
  clock_inv a c → disciplined a c → step_of c t ch = Some c' → pc_ok a c (pc c' t).
Proof.
  intros I (Hd & Ha & _) H. pose proof (inv_pc _ _ I t) as Hok.
  step_cases H; rewrite pc_goto decide_True //; simpl in *; try done;
    try (unfold after_publish; by case_match).
  - (* the flag is clean *) by apply I.
  - (* the scan starts *)
    split_and!; [apply I|lia|apply I|lia|lia].
  - (* one slot is read *)
    destruct Hok as (Han & Hin & Hn & Hact & Hfl). split_and!; [done|lia|done|..].
    + intros u Hu Hs. destruct (decide (u < i)%nat) as [Hlt|].
      * specialize (Hact u Hlt Hs). lia.
      * assert (u = i) as -> by lia. pose proof (inv_slot _ _ I _ Hs). lia.
    + intros u v Hu Hv. destruct (decide (u < i)%nat) as [Hlt|].
      * specialize (Hfl u v Hlt Hv). lia.
      * assert (u = i) as -> by lia. pose proof (inv_flight _ _ I _ _ Hv). lia.
  - (* the scan is over *)
    destruct Hok as (Han & Hin & Hn & Hact & Hfl). assert (i = n) as -> by lia. split.
    + by apply (Hact a).
    + intros u v Hv. destruct (decide (u < n)%nat) as [Hlt|]; [by eapply Hfl|].
      exfalso. apply (Hd _ _ Hv). apply Hn. lia.
  - (* the minimum is published by the owner of the scan *)
    apply stable_max; [done|apply I].
  - (* or by another reader *)
    apply stable_max; [done|apply I].
Qed.

Lemma step_of_min a c t ch c' :
  clock_inv a c → step_of c t ch = Some c' → stable c (global_min (st c')).
Proof.
  intros I H. pose proof (inv_pc _ _ I t) as Hok. pose proof (inv_min _ _ I) as Hm.
  step_cases H; simpl in *; try done; by apply stable_max.
Qed.

Lemma clock_inv_step a c c' :
  clock_inv a c → 0 ≤ clock_time (st c) → disciplined a c → dstep a c c' → clock_inv a c'.
Proof.
  intros I H0 Hd [Hstep Hd']. pose proof Hd as (Hda & _ & Hdc).
  pose proof (step_evolve _ _ (conj H0 Hdc) Hstep) as E.
  pose proof (ev_tid _ _ E) as Etid. pose proof (ev_time _ _ E) as Etime.
  split.
  - pose proof (inv_anchor _ _ I). lia.
  - intros t Ht. destruct (ev_slot _ _ E t) as [->|[->|[Hf _]]]; [apply I; lia|done|].
    exfalso. eapply (Hda _ _ Hf), I. lia.
  - intros t Hs. destruct (ev_slot _ _ E t) as [Heq|[Heq|[Hf _]]]; [|done|].
    + rewrite Heq. rewrite Heq in Hs. pose proof (inv_slot _ _ I _ Hs). lia.
    + pose proof (inv_flight _ _ I _ _ Hf). lia.
  - intros t v Hv. pose proof (proj1 Hd' _ _ Hv) as Hs.
    pose proof Hv as [Hv'|(-> & Hlt & Heq)]%(ev_flight _ _ E).
    + pose proof (inv_flight _ _ I _ _ Hv'). destruct (ev_slot _ _ E t) as [->|[?|[_ Hp]]];
        [lia|done|congruence].
    + rewrite Heq. rewrite Heq in Hs. pose proof (inv_slot _ _ I _ Hs). lia.
  - eapply stable_evolve; [done|]. destruct Hstep as [c t ch c' _ H|c _]; [|apply I].
    by eapply step_of_min.
  - intros t. eapply (pc_ok_evolve a c c'); [done..|].
    destruct Hstep as [c u ch c' _ H|c _]; [|apply I].
    destruct (decide (u = t)) as [<-|Hne]; [by eapply pc_ok_own|].
    apply step_of_inv in H as (s & p & ->). rewrite pc_goto decide_False //. apply I.
Qed.

Lemma clock_inv_rtc a c c' :
  clock_inv a c → 0 ≤ clock_time (st c) → disciplined a c → rtc (dstep a) c c' →
  clock_inv a c' ∧ 0 ≤ clock_time (st c') ∧ disciplined a c'.
Proof.
  intros I H0 Hd Hr. induction Hr as [c|c c1 c2 Hs _ IH]; [done|].
  apply IH; [by eapply clock_inv_step| |apply Hs].
  destruct Hs as [Hs _]. pose proof (ev_time _ _ (step_evolve _ _ (conj H0 (proj2 (proj2 Hd))) Hs)).
  lia.
Qed.

(** ** Bounds on the snapshots handed out *)

(** The value a read has settled on, if it has. *)
Definition settled (p : PC) : option Version :=
  match p with CasClean r | Done r => Some r | _ => None end.

Lemma step_settled c c' t r :
  step c c' → settled (pc c' t) = Some r →
  settled (pc c t) = Some r ∨ (global_min (st c) ≤ r ∧ r = global_min (st c')).
Proof.
  intros Hs Hr. destruct Hs as [c u ch c' _ H|c _]; [|by left].
  destruct (decide (u = t)) as [->|Hne].
  - step_cases H; rewrite pc_goto decide_True // in Hr; simpl in *; simplify_eq;
      try (unfold after_publish in Hr; case_match; simplify_eq);
      first [by left | right; simpl; lia].
  - left. apply step_of_inv in H as (s & p & ->).
    by rewrite pc_goto decide_False in Hr.
Qed.

(** From a point where [t] has not settled yet, whatever it settles on is at
    least the minimum published at that point. *)
Lemma settled_lower c c' t r :
  rtc step c c' → settled (pc c t) = None → settled (pc c' t) = Some r →
  global_min (st c) ≤ r.
Proof.
  intros Hr Hn. revert c' Hr r.
  refine (rtc_ind_r (λ c', ∀ r, settled (pc c' t) = Some r → global_min (st c) ≤ r) c _ _);
    [congruence|].
  intros c' c1 Hr Hs IH r H1. destruct (step_settled _ _ _ _ Hs H1) as [H|[H _]]; [by apply IH|].
  pose proof (global_min_mono_rtc _ _ Hr). lia.
Qed.

(** And at most the minimum published when it settled. *)
Lemma settled_upper c c' :
  rtc step c c' → (∀ t r, settled (pc c t) = Some r → r ≤ global_min (st c)) →
  ∀ t r, settled (pc c' t) = Some r → r ≤ global_min (st c').
Proof.
  intros Hr H0. revert c' Hr.
  refine (rtc_ind_r (λ c', ∀ t r, settled (pc c' t) = Some r → r ≤ global_min (st c')) c _ _);
    [done|].
  intros c' c1 Hr Hs IH t r H1. destruct (step_settled _ _ _ _ Hs H1) as [H|[_ ->]]; [|lia].
  apply IH in H. pose proof (global_min_mono _ _ Hs). lia.
Qed.

(** [n] threads that have not done anything yet, on a fresh clock. *)
Definition fresh (n : nat) : Config := mkConfig (set_tids clock_init n []) ∅.

Lemma fresh_settled n t : settled (pc (fresh n) t) = None.
Proof. unfold pc, fresh. simpl. by rewrite lookup_empty. Qed.

(** ** Versions are handed out once *)
Definition bstep (c c' : Config) : Prop := step c c' ∧ clock_time (st c') < U64_MAX.

Definition versions_ok (c : Config) : Prop :=
  0 ≤ clock_time (st c) < U64_MAX ∧
  (∀ t v, pc c t = InFlight v → v < clock_time (st c)) ∧
  (∀ t u v, pc c t = InFlight v → pc c u = InFlight v → t = u).

Lemma versions_ok_step c c' : versions_ok c → bstep c c' → versions_ok c'.
Proof.
  intros (Ht & Hb & Hu) [Hs Hlt]. pose proof (step_evolve _ _ Ht Hs) as E.
  pose proof (ev_time _ _ E). split_and!; [lia|lia|..].
  - intros t v [Hv|(-> & ? & _)]%(ev_flight _ _ E); [|done]. specialize (Hb _ _ Hv). lia.
  - intros t u v H1 H2. destruct Hs as [c w ch c' _ Hw|c _]; [|by eapply Hu].
    assert (∀ x, w ≠ x → pc c' x = pc c x) as Hne.
    { intros x Hx. apply step_of_inv in Hw as (s & p & ->). by rewrite pc_goto decide_False. }
    pose proof (ev_flight _ _ E _ _ H1) as F1. pose proof (ev_flight _ _ E _ _ H2) as F2.
    destruct F1 as [F1|(-> & _)], F2 as [F2|(? & _)].
    + by eapply Hu.
    + subst v. specialize (Hb _ _ F1). lia.
    + specialize (Hb _ _ F2). lia.
    + assert (∀ x y, pc c' x = InFlight y → y = clock_time (st c) → w = x) as Hw'.
      { intros x y Hx ->. destruct (decide (w = x)) as [|Hwx]; [done|].
        rewrite Hne // in Hx. specialize (Hb _ _ Hx). lia. }
      rewrite -(Hw' _ _ H1) //. by apply (Hw' _ _ H2).
Qed.

Lemma versions_ok_rtc c c' : versions_ok c → rtc bstep c c' → versions_ok c'.
Proof. intros H Hr. induction Hr; [done|]. eauto using versions_ok_step. Qed.

(** ** Executable runs that keep to the discipline *)
Definition flight_ok (s : ClockSt) (t : Tid) (p : PC) : Prop :=
  match p with InFlight _ => slot s t ≠ INACTIVE_COMMIT_VERSION_MAX | _ => True end.

#[local] Instance flight_ok_dec s t p : Decision (flight_ok s t p).
Proof. destruct p; apply _. Defined.

#[export] Instance disciplined_dec (a : Tid) (c : Config) : Decision (disciplined a c).
Proof.
  destruct (decide
    (map_Forall (flight_ok (st c)) (pcs c) ∧
     slot (st c) a ≠ INACTIVE_COMMIT_VERSION_MAX ∧ clock_time (st c) < U64_MAX)) as [H|H].
  - left. destruct H as (H1 & H2 & H3). split_and!; [|done|done].
    intros t v. unfold pc. destruct (pcs c !! t) as [p|] eqn:Hp; [|done]. simpl. intros ->.
    by apply (H1 t (InFlight v)).
  - right. intros (H1 & H2 & H3). apply H. split_and!; [|done|done].
    intros t p Hp. destruct p; try done. eapply H1. unfold pc. by rewrite Hp.
Defined.

Fixpoint drun (a : Tid) (c : Config) (sched : list (Tid * Choice)) : option Config :=
  match sched with
  | [] => Some c
  | (t, ch) :: sched =>
      if decide (t < next_tid (st c))%nat
      then c' ← step_of c t ch;
           if decide (disciplined a c') then drun a c' sched else None
      else None
  end.

Lemma drun_rtc a c sched c' : drun a c sched = Some c' → rtc (dstep a) c c'.
Proof.
  revert c. induction sched as [|[t ch] sched IH]; intros c; simpl.
  { intros [= ->]. done. }
  case_decide as Ht; [|done]. intros (c1 & Hc1 & Hrun)%bind_Some.
  case_decide as Hd; [|done].
  eapply rtc_l; [split; [by eapply step_thread|done]|]. by apply IH.
Qed.

Lemma stable_rtc a c c' r :
  clock_inv a c → 0 ≤ clock_time (st c) → disciplined a c → rtc (dstep a) c c' →
  stable c r → stable c' r.
Proof.
  intros I H0 Hd Hr. revert I H0 Hd. induction Hr as [c|c c1 c2 Hs _ IH]; [done|].
  intros I H0 Hd Hst. pose proof (step_evolve _ _ (conj H0 (proj2 (proj2 Hd))) (proj1 Hs)) as E.
  apply IH; [by eapply clock_inv_step|pose proof (ev_time _ _ E); lia|apply Hs|].
  by eapply stable_evolve.
Qed.

Definition is_flight (p : PC) : bool := match p with InFlight _ => true | _ => false end.

Lemma no_flight c :
  map_Forall (λ _ p, is_flight p = false) (pcs c) → ∀ t v, pc c t ≠ InFlight v.
Proof.
  intros H t v Hp. unfold pc in Hp. destruct (pcs c !! t) as [p|] eqn:E; [|done].
  simpl in Hp. subst p. by apply H in E.
Qed.

Fixpoint brun (c : Config) (sched : list (Tid * Choice)) : option Config :=
  match sched with
  | [] => Some c
  | (t, ch) :: sched =>
      if decide (t < next_tid (st c))%nat
      then c' ← step_of c t ch;
           if decide (clock_time (st c') < U64_MAX) then brun c' sched else None
      else None
  end.

Lemma brun_rtc c sched c' : brun c sched = Some c' → rtc bstep c c'.
Proof.
  revert c. induction sched as [|[t ch] sched IH]; intros c; simpl.
  { intros [= ->]. done. }
  case_decide as Ht; [|done]. intros (c1 & Hc1 & Hrun)%bind_Some.
  case_decide as Hd; [|done].
  eapply rtc_l; [split; [by eapply step_thread|done]|]. by apply IH.
Qed.

(** Two threads that have committed once each: versions 1 and 2. *)
Definition commit_by (t : Tid) : list (Tid * Choice) := [(t, ChCommit); (t, ChNext); (t, ChNext)].
Definition read_by (t : Tid) (k : nat) : list (Tid * Choice) := (t, ChRead) :: replicate k (t, ChNext).
Definition warm : Config := default (fresh 2) (run (fresh 2) (commit_by 0%nat ++ commit_by 1%nat)).

Lemma warm_pcs : pcs warm = <[1%nat := Idle]> (<[0%nat := Idle]> ∅).
Proof. by vm_compute. Qed.

Lemma warm_slots : slots (st warm) = <[1%nat := 2]> (<[0%nat := 1]> ∅).
Proof. by vm_compute. Qed.

Lemma warm_pc t : pc warm t = Idle.
Proof. unfold pc. rewrite warm_pcs !lookup_insert. by repeat case_decide. Qed.

Lemma warm_slot t : (2 <= t)%nat → slot (st warm) t = INACTIVE_COMMIT_VERSION_MAX.
Proof. intros Ht. unfold slot. rewrite warm_slots !lookup_insert_ne //; lia. Qed.

Lemma warm_inv : clock_inv 0%nat warm ∧ 0 ≤ clock_time (st warm) ∧ disciplined 0%nat warm.
Proof.
  split_and!; [|done|].
  - split.
    + vm_compute. lia.
    + intros t Ht. apply warm_slot. by vm_compute in Ht.
    + intros t Hs. destruct t as [|[|t]]; [done|done|]. rewrite warm_slot // in Hs. lia.
    + intros t v. by rewrite warm_pc.
    + split; [done|]. intros t v. by rewrite warm_pc.
    + intros t. by rewrite warm_pc.
  - split_and!; [|done|done]. intros t v. by rewrite warm_pc.
Qed.

(** ** One thread alone: the steps compute the operations *)
Lemma run_app c l1 l2 : run c (l1 ++ l2) = (c' ← run c l1; run c' l2).
Proof.
  revert c. induction l1 as [|[t ch] l1 IH]; intros c; [done|]. simpl.
  case_decide; [|done]. destruct (step_of c t ch); [|done]. simpl. apply IH.
Qed.

Definition nexts (t : Tid) (k : nat) : list (Tid * Choice) := replicate k (t, ChNext).

Lemma run_next c t k :
  (t < next_tid (st c))%nat → run c (nexts t (S k)) = (c' ← step_of c t ChNext; run c' (nexts t k)).
Proof. intros Ht. simpl. by rewrite decide_True. Qed.

(** The scan adds the slots up to the bound to what it has. *)
Lemma run_scan c t o n i acc :
  pc c t = Scan o n i acc → (t < next_tid (st c))%nat → (i ≤ n)%nat →
  ∃ c', run c (nexts t (S (n - i))) = Some c' ∧ st c' = st c ∧
    pc c' t = FetchMax o (foldl (λ acc t, Z.min acc (slot (st c) t)) acc (seq i (n - i))).
Proof.
  remember (n - i)%nat as k eqn:Hk. revert c i acc Hk.
  induction k as [|k IH]; intros c i acc Hk Hpc Ht Hi; rewrite run_next //.
  - unfold step_of. rewrite Hpc decide_False; [|lia]. simpl.
    eexists. split; [done|]. split; [done|]. by rewrite pc_goto decide_True.
  - unfold step_of. rewrite Hpc decide_True; [|lia].
    destruct (IH (goto c t (st c) (Scan o n (S i) (Z.min acc (slot (st c) i)))) (S i)
      (Z.min acc (slot (st c) i))) as (c' & Hrun & Hst & Hpc'); [lia| |done|lia|].
    { by rewrite pc_goto decide_True. }
    exists c'. split_and!; [exact Hrun|done|done].
Qed.

Lemma compare_exchange_hit s e n :
  dirty s = e → compare_exchange s e n = (true, set_dirty s n).
Proof. intros <-. unfold compare_exchange. by rewrite decide_True. Qed.

(** Publishing what a scan found. *)
Lemma run_publish c t o acc :
  pc c t = FetchMax o acc → (t < next_tid (st c))%nat →
  ∃ k c', run c (nexts t k) = Some c' ∧ pc c' t = Done (Z.max acc (global_min (st c))) ∧
    st c' = let s := set_global_min (st c) (Z.max (global_min (st c)) acc) in
            if o then snd (compare_exchange s SCANNING CLEAN) else s.
Proof.
  intros Hpc Ht. destruct o.
  - exists 2%nat. rewrite run_next //. unfold step_of at 1. rewrite Hpc. simpl.
    rewrite decide_True //. unfold step_of. rewrite pc_goto decide_True //. simpl.
    destruct (compare_exchange _ SCANNING CLEAN) as [b s] eqn:Hce. simpl.
    eexists. split_and!; [done|by rewrite pc_goto decide_True|done].
  - exists 1%nat. rewrite run_next //. unfold step_of. rewrite Hpc. simpl.
    eexists. split_and!; [done| |done]. by rewrite pc_goto decide_True.
Qed.

(** From the load of the flag on. *)
Lemma run_snapshot c t ct :
  pc c t = LoadDirty ct → (t < next_tid (st c))%nat →
  ∃ k c', run c (nexts t k) = Some c' ∧
    pc c' t = Done (fst (committed_snapshot (st c) ct)) ∧
    st c' = snd (committed_snapshot (st c) ct).
Proof.
  intros Hpc Ht.
  assert (∀ (o : bool) c, pc c t = LoadTids o ct → (t < next_tid (st c))%nat →
    ∃ k c', run c (nexts t k) = Some c' ∧
      pc c' t = Done (Z.max (min_commit (st c) (next_tid (st c)) ct) (global_min (st c))) ∧
      st c' = let s := set_global_min (st c)
                (Z.max (global_min (st c)) (min_commit (st c) (next_tid (st c)) ct)) in
              if o then snd (compare_exchange s SCANNING CLEAN) else s) as Hscan.
  { clear. intros o c Hpc Ht.
    set (c1 := goto c t (st c) (Scan o (next_tid (st c)) 0 ct)).
    destruct (run_scan c1 t o (next_tid (st c)) 0 ct) as (c2 & R2 & S2 & P2);
      [by rewrite pc_goto decide_True|done|lia|].
    destruct (run_publish c2 t _ _ P2) as (k & c3 & R3 & P3 & S3); [by rewrite S2|].
    exists (S (S (next_tid (st c) - 0) + k)), c3. rewrite S2 /= in S3, P3.
    rewrite run_next //. unfold step_of. rewrite Hpc. cbn [mbind option_bind].
    unfold nexts. rewrite replicate_add run_app. change (replicate ?a (t, ChNext)) with (nexts t a).
    rewrite R2. cbn [mbind option_bind]. split_and!; [exact R3| |].
    - rewrite P3 /min_commit Nat.sub_0_r //.
    - rewrite S3 /min_commit Nat.sub_0_r //. }
  unfold committed_snapshot. destruct (dirty (st c)) eqn:Hd.
  - exists 1%nat. rewrite run_next //. unfold step_of. rewrite Hpc Hd. simpl.
    eexists. split_and!; [done| |done]. by rewrite pc_goto decide_True.
  - set (c1 := goto (goto c t (st c) (CasDirty ct)) t (set_dirty (st c) SCANNING) (LoadTids true ct)).
    destruct (Hscan true c1) as (k & c' & R & P & HS);
      [by rewrite pc_goto decide_True|done|].
    exists (S (S k)), c'. rewrite run_next //. unfold step_of at 1. rewrite Hpc Hd.
    cbn [mbind option_bind]. rewrite run_next //. unfold step_of at 1.
    rewrite pc_goto decide_True //. cbn [st goto].
    by rewrite compare_exchange_hit.
  - set (c1 := goto c t (st c) (LoadTids false ct)).
    destruct (Hscan false c1) as (k & c' & R & P & HS);
      [by rewrite pc_goto decide_True|done|].
    exists (S k), c'. rewrite run_next //. unfold step_of at 1. rewrite Hpc Hd.
    cbn [mbind option_bind]. by split_and!.
Qed.

(** * Properties *)

(** The step-wise protocol refines the operation. A thread that runs a read
    on its own, one atomic access at a time and from any state of the statics,
    stops after finitely many steps with exactly the value and the state that
    [current_version_for_reader] computes. *)
Theorem read_alone_refines (c : Config) (t : Tid) :
  pc c t = Idle → (t < next_tid (st c))%nat →
  ∃ k c', run c ((t, ChRead) :: nexts t k) = Some c' ∧
    pc c' t = Done (fst (current_version_for_reader (st c) t)) ∧
    st c' = snd (current_version_for_reader (st c) t).
Proof.
  intros Hpc Ht. unfold current_version_for_reader, committed_read.
  cbn [run]. destruct (decide _) as [_|]; [|done]. unfold step_of. rewrite Hpc.
  destruct (ThreadState.has_active_commit (st c) t);
    [destruct (ThreadState.has_reads_in_row_max (st c) t)|]; cbn [mbind option_bind].
  - set (c1 := goto c t _ (Deactivate _)).
    set (s3 := ThreadState.set_inactive_commit (st c) t).
    set (c2 := goto c1 t (set_slot (st c1) t INACTIVE_COMMIT_VERSION_MAX)
      (Published (Some (clock_time (st c))))).
    set (c3 := goto c2 t s3 (LoadDirty (clock_time (st c)))).
    destruct (run_snapshot c3 t (clock_time (st c))) as (k & c' & R & P & HS);
      [by rewrite pc_goto decide_True|done|].
    exists (S (S k)), c'. rewrite run_next // /step_of pc_goto decide_True //.
    cbn [mbind option_bind]. by rewrite run_next // /step_of pc_goto decide_True.
  - apply (run_snapshot (goto c t (ThreadState.inc_reads (st c) t) (LoadDirty (clock_time (st c)))));
      [by rewrite pc_goto decide_True|done].
  - apply (run_snapshot (goto c t (st c) (LoadDirty (clock_time (st c))))); [by rewrite pc_goto decide_True|done].
Qed.

Lemma read_alone_refines_witness :
  pc warm 0%nat = Idle ∧ (0 < next_tid (st warm))%nat ∧
  ∃ k c', run warm ((0%nat, ChRead) :: nexts 0%nat k) = Some c' ∧
    pc c' 0%nat = Done (fst (current_version_for_reader (st warm) 0%nat)) ∧
    st c' = snd (current_version_for_reader (st warm) 0%nat).
Proof.
  assert (0 < next_tid (st warm))%nat as H by (vm_compute; lia).
  split_and!; [exact eq_refl|exact H|exact (read_alone_refines warm 0%nat eq_refl H)].
Defined.

(** C23: a snapshot never changes. Once a reader has settled on the version [r],
    then, whatever the threads do from there on, no commit that is in flight or
    starts later has a version up to [r]: what a reader sees at [r] is complete.
    It holds of every interleaving in which commits in flight belong to threads
    whose slot is in use and one thread keeps its slot in use. *)
Theorem snapshot_stable (a : Tid) (c c1 c2 : Config) (t : Tid) (r : Version) :
  clock_inv a c → 0 ≤ clock_time (st c) → disciplined a c →
  rtc (dstep a) c c1 → pc c1 t = Done r → rtc (dstep a) c1 c2 →
  stable c2 r.
Proof.
  intros I H0 Hd H1 Hr H2. destruct (clock_inv_rtc _ _ _ I H0 Hd H1) as (I1 & H01 & Hd1).
  eapply stable_rtc; [done..|]. pose proof (inv_pc _ _ I1 t) as Hok. by rewrite Hr in Hok.
Qed.

(** A read of thread 0 that overlaps a commit of thread 1, and a commit after it. *)
Definition overlap1 : list (Tid * Choice) :=
  [(1, ChCommit); (0, ChRead)]%nat ++ nexts 0%nat 3 ++ [(1, ChNext)]%nat ++ nexts 0%nat 5.
Definition overlap2 : list (Tid * Choice) := [(1, ChNext); (0, ChNext); (0, ChCommit)]%nat.
Definition overlap_mid : Config := default warm (drun 0%nat warm overlap1).
Definition overlap_end : Config := default warm (drun 0%nat overlap_mid overlap2).

Lemma snapshot_stable_witness :
  pc overlap_mid 0%nat = Done 1 ∧ stable overlap_end 1.
Proof.
  assert (pc overlap_mid 0%nat = Done 1) as Hpc by (vm_compute; reflexivity).
  assert (rtc (dstep 0%nat) warm overlap_mid) as H1.
  { apply (drun_rtc 0%nat warm overlap1). vm_compute. reflexivity. }
  assert (rtc (dstep 0%nat) overlap_mid overlap_end) as H2.
  { apply (drun_rtc 0%nat overlap_mid overlap2). vm_compute. reflexivity. }
  destruct warm_inv as (I & H0 & Hd). split; [exact Hpc|].
  exact (snapshot_stable 0%nat warm overlap_mid overlap_end 0%nat 1 I H0 Hd H1 Hpc H2).
Defined.

(** C24: snapshots respect real time. A read that starts after another one has
    returned gets a version that is at least as new, in every interleaving from
    fresh statics, however the two overlap with commits and other readers. *)
Theorem snapshots_monotone (n : nat) (c1 c2 : Config) (t1 t2 : Tid) (r1 r2 : Version) :
  rtc step (fresh n) c1 → pc c1 t1 = Done r1 →
  settled (pc c1 t2) = None →
  rtc step c1 c2 → pc c2 t2 = Done r2 → r1 ≤ r2.
Proof.
  intros H1 Hr1 Hn H2 Hr2.
  assert (r1 ≤ global_min (st c1)).
  { refine (settled_upper (fresh n) c1 H1 _ t1 r1 _); [|by rewrite Hr1].
    intros t r. by rewrite fresh_settled. }
  etrans; [done|]. apply (settled_lower c1 c2 t2 r2 H2 Hn). by rewrite Hr2.
Qed.

Definition reads1 : Config := default warm (run (fresh 2) (commit_by 0%nat ++ read_by 0%nat 8)).
Definition reads2 : Config := default warm (run reads1 (commit_by 1%nat ++ read_by 1%nat 8)).

Lemma snapshots_monotone_witness :
  pc reads1 0%nat = Done 1 ∧ pc reads2 1%nat = Done 1 ∧ 1 ≤ 1.
Proof.
  assert (pc reads1 0%nat = Done 1) as H1 by (vm_compute; reflexivity).
  assert (pc reads2 1%nat = Done 1) as H2 by (vm_compute; reflexivity).
  assert (settled (pc reads1 1%nat) = None) as Hn by (vm_compute; reflexivity).
  assert (rtc step (fresh 2) reads1) as R1.
  { apply (run_rtc _ (commit_by 0%nat ++ read_by 0%nat 8)). vm_compute. reflexivity. }
  assert (rtc step reads1 reads2) as R2.
  { apply (run_rtc _ (commit_by 1%nat ++ read_by 1%nat 8)). vm_compute. reflexivity. }
  split_and!; [exact H1|exact H2|].
  exact (snapshots_monotone 2 reads1 reads2 0%nat 1%nat 1 1 R1 H1 Hn R2 H2).
Defined.

(** commit versions are unique. No interleaving hands the same version to
    two commits in flight, and every version handed out is below the clock, as
    long as the 64-bit counter has not wrapped. *)
Theorem commit_versions_unique (n : nat) (c : Config) (t u : Tid) (v w : Version) :
  rtc bstep (fresh n) c → pc c t = InFlight v → pc c u = InFlight w →
  v < clock_time (st c) ∧ (t ≠ u → v ≠ w).
Proof.
  intros Hr Ht Hu. destruct (versions_ok_rtc (fresh n) c) as (_ & Hb & Hi); [|done|].
  - split_and!; [done|done|..].
    + intros t' v'. by rewrite /pc /= lookup_empty.
    + intros t' u' v'. by rewrite /pc /= lookup_empty.
  - split; [by eapply Hb|]. intros Hne ->. apply Hne. by eapply Hi.
Qed.

Definition two_commits : Config := default warm (run warm [(0, ChCommit); (1, ChCommit)]%nat).

Lemma commit_versions_unique_witness :
  pc two_commits 0%nat = InFlight 3 ∧ pc two_commits 1%nat = InFlight 4 ∧
  3 < clock_time (st two_commits) ∧ (0%nat ≠ 1%nat → 3 ≠ 4).
Proof.
  assert (pc two_commits 0%nat = InFlight 3) as H0 by (vm_compute; reflexivity).
  assert (pc two_commits 1%nat = InFlight 4) as H1 by (vm_compute; reflexivity).
  assert (rtc bstep (fresh 2) two_commits) as R.
  { apply (brun_rtc _ (commit_by 0%nat ++ commit_by 1%nat ++ [(0, ChCommit); (1, ChCommit)]%nat)).
    vm_compute. reflexivity. }
  split_and!; [exact H0|exact H1|..];
    apply (commit_versions_unique 2 two_commits 0%nat 1%nat 3 4 R H0 H1).
Defined.

(** C25: a defect. The snapshot does not protect the first commit of a thread: a
    thread whose slot is still inactive draws version 2, another one commits 3,
    and a reader is handed the snapshot 3 while the commit of 2 is in flight. *)
Theorem first_commit_unprotected :
  ∃ sched c, run (fresh 2) sched = Some c ∧
    pc c 1%nat = InFlight 2 ∧ pc c 0%nat = Done 3 ∧ ¬ stable c 3.
Proof.
  exists (commit_by 0 ++ [(1, ChCommit)] ++ commit_by 0 ++ read_by 0 8)%nat.
  eexists. split_and!; [vm_compute; reflexivity|reflexivity|reflexivity|].
  intros [_ H]. specialize (H 1%nat 2 eq_refl). lia.
Qed.

(** A defect. On fresh statics the snapshot is 1, the very version that the
    first commit is given afterwards. *)
Theorem initial_snapshot_unstable :
  ∃ sched c, run (fresh 2) sched = Some c ∧
    pc c 0%nat = Done 1 ∧ pc c 1%nat = InFlight 1.
Proof.
  exists (read_by 0 1 ++ [(1, ChCommit)])%nat.
  eexists. split_and!; [vm_compute; reflexivity|reflexivity|reflexivity].
Qed.

(** A defect. Freeing a block takes a snapshot at [Version::MAX]; when every
    slot is inactive at that moment the cached minimum becomes the largest
    version, and from then on every reader is handed it as its snapshot. *)
Theorem free_poisons_snapshots :
  ∃ sched c, run (fresh 1) sched = Some c ∧ clock_time (st c) = 2 ∧
    (∀ t, settled (pc c t) = None) ∧
    ∀ c' t r, rtc step c c' → pc c' t = Done r → U64_MAX ≤ r.
Proof.
  exists (commit_by 0 ++ [(0, ChRelease); (0, ChNext); (0, ChFree)] ++ nexts 0 8)%nat.
  eexists. split; [vm_compute; reflexivity|]. split; [reflexivity|].
  assert (∀ t, settled (pc {| st := mkClock 2 U64_MAX CLEAN {[ 0%nat := U64_MAX ]} 1 []
    {[ 0%nat := U64_MAX ]}; pcs := {[ 0%nat := Idle ]} |} t) = None) as Hs.
  { intros t. unfold pc. simpl. rewrite lookup_insert. by case_decide. }
  split; [exact Hs|]. intros c' t r Hr Hd.
  apply (settled_lower _ c' t r Hr); [apply Hs|by rewrite Hd].
Qed.

(** A divergence from the comment on the flag. Its states recycle: the final
    compare-exchange of one owner can clean the flag that another owner set, which
    erases the notification of a commit. Thread 0 has completed its commit of
    version 2 and no commit is in flight, and its own next snapshot is 1. *)
Theorem notification_erased :
  ∃ sched c, run (fresh 3) sched = Some c ∧ dirty (st c) = CLEAN ∧
    global_min (st c) = 1 ∧ slot (st c) 0%nat = 2 ∧ pc c 0%nat = Done 1 ∧
    (∀ t v, pc c t ≠ InFlight v).
Proof.
  exists (commit_by 0 ++ read_by 1 8 ++ commit_by 0 ++ read_by 2 2 ++ [(1, ChNext)]
    ++ read_by 0 1)%nat.
  eexists. split; [vm_compute; reflexivity|]. split_and!; [reflexivity..|].
  apply no_flight. apply (bool_decide_unpack _). vm_compute. exact I.
Qed.
