(* ===== verification/Gc.v ===== *)
(** * Live readers and dead blocks

    [src/src/mv_gc/]: the trace of registered and pinned readers
    ([query_tracer.rs]), the graveyard of dead blocks ([block_tracer.rs]) and the
    handle that reclaims from it ([tracker_handle.rs]). The sets and the map are
    the ordered maps of [OrdMap.v]; a [fetch_add] of a sequence number wraps. *)
From stdpp Require Import gmultiset.
From S2P Require Import Prelude OrdMap Version InternalPage Clock.
#[local] Set Default Proof Using "Type*".
Local Open Scope Z_scope.

Definition SnapShot := Version.
Definition fetch_add (n : Z) : Z * Z := (n, u64_wrap (n + 1)).

Section gc.
Context {M : ∀ K, KeyOrder K → Type → Type} `{!OrdMap M, !OrdMapLaws M}.

(** [TransactionTrace(QueryTracer, PinTracer, AtomicU64)]. *)
Record TransactionTrace := mkTrace {
  queries : M (Z * Z) pair_KeyOrder ();
  pinned : M (Z * Z) pair_KeyOrder ();
  trace_seq : Z;
}.

Definition trace_new : TransactionTrace := mkTrace om_empty om_empty 0.

Definition opt_min (r p : option SnapShot) : option SnapShot :=
  match r, p with
  | Some r, Some p => Some (Z.min r p)
  | Some r, None => Some r
  | None, p => p
  end.

Definition peek_min (self : TransactionTrace) : option SnapShot :=
  let registered := (λ e, e.1.1) <$> om_front (queries self) in
  let pinned := (λ e, e.1.1) <$> om_front (pinned self) in
  opt_min registered pinned.

Definition pin (self : TransactionTrace) (lower_bound : SnapShot)
    : (SnapShot * Z) * TransactionTrace :=
  let '(n, seq) := fetch_add (trace_seq self) in
  let ticket := (lower_bound, n) in
  (ticket, mkTrace (queries self) (om_insert ticket () (pinned self)) seq).

Definition unpin (self : TransactionTrace) (ticket : SnapShot * Z) : TransactionTrace :=
  mkTrace (queries self) (om_remove ticket (pinned self)) (trace_seq self).

Definition peek_max (self : TransactionTrace) : option SnapShot :=
  if bool_decide (om_len (pinned self) ≠ 0%nat) then Some U64_MAX
  else (λ e, e.1.1) <$> om_back (queries self).

Definition on_tx_start (self : TransactionTrace) (snapshot : SnapShot) : TransactionTrace :=
  let '(n, seq) := fetch_add (trace_seq self) in
  mkTrace (om_insert (snapshot, n) () (queries self)) (pinned self) seq.

(** The first candidate of the range is the one [entry.remove()] succeeds on. *)
Definition on_tx_completed (self : TransactionTrace) (snapshot : SnapShot) : TransactionTrace :=
  match om_range (snapshot, 0) (snapshot, U64_MAX) (queries self) with
  | e :: _ => mkTrace (om_remove e.1 (queries self)) (pinned self) (trace_seq self)
  | [] => self
  end.

(** [BlockTrace(BlockTracerIndex, AtomicU64)]. *)
Record BlockTrace := mkBlockTrace {
  graveyard : M (Z * Z) pair_KeyOrder BlockRef;
  block_seq : Z;
}.

Definition block_trace_new : BlockTrace := mkBlockTrace om_empty 0.

Definition pop_min_if (self : BlockTrace) (is_reclaimable : Z → bool)
    : option BlockRef * BlockTrace :=
  match om_front (graveyard self) with
  | None => (None, self)
  | Some (k, b) =>
      if is_reclaimable k.1
      then (Some b, mkBlockTrace (om_remove k (graveyard self)) (block_seq self))
      else (None, self)
  end.

Definition register_died_page (self : BlockTrace) (death_version : Version) (page : BlockRef)
    : BlockTrace :=
  let '(n, seq) := fetch_add (block_seq self) in
  mkBlockTrace (om_insert (death_version, n) page (graveyard self)) seq.

Definition register_died_page_col (self : BlockTrace) (dead_pages : list (Version * BlockRef))
    : BlockTrace :=
  foldl (λ s d, register_died_page s d.1 d.2) self dead_pages.

(** [TrackerHandleSt]. *)
Record Tracker := mkTracker { live_tx : TransactionTrace; dead_blocks : BlockTrace }.

Definition tracker_new : Tracker := mkTracker trace_new block_trace_new.

Definition newest_live_si (self : Tracker) : option SnapShot := peek_max (live_tx self).

Definition pin_reader (self : Tracker) (lower_bound : SnapShot) : (SnapShot * Z) * Tracker :=
  let '(ticket, l) := pin (live_tx self) lower_bound in
  (ticket, mkTracker l (dead_blocks self)).

Definition unpin_reader (self : Tracker) (ticket : SnapShot * Z) : Tracker :=
  mkTracker (unpin (live_tx self) ticket) (dead_blocks self).

Definition tracker_on_tx_start (self : Tracker) (snap_shot : SnapShot) : Tracker :=
  mkTracker (on_tx_start (live_tx self) snap_shot) (dead_blocks self).

Definition tracker_on_tx_completed (self : Tracker) (snap_shot : SnapShot) : Tracker :=
  mkTracker (on_tx_completed (live_tx self) snap_shot) (dead_blocks self).

Definition tracker_register_died_page (self : Tracker) (v : Version) (page : BlockRef) : Tracker :=
  mkTracker (live_tx self) (register_died_page (dead_blocks self) v page).

Definition tracker_register_died_page_col (self : Tracker) (dead : list (Version * BlockRef))
    : Tracker :=
  mkTracker (live_tx self) (register_died_page_col (dead_blocks self) dead).

Definition free_block (self : Tracker) (c : ClockSt) : option BlockRef * (Tracker * ClockSt) :=
  let '(committed, c) := committed_snapshot c U64_MAX in
  let bound := match peek_min (live_tx self) with
               | Some live_min => Z.min live_min committed
               | None => committed
               end in
  let '(b, d) := pop_min_if (dead_blocks self) (λ death_version, death_version <? bound) in
  (b, (mkTracker (live_tx self) d, c)).

(** ** The contents, and the well-formed traces *)
Definition live_snapshots (self : TransactionTrace) : list SnapShot :=
  (λ e, e.1.1) <$> om_entries (queries self).
Definition pin_tickets (self : TransactionTrace) : list (SnapShot * Z) :=
  fst <$> om_entries (pinned self).
Definition dead_pages (self : BlockTrace) : list (Version * BlockRef) :=
  (λ e, (e.1.1, e.2)) <$> om_entries (graveyard self).

(** No sequence number was handed out twice, and the next ones do not wrap. *)
Definition seq_fresh {V} (m : M (Z * Z) pair_KeyOrder V) (seq : Z) : Prop :=
  0 ≤ seq ∧ ∀ e, e ∈ om_entries m → 0 ≤ e.1.2 < seq.

Definition trace_ok (room : Z) (self : TransactionTrace) : Prop :=
  seq_fresh (queries self) (trace_seq self) ∧ seq_fresh (pinned self) (trace_seq self) ∧
  trace_seq self + room ≤ U64_MAX.

Definition block_trace_ok (room : Z) (self : BlockTrace) : Prop :=
  seq_fresh (graveyard self) (block_seq self) ∧ block_seq self + room ≤ U64_MAX.

Lemma seq_fresh_absent {V} (m : M (Z * Z) pair_KeyOrder V) seq s w :
  seq_fresh m seq → ((s, seq), w) ∉ om_entries m.
Proof. intros [_ H] Hin. apply H in Hin. simpl in Hin. lia. Qed.

Lemma seq_fresh_insert {V} (m : M (Z * Z) pair_KeyOrder V) seq s w :
  seq_fresh m seq → seq_fresh (om_insert (s, seq) w m) (seq + 1).
Proof.
  intros [H0 H]. split; [lia|]. intros e [->|[He _]]%entries_insert; simpl; [lia|].
  apply H in He. lia.
Qed.

Lemma seq_fresh_remove {V} (m : M (Z * Z) pair_KeyOrder V) seq k :
  seq_fresh m seq → seq_fresh (om_remove k m) seq.
Proof. intros [H0 H]. split; [done|]. by intros e [He _]%entries_remove; apply H. Qed.

Lemma seq_fresh_le {V} (m : M (Z * Z) pair_KeyOrder V) seq seq' :
  seq ≤ seq' → seq_fresh m seq → seq_fresh m seq'.
Proof. intros Hle [H0 H]. split; [lia|]. intros e He. apply H in He. lia. Qed.

Lemma fetch_add_room n room : 0 ≤ n → 1 ≤ room → n + room ≤ U64_MAX → fetch_add n = (n, n + 1).
Proof. intros. unfold fetch_add, u64_wrap. rewrite Z.mod_small //. unfold U64_MAX in *. lia. Qed.

Lemma on_tx_start_perm room self s :
  trace_ok (room + 1) self → 0 ≤ room →
  live_snapshots (on_tx_start self s) ≡ₚ s :: live_snapshots self ∧
  pin_tickets (on_tx_start self s) = pin_tickets self ∧
  trace_ok room (on_tx_start self s).
Proof.
  intros (Hq & Hp & Hr) H0. unfold on_tx_start.
  rewrite (fetch_add_room _ (room + 1)); [|apply Hq|lia|done]. split_and!.
  - unfold live_snapshots. simpl. rewrite entries_insert_perm //.
    intros w. by apply seq_fresh_absent.
  - done.
  - split_and!; simpl; [by apply seq_fresh_insert| |lia]. eapply seq_fresh_le; [|done]. lia.
Qed.

Lemma pin_perm room self s :
  trace_ok (room + 1) self → 0 ≤ room →
  let '(ticket, self') := pin self s in
  ticket.1 = s ∧ (ticket ∉ pin_tickets self) ∧
  pin_tickets self' ≡ₚ ticket :: pin_tickets self ∧
  live_snapshots self' = live_snapshots self ∧ trace_ok room self'.
Proof.
  intros (Hq & Hp & Hr) H0. unfold pin.
  rewrite (fetch_add_room _ (room + 1)); [|apply Hq|lia|done].
  assert (∀ w, (s, trace_seq self, w) ∉ om_entries (pinned self)) as Hf.
  { intros w. by apply seq_fresh_absent. }
  split_and!; [done| | |done|].
  - intros ([k w] & Hk & He)%list_elem_of_fmap. simpl in Hk. subst k. by eapply Hf.
  - unfold pin_tickets. simpl. by rewrite entries_insert_perm.
  - split_and!; simpl; [|by apply seq_fresh_insert|lia]. eapply seq_fresh_le; [|done]. lia.
Qed.

Lemma unpin_perm room self t :
  trace_ok room self →
  (t ∈ pin_tickets self → pin_tickets self ≡ₚ t :: pin_tickets (unpin self t)) ∧
  (t ∉ pin_tickets self → pin_tickets (unpin self t) ≡ₚ pin_tickets self) ∧
  live_snapshots (unpin self t) = live_snapshots self ∧ trace_ok room (unpin self t).
Proof.
  intros (Hq & Hp & Hr). split_and!.
  - intros ([k []] & -> & He)%list_elem_of_fmap. unfold pin_tickets. simpl.
    by rewrite {1}(entries_remove_perm _ _ _ He).
  - intros Ht. unfold pin_tickets. simpl. rewrite entries_remove_absent //.
    intros w Hw. apply Ht. apply list_elem_of_fmap. by exists (t, w).
  - done.
  - by split_and!; [| apply seq_fresh_remove |].
Qed.

Lemma om_range_elem {V} (m : M (Z * Z) pair_KeyOrder V) seq s e :
  seq_fresh m seq → seq ≤ U64_MAX →
  e ∈ om_range (s, 0) (s, U64_MAX) m ↔ e ∈ om_entries m ∧ e.1.1 = s.
Proof.
  intros [_ H] Hs. unfold om_range. rewrite list_elem_of_filter. simpl. unfold lex_le. simpl.
  split; [intros [??]; split; [done|lia]|].
  intros [He Heq]. split; [|done]. apply H in He. lia.
Qed.

Lemma on_tx_completed_perm room self s :
  trace_ok room self → 0 ≤ room →
  (s ∈ live_snapshots self →
    live_snapshots self ≡ₚ s :: live_snapshots (on_tx_completed self s)) ∧
  (s ∉ live_snapshots self → on_tx_completed self s = self) ∧
  pin_tickets (on_tx_completed self s) = pin_tickets self ∧
  trace_ok room (on_tx_completed self s).
Proof.
  intros (Hq & Hp & Hr) H0. unfold on_tx_completed.
  pose proof (om_range_elem (queries self) (trace_seq self) s) as Hrange.
  destruct (om_range _ _ _) as [|[k []] l].
  - split_and!; [|done..]. intros (e & -> & He)%list_elem_of_fmap. exfalso.
    apply (not_elem_of_nil e), Hrange; [done|lia|done].
  - destruct (Hrange (k, ())) as [[Hin Hk] _]; [done|lia|by left|]. simpl in Hk. subst s. simpl.
    split_and!.
    + intros _. unfold live_snapshots. simpl. by rewrite {1}(entries_remove_perm _ _ _ Hin).
    + intros Hn. exfalso. apply Hn. apply list_elem_of_fmap. by exists (k, ()).
    + done.
    + by split_and!; [apply seq_fresh_remove| |].
Qed.

(** The least of the registered and the pinned snapshots. *)
Lemma front_min {V} (m : M (Z * Z) pair_KeyOrder V) :
  match (λ e, e.1.1) <$> om_front m with
  | Some v => v ∈ (λ e, e.1.1) <$> om_entries m ∧ ∀ e, e ∈ om_entries m → v ≤ e.1.1
  | None => om_entries m = []
  end.
Proof.
  destruct (om_front m) as [e|] eqn:He; simpl; [|by apply om_front_None].
  split.
  - apply list_elem_of_fmap. exists e. split; [done|]. by apply om_front_elem.
  - intros f Hf. pose proof (om_front_min _ _ He f Hf) as Hle. unfold kle in Hle. simpl in Hle.
    unfold lex_le in Hle. lia.
Qed.

Lemma peek_min_spec self :
  match peek_min self with
  | Some v => (∀ s, s ∈ live_snapshots self → v ≤ s) ∧ (∀ t, t ∈ pin_tickets self → v ≤ t.1) ∧
      (v ∈ live_snapshots self ∨ v ∈ fst <$> pin_tickets self)
  | None => live_snapshots self = [] ∧ pin_tickets self = []
  end.
Proof.
  unfold peek_min, live_snapshots, pin_tickets.
  pose proof (front_min (queries self)) as Hq. pose proof (front_min (pinned self)) as Hp.
  assert (∀ v, v ∈ (λ e : (Z * Z) * (), e.1.1) <$> om_entries (pinned self) →
    v ∈ fst <$> (fst <$> om_entries (pinned self))) as Hm.
  { intros v. by rewrite -list_fmap_compose. }
  destruct (_ <$> om_front (queries self)) as [r|], (_ <$> om_front (pinned self)) as [p|]; simpl.
  - destruct Hq as [Hq1 Hq2], Hp as [Hp1 Hp2]. split_and!.
    + intros s (e & -> & He)%list_elem_of_fmap. apply Hq2 in He. lia.
    + intros s (e & -> & He)%list_elem_of_fmap. apply Hp2 in He. lia.
    + destruct (Z.min_spec r p) as [[_ ->]|[_ ->]]; [by left|right; by apply Hm].
  - destruct Hq as [Hq1 Hq2]. rewrite Hp. split_and!; [|by intros t ?%elem_of_nil|by left].
    intros s (e & -> & He)%list_elem_of_fmap. by apply Hq2.
  - destruct Hp as [Hp1 Hp2]. rewrite Hq. split_and!; [by intros t ?%elem_of_nil| |right; by apply Hm].
    intros s (e & -> & He)%list_elem_of_fmap. by apply Hp2.
  - by rewrite Hq Hp.
Qed.

Lemma register_died_page_perm room self v b :
  block_trace_ok (room + 1) self → 0 ≤ room →
  dead_pages (register_died_page self v b) ≡ₚ (v, b) :: dead_pages self ∧
  block_trace_ok room (register_died_page self v b).
Proof.
  intros (Hg & Hr) H0. unfold register_died_page.
  rewrite (fetch_add_room _ (room + 1)); [|apply Hg|lia|done]. split.
  - unfold dead_pages. simpl. rewrite entries_insert_perm //. intros w. by apply seq_fresh_absent.
  - split; simpl; [by apply seq_fresh_insert|lia].
Qed.

Lemma pop_min_if_spec room self f :
  block_trace_ok room self →
  match pop_min_if self f with
  | (Some b, self') => ∃ v, f v = true ∧ dead_pages self ≡ₚ (v, b) :: dead_pages self' ∧
      (∀ d, d ∈ dead_pages self → v ≤ d.1) ∧ block_trace_ok room self'
  | (None, self') => self' = self ∧
      (∀ v, (∃ b, (v, b) ∈ dead_pages self) → (∀ d, d ∈ dead_pages self → v ≤ d.1) → f v = false)
  end.
Proof.
  intros (Hg & Hr). unfold pop_min_if. pose proof (front_min (graveyard self)) as Hm.
  destruct (om_front (graveyard self)) as [[k b]|] eqn:Hf; simpl in Hm.
  - destruct Hm as [_ Hm].
    assert (∀ d, d ∈ dead_pages self → k.1 ≤ d.1) as Hmin.
    { intros d (e & -> & He)%list_elem_of_fmap. by apply Hm. }
    apply om_front_elem in Hf. destruct (f k.1) eqn:Hfk; simpl; rewrite ?Hfk.
    + exists k.1. split_and!; [done| |done|].
      * unfold dead_pages. simpl. by rewrite {1}(entries_remove_perm _ _ _ Hf).
      * by split; [apply seq_fresh_remove|].
    + split; [done|]. intros v [b' Hv] Hvm.
      assert (v = k.1) as ->; [|done].
      specialize (Hmin _ Hv). simpl in Hmin.
      assert (v ≤ k.1); [|lia]. apply (Hvm (k.1, b)), list_elem_of_fmap. by exists (k, b).
  - split; [done|]. intros v [b Hv]. unfold dead_pages in Hv. rewrite Hm in Hv.
    by apply elem_of_nil in Hv.
Qed.

(** ** The abstract readers: a multiset of snapshots *)
Inductive TraceOp := OpStart (s : SnapShot) | OpCompleted (s : SnapShot).

Definition trace_op (self : TransactionTrace) (op : TraceOp) : TransactionTrace :=
  match op with OpStart s => on_tx_start self s | OpCompleted s => on_tx_completed self s end.

Definition readers_op (X : gmultiset Z) (op : TraceOp) : gmultiset Z :=
  match op with OpStart s => {[+ s +]} ⊎ X | OpCompleted s => X ∖ {[+ s +]} end.

Definition readers (self : TransactionTrace) : gmultiset Z :=
  list_to_set_disj (live_snapshots self).

Lemma elem_of_readers self s : s ∈ readers self ↔ s ∈ live_snapshots self.
Proof. apply elem_of_list_to_set_disj. Qed.

Lemma readers_trace_op room self op :
  trace_ok (room + 1) self → 0 ≤ room →
  readers (trace_op self op) = readers_op (readers self) op ∧ trace_ok room (trace_op self op).
Proof.
  intros Hok H0. destruct op as [s|s]; simpl.
  - destruct (on_tx_start_perm room self s) as (Hp & _ & Hok'); [done..|].
    split; [|done]. unfold readers. by rewrite Hp.
  - assert (trace_ok room self) as Hok'.
    { destruct Hok as (?&?&?). split_and!; [done..|lia]. }
    destruct (on_tx_completed_perm room self s) as (Hin & Hout & _ & Hok2); [done..|].
    split; [|done]. destruct (decide (s ∈ live_snapshots self)) as [Hs|Hs].
    + unfold readers. rewrite (Hin Hs). simpl. multiset_solver.
    + rewrite (Hout Hs).
      assert (s ∉ readers self) by (by rewrite elem_of_readers). multiset_solver.
Qed.

Lemma trace_new_ok room : 0 ≤ room ≤ U64_MAX → trace_ok room trace_new.
Proof.
  intros. split_and!; [split; [done|]..|simpl; lia]; simpl; rewrite entries_empty;
    by intros e ?%elem_of_nil.
Qed.

Lemma readers_new : readers trace_new = ∅.
Proof. unfold readers, live_snapshots. simpl. by rewrite entries_empty. Qed.

Lemma readers_ops ops self :
  trace_ok (Z.of_nat (length ops)) self →
  readers (foldl trace_op self ops) = foldl readers_op (readers self) ops.
Proof.
  revert self. induction ops as [|op ops IH]; intros self Hok; [done|]. simpl in *.
  destruct (readers_trace_op (Z.of_nat (length ops)) self op) as [H1 H2]; [|lia|].
  { by replace (Z.of_nat (length ops) + 1) with (Z.of_nat (S (length ops))) by lia. }
  rewrite IH //. by rewrite H1.
Qed.

(** The reader trace implements a multiset of snapshots. Whatever sequence of
    registrations and releases runs, the trace holds exactly the registered
    snapshots, each as often as it was registered and not yet released, and a
    release without a registration changes nothing. *)
Theorem trace_refines_multiset (ops : list TraceOp) :
  Z.of_nat (length ops) ≤ U64_MAX →
  readers (foldl trace_op trace_new ops) = foldl readers_op ∅ ops.
Proof.
  intros H. rewrite readers_ops; [|apply trace_new_ok; lia]. by rewrite readers_new.
Qed.

(** C28: a block is handed out for reuse only when no reader can reach it: its
    death version is below the committed snapshot, below the snapshot of every
    registered reader and below the announced bound of every pinned one. It
    leaves the graveyard, and nothing else changes there. *)
Theorem free_block_safe (room : Z) (tr : Tracker) (c : ClockSt) (b : BlockRef) (tr' : Tracker)
    (c' : ClockSt) :
  block_trace_ok room (dead_blocks tr) →
  free_block tr c = (Some b, (tr', c')) →
  ∃ d, dead_pages (dead_blocks tr) ≡ₚ (d, b) :: dead_pages (dead_blocks tr') ∧
    d < fst (committed_snapshot c U64_MAX) ∧
    (∀ s, s ∈ live_snapshots (live_tx tr) → d < s) ∧
    (∀ t, t ∈ pin_tickets (live_tx tr) → d < t.1) ∧
    live_tx tr' = live_tx tr.
Proof.
  intros Hok Hf. unfold free_block in Hf. destruct (committed_snapshot c U64_MAX) as [r c1].
  pose proof (pop_min_if_spec room (dead_blocks tr) (λ v, v <? match peek_min (live_tx tr) with
    Some m => Z.min m r | None => r end) Hok) as Hp.
  destruct (pop_min_if _ _) as [o d']. simplify_eq. destruct Hp as (v & Hv & Hperm & _ & _).
  exists v. simpl. apply Z.ltb_lt in Hv. pose proof (peek_min_spec (live_tx tr)) as Hm.
  destruct (peek_min (live_tx tr)) as [m|].
  - destruct Hm as (Hl & Ht & _). split_and!; [done|lia|..|done].
    + intros s Hs. specialize (Hl _ Hs). lia.
    + intros t Hin. specialize (Ht _ Hin). lia.
  - destruct Hm as [-> ->]. split_and!; [done|lia|by intros ? ?%elem_of_nil..|done].
Qed.

End gc.

(** ** Examples on association lists *)
Definition two_readers : list TraceOp :=
  [OpStart 7; OpStart 7; OpStart 9; OpCompleted 7; OpCompleted 8].

Lemma trace_refines_multiset_witness :
  readers (foldl trace_op (trace_new (M := AssocMap)) two_readers) =
  foldl readers_op ∅ two_readers.
Proof. apply (trace_refines_multiset (M := AssocMap) two_readers). vm_compute. discriminate. Defined.

(** Two blocks died at 3 and at 8, a reader is at 5, the committed snapshot is 6. *)
Definition gc_clock : ClockSt := set_global_min clock_init 6.
Definition gc_tracker : Tracker (M := AssocMap) :=
  tracker_on_tx_start
    (tracker_register_died_page_col tracker_new [(8, 20%nat); (3, 10%nat)]) 5.
Definition gc_tracker' : Tracker (M := AssocMap) := fst (snd (free_block gc_tracker gc_clock)).

Lemma gc_tracker_ok : block_trace_ok 10 (dead_blocks gc_tracker).
Proof.
  split; [split; [done|]|vm_compute; discriminate]. simpl.
  intros e [->|[->|He]%elem_of_cons]%elem_of_cons; [by split; vm_compute..|by apply elem_of_nil in He].
Qed.


Lemma free_block_safe_witness :
  ∃ d, dead_pages (dead_blocks gc_tracker) ≡ₚ (d, 10%nat) :: dead_pages (dead_blocks gc_tracker') ∧
    d < fst (committed_snapshot gc_clock U64_MAX) ∧
    (∀ s, s ∈ live_snapshots (live_tx gc_tracker) → d < s) ∧
    (∀ t, t ∈ pin_tickets (live_tx gc_tracker) → d < t.1) ∧
    live_tx gc_tracker' = live_tx gc_tracker.
Proof. exact (free_block_safe 10 gc_tracker gc_clock 10%nat gc_tracker' gc_clock gc_tracker_ok eq_refl). Defined.

