(* ===== verification/RootIndex.v ===== *)
(** * The index of the roots

    [src/src/mv_root/]: every root the tree ever had, by the version it became
    the root at. [frugal_root.rs] is the default, a list whose nodes also link
    back to an older tower node of at least their own level; [sk_root.rs],
    [tree_root.rs] and the linked list of [vanilla_root.rs] are the other
    variants of [index_root.rs]. The tree is proved against the interface
    [RootStore] at the end of this file. *)
From S2P Require Import Prelude OrdMap Version Tower Interval InternalPage Clock.
#[local] Set Default Proof Using "Type*".
Local Open Scope Z_scope.

Definition Height := nat.
Definition INIT_TREE_HEIGHT : Height := 1%nat.

Record Root := mkRoot { block : BlockRef; root_version : Version; height : Height }.

(** [ValueRootInner(block, height)]. *)
Definition ValueRootInner : Type := BlockRef * Height.
Definition initial (b : BlockRef) : ValueRootInner := (b, INIT_TREE_HEIGHT).
Definition make_start_value_root_inner (b : BlockRef) : ValueRootInner * Version :=
  (initial b, START_VERSION).

(** ** Coin tosses: [rand::random_bool] reads a stream of coins *)
Definition random_bool (coins : list bool) : bool * list bool :=
  match coins with c :: coins => (c, coins) | [] => (false, []) end.

(** [lvl] tosses; the coins decide when it stops. *)
Fixpoint pick_level_from (lvl : TowerLevel) (coins : list bool) : TowerLevel * list bool :=
  match coins with
  | true :: coins => pick_level_from (lvl + 1) coins
  | false :: coins => (lvl, coins)
  | [] => (lvl, [])
  end.
Definition pick_level (coins : list bool) : TowerLevel * list bool := pick_level_from 1 coins.

(** ** The frugal list *)
Record FrugalList := mkFrugal { fl_head : FrugalNode ValueRootInner; fl_coins : list bool }.

Module FrugalList.
Definition new (p : ValueRootInner) (v : Version) (cs : list bool) : FrugalList :=
  mkFrugal (FNode None None p v SENTINEL_LEVEL) cs.

Definition current_root (self : FrugalList) : ValueRootInner * Version :=
  (fn_payload (fl_head self), fn_version (fl_head self)).

Definition iter (self : FrugalList) : list (FrugalNode ValueRootInner) := iter_from (fl_head self).
Definition len (self : FrugalList) : nat := length (iter self).

Definition append_next (self : FrugalList) (p : ValueRootInner) (v : Version) : FrugalList :=
  let head := fl_head self in
  mkFrugal (FNode (Some head) (Some head) p v FLAT_LEVEL) (fl_coins self).

Definition append_tower (self : FrugalList) (p : ValueRootInner) (v : Version)
    : option FrugalList :=
  let '(new_tower_level, cs) := pick_level (fl_coins self) in
  curr ← climb new_tower_level (fl_head self);
  Some (mkFrugal (FNode (Some (fl_head self)) (Some curr) p v new_tower_level) cs).

Definition append (self : FrugalList) (p : ValueRootInner) (v : Version) : option FrugalList :=
  let '(tower, cs) := random_bool (fl_coins self) in
  let self := mkFrugal (fl_head self) cs in
  if tower then append_tower self p v else Some (append_next self p v).

Definition push := append.

Definition find (self : FrugalList) (look_up_version : Version) : option (option (FrugalNode ValueRootInner)) :=
  find_from (fl_head self) look_up_version.
End FrugalList.

(** ** The B+ tree of the [CCBPlusTree] crate *)
Class BPlusTree (T : Type → Type) := {
  bt_new {V} : T V;
  bt_peek_max {V} : T V → option (Version * V);
  bt_pred {V} : Version → T V → option (Version * V);
  bt_insert {V} : Version → V → T V → bool * T V;
  bt_height {V} : T V → nat;
  bt_records {V} : T V → list (Version * V);
}.

(** What the code relies on: the records by increasing key, the greatest, the
    greatest up to a key, and the insertion of a key greater than all others. *)
Class BPlusTreeLaws (T : Type → Type) `{!BPlusTree T} := {
  bt_records_new {V} : bt_records (bt_new : T V) = [];
  bt_peek_max_last {V} (t : T V) : bt_peek_max t = last (bt_records t);
  bt_pred_last {V} si (t : T V) : bt_pred si t = last (filter (λ e, e.1 ≤ si) (bt_records t));
  bt_insert_last {V} k (v : V) (t : T V) :
    (∀ e, e ∈ bt_records t → e.1 < k) →
    ∃ t', bt_insert k v t = (true, t') ∧ bt_records t' = bt_records t ++ [(k, v)];
}.

(** ** The variants *)
Inductive RootIndexType := TFrugalList | TSkipList | TBTree | TLinkedList.

Section index.
Context {M : ∀ K, KeyOrder K → Type → Type} `{!OrdMap M, !OrdMapLaws M}.
Context {T : Type → Type} `{!BPlusTree T, !BPlusTreeLaws T}.

Definition RootSkipList : Type := M Z Z_KeyOrder ValueRootInner.
Definition RootTree : Type := T ValueRootInner.

Inductive RootIndex :=
  | FrugalRoots (fg : FrugalList)
  | BTreeRoots (t : RootTree)
  | SkipListRoots (sk : RootSkipList)
  | LinkedListRoots (ll : list Root).

Definition entry_root (e : Version * ValueRootInner) : Root := mkRoot e.2.1 e.1 e.2.2.
Definition node_root (n : FrugalNode ValueRootInner) : Root :=
  mkRoot (fn_payload n).1 (fn_version n) (fn_payload n).2.

(** [RootSkipList] and [RootTree]; [None] is an [unwrap] or [unreachable!]. *)
Definition sk_height (sk : RootSkipList) : option Height := (λ e, e.2.2) <$> om_back sk.
Definition sk_current_root (sk : RootSkipList) : option Root := entry_root <$> om_back sk.
Definition sk_root_for (sk : RootSkipList) (si : Version) : option Root :=
  entry_root <$> last (om_upto si sk).
Definition sk_append_root (sk : RootSkipList) (root : Root) : bool * RootSkipList :=
  (true, om_insert (root_version root) (block root, height root) sk).

Definition tree_height (t : RootTree) : Height := bt_height t.
Definition tree_current_root (t : RootTree) : option Root := entry_root <$> bt_peek_max t.
Definition tree_root_for (t : RootTree) (si : Version) : option Root :=
  entry_root <$> bt_pred si t.
Definition tree_append_root (t : RootTree) (root : Root) : bool * RootTree :=
  bt_insert (root_version root) (block root, height root) t.

(** [ll.iter().rfind(..).unwrap_or_else(|| ll.front().unwrap())]. *)
Definition ll_root_for (ll : list Root) (si : Version) : option Root :=
  match rfind (λ r, root_version r <=? si) ll with
  | Some r => Some r
  | None => list.head ll
  end.

Definition index_type (self : RootIndex) : RootIndexType :=
  match self with
  | FrugalRoots _ => TFrugalList
  | BTreeRoots _ => TBTree
  | SkipListRoots _ => TSkipList
  | LinkedListRoots _ => TLinkedList
  end.

(** The constructor, given the empty leaf it allocates. *)
Definition root_index_new (variant : RootIndexType) (cs : list bool) (b : BlockRef) : RootIndex :=
  let '(root_inner, version) := make_start_value_root_inner b in
  match variant with
  | TBTree => BTreeRoots (snd (tree_append_root bt_new (mkRoot root_inner.1 version root_inner.2)))
  | TSkipList => SkipListRoots (om_insert version root_inner om_empty)
  | TLinkedList => LinkedListRoots [mkRoot root_inner.1 version root_inner.2]
  | TFrugalList => FrugalRoots (FrugalList.new root_inner version cs)
  end.

Definition count_roots (self : RootIndex) : nat :=
  match self with
  | FrugalRoots fg => FrugalList.len fg
  | BTreeRoots t => 2 ^ bt_height t - 1
  | SkipListRoots sk => om_len sk
  | LinkedListRoots ll => length ll
  end.

Definition index_height (self : RootIndex) : option Height :=
  match self with
  | BTreeRoots t => Some (tree_height t)
  | SkipListRoots sk => sk_height sk
  | LinkedListRoots ll => height <$> last ll
  | FrugalRoots fg => Some (FrugalList.current_root fg).1.2
  end.

Definition current_root (self : RootIndex) : option Root :=
  match self with
  | BTreeRoots t => tree_current_root t
  | SkipListRoots sk => sk_current_root sk
  | LinkedListRoots ll => last ll
  | FrugalRoots fg =>
      let '(root_inner, version) := FrugalList.current_root fg in
      Some (mkRoot root_inner.1 version root_inner.2)
  end.

(** [RootIndexGuard::block] and [RootIndexGuard::version]. *)
Definition guard_block (self : RootIndex) : option BlockRef :=
  match self with
  | BTreeRoots t => block <$> tree_current_root t
  | SkipListRoots sk => block <$> sk_current_root sk
  | LinkedListRoots ll => block <$> last ll
  | FrugalRoots fg => Some (FrugalList.current_root fg).1.1
  end.

Definition guard_version (self : RootIndex) : option Version :=
  match self with
  | BTreeRoots t => root_version <$> tree_current_root t
  | SkipListRoots sk => root_version <$> sk_current_root sk
  | LinkedListRoots ll => root_version <$> last ll
  | FrugalRoots fg => Some (FrugalList.current_root fg).2
  end.

Definition root_for (self : RootIndex) (si : Version) : option Root :=
  match self with
  | BTreeRoots t => tree_root_for t si
  | SkipListRoots sk => sk_root_for sk si
  | LinkedListRoots ll => ll_root_for ll si
  | FrugalRoots fg =>
      frugal_node ← FrugalList.find fg si;
      n ← frugal_node;
      Some (mkRoot (fn_payload n).1 (fn_version n) (fn_payload n).2)
  end.

Definition append_root (self : RootIndex) (root : Root) : option (bool * RootIndex) :=
  match self with
  | BTreeRoots t => let '(b, t) := tree_append_root t root in Some (b, BTreeRoots t)
  | SkipListRoots sk => let '(b, sk) := sk_append_root sk root in Some (b, SkipListRoots sk)
  | LinkedListRoots ll => Some (true, LinkedListRoots (ll ++ [root]))
  | FrugalRoots fg =>
      fg ← FrugalList.push fg (block root, height root) (root_version root);
      Some (true, FrugalRoots fg)
  end.
End index.
Arguments RootIndex : clear implicits.

(** ** The interface the tree is proved against *)
Class RootStore (R : Type) := {
  rs_current : R → option Root;
  rs_guard_block : R → option BlockRef;
  rs_for : R → Version → option Root;
  rs_append : R → Root → option (bool * R);
  rs_height : R → option Height;
}.

(** The roots from the oldest to the newest, by increasing version. *)
Class RootStoreLaws (R : Type) `{!RootStore R} := {
  rs_ok : R → list Root → Prop;
  rs_ok_sorted r rts : rs_ok r rts → rts ≠ [] ∧ StronglySorted Z.lt (root_version <$> rts);
  rs_current_ok r rts : rs_ok r rts → rs_current r = last rts;
  rs_guard_ok r rts : rs_ok r rts → rs_guard_block r = block <$> last rts;
  rs_height_ok r rts : rs_ok r rts → is_Some (rs_height r);
  rs_for_ok r rts v :
    rs_ok r rts → (∃ x, x ∈ rts ∧ root_version x ≤ v) →
    rs_for r v = last (filter (λ x, root_version x ≤ v) rts);
  rs_append_ok r rts x :
    rs_ok r rts → (∀ y, y ∈ rts → root_version y < root_version x) →
    ∃ r', rs_append r x = Some (true, r') ∧ rs_ok r' (rts ++ [x]);
}.

(** ** The variants implement the interface *)
Section store.
Context {M : ∀ K, KeyOrder K → Type → Type} `{!OrdMap M, !OrdMapLaws M}.
Context {T : Type → Type} `{!BPlusTree T, !BPlusTreeLaws T}.
Local Abbreviation RootIndex := (RootIndex M T).

Definition roots_of (self : RootIndex) : list Root :=
  match self with
  | FrugalRoots fg => reverse (node_root <$> FrugalList.iter fg)
  | BTreeRoots t => entry_root <$> bt_records t
  | SkipListRoots sk => entry_root <$> om_entries sk
  | LinkedListRoots ll => ll
  end.

(** Every coin a tower can still toss stays below the sentinel's level. *)
Definition variant_ok (self : RootIndex) : Prop :=
  match self with
  | FrugalRoots fg => frugal_wf (fl_head fg) ∧ Z.of_nat (length (fl_coins fg)) < U64_MAX - 1
  | _ => True
  end.

Definition roots_sorted (rts : list Root) : Prop :=
  rts ≠ [] ∧ StronglySorted Z.lt (root_version <$> rts).

Definition index_ok (self : RootIndex) (rts : list Root) : Prop :=
  roots_of self = rts ∧ roots_sorted rts ∧ variant_ok self.

Lemma roots_sorted_snoc rts x :
  roots_sorted rts → (∀ y, y ∈ rts → root_version y < root_version x) →
  roots_sorted (rts ++ [x]).
Proof.
  intros [Hne Hs] Hx. split; [by destruct rts|]. rewrite fmap_app.
  apply StronglySorted_app_2; [|done|by repeat constructor].
  intros v w (y & -> & Hy)%list_elem_of_fmap ->%list_elem_of_singleton. by apply Hx.
Qed.

Lemma filter_fmap_root {A} (f : A → Root) (l : list A) (v : Z) :
  filter (λ x, root_version x ≤ v) (f <$> l) = f <$> filter (λ a, root_version (f a) ≤ v) l.
Proof.
  induction l as [|a l IH]; [done|]. rewrite fmap_cons !filter_cons IH. by case_decide.
Qed.

Lemma rfind_last_filter {A} (Q : A → Prop) `{∀ x, Decision (Q x)} (p : A → bool) l :
  (∀ x, p x = true ↔ Q x) → rfind p l = last (filter Q l).
Proof.
  intros Hp. induction l as [|x l IH] using rev_ind; [done|].
  rewrite rfind_snoc filter_app last_app IH filter_cons filter_nil.
  destruct (p x) eqn:Hx; case_decide as Hq; simpl; try done.
  - by apply Hp in Hx.
  - apply Hp in Hq. congruence.
Qed.

Lemma pick_level_from_bound lvl cs l cs' :
  pick_level_from lvl cs = (l, cs') →
  lvl ≤ l ≤ lvl + Z.of_nat (length cs) ∧ (length cs' ≤ length cs)%nat.
Proof.
  revert lvl. induction cs as [|[] cs IH]; intros lvl; simpl.
  - intros [= <- <-]. simpl. lia.
  - intros H%IH. lia.
  - intros [= <- <-]. lia.
Qed.

Lemma frugal_push_ok fg p v :
  frugal_wf (fl_head fg) → Z.of_nat (length (fl_coins fg)) < U64_MAX - 1 →
  fn_version (fl_head fg) < v →
  ∃ n cs, FrugalList.push fg p v = Some (mkFrugal n cs) ∧ frugal_wf n ∧
    fn_next n = Some (fl_head fg) ∧ fn_payload n = p ∧ fn_version n = v ∧
    Z.of_nat (length cs) < U64_MAX - 1.
Proof.
  intros Hwf Hc Hv. unfold FrugalList.push, FrugalList.append.
  destruct (random_bool (fl_coins fg)) as [tower cs] eqn:Hr.
  assert (Z.of_nat (length cs) < U64_MAX - 1) as Hcs.
  { unfold random_bool in Hr. destruct (fl_coins fg); simplify_eq; simpl in *; lia. }
  destruct tower.
  - unfold FrugalList.append_tower. simpl. destruct (pick_level cs) as [l cs'] eqn:Hp.
    apply pick_level_from_bound in Hp as [Hl Hlen].
    destruct (climb_wf l (fl_head fg)) as (c & -> & Hin); [done|unfold SENTINEL_LEVEL; lia|].
    simpl. eexists _, _. split; [done|]. split_and!; try done; [|lia].
    constructor; [done..| |done]. unfold SENTINEL_LEVEL. lia.
  - eexists _, _. split; [done|]. split_and!; try done. simpl.
    constructor; [done..| |apply iter_self]. unfold FLAT_LEVEL, SENTINEL_LEVEL, U64_MAX. lia.
Qed.

Lemma head_of_iter fg : list.head (FrugalList.iter fg) = Some (fl_head fg).
Proof. unfold FrugalList.iter. by destruct (fl_head fg). Qed.

Lemma last_node_root (l : list (FrugalNode ValueRootInner)) :
  last (reverse (node_root <$> l)) = node_root <$> list.head l.
Proof. rewrite last_reverse. by destruct l. Qed.

Lemma index_current_ok ri rts : index_ok ri rts → current_root ri = last rts.
Proof.
  intros (<- & _ & _). destruct ri as [fg|t|sk|ll]; simpl.
  - by rewrite last_node_root head_of_iter.
  - unfold tree_current_root. by rewrite bt_peek_max_last fmap_last.
  - by rewrite fmap_last.
  - done.
Qed.

Lemma index_guard_ok ri rts : index_ok ri rts → guard_block ri = block <$> last rts.
Proof.
  intros H%index_current_ok. rewrite -H. by destruct ri as [fg|t|sk|ll].
Qed.

Lemma index_height_ok ri rts : index_ok ri rts → is_Some (index_height ri).
Proof.
  intros (<- & [Hne _] & _). destruct ri as [fg|t|sk|ll]; simpl in *; try by eexists.
  - unfold sk_height. apply fmap_is_Some. apply last_is_Some.
    intros Hn. apply Hne. by rewrite Hn.
  - apply fmap_is_Some. by apply last_is_Some.
Qed.

Lemma index_for_ok ri rts v :
  index_ok ri rts → (∃ x, x ∈ rts ∧ root_version x ≤ v) →
  root_for ri v = last (filter (λ x, root_version x ≤ v) rts).
Proof.
  intros (Heq & _ & Hok) (x & Hx & Hxv). destruct ri as [fg|t|sk|ll]; simpl in *.
  - destruct Hok as [Hwf _]. unfold FrugalList.find. rewrite find_from_spec //. subst rts.
    rewrite filter_reverse filter_fmap_root last_node_root. simpl.
    by destruct (list.head _) as [n|].
  - subst rts. unfold tree_root_for. by rewrite bt_pred_last filter_fmap_root fmap_last.
  - subst rts. unfold sk_root_for, om_upto. by rewrite filter_fmap_root fmap_last.
  - subst rts. unfold ll_root_for.
    rewrite (rfind_last_filter (λ x, root_version x ≤ v)); [|intros; apply Z.leb_le].
    destruct (last (filter _ ll)) eqn:E; [done|]. apply last_None in E.
    exfalso. apply (not_elem_of_nil x). rewrite -E. by apply list_elem_of_filter.
Qed.

Lemma index_append_ok ri rts x :
  index_ok ri rts → (∀ y, y ∈ rts → root_version y < root_version x) →
  ∃ ri', append_root ri x = Some (true, ri') ∧ index_ok ri' (rts ++ [x]).
Proof.
  intros (Heq & Hs & Hok) Hx. pose proof (roots_sorted_snoc _ _ Hs Hx) as Hs'.
  destruct x as [b v h]. destruct ri as [fg|t|sk|ll]; simpl in *.
  - destruct Hok as [Hwf Hc].
    destruct (frugal_push_ok fg (b, h) v) as (n & cs & -> & Hn & Hnx & Hp & Hv & Hcs); [done..| |].
    { apply (Hx (node_root (fl_head fg))). subst rts. apply elem_of_reverse, list_elem_of_fmap.
      exists (fl_head fg). split; [done|]. apply iter_self. }
    eexists. split; [done|]. split; [|done]. simpl. unfold FrugalList.iter. simpl.
    rewrite (iter_next _ _ Hnx) fmap_cons reverse_cons. subst rts. f_equal. f_equal.
    unfold node_root. by rewrite Hp Hv.
  - destruct (bt_insert_last v (b, h) t) as (t' & Hi & Ht').
    { intros e He. apply (Hx (entry_root e)). subst rts. by apply list_elem_of_fmap_2. }
    unfold tree_append_root. simpl. rewrite Hi. eexists. split; [done|]. split; [|done].
    simpl. rewrite Ht' fmap_app. by subst rts.
  - eexists. split; [done|]. split; [|done]. simpl. rewrite entries_insert_max.
    + rewrite fmap_app. by subst rts.
    + intros e He. specialize (Hx (entry_root e)). simpl in Hx. unfold kle. simpl.
      assert (e.1 < v); [|lia]. apply Hx. subst rts. by apply list_elem_of_fmap_2.
  - eexists. split; [done|]. split; [by subst|done].
Qed.

#[export] Instance RootIndex_store : RootStore RootIndex := {|
  rs_current := current_root; rs_guard_block := guard_block; rs_for := root_for;
  rs_append := append_root; rs_height := index_height;
|}.

#[export] Program Instance RootIndex_laws : RootStoreLaws RootIndex := {| rs_ok := index_ok |}.
Next Obligation. by intros r rts (_ & Hs & _). Qed.
Next Obligation. exact index_current_ok. Qed.
Next Obligation. exact index_guard_ok. Qed.
Next Obligation. exact index_height_ok. Qed.
Next Obligation. exact index_for_ok. Qed.
Next Obligation. exact index_append_ok. Qed.

(** C30: every variant of the root index implements the interface. In an index
    whose roots are [rts] by increasing version, the current root is the newest
    one, the search for a version that is not older than all roots returns
    the newest root that is old enough, and appending a newer root succeeds and
    adds it at the end. The frugal list finds it whatever the coins were. *)
Theorem root_index_correct (ri : RootIndex) (rts : list Root) :
  index_ok ri rts →
  current_root ri = last rts ∧ guard_block ri = block <$> last rts ∧
  (∀ v, (∃ x, x ∈ rts ∧ root_version x ≤ v) →
    root_for ri v = last (filter (λ x, root_version x ≤ v) rts)) ∧
  (∀ x, (∀ y, y ∈ rts → root_version y < root_version x) →
    ∃ ri', append_root ri x = Some (true, ri') ∧ index_ok ri' (rts ++ [x])).
Proof.
  intros H. split_and!; [by apply index_current_ok|by apply index_guard_ok|..].
  - intros v. by apply index_for_ok.
  - intros x. by apply index_append_ok.
Qed.

Lemma index_new_ok variant cs b :
  Z.of_nat (length cs) < U64_MAX - 1 →
  index_ok (root_index_new variant cs b) [mkRoot b START_VERSION INIT_TREE_HEIGHT].
Proof.
  intros Hcs. split; [|split; [split; [done|by repeat constructor]|]].
  - destruct variant; simpl; try done.
    + rewrite entries_insert_max; [by rewrite entries_empty|].
      intros e. rewrite entries_empty. by intros ?%elem_of_nil.
    + unfold tree_append_root. simpl.
      destruct (bt_insert_last START_VERSION (b, INIT_TREE_HEIGHT) (bt_new : T ValueRootInner))
        as (t' & -> & Ht'); [intros e; by rewrite bt_records_new; intros ?%elem_of_nil|].
      simpl. by rewrite Ht' bt_records_new.
  - destruct variant; try done. split; [constructor|done].
Qed.
End store.

(** ** An instance for the examples *)
Definition SortedTree (V : Type) : Type := list (Version * V).

#[export] Instance SortedTree_ops : BPlusTree SortedTree := {|
  bt_new _ := [];
  bt_peek_max _ t := last t;
  bt_pred _ si t := last (filter (λ e, e.1 ≤ si) t);
  bt_insert _ k v t :=
    if decide (Forall (λ e, e.1 < k) t) then (true, t ++ [(k, v)]) else (false, t);
  bt_height _ t := 1%nat;
  bt_records _ t := t;
|}.

#[export] Instance SortedTree_laws : BPlusTreeLaws SortedTree.
Proof.
  split; try done. intros V k v t Ht. exists (t ++ [(k, v)]). simpl.
  rewrite decide_True; [done|]. by apply Forall_forall.
Qed.

(** Six roots, pushed with coins that build towers of several levels. *)
Definition six_roots : list Root :=
  (λ i, mkRoot i (Z.of_nat i) 1%nat) <$> seq 1 6.
Definition six_index : RootIndex AssocMap SortedTree :=
  foldl (λ ri x, from_option snd ri (append_root ri x))
    (root_index_new TFrugalList
      [true; true; false; false; true; false; true; true; true; false] 1%nat)
    (tail six_roots).

Lemma six_index_ok : index_ok six_index six_roots.
Proof.
  split; [|split; [split; [done|by repeat constructor]|split; [|done]]].
  - vm_compute. reflexivity.
  - vm_compute. repeat first [apply wf_sentinel | apply wf_node]; try done; repeat constructor.
Qed.

Lemma root_index_correct_witness :
  current_root six_index = last six_roots ∧ guard_block six_index = block <$> last six_roots ∧
  (∀ v, (∃ x, x ∈ six_roots ∧ root_version x ≤ v) →
    root_for six_index v = last (filter (λ x, root_version x ≤ v) six_roots)) ∧
  (∀ x, (∀ y, y ∈ six_roots → root_version y < root_version x) →
    ∃ ri', append_root six_index x = Some (true, ri') ∧ index_ok ri' (six_roots ++ [x])).
Proof. exact (root_index_correct six_index six_roots six_index_ok). Defined.
