(* ===== verification/VersionHistory.v ===== *)
(** * The history of a record

    The trees of [src/src/dexa/] keep, for every key, the versions of its record
    in one of several version indexes. This file says what such an index stands
    for: the events of the record, newest first, each the version it took effect
    at and the payload it installed, or none for a deletion. [VersionStore] is
    the interface the leaf pages are proved against; the indexes implement it. *)
From S2P Require Import Prelude Version.
#[local] Set Default Proof Using "Type".
Local Open Scope Z_scope.

(** Versions carry their deletion mark in the topmost bit. *)
Definition VERSION_BOUND : Version := 2 ^ 63.

Section history.
Context {P : Type}.

Definition Event : Type := Version * option P.
Definition History : Type := list Event.
Implicit Types (h : History) (v w : Version) (o : option P).

Definition newest h : Version := from_option fst (-1) (head h).

(** What a reader of version [v] sees: the version it was written at and the
    payload. *)
Definition hist_at h v : option (Version * P) :=
  e ← head (filter (λ e, e.1 ≤ v) h); (e.1,.) <$> e.2.
Definition hist_live h : bool := match h with (_, Some _) :: _ => true | _ => false end.
Definition hist_newest h : option P := e ← head h; e.2.
Definition hist_put v (p : P) h : History := (v, Some p) :: h.
Definition hist_kill v h : History := if hist_live h then (v, None) :: h else h.

(** A record begins with a payload, and its versions rise. *)
Record hist_ok h : Prop := {
  ho_sorted : StronglySorted (λ v w, w < v) h.*1;
  ho_bound : Forall (λ e, 0 ≤ e.1 < VERSION_BOUND) h;
  ho_oldest : ∃ v p, last h = Some (v, Some p);
}.

Lemma hist_at_cons w o h v :
  hist_at ((w, o) :: h) v = if w <=? v then (w,.) <$> o else hist_at h v.
Proof.
  unfold hist_at. rewrite filter_cons. simpl.
  destruct (w <=? v) eqn:E; [rewrite decide_True //; lia|rewrite decide_False //; lia].
Qed.

Lemma hist_ok_new v p : 0 ≤ v < VERSION_BOUND → hist_ok [(v, Some p)].
Proof. intros Hv. split; [by repeat constructor|by constructor|by eexists _, _]. Qed.

Lemma hist_ok_newest h : hist_ok h → ∃ o h', h = (newest h, o) :: h' ∧ 0 ≤ newest h.
Proof.
  intros [_ Hb (v & p & Hl)]. destruct h as [|[w o] h']; [done|].
  apply Forall_cons in Hb as [[??] _]. by exists o, h'.
Qed.

Lemma hist_ok_le h e : hist_ok h → e ∈ h → e.1 ≤ newest h.
Proof.
  intros [Hs _ _] He. destruct h as [|[w o] h]; [by apply elem_of_nil in He|].
  simpl in Hs. apply StronglySorted_inv in Hs as [_ Hs]. apply elem_of_cons in He as [->|He]; [done|].
  rewrite Forall_fmap Forall_forall in Hs. specialize (Hs e He). change (e.1 < w) in Hs. unfold newest. simpl. lia.
Qed.

Lemma hist_ok_cons h v o :
  hist_ok h → newest h < v < VERSION_BOUND → hist_ok ((v, o) :: h).
Proof.
  intros Hok Hv. pose proof (hist_ok_newest h Hok) as (? & ? & _ & ?). split.
  - simpl. constructor; [apply Hok|]. rewrite Forall_fmap Forall_forall. intros e He.
    eapply Z.le_lt_trans; [by apply (hist_ok_le h e)|lia].
  - constructor; [simpl; lia|apply Hok].
  - destruct (ho_oldest h Hok) as (w & p & Hl). exists w, p. by destruct h.
Qed.

Lemma hist_ok_suffix h h' v o :
  hist_ok (h' ++ (v, o) :: h) → hist_ok h → newest h < v < VERSION_BOUND.
Proof.
  intros [Hs Hb _] [_ _ (w & p & Hl)]. split.
  - rewrite fmap_app in Hs. apply StronglySorted_app in Hs as (_ & _ & Hs).
    apply StronglySorted_inv in Hs as [_ Hs]. destruct h as [|e h]; [done|].
    by apply Forall_cons in Hs as [? _].
  - apply Forall_app in Hb as [_ Hb]. by apply Forall_cons in Hb as [[_ ?] _].
Qed.

Lemma hist_ok_kill h v :
  hist_ok h → newest h < v < VERSION_BOUND → hist_ok (hist_kill v h).
Proof. intros. unfold hist_kill. case_match; [by apply hist_ok_cons|done]. Qed.

Lemma newest_kill h v : newest h < v → newest (hist_kill v h) ≤ v.
Proof. intros. unfold hist_kill. case_match; unfold newest in *; simpl; lia. Qed.

Lemma hist_live_newest h : hist_live h = true → is_Some (hist_newest h).
Proof. destruct h as [|[v [p|]] h]; [done| |done]. by eexists. Qed.
End history.
Arguments Event : clear implicits.
Arguments History : clear implicits.

(** ** The interface

    [None] is a panic, an [unreachable!] or a read through a null pointer. The
    [bool]s are the coins the index tosses. *)
Class VersionStore (P S : Type) := {
  vs_push : bool → S → Version → P → option S;
  vs_append : bool → S → Version → P → option S;
  vs_delete : bool → S → Version → option S;
  vs_find : S → Version → option (option (Version * P));
  vs_is_live : S → option bool;
  vs_newest_payload : S → option P;
  vs_clone : list bool → S → option S;
}.

(** [append] is the update of a live record; [push] also revives a dead one. *)
Class VersionStoreLaws (P S : Type) `{!VersionStore P S} := {
  vs_ok : Z → S → History P → Prop;
  vs_hist k s h : vs_ok k s h → hist_ok h;
  vs_find_ok k s h v : vs_ok k s h → v < U64_MAX → vs_find s v = Some (hist_at h v);
  vs_live_ok k s h : vs_ok k s h → vs_is_live s = Some (hist_live h);
  vs_newest_ok k s h : vs_ok k s h → hist_live h = true → vs_newest_payload s = hist_newest h;
  vs_push_ok c k s h v p :
    vs_ok k s h → newest h < v < VERSION_BOUND →
    ∃ s', vs_push c s v p = Some s' ∧ vs_ok k s' (hist_put v p h);
  vs_append_ok c k s h v p :
    vs_ok k s h → hist_live h = true → newest h < v < VERSION_BOUND →
    ∃ s', vs_append c s v p = Some s' ∧ vs_ok k s' (hist_put v p h);
  vs_delete_ok c k s h v :
    vs_ok k s h → newest h < v < VERSION_BOUND →
    ∃ s', vs_delete c s v = Some s' ∧ vs_ok k s' (hist_kill v h);
  vs_clone_ok cs k s h : vs_ok k s h → ∃ s', vs_clone cs s = Some s' ∧ vs_ok k s' h;
}.
