(* ===== verification/VersionLists.v ===== *)
(** * Version lists

    The linked lists of [src/src/dexa/mvb_version_index/]: [vanilla.rs], whose
    entries carry the version they end at; [frugal.rs], where a deletion is a
    node without a payload and towers shorten the search; and the list of
    [v_weaver.rs], the same structure with the key in every node. Each of them
    is shown to stand for the history of its record.

    The links of [v_weaver.rs] along the keys ([k_ridgy]), which only its range
    scan and its callback use, are left out. *)
From S2P Require Import Prelude Version Tower VersionHistory.
#[local] Set Default Proof Using "Type".
Local Open Scope Z_scope.

(** ** The vanilla list *)
Record VersionedEntry (P : Type) := mkEntry {
  ve_payload : P; ve_insert : Version; ve_del : Version }.
Arguments mkEntry {_} _ _ _.
Arguments ve_payload {_} _.
Arguments ve_insert {_} _.
Arguments ve_del {_} _.

(** The entries from the head on; the empty list is the null head of
    [Default]. *)
Definition AtomicVersionList (P : Type) : Type := list (VersionedEntry P).

Module Vanilla.
Section vanilla.
Context {P : Type}.
Implicit Types (self : AtomicVersionList P) (p : P) (v : Version).

Definition iter self : option (list (P * Version * Version)) :=
  match self with
  | [] => None
  | _ => Some ((λ e, (ve_payload e, ve_insert e, ve_del e)) <$> self)
  end.

Definition len self : option nat := length <$> iter self.

Definition clone self : option (AtomicVersionList P) :=
  items ← iter self;
  Some (foldl (λ head '(payload, insert_version, del_version),
    mkEntry payload insert_version del_version :: head) [] (reverse items)).

Definition new p v (del_version : option Version) : AtomicVersionList P :=
  [mkEntry p v (from_option id U64_MAX del_version)].

Fixpoint find_loop (curr : AtomicVersionList P) v : option (VersionedEntry P) :=
  match curr with
  | [] => None
  | e :: next => if (ve_insert e <=? v) && (v <? ve_del e) then Some e else find_loop next v
  end.

Definition find self v : option (option (VersionedEntry P)) :=
  match self with [] => None | _ => Some (find_loop self v) end.

Definition append self v p : option (AtomicVersionList P) :=
  match self with
  | [] => None
  | head :: next =>
      let head := if ve_del head =? U64_MAX
                  then mkEntry (ve_payload head) (ve_insert head) v else head in
      Some (mkEntry p v U64_MAX :: head :: next)
  end.

Definition push := append.

Definition delete self v : option (AtomicVersionList P) :=
  match self with
  | [] => None
  | head :: next =>
      Some (if (ve_insert head <? v) && (ve_del head =? U64_MAX)
            then mkEntry (ve_payload head) (ve_insert head) v :: next else self)
  end.

Definition is_live self : option bool := (λ e, ve_del e =? U64_MAX) <$> head self.
Definition newest_payload self : option P := ve_payload <$> head self.
End vanilla.
End Vanilla.

(** ** The frugal list: [insert_version], [level] and links as in [Tower], the
    payload of a deletion is missing. Its head is never null once constructed. *)
Definition AtomicFrugalList (P : Type) : Type := FrugalNode (option P).

Module Frugal.
Section frugal.
Context {P : Type}.
Implicit Types (self n : AtomicFrugalList P) (p : P) (o : option P) (v : Version).

Definition node_live n : bool := match fn_payload n with Some _ => true | None => false end.

Definition new p v : AtomicFrugalList P := FNode None None (Some p) v SENTINEL_LEVEL.
Definition newest_payload self : option P := fn_payload self.
Definition is_live self : bool := node_live self.

(** The iterator passes over the deletions. *)
Definition iter self : list (AtomicFrugalList P * Version) :=
  (λ n, (n, fn_version n)) <$> filter (λ n, node_live n = true) (iter_from self).
Definition len self : nat := length (iter self).

Definition append_next self o v : AtomicFrugalList P :=
  FNode (Some self) (Some self) o v FLAT_LEVEL.

(** The level above the head's; above the sentinel it wraps to [FLAT_LEVEL]. *)
Definition append_tower self o v : option (AtomicFrugalList P) :=
  let new_tower_level := u64_wrap (fn_level self + 1) in
  curr ← climb new_tower_level self;
  Some (FNode (Some self) (Some curr) o v new_tower_level).

Definition append (toss : bool) self o v : option (AtomicFrugalList P) :=
  if toss then append_tower self o v else Some (append_next self o v).

Definition push := append.

Definition delete (toss : bool) self v : option (AtomicFrugalList P) :=
  if is_live self then append toss self None v else Some self.

Definition find_from (curr : option (AtomicFrugalList P)) v (allow_tombstone : bool)
    : option (option (AtomicFrugalList P)) :=
  match curr with
  | None => Some None
  | Some curr =>
      found ← Tower.find_from curr v;
      Some (n ← found; if allow_tombstone || node_live n then Some n else None)
  end.

Definition find self v := find_from (Some self) v false.
Definition find_any self v := find_from (Some self) v true.

(** The node as a record; its payload is unwrapped. *)
Definition node_record (found : option (AtomicFrugalList P)) : option (option (Version * P)) :=
  match found with
  | Some n => p ← fn_payload n; Some (Some (fn_version n, p))
  | None => Some None
  end.

(** The entries of the copy, oldest first. *)
Fixpoint replay (tosses : list bool) self (items : list (option P * Version))
    : option (AtomicFrugalList P) :=
  match items with
  | [] => Some self
  | (o, v) :: items =>
      self ← append (default false (head tosses)) self o v;
      replay (tail tosses) self items
  end.

Definition clone (tosses : list bool) self : option (AtomicFrugalList P) :=
  let items := (λ n, (fn_payload n, fn_version n)) <$> iter_from self in
  '(tail_payload, tail_version) ← last items;
  tail_payload ← tail_payload;
  replay tosses (new tail_payload tail_version) (reverse (removelast items)).
End frugal.
End Frugal.

(** ** The list of the weaver *)
Inductive VWeaverNodeSt (P : Type) :=
  WNode (next v_ridgy : option (VWeaverNodeSt P)) (key : Z) (payload : option P)
    (insert_version : Version) (level : TowerLevel).
Arguments WNode {_} _ _ _ _ _ _.

Module Weaver.
Section weaver.
Context {P : Type}.
Local Abbreviation Node := (VWeaverNodeSt P).
Implicit Types (self n : Node) (p : P) (o : option P) (v : Version).

Definition wn_key n : Z := let '(WNode _ _ k _ _ _) := n in k.
Definition wn_payload n : option P := let '(WNode _ _ _ o _ _) := n in o.
Definition wn_version n : Version := let '(WNode _ _ _ _ v _) := n in v.
Definition wn_level n : TowerLevel := let '(WNode _ _ _ _ _ l) := n in l.
Definition node_live n : bool := match wn_payload n with Some _ => true | None => false end.

Definition new (k : Z) p v : Node := WNode None None k (Some p) v SENTINEL_LEVEL.
Definition newest_payload self : option P := wn_payload self.
Definition is_live self : bool := node_live self.

(** [take] leaves nothing behind a deletion, so the iterator ends there. *)
Fixpoint iter self : list Node :=
  let '(WNode nx _ _ o _ _) := self in
  match o with
  | None => []
  | Some _ => self :: match nx with Some n => iter n | None => [] end
  end.
Definition len self : nat := length (iter self).

Definition append_next self o v : Node :=
  WNode (Some self) (Some self) (wn_key self) o v FLAT_LEVEL.

Fixpoint weave (new_tower_level : TowerLevel) (curr : Node) : option Node :=
  let '(WNode _ r _ _ _ l) := curr in
  if l <? new_tower_level
  then match r with Some n => weave new_tower_level n | None => None end
  else Some curr.

Definition append_tower self o v : option Node :=
  let new_tower_level := u64_wrap (wn_level self + 1) in
  curr ← weave new_tower_level self;
  Some (WNode (Some self) (Some curr) (wn_key self) o v new_tower_level).

Definition append (toss : bool) self o v : option Node :=
  if toss then append_tower self o v else Some (append_next self o v).

Definition push := append.

Definition delete (toss : bool) self v : option Node :=
  if is_live self then append toss self None v else Some self.

Fixpoint find_from (curr : Node) v (allow_tombstone : bool) : option (option Node) :=
  let '(WNode nx r _ _ w l) := curr in
  if (l <? SENTINEL_LEVEL) && (v <? w) then
    match r with
    | Some ridgy =>
        if v <? wn_version ridgy then find_from ridgy v allow_tombstone
        else match nx with Some n => find_from n v allow_tombstone | None => None end
    | None => match nx with Some n => find_from n v allow_tombstone | None => None end
    end
  else Some (if (w <=? v) && (negb allow_tombstone && node_live curr || allow_tombstone)
             then Some curr else None).

Definition find self v := find_from self v false.
Definition find_any self v := find_from self v true.

Definition node_record (found : option Node) : option (option (Version * P)) :=
  match found with
  | Some n => p ← wn_payload n; Some (Some (wn_version n, p))
  | None => Some None
  end.

(** A clone shares the head. *)
Definition clone self : Node := self.
End weaver.
End Weaver.

(** ** The vanilla list stands for a history *)
Section vanilla_ok.
Context {P : Type}.
Implicit Types (es : AtomicVersionList P) (h : History P) (p : P) (v w : Version).

(** The head carries the newest event; older entries ended before it. *)
Definition vanilla_head es h : Prop :=
  match h with
  | (w, Some p) :: _ => head es = Some (mkEntry p w U64_MAX)
  | (w, None) :: _ => ∃ p w', head es = Some (mkEntry p w' w) ∧ w' < w
  | [] => False
  end.

Record vanilla_ok es h : Prop := {
  vo_hist : hist_ok h;
  vo_head : vanilla_head es h;
  vo_ended : Forall (λ e, ve_del e ≤ newest h) (tail es);
  vo_find v : v < U64_MAX →
    (λ e, (ve_insert e, ve_payload e)) <$> Vanilla.find_loop es v = hist_at h v;
}.

Lemma vanilla_new_ok p v :
  0 ≤ v < VERSION_BOUND → vanilla_ok (Vanilla.new p v None) [(v, Some p)].
Proof.
  intros Hv. split; [by apply hist_ok_new|done|constructor|].
  intros w Hw. rewrite hist_at_cons. simpl. rewrite (proj2 (Z.ltb_lt w U64_MAX)) // andb_true_r.
  by case_match.
Qed.

Lemma find_loop_ended es v :
  Forall (λ e, ve_del e ≤ v) es → Vanilla.find_loop es v = None.
Proof.
  induction 1 as [|e es He _ IH]; [done|]. simpl.
  rewrite (proj2 (Z.ltb_ge v (ve_del e))) // andb_false_r. done.
Qed.

Lemma vanilla_append_ok es h v p :
  vanilla_ok es h → newest h < v < VERSION_BOUND →
  ∃ es', Vanilla.append es v p = Some es' ∧ vanilla_ok es' (hist_put v p h).
Proof.
  intros [Hh Hhd He Hf] Hv. destruct (hist_ok_newest h Hh) as (o & h' & Hcons & Hn).
  assert (VERSION_BOUND < U64_MAX) as HB by done.
  destruct es as [|e es]; [by rewrite Hcons in Hhd; destruct o as [q|]; naive_solver|].
  eexists. split; [done|].
  assert (Forall (λ e, ve_del e ≤ v) es) as He'.
  { eapply Forall_impl; [exact He|]. simpl. intros. lia. }
  split; [by apply hist_ok_cons|done| |].
  - simpl. constructor; [|exact He']. unfold newest. simpl.
    destruct (ve_del e =? U64_MAX) eqn:E; [done|].
    rewrite Hcons in Hhd. destruct o as [q|]; simpl in Hhd; [naive_solver|].
    destruct Hhd as (q & w & [= ->] & _). simpl. lia.
  - intros w Hw. unfold hist_put. rewrite hist_at_cons. cbn [Vanilla.find_loop ve_insert ve_del].
    rewrite (proj2 (Z.ltb_lt w U64_MAX)) // andb_true_r. destruct (v <=? w) eqn:E; [done|].
    apply Z.leb_gt in E. rewrite -(Hf w Hw). simpl.
    destruct (ve_del e =? U64_MAX) eqn:Ed; [|done]. simpl.
    apply Z.eqb_eq in Ed. rewrite Ed (proj2 (Z.ltb_lt w U64_MAX)) // (proj2 (Z.ltb_lt w v)) //.
    by case_match.
Qed.

Lemma vanilla_delete_ok es h v :
  vanilla_ok es h → newest h < v < VERSION_BOUND →
  ∃ es', Vanilla.delete es v = Some es' ∧ vanilla_ok es' (hist_kill v h).
Proof.
  intros Hok Hv. pose proof Hok as [Hh Hhd He Hf].
  destruct (hist_ok_newest h Hh) as (o & h' & Hcons & Hn).
  assert (VERSION_BOUND < U64_MAX) as HB by done.
  destruct es as [|e es]; [by rewrite Hcons in Hhd; destruct o as [q|]; naive_solver|].
  eexists. split; [done|]. rewrite Hcons in Hhd. destruct o as [q|]; simpl in Hhd.
  - injection Hhd as ->. simpl. rewrite (proj2 (Z.ltb_lt _ v)); [|lia]. simpl.
    assert (hist_kill v h = (v, None) :: h) as -> by (unfold hist_kill; by rewrite Hcons).
    assert (Forall (λ e, ve_del e ≤ newest h) es) as He' by done.
    split; [by apply hist_ok_cons|by exists q, (newest h); split; [|lia]| |].
    + simpl. eapply Forall_impl; [exact He'|]. unfold newest at 2. simpl. intros. lia.
    + intros w Hw. rewrite hist_at_cons. simpl. destruct (v <=? w) eqn:E.
      * apply Z.leb_le in E. rewrite (proj2 (Z.ltb_ge w v)) // andb_false_r.
        rewrite find_loop_ended //. eapply Forall_impl; [exact He'|]. simpl. intros. lia.
      * apply Z.leb_gt in E. rewrite -(Hf w Hw). simpl.
        rewrite (proj2 (Z.ltb_lt w v)) // (proj2 (Z.ltb_lt w U64_MAX)) //. by case_match.
  - destruct Hhd as (q & w & [= ->] & Hw). simpl.
    rewrite (proj2 (Z.eqb_neq (newest h) U64_MAX)); [|lia]. rewrite andb_false_r.
    assert (hist_kill v h = h) as -> by (unfold hist_kill; by rewrite Hcons). done.
Qed.

Lemma vanilla_nonempty es h : vanilla_ok es h → ∃ e es', es = e :: es'.
Proof.
  intros [_ Hhd _ _]. destruct es as [|e es]; [|by eexists _, _].
  destruct h as [|[w [p|]] h]; naive_solver.
Qed.

Lemma vanilla_live_ok es h : vanilla_ok es h → Vanilla.is_live es = Some (hist_live h).
Proof.
  intros [Hh Hhd _ _]. unfold Vanilla.is_live. destruct h as [|[w [p|]] h]; [done|by rewrite Hhd|].
  destruct Hhd as (p & w' & -> & Hw). simpl. f_equal. apply Z.eqb_neq.
  pose proof (ho_bound _ Hh) as [Hb _]%Forall_cons. simpl in Hb.
  assert (VERSION_BOUND < U64_MAX) by done. lia.
Qed.

Lemma vanilla_newest_ok es h :
  vanilla_ok es h → hist_live h = true → Vanilla.newest_payload es = hist_newest h.
Proof.
  intros [_ Hhd _ _] Hl. unfold Vanilla.newest_payload.
  destruct h as [|[w [p|]] h]; [done|by rewrite Hhd|done].
Qed.

(** The deep copy rebuilds the list it iterates over. *)
Lemma rebuild es acc :
  foldl (λ hd '(p, i, d), mkEntry p i d :: hd) acc
    (reverse ((λ e : VersionedEntry P, (ve_payload e, ve_insert e, ve_del e)) <$> es)) = es ++ acc.
Proof.
  revert acc. induction es as [|[p i d] es IH]; intros acc; [done|].
  rewrite fmap_cons reverse_cons foldl_app IH. done.
Qed.

Lemma vanilla_clone_ok es h : vanilla_ok es h → Vanilla.clone es = Some es.
Proof.
  intros (e & es' & ->)%vanilla_nonempty. unfold Vanilla.clone, Vanilla.iter.
  cbn [mbind option_bind]. by rewrite rebuild app_nil_r.
Qed.
End vanilla_ok.

(** ** The frugal list stands for a history, whatever its coins were *)
Section frugal_ok.
Context {P : Type}.
Implicit Types (n : AtomicFrugalList P) (h : History P) (p : P) (o : option P) (v w : Version).

Definition events n : History P := (λ m, (fn_version m, fn_payload m)) <$> iter_from n.

(** A tower is at most one level above the head it is built on, and versions
    rise: no level reaches the sentinel's. *)
Definition level_ok n : Prop :=
  fn_level n = SENTINEL_LEVEL ∨ 0 ≤ fn_level n ≤ fn_version n.

Record frugal_ok n h : Prop := {
  fo_hist : hist_ok h;
  fo_events : events n = h;
  fo_wf : frugal_wf n;
  fo_level : level_ok n;
}.

Lemma events_head n : head (events n) = Some (fn_version n, fn_payload n).
Proof. unfold events. by destruct n. Qed.

Lemma frugal_newest n h : frugal_ok n h → newest h = fn_version n.
Proof. intros [_ <- _ _]. unfold newest. by rewrite events_head. Qed.

Lemma frugal_new_ok p v :
  0 ≤ v < VERSION_BOUND → frugal_ok (Frugal.new p v) [(v, Some p)].
Proof. intros. split; [by apply hist_ok_new|done|constructor|by left]. Qed.

Lemma new_level n h v :
  frugal_ok n h → newest h < v < VERSION_BOUND →
  0 ≤ u64_wrap (fn_level n + 1) ≤ v ∧ u64_wrap (fn_level n + 1) < SENTINEL_LEVEL.
Proof.
  intros Hok Hv. rewrite (frugal_newest n h Hok) in Hv. pose proof (fo_level n h Hok) as Hl.
  assert (0 ≤ fn_version n) as Hn.
  { rewrite -(frugal_newest n h Hok).
    by destruct (hist_ok_newest h (fo_hist n h Hok)) as (? & ? & _ & ?). }
  unfold u64_wrap, SENTINEL_LEVEL, U64_MAX in *. unfold VERSION_BOUND in Hv.
  destruct Hl as [->|Hl].
  { change ((SENTINEL_LEVEL + 1) `mod` 2 ^ 64) with 0. lia. }
  rewrite Z.mod_small; lia.
Qed.

Lemma frugal_cons_ok n h r o v l :
  frugal_ok n h → newest h < v < VERSION_BOUND → r ∈ iter_from n →
  0 ≤ l ≤ v → l < SENTINEL_LEVEL →
  frugal_ok (FNode (Some n) (Some r) o v l) ((v, o) :: h).
Proof.
  intros Hok Hv Hr Hl Hs. split.
  - by apply hist_ok_cons; [apply Hok|].
  - unfold events. simpl. f_equal. apply Hok.
  - constructor; [apply Hok| |done..]. rewrite -(frugal_newest n h Hok). lia.
  - by right.
Qed.

Lemma frugal_append_ok toss n h o v :
  frugal_ok n h → newest h < v < VERSION_BOUND →
  ∃ n', Frugal.append toss n o v = Some n' ∧ frugal_ok n' ((v, o) :: h).
Proof.
  intros Hok Hv. destruct (new_level n h v Hok Hv) as [Hl Hs].
  destruct toss; simpl.
  - unfold Frugal.append_tower.
    destruct (climb_wf (u64_wrap (fn_level n + 1)) n (fo_wf n h Hok)) as (c & -> & Hc); [lia|].
    eexists. split; [done|]. by apply frugal_cons_ok.
  - eexists. split; [done|]. apply frugal_cons_ok; [done..|apply iter_self| |done].
    destruct (hist_ok_newest h (fo_hist n h Hok)) as (? & ? & _ & ?). unfold FLAT_LEVEL. lia.
Qed.

Lemma frugal_live_ok n h : frugal_ok n h → Frugal.is_live n = hist_live h.
Proof. intros [_ <- _ _]. unfold Frugal.is_live, Frugal.node_live. by destruct n as [? ? [] ? ?]. Qed.

Lemma frugal_newest_ok n h : frugal_ok n h → Frugal.newest_payload n = hist_newest h.
Proof. intros [_ <- _ _]. unfold hist_newest. by rewrite events_head. Qed.

Lemma frugal_delete_ok toss n h v :
  frugal_ok n h → newest h < v < VERSION_BOUND →
  ∃ n', Frugal.delete toss n v = Some n' ∧ frugal_ok n' (hist_kill v h).
Proof.
  intros Hok Hv. unfold Frugal.delete, hist_kill. rewrite (frugal_live_ok n h Hok).
  case_match; [by apply frugal_append_ok|by exists n].
Qed.

Lemma frugal_find_ok n h v b :
  frugal_ok n h →
  Frugal.find_from (Some n) v b =
    Some (m ← head (filter (λ m, fn_version m ≤ v) (iter_from n));
          if b || Frugal.node_live m then Some m else None).
Proof. intros Hok. unfold Frugal.find_from. rewrite find_from_spec; [done|apply Hok]. Qed.

Lemma frugal_find_at n h v :
  frugal_ok n h → (Frugal.find n v ≫= Frugal.node_record) = Some (hist_at h v).
Proof.
  intros Hok. unfold Frugal.find. rewrite (frugal_find_ok n h) //. simpl.
  unfold hist_at. rewrite -(fo_events n h Hok). unfold events.
  rewrite (filter_fmap_ext _ _ (λ m, fn_version m ≤ v)) //.
  destruct (filter _ (iter_from n)) as [|m l]; [done|]. simpl. unfold Frugal.node_live.
  by destruct (fn_payload m) eqn:E; simpl; rewrite ?E.
Qed.

Definition event_of (item : option P * Version) : Event P := (item.2, item.1).

Lemma replay_ok tosses n h items :
  frugal_ok n h → hist_ok (reverse (event_of <$> items) ++ h) →
  ∃ n', Frugal.replay tosses n items = Some n' ∧
    frugal_ok n' (reverse (event_of <$> items) ++ h).
Proof.
  revert tosses n h. induction items as [|[o v] items IH]; intros tosses n h Hok Hh.
  { by exists n. }
  rewrite fmap_cons reverse_cons -app_assoc /= in Hh |- *. unfold event_of in Hh at 2. simpl in Hh.
  destruct (frugal_append_ok (default false (head tosses)) n h o v) as (n' & -> & Hok'); [done| |].
  { apply (hist_ok_suffix h (reverse (event_of <$> items)) v o); [done|apply Hok]. }
  by apply IH.
Qed.

(** The sentinel is the oldest node and carries the oldest event. *)
Lemma frugal_clone_ok tosses n h :
  frugal_ok n h → ∃ n', Frugal.clone tosses n = Some n' ∧ frugal_ok n' h.
Proof.
  intros Hok. pose proof Hok as [Hh He _ _]. unfold Frugal.clone. cbv zeta.
  match goal with |- context [last ?l] => set (items := l) end.
  assert (event_of <$> items = h) as Hi.
  { rewrite -He. unfold events, items. by rewrite -list_fmap_compose. }
  destruct (ho_oldest h Hh) as (v & p & [h' Hl]%last_Some).
  clearbody items. destruct items as [|x items' _] using rev_ind; [by destruct h'; rewrite Hl in Hi|].
  rewrite fmap_app Hl in Hi. apply app_inj_tail in Hi as [Hi Hx].
  rewrite last_snoc removelast_last. destruct x as [o w]. injection Hx as -> ->. simpl.
  destruct (replay_ok tosses (Frugal.new p v) [(v, Some p)] (reverse items')) as (n' & Hr & Hok').
  - apply frugal_new_ok. rewrite Hl in Hh. pose proof (ho_bound _ Hh) as Hb.
    by apply Forall_app in Hb as [_ [Hb _]%Forall_cons].
  - by rewrite fmap_reverse reverse_involutive Hi -Hl.
  - rewrite fmap_reverse reverse_involutive Hi -Hl in Hok'. by exists n'.
Qed.
End frugal_ok.

(** ** The weaver's list is a frugal list once the keys are forgotten *)
Section weaver_ok.
Context {P : Type}.
Local Abbreviation Node := (VWeaverNodeSt P).
Implicit Types (n : Node) (h : History P) (p : P) (o : option P) (v w : Version).

Fixpoint forget n : AtomicFrugalList P :=
  let '(WNode nx r _ o v l) := n in
  FNode (match nx with Some m => Some (forget m) | None => None end)
        (match r with Some m => Some (forget m) | None => None end) o v l.

Lemma forget_payload n : fn_payload (forget n) = Weaver.wn_payload n.
Proof. by destruct n. Qed.
Lemma forget_version n : fn_version (forget n) = Weaver.wn_version n.
Proof. by destruct n. Qed.
Lemma forget_level n : fn_level (forget n) = Weaver.wn_level n.
Proof. by destruct n. Qed.
Lemma forget_live n : Frugal.node_live (forget n) = Weaver.node_live n.
Proof. by destruct n. Qed.

(** Induction over both links. *)
Lemma weaver_ind (Q : Node → Prop) :
  (∀ nx r k o v l,
    (∀ m, nx = Some m → Q m) → (∀ m, r = Some m → Q m) → Q (WNode nx r k o v l)) →
  ∀ n, Q n.
Proof.
  intros Hstep. fix IH 1. intros [nx r k o v l].
  apply Hstep; [destruct nx as [m|]|destruct r as [m|]]; intros m' Hm;
    first [discriminate Hm | injection Hm as <-; apply IH].
Qed.

Lemma weave_climb lvl n : forget <$> Weaver.weave lvl n = climb lvl (forget n).
Proof.
  induction n as [nx r k o v l _ IH] using weaver_ind. simpl.
  case_match; [|done]. destruct r as [m|]; [by apply IH|done].
Qed.

Lemma weaver_find_from n v b :
  option_map (option_map forget) (Weaver.find_from n v b) =
    Frugal.find_from (Some (forget n)) v b.
Proof.
  unfold Frugal.find_from. induction n as [nx r k o w l IHx IHr] using weaver_ind.
  cbn [Weaver.find_from forget find_from].
  destruct ((l <? SENTINEL_LEVEL) && (v <? w)) eqn:E.
  - destruct r as [m|], nx as [m'|]; rewrite ?forget_version;
      try case_match; try done; first [by apply IHr | by apply IHx].
  - cbn [mbind option_bind]. destruct (w <=? v); [|done]. simpl.
    by destruct o, b.
Qed.

Lemma forget_append toss n o v :
  forget <$> Weaver.append toss n o v = Frugal.append toss (forget n) o v.
Proof.
  destruct toss; [|done]. simpl. unfold Weaver.append_tower, Frugal.append_tower.
  rewrite -forget_level -weave_climb. by destruct (Weaver.weave _ n).
Qed.

Lemma forget_delete toss n v :
  forget <$> Weaver.delete toss n v = Frugal.delete toss (forget n) v.
Proof.
  unfold Weaver.delete, Frugal.delete, Weaver.is_live, Frugal.is_live. rewrite forget_live.
  case_match; [apply forget_append|done].
Qed.

Definition weaver_ok n h : Prop := frugal_ok (forget n) h.

Lemma weaver_step (c : option Node) h' :
  (∃ f, forget <$> c = Some f ∧ frugal_ok f h') → ∃ n', c = Some n' ∧ weaver_ok n' h'.
Proof. destruct c as [n'|]; simpl; [|naive_solver]. intros (f & [= <-] & Hf). by exists n'. Qed.

Lemma weaver_append_ok toss n h o v :
  weaver_ok n h → newest h < v < VERSION_BOUND →
  ∃ n', Weaver.append toss n o v = Some n' ∧ weaver_ok n' ((v, o) :: h).
Proof.
  intros Hok Hv. apply weaver_step. rewrite forget_append. by apply frugal_append_ok.
Qed.

Lemma weaver_delete_ok toss n h v :
  weaver_ok n h → newest h < v < VERSION_BOUND →
  ∃ n', Weaver.delete toss n v = Some n' ∧ weaver_ok n' (hist_kill v h).
Proof.
  intros Hok Hv. apply weaver_step. rewrite forget_delete. by apply frugal_delete_ok.
Qed.

Lemma weaver_find_at n h v :
  weaver_ok n h → (Weaver.find n v ≫= Weaver.node_record) = Some (hist_at h v).
Proof.
  intros Hok. rewrite -(frugal_find_at _ h v Hok). unfold Weaver.find, Frugal.find.
  rewrite -weaver_find_from. destruct (Weaver.find_from n v false) as [[m|]|]; [|done..].
  simpl. by rewrite forget_payload forget_version.
Qed.

Lemma weaver_live_ok n h : weaver_ok n h → Weaver.is_live n = hist_live h.
Proof. intros H%frugal_live_ok. by rewrite -H -[Weaver.is_live n]forget_live. Qed.

Lemma weaver_newest_ok n h : weaver_ok n h → Weaver.newest_payload n = hist_newest h.
Proof. intros H%frugal_newest_ok. by rewrite -H -[Weaver.newest_payload n]forget_payload. Qed.

Lemma weaver_new_ok k p v :
  0 ≤ v < VERSION_BOUND → weaver_ok (Weaver.new k p v) [(v, Some p)].
Proof. apply frugal_new_ok. Qed.
End weaver_ok.
