(* ===== verification/VersionIndex.v ===== *)
(** * Version indexes

    [src/src/dexa/mvb_version_index/version_index.rs]: the index of the versions
    of one record, a list of [VersionLists], a skip map of [crossbeam_skiplist]
    or a B+ tree of [CCBPlusTree], and the record that holds it
    ([mvb_record_model/v_record_point.rs]). All but the B+ tree implement the
    interface of [VersionHistory]. *)
From S2P Require Import Prelude OrdMap Version Tower Interval InternalPage Clock RootIndex.
From S2P Require Import VersionHistory VersionLists.
#[local] Set Default Proof Using "Type*".
Local Open Scope Z_scope.

Inductive VersionIndexType := KVANILLA | KVWEAVER | KSkipList | KFrugalSkipList | KBTree.

Definition is_skiplist (self : VersionIndexType) : bool :=
  match self with KSkipList => true | _ => false end.
Definition is_frugal (self : VersionIndexType) : bool :=
  match self with KFrugalSkipList => true | _ => false end.
Definition is_v_weaver (self : VersionIndexType) : bool :=
  match self with KVWEAVER => true | _ => false end.

(** The entry of the skip map and of the B+ tree. *)
Record RecordInfo (P : Type) := mkInfo { ri_del : DeletedVersion.t; ri_payload : P }.
Arguments mkInfo {_} _ _.
Arguments ri_del {_} _.
Arguments ri_payload {_} _.

Definition record_info_new {P} (p : P) : RecordInfo P := mkInfo DeletedVersion.new_null p.
Definition info_dead {P} (i : RecordInfo P) (v : Version) : RecordInfo P :=
  mkInfo (DeletedVersion.new v) (ri_payload i).
Definition info_live {P} (i : RecordInfo P) : bool :=
  match DeletedVersion.get (ri_del i) with None => true | Some _ => false end.
(** [del_version.get().map(|del| del > version).unwrap_or(true)]. *)
Definition info_visible {P} (i : RecordInfo P) (v : Version) : bool :=
  match DeletedVersion.get (ri_del i) with Some del => v <? del | None => true end.

(** Exact search and update of a record in the tree of [CCBPlusTree]. *)
Class BPlusTreeRecords (T : Type → Type) := {
  bt_point {V} : Version → T V → option (Version * V);
  bt_update {V} : Version → V → T V → bool * T V;
}.

Class BPlusTreeRecordsLaws (T : Type → Type) `{!BPlusTree T, !BPlusTreeRecords T} := {
  bt_point_records {V} k (t : T V) :
    bt_point k t = head (filter (λ e, e.1 = k) (bt_records t));
}.

Section index.
Context {M : ∀ K, KeyOrder K → Type → Type} `{!OrdMap M}.
Context {T : Type → Type} `{!BPlusTree T, !BPlusTreeRecords T}.
Context {P : Type}.

Definition SkipListImpl : Type := M Z Z_KeyOrder (RecordInfo P).
Definition DexaBTreeImpl : Type := T (RecordInfo P).

Inductive VersionIndex :=
  | FrugalSkipList (fg : AtomicFrugalList P)
  | VWEAVER (weaver : VWeaverNodeSt P)
  | VANILLA (version_list : AtomicVersionList P)
  | SkipList (skip_list : SkipListImpl)
  | DexaBTree (tree : DexaBTreeImpl).

(** [new_btree().into()] leaves the tree empty. *)
Definition new_btree : DexaBTreeImpl := bt_new.

Definition index_new (key : Z) (kind : VersionIndexType) (payload : P) (version : Version)
    : VersionIndex :=
  match kind with
  | KFrugalSkipList => FrugalSkipList (Frugal.new payload version)
  | KVANILLA => VANILLA (Vanilla.new payload version None)
  | KSkipList => SkipList (om_insert version (record_info_new payload) om_empty)
  | KBTree => DexaBTree new_btree
  | KVWEAVER => VWEAVER (Weaver.new key payload version)
  end.

(** A clone of the skip map or the tree is another handle to it; the lists of
    [vanilla.rs] and [frugal.rs] are copied. *)
Definition index_clone (tosses : list bool) (self : VersionIndex) : option VersionIndex :=
  match self with
  | VANILLA version_list => VANILLA <$> Vanilla.clone version_list
  | SkipList skip_list => Some (SkipList skip_list)
  | FrugalSkipList fg => FrugalSkipList <$> Frugal.clone tosses fg
  | DexaBTree tree => Some (DexaBTree tree)
  | VWEAVER weaver => Some (VWEAVER (Weaver.clone weaver))
  end.

Definition index_len (self : VersionIndex) : option nat :=
  match self with
  | VANILLA version_list => Vanilla.len version_list
  | SkipList skip_list => Some (om_len skip_list)
  | FrugalSkipList fg => Some (Frugal.len fg)
  | DexaBTree tree => Some (2 ^ bt_height tree - 1)%nat
  | VWEAVER weaver => Some (Weaver.len weaver)
  end.

Definition find_weaver_node (self : VersionIndex) (v : Version)
    : option (option (VWeaverNodeSt P)) :=
  match self with VWEAVER weaver => Weaver.find weaver v | _ => Some None end.

Definition find_weaver_node_or_tombstone (self : VersionIndex) (v : Version)
    : option (option (VWeaverNodeSt P)) :=
  match self with VWEAVER weaver => Weaver.find_any weaver v | _ => Some None end.

(** [range(..=version).rev().next()]. *)
Definition skip_find (entries : list (Version * RecordInfo P)) (v : Version)
    : option (Version * P) :=
  match last (filter (λ e, e.1 ≤ v) entries) with
  | Some (k, i) =>
      if (k <=? v) && info_visible i v then Some (k, ri_payload i) else None
  | None => None
  end.

Definition index_find (self : VersionIndex) (v : Version) : option (option (Version * P)) :=
  match self with
  | VANILLA version_list =>
      found ← Vanilla.find version_list v;
      Some (e ← found; Some (ve_insert e, ve_payload e))
  | SkipList skip_list => Some (skip_find (om_entries skip_list) v)
  | DexaBTree tree => Some (prod_map id ri_payload <$> bt_point v tree)
  | FrugalSkipList fg => found ← Frugal.find fg v; Frugal.node_record found
  | VWEAVER weaver => found ← Weaver.find weaver v; Weaver.node_record found
  end.

(** The entry of the newest version ends at [v], in place. *)
Definition skip_end (skip_list : SkipListImpl) (k : Version) (old : RecordInfo P) (v : Version)
    : SkipListImpl := om_insert k (info_dead old v) skip_list.

Definition tree_end (tree : DexaBTreeImpl) (k : Version) (old : RecordInfo P) (v : Version)
    : option DexaBTreeImpl :=
  let '(updated, tree) := bt_update k (info_dead old v) tree in
  if updated then Some tree else None.

Definition tree_push (tree : DexaBTreeImpl) (v : Version) (p : P) : option DexaBTreeImpl :=
  '(k, old) ← bt_peek_max tree;
  tree ← (if info_live old then tree_end tree k old v else Some tree : option DexaBTreeImpl);
  let '(inserted, tree) := bt_insert (T := T) v (record_info_new p) tree in
  if inserted then Some (tree : DexaBTreeImpl) else None.

Definition index_push (toss : bool) (self : VersionIndex) (v : Version) (p : P)
    : option VersionIndex :=
  match self with
  | FrugalSkipList fg => FrugalSkipList <$> Frugal.push toss fg (Some p) v
  | VANILLA version_list => VANILLA <$> Vanilla.push version_list v p
  | SkipList skip_list =>
      '(k, old) ← om_back skip_list;
      let skip_list := if info_live old then skip_end skip_list k old v else skip_list in
      Some (SkipList (om_insert v (record_info_new p) skip_list))
  | DexaBTree tree => DexaBTree <$> tree_push tree v p
  | VWEAVER weaver => VWEAVER <$> Weaver.push toss weaver (Some p) v
  end.

Definition index_append (toss : bool) (self : VersionIndex) (v : Version) (p : P)
    : option VersionIndex :=
  match self with
  | FrugalSkipList fg => FrugalSkipList <$> Frugal.append toss fg (Some p) v
  | VANILLA version_list => VANILLA <$> Vanilla.append version_list v p
  | SkipList skip_list =>
      '(k, old) ← om_back skip_list;
      if info_live old
      then Some (SkipList (om_insert v (record_info_new p) (skip_end skip_list k old v)))
      else Some self
  | DexaBTree tree => DexaBTree <$> tree_push tree v p
  | VWEAVER weaver => VWEAVER <$> Weaver.append toss weaver (Some p) v
  end.

Definition index_delete (toss : bool) (self : VersionIndex) (v : Version)
    : option VersionIndex :=
  match self with
  | FrugalSkipList fg => FrugalSkipList <$> Frugal.delete toss fg v
  | VANILLA version_list => VANILLA <$> Vanilla.delete version_list v
  | SkipList skip_list =>
      '(k, current) ← om_back skip_list;
      Some (if (k <? v) && info_live current
            then SkipList (skip_end skip_list k current v) else self)
  | DexaBTree tree =>
      match bt_peek_max tree with
      | Some (k, entry) =>
          if (k <? v) && info_live entry then DexaBTree <$> tree_end tree k entry v
          else Some self
      | None => Some self
      end
  | VWEAVER weaver => VWEAVER <$> Weaver.delete toss weaver v
  end.

Definition index_is_live (self : VersionIndex) : option bool :=
  match self with
  | VANILLA version_list => Vanilla.is_live version_list
  | SkipList skip_list => '(_, i) ← om_back skip_list; Some (info_live i)
  | FrugalSkipList fg => Some (Frugal.is_live fg)
  | DexaBTree tree =>
      Some (match bt_peek_max tree with Some (_, i) => info_live i | None => false end)
  | VWEAVER weaver => Some (Weaver.is_live weaver)
  end.

Definition index_newest_payload (self : VersionIndex) : option P :=
  match self with
  | FrugalSkipList fg => Frugal.newest_payload fg
  | VANILLA version_list => Vanilla.newest_payload version_list
  | SkipList skip_list => '(_, i) ← om_back skip_list; Some (ri_payload i)
  | DexaBTree tree => '(_, i) ← bt_peek_max tree; Some (ri_payload i)
  | VWEAVER weaver => Weaver.newest_payload weaver
  end.

#[export] Instance VersionIndex_store : VersionStore P VersionIndex := {|
  vs_push := index_push; vs_append := index_append; vs_delete := index_delete;
  vs_find := index_find; vs_is_live := index_is_live;
  vs_newest_payload := index_newest_payload; vs_clone := index_clone;
|}.
End index.
Arguments VersionIndex : clear implicits.
Arguments SkipListImpl : clear implicits.

(** ** Every index but the B+ tree stands for the history of its record *)
Section index_ok.
Context {M : ∀ K, KeyOrder K → Type → Type} `{!OrdMap M, !OrdMapLaws M}.
Context {T : Type → Type} `{!BPlusTree T, !BPlusTreeRecords T}.
Context {P : Type}.
Local Abbreviation VersionIndex := (VersionIndex M T P).
Implicit Types (es : list (Version * RecordInfo P)) (h : History P) (p : P) (v w : Version).
Implicit Types (i : RecordInfo P).

Lemma skip_find_snoc es k i v :
  skip_find (es ++ [(k, i)]) v =
    if k <=? v then (if info_visible i v then Some (k, ri_payload i) else None)
    else skip_find es v.
Proof.
  unfold skip_find. rewrite filter_app filter_cons filter_nil. simpl.
  destruct (k <=? v) eqn:E.
  - rewrite decide_True; [|lia]. by rewrite last_snoc E.
  - rewrite decide_False; [|lia]. by rewrite app_nil_r.
Qed.

Lemma visible_live i v : info_live i = true → info_visible i v = true.
Proof. unfold info_live, info_visible. by case_match. Qed.

Lemma visible_dead i w v :
  0 ≤ w < VERSION_BOUND → info_visible (info_dead i w) v = (v <? w).
Proof. intros Hw. unfold info_visible. simpl. by rewrite DeletedVersion.get_new. Qed.

Lemma live_dead i w : 0 ≤ w < VERSION_BOUND → info_live (info_dead i w) = false.
Proof. intros Hw. unfold info_live. simpl. by rewrite DeletedVersion.get_new. Qed.

Lemma live_new p : info_live (record_info_new p) = true.
Proof. done. Qed.

(** The greatest entry carries the newest event. *)
Definition skip_back es h : Prop :=
  match h with
  | (w, Some p) :: _ =>
      ∃ es' i, es = es' ++ [(w, i)] ∧ info_live i = true ∧ ri_payload i = p
  | (w, None) :: _ =>
      ∃ es' i w', es = es' ++ [(w', info_dead i w)] ∧ w' < w
  | [] => False
  end.

Record skip_ok es h : Prop := {
  so_hist : hist_ok h;
  so_back : skip_back es h;
  so_below : Forall (λ e, e.1 ≤ newest h) es;
  so_find v : skip_find es v = hist_at h v;
}.

Lemma skip_new_ok p v :
  0 ≤ v < VERSION_BOUND → skip_ok [(v, record_info_new p)] [(v, Some p)].
Proof.
  intros Hv. split; [by apply hist_ok_new|by exists [], (record_info_new p)| |].
  - by repeat constructor.
  - intros w. by rewrite hist_at_cons -[[_]]app_nil_l skip_find_snoc.
Qed.

Lemma skip_below es h v : newest h < v → Forall (λ e, e.1 ≤ newest h) es →
  Forall (λ e : Version * RecordInfo P, e.1 ≤ v) es.
Proof. intros Hv Hb. eapply Forall_impl; [exact Hb|]. intros e He. eapply Z.le_trans; [exact He|lia]. Qed.

(** A new greatest entry. *)
Lemma skip_put_ok es' h v p :
  hist_ok h → newest h < v < VERSION_BOUND →
  Forall (λ e, e.1 ≤ v) es' → (∀ w, w < v → skip_find es' w = hist_at h w) →
  skip_ok (es' ++ [(v, record_info_new p)]) ((v, Some p) :: h).
Proof.
  intros Hh Hv Hb Hf. split; [by apply hist_ok_cons|by exists es', (record_info_new p)| |].
  - apply Forall_app. split; [done|by repeat constructor].
  - intros w. rewrite skip_find_snoc hist_at_cons. destruct (v <=? w) eqn:E; [done|].
    apply Hf. lia.
Qed.

(** The end of a live greatest entry hides it from [v] on only. *)
Lemma skip_end_find es w i v x :
  info_live i = true → 0 ≤ v < VERSION_BOUND → x < v →
  skip_find (es ++ [(w, info_dead i v)]) x = skip_find (es ++ [(w, i)]) x.
Proof.
  intros Hl Hv Hx. rewrite !skip_find_snoc visible_dead // (visible_live i) //.
  by rewrite (proj2 (Z.ltb_lt x v)).
Qed.

Lemma skip_dead_ok es w i h v :
  hist_ok h → newest h < v < VERSION_BOUND → w ≤ newest h → info_live i = true →
  Forall (λ e, e.1 ≤ newest h) es → (∀ x, skip_find (es ++ [(w, i)]) x = hist_at h x) →
  skip_ok (es ++ [(w, info_dead i v)]) ((v, None) :: h).
Proof.
  intros Hh Hv Hw Hl Hb Hf. destruct (hist_ok_newest h Hh) as (_ & _ & _ & ?).
  split; [by apply hist_ok_cons|exists es, i, w; split; [done|lia]| |].
  - apply Forall_app. change (newest ((v, None) :: h)) with v.
    split; [apply (skip_below _ h); [lia|done]|]. repeat constructor. simpl. lia.
  - intros x. rewrite hist_at_cons. destruct (v <=? x) eqn:E.
    + rewrite skip_find_snoc visible_dead; [|lia].
      rewrite (proj2 (Z.leb_le w x)); [|lia]. by rewrite (proj2 (Z.ltb_ge x v)); [|lia].
    + rewrite skip_end_find //; [lia|]. lia.
Qed.
Implicit Types (sk : SkipListImpl M P).

Lemma skip_insert_max sk v (i : RecordInfo P) :
  Forall (λ e, e.1 < v) (om_entries sk) →
  om_entries (om_insert v i sk) = om_entries sk ++ [(v, i)].
Proof.
  rewrite Forall_forall. intros Hb. apply entries_insert_max. intros e He. specialize (Hb e He).
  split; [by apply Z.lt_le_incl|]. intros Heq. by rewrite Heq in Hb; apply Z.lt_irrefl in Hb.
Qed.

Lemma below_lt es h v :
  newest h < v → Forall (λ e : Version * RecordInfo P, e.1 ≤ newest h) es →
  Forall (λ e, e.1 < v) es.
Proof. intros Hv Hb. eapply Forall_impl; [exact Hb|]. intros e He. eapply Z.le_lt_trans; [exact He|done]. Qed.

(** A dead record: the newest entry has ended already. *)
Lemma skip_back_dead sk h :
  skip_ok (om_entries sk) h → hist_live h = false →
  ∃ k i, om_back sk = Some (k, i) ∧ info_live i = false.
Proof.
  intros [Hh Hback _ _] Hl. destruct h as [|[w [p|]] h]; [done..|].
  destruct Hback as (es' & i & w' & Hes & Hw). exists w', (info_dead i w).
  unfold om_back. rewrite Hes last_snoc. split; [done|]. apply live_dead.
  by pose proof (ho_bound _ Hh) as [Hb _]%Forall_cons.
Qed.

(** A live one: the entry to end, and the entries before it. *)
Lemma skip_back_live sk h :
  skip_ok (om_entries sk) h → hist_live h = true →
  ∃ es i, om_entries sk = es ++ [(newest h, i)] ∧ om_back sk = Some (newest h, i) ∧
    info_live i = true ∧ hist_newest h = Some (ri_payload i).
Proof.
  intros [_ Hback _ _] Hl. destruct h as [|[w [p|]] h]; [done| |done].
  destruct Hback as (es' & i & Hes & Hi & <-). exists es', i.
  unfold om_back. by rewrite Hes last_snoc.
Qed.

Lemma skip_append_ok sk h v p :
  skip_ok (om_entries sk) h → newest h < v < VERSION_BOUND →
  ∃ k i, om_back sk = Some (k, i) ∧ info_live i = hist_live h ∧
    skip_ok (om_entries (om_insert v (record_info_new p)
      (if info_live i then skip_end sk k i v else sk))) (hist_put v p h).
Proof.
  intros Hok Hv. pose proof Hok as [Hh _ Hb Hf].
  destruct (hist_ok_newest h Hh) as (_ & _ & _ & Hn).
  destruct (hist_live h) eqn:Hl.
  - destruct (skip_back_live sk h Hok Hl) as (es & i & Hes & Hbk & Hi & _).
    exists (newest h), i. split_and!; [done..|]. rewrite Hi.
    pose proof (entries_replace_last _ _ (info_dead i v) _ _ Hes) as Hend.
    assert (Forall (λ e, e.1 ≤ newest h) (es ++ [(newest h, info_dead i v)])) as Hb'.
    { rewrite Hes in Hb. apply Forall_app in Hb as [Hb _]. apply Forall_app. split; [done|].
      by repeat constructor. }
    rewrite skip_insert_max; unfold skip_end; rewrite Hend.
    + apply skip_put_ok; [done..|apply (skip_below _ h); [lia|done]|].
      intros w Hw. rewrite skip_end_find; [by rewrite -Hes|done|lia|done].
    + apply (below_lt _ h); [lia|done].
  - destruct (skip_back_dead sk h Hok Hl) as (k & i & Hbk & Hi).
    exists k, i. split_and!; [done..|]. rewrite Hi skip_insert_max.
    + apply skip_put_ok; [done..|apply (skip_below _ h); [lia|done]|]. intros w _. apply Hf.
    + apply (below_lt _ h); [lia|done].
Qed.

Lemma skip_delete_ok sk h v :
  skip_ok (om_entries sk) h → newest h < v < VERSION_BOUND →
  ∃ k i, om_back sk = Some (k, i) ∧
    skip_ok (om_entries (if (k <? v) && info_live i then skip_end sk k i v else sk))
      (hist_kill v h).
Proof.
  intros Hok Hv. pose proof Hok as [Hh _ Hb Hf]. unfold hist_kill.
  destruct (hist_live h) eqn:Hl.
  - destruct (skip_back_live sk h Hok Hl) as (es & i & Hes & Hbk & Hi & _).
    exists (newest h), i. split; [done|]. rewrite (proj2 (Z.ltb_lt _ v)) ?Hi; [|lia].
    unfold skip_end. simpl. rewrite (entries_replace_last _ _ (info_dead i v) _ _ Hes).
    rewrite Hes in Hb, Hf. apply Forall_app in Hb as [Hb _]. by apply skip_dead_ok.
  - destruct (skip_back_dead sk h Hok Hl) as (k & i & Hbk & Hi).
    exists k, i. split; [done|]. by rewrite Hi andb_false_r.
Qed.

Definition index_ok (self : VersionIndex) h : Prop :=
  match self with
  | FrugalSkipList fg => frugal_ok fg h
  | VWEAVER weaver => weaver_ok weaver h
  | VANILLA version_list => vanilla_ok version_list h
  | SkipList skip_list => skip_ok (om_entries skip_list) h
  | DexaBTree _ => False
  end.

Lemma index_hist s h : index_ok s h → hist_ok h.
Proof. by destruct s; intros []. Qed.

Lemma index_find_ok s h v : index_ok s h → v < U64_MAX → index_find s v = Some (hist_at h v).
Proof.
  destruct s as [fg|w|l|sk|t]; cbn [index_ok index_find]; intros Hok Hv; [|..|done].
  - by rewrite -(frugal_find_at fg h v Hok).
  - by rewrite -(weaver_find_at w h v Hok).
  - rewrite -(vo_find l h Hok v Hv). destruct (vanilla_nonempty l h Hok) as (e & l' & ->).
    simpl. by case_match.
  - by rewrite (so_find _ _ Hok).
Qed.

Lemma index_live_ok s h : index_ok s h → index_is_live s = Some (hist_live h).
Proof.
  destruct s as [fg|w|l|sk|t]; cbn [index_ok index_is_live]; intros Hok; [|..|done].
  - f_equal. by apply frugal_live_ok.
  - f_equal. by apply weaver_live_ok.
  - by apply vanilla_live_ok.
  - destruct (hist_live h) eqn:Hl.
    + destruct (skip_back_live sk h Hok Hl) as (es & i & _ & Hbk & Hi & _).
      rewrite Hbk /=. by rewrite Hi.
    + destruct (skip_back_dead sk h Hok Hl) as (k & i & Hbk & Hi).
      rewrite Hbk /=. by rewrite Hi.
Qed.

Lemma index_newest_ok s h :
  index_ok s h → hist_live h = true → index_newest_payload s = hist_newest h.
Proof.
  destruct s as [fg|w|l|sk|t]; cbn [index_ok index_newest_payload]; intros Hok Hl; [|..|done].
  - by apply frugal_newest_ok.
  - by apply weaver_newest_ok.
  - by apply vanilla_newest_ok.
  - destruct (skip_back_live sk h Hok Hl) as (es & i & _ & Hbk & _ & ->).
    by rewrite Hbk.
Qed.

Lemma index_push_ok c s h v p :
  index_ok s h → newest h < v < VERSION_BOUND →
  ∃ s', index_push c s v p = Some s' ∧ index_ok s' (hist_put v p h).
Proof.
  destruct s as [fg|w|l|sk|t]; cbn [index_ok index_push]; intros Hok Hv; [|..|done].
  - destruct (frugal_append_ok c fg h (Some p) v Hok Hv) as (x & Hx & Hx').
    exists (FrugalSkipList x). unfold Frugal.push. by rewrite Hx.
  - destruct (weaver_append_ok c w h (Some p) v Hok Hv) as (x & Hx & Hx').
    exists (VWEAVER x). unfold Weaver.push. by rewrite Hx.
  - destruct (vanilla_append_ok l h v p Hok Hv) as (x & Hx & Hx').
    exists (VANILLA x). unfold Vanilla.push. by rewrite Hx.
  - destruct (skip_append_ok sk h v p Hok Hv) as (k & i & Hbk & _ & Hx').
    rewrite Hbk /=.
    by eexists (SkipList _).
Qed.

(** On a live record [append] is [push]. *)
Lemma index_append_push c s h v p :
  index_ok s h → hist_live h = true → newest h < v < VERSION_BOUND →
  index_append c s v p = index_push c s v p.
Proof.
  destruct s as [fg|w|l|sk|t]; cbn [index_ok index_append index_push]; intros Hok Hl Hv; try done.
  destruct (skip_back_live sk h Hok Hl) as (es & i & _ & Hbk & Hi & _).
      rewrite Hbk /=. by rewrite Hi.
Qed.

Lemma index_delete_ok c s h v :
  index_ok s h → newest h < v < VERSION_BOUND →
  ∃ s', index_delete c s v = Some s' ∧ index_ok s' (hist_kill v h).
Proof.
  destruct s as [fg|w|l|sk|t]; cbn [index_ok index_delete]; intros Hok Hv; [|..|done].
  - destruct (frugal_delete_ok c fg h v Hok Hv) as (x & Hx & Hx').
    exists (FrugalSkipList x). by rewrite Hx.
  - destruct (weaver_delete_ok c w h v Hok Hv) as (x & Hx & Hx').
    exists (VWEAVER x). by rewrite Hx.
  - destruct (vanilla_delete_ok l h v Hok Hv) as (x & Hx & Hx').
    exists (VANILLA x). by rewrite Hx.
  - destruct (skip_delete_ok sk h v Hok Hv) as (k & i & Hbk & Hx').
    rewrite Hbk /=.
    eexists. split; [done|]. by case_match.
Qed.

Lemma index_clone_ok cs s h :
  index_ok s h → ∃ s', index_clone cs s = Some s' ∧ index_ok s' h.
Proof.
  destruct s as [fg|w|l|sk|t]; cbn [index_ok index_clone]; intros Hok; [|..|done].
  - destruct (frugal_clone_ok cs fg h Hok) as (x & Hx & Hx').
    exists (FrugalSkipList x). by rewrite Hx.
  - by exists (VWEAVER w).
  - exists (VANILLA l). by rewrite (vanilla_clone_ok l h Hok).
  - by exists (SkipList sk).
Qed.

#[export] Program Instance VersionIndex_laws : VersionStoreLaws P VersionIndex :=
  {| vs_ok := λ _, index_ok |}.
Next Obligation. intros ?. exact index_hist. Qed.
Next Obligation. intros ?. exact index_find_ok. Qed.
Next Obligation. intros ?. exact index_live_ok. Qed.
Next Obligation. intros ?. exact index_newest_ok. Qed.
Next Obligation. intros c ?. exact (index_push_ok c). Qed.
Next Obligation.
  intros c k s h v p Hok Hl Hv. simpl. rewrite (index_append_push c s h v p Hok Hl Hv).
  by apply index_push_ok.
Qed.
Next Obligation. intros c ?. exact (index_delete_ok c). Qed.
Next Obligation. intros cs ?. exact (index_clone_ok cs). Qed.

Lemma version_index_new_ok key kind p v :
  kind ≠ KBTree → 0 ≤ v < VERSION_BOUND →
  index_ok (index_new key kind p v) [(v, Some p)].
Proof.
  intros Hk Hv. destruct kind; simpl; try done.
  - by apply vanilla_new_ok.
  - by apply weaver_new_ok.
  - rewrite skip_insert_max entries_empty; [|constructor]. by apply skip_new_ok.
  - by apply frugal_new_ok.
Qed.
End index_ok.

(** ** An instance for the examples *)
#[export] Instance SortedTree_records : BPlusTreeRecords SortedTree := {|
  bt_point _ k t := head (filter (λ e, e.1 = k) t);
  bt_update _ k v t :=
    (existsb (λ e, Z.eqb e.1 k) t, (λ e, if Z.eqb e.1 k then (k, v) else e) <$> t);
|}.

#[export] Instance SortedTree_records_laws : BPlusTreeRecordsLaws SortedTree.
Proof. by split. Qed.

(** ** Runs of operations on one index *)
Inductive VersionOp (P : Type) := VPush (p : P) | VAppend (p : P) | VDelete | VClone.
Arguments VPush {_} _.
Arguments VAppend {_} _.
Arguments VDelete {_}.
Arguments VClone {_}.

Section run.
Context {P S : Type} `{!VersionStore P S}.
Implicit Types (s : S) (h : History P) (ops : list (Version * VersionOp P * list bool)).

(** Each operation with its version and the coins it tosses. *)
Definition index_apply s (op : Version * VersionOp P * list bool) : option S :=
  let '(v, o, coins) := op in
  let toss := default false (head coins) in
  match o with
  | VPush p => vs_push toss s v p
  | VAppend p => vs_append toss s v p
  | VDelete => vs_delete (P := P) toss s v
  | VClone => vs_clone (P := P) coins s
  end.

Fixpoint index_run s ops : option S :=
  match ops with
  | [] => Some s
  | op :: ops => s ← index_apply s op; index_run s ops
  end.

Definition hist_apply h (op : Version * VersionOp P * list bool) : History P :=
  let '(v, o, _) := op in
  match o with
  | VPush p | VAppend p => hist_put v p h
  | VDelete => hist_kill v h
  | VClone => h
  end.

Definition hist_run h ops : History P := foldl hist_apply h ops.

(** Versions rise, and only live records are appended to. *)
Definition op_ok h (op : Version * VersionOp P * list bool) : Prop :=
  let '(v, o, _) := op in
  newest h < v < VERSION_BOUND ∧ match o with VAppend _ => hist_live h = true | _ => True end.

Fixpoint ops_ok h ops : Prop :=
  match ops with
  | [] => True
  | op :: ops => op_ok h op ∧ ops_ok (hist_apply h op) ops
  end.

Lemma index_run_ok `{!VersionStoreLaws P S} k s h ops :
  vs_ok k s h → ops_ok h ops → ∃ s', index_run s ops = Some s' ∧ vs_ok k s' (hist_run h ops).
Proof.
  revert s h. induction ops as [|[[v o] coins] ops IH]; intros s h Hs; [by exists s|].
  intros [[Hv Ho] Hops].
  assert (∃ s', index_apply s (v, o, coins) = Some s' ∧ vs_ok k s' (hist_apply h (v, o, coins)))
    as (s' & Happ & Hs').
  { destruct o as [p|p| |]; simpl in *;
      [by apply vs_push_ok|by apply vs_append_ok|by apply vs_delete_ok|by apply vs_clone_ok]. }
  cbn [index_run]. rewrite Happ. by apply IH.
Qed.
End run.
