(* ===== verification/VersionedLeaf.v ===== *)
(** * Leaves of versioned records

    The leaf pages of the trees of [src/src/dexa/]: one record per key, sorted,
    each with the index of its versions ([mvb_page_model/node.rs]), and what the
    operations of [mvb_crud_model/dispatch.rs] do to the leaf their descent
    arrives at. The version of a write is the one [start_tx_commit] hands out;
    the descent, the range scans and the count of node visits are left out. The
    leaf is proved against the interface of [VersionHistory]. *)
From S2P Require Import Prelude Version Interval VersionHistory.
From Stdlib Require Import ZifyNat.
#[local] Set Default Proof Using "Type*".

Record VersionedRecordPoint (S : Type) := mkVRecord { vr_key : Z; version_index : S }.
Arguments mkVRecord {_} _ _.
Arguments vr_key {_} _.
Arguments version_index {_} _.

Inductive Node (S : Type) :=
  | Index (keys : list Z) (children : list nat)
  | Leaf (records : list (VersionedRecordPoint S)).
Arguments Index {_} _ _.
Arguments Leaf {_} _.

Inductive CRUDOperation (P : Type) :=
  | Empty
  | Insert (k : Z) (p : P)
  | Update (k : Z) (p : P)
  | Delete (k : Z)
  | Point (k : Z) (v : Version)
  | PointSi (k : Z)
  | PeekMin
  | PeekMax
  | PopMin
  | PopMax
  | Range (i : Interval) (v : Version)
  | RangeSi (i : Interval)
  | UpdateRand
  | DeleteRand
  | InsertRand.
Arguments Empty {_}.
Arguments Insert {_} _ _.
Arguments Update {_} _ _.
Arguments Delete {_} _.
Arguments Point {_} _ _.
Arguments PointSi {_} _.
Arguments Range {_} _ _.
Arguments RangeSi {_} _.
Arguments PeekMin {_}.
Arguments PeekMax {_}.
Arguments PopMin {_}.
Arguments PopMax {_}.
Arguments UpdateRand {_}.
Arguments DeleteRand {_}.
Arguments InsertRand {_}.

Inductive CRUDOperationInnerReason := KeyAlreadyDeleted | KeyDoesNotExist | KeyAlreadyExists.

Inductive CRUDOperationResult (P : Type) :=
  | MatchedRecords (rs : list (Z * P))
  | MatchedRecord (r : option (Z * P))
  | Inserted (v : Version)
  | Updated (v : Version)
  | Deleted (v : Version)
  | ZeroAffected (reason : CRUDOperationInnerReason)
  | Error.
Arguments MatchedRecords {_} _.
Arguments MatchedRecord {_} _.
Arguments Inserted {_} _.
Arguments Updated {_} _.
Arguments Deleted {_} _.
Arguments ZeroAffected {_} _.
Arguments Error {_}.

Section leaf.
Context {P S : Type} `{!VersionStore P S}.
Context (Key_default : Z) (Payload_default : P).
Context (NUM_RECORDS : nat).
Context (version_index_new : Z → P → Version → S).
Implicit Types (node : Node S) (records : list (VersionedRecordPoint S)).
Implicit Types (key : Z) (payload : P) (version : Version) (toss : bool).

Definition record_new (key : Z) (version : Version) (payload : P) : VersionedRecordPoint S :=
  mkVRecord key (version_index_new key payload version).

(** [ShadowVec::insert] on the page's array; behind its end it would overwrite
    what follows the page. *)
Definition shadow_insert (index : nat) (e : VersionedRecordPoint S) records
    : option (list (VersionedRecordPoint S)) :=
  if decide (length records < NUM_RECORDS)
  then Some (take index records ++ e :: drop index records) else None.

Definition set_index (found : nat) (record : VersionedRecordPoint S) (index : S) records :=
  <[found := mkVRecord (vr_key record) index]> records.

(** [Result<Option<()>, ()>] as [option ()] or an error. *)
Definition delete_key toss node key (del_version : Version)
    : option ((option () + ()) * Node S) :=
  match node with
  | Leaf records =>
      match binary_search_by_key vr_key key records with
      | inl found =>
          record ← records !! found;
          live ← vs_is_live (P := P) (version_index record);
          if (live : bool) then
            index ← vs_delete (P := P) toss (version_index record) del_version;
            Some (inl (Some ()), Leaf (set_index found record index records))
          else Some (inr (), node)
      | inr _ => Some (inr (), node)
      end
  | _ => Some (inr (), node)
  end.

Definition update_record_point toss node key payload version
    : option ((option () + ()) * Node S) :=
  match node with
  | Leaf records =>
      match binary_search_by_key vr_key key records with
      | inl found =>
          record ← records !! found;
          live ← vs_is_live (P := P) (version_index record);
          if (live : bool) then
            index ← vs_append toss (version_index record) version payload;
            Some (inl (Some ()), Leaf (set_index found record index records))
          else Some (inl None, node)
      | inr _ => Some (inl None, node)
      end
  | _ => Some (inr (), node)
  end.

Definition push_record_point toss node key payload version : option (bool * Node S) :=
  match node with
  | Leaf records =>
      match binary_search_by_key vr_key key records with
      | inr pos =>
          records ← shadow_insert pos (record_new key version payload) records;
          Some (true, Leaf records)
      | inl pos =>
          record ← records !! pos;
          index ← vs_push toss (version_index record) version payload;
          Some (true, Leaf (set_index pos record index records))
      end
  | _ => Some (false, node)
  end.

Definition as_records node : option (list (VersionedRecordPoint S)) :=
  match node with Leaf records => Some records | _ => None end.

(** ** The arms of the dispatch, at the leaf of the descent *)
Definition delete_at_leaf toss node key (del_version : Version)
    : option (CRUDOperationResult P * Node S) :=
  '(res, node) ← delete_key toss node key del_version;
  Some (match res with
        | inl (Some _) => Deleted del_version
        | inl None => ZeroAffected KeyDoesNotExist
        | inr _ => ZeroAffected KeyAlreadyDeleted
        end, node).

Definition insert_at_leaf toss node key payload (ingest_version : Version)
    : option (CRUDOperationResult P * Node S) :=
  '(res, node) ← push_record_point toss node key payload ingest_version;
  Some (if (res : bool) then Inserted ingest_version else Error, node).

Definition update_at_leaf toss node key payload (update_version : Version)
    : option (CRUDOperationResult P * Node S) :=
  '(res, node) ← update_record_point toss node key payload update_version;
  Some (match res with
        | inl (Some _) => Updated update_version
        | inl None => ZeroAffected KeyDoesNotExist
        | inr _ => Error
        end, node).

(** The optimistic read. *)
Definition point_olc node key version : option (CRUDOperationResult P) :=
  records ← as_records node;
  match binary_search_by_key vr_key key records with
  | inl pos =>
      record ← records !! pos;
      v ← vs_find (P := P) (version_index record) version;
      Some (MatchedRecord (match v with Some (_, p) => Some (key, p) | None => None end))
  | inr _ => Some (MatchedRecord None)
  end.

(** The read under latches: of a key with a record but no version to show it
    returns [RecordPoint::default()]. *)
Definition point_locked node key version : option (CRUDOperationResult P) :=
  records ← as_records node;
  match binary_search_by_key vr_key key records with
  | inl pos =>
      record ← records !! pos;
      found ← vs_find (P := P) (version_index record) version;
      Some (MatchedRecord (Some
        (match found with Some (_, p) => (key, p) | None => (Key_default, Payload_default) end)))
  | inr _ => Some (MatchedRecord None)
  end.

(** [PeekMin] and [PeekMax] look at one end of the leaf only. *)
Definition peek_record (v_record : option (VersionedRecordPoint S))
    : option (CRUDOperationResult P) :=
  match v_record with
  | Some v_record =>
      live ← vs_is_live (P := P) (version_index v_record);
      if (live : bool) then
        p ← vs_newest_payload (version_index v_record);
        Some (MatchedRecord (Some (vr_key v_record, p)))
      else Some (MatchedRecord None)
  | None => Some (MatchedRecord None)
  end.

Definition peek_min node : option (CRUDOperationResult P) :=
  records ← as_records node; peek_record (head records).
Definition peek_max node : option (CRUDOperationResult P) :=
  records ← as_records node; peek_record (last records).

Definition pop_record toss node (pos : nat) (del_version : Version)
    : option (CRUDOperationResult P * Node S) :=
  records ← as_records node;
  v_record ← records !! pos;
  live ← vs_is_live (P := P) (version_index v_record);
  if (live : bool) then
    p ← vs_newest_payload (version_index v_record);
    index ← vs_delete (P := P) toss (version_index v_record) del_version;
    Some (MatchedRecord (Some (vr_key v_record, p)),
          Leaf (set_index pos v_record index records))
  else Some (Error, node).

Definition pop_min toss node (del_version : Version) : option (CRUDOperationResult P * Node S) :=
  records ← as_records node;
  match records with [] => Some (Error, node) | _ => pop_record toss node 0 del_version end.

Definition pop_max toss node (del_version : Version) : option (CRUDOperationResult P * Node S) :=
  records ← as_records node;
  if decide (0 < length records) then pop_record toss node (length records - 1) del_version
  else Some (Error, node).

Definition read_only node (res : option (CRUDOperationResult P))
    : option (CRUDOperationResult P * Node S) := (., node) <$> res.

(** [version] is the version of a write; [olc] selects the arm of a read. The
    reads at the current version and those of a range are not about one leaf. *)
Definition dispatch_at_leaf (olc toss : bool) (version : Version) (op : CRUDOperation P) node
    : option (CRUDOperationResult P * Node S) :=
  match op with
  | Delete key => delete_at_leaf toss node key version
  | Insert key payload => insert_at_leaf toss node key payload version
  | Update key payload => update_at_leaf toss node key payload version
  | Point key v => read_only node (if olc then point_olc node key v else point_locked node key v)
  | PeekMin => read_only node (peek_min node)
  | PeekMax => read_only node (peek_max node)
  | PopMin => pop_min toss node version
  | PopMax => pop_max toss node version
  | Empty => Some (Error, node)
  | UpdateRand | DeleteRand | InsertRand => None
  | PointSi _ | Range _ _ | RangeSi _ => None
  end.
End leaf.

(** ** The table a leaf stands for: the history of each of its keys *)
Definition Table (P : Type) : Type := gmap Z (History P).

Section spec.
Context {P : Type} (Key_default : Z) (Payload_default : P).
Implicit Types (m : Table P) (h : History P) (k : Z) (v w : Version).

Definition seen m k w : option (Version * P) := h ← m !! k; hist_at h w.
Definition live_key m k : bool := match m !! k with Some h => hist_live h | None => false end.

(** The smallest key of the table by one of its two orders. *)
Definition extreme (R : relation Z) m k h : Prop :=
  m !! k = Some h ∧ ∀ k', is_Some (m !! k') → R k k'.

(** What a read of [k] at [w] answers, optimistic or under latches. *)
Definition point_answer (olc : bool) m k w : option (Z * P) :=
  match m !! k with
  | Some h =>
      match hist_at h w with
      | Some (_, p) => Some (k, p)
      | None => if olc then None else Some (Key_default, Payload_default)
      end
  | None => None
  end.

Definition peek_answer k h : option (Z * P) :=
  if hist_live h then (k,.) <$> hist_newest h else None.

Inductive leaf_step (olc : bool) v m :
    CRUDOperation P → CRUDOperationResult P → Table P → Prop :=
  | LS_insert k p :
      leaf_step olc v m (Insert k p) (Inserted v) (<[k := hist_put v p (default [] (m !! k))]> m)
  | LS_update k p h :
      m !! k = Some h → hist_live h = true →
      leaf_step olc v m (Update k p) (Updated v) (<[k := hist_put v p h]> m)
  | LS_update_missing k p :
      live_key m k = false →
      leaf_step olc v m (Update k p) (ZeroAffected KeyDoesNotExist) m
  | LS_delete k h :
      m !! k = Some h → hist_live h = true →
      leaf_step olc v m (Delete k) (Deleted v) (<[k := hist_kill v h]> m)
  | LS_delete_missing k :
      live_key m k = false →
      leaf_step olc v m (Delete k) (ZeroAffected KeyAlreadyDeleted) m
  | LS_point k w :
      leaf_step olc v m (Point k w) (MatchedRecord (point_answer olc m k w)) m
  | LS_peek_min k h :
      extreme Z.le m k h → leaf_step olc v m PeekMin (MatchedRecord (peek_answer k h)) m
  | LS_peek_max k h :
      extreme Z.ge m k h → leaf_step olc v m PeekMax (MatchedRecord (peek_answer k h)) m
  | LS_peek_none op :
      m = ∅ → op = PeekMin ∨ op = PeekMax → leaf_step olc v m op (MatchedRecord None) m
  | LS_pop_min k h :
      extreme Z.le m k h → hist_live h = true →
      leaf_step olc v m PopMin (MatchedRecord (peek_answer k h)) (<[k := hist_kill v h]> m)
  | LS_pop_max k h :
      extreme Z.ge m k h → hist_live h = true →
      leaf_step olc v m PopMax (MatchedRecord (peek_answer k h)) (<[k := hist_kill v h]> m)
  | LS_pop_dead (R : relation Z) op k h :
      (op, R) = (PopMin, Z.le) ∨ (op, R) = (PopMax, Z.ge) →
      extreme R m k h → hist_live h = false → leaf_step olc v m op Error m
  | LS_pop_none op :
      m = ∅ → op = PopMin ∨ op = PopMax → leaf_step olc v m op Error m
  | LS_empty : leaf_step olc v m Empty Error m.
End spec.

(** ** Sorted slices of records *)
Section search.
Context {A : Type} (f : A → Z).
Implicit Types (l : list A) (k : Z).

Definition sorted_by l : Prop := StronglySorted Z.lt (f <$> l).

Lemma search_found l k i :
  binary_search_by_key f k l = inl i → ∃ x, l !! i = Some x ∧ f x = k.
Proof using Type.
  unfold binary_search_by_key. destruct (find_idx _ l) as [j|] eqn:E; [|done]. intros [= <-].
  revert j E. induction l as [|x l IH]; intros j; [done|]. simpl.
  destruct (f x =? k)%Z eqn:Ex.
  - intros [= <-]. exists x. split; [done|]. by apply Z.eqb_eq.
  - destruct (find_idx _ l) as [j'|]; [|done]. intros [= <-]. by apply IH.
Qed.

Lemma search_missing l k i :
  binary_search_by_key f k l = inr i →
  i = length (filter (λ x, (f x < k)%Z) l) ∧ ∀ x, x ∈ l → f x ≠ k.
Proof using Type.
  unfold binary_search_by_key. destruct (find_idx _ l) as [j|] eqn:E; [done|]. intros [= <-].
  split; [done|]. induction l as [|x l IH]; intros y; [by intros ?%elem_of_nil|].
  simpl in E. destruct (f x =? k)%Z eqn:Ex; [done|]. apply Z.eqb_neq in Ex.
  intros [->|Hy]%elem_of_cons; [done|]. apply IH; [|done]. by destruct (find_idx _ l).
Qed.

Lemma sorted_cons x l :
  sorted_by (x :: l) ↔ sorted_by l ∧ ∀ y, y ∈ l → (f x < f y)%Z.
Proof using Type.
  unfold sorted_by. rewrite fmap_cons. split.
  - intros [Hs Hx]%StronglySorted_inv. split; [done|].
    rewrite Forall_fmap Forall_forall in Hx. exact Hx.
  - intros [Hs Hx]. constructor; [done|]. by rewrite Forall_fmap Forall_forall.
Qed.

Lemma sorted_NoDup l : sorted_by l → NoDup (f <$> l).
Proof using Type.
  induction l as [|x l IH]; [by constructor|]. intros [Hs Hx]%sorted_cons.
  rewrite fmap_cons. constructor; [|by apply IH].
  intros (y & Hy & Hin)%list_elem_of_fmap. specialize (Hx _ Hin). lia.
Qed.

(** The slice falls apart at the position of a missing key. *)
Lemma search_split l k i :
  sorted_by l → binary_search_by_key f k l = inr i →
  (∀ x, x ∈ take i l → (f x < k)%Z) ∧ (∀ x, x ∈ drop i l → (k < f x)%Z).
Proof using Type.
  intros Hs [-> Hne]%search_missing. induction l as [|x l IH]; [by split; intros x ?%elem_of_nil|].
  apply sorted_cons in Hs as [Hs Hx]. assert (f x ≠ k) as Hxk by (apply Hne; by left).
  destruct IH as [IH1 IH2]; [done|intros y Hy; apply Hne; by right|].
  rewrite filter_cons. case_decide as Hlt; simpl.
  - split; [|done]. intros y [->|Hy]%elem_of_cons; [done|by apply IH1].
  - assert (∀ y, y ∈ x :: l → (k < f y)%Z) as Hall.
    { intros y [->|Hy]%elem_of_cons; [lia|]. specialize (Hx _ Hy). lia. }
    rewrite filter_none; [|intros y Hy; specialize (Hall y ltac:(by right)); lia].
    simpl. split; [by intros y ?%elem_of_nil|done].
Qed.

Lemma sorted_app l1 l2 :
  sorted_by l1 → sorted_by l2 → (∀ x y, x ∈ l1 → y ∈ l2 → (f x < f y)%Z) →
  sorted_by (l1 ++ l2).
Proof using Type.
  intros H1 H2 H12. unfold sorted_by. rewrite fmap_app. apply StronglySorted_app_2; [|done..].
  intros x y (x' & -> & Hx)%list_elem_of_fmap (y' & -> & Hy)%list_elem_of_fmap. by apply H12.
Qed.

Lemma sorted_parts l i : sorted_by l → sorted_by (take i l) ∧ sorted_by (drop i l).
Proof using Type.
  unfold sorted_by. rewrite -{1}(take_drop i l) fmap_app. intros Hs.
  split; [by eapply StronglySorted_app_1_l|by eapply StronglySorted_app_1_r].
Qed.

Lemma sorted_set l i x y :
  sorted_by l → l !! i = Some x → f y = f x → sorted_by (<[i := y]> l).
Proof using Type.
  intros Hs Hi Hk. unfold sorted_by. rewrite list_fmap_insert list_insert_id; [done|].
  by rewrite list_lookup_fmap Hi Hk.
Qed.

Lemma sorted_extreme l x :
  sorted_by l → head l = Some x → ∀ y, y ∈ l → (f x ≤ f y)%Z.
Proof using Type.
  destruct l as [|z l]; [done|]. intros [_ Hz]%sorted_cons [= ->] y [->|Hy]%elem_of_cons; [done|].
  by apply Z.lt_le_incl, Hz.
Qed.

Lemma sorted_extreme_last l x :
  sorted_by l → last l = Some x → ∀ y, y ∈ l → (f y ≤ f x)%Z.
Proof using Type.
  intros Hs [l' ->]%last_Some y [Hy|Hy%list_elem_of_singleton]%elem_of_app; [|by subst].
  unfold sorted_by in Hs. rewrite fmap_app in Hs. apply Z.lt_le_incl.
  apply (StronglySorted_app_1_elem_of Z.lt _ _ _ _ Hs); [by apply list_elem_of_fmap_2|by left].
Qed.
End search.

(** ** The leaf stands for its table *)
Section rep.
Context {P S : Type} `{!VersionStore P S, !VersionStoreLaws P S}.
Context (Key_default : Z) (Payload_default : P) (NUM_RECORDS : nat).
Context (version_index_new : Z → P → Version → S).
Context (new_ok : ∀ k p v,
  (0 ≤ v < VERSION_BOUND)%Z → vs_ok k (version_index_new k p v) [(v, Some p)]).
Implicit Types (rs : list (VersionedRecordPoint S)) (m : Table P) (h : History P).
Implicit Types (k : Z) (p : P) (v w : Version).

Record leaf_rep rs m : Prop := {
  lr_sorted : sorted_by vr_key rs;
  lr_ok r : r ∈ rs → ∃ h, m !! vr_key r = Some h ∧ vs_ok (vr_key r) (version_index r) h;
  lr_dom k : is_Some (m !! k) → ∃ r, r ∈ rs ∧ vr_key r = k;
}.

(** Every event of the table is older than the version of the next write. *)
Definition before v m : Prop := ∀ k h, m !! k = Some h → (newest h < v < VERSION_BOUND)%Z.

Lemma rep_at rs m i r :
  leaf_rep rs m → rs !! i = Some r →
  ∃ h, m !! vr_key r = Some h ∧ vs_ok (vr_key r) (version_index r) h.
Proof using Type. intros Hrep Hi. apply (lr_ok _ _ Hrep). by eapply list_elem_of_lookup_2. Qed.

Lemma rep_found rs m k i :
  leaf_rep rs m → binary_search_by_key vr_key k rs = inl i →
  ∃ r h, rs !! i = Some r ∧ vr_key r = k ∧ m !! k = Some h ∧ vs_ok (vr_key r) (version_index r) h.
Proof using Type.
  intros Hrep (r & Hi & <-)%search_found. destruct (rep_at rs m i r Hrep Hi) as (h & ? & ?).
  by exists r, h.
Qed.

Lemma rep_missing rs m k i :
  leaf_rep rs m → binary_search_by_key vr_key k rs = inr i → m !! k = None.
Proof using Type.
  intros Hrep [_ Hne]%search_missing. destruct (m !! k) as [h|] eqn:E; [|done].
  destruct (lr_dom _ _ Hrep k) as (r & Hr & Hk); [by rewrite E|]. by destruct (Hne r).
Qed.

Lemma rep_set rs m i r index h :
  leaf_rep rs m → rs !! i = Some r → vs_ok (vr_key r) index h →
  leaf_rep (set_index i r index rs) (<[vr_key r := h]> m).
Proof using Type.
  intros Hrep Hi Hok. pose proof (lr_sorted _ _ Hrep) as Hs.
  pose proof (lookup_lt_Some _ _ _ Hi) as Hlt. unfold set_index. split.
  - by eapply sorted_set.
  - intros x [j Hj]%list_elem_of_lookup. destruct (decide (j = i)) as [->|Hji].
    + rewrite list_lookup_insert_eq // in Hj. simplify_eq. exists h. simpl.
      by rewrite lookup_insert_eq.
    + rewrite list_lookup_insert_ne // in Hj. destruct (rep_at rs m j x Hrep Hj) as (h' & Hm & Hx).
      exists h'. rewrite lookup_insert_ne; [done|]. intros Hk. apply Hji.
      pose proof (sorted_NoDup vr_key rs Hs) as Hnd.
      eapply (NoDup_lookup _ j i (vr_key x) Hnd); rewrite list_lookup_fmap ?Hj ?Hi /=; congruence.
  - intros k. rewrite lookup_insert_is_Some'. intros [<-|Hk].
    + eexists. split; [apply list_elem_of_lookup; exists i; by apply list_lookup_insert_eq|done].
    + destruct (lr_dom _ _ Hrep k Hk) as (x & [j Hj]%list_elem_of_lookup & <-).
      destruct (decide (j = i)) as [->|Hji].
      * eexists. split; [apply list_elem_of_lookup; exists i; by apply list_lookup_insert_eq|].
        simpl. by simplify_eq.
      * exists x. split; [|done]. apply list_elem_of_lookup. exists j.
        by rewrite list_lookup_insert_ne.
Qed.

Lemma rep_insert rs m k i index h :
  leaf_rep rs m → binary_search_by_key vr_key k rs = inr i → vs_ok k index h →
  leaf_rep (take i rs ++ mkVRecord k index :: drop i rs) (<[k := h]> m).
Proof using Type.
  intros Hrep Hsr Hok. pose proof (lr_sorted _ _ Hrep) as Hs.
  destruct (search_split vr_key rs k i Hs Hsr) as [H1 H2].
  pose proof (search_missing vr_key rs k i Hsr) as [_ Hne].
  assert (∀ x, x ∈ take i rs ++ mkVRecord k index :: drop i rs ↔
    x = mkVRecord k index ∨ x ∈ rs) as Hin.
  { intros x. rewrite -{3}(take_drop i rs) !elem_of_app elem_of_cons. tauto. }
  split.
  - destruct (sorted_parts vr_key rs i Hs) as [Hs1 Hs2]. apply sorted_app; [done| |].
    + apply sorted_cons. by split.
    + intros x y Hx [->|Hy]%elem_of_cons; [by apply H1|].
      specialize (H1 _ Hx). specialize (H2 _ Hy). lia.
  - intros x [->|Hx]%Hin; [exists h; by rewrite lookup_insert_eq|].
    destruct (lr_ok _ _ Hrep x Hx) as (h' & Hm & Hx'). exists h'.
    rewrite lookup_insert_ne; [done|]. intros Hk. by apply (Hne x).
  - intros k'. rewrite lookup_insert_is_Some'. intros [<-|Hk].
    + eexists. split; [apply Hin; by left|done].
    + destruct (lr_dom _ _ Hrep k' Hk) as (x & Hx & <-). exists x. split; [|done].
      apply Hin. by right.
Qed.
(** ** The operations *)
Context (olc toss : bool) (v : Version) (v_ok : (0 ≤ v < VERSION_BOUND)%Z).

Local Abbreviation dispatch_at_leaf :=
  (dispatch_at_leaf Key_default Payload_default NUM_RECORDS version_index_new olc toss v).
Local Abbreviation leaf_step := (leaf_step Key_default Payload_default olc v).

Definition simulated (op : CRUDOperation P) rs m : Prop :=
  ∃ res rs' m', dispatch_at_leaf op (Leaf rs) = Some (res, Leaf rs') ∧
    leaf_step m op res m' ∧ leaf_rep rs' m'.

Lemma insert_simulated rs m k p :
  leaf_rep rs m → before v m → length rs < NUM_RECORDS → simulated (Insert k p) rs m.
Proof using All.
  intros Hrep Hb Hroom. unfold simulated. simpl. unfold insert_at_leaf, push_record_point.
  destruct (binary_search_by_key vr_key k rs) as [i|i] eqn:E.
  - destruct (rep_found rs m k i Hrep E) as (r & h & Hi & <- & Hm & Hok).
    destruct (vs_push_ok toss _ _ h v p Hok (Hb _ _ Hm)) as (s' & Hs' & Hok').
    rewrite Hi /= Hs' /=. eexists _, _, _. split; [done|]. split; [constructor|].
    rewrite Hm. by apply rep_set.
  - pose proof (rep_missing rs m k i Hrep E) as Hm. unfold shadow_insert.
    rewrite decide_True //=. eexists _, _, _. split; [done|]. split; [constructor|].
    rewrite Hm. apply rep_insert; [done..|]. by apply new_ok.
Qed.

Lemma update_simulated rs m k p :
  leaf_rep rs m → before v m → simulated (Update k p) rs m.
Proof using All.
  intros Hrep Hb. unfold simulated. simpl. unfold update_at_leaf, update_record_point.
  destruct (binary_search_by_key vr_key k rs) as [i|i] eqn:E.
  - destruct (rep_found rs m k i Hrep E) as (r & h & Hi & <- & Hm & Hok).
    rewrite Hi /= (vs_live_ok _ _ _ Hok) /=. destruct (hist_live h) eqn:Hl.
    + destruct (vs_append_ok toss _ _ h v p Hok Hl (Hb _ _ Hm)) as (s' & Hs' & Hok').
      rewrite Hs' /=. eexists _, _, _. split; [done|]. split; [by constructor|]. by apply rep_set.
    + eexists _, _, _. split; [done|]. split; [|done]. constructor. unfold live_key. by rewrite Hm.
  - eexists _, _, _. split; [done|]. split; [|done]. constructor. unfold live_key.
    by rewrite (rep_missing rs m k i Hrep E).
Qed.

Lemma delete_simulated rs m k :
  leaf_rep rs m → before v m → simulated (Delete k) rs m.
Proof using All.
  intros Hrep Hb. unfold simulated. simpl. unfold delete_at_leaf, delete_key.
  destruct (binary_search_by_key vr_key k rs) as [i|i] eqn:E.
  - destruct (rep_found rs m k i Hrep E) as (r & h & Hi & <- & Hm & Hok).
    rewrite Hi /= (vs_live_ok _ _ _ Hok) /=. destruct (hist_live h) eqn:Hl.
    + destruct (vs_delete_ok toss _ _ h v Hok (Hb _ _ Hm)) as (s' & Hs' & Hok').
      rewrite Hs' /=. eexists _, _, _. split; [done|]. split; [by constructor|]. by apply rep_set.
    + eexists _, _, _. split; [done|]. split; [|done]. constructor. unfold live_key. by rewrite Hm.
  - eexists _, _, _. split; [done|]. split; [|done]. constructor. unfold live_key.
    by rewrite (rep_missing rs m k i Hrep E).
Qed.

Lemma point_simulated rs m k w :
  leaf_rep rs m → (w < U64_MAX)%Z → simulated (Point k w) rs m.
Proof using All.
  intros Hrep Hw. exists (MatchedRecord (point_answer Key_default Payload_default olc m k w)), rs, m.
  split; [|split; [constructor|done]]. simpl. unfold read_only, point_olc, point_locked, point_answer.
  simpl. destruct (binary_search_by_key vr_key k rs) as [i|i] eqn:E.
  - destruct (rep_found rs m k i Hrep E) as (r & h & Hi & <- & Hm & Hok).
    rewrite Hi /= Hm (vs_find_ok _ _ h w Hok Hw) /=. destruct olc, (hist_at h w) as [[]|]; done.
  - rewrite (rep_missing rs m k i Hrep E). by destruct olc.
Qed.

(** The ends of the leaf carry the extreme keys of the table. *)
Lemma rep_first rs m r :
  leaf_rep rs m → head rs = Some r →
  ∃ h, extreme Z.le m (vr_key r) h ∧ vs_ok (vr_key r) (version_index r) h.
Proof using Type.
  intros Hrep Hr. destruct (rep_at rs m 0 r Hrep) as (h & Hm & Hok); [by destruct rs|].
  exists h. split; [|done]. split; [done|]. intros k (x & Hx & <-)%(lr_dom _ _ Hrep).
  by eapply sorted_extreme; [apply (lr_sorted _ _ Hrep)|..].
Qed.

Lemma rep_last rs m r :
  leaf_rep rs m → last rs = Some r →
  ∃ h, extreme Z.ge m (vr_key r) h ∧ vs_ok (vr_key r) (version_index r) h.
Proof using Type.
  intros Hrep Hr. pose proof Hr as Hr'. rewrite last_lookup in Hr'.
  destruct (rep_at rs m _ r Hrep Hr') as (h & Hm & Hok).
  exists h. split; [|done]. split; [done|]. intros k (x & Hx & <-)%(lr_dom _ _ Hrep).
  apply Z.le_ge. by eapply sorted_extreme_last; [apply (lr_sorted _ _ Hrep)|..].
Qed.

Lemma rep_none m : leaf_rep [] m → m = ∅.
Proof using Type.
  intros Hrep. apply (map_eq (M := gmap Z)). intros k. rewrite lookup_empty. destruct (m !! k) eqn:E; [|done].
  destruct (lr_dom _ _ Hrep k) as (r & Hr & _); [by rewrite E|]. by apply elem_of_nil in Hr.
Qed.

Lemma peek_answer_ok r h :
  vs_ok (vr_key r) (version_index r) h →
  peek_record (P := P) (Some r) = Some (MatchedRecord (peek_answer (vr_key r) h)).
Proof using Type.
  intros Hok. simpl. rewrite (vs_live_ok _ _ _ Hok) /=. unfold peek_answer.
  destruct (hist_live h) eqn:Hl; [|done]. rewrite (vs_newest_ok _ _ _ Hok Hl).
  by destruct (hist_live_newest h Hl) as [p ->].
Qed.

Lemma pop_record_ok rs m i r h :
  leaf_rep rs m → before v m → rs !! i = Some r → m !! vr_key r = Some h →
  vs_ok (vr_key r) (version_index r) h →
  if hist_live h then
    ∃ rs', pop_record toss (Leaf rs) i v = Some (MatchedRecord (peek_answer (vr_key r) h), Leaf rs') ∧
      leaf_rep rs' (<[vr_key r := hist_kill v h]> m)
  else pop_record (P := P) toss (Leaf rs) i v = Some (Error, Leaf rs).
Proof using Type.
  intros Hrep Hb Hi Hm Hok. unfold pop_record. rewrite /= Hi /= (vs_live_ok _ _ _ Hok) /=.
  unfold peek_answer. destruct (hist_live h) eqn:Hl; [|done].
  rewrite (vs_newest_ok _ _ _ Hok Hl). destruct (hist_live_newest h Hl) as [p ->]. simpl.
  destruct (vs_delete_ok toss _ _ h v Hok (Hb _ _ Hm)) as (s' & -> & Hok'). simpl.
  eexists. split; [done|]. by apply rep_set.
Qed.

Lemma peek_simulated rs m op :
  leaf_rep rs m → op = PeekMin ∨ op = PeekMax → simulated op rs m.
Proof using All.
  intros Hrep Hop. unfold simulated. destruct rs as [|r rs].
  - eexists (MatchedRecord None), [], m. split; [by destruct Hop as [-> | ->]|].
    split; [|done]. constructor; [by apply rep_none|done].
  - destruct Hop as [-> | ->].
    + destruct (rep_first _ _ r Hrep) as (h & He & Hok); [done|]. eexists _, _, _.
      split; [|split; [by eapply LS_peek_min|done]].
      cbn [dispatch_at_leaf]. unfold read_only, peek_min. cbn [as_records mbind option_bind head].
      by rewrite (peek_answer_ok r h Hok).
    + destruct (last (r :: rs)) as [x|] eqn:Hx; [|by apply last_None in Hx].
      destruct (rep_last _ _ x Hrep Hx) as (h & He & Hok). eexists _, _, _.
      split; [|split; [by eapply LS_peek_max|done]].
      cbn [dispatch_at_leaf]. unfold read_only, peek_max. cbn [as_records mbind option_bind].
      by rewrite Hx (peek_answer_ok x h Hok).
Qed.

Lemma pop_simulated rs m op :
  leaf_rep rs m → before v m → op = PopMin ∨ op = PopMax → simulated op rs m.
Proof using All.
  intros Hrep Hb Hop. unfold simulated. destruct rs as [|r rs].
  - eexists Error, [], m. split; [by destruct Hop as [-> | ->]|].
    split; [|done]. apply LS_pop_none; [by apply rep_none|done].
  - destruct Hop as [-> | ->].
    + destruct (rep_first _ _ r Hrep) as (h & He & Hok); [done|].
      pose proof (pop_record_ok _ _ 0 r h Hrep Hb eq_refl (proj1 He) Hok) as Hpop.
      destruct (hist_live h) eqn:Hl; [destruct Hpop as (rs' & Hpop & Hrep')|];
        (eexists _, _, _; split; [exact Hpop|]; split; [|done]).
      * by apply LS_pop_min.
      * by eapply (LS_pop_dead _ _ _ _ _ Z.le); [left|..].
    + destruct (last (r :: rs)) as [x|] eqn:Hx; [|by apply last_None in Hx].
      destruct (rep_last _ _ x Hrep Hx) as (h & He & Hok). rewrite last_lookup in Hx.
      pose proof (pop_record_ok _ _ _ x h Hrep Hb Hx (proj1 He) Hok) as Hpop.
      assert (pop_max (P := P) toss (Leaf (r :: rs)) v =
        pop_record toss (Leaf (r :: rs)) (pred (length (r :: rs))) v) as Heq
        by (unfold pop_max; simpl; by rewrite Nat.sub_0_r).
      cbn [dispatch_at_leaf]. rewrite Heq.
      destruct (hist_live h) eqn:Hl; [destruct Hpop as (rs' & Hpop & Hrep')|];
        (eexists _, _, _; split; [exact Hpop|]; split; [|done]).
      * by apply LS_pop_max.
      * by eapply (LS_pop_dead _ _ _ _ _ Z.ge); [right|..].
Qed.
End rep.
