(* ===== verification/BaselineTheorems.v ===== *)
(** * What the baseline trees keep for a key

    The claims on the version indexes and the leaves of [src/src/dexa/]: an
    index of any kind but the B+ tree answers as the history of its record, a
    leaf answers as the table of its histories; and where the code departs from
    what it means to do. *)
From S2P Require Import Prelude OrdMap Version Tower Interval InternalPage Clock RootIndex.
From S2P Require Import VersionHistory VersionLists VersionIndex VersionedLeaf.
#[local] Set Default Proof Using "Type*".

Section baseline.
Context {M : ∀ K, KeyOrder K → Type → Type} `{!OrdMap M, !OrdMapLaws M}.
Context {T : Type → Type} `{!BPlusTree T, !BPlusTreeRecords T}.
Context {P : Type}.
Local Abbreviation VersionIndex := (VersionIndex M T P).

(** C35: a version index refines the history of its record. Created as a vanilla
    list, a frugal list, a list of the weaver or a skip map, and taken through
    any operations at rising versions (updates of a live record, re-insertions,
    deletions, clones), it never reaches a null pointer or an [unreachable!]
    whatever the coins, and finds at every version below [u64::MAX] what the
    history holds there; it is live when the history is. *)
Theorem version_index_refines key kind p v (ops : list (Version * VersionOp P * list bool)) :
  kind ≠ KBTree → (0 ≤ v < VERSION_BOUND)%Z → ops_ok [(v, Some p)] ops →
  ∃ self : VersionIndex, index_run (index_new key kind p v) ops = Some self ∧
    (∀ w, (w < U64_MAX)%Z → index_find self w = Some (hist_at (hist_run [(v, Some p)] ops) w)) ∧
    index_is_live self = Some (hist_live (hist_run [(v, Some p)] ops)).
Proof.
  intros Hk Hv Hops.
  destruct (index_run_ok key (index_new key kind p v : VersionIndex) [(v, Some p)] ops)
    as (s & Hs & Hok); [by apply version_index_new_ok|done|].
  exists s. split; [done|]. split; [|by apply index_live_ok].
  intros w Hw. by apply index_find_ok.
Qed.

Context (Key_default : Z) (Payload_default : P) (NUM_RECORDS : nat).
Context (kind : VersionIndexType) (kind_ok : kind ≠ KBTree).

Local Abbreviation make := (λ k p v, index_new (M := M) (T := T) (P := P) k kind p v).

(** A leaf refines the table of the histories of its keys. With room for one
    more record, every operation but the unimplemented random ones succeeds at
    a version newer than all events, with the result and the table of the
    specification: an insert also revives and overwrites, an update or a delete
    needs a live key, a read answers from the history of its key, [PeekMin] and
    [PopMin] (and [PeekMax] and [PopMax]) look at the least (greatest) key that
    has a record at all. *)
Theorem versioned_leaf_refines olc toss v op (records : list (VersionedRecordPoint VersionIndex))
    (m : Table P) :
  leaf_rep records m → before v m → (0 ≤ v < VERSION_BOUND)%Z →
  length records < NUM_RECORDS →
  match op with
  | Point _ w => (w < U64_MAX)%Z
  | UpdateRand | DeleteRand | InsertRand => False
  | PointSi _ | Range _ _ | RangeSi _ => False
  | _ => True
  end →
  ∃ res records' m',
    dispatch_at_leaf Key_default Payload_default NUM_RECORDS make olc toss v op (Leaf records) =
      Some (res, Leaf records') ∧
    leaf_step Key_default Payload_default olc v m op res m' ∧ leaf_rep records' m'.
Proof using All.
  intros Hrep Hb Hv Hroom Hop.
  assert (∀ k (p : P) w, (0 ≤ w < VERSION_BOUND)%Z → vs_ok k (make k p w) [(w, Some p)]) as Hnew
    by (intros; by apply version_index_new_ok).
  destruct op; try done.
  - exists Error, records, m. split; [done|]. split; [apply LS_empty|done].
  - by apply insert_simulated.
  - by apply update_simulated.
  - by apply delete_simulated.
  - by apply point_simulated.
  - apply peek_simulated; [done..|by left].
  - apply peek_simulated; [done..|by right].
  - apply pop_simulated; [done..|by left].
  - apply pop_simulated; [done..|by right].
Qed.

(** A read under latches invents a record. Where the history of a key has
    nothing to show at a version, because it was deleted or is newer, the
    optimistic read answers that there is no record, the read under latches
    answers with the default key and the default payload. *)
Theorem locked_point_default (records : list (VersionedRecordPoint VersionIndex)) (m : Table P)
    key version h :
  leaf_rep records m → m !! key = Some h → (version < U64_MAX)%Z → hist_at h version = None →
  point_olc (Leaf records) key version = Some (MatchedRecord (None : option (Z * P))) ∧
  point_locked Key_default Payload_default (Leaf records) key version =
    Some (MatchedRecord (Some (Key_default, Payload_default))).
Proof.
  intros Hrep Hm Hv Hnone. unfold point_olc, point_locked. simpl.
  destruct (binary_search_by_key vr_key key records) as [i|i] eqn:E.
  - destruct (rep_found records m key i Hrep E) as (r & h' & Hi & <- & Hm' & Hok).
    simplify_eq. rewrite Hi /=. pose proof (index_find_ok _ _ _ Hok Hv) as Hf.
    rewrite Hnone in Hf. by rewrite Hf.
  - by rewrite (rep_missing records m key i Hrep E) in Hm.
Qed.

Context `{!BPlusTreeLaws T, !BPlusTreeRecordsLaws T}.

(** A record that is created as a B+ tree loses its first payload: it is dead
    and empty, and the next insert of its key finds no newest entry. *)
Lemma btree_record_lost key p v :
  let self := (index_new key KBTree p v : VersionIndex) in
  index_is_live self = Some false ∧ (∀ w, index_find self w = Some None) ∧
  ∀ toss w q, index_push toss self w q = None.
Proof.
  assert (bt_peek_max (new_btree : T (RecordInfo P)) = None) as Hp
    by (unfold new_btree; by rewrite bt_peek_max_last bt_records_new).
  split_and!.
  - simpl. unfold DexaBTreeImpl in *. by rewrite Hp.
  - intros w. simpl. unfold new_btree, DexaBTreeImpl. by rewrite bt_point_records bt_records_new.
  - intros toss w q. simpl. unfold tree_push, DexaBTreeImpl. by rewrite Hp.
Qed.
End baseline.

(** The iterator of the weaver's list stops at a deletion, it does not skip it. *)
Lemma weaver_iter_stops {P} (n : VWeaverNodeSt P) :
  Weaver.node_live n = false → Weaver.len n = 0.
Proof. by destruct n as [? ? ? []]. Qed.

(** ** Examples *)
Definition ex_index : Type := VersionIndex AssocMap SortedTree Z.

(** Key 3 was written at version 2 and deleted at 6, key 5 lives since 1. *)
Definition ex_leaf : list (VersionedRecordPoint ex_index) :=
  [mkVRecord 3%Z (VANILLA [mkEntry 30%Z 2%Z 6%Z]);
   mkVRecord 5%Z (VANILLA [mkEntry 50%Z 1%Z U64_MAX])].
Definition ex_table : Table Z :=
  {[ 3%Z := [(6%Z, None); (2%Z, Some 30%Z)]; 5%Z := [(1%Z, Some 50%Z)] ]}.

Lemma ex_dead_ok : vanilla_ok [mkEntry 30%Z 2%Z 6%Z] [(6%Z, None); (2%Z, Some 30%Z)].
Proof.
  destruct (vanilla_delete_ok (Vanilla.new 30%Z 2%Z None) [(2%Z, Some 30%Z)] 6%Z)
    as (es & Hes & Hok); [by apply vanilla_new_ok|done|].
  by injection Hes as <-.
Qed.

Lemma ex_leaf_rep : leaf_rep ex_leaf ex_table.
Proof.
  split.
  - repeat constructor.
  - intros r [->|[->|[]%elem_of_nil]%elem_of_cons]%elem_of_cons; eexists; (split; [done|]).
    + exact ex_dead_ok.
    + by apply (vanilla_new_ok 50%Z 1%Z).
  - intros k [h Hk]. unfold ex_table in Hk.
    rewrite lookup_insert_Some lookup_singleton_Some in Hk.
    destruct Hk as [[<- _]|[_ [<- _]]].
    + eexists. split; [by left|done].
    + eexists. split; [by right; left|done].
Qed.

Lemma ex_before : before 9%Z ex_table.
Proof.
  intros k h Hk. unfold ex_table in Hk. rewrite lookup_insert_Some lookup_singleton_Some in Hk.
  by destruct Hk as [[_ <-]|[_ [_ <-]]].
Qed.

(** [PeekMin] sees only the first record: with the least key deleted it reports
    an empty tree although a live key follows. *)
Lemma peek_min_hides_live :
  peek_min (P := Z) (Leaf ex_leaf) = Some (MatchedRecord None) ∧
  peek_max (P := Z) (Leaf ex_leaf) = Some (MatchedRecord (Some (5%Z, 50%Z))).
Proof. split; vm_compute; reflexivity. Qed.

Definition ex_ops : list (Version * VersionOp Z * list bool) :=
  [(2%Z, VAppend 20%Z, [true]); (4%Z, VAppend 40%Z, [false]); (5%Z, VAppend 50%Z, [true]);
   (7%Z, VDelete, [true]); (9%Z, VPush 90%Z, [true]); (10%Z, VClone, [true; true; false; true])].

Lemma version_index_refines_witness :
  ∃ self : ex_index, index_run (index_new 3%Z KFrugalSkipList 10%Z 1%Z) ex_ops = Some self ∧
    (∀ w, (w < U64_MAX)%Z → index_find self w = Some (hist_at (hist_run [(1%Z, Some 10%Z)] ex_ops) w)) ∧
    index_is_live self = Some (hist_live (hist_run [(1%Z, Some 10%Z)] ex_ops)).
Proof.
  apply (version_index_refines (M := AssocMap) (T := SortedTree) 3%Z KFrugalSkipList 10%Z 1%Z ex_ops).
  - discriminate.
  - vm_compute. split; [discriminate|reflexivity].
  - vm_compute. repeat split.
Defined.

Lemma versioned_leaf_refines_witness :
  ∃ res records' m',
    dispatch_at_leaf 0%Z 0%Z 170 (λ k p v, index_new (M := AssocMap) (T := SortedTree) (P := Z) k KVANILLA p v)
      true false 9%Z PopMax (Leaf ex_leaf) = Some (res, Leaf records') ∧
    leaf_step 0%Z 0%Z true 9%Z ex_table PopMax res m' ∧ leaf_rep records' m'.
Proof.
  apply (versioned_leaf_refines 0%Z 0%Z 170 KVANILLA ltac:(discriminate) true false 9%Z PopMax
    ex_leaf ex_table).
  - exact ex_leaf_rep.
  - exact ex_before.
  - vm_compute. split; [discriminate|reflexivity].
  - simpl. lia.
  - exact I.
Defined.

Lemma locked_point_default_witness :
  point_olc (Leaf ex_leaf) 3%Z 7%Z = Some (MatchedRecord (None : option (Z * Z))) ∧
  point_locked 0%Z 0%Z (Leaf ex_leaf) 3%Z 7%Z = Some (MatchedRecord (Some (0%Z, 0%Z))).
Proof.
  apply (locked_point_default 0%Z 0%Z ex_leaf ex_table 3%Z 7%Z [(6%Z, None); (2%Z, Some 30%Z)]).
  - exact ex_leaf_rep.
  - reflexivity.
  - reflexivity.
  - reflexivity.
Defined.
