(* ===== verification/Latch.v ===== *)
(** * Optimistic latches

    [src/src/mv_sync/smart_cell.rs]: a cell with a version word. A reader copies
    the version and validates it later; a writer is a reader whose
    compare-exchange sets the write flag; dropping it clears the flag and moves
    the version on. The protocol is a step relation of any number of threads. *)
From S2P Require Import Prelude Clock.
Local Open Scope Z_scope.

Definition LatchVersion := Z.
Definition OBSOLETE_FLAG_VERSION : LatchVersion := 0x8000000000000000.
Definition WRITE_FLAG_VERSION : LatchVersion := 0x4000000000000000.
Definition WRITE_OBSOLETE_FLAG_VERSION : LatchVersion := 0xC000000000000000.
Definition CELL_START_VERSION : LatchVersion := 0.

Definition without_flags (v : LatchVersion) : LatchVersion :=
  Z.land v (u64_not WRITE_OBSOLETE_FLAG_VERSION).

Record OptCell (E : Type) := mkCell { cell : E; cell_version : LatchVersion }.
Arguments mkCell {_} _ _.
Arguments cell {_} _.
Arguments cell_version {_} _.

Inductive SmartGuard := Reader (v : LatchVersion) | Writer (v : LatchVersion).

Section operations.
Context {E : Type}.
Implicit Types (c : OptCell E).

Definition cell_new (data : E) : OptCell E := mkCell data CELL_START_VERSION.

Definition write_lock c (read_version : LatchVersion) : option LatchVersion * OptCell E :=
  if cell_version c =? read_version
  then (Some (Z.lor WRITE_FLAG_VERSION read_version),
        mkCell (cell c) (Z.lor WRITE_FLAG_VERSION read_version))
  else (None, c).

Definition borrow_read c : SmartGuard := Reader (without_flags (cell_version c)).

Definition is_still_live c (g : SmartGuard) : bool :=
  match g with Reader stat => stat =? cell_version c | Writer _ => true end.

Definition upgrade_write_lock c (g : SmartGuard) : bool * SmartGuard * OptCell E :=
  match g with
  | Reader read_latch =>
      match write_lock c (without_flags read_latch) with
      | (Some write_latch, c) => (true, Writer write_latch, c)
      | (None, c) => (false, g, c)
      end
  | Writer _ => (true, g, c)
  end.

Definition deref_mut_write c (data : E) : OptCell E := mkCell data (cell_version c).

Definition drop_guard c (g : SmartGuard) : OptCell E :=
  match g with
  | Writer write_version =>
      mkCell (cell c) (Z.lxor (u64_wrap (write_version + 1)) WRITE_FLAG_VERSION)
  | Reader _ => c
  end.
End operations.

(** ** The word: a count below 2^62, with or without the write flag *)
Definition count_ok (n : Z) : Prop := 0 ≤ n < 2 ^ 62.

Lemma testbit_count_high n i : count_ok n → 62 ≤ i → Z.testbit n i = false.
Proof.
  intros Hn Hi. rewrite -(Z.mod_small n (2 ^ 62)); [|exact Hn].
  apply Z.mod_pow2_bits_high. lia.
Qed.

Lemma WRITE_FLAG_pow : WRITE_FLAG_VERSION = 2 ^ 62.
Proof. reflexivity. Qed.

Lemma lor_write n : count_ok n → Z.lor WRITE_FLAG_VERSION n = n + 2 ^ 62.
Proof.
  intros Hn. rewrite WRITE_FLAG_pow Z.lor_comm.
  assert (Z.land n (2 ^ 62) = 0) as H.
  { apply Z.bits_inj'. intros i Hi. rewrite Z.land_spec Z.bits_0 Z.pow2_bits_eqb; [|lia].
    destruct (decide (i = 62)) as [->|]; [by rewrite testbit_count_high|].
    rewrite (proj2 (Z.eqb_neq 62 i)); [apply andb_false_r|lia]. }
  by rewrite -Z.lxor_lor // -Z.add_nocarry_lxor.
Qed.

Lemma without_flags_mod v : without_flags v = v `mod` 2 ^ 62.
Proof.
  unfold without_flags. change (u64_not WRITE_OBSOLETE_FLAG_VERSION) with (Z.ones 62).
  apply Z.land_ones. lia.
Qed.

Lemma without_flags_count n : count_ok n → without_flags n = n.
Proof. intros Hn. by rewrite without_flags_mod Z.mod_small. Qed.

Lemma without_flags_write n : count_ok n → without_flags (n + 2 ^ 62) = n.
Proof.
  intros Hn. rewrite without_flags_mod. rewrite -{1}(Z.mul_1_l (2 ^ 62)) Z.mod_add; [|lia].
  by apply Z.mod_small.
Qed.

Lemma xor_unlock n :
  count_ok (n + 1) → 0 ≤ n →
  Z.lxor (u64_wrap (n + 2 ^ 62 + 1)) WRITE_FLAG_VERSION = n + 1.
Proof.
  intros Hn H0. unfold u64_wrap. rewrite Z.mod_small; [|unfold count_ok in *; lia].
  replace (n + 2 ^ 62 + 1) with ((n + 1) + 2 ^ 62) by lia. rewrite -lor_write //.
  rewrite Z.lor_comm. apply Z.bits_inj'. intros i Hi. rewrite Z.lxor_spec Z.lor_spec.
  rewrite WRITE_FLAG_pow Z.pow2_bits_eqb; [|lia].
  destruct (decide (i = 62)) as [->|Hne]; [by rewrite testbit_count_high|].
  rewrite (proj2 (Z.eqb_neq 62 i)); [|lia]. by rewrite orb_false_r xorb_false_r.
Qed.

(** ** The protocol *)
Section protocol.
Context {E : Type}.

(** [seen] is what the cell held when the guard was borrowed. *)
Record Latched := mkLatched {
  lcell : OptCell E;
  guards : gmap Tid SmartGuard;
  seen : gmap Tid E;
}.

Inductive latch_step : Latched → Latched → Prop :=
  | latch_borrow s t :
      guards s !! t = None →
      latch_step s (mkLatched (lcell s) (<[t := borrow_read (lcell s)]> (guards s))
        (<[t := cell (lcell s)]> (seen s)))
  | latch_upgrade s t g ok g' c :
      guards s !! t = Some g → upgrade_write_lock (lcell s) g = (ok, g', c) →
      latch_step s (mkLatched c (<[t := g']> (guards s)) (seen s))
  | latch_write s t v d :
      guards s !! t = Some (Writer v) →
      latch_step s (mkLatched (deref_mut_write (lcell s) d) (guards s) (seen s))
  | latch_drop s t g :
      guards s !! t = Some g →
      latch_step s (mkLatched (drop_guard (lcell s) g) (delete t (guards s)) (seen s)).

Definition latch_init (d : E) : Latched := mkLatched (cell_new d) ∅ ∅.

(** The count, and whether a writer holds the latch. *)
Record latch_inv (n : Z) (s : Latched) : Prop := {
  li_count : count_ok n;
  li_word : cell_version (lcell s) = n ∨ cell_version (lcell s) = n + 2 ^ 62;
  li_free t v : cell_version (lcell s) = n → guards s !! t ≠ Some (Writer v);
  li_writer t v : guards s !! t = Some (Writer v) → v = n + 2 ^ 62;
  li_held : cell_version (lcell s) ≠ n → ∃ t v, guards s !! t = Some (Writer v);
  li_unique t u v w : guards s !! t = Some (Writer v) → guards s !! u = Some (Writer w) → t = u;
  li_reader t v : guards s !! t = Some (Reader v) → count_ok v ∧ v ≤ n;
  li_seen t v : guards s !! t = Some (Reader v) → cell_version (lcell s) = v →
    seen s !! t = Some (cell (lcell s));
}.

Lemma latch_inv_init d : latch_inv 0 (latch_init d).
Proof.
  split; try (by intros; simplify_map_eq).
  - by left.
Qed.

Lemma upgrade_cases n s t g ok g' c :
  latch_inv n s → guards s !! t = Some g → upgrade_write_lock (lcell s) g = (ok, g', c) →
  (ok = false ∧ g' = g ∧ c = lcell s) ∨ (ok = true ∧ g' = g ∧ c = lcell s ∧ ∃ v, g = Writer v) ∨
  (ok = true ∧ g = Reader n ∧ cell_version (lcell s) = n ∧ g' = Writer (n + 2 ^ 62) ∧
    c = mkCell (cell (lcell s)) (n + 2 ^ 62)).
Proof.
  intros I Hg Hu. destruct g as [v|v]; simpl in Hu; [|simplify_eq; right; left; eauto].
  destruct (li_reader _ _ I _ _ Hg) as [Hv Hle]. rewrite without_flags_count // in Hu.
  unfold write_lock in Hu. destruct (cell_version (lcell s) =? v) eqn:Heq; simplify_eq; [|by left].
  apply Z.eqb_eq in Heq. right; right.
  assert (v = n) as ->.
  { pose proof (li_count _ _ I) as Hn. unfold count_ok in *.
    destruct (li_word _ _ I) as [Hw|Hw]; lia. }
  by rewrite lor_write.
Qed.

Lemma latch_inv_step n s s' :
  latch_inv n s → n + 1 < 2 ^ 62 → latch_step s s' →
  latch_inv n s' ∨ latch_inv (n + 1) s'.
Proof.
  intros I Hn Hs. pose proof (li_count _ _ I) as Hc.
  destruct Hs as [s t Ht|s t g ok g' c Hg Hu|s t v d Hg|s t g Hg].
  - left. split; simpl; try apply I.
    + intros u v Hw. rewrite lookup_insert. case_decide; [done|]. by apply I.
    + intros u v. rewrite lookup_insert. case_decide; [done|]. by apply I.
    + intros (u & v & Hu)%(li_held _ _ I). exists u, v. rewrite lookup_insert_ne //. congruence.
    + intros u w v v'. rewrite !lookup_insert. repeat case_decide; try done. by apply I.
    + intros u v. rewrite lookup_insert. case_decide; [|by apply I]. intros [= <-].
      destruct (li_word _ _ I) as [-> | ->];
        [rewrite without_flags_count //|rewrite without_flags_write //].
    + intros u v. rewrite !lookup_insert. case_decide; [done|]. by apply I.
  - destruct (upgrade_cases _ _ _ _ _ _ _ I Hg Hu)
      as [(_ & -> & ->)|[(_ & -> & -> & _)|(_ & -> & Hw & -> & ->)]].
    + left. rewrite insert_id //. by destruct s.
    + left. rewrite insert_id //. by destruct s.
    + left. split; simpl; try done.
      * by right.
      * intros u v. lia.
      * intros u v. rewrite lookup_insert. case_decide; [congruence|]. by apply I.
      * intros _. exists t. eexists. apply lookup_insert_eq.
      * intros u w v v'. rewrite !lookup_insert.
        repeat case_decide; intros; simplify_eq; try done; exfalso; by eapply (li_free _ _ I).
      * intros u v. rewrite lookup_insert. case_decide; [done|]. by apply I.
      * intros u v. rewrite lookup_insert. case_decide; [done|]. intros Hr Heq.
        apply (li_reader _ _ I) in Hr. unfold count_ok in *. lia.
  - left. pose proof (li_writer _ _ I _ _ Hg) as Hv. split; simpl; try apply I.
    intros u w Hr Heq. apply (li_reader _ _ I) in Hr as [Hw Hle].
    destruct (li_word _ _ I) as [Hword|Hword]; [|unfold count_ok in *; lia].
    exfalso. by eapply (li_free _ _ I).
  - destruct g as [v|v]; simpl.
    + left. split; simpl; try apply I.
      * intros u w Hword Hd. apply lookup_delete_Some in Hd as [_ Hd]. by eapply (li_free _ _ I).
      * intros u w [_ Hd]%lookup_delete_Some. by eapply (li_writer _ _ I).
      * intros (u & w & Hu)%(li_held _ _ I). exists u, w. rewrite lookup_delete_ne //. congruence.
      * intros u w x y [_ H1]%lookup_delete_Some [_ H2]%lookup_delete_Some.
        by eapply (li_unique _ _ I).
      * intros u w [_ Hd]%lookup_delete_Some. by eapply (li_reader _ _ I).
      * intros u w [_ Hd]%lookup_delete_Some. by eapply (li_seen _ _ I).
    + right. pose proof (li_writer _ _ I _ _ Hg) as ->.
      rewrite xor_unlock; [|unfold count_ok in *; lia..].
      assert (∀ u w, delete t (guards s) !! u ≠ Some (Writer w)) as Hno.
      { intros u w [Hne Hd]%lookup_delete_Some. by pose proof (li_unique _ _ I _ _ _ _ Hg Hd). }
      split; simpl; try done.
      * unfold count_ok in *. lia.
      * by left.
      * intros u w Hd. by apply Hno in Hd.
      * intros u w x y Hd. by apply Hno in Hd.
      * intros u w [_ Hd]%lookup_delete_Some. apply (li_reader _ _ I) in Hd as [??].
        split; [done|lia].
      * intros u w [_ Hd]%lookup_delete_Some Heq. apply (li_reader _ _ I) in Hd as [??]. lia.
Qed.

(** Runs on which the count of writes stays below 2^62. *)
Definition below_wrap (s : Latched) : Prop := without_flags (cell_version (lcell s)) + 1 < 2 ^ 62.
Definition latch_bstep (s s' : Latched) : Prop := latch_step s s' ∧ below_wrap s'.

Lemma below_wrap_count n s : latch_inv n s → below_wrap s → n + 1 < 2 ^ 62.
Proof.
  intros I. unfold below_wrap. pose proof (li_count _ _ I).
  destruct (li_word _ _ I) as [-> | ->]; [rewrite without_flags_count //|rewrite without_flags_write //].
Qed.

Lemma latch_inv_rtc d s : rtc latch_bstep (latch_init d) s → ∃ n, latch_inv n s ∧ n + 1 < 2 ^ 62.
Proof.
  revert s. refine (rtc_ind_r (λ s, ∃ n, latch_inv n s ∧ n + 1 < 2 ^ 62) _ _ _).
  - exists 0. split; [apply latch_inv_init|lia].
  - intros s s' _ [Hs Hb] (n & I & Hn).
    destruct (latch_inv_step n s s' I Hn Hs) as [I'|I']; eexists; (split; [exact I'|]);
      by eapply below_wrap_count.
Qed.

Lemma flag_word n s :
  latch_inv n s → Z.testbit (cell_version (lcell s)) 62 = true ↔ cell_version (lcell s) ≠ n.
Proof.
  intros I. pose proof (li_count _ _ I) as Hc. destruct (li_word _ _ I) as [-> | ->].
  - rewrite testbit_count_high //; lia.
  - split; [lia|]. intros _. by rewrite -lor_write // Z.lor_spec WRITE_FLAG_pow Z.pow2_bits_eqb.
Qed.

(** C32: a latch has at most one writer, and the version of the cell carries the
    write flag exactly while there is one: it is the version the writer holds. *)
Theorem latch_mutual_exclusion (d : E) (s : Latched) :
  rtc latch_bstep (latch_init d) s →
  (∀ t u v w, guards s !! t = Some (Writer v) → guards s !! u = Some (Writer w) →
    t = u ∧ cell_version (lcell s) = v) ∧
  (Z.testbit (cell_version (lcell s)) 62 = true ↔ ∃ t v, guards s !! t = Some (Writer v)).
Proof.
  intros (n & I & Hn)%latch_inv_rtc. split.
  - intros t u v w Ht Hu. split; [by eapply (li_unique _ _ I)|]. rewrite (li_writer _ _ I _ _ Ht).
    by destruct (li_word _ _ I) as [Hw|Hw]; [destruct (li_free _ _ I t v Hw)|].
  - rewrite (flag_word n) //. split; [apply (li_held _ _ I)|]. intros (t & v & Ht) Hw.
    by apply (li_free _ _ I t v Hw).
Qed.

(** C31: optimistic validation is sound. When a reader finds its guard still live,
    or upgrades it to a writer, the cell holds what it held when the reader
    borrowed it, and no writer holds the latch at that moment. *)
Theorem latch_validation (d : E) (s : Latched) (t : Tid) (v : LatchVersion) :
  rtc latch_bstep (latch_init d) s → guards s !! t = Some (Reader v) →
  is_still_live (lcell s) (Reader v) = true ∨ (upgrade_write_lock (lcell s) (Reader v)).1.1 = true →
  seen s !! t = Some (cell (lcell s)) ∧ ∀ u w, guards s !! u ≠ Some (Writer w).
Proof.
  intros (n & I & Hn)%latch_inv_rtc Hg Hlive.
  destruct (li_reader _ _ I _ _ Hg) as [Hv Hle]. pose proof (li_count _ _ I) as Hc.
  assert (cell_version (lcell s) = v) as Hw.
  { destruct Hlive as [H|H]; [simpl in H; lia|].
    destruct (upgrade_write_lock (lcell s) (Reader v)) as [[ok g'] c] eqn:Hu. simpl in H. subst ok.
    destruct (upgrade_cases _ _ _ _ _ _ _ I Hg Hu)
      as [(? & _)|[(_ & _ & _ & ? & ?)|(_ & ? & ? & _)]]; congruence. }
  split; [by apply (li_seen _ _ I _ _ Hg)|]. intros u w. apply (li_free _ _ I).
  destruct (li_word _ _ I) as [Hn'|Hn']; unfold count_ok in *; lia.
Qed.
End protocol.

(** ** Examples: one reader, and the reader upgraded *)
Definition one_reader : Latched (E := Z) :=
  mkLatched (cell_new 7) {[ 0%nat := Reader 0 ]} {[ 0%nat := 7 ]}.
Definition one_writer : Latched (E := Z) :=
  mkLatched (mkCell 7 (2 ^ 62)) {[ 0%nat := Writer (2 ^ 62) ]} {[ 0%nat := 7 ]}.

Lemma one_reader_reachable : rtc latch_bstep (latch_init 7) one_reader.
Proof.
  apply rtc_once. split; [|by vm_compute].
  by apply (latch_borrow (latch_init 7) 0%nat).
Qed.

Lemma one_writer_reachable : rtc latch_bstep (latch_init 7) one_writer.
Proof.
  eapply rtc_r; [apply one_reader_reachable|]. split; [|by vm_compute].
  by apply (latch_upgrade one_reader 0%nat (Reader 0) true (Writer (2 ^ 62)) (mkCell 7 (2 ^ 62))).
Qed.

Lemma latch_mutual_exclusion_witness :
  (∀ t u v w, guards one_writer !! t = Some (Writer v) → guards one_writer !! u = Some (Writer w) →
    t = u ∧ cell_version (lcell one_writer) = v) ∧
  (Z.testbit (cell_version (lcell one_writer)) 62 = true ↔ ∃ t v, guards one_writer !! t = Some (Writer v)).
Proof. exact (latch_mutual_exclusion 7 one_writer one_writer_reachable). Defined.

Lemma latch_validation_witness :
  seen one_reader !! 0%nat = Some 7 ∧ ∀ u w, guards one_reader !! u ≠ Some (Writer w).
Proof.
  exact (latch_validation 7 one_reader 0%nat 0 one_reader_reachable eq_refl (or_introl eq_refl)).
Defined.
