(* ===== verification/RetryStats.v ===== *)
(** * Retry histogram

    [src/src/mv_utils/retry_stats.rs]: the failed attempts of write traversals,
    counted per thread in five groups and flushed into global counters. *)
From S2P Require Import Prelude.
Local Open Scope Z_scope.

Definition GROUPS : nat := 5.

(** One counter per group. *)
Abbreviation Counters := (list Z).
Definition counters_zero : Counters := replicate GROUPS 0.

Definition group (retries : nat) : nat :=
  if decide (retries = 0)%nat then 0%nat
  else if decide (retries <= 5)%nat then 1%nat
  else if decide (retries <= 9)%nat then 2%nat
  else if decide (retries <= 19)%nat then 3%nat
  else 4%nat.

Definition record (local : Counters) (retries : nat) : Counters :=
  alter (λ c, c + 1) (group retries) local.

(** [global.fetch_add(local.take())] for every group. *)
Definition flush (global local : Counters) : Counters * Counters :=
  (zip_with (λ g l, u64_wrap (g + l)) global local, counters_zero).

Definition take_global (global : Counters) : Counters * Counters := (global, counters_zero).

Definition total (c : Counters) : Z := foldr Z.add 0 c.

Lemma group_bound r : (group r < GROUPS)%nat.
Proof. unfold group, GROUPS. repeat case_decide; lia. Qed.

Lemma total_alter i c : (i < length c)%nat → total (alter (λ c, c + 1) i c) = total c + 1.
Proof.
  revert i. induction c as [|x c IH]; intros i Hi; [simpl in Hi; lia|].
  destruct i as [|i]; simpl in *; [lia|]. rewrite IH; lia.
Qed.

Lemma length_record local r : length (record local r) = length local.
Proof. apply length_alter. Qed.

Lemma total_record local r :
  length local = GROUPS → total (record local r) = total local + 1.
Proof. intros Hl. apply total_alter. rewrite Hl. apply group_bound. Qed.

Lemma group_bounds r :
  match group r with
  | 0%nat => r = 0%nat | 1%nat => (1 <= r <= 5)%nat | 2%nat => (6 <= r <= 9)%nat
  | 3%nat => (10 <= r <= 19)%nat | _ => (20 <= r)%nat
  end.
Proof. unfold group. repeat (case_decide; try lia). Qed.

Lemma total_replicate n : total (replicate n 0) = 0.
Proof. induction n; simpl; lia. Qed.

Lemma lookup_record local r i :
  length local = GROUPS → (i < GROUPS)%nat →
  record local r !!! i = local !!! i + (if decide (group r = i) then 1 else 0).
Proof.
  intros Hl Hi. unfold record. rewrite !list_lookup_total_alt.
  destruct (lookup_lt_is_Some_2 local i) as [c Hc]; [by rewrite Hl|].
  case_decide as Hg.
  - subst i. rewrite list_lookup_alter_eq Hc. done.
  - rewrite list_lookup_alter_ne // Hc. simpl. unfold id. lia.
Qed.

Lemma records_spec rs local :
  length local = GROUPS →
  length (foldl record local rs) = GROUPS ∧
  total (foldl record local rs) = total local + Z.of_nat (length rs) ∧
  ∀ i, (i < GROUPS)%nat →
    foldl record local rs !!! i =
      local !!! i + Z.of_nat (length (filter (λ r, group r = i) rs)).
Proof.
  revert local. induction rs as [|r rs IH]; intros local Hl.
  { split_and!; [done|simpl; lia|]. intros. rewrite filter_nil /=. lia. }
  destruct (IH (record local r)) as (H1 & H2 & H3); [by rewrite length_record|].
  simpl. split_and!; [done| |].
  - rewrite H2 total_record //. lia.
  - intros i Hi. rewrite (H3 i Hi) lookup_record // filter_cons. repeat case_decide; simpl; done || lia.
Qed.

Lemma total_nonneg c : Forall (λ x, 0 ≤ x) c → 0 ≤ total c.
Proof. induction 1; simpl; lia. Qed.

Lemma flush_no_wrap global local :
  length global = length local →
  Forall (λ g, 0 ≤ g) global → Forall (λ g, 0 ≤ g) local →
  total global + total local ≤ U64_MAX →
  zip_with (λ g l, u64_wrap (g + l)) global local = zip_with Z.add global local.
Proof.
  revert local. induction global as [|g global IH]; intros [|l local] Hlen Hg Hl Ht; try done.
  inversion Hg as [|? ? Hg0 Hg']; inversion Hl as [|? ? Hl0 Hl']; subst. simpl in *.
  pose proof (total_nonneg _ Hg'). pose proof (total_nonneg _ Hl').
  f_equal; [|apply IH; auto; lia]. unfold u64_wrap, U64_MAX in *. apply Z.mod_small. lia.
Qed.

Lemma total_zip_add global local :
  length global = length local →
  total (zip_with Z.add global local) = total global + total local.
Proof.
  revert local. induction global as [|g global IH]; intros [|l local] Hlen; try done.
  simpl in *. rewrite IH; lia.
Qed.

Lemma records_nonneg rs local :
  length local = GROUPS → Forall (λ g, 0 ≤ g) local → Forall (λ g, 0 ≤ g) (foldl record local rs).
Proof.
  revert local. induction rs as [|r rs IH]; intros local Hl Hf; [done|]. simpl.
  apply IH; [by rewrite length_record|]. unfold record. apply Forall_alter; [done|]. intros. lia.
Qed.

(** the histogram loses no traversal and puts each in its group. Recording any
    sequence of traversals in a thread and flushing it adds one count per
    traversal to the global counters, in the group whose range holds the number
    of retries, as long as the counts stay below 2^64. *)
Theorem retries_all_counted (global : Counters) (rs : list nat) :
  length global = GROUPS → Forall (λ g, 0 ≤ g) global →
  total global + Z.of_nat (length rs) ≤ U64_MAX →
  let '(global', local') := flush global (foldl record counters_zero rs) in
  total global' = total global + Z.of_nat (length rs) ∧ local' = counters_zero ∧
  ∀ i, (i < GROUPS)%nat →
    global' !!! i = global !!! i + Z.of_nat (length (filter (λ r, group r = i) rs)).
Proof.
  intros Hl Hg Ht. simpl.
  destruct (records_spec rs counters_zero) as (H1 & H2 & H3); [done|].
  assert (total counters_zero = 0) as H0 by apply total_replicate.
  rewrite flush_no_wrap; [| by rewrite H1 | done | | lia].
  2: { apply records_nonneg; [done|]. by apply Forall_replicate. }
  split_and!; [|done|].
  - rewrite total_zip_add; [lia|by rewrite H1].
  - intros i Hi. specialize (H3 i Hi).
    assert (counters_zero !!! i = 0) as Hz.
    { rewrite list_lookup_total_alt lookup_replicate_2 //. }
    rewrite Hz in H3. rewrite !list_lookup_total_alt in H3 |- *.
    rewrite lookup_zip_with.
    destruct (lookup_lt_is_Some_2 global i) as [g Hg1]; [by rewrite Hl|].
    destruct (lookup_lt_is_Some_2 (foldl record counters_zero rs) i) as [l Hl1]; [by rewrite H1|].
    rewrite Hg1 Hl1 /=. rewrite Hl1 /= in H3. unfold id in *. lia.
Qed.

Lemma retries_all_counted_witness :
  let '(global', local') := flush [5; 0; 0; 0; 1] (foldl record counters_zero [0; 3; 12; 40; 0]%nat) in
  total global' = total [5; 0; 0; 0; 1] + 5 ∧ local' = counters_zero ∧
  ∀ i, (i < GROUPS)%nat →
    global' !!! i = [5; 0; 0; 0; 1] !!! i +
      Z.of_nat (length (filter (λ r, group r = i) [0; 3; 12; 40; 0]%nat)).
Proof.
  apply (retries_all_counted [5; 0; 0; 0; 1] [0; 3; 12; 40; 0]%nat eq_refl).
  - repeat constructor; lia.
  - vm_compute. discriminate.
Defined.
