(* ===== verification/Tree.v ===== *)
(** * The tree and its reorganisations

    [src/src/mv_tree/mvbt.rs] (the tree's state), the allocation of
    [src/src/mv_block/block_handle.rs] and the structure modifications of
    [src/src/mv_tree/smo.rs]. The state is the one of a single thread: blocks are
    addresses of a heap, and what the thread sees of the other threads are the
    outcomes of its latch operations, a stream of booleans it reads from; random
    numbers come from a stream as well. *)
From S2P Require Import Prelude OrdMap Version Interval PageLen LeafPage InternalPage Node.
From S2P Require Import Clock Gc RootIndex RetryStats.

(** A guard of a block: [SmartGuard::Reader] or [SmartGuard::Writer]. *)
Record Guard := mkGuard { g_block : BlockRef; g_writer : bool }.

Section tree.
Context {P : Type} (Payload_default : P).
Context {M : ∀ K, KeyOrder K → Type → Type} `{!OrdMap M}.
Context {R : Type} `{!RootStore R}.
Context (FAN_OUT NUM_RECORDS : nat) (me : Tid).

(** [MVBTSt] with its [BlockAllocManager], the statics of the clock and the
    retry counters of the thread. *)
Record TreeSt := mkTree {
  heap : gmap BlockRef (Node P);
  next_block : BlockRef;
  root : R;
  clock : ClockSt;
  tracker : option (Tracker (M := M));
  update_in_place : bool;
  reuse_count : Z;
  alloc_count : Z;
  latches : list bool;
  retries : Counters;
  rng : list Z;
}.

Definition with_heap (f : gmap BlockRef (Node P) → gmap BlockRef (Node P)) (s : TreeSt) : TreeSt :=
  mkTree (f (heap s)) (next_block s) (root s) (clock s) (tracker s) (update_in_place s)
    (reuse_count s) (alloc_count s) (latches s) (retries s) (rng s).
Definition with_next (n : BlockRef) (s : TreeSt) : TreeSt :=
  mkTree (heap s) n (root s) (clock s) (tracker s) (update_in_place s)
    (reuse_count s) (alloc_count s) (latches s) (retries s) (rng s).
Definition with_root (r : R) (s : TreeSt) : TreeSt :=
  mkTree (heap s) (next_block s) r (clock s) (tracker s) (update_in_place s)
    (reuse_count s) (alloc_count s) (latches s) (retries s) (rng s).
Definition with_clock (c : ClockSt) (s : TreeSt) : TreeSt :=
  mkTree (heap s) (next_block s) (root s) c (tracker s) (update_in_place s)
    (reuse_count s) (alloc_count s) (latches s) (retries s) (rng s).
Definition with_tracker (t : option (Tracker (M := M))) (s : TreeSt) : TreeSt :=
  mkTree (heap s) (next_block s) (root s) (clock s) t (update_in_place s)
    (reuse_count s) (alloc_count s) (latches s) (retries s) (rng s).
Definition with_in_place (b : bool) (s : TreeSt) : TreeSt :=
  mkTree (heap s) (next_block s) (root s) (clock s) (tracker s) b
    (reuse_count s) (alloc_count s) (latches s) (retries s) (rng s).
Definition with_counts (reuse alloc : Z) (s : TreeSt) : TreeSt :=
  mkTree (heap s) (next_block s) (root s) (clock s) (tracker s) (update_in_place s)
    reuse alloc (latches s) (retries s) (rng s).
Definition with_latches (l : list bool) (s : TreeSt) : TreeSt :=
  mkTree (heap s) (next_block s) (root s) (clock s) (tracker s) (update_in_place s)
    (reuse_count s) (alloc_count s) l (retries s) (rng s).
Definition with_retries (c : Counters) (s : TreeSt) : TreeSt :=
  mkTree (heap s) (next_block s) (root s) (clock s) (tracker s) (update_in_place s)
    (reuse_count s) (alloc_count s) (latches s) c (rng s).

Definition with_rng (l : list Z) (s : TreeSt) : TreeSt :=
  mkTree (heap s) (next_block s) (root s) (clock s) (tracker s) (update_in_place s)
    (reuse_count s) (alloc_count s) (latches s) (retries s) l.

Abbreviation TreeM := (Comp TreeSt).

(** ** Blocks and guards *)
Definition read_block (b : BlockRef) : TreeM (Node P) :=
  h ← gets heap; lift (h !! b).
Definition write_block (b : BlockRef) (n : Node P) : TreeM () := modify (with_heap <[b := n]>).

Definition get_leaf (b : BlockRef) : TreeM (LeafPage P) :=
  n ← read_block b; lift (Node.as_leaf_page n).
Definition get_internal (b : BlockRef) : TreeM InternalPage :=
  n ← read_block b; lift (Node.as_internal_page n).
Definition update_leaf (b : BlockRef) (f : LeafPage P → option (LeafPage P)) : TreeM () :=
  p ← get_leaf b; p ← lift (f p); write_block b (Leaf p).
Definition update_internal (b : BlockRef) (f : InternalPage → option InternalPage) : TreeM () :=
  p ← get_internal b; p ← lift (f p); write_block b (Index p).

Definition borrow_read (b : BlockRef) : TreeM Guard := mret (mkGuard b false).

Definition latch_outcome : TreeM bool :=
  l ← gets latches;
  match l with
  | [] => mret true
  | o :: l => modify (with_latches l);; mret o
  end.

(** A writer keeps its latch; a reader depends on the other threads. *)
Definition upgrade_write_lock (g : Guard) : TreeM (bool * Guard) :=
  if g_writer g then mret (true, g)
  else o ← latch_outcome; mret (o, mkGuard (g_block g) o).

Definition is_still_live (g : Guard) : TreeM bool :=
  if g_writer g then mret true else latch_outcome.

(** ** Clock *)
Definition start_tx_commit : TreeM Version :=
  c ← gets clock;
  let '(v, c) := GlobalClock.start_commit c me in
  modify (with_clock c);; mret v.
Definition end_tx_commit (version : Version) : TreeM () :=
  c ← gets clock; modify (with_clock (GlobalClock.end_commit c me version)).
Definition current_version : TreeM Version := c ← gets clock; mret (GlobalClock.current_version c).
Definition tree_version_for_reader : TreeM Version :=
  c ← gets clock;
  let '(v, c) := current_version_for_reader c me in
  modify (with_clock c);; mret v.

(** ** Allocation: [BlockAllocManager] *)
Definition reset_alloc_reuse_counts : TreeM () := modify (with_counts 0 0).
Definition alloc_reuse_counts : TreeM (Z * Z) :=
  a ← gets alloc_count; r ← gets reuse_count; mret (a, r).
Definition pass_aux_tx_tracker (t : option (Tracker (M := M))) : TreeM () :=
  modify (with_tracker t).
Definition del_aux : TreeM () := modify (with_tracker None).
Definition set_update_in_place (b : bool) : TreeM () := modify (with_in_place b).
Definition enable_gc (b : bool) : TreeM () :=
  pass_aux_tx_tracker (Some tracker_new);; set_update_in_place b.
Definition disable_gc : TreeM () := del_aux.

Definition register_dead (dead_v : Version) (dead_p : BlockRef) : TreeM () :=
  modify (λ s, with_tracker ((λ t, tracker_register_died_page t dead_v dead_p) <$> tracker s) s).
Definition register_dead_col (dead : list (Version * BlockRef)) : TreeM () :=
  modify (λ s, with_tracker ((λ t, tracker_register_died_page_col t dead) <$> tracker s) s).

Definition try_free_block : TreeM (option BlockRef) :=
  t ← gets tracker;
  match t with
  | None => mret None
  | Some t =>
      c ← gets clock;
      let '(b, (t, c)) := free_block t c in
      modify (with_tracker (Some t));; modify (with_clock c);; mret b
  end.

Definition alloc_block (leaf : bool) : TreeM BlockRef :=
  free ← try_free_block;
  match free with
  | Some block =>
      modify (λ s, with_counts (u64_wrap (reuse_count s + 1)) (alloc_count s) s);;
      m_page ← read_block block;
      let m_page := Node.on_reuse m_page in
      write_block block (if leaf then Node.mark_leaf m_page else Node.mark_internal m_page);;
      mret block
  | None =>
      modify (λ s, with_counts (reuse_count s) (u64_wrap (alloc_count s + 1)) s);;
      block ← gets next_block;
      modify (with_next (S block));;
      write_block block (if leaf then Node.new_leaf else Node.new_internal);;
      mret block
  end.
Definition new_empty_leaf : TreeM BlockRef := alloc_block true.
Definition new_empty_index_block : TreeM BlockRef := alloc_block false.

(** ** Splitting a node *)
Inductive BlockSplit :=
  | ByKey (left_fence : Interval) (left : BlockRef) (right_fence : Interval) (right : BlockRef)
  | ByVersion (fresh : BlockRef).

Definition insertion_key (r : RecordPoint P) : Z := VersionInfo.insertion_version (version r).
Definition not_deleted (r : RecordPoint P) : Prop := VersionInfo.is_deleted (version r) = false.

(** The entries of an internal page as the code zips them. *)
Definition IndexEntry : Type := Interval * Version * BlockRef.
Definition entry_lower (e : IndexEntry) : Z := lower e.1.1.
Definition entry_version (e : IndexEntry) : Z := e.1.2.
Definition entry_active (e : IndexEntry) : Prop := TimeMatcher.is_active e.1.2 = true.
Definition zip_entries (x : list Interval * list Version * list BlockRef) : list IndexEntry :=
  let '(keys, versions, pointers) := x in zip (zip keys versions) pointers.
Definition page_entries (p : InternalPage) : list IndexEntry :=
  zip_entries (InternalPage.keys_versions_pointers p).

Definition split_leaf_by_key (block : BlockRef) (fence : Interval) : TreeM BlockSplit :=
  left ← new_empty_leaf;
  right ← new_empty_leaf;
  page ← get_leaf block;
  let sorted_block := sort_by_key key (filter not_deleted (LeafPage.as_records page)) in
  let middle := length sorted_block / 2 in
  let first := take middle sorted_block in
  let second := drop middle sorted_block in
  pivot ← lift (head second);
  let fence_left := Interval.new (lower fence) (dec_key (key pivot)) in
  update_leaf left (λ p, LeafPage.bulk_push NUM_RECORDS p (sort_by_key insertion_key first));;
  let fence_right := Interval.new (key pivot) (upper fence) in
  update_leaf right (λ p, LeafPage.bulk_push NUM_RECORDS p (sort_by_key insertion_key second));;
  mret (ByKey fence_left left fence_right right).

Definition split_index_by_key (block : BlockRef) (fence : Interval) : TreeM BlockSplit :=
  left ← new_empty_index_block;
  right ← new_empty_index_block;
  page ← get_internal block;
  let filtered := sort_by_key entry_lower (filter entry_active (page_entries page)) in
  let middle := length filtered / 2 in
  let first := take middle filtered in
  let second := drop middle filtered in
  pivot ← lift (head second);
  let fence_left := Interval.new (lower fence) (dec_key (entry_lower pivot)) in
  update_internal left (λ p, InternalPage.bulk_push FAN_OUT p (sort_by_key entry_version first));;
  let fence_right := Interval.new (entry_lower pivot) (upper fence) in
  update_internal right (λ p, InternalPage.bulk_push FAN_OUT p (sort_by_key entry_version second));;
  mret (ByKey fence_left left fence_right right).

Definition split_leaf_by_version (block : BlockRef) : TreeM BlockSplit :=
  new_leaf ← new_empty_leaf;
  page ← get_leaf block;
  update_leaf new_leaf (λ p,
    LeafPage.bulk_push NUM_RECORDS p (filter not_deleted (LeafPage.as_records page)));;
  mret (ByVersion new_leaf).

Definition split_index_by_version (block : BlockRef) : TreeM BlockSplit :=
  new_internal_page ← new_empty_index_block;
  page ← get_internal block;
  update_internal new_internal_page (λ p,
    InternalPage.bulk_push FAN_OUT p (filter entry_active (page_entries page)));;
  mret (ByVersion new_internal_page).

Definition split (block : BlockRef) (fence : Interval) : TreeM BlockSplit :=
  node ← read_block block;
  let is_leaf := Node.is_leaf node in
  let active_block := (counts node).1 in
  if decide (filling_80_percent FAN_OUT NUM_RECORDS node ≤ active_block) then
    if is_leaf then split_leaf_by_key block fence else split_index_by_key block fence
  else
    if is_leaf then split_leaf_by_version block else split_index_by_version block.

Definition on_overflow_node (mufasa simba : Guard) (child_index : nat) : TreeM Guard :=
  let parent := g_block mufasa in
  internal_page ← get_internal parent;
  fence ← lift (InternalPage.get_key internal_page child_index);
  let current_len := InternalPage.sum_len internal_page in
  s ← split (g_block simba) fence;
  death_version ← match s with
    | ByKey left_fence left_block right_fence right_block =>
        version ← start_tx_commit;
        update_internal parent (λ p,
          InternalPage.push_uncommitted FAN_OUT p left_fence version left_block current_len);;
        update_internal parent (λ p,
          InternalPage.push_uncommitted FAN_OUT p right_fence version right_block (current_len + 1));;
        update_internal parent (λ p, Some (InternalPage.commit_delta p 1 1));;
        update_internal parent (λ p, Some (InternalPage.mark_version_obsolete p child_index));;
        end_tx_commit version;;
        mret version
    | ByVersion fresh =>
        version ← start_tx_commit;
        update_internal parent (λ p,
          InternalPage.push_uncommitted FAN_OUT p fence version fresh current_len);;
        update_internal parent (λ p, Some (InternalPage.commit_delta p 0 1));;
        update_internal parent (λ p, Some (InternalPage.mark_version_obsolete p child_index));;
        end_tx_commit version;;
        mret version
    end;
  internal_page ← get_internal parent;
  dead ← lift (InternalPage.get_pointer internal_page child_index);
  register_dead death_version dead;;
  mret mufasa.

(** ** Merging a node with a sibling *)
Inductive MergeResult :=
  | Merged (index_sibling : nat) (fence_sibling : Interval) (merged : BlockRef) (candidate : Guard)
  | KeySplit (index_sibling : nat) (s : BlockSplit) (candidate : Guard)
  | MergeError.

(** Position, block and fence of the other active entries, by lower bound. *)
Definition merge_candidates (page : InternalPage) (simba_index : nat)
    : list (nat * BlockRef * Interval) :=
  let children := InternalPage.children page in
  let entries := zip (zip (zip (seq 0 (length children)) children) (InternalPage.versions page))
                   (InternalPage.keys page) in
  let others := filter (λ e, e.1.1.1 ≠ simba_index) entries in
  let actives := filter (λ e, TimeMatcher.is_active e.1.2 = true) others in
  (λ e, (e.1.1.1, e.1.1.2, e.2)) <$> sort_by_key (λ e, lower e.2) actives.

Definition compute_candidate (all_candidates : list (nat * BlockRef * Interval))
    (simba_fence : Interval) : option (nat * BlockRef * Interval) :=
  match binary_search_by_key (λ c, lower c.2) (lower simba_fence) all_candidates with
  | inl index => all_candidates !! index
  | inr index =>
      if decide (index < length all_candidates) then all_candidates !! index
      else last all_candidates
  end.

Definition merge_index_blocks (simba candidate : BlockRef) : TreeM BlockRef :=
  combined_block ← new_empty_index_block;
  s ← get_internal simba;
  c ← get_internal candidate;
  let shadow_copy := merge_by (λ f s, (entry_version f <=? entry_version s)%Z)
    (filter entry_active (page_entries s)) (filter entry_active (page_entries c)) in
  update_internal combined_block (λ p, InternalPage.bulk_push FAN_OUT p shadow_copy);;
  mret combined_block.

Definition merge_leaf_blocks (simba candidate : BlockRef) : TreeM BlockRef :=
  combined_block ← new_empty_leaf;
  s ← get_leaf simba;
  c ← get_leaf candidate;
  let merged := merge_by (λ f s, (insertion_key f <=? insertion_key s)%Z)
    (filter not_deleted (LeafPage.as_records s)) (filter not_deleted (LeafPage.as_records c)) in
  update_leaf combined_block (λ p, LeafPage.bulk_push NUM_RECORDS p merged);;
  mret combined_block.

Definition redistribute_leaves (simba candidate : BlockRef) (simba_fence candidate_fence : Interval)
    : TreeM BlockSplit :=
  s ← get_leaf simba;
  c ← get_leaf candidate;
  let joined := merge_by (λ f s, (key f <=? key s)%Z)
    (sort_by_key key (filter not_deleted (LeafPage.as_records c)))
    (sort_by_key key (filter not_deleted (LeafPage.as_records s))) in
  let middle := length joined / 2 in
  let first := take middle joined in
  let second := drop middle joined in
  pivot ← lift (head second);
  let left_interval :=
    Interval.new (Z.min (lower candidate_fence) (lower simba_fence)) (dec_key (key pivot)) in
  let right_interval :=
    Interval.new (key pivot) (Z.max (upper candidate_fence) (upper simba_fence)) in
  let first := sort_by_key insertion_key first in
  let second := sort_by_key insertion_key second in
  combined_block_0 ← new_empty_leaf;
  combined_block_1 ← new_empty_leaf;
  update_leaf combined_block_0 (λ p, LeafPage.bulk_push NUM_RECORDS p first);;
  update_leaf combined_block_1 (λ p, LeafPage.bulk_push NUM_RECORDS p second);;
  mret (ByKey left_interval combined_block_0 right_interval combined_block_1).

Definition redistribute_indexes (simba candidate : BlockRef) (simba_fence candidate_fence : Interval)
    : TreeM BlockSplit :=
  s ← get_internal simba;
  c ← get_internal candidate;
  let joined := merge_by (λ f s, (entry_lower f <? entry_lower s)%Z)
    (sort_by_key entry_lower (filter entry_active (page_entries c)))
    (sort_by_key entry_lower (filter entry_active (page_entries s))) in
  let middle := length joined / 2 in
  let first := take middle joined in
  let second := drop middle joined in
  pivot ← lift (head second);
  let left_fence :=
    Interval.new (Z.min (lower candidate_fence) (lower simba_fence)) (dec_key (entry_lower pivot)) in
  let right_fence :=
    Interval.new (entry_lower pivot) (Z.max (upper candidate_fence) (upper simba_fence)) in
  let first := sort_by_key entry_version first in
  let second := sort_by_key entry_version second in
  combined_block_0 ← new_empty_index_block;
  combined_block_1 ← new_empty_index_block;
  update_internal combined_block_0 (λ p, InternalPage.bulk_push FAN_OUT p first);;
  update_internal combined_block_1 (λ p, InternalPage.bulk_push FAN_OUT p second);;
  mret (ByKey left_fence combined_block_0 right_fence combined_block_1).

Definition merge (mufasa simba : BlockRef) (simba_index : nat) : TreeM MergeResult :=
  mufasa_internal_page ← get_internal mufasa;
  simba_node ← read_block simba;
  let is_simba_leaf := Node.is_leaf simba_node in
  simba_fence ← lift (InternalPage.get_key mufasa_internal_page simba_index);
  let simba_max_units := max_units FAN_OUT NUM_RECORDS simba_node in
  let simba_active_count := (counts simba_node).1 in
  let all_candidates := merge_candidates mufasa_internal_page simba_index in
  match compute_candidate all_candidates simba_fence with
  | None => mret MergeError
  | Some (candidate_index, candidate_block, candidate_fence) =>
      candidate_guard ← borrow_read candidate_block;
      r ← upgrade_write_lock candidate_guard;
      let '(ok, candidate_guard) := r in
      if negb (ok : bool) then mret MergeError
      else
        candidate_node ← read_block candidate_block;
        let candidate_active_count := (counts candidate_node).1 in
        if decide (candidate_active_count + simba_active_count ≤ (4 * simba_max_units) / 5) then
          combined_block ← (if is_simba_leaf then merge_leaf_blocks simba candidate_block
                            else merge_index_blocks simba candidate_block);
          mret (Merged candidate_index candidate_fence combined_block candidate_guard)
        else
          s ← (if is_simba_leaf
               then redistribute_leaves simba candidate_block simba_fence candidate_fence
               else redistribute_indexes simba candidate_block simba_fence candidate_fence);
          mret (KeySplit candidate_index s candidate_guard)
  end.

(** [None] inside is the [Err(())] of a sibling that cannot be latched. *)
Definition on_underflow_node (mufasa simba : Guard) (index_simba : nat) : TreeM (option Guard) :=
  let parent := g_block mufasa in
  m ← merge parent (g_block simba) index_simba;
  match m with
  | Merged index_sibling fence_sibling merged_block _ =>
      page ← get_internal parent;
      let mufasa_len := InternalPage.sum_len page in
      simba_fence ← lift (InternalPage.get_key page index_simba);
      let merged_fence := Interval.merge simba_fence fence_sibling in
      version ← start_tx_commit;
      update_internal parent (λ p,
        InternalPage.push_uncommitted FAN_OUT p merged_fence version merged_block mufasa_len);;
      update_internal parent (λ p, Some (InternalPage.commit_delta p (-1) 2));;
      update_internal parent (λ p, Some (InternalPage.mark_version_obsolete p index_sibling));;
      update_internal parent (λ p, Some (InternalPage.mark_version_obsolete p index_simba));;
      page ← get_internal parent;
      simba_p ← lift (InternalPage.get_pointer page index_simba);
      sibling_p ← lift (InternalPage.get_pointer page index_sibling);
      register_dead_col [(version, simba_p); (version, sibling_p)];;
      end_tx_commit version;;
      mret (Some mufasa)
  | KeySplit index_sibling (ByKey left_interval left_block right_interval right_block) _ =>
      page ← get_internal parent;
      let mufasa_len := InternalPage.sum_len page in
      version ← start_tx_commit;
      update_internal parent (λ p,
        InternalPage.push_uncommitted FAN_OUT p left_interval version left_block mufasa_len);;
      update_internal parent (λ p,
        InternalPage.push_uncommitted FAN_OUT p right_interval version right_block (mufasa_len + 1));;
      update_internal parent (λ p, Some (InternalPage.commit_delta p 0 2));;
      update_internal parent (λ p, Some (InternalPage.mark_version_obsolete p index_sibling));;
      update_internal parent (λ p, Some (InternalPage.mark_version_obsolete p index_simba));;
      page ← get_internal parent;
      simba_p ← lift (InternalPage.get_pointer page index_simba);
      sibling_p ← lift (InternalPage.get_pointer page index_sibling);
      register_dead_col [(version, simba_p); (version, sibling_p)];;
      end_tx_commit version;;
      mret (Some mufasa)
  | _ => mret None
  end.

(** ** The root *)
Definition tree_append_root (x : Root) : TreeM () :=
  r ← gets root; res ← lift (rs_append r x); modify (with_root res.2).

Definition split_root (root_guard : Guard) (h : Height) : TreeM Guard :=
  s ← split (g_block root_guard) (Interval.new 0 U64_MAX);
  match s with
  | ByKey left_fence left_block right_fence right_block =>
      new_root_block ← new_empty_index_block;
      version ← start_tx_commit;
      update_internal new_root_block (λ p,
        InternalPage.push_uncommitted FAN_OUT p left_fence version left_block 0);;
      update_internal new_root_block (λ p,
        InternalPage.push_uncommitted FAN_OUT p right_fence version right_block 1);;
      update_internal new_root_block (λ p, Some (InternalPage.commit_delta p 2 0));;
      new_root_latch ← borrow_read new_root_block;
      tree_append_root (mkRoot new_root_block version (h + 1));;
      end_tx_commit version;;
      register_dead version (g_block root_guard);;
      mret new_root_latch
  | ByVersion new_root_block =>
      version ← start_tx_commit;
      new_root_latch ← borrow_read new_root_block;
      tree_append_root (mkRoot new_root_block version h);;
      end_tx_commit version;;
      register_dead version (g_block root_guard);;
      mret new_root_latch
  end.

Definition merge_root (root_guard : Guard) (h : Height) : TreeM (option Guard) :=
  page ← get_internal (g_block root_guard);
  child ← lift (InternalPage.last_child page);
  child_guard ← borrow_read child;
  r ← upgrade_write_lock child_guard;
  let '(ok, child_guard) := r in
  if negb (ok : bool) then mret None
  else guard ← split_root child_guard (h - 1); mret (Some guard).
End tree.
