(* ===== verification/Traversal.v ===== *)
(** * Descents that may write

    [src/src/mv_query/olc_query.rs] and [src/src/mv_query/rand_query.rs]: the
    optimistic descent from the current root to a leaf, which repairs every unsafe
    node on its way and starts over when a latch is lost. The loops take fuel;
    running out of it is a failure like a panic. *)
From S2P Require Import Prelude OrdMap Version Interval PageLen LeafPage InternalPage Node.
From S2P Require Import Clock Gc RootIndex RetryStats Tree.

Definition Attempts := nat.

Section traversal.
Context {P : Type}.
Context {M : ∀ K, KeyOrder K → Type → Type} `{!OrdMap M}.
Context {R : Type} `{!RootStore R}.
Context (FAN_OUT NUM_RECORDS : nat) (me : Tid).
Local Abbreviation TreeM := (Comp (@TreeSt P M R)).
Local Abbreviation degree := (unsafe_degree FAN_OUT NUM_RECORDS).
Local Abbreviation degree_root := (unsafe_degree_root FAN_OUT NUM_RECORDS).

(** ** The current root, split or merged first when it has to be *)
Definition retrieve_root_write_internal_olc : TreeM (option Guard) :=
  root ← gets root;
  root_block ← lift (rs_guard_block root);
  root_guard ← borrow_read root_block;
  node ← read_block root_block;
  match degree_root node with
  | Overflow =>
      ok ← latch_outcome;
      if ok : bool then
        h ← lift (rs_height root);
        g ← split_root FAN_OUT NUM_RECORDS me root_guard h;
        mret (Some g)
      else mret None
  | ActiveUnderflow =>
      ok ← latch_outcome;
      if ok : bool then
        h ← lift (rs_height root);
        merge_root FAN_OUT NUM_RECORDS me root_guard h
      else mret None
  | DegreeOk => mret (Some root_guard)
  end.

Fixpoint retrieve_root_write_olc (fuel : nat) (attempts : Attempts) : TreeM (Guard * Attempts) :=
  match fuel with
  | 0 => panic
  | S fuel =>
      r ← retrieve_root_write_internal_olc;
      match r with
      | Some guard => mret (guard, attempts)
      | None => retrieve_root_write_olc fuel (attempts + 1)
      end
  end.

(** The last active entry whose fence contains the key. *)
Definition active_child (p : InternalPage) (k : Z) : option nat :=
  let '(keys_page, versions_page) := InternalPage.keys_versions p in
  rfind_idx (λ e, TimeMatcher.is_active e.2 && Interval.contains e.1 k)
    (zip keys_page versions_page).

Fixpoint descend_write (fuel : nat) (curr_guard : Guard) (k : Z) (attempts : Attempts)
    : TreeM (result Guard Attempts) :=
  match fuel with
  | 0 => panic
  | S fuel =>
      node ← read_block (g_block curr_guard);
      match node with
      | Index internal_page =>
          match active_child internal_page k with
          | None => mret (Err (attempts + 1))
          | Some index =>
              next_block ← lift (InternalPage.get_pointer internal_page index);
              next_guard ← borrow_read next_block;
              live ← is_still_live curr_guard;
              if negb (live : bool) then mret (Err (attempts + 1))
              else
                next_node ← read_block next_block;
                match degree next_node with
                | DegreeOk => descend_write fuel next_guard k attempts
                | d =>
                    r ← upgrade_write_lock curr_guard;
                    let '(ok, curr_guard) := r in
                    if negb (ok : bool) then mret (Err (attempts + 1))
                    else
                      r ← upgrade_write_lock next_guard;
                      let '(ok, next_guard) := r in
                      if negb (ok : bool) then mret (Err (attempts + 1))
                      else if decide (d = Overflow) then
                        curr_guard ← on_overflow_node FAN_OUT NUM_RECORDS me curr_guard next_guard index;
                        descend_write fuel curr_guard k attempts
                      else
                        r ← on_underflow_node FAN_OUT NUM_RECORDS me curr_guard next_guard index;
                        match r with
                        | Some guard => descend_write fuel guard k attempts
                        | None => mret (Err (attempts + 1))
                        end
                end
          end
      | Leaf _ =>
          r ← upgrade_write_lock curr_guard;
          let '(ok, curr_guard) := r in
          if ok : bool then mret (Ok curr_guard) else mret (Err (attempts + 1))
      end
  end.

Definition traversal_write_internal_olc (fuel : nat) (k : Z) (attempts : Attempts)
    : TreeM (result Guard Attempts) :=
  r ← retrieve_root_write_olc fuel attempts;
  let '(curr_guard, attempts) := r in
  descend_write fuel curr_guard k attempts.

Definition record_retries (attempt : Attempts) : TreeM () :=
  modify (λ s, with_retries (record (retries s) attempt) s).

Fixpoint traversal_write_from (fuel depth : nat) (k : Z) (attempt : Attempts) : TreeM Guard :=
  match fuel with
  | 0 => panic
  | S fuel =>
      r ← traversal_write_internal_olc depth k attempt;
      match r with
      | Err n_attempt => traversal_write_from fuel depth k n_attempt
      | Ok guard => record_retries attempt;; mret guard
      end
  end.

Definition traversal_write_olc (fuel : nat) (k : Z) : TreeM Guard :=
  traversal_write_from fuel fuel k 0.

(** ** The random descent *)
Definition RAND_ATTEMPTS_MAX : Attempts := 10.

(** [rand::random_range(lo..hi)], which panics on an empty range. *)
Definition random_range (lo hi : Z) : TreeM Z :=
  if decide (lo < hi)%Z then
    l ← gets rng;
    match l with
    | [] => mret lo
    | x :: l => modify (with_rng l);; mret (lo + x `mod` (hi - lo))%Z
    end
  else panic.

(** The position of the active entry that has [index] active ones before it. *)
Fixpoint nth_active (versions : list Version) (k index : nat) : nat :=
  match versions with
  | [] => index
  | v :: versions =>
      if TimeMatcher.is_active v then
        match index with 0 => k | S index => nth_active versions (S k) index end
      else nth_active versions (S k) index
  end.

Fixpoint descend_rand (fuel : nat) (curr_guard : Guard) (curr_fence : Interval)
    (attempts : Attempts) : TreeM (result (Interval * Guard) Attempts) :=
  match fuel with
  | 0 => panic
  | S fuel =>
      node ← read_block (g_block curr_guard);
      let '(live_n, dead_n) := counts node in
      index ← (if decide (live_n = 0) then mret 0%Z else random_range 0 (Z.of_nat live_n));
      match node with
      | Index internal_page =>
          let index := nth_active (InternalPage.versions internal_page) 0 (Z.to_nat index) in
          if decide (dead_n + live_n ≤ index) then panic
          else
            version ← lift (InternalPage.get_version internal_page index);
            if TimeMatcher.is_obsolete version then panic
            else
              curr_fence ← lift (InternalPage.get_key internal_page index);
              next_block ← lift (InternalPage.get_pointer internal_page index);
              next_guard ← borrow_read next_block;
              next_node ← read_block next_block;
              match degree next_node with
              | DegreeOk => descend_rand fuel next_guard curr_fence attempts
              | d =>
                  r ← upgrade_write_lock curr_guard;
                  let '(ok, curr_guard) := r in
                  if negb (ok : bool) then mret (Err (attempts + 1))
                  else
                    r ← (if decide (d = Overflow)
                         then g ← on_overflow_node FAN_OUT NUM_RECORDS me curr_guard next_guard index;
                              mret (Some g)
                         else on_underflow_node FAN_OUT NUM_RECORDS me curr_guard next_guard index);
                    match r with
                    | None => mret (Err (attempts + 1))
                    | Some curr_guard =>
                        curr_node ← read_block (g_block curr_guard);
                        if decide (degree curr_node = Overflow) then mret (Err (attempts + 1))
                        else descend_rand fuel curr_guard curr_fence attempts
                    end
              end
      | Leaf _ =>
          r ← upgrade_write_lock curr_guard;
          let '(ok, curr_guard) := r in
          if ok : bool then mret (Ok (curr_fence, curr_guard)) else mret (Err (attempts + 1))
      end
  end.

Definition traversal_write_internal_rand (fuel : nat) (attempts : Attempts)
    : TreeM (result (Interval * Guard) Attempts) :=
  r ← retrieve_root_write_olc fuel attempts;
  let '(curr_guard, attempts) := r in
  descend_rand fuel curr_guard (Interval.new 0 U64_MAX) attempts.

Fixpoint traversal_write_rand_from (fuel depth : nat) (attempt : Attempts)
    : TreeM (Interval * Guard) :=
  match fuel with
  | 0 => panic
  | S fuel =>
      r ← traversal_write_internal_rand depth attempt;
      match r with
      | Err n_attempt => traversal_write_rand_from fuel depth n_attempt
      | Ok guard => mret guard
      end
  end.

Definition traversal_write_rand_query (fuel : nat) : TreeM (Interval * Guard) :=
  traversal_write_rand_from fuel fuel 0.
End traversal.
