(* ===== verification/Query.v ===== *)
(** * Reads at a version

    [src/src/mv_query/query.rs] and [src/src/mv_query/iter_query.rs]: point and
    range reads from the root of a version, and the lazy range iterator. *)
From S2P Require Import Prelude OrdMap Version Tower Interval PageLen LeafPage InternalPage Node.
From S2P Require Import Clock Gc RootIndex RetryStats Tree.

Section query.
Context {P : Type}.
Context {M : ∀ K, KeyOrder K → Type → Type} `{!OrdMap M}.
Context {R : Type} `{!RootStore R}.
Context (me : Tid).
Local Abbreviation TreeM := (Comp (@TreeSt P M R)).

Definition on_acquire_reader_snapshot (snapshot : SnapShot) : TreeM () :=
  modify (λ s, with_tracker ((λ t, tracker_on_tx_start t snapshot) <$> tracker s) s).
Definition on_release_reader_snapshot (snapshot : SnapShot) : TreeM () :=
  modify (λ s, with_tracker ((λ t, tracker_on_tx_completed t snapshot) <$> tracker s) s).

(** [ReaderPin] is the ticket; dropping it is [drop_pin]. *)
Definition pinned_reader_snapshot : TreeM (SnapShot * option (SnapShot * Z)) :=
  t ← gets tracker;
  pin ← match t with
        | None => mret None
        | Some _ =>
            now ← current_version;
            c ← gets clock;
            let '(lower_bound, c) := committed_snapshot c now in
            modify (with_clock c);;
            t ← gets tracker;
            match t with
            | None => mret None
            | Some tracker =>
                let '(ticket, tracker) := pin_reader tracker lower_bound in
                modify (with_tracker (Some tracker));; mret (Some ticket)
            end
        end;
  v ← tree_version_for_reader me;
  mret (v, pin).
Definition drop_pin (pin : option (SnapShot * Z)) : TreeM () :=
  match pin with
  | None => mret ()
  | Some ticket => modify (λ s, with_tracker ((λ t, unpin_reader t ticket) <$> tracker s) s)
  end.

Definition retrieve_root_for (lookup_version : Version) : TreeM BlockRef :=
  r ← gets root; x ← lift (rs_for r lookup_version); mret (block x).

(** The last entry whose version matches and whose fence contains the key. *)
Definition read_child (p : InternalPage) (k : Z) (lookup_version : Version) : option nat :=
  let '(keys_page, versions_page) := InternalPage.keys_versions p in
  rfind_idx (λ e, TimeMatcher.matched e.1 lookup_version && Interval.contains e.2 k)
    (zip versions_page keys_page).

Fixpoint traverse_read_key (fuel : nat) (curr : BlockRef) (k : Z) (lookup_version : Version)
    : TreeM BlockRef :=
  match fuel with
  | 0 => panic
  | S fuel =>
      node ← read_block curr;
      match node with
      | Index internal_page =>
          pos ← lift (read_child internal_page k lookup_version);
          next ← lift (InternalPage.get_pointer internal_page pos);
          traverse_read_key fuel next k lookup_version
      | Leaf _ => mret curr
      end
  end.

Fixpoint skip_while {A} (f : A → bool) (l : list A) : list A :=
  match l with [] => [] | x :: l' => if f x then skip_while f l' else l end.

(** [rev().skip_while(..).find(..)] over the records. *)
Definition read_record (records : list (RecordPoint P)) (k : Z) (lookup_version : Version)
    : option (RecordPoint P) :=
  let candidates := skip_while (λ r, (lookup_version <? insertion_key r)%Z) (reverse records) in
  head (filter (λ r, (key r =? k)%Z && VersionInfo.matches (version r) lookup_version = true)
    candidates).

Definition key_point_read_from_root (fuel : nat) (root : BlockRef) (k : Z) (lookup_version : Version)
    : TreeM (list (RecordPointResult P)) :=
  leaf ← traverse_read_key fuel root k lookup_version;
  page ← get_leaf leaf;
  match read_record (LeafPage.as_records page) k lookup_version with
  | None => mret []
  | Some r => mret [RecordPoint.result_from r]
  end.

(** ** The breadth-first range read *)
Definition unique_by {A} (f : A → Z) (l : list A) : list A :=
  reverse (foldl (λ acc x, if decide (f x ∈ f <$> acc) then acc else x :: acc) [] l).

(** [binary_search_by(..).unwrap_or_else(|pos| pos)]. *)
Definition search_pos {A} (f : A → Z) (target : Z) (l : list A) : nat :=
  match binary_search_by_key f target l with inl i | inr i => i end.

Definition range_children (p : InternalPage) (lookup_range : Interval) (lookup_version : Version)
    : list nat :=
  let '(keys_page, versions_page) := InternalPage.keys_versions p in
  let start_pos_si :=
    length versions_page - search_pos TimeMatcher.into_cmp lookup_version versions_page in
  let entries := zip (zip (seq 0 (length versions_page)) versions_page) keys_page in
  let candidates := filter (λ e, TimeMatcher.matched e.1.2 lookup_version
    && Interval.overlap lookup_range e.2 = true) (drop start_pos_si (reverse entries)) in
  (λ e, e.1.1) <$> unique_by (λ e, upper e.2) (unique_by (λ e, lower e.2) candidates).

Fixpoint traverse_read_key_range (fuel : nat) (blocks : list BlockRef) (leafs : list BlockRef)
    (lookup_range : Interval) (lookup_version : Version) : TreeM (list BlockRef) :=
  match fuel with
  | 0 => panic
  | S fuel =>
      match blocks with
      | [] => mret leafs
      | curr :: blocks =>
          node ← read_block curr;
          match node with
          | Index internal_page =>
              next ← lift (mapM (InternalPage.get_pointer internal_page)
                (range_children internal_page lookup_range lookup_version));
              traverse_read_key_range fuel (blocks ++ next) leafs lookup_range lookup_version
          | Leaf _ =>
              traverse_read_key_range fuel blocks (leafs ++ [curr]) lookup_range lookup_version
          end
      end
  end.

Definition range_records (records : list (RecordPoint P)) (lookup_range : Interval)
    (lookup_version : Version) : list (RecordPointResult P) :=
  let start_pos_si := length records - search_pos insertion_key lookup_version records in
  RecordPoint.result_from <$> filter (λ r, VersionInfo.matches (version r) lookup_version
    && Interval.contains lookup_range (key r) = true) (drop start_pos_si (reverse records)).

Definition key_range_read_from_root (fuel : nat) (root : BlockRef) (lookup_range : Interval)
    (lookup_version : Version) : TreeM (list (RecordPointResult P)) :=
  blocks ← traverse_read_key_range fuel [root] [] lookup_range lookup_version;
  pages ← mapM get_leaf blocks;
  mret (concat ((λ p, range_records (LeafPage.as_records p) lookup_range lookup_version) <$> pages)).

(** ** The lazy iterator *)
Record RangeQueryIter := mkIter {
  it_snapshot : SnapShot;
  it_range : Interval;
  it_path : list (Interval * BlockRef);    (* the top of the stack is the head *)
  it_buff : list (RecordPointResult P);
  is_completed : bool;
}.

Definition iter_new (v : Version) (range : Interval) : TreeM RangeQueryIter :=
  on_acquire_reader_snapshot v;;
  tree_version_for_reader me;;
  root ← retrieve_root_for v;
  mret (mkIter v range [(Interval.new 0 U64_MAX, root)] [] false).

Definition iter_child (p : InternalPage) (k : Z) (si : SnapShot) : option (Interval * nat) :=
  let '(keys_page, versions_page) := InternalPage.keys_versions p in
  pos ← rfind_idx (λ e, Interval.contains e.2 k && TimeMatcher.matched e.1 si)
    (zip versions_page keys_page);
  range ← keys_page !! pos;
  Some (range, pos).

Definition set_range_lower (r : Interval) (l : Z) : Interval := mkInterval l (upper r).

Fixpoint iter_loop (fuel : nat) (it : RangeQueryIter)
    : TreeM (option (RecordPointResult P) * RangeQueryIter) :=
  match fuel with
  | 0 => panic
  | S fuel =>
      let si := it_snapshot it in
      let range := it_range it in
      match it_path it with
      | [] =>
          on_release_reader_snapshot si;;
          mret (None, mkIter si range (it_path it) (it_buff it) true)
      | (curr_fence, curr_block) :: path =>
          if (upper range <? lower range)%Z then
            on_release_reader_snapshot si;;
            mret (None, mkIter si range (it_path it) (it_buff it) true)
          else
            node ← read_block curr_block;
            match node with
            | Index internal_page =>
                match iter_child internal_page (lower range) si with
                | Some (next_keys, pos) =>
                    next_block ← lift (InternalPage.get_pointer internal_page pos);
                    iter_loop fuel (mkIter si range ((next_keys, next_block) :: it_path it)
                      (it_buff it) (is_completed it))
                | None =>
                    iter_loop fuel (mkIter si (set_range_lower range (inc_key (upper curr_fence)))
                      path (it_buff it) (is_completed it))
                end
            | Leaf leaf_page =>
                let buff := it_buff it ++ (RecordPoint.result_from <$>
                  filter (λ r, VersionInfo.matches (version r) si
                    && Interval.contains range (key r) = true) (LeafPage.as_records leaf_page)) in
                let range := set_range_lower range (inc_key (upper curr_fence)) in
                match buff with
                | r :: rest => mret (Some r, mkIter si range path rest (is_completed it))
                | [] =>
                    if (lower range =? U64_MAX)%Z
                    then mret (None, mkIter si range path [] (is_completed it))
                    else iter_loop fuel (mkIter si range path [] (is_completed it))
                end
            end
      end
  end.

Definition iter_next (fuel : nat) (it : RangeQueryIter)
    : TreeM (option (RecordPointResult P) * RangeQueryIter) :=
  match it_buff it with
  | r :: rest =>
      mret (Some r, mkIter (it_snapshot it) (it_range it) (it_path it) rest (is_completed it))
  | [] => if is_completed it then mret (None, it) else iter_loop fuel it
  end.

(** [Drop]: the snapshot is released even if the data were not consumed. *)
Definition iter_drop (it : RangeQueryIter) : TreeM () :=
  if is_completed it then mret () else on_release_reader_snapshot (it_snapshot it).

(** [iter.collect()]: [next] until [None], then the drop. *)
Fixpoint iter_collect (fuel depth : nat) (it : RangeQueryIter) : TreeM (list (RecordPointResult P)) :=
  match fuel with
  | 0 => panic
  | S fuel =>
      x ← iter_next depth it;
      match x with
      | (None, it) => iter_drop it;; mret []
      | (Some r, it) => rest ← iter_collect fuel depth it; mret (r :: rest)
      end
  end.

(** ** Which root serves a version *)
Definition root_number_frugal (roots : list (FrugalNode ValueRootInner)) (lookup_version : Version)
    : option (nat * nat) :=
  let rev := reverse (zip (seq 0 (length roots)) roots) in
  e ← head (filter (λ e, (fn_version e.2 ≤ lookup_version)%Z) rev);
  Some (e.1 + 1, length roots).

Definition root_number_linked (roots : list Root) (lookup_version : Version)
    : option (nat * nat) :=
  e ← last (zip (seq 0 (length roots)) roots);
  Some (if decide (root_version e.2 ≤ lookup_version)%Z then e.1 + 1 else 1, length roots).
End query.

#[global] Arguments read_record : simpl never.
#[global] Arguments read_child : simpl never.
