(* ===== verification/Dispatch.v ===== *)
(** * Operations

    [src/src/mv_crud_model/] (operations and results) and
    [src/src/mv_query/dispatch.rs]: what each operation does to the leaf the
    descent arrives at, and to the counters, the clock and the snapshots. *)
From S2P Require Import Prelude OrdMap Version Interval PageLen LeafPage InternalPage Node.
From S2P Require Import Clock Gc RootIndex RetryStats Tree Traversal Query.

Definition RANGE_DISPATCH_LAZY : bool := true.

Inductive CRUDOperation (P : Type) :=
  | OpEmpty
  | OpInsert (k : Z) (p : P)
  | OpUpdate (k : Z) (p : P)
  | OpDelete (k : Z)
  | OpPoint (k : Z) (v : Version)
  | OpPointSi (k : Z)
  | OpRange (i : Interval) (v : Version)
  | OpRangeSi (i : Interval)
  | OpRangeIter (i : Interval) (v : Version)
  | OpRangeIterSi (i : Interval)
  | OpUpdateRand
  | OpDeleteRand
  | OpInsertRand.
Arguments OpEmpty {_}.
Arguments OpInsert {_} _ _.
Arguments OpUpdate {_} _ _.
Arguments OpDelete {_} _.
Arguments OpPoint {_} _ _.
Arguments OpPointSi {_} _.
Arguments OpRange {_} _ _.
Arguments OpRangeSi {_} _.
Arguments OpRangeIter {_} _ _.
Arguments OpRangeIterSi {_} _.
Arguments OpUpdateRand {_}.
Arguments OpDeleteRand {_}.
Arguments OpInsertRand {_}.

Definition is_read {P} (self : CRUDOperation P) : option Version :=
  match self with
  | OpPoint _ version | OpRangeIter _ version | OpRange _ version => Some version
  | _ => None
  end.
Definition is_write {P} (self : CRUDOperation P) : bool :=
  match is_read self with None => true | Some _ => false end.

Inductive CRUDOperationInnerReason := KeyAlreadyDeleted | KeyDoesNotExist | KeyAlreadyExists.

Inductive CRUDOperationResult (P : Type) :=
  | MatchedRecords (rs : list (RecordPointResult P))
  | MatchedRecordIter (it : @RangeQueryIter P)
  | Inserted (v : Version)
  | Updated (v : Version)
  | Deleted (v : Version)
  | InsertedRand (k : Z) (v : Version)
  | UpdatedRand (k : Z) (v : Version)
  | DeletedRand (k : Z) (v : Version)
  | ZeroAffected (r : CRUDOperationInnerReason)
  | OpError.
Arguments MatchedRecords {_} _.
Arguments MatchedRecordIter {_} _.
Arguments Inserted {_} _.
Arguments Updated {_} _.
Arguments Deleted {_} _.
Arguments InsertedRand {_} _ _.
Arguments UpdatedRand {_} _ _.
Arguments DeletedRand {_} _ _.
Arguments ZeroAffected {_} _.
Arguments OpError {_}.

Definition is_err {P} (self : CRUDOperationResult P) : bool :=
  match self with OpError => true | _ => false end.
Definition is_ok {P} (self : CRUDOperationResult P) : bool := negb (is_err self).

Section dispatch.
Context {P : Type} (Payload_default : P).
Context {M : ∀ K, KeyOrder K → Type → Type} `{!OrdMap M}.
Context {R : Type} `{!RootStore R}.
Context (FAN_OUT NUM_RECORDS : nat) (me : Tid).
Local Abbreviation TreeM := (Comp (@TreeSt P M R)).
Local Abbreviation Result := (CRUDOperationResult P).

(** [leaf_page.as_records().iter().rfind(|r| r.key == key)], with its position. *)
Definition find_key (p : LeafPage P) (k : Z) : option (nat * RecordPoint P) :=
  i ← rfind_idx (λ r, (key r =? k)%Z) (LeafPage.as_records p);
  (i,.) <$> LeafPage.as_records p !! i.

Definition insert_at_leaf (leaf : BlockRef) (k : Z) (p : P) : TreeM Result :=
  leaf_page ← get_leaf leaf;
  let live := match find_key leaf_page k with
              | Some (_, r) => negb (VersionInfo.is_deleted (version r))
              | None => false
              end in
  if live : bool then mret (ZeroAffected KeyAlreadyExists)
  else
    let current_len := LeafPage.len leaf_page in
    version ← start_tx_commit me;
    update_leaf leaf (λ page, LeafPage.push_uncommitted NUM_RECORDS page
      (RecordPoint.new k (VersionInfo.new version) p) current_len);;
    update_leaf leaf (λ page, Some (LeafPage.commit_delta page 1 0));;
    end_tx_commit me version;;
    mret (Inserted version).

(** The update in place of the key's newest record: its payload, and its
    deletion undone with the counters to match. *)
Definition update_record (leaf : BlockRef) (i : nat) (r : RecordPoint P) (p : P) : TreeM () :=
  let r' := RecordPoint.set_payload r p in
  if VersionInfo.is_deleted (version r) then
    update_leaf leaf (λ page, Some (LeafPage.set_record page i
      (RecordPoint.set_version r' (VersionInfo.undelete (version r')))));;
    update_leaf leaf (λ page, Some (LeafPage.commit_delta page 1 (-1)))
  else update_leaf leaf (λ page, Some (LeafPage.set_record page i r')).

(** The record an update may overwrite: in place updates are on, and no live
    reader can see the newest record of the key. *)
Definition in_place_target (leaf_page : LeafPage P) (k : Z) (t : option (Tracker (M := M)))
    (in_place : bool) : option (nat * RecordPoint P) :=
  match t with
  | Some db_tracker =>
      if in_place then
        match newest_live_si db_tracker with
        | Some newest_si =>
            match find_key leaf_page k with
            | Some (i, r) =>
                if (newest_si <? insertion_key r)%Z then Some (i, r) else None
            | None => None
            end
        | None => find_key leaf_page k
        end
      else None
  | None => None
  end.

(** The versioned update: the new record, then the end of the old one. *)
Definition update_versioned (leaf : BlockRef) (k : Z) (p : P) (current_len : nat) : TreeM Result :=
  leaf_page ← get_leaf leaf;
  match find_key leaf_page k with
  | None => mret (ZeroAffected KeyDoesNotExist)
  | Some (_, r) =>
      if VersionInfo.is_deleted (version r) then mret (ZeroAffected KeyAlreadyDeleted)
      else
        version ← start_tx_commit me;
        update_leaf leaf (λ page, LeafPage.push_uncommitted NUM_RECORDS page
          (RecordPoint.new k (VersionInfo.new version) p) current_len);;
        update_leaf leaf (λ page, Some (LeafPage.commit_delta page 1 0));;
        leaf_page ← get_leaf leaf;
        match LeafPage.delete_after_update leaf_page k version with
        | (Ok (Some _), leaf_page) =>
            write_block leaf (Leaf leaf_page);;
            update_leaf leaf (λ page, Some (LeafPage.commit_delta page (-1) 1));;
            end_tx_commit me version;;
            mret (Updated version)
        | _ => panic
        end
  end.

Definition update_at_leaf (leaf : BlockRef) (k : Z) (p : P) : TreeM Result :=
  leaf_page ← get_leaf leaf;
  let current_len := LeafPage.len leaf_page in
  t ← gets tracker;
  in_place ← gets update_in_place;
  match in_place_target leaf_page k t in_place with
  | Some (i, r) =>
      update_record leaf i r p;;
      v ← current_version;
      mret (Updated v)
  | None => update_versioned leaf k p current_len
  end.

Definition delete_at_leaf (leaf : BlockRef) (k : Z) : TreeM Result :=
  version ← start_tx_commit me;
  leaf_page ← get_leaf leaf;
  match LeafPage.delete leaf_page k version with
  | (Ok (Some _), leaf_page) =>
      write_block leaf (Leaf leaf_page);;
      update_leaf leaf (λ page, Some (LeafPage.commit_delta page (-1) 1));;
      end_tx_commit me version;;
      mret (Deleted version)
  | (Ok None, _) => mret (ZeroAffected KeyDoesNotExist)
  | (Err (), _) => mret (ZeroAffected KeyAlreadyDeleted)
  end.

(** ** The random writers *)

(** The key of the live record that has [find_i] live ones before it. *)
Fixpoint nth_live_key (rs : list (RecordPoint P)) (find_i : nat) : Z :=
  match rs with
  | [] => 0
  | r :: rs =>
      if VersionInfo.is_deleted (version r) then nth_live_key rs find_i
      else match find_i with 0 => key r | S find_i => nth_live_key rs find_i end
  end.

Definition random_live_key (leaf_page : LeafPage P) : TreeM Z :=
  let '(live_n, _) := LeafPage.active_dead_count leaf_page in
  find_i ← random_range 0 live_n;
  mret (nth_live_key (LeafPage.as_records leaf_page) (Z.to_nat find_i)).

Definition update_rand_at_leaf (leaf : BlockRef) : TreeM Result :=
  leaf_page ← get_leaf leaf;
  let current_len := LeafPage.len leaf_page in
  k ← random_live_key leaf_page;
  t ← gets tracker;
  in_place ← gets update_in_place;
  match in_place_target leaf_page k t in_place with
  | Some (i, r) =>
      let r' := RecordPoint.set_version r (VersionInfo.undelete (version r)) in
      update_leaf leaf (λ page, Some (LeafPage.set_record page i
        (RecordPoint.set_payload r' Payload_default)));;
      update_leaf leaf (λ page, Some (LeafPage.commit_delta page 1 (-1)));;
      v ← tree_version_for_reader me;
      mret (UpdatedRand k v)
  | None =>
      version ← start_tx_commit me;
      update_leaf leaf (λ page, LeafPage.push_uncommitted NUM_RECORDS page
        (RecordPoint.new k (VersionInfo.new version) Payload_default) current_len);;
      update_leaf leaf (λ page, Some (LeafPage.commit_delta page 1 0));;
      leaf_page ← get_leaf leaf;
      match LeafPage.delete_after_update leaf_page k version with
      | (Ok (Some _), leaf_page) =>
          write_block leaf (Leaf leaf_page);;
          update_leaf leaf (λ page, Some (LeafPage.commit_delta page (-1) 1));;
          end_tx_commit me version;;
          mret (UpdatedRand k version)
      | (Ok None, leaf_page) =>
          write_block leaf (Leaf leaf_page);;
          update_leaf leaf (λ page, LeafPage.undo_uncommitted page current_len);;
          mret (ZeroAffected KeyDoesNotExist)
      | (Err (), leaf_page) =>
          write_block leaf (Leaf leaf_page);;
          update_leaf leaf (λ page, LeafPage.undo_uncommitted page current_len);;
          mret (ZeroAffected KeyAlreadyDeleted)
      end
  end.

Definition delete_rand_at_leaf (leaf : BlockRef) : TreeM Result :=
  leaf_page ← get_leaf leaf;
  k ← random_live_key leaf_page;
  version ← start_tx_commit me;
  leaf_page ← get_leaf leaf;
  match LeafPage.delete leaf_page k version with
  | (Ok (Some _), leaf_page) =>
      write_block leaf (Leaf leaf_page);;
      update_leaf leaf (λ page, Some (LeafPage.commit_delta page (-1) 1));;
      end_tx_commit me version;;
      mret (DeletedRand k version)
  | (Ok None, _) => mret (ZeroAffected KeyDoesNotExist)
  | (Err (), _) => mret (ZeroAffected KeyAlreadyDeleted)
  end.

(** Random keys of the fence until one is free, at most [attempts] more. *)
Fixpoint generate_key (leaf_page : LeafPage P) (min max : Z) (attempts : nat) : TreeM (option Z) :=
  generated ← random_range min (max + 1);
  match find_key leaf_page generated with
  | None => mret (Some generated)
  | Some (_, r) =>
      if VersionInfo.is_deleted (version r) then mret (Some generated)
      else match attempts with
           | 0 => mret None
           | S attempts => generate_key leaf_page min max attempts
           end
  end.

Definition insert_rand_at_leaf (leaf : BlockRef) (k : Z) : TreeM Result :=
  leaf_page ← get_leaf leaf;
  let current_len := LeafPage.len leaf_page in
  version ← start_tx_commit me;
  update_leaf leaf (λ page, LeafPage.push_uncommitted NUM_RECORDS page
    (RecordPoint.new k (VersionInfo.new version) Payload_default) current_len);;
  update_leaf leaf (λ page, Some (LeafPage.commit_delta page 1 0));;
  end_tx_commit me version;;
  mret (InsertedRand k version).

Fixpoint insert_rand (fuel depth : nat) : TreeM Result :=
  match fuel with
  | 0 => panic
  | S fuel =>
      r ← traversal_write_rand_query FAN_OUT NUM_RECORDS me depth;
      let '(fence, leaf_guard) := r in
      leaf_page ← get_leaf (g_block leaf_guard);
      k ← generate_key leaf_page (lower fence) (upper fence) RAND_ATTEMPTS_MAX;
      match k with
      | None => insert_rand fuel depth
      | Some k => insert_rand_at_leaf (g_block leaf_guard) k
      end
  end.

(** ** [dispatch_crud] *)
Definition dispatch_crud (fuel : nat) (crud : CRUDOperation P) : TreeM Result :=
  match crud with
  | OpInsert k p =>
      leaf_guard ← traversal_write_olc FAN_OUT NUM_RECORDS me fuel k;
      insert_at_leaf (g_block leaf_guard) k p
  | OpUpdate k p =>
      leaf_guard ← traversal_write_olc FAN_OUT NUM_RECORDS me fuel k;
      update_at_leaf (g_block leaf_guard) k p
  | OpDelete k =>
      leaf_guard ← traversal_write_olc FAN_OUT NUM_RECORDS me fuel k;
      delete_at_leaf (g_block leaf_guard) k
  | OpRange range v =>
      if RANGE_DISPATCH_LAZY then
        it ← iter_new me v range;
        rs ← iter_collect fuel fuel it;
        mret (MatchedRecords rs)
      else
        on_acquire_reader_snapshot v;;
        root ← retrieve_root_for v;
        rs ← key_range_read_from_root fuel root range v;
        on_release_reader_snapshot v;;
        mret (MatchedRecords rs)
  | OpPoint k v =>
      on_acquire_reader_snapshot v;;
      root ← retrieve_root_for v;
      rs ← key_point_read_from_root fuel root k v;
      on_release_reader_snapshot v;;
      mret (MatchedRecords rs)
  | OpRangeIter range v => it ← iter_new me v range; mret (MatchedRecordIter it)
  | OpUpdateRand =>
      r ← traversal_write_rand_query FAN_OUT NUM_RECORDS me fuel;
      update_rand_at_leaf (g_block r.2)
  | OpDeleteRand =>
      r ← traversal_write_rand_query FAN_OUT NUM_RECORDS me fuel;
      delete_rand_at_leaf (g_block r.2)
  | OpInsertRand => insert_rand fuel fuel
  | _ => mret OpError
  end.
End dispatch.
