(* ===== verification/Transaction.v ===== *)
(** * Transactions

    [src/src/mv_tx_model/] and [src/src/mv_tx_query/]: a transaction is a snapshot
    and one operation ([AtomicTransaction]) or several ([Transaction]); the
    manager registers the snapshot of readers it hands to its pool, and runs on
    the calling thread what the exported interface of [src/src/lib.rs] asks for. *)
From S2P Require Import Prelude OrdMap Version Interval PageLen LeafPage InternalPage Node.
From S2P Require Import Clock Gc RootIndex RetryStats Tree Traversal Query Dispatch.

Record Transaction (P : Type) := mkTx {
  tx_snapshot : option SnapShot;
  tx_crud : list (CRUDOperation P);
}.
Arguments mkTx {_} _ _.
Arguments tx_snapshot {_} _.
Arguments tx_crud {_} _.

Record AtomicTransaction (P : Type) := mkAtomicTx {
  atomic_snapshot : option SnapShot;
  atomic_crud : CRUDOperation P;
}.
Arguments mkAtomicTx {_} _ _.
Arguments atomic_snapshot {_} _.
Arguments atomic_crud {_} _.

Section transaction.
Context {P : Type} (Payload_default : P).
Context {M : ∀ K, KeyOrder K → Type → Type} `{!OrdMap M}.
Context {R : Type} `{!RootStore R}.
Context (FAN_OUT NUM_RECORDS : nat) (me : Tid).
Local Abbreviation TreeM := (Comp (@TreeSt P M R)).
Local Abbreviation Result := (CRUDOperationResult P).
Local Abbreviation dispatch := (dispatch_crud Payload_default FAN_OUT NUM_RECORDS me).

Definition new_latest_si (crud : CRUDOperation P) : AtomicTransaction P := mkAtomicTx None crud.
Definition from_crud (crud : CRUDOperation P) : AtomicTransaction P := new_latest_si crud.
Definition into_transaction (self : AtomicTransaction P) : Transaction P :=
  mkTx (atomic_snapshot self) [atomic_crud self].
Definition try_into_atomic_transaction (self : Transaction P)
    : result (AtomicTransaction P) (Transaction P) :=
  match tx_crud self with
  | [crud] => Ok (mkAtomicTx (tx_snapshot self) crud)
  | _ => Err self
  end.
Definition tx_snapshot_or_max (self : Transaction P) : Version := default U64_MAX (tx_snapshot self).

(** The results: the snapshot and what the operations returned; an error keeps
    the rest of the transaction. *)
Definition TransactionResult : Type :=
  result (SnapShot * list Result) (Transaction P * list Result).
Definition AtomicTransactionResult : Type := result (SnapShot * Result) SnapShot.

Definition snapshot_from_atomic_tx_result (r : AtomicTransactionResult) : SnapShot :=
  match r with Ok (snapshot, _) => snapshot | Err snapshot => snapshot end.
Definition snapshot_from_tx_result (r : TransactionResult) : SnapShot :=
  match r with Ok (snapshot, _) => snapshot | Err (tx, _) => tx_snapshot_or_max tx end.

(** [IsolatedSnapShot::dispatch_crud]: the [Si] operations read at the snapshot. *)
Definition dispatch_isolated (fuel : nat) (snapshot : SnapShot) (operation : CRUDOperation P)
    : TreeM Result :=
  match operation with
  | OpPointSi k => dispatch fuel (OpPoint k snapshot)
  | OpRangeSi range => dispatch fuel (OpRange range snapshot)
  | OpRangeIterSi range => dispatch fuel (OpRangeIter range snapshot)
  | operation => dispatch fuel operation
  end.

(** The operations in order, up to the first that is an error. *)
Fixpoint dispatch_operations (fuel : nat) (snapshot : SnapShot) (si : option SnapShot)
    (cruds : list (CRUDOperation P)) (acc : list Result) : TreeM TransactionResult :=
  match cruds with
  | [] => mret (Ok (default U64_MAX si, acc))
  | crud :: cruds =>
      res ← dispatch_isolated fuel snapshot crud;
      if is_err res then mret (Err (mkTx si cruds, acc ++ [OpError]))
      else dispatch_operations fuel snapshot si cruds (acc ++ [res])
  end.
Definition dispatch_transaction (fuel : nat) (tx : Transaction P) : TreeM TransactionResult :=
  dispatch_operations fuel (tx_snapshot_or_max tx) (tx_snapshot tx) (tx_crud tx) [].

(** [unwrap_or(self.snapshot_current())] draws a snapshot in both cases. *)
Definition dispatch_atomic_transaction (fuel : nat) (tx : AtomicTransaction P)
    : TreeM AtomicTransactionResult :=
  now ← tree_version_for_reader me;
  let snapshot := default now (atomic_snapshot tx) in
  res ← dispatch_isolated fuel snapshot (atomic_crud tx);
  mret (if is_err res then Err snapshot else Ok (snapshot, res)).

(** ** The transaction manager *)
Inductive TransactionHolder :=
  | TxAtomic (tx : AtomicTransaction P)
  | TxMulti (tx : Transaction P).

Inductive TxExecutionResult :=
  | AtomicTxResult (r : AtomicTransactionResult)
  | TxResult (r : TransactionResult).

Definition holder_snapshot (self : TransactionHolder) : option SnapShot :=
  match self with TxAtomic tx => atomic_snapshot tx | TxMulti tx => tx_snapshot tx end.
Definition holder_is_read (self : TransactionHolder) : bool :=
  match self with
  | TxAtomic tx => bool_decide (is_Some (is_read (atomic_crud tx)))
  | TxMulti tx => forallb (λ crud, bool_decide (is_Some (is_read crud))) (tx_crud tx)
  end.
Definition tracked_snapshot (self : TransactionHolder) : option SnapShot :=
  if holder_is_read self then holder_snapshot self else None.
Definition set_snapshot (self : TransactionHolder) (si : option SnapShot) : TransactionHolder :=
  match self with
  | TxAtomic tx => TxAtomic (mkAtomicTx si (atomic_crud tx))
  | TxMulti tx => TxMulti (mkTx si (tx_crud tx))
  end.
Definition unwrap_atomic (r : TxExecutionResult) : option AtomicTransactionResult :=
  match r with AtomicTxResult r => Some r | TxResult _ => None end.
Definition unwrap_transaction (r : TxExecutionResult) : option TransactionResult :=
  match r with TxResult r => Some r | AtomicTxResult _ => None end.

Definition execute (fuel : nat) (self : TransactionHolder) : TreeM TxExecutionResult :=
  match self with
  | TxAtomic tx => r ← dispatch_atomic_transaction fuel tx; mret (AtomicTxResult r)
  | TxMulti tx => r ← dispatch_transaction fuel tx; mret (TxResult r)
  end.

Definition execute_on_caller_thread (fuel : nat) (tx : TransactionHolder)
    : TreeM TxExecutionResult := execute fuel tx.

Definition enq_bookkeeping (tx : TransactionHolder) : TreeM () :=
  match tracked_snapshot tx with
  | Some snapshot => on_acquire_reader_snapshot snapshot
  | None => mret ()
  end.
Definition deq_book_keeping (si : SnapShot) : TreeM () := on_release_reader_snapshot si.

(** What a worker of the pool runs. *)
Definition execute_tx_internal (fuel : nat) (tx : TransactionHolder) : TreeM TxExecutionResult :=
  let si := tracked_snapshot tx in
  r ← execute fuel tx;
  match si with Some si => deq_book_keeping si | None => mret () end;;
  mret r.
Definition execute_tx (fuel : nat) (tx : TransactionHolder) : TreeM TxExecutionResult :=
  enq_bookkeeping tx;; execute_tx_internal fuel tx.
Fixpoint execute_tx_non_reader_batch (fuel : nat) (txs : list TransactionHolder) : TreeM () :=
  match txs with
  | [] => mret ()
  | tx :: txs => execute_tx fuel tx;; execute_tx_non_reader_batch fuel txs
  end.

Definition manager_enable_gc : TreeM () := pass_aux_tx_tracker (Some tracker_new).
Definition manager_disable_gc : TreeM () := del_aux.
Definition manager_new (gc : bool) : TreeM () :=
  pass_aux_tx_tracker (if gc then Some tracker_new else None).

(** ** The exported interface: [MVBTreeWithGCApiExport] *)
Definition execute_atomic (fuel : nat) (tx : AtomicTransaction P)
    : TreeM AtomicTransactionResult :=
  r ← execute_on_caller_thread fuel (TxAtomic tx);
  lift (unwrap_atomic r).

Definition api_find (fuel : nat) (k : Z) : TreeM (option P) :=
  pin ← pinned_reader_snapshot me;
  let '(querying_v, pin) := pin in
  r ← execute_atomic fuel (mkAtomicTx (Some querying_v) (OpPoint k querying_v));
  drop_pin pin;;
  mret (match r with
        | Ok (_, MatchedRecords ((_, p) :: _)) => Some p
        | _ => None
        end).

Definition api_insert (fuel : nat) (k : Z) (p : P) : TreeM bool :=
  r ← execute_atomic fuel (from_crud (OpInsert k p));
  mret (match r with Ok (_, Inserted _) => true | _ => false end).

Definition api_update (fuel : nat) (k : Z) (p : P) : TreeM bool :=
  r ← execute_atomic fuel (from_crud (OpUpdate k p));
  mret (match r with Ok (_, Updated _) => true | _ => false end).

Definition api_remove (fuel : nat) (k : Z) : TreeM bool :=
  r ← execute_atomic fuel (from_crud (OpDelete k));
  mret (match r with Ok (_, Deleted _) => true | _ => false end).

(** [key_start + scan_sz as u64 - 1], in wrapping arithmetic; [None] is [-1]. *)
Definition api_scan (fuel : nat) (key_start scan_sz : Z) : TreeM (option (list (RecordPointResult P))) :=
  pin ← pinned_reader_snapshot me;
  let '(querying_v, pin) := pin in
  let key_end := u64_wrap (u64_wrap (key_start + u64_wrap scan_sz) - 1) in
  r ← execute_atomic fuel (mkAtomicTx (Some querying_v)
    (OpRange (Interval.new key_start key_end) querying_v));
  drop_pin pin;;
  mret (match r with Ok (_, MatchedRecords buff) => Some buff | _ => None end).
End transaction.
