(* ===== verification/Units.v ===== *)
(** * What a node holds for a key

    The unifying view of the two page kinds that the proofs about
    [src/src/mv_tree/smo.rs] use: the live records of a leaf and the active
    entries of an internal page are units, each with the interval of keys it
    answers for. Splits and merges only redistribute units. *)
From S2P Require Import Prelude Version Interval PageLen LeafPage InternalPage Node.

Definition Unit (P : Type) : Type := Interval * (P + BlockRef).

Section units.
Context {P : Type}.
Local Abbreviation Unit := (Unit P).
Implicit Types (u : Unit) (U : list Unit) (k : Z).

Definition hit k u : Prop := Interval.contains u.1 k = true.
#[global] Instance hit_dec k u : Decision (hit k u).
Proof. unfold hit. apply _. Defined.

(** The unit that answers for a key, and how many there are. *)
Definition pick k U : option Unit := head (filter (hit k) U).
Definition cover k U : nat := length (filter (hit k) U).

Definition rec_unit (r : RecordPoint P) : Unit := (mkInterval (key r) (key r), inl (payload r)).
Definition ent_unit (e : Entry) : Unit := (fence e, inr (ptr e)).
Definition rec_units (rs : list (RecordPoint P)) : list Unit := rec_unit <$> filter live rs.
Definition ent_units (es : list Entry) : list Unit := ent_unit <$> filter active es.

Lemma cover_app k U1 U2 : cover k (U1 ++ U2) = cover k U1 + cover k U2.
Proof. unfold cover. by rewrite filter_app length_app. Qed.

Lemma cover_cons k u U : cover k (u :: U) = (if decide (hit k u) then 1 else 0) + cover k U.
Proof. unfold cover. rewrite filter_cons. by case_decide. Qed.

Lemma cover_perm k U1 U2 : U1 ≡ₚ U2 → cover k U1 = cover k U2.
Proof. unfold cover. by intros ->. Qed.

Lemma cover_elem k u U : u ∈ U → hit k u → 1 ≤ cover k U.
Proof.
  intros Hu Hk. assert (u ∈ filter (hit k) U) as H by by apply list_elem_of_filter.
  unfold cover. destruct (filter (hit k) U); [by apply not_elem_of_nil in H|simpl; lia].
Qed.

Lemma cover_pos k U : 1 ≤ cover k U → ∃ u, u ∈ U ∧ hit k u.
Proof.
  unfold cover. destruct (filter (hit k) U) as [|u U'] eqn:E; simpl; [lia|]. intros _.
  assert (u ∈ filter (hit k) U) as [? ?]%list_elem_of_filter by (rewrite E; by left).
  by exists u.
Qed.

Lemma cover_zero k U : cover k U = 0 ↔ ∀ u, u ∈ U → ¬ hit k u.
Proof.
  split.
  - intros H u Hu Hk. pose proof (cover_elem _ _ _ Hu Hk). lia.
  - intros H. destruct (cover k U) eqn:E; [done|].
    destruct (cover_pos k U) as (u & Hu & Hk); [lia|]. by destruct (H u).
Qed.

(** Of two units for the same key there is only one. *)
Lemma cover_unique k U u u' :
  cover k U ≤ 1 → u ∈ U → u' ∈ U → hit k u → hit k u' → u = u'.
Proof.
  intros Hc Hu Hu' Hk Hk'.
  assert (u ∈ filter (hit k) U) as H by by apply list_elem_of_filter.
  assert (u' ∈ filter (hit k) U) as H' by by apply list_elem_of_filter.
  unfold cover in Hc. destruct (filter (hit k) U) as [|x [|y l]]; simpl in Hc; [|..|lia].
  - by apply not_elem_of_nil in H.
  - apply list_elem_of_singleton in H, H'. congruence.
Qed.

Lemma pick_perm k U1 U2 : cover k U1 ≤ 1 → U1 ≡ₚ U2 → pick k U1 = pick k U2.
Proof. apply head_filter_perm. Qed.

Lemma pick_app k U1 U2 :
  pick k (U1 ++ U2) = match pick k U1 with Some u => Some u | None => pick k U2 end.
Proof. apply head_filter_app. Qed.

Lemma pick_None k U : pick k U = None ↔ cover k U = 0.
Proof. unfold pick, cover. by destruct (filter (hit k) U). Qed.

Lemma pick_Some k U u : pick k U = Some u → hit k u ∧ u ∈ U.
Proof. apply head_filter_Some. Qed.

Lemma pick_elem k U u : cover k U ≤ 1 → u ∈ U → hit k u → pick k U = Some u.
Proof.
  intros Hc Hu Hk. destruct (pick k U) as [u'|] eqn:E.
  - apply pick_Some in E as [? ?]. f_equal. by eapply cover_unique.
  - apply pick_None in E. pose proof (cover_elem _ _ _ Hu Hk). lia.
Qed.

Lemma pick_app_l k U1 U2 : cover k U2 = 0 → pick k (U1 ++ U2) = pick k U1.
Proof. intros H%pick_None. rewrite pick_app H. by destruct (pick k U1). Qed.

Lemma pick_app_r k U1 U2 : cover k U1 = 0 → pick k (U1 ++ U2) = pick k U2.
Proof. intros H%pick_None. by rewrite pick_app H. Qed.

Lemma length_rec_units rs : length (rec_units rs) = n_live rs.
Proof. unfold rec_units. by rewrite length_fmap. Qed.
Lemma length_ent_units es : length (ent_units es) = n_active es.
Proof. unfold ent_units. by rewrite length_fmap. Qed.

Lemma rec_units_app rs1 rs2 : rec_units (rs1 ++ rs2) = rec_units rs1 ++ rec_units rs2.
Proof. unfold rec_units. by rewrite filter_app fmap_app. Qed.
Lemma ent_units_app es1 es2 : ent_units (es1 ++ es2) = ent_units es1 ++ ent_units es2.
Proof. unfold ent_units. by rewrite filter_app fmap_app. Qed.

#[global] Instance rec_units_proper : Proper ((≡ₚ) ==> (≡ₚ)) rec_units.
Proof. intros rs1 rs2 H. unfold rec_units. by rewrite H. Qed.
#[global] Instance ent_units_proper : Proper ((≡ₚ) ==> (≡ₚ)) ent_units.
Proof. intros es1 es2 H. unfold ent_units. by rewrite H. Qed.

Lemma filter_idemp {A} (Q : A → Prop) `{∀ x, Decision (Q x)} (l : list A) :
  Forall Q l → filter Q l = l.
Proof. induction 1; [done|]. rewrite filter_cons decide_True //. congruence. Qed.

Lemma Forall_filter_self {A} (Q : A → Prop) `{∀ x, Decision (Q x)} (l : list A) :
  Forall Q (filter Q l).
Proof. apply Forall_forall. by intros x [? _]%list_elem_of_filter. Qed.

Lemma rec_units_filter rs : rec_units (filter live rs) = rec_units rs.
Proof. unfold rec_units. rewrite filter_idemp //. apply Forall_filter_self. Qed.
Lemma ent_units_filter es : ent_units (filter active es) = ent_units es.
Proof. unfold ent_units. rewrite filter_idemp //. apply Forall_filter_self. Qed.

Lemma hit_rec k r : hit k (rec_unit r) ↔ key r = k.
Proof. unfold hit. rewrite contains_spec /=. lia. Qed.
Lemma hit_ent k e : hit k (ent_unit e) ↔ Interval.contains (fence e) k = true.
Proof. done. Qed.

Lemma elem_of_rec_units u rs :
  u ∈ rec_units rs ↔ ∃ r, u = rec_unit r ∧ live r ∧ r ∈ rs.
Proof.
  unfold rec_units. rewrite list_elem_of_fmap.
  split; intros (r & ? & H); exists r; [apply list_elem_of_filter in H; tauto|].
  by rewrite list_elem_of_filter.
Qed.
Lemma elem_of_ent_units u es :
  u ∈ ent_units es ↔ ∃ e, u = ent_unit e ∧ active e ∧ e ∈ es.
Proof.
  unfold ent_units. rewrite list_elem_of_fmap.
  split; intros (e & ? & H); exists e; [apply list_elem_of_filter in H; tauto|].
  by rewrite list_elem_of_filter.
Qed.

(** Marking the entry in slot [i] takes its unit away and nothing else. *)
Lemma ent_units_mark es i e :
  es !! i = Some e → active e →
  ent_units es ≡ₚ ent_unit e :: ent_units (<[i := mark e]> es).
Proof.
  intros Hi He. rewrite -{1}(take_drop_middle es i e) //.
  rewrite insert_take_drop; [|by eapply lookup_lt_Some].
  rewrite !ent_units_app {2}/ent_units {3}/ent_units !filter_cons decide_True //.
  rewrite decide_False; [|apply mark_not_active]. simpl. by rewrite -Permutation_middle.
Qed.

Lemma rec_units_kill rs i r d :
  rs !! i = Some r → live r →
  rec_units rs ≡ₚ rec_unit r :: rec_units (<[i := kill r d]> rs).
Proof.
  intros Hi He. rewrite -{1}(take_drop_middle rs i r) //.
  rewrite insert_take_drop; [|by eapply lookup_lt_Some].
  rewrite !rec_units_app {2}/rec_units {3}/rec_units !filter_cons decide_True //.
  rewrite decide_False; [|apply kill_not_live]. simpl. by rewrite -Permutation_middle.
Qed.
End units.
