(* ===== verification/NodeInv.v ===== *)
(** * The invariant of a node

    What holds of every reachable node of the tree, live or dead: a leaf has at
    most one live record of a key and it is the newest one of that key; the
    active entries of an internal page tile the node's range of keys, and the
    newest entry of every key of the range is active. Both give the lookups of
    [src/src/mv_query/query.rs] and [src/src/mv_query/olc_query.rs] their
    meaning. *)
From S2P Require Import Prelude OrdMap Version Interval PageLen LeafPage InternalPage Node.
From S2P Require Import Clock Gc RootIndex RetryStats Tree Traversal Query Units.

Section node_inv.
Context {P : Type} (F N : nat).
Implicit Types (r : RecordPoint P) (rs : list (RecordPoint P)) (e : Entry) (es : list Entry).

(** Both versions of a record are before the time [T]. *)
Definition ver_ok (T : Z) (vi : VersionInfo) : Prop :=
  (1 ≤ insert_version vi < T)%Z ∧
  match VersionInfo.deletion_version vi with Some d => (d < T)%Z | None => True end.

Record leaf_ok (T : Z) (I : Interval) rs : Prop := {
  lo_recs r : r ∈ rs → Interval.contains I (key r) = true ∧ ver_ok T (version r);
  lo_unique k : cover k (rec_units rs) ≤ 1;
  lo_newest r : r ∈ rs → live r →
    ∃ i r', rfind_idx (λ x, (key x =? key r)%Z) rs = Some i ∧ rs !! i = Some r' ∧ live r';
}.

Record index_ok (T : Z) (I : Interval) es : Prop := {
  io_ents e : e ∈ es → (1 ≤ TimeMatcher.into_cmp (ver e) < T)%Z ∧
    (lower (fence e) ≤ upper (fence e))%Z ∧ Interval.covers I (fence e) = true;
  io_tile k : cover (P:=P) k (ent_units es) = if Interval.contains I k then 1 else 0;
  io_newest k : Interval.contains I k = true →
    ∃ i e, rfind_idx (λ e, Interval.contains (fence e) k) es = Some i ∧
      es !! i = Some e ∧ active e;
  io_last : ∃ e, last es = Some e ∧ active e;
}.

(** ** Lookups in a leaf *)
Lemma skip_while_none {A} (f : A → bool) l : (∀ x, x ∈ l → f x = false) → skip_while f l = l.
Proof. destruct l as [|x l]; [done|]. intros H. simpl. rewrite H; [done|by left]. Qed.

Lemma live_matches T r v :
  ver_ok T (version r) → (T - 1 ≤ v)%Z →
  VersionInfo.matches (version r) v = true ↔ live r.
Proof.
  intros [Hi Hd] Hv. unfold live. destruct (VersionInfo.is_deleted (version r)) eqn:E.
  - split; [|done]. rewrite matches_visible. intros [_ Hm].
    unfold VersionInfo.is_deleted in E. unfold VersionInfo.deletion_version in *.
    destruct (DeletedVersion.get _); [lia|done].
  - rewrite matches_live // Z.leb_le. split; [done|lia].
Qed.

(** The answer of a unit to a read of the key. *)
Definition unit_result (k : Z) (o : option (Unit P)) : option (RecordPointResult P) :=
  match o with Some (_, inl p) => Some (k, p) | _ => None end.

Lemma read_record_ok T I rs k v :
  leaf_ok T I rs → (T - 1 ≤ v)%Z →
  RecordPoint.result_from <$> read_record rs k v = unit_result k (pick k (rec_units rs)).
Proof.
  intros Hok Hv. unfold read_record. rewrite skip_while_none.
  2:{ intros r Hr. rewrite elem_of_reverse in Hr. apply (lo_recs _ _ _ Hok) in Hr as [_ [Hi _]].
      apply Z.ltb_ge. unfold insertion_key, VersionInfo.insertion_version. lia. }
  destruct (head _) as [r|] eqn:E; simpl.
  - apply head_filter_Some in E as [Hq Hr]. rewrite elem_of_reverse in Hr.
    apply andb_true_iff in Hq as [Hk%Z.eqb_eq Hm].
    destruct (lo_recs _ _ _ Hok _ Hr) as [_ Hver].
    apply (live_matches _ _ _ Hver Hv) in Hm.
    rewrite (pick_elem _ _ (rec_unit r)); [by rewrite -Hk|apply (lo_unique _ _ _ Hok)| |by apply hit_rec].
    apply elem_of_rec_units. by exists r.
  - destruct (pick k (rec_units rs)) as [u|] eqn:Eu; [|done]. exfalso.
    apply pick_Some in Eu as [Hh Hu]. apply elem_of_rec_units in Hu as (r & -> & Hl & Hr).
    apply hit_rec in Hh. apply (proj1 (head_filter_None _ _) E r); [by apply elem_of_reverse|].
    apply andb_true_iff. split; [by apply Z.eqb_eq|].
    destruct (lo_recs _ _ _ Hok _ Hr) as [_ Hver]. by apply (live_matches _ _ _ Hver Hv).
Qed.

(** ** Lookups in an internal page *)
Lemma read_child_wf p es k v :
  int_wf F p es →
  read_child p k v =
    rfind_idx (λ e, TimeMatcher.matched (ver e) v && Interval.contains (fence e) k) es.
Proof.
  intros H. unfold read_child, InternalPage.keys_versions.
  by rewrite (int_wf_keys _ _ _ H) (int_wf_versions _ _ _ H) zip_fmap rfind_idx_fmap.
Qed.

Lemma active_child_wf p es k :
  int_wf F p es →
  active_child p k =
    rfind_idx (λ e, TimeMatcher.is_active (ver e) && Interval.contains (fence e) k) es.
Proof.
  intros H. unfold active_child, InternalPage.keys_versions.
  by rewrite (int_wf_keys _ _ _ H) (int_wf_versions _ _ _ H) zip_fmap rfind_idx_fmap.
Qed.

(** In the range of the node, the search by version with a recent version and
    the search for the active entry are the same, and find the unit. *)
Lemma child_ok T I p es k :
  int_wf F p es → index_ok T I es → Interval.contains I k = true →
  ∃ i e, active_child p k = Some i ∧ (∀ v, (T - 1 ≤ v)%Z → read_child p k v = Some i) ∧
    es !! i = Some e ∧ active e ∧ Interval.contains (fence e) k = true ∧
    pick (P:=P) k (ent_units es) = Some (ent_unit e) ∧
    InternalPage.get_pointer p i = Some (ptr e) ∧ InternalPage.get_key p i = Some (fence e).
Proof.
  intros Hwf Hok Hk. destruct (io_newest _ _ _ Hok _ Hk) as (i & e & Hf & Hi & He).
  pose proof Hf as [(e' & He' & Hc) _]%rfind_idx_Some. simplify_eq.
  pose proof (int_rep_get _ _ _ _ _ (proj1 Hwf) Hi) as (Hgk & _ & Hgp).
  exists i, e. split_and!; try done.
  - rewrite (active_child_wf _ _ _ Hwf).
    eapply rfind_idx_sub; [|exact Hf|done|by rewrite Hc He].
    intros y [_ ?]%andb_true_iff. done.
  - intros v Hv. rewrite (read_child_wf _ _ _ _ Hwf).
    eapply rfind_idx_sub; [|exact Hf|done|].
    { intros y [_ ?]%andb_true_iff. done. }
    rewrite Hc andb_true_r matched_into_cmp. apply Z.leb_le.
    apply list_elem_of_lookup_2 in Hi. apply (io_ents _ _ _ Hok) in Hi. lia.
  - apply pick_elem; [rewrite (io_tile _ _ _ Hok) Hk; lia| |done].
    apply elem_of_ent_units. exists e. split_and!; [done..|]. by eapply list_elem_of_lookup_2.
Qed.

(** An active entry is the one that is found for each of its keys. *)
Lemma active_found T I es i e k :
  index_ok T I es → es !! i = Some e → active e → Interval.contains (fence e) k = true →
  rfind_idx (λ e, Interval.contains (fence e) k) es = Some i.
Proof.
  intros Hok Hi He Hk.
  assert (Interval.contains I k = true) as HI.
  { pose proof (io_ents _ _ _ Hok e (list_elem_of_lookup_2 _ _ _ Hi)) as (_ & _ & Hc).
    by eapply covers_contains. }
  destruct (io_newest _ _ _ Hok _ HI) as (j & e' & Hf & Hj & He').
  pose proof Hf as [(e'' & He'' & Hc) _]%rfind_idx_Some. simplify_eq.
  destruct (decide (i = j)) as [->|Hne]; [done|]. exfalso.
  pose proof (io_tile _ _ _ Hok k) as Ht. rewrite HI in Ht.
  rewrite (cover_perm _ _ _ (ent_units_mark _ _ _ Hi He)) cover_cons decide_True // in Ht.
  assert (1 ≤ cover (P:=P) k (ent_units (<[i:=mark e]> es))); [|lia].
  apply (cover_elem _ (ent_unit e')); [|done]. apply elem_of_ent_units.
  exists e'. split_and!; [done..|]. apply (list_elem_of_lookup_2 _ j).
  by rewrite list_lookup_insert_ne.
Qed.
End node_inv.
