(* ===== verification/Store.v ===== *)
(** * The invariant of the heap, and what reads see of it

    Every block of the tree has a type: its height, the range of keys it answers
    for, and whether it lies below an internal page. The types of dead blocks
    stay, so a store typing only grows. Reads at a recent version follow the
    units of the nodes; reads at an older version see the same after every
    change that only adds what is newer. *)
From S2P Require Import Prelude OrdMap Version Interval PageLen LeafPage InternalPage Node.
From S2P Require Import Clock Gc RootIndex RetryStats Tree Traversal Query Units NodeInv.

Record Ty := mkTy { ty_depth : nat; ty_range : Interval; ty_inner : bool }.

Definition KEYS : Interval := Interval.new 0 U64_MAX.

Section store.
Context {P : Type} (F N : nat).
Local Abbreviation Heap := (gmap BlockRef (Node P)).
Implicit Types (h : Heap) (Γ : gmap BlockRef Ty) (T : Z) (n : Node P) (U : list (Unit P)).

Definition cap (d : nat) : nat := match d with 0 => N | S _ => F end.
Definition fill_20 (d : nat) : nat := (cap d + 4) / 5.

(** A node of height [d] for the keys [I] with the units [U] among its [t]
    slots. *)
Definition node_at T (d : nat) (I : Interval) n U (t : nat) : Prop :=
  match n, d with
  | Leaf p, 0 => ∃ rs, leaf_wf N p rs ∧ leaf_ok T I rs ∧ U = rec_units rs ∧ t = length rs
  | Index p, S _ => ∃ es, int_wf F p es ∧ index_ok (P:=P) T I es ∧ U = ent_units es ∧ t = length es
  | _, _ => False
  end.

Record node_ok Γ T (ty : Ty) n U (t : nat) : Prop := {
  no_at : node_at T (ty_depth ty) (ty_range ty) n U t;
  no_range : (0 ≤ lower (ty_range ty) ≤ upper (ty_range ty))%Z ∧
    (upper (ty_range ty) ≤ U64_MAX)%Z;
  no_fill : ty_inner ty = true → fill_20 (ty_depth ty) ≤ length U;
  no_ptrs I c : (I, inr c) ∈ U → ∃ d, ty_depth ty = S d ∧ Γ !! c = Some (mkTy d I true);
}.

Definition block_ok h Γ T (b : BlockRef) (ty : Ty) : Prop :=
  ∃ n U t, h !! b = Some n ∧ node_ok Γ T ty n U t.
Definition store_ok h Γ T : Prop := ∀ b ty, Γ !! b = Some ty → block_ok h Γ T b ty.

(** ** Degrees *)
Lemma node_at_counts T d I n U t : node_at T d I n U t → node_counts F N n (length U) t.
Proof.
  destruct n as [p|p], d as [|d]; simpl; try done.
  - intros (rs & Hwf & _ & -> & ->). rewrite length_rec_units. by constructor.
  - intros (es & Hwf & _ & -> & ->). rewrite length_ent_units. by constructor.
Qed.

Lemma node_at_leaf T d I n U t : node_at T d I n U t → Node.is_leaf n = bool_decide (d = 0).
Proof. by destruct n as [p|p], d as [|d]. Qed.

Lemma node_at_cap T d I n U t :
  node_at T d I n U t → max_units F N n = cap d ∧
    overflow_units_count F N n = (if decide (d = 0) then N else F - 1).
Proof. by destruct n as [p|p], d as [|d]. Qed.

(** The number of slots that make a node overflow. *)
Definition overflow_at (d : nat) : nat := match d with 0 => N | S _ => F - 1 end.

Lemma node_at_limits T d I n U t :
  node_at T d I n U t →
  filling_20_percent F N n = fill_20 d ∧ overflow_units_count F N n = overflow_at d.
Proof. by destruct n as [p|p], d as [|d]. Qed.

Lemma node_at_degree T d I n U t :
  node_at T d I n U t →
  unsafe_degree F N n = DegreeOk ↔ fill_20 d < length U ∧ t < overflow_at d.
Proof.
  intros H. rewrite (unsafe_degree_ok F N _ _ _ (node_at_counts _ _ _ _ _ _ H)).
  by destruct (node_at_limits _ _ _ _ _ _ H) as [-> ->].
Qed.

Lemma node_at_bound T d I n U t : node_at T d I n U t → length U ≤ t ≤ cap d.
Proof.
  destruct n as [p|p], d as [|d]; simpl; try done.
  - intros (rs & Hwf & _ & -> & ->). rewrite length_rec_units.
    pose proof (n_live_le rs). pose proof (leaf_wf_bound _ _ _ Hwf). lia.
  - intros (es & Hwf & _ & -> & ->). rewrite length_ent_units.
    pose proof (n_active_le es). pose proof (int_wf_bound _ _ _ Hwf). lia.
Qed.

Lemma ver_ok_mono T T' vi : (T ≤ T')%Z → ver_ok T vi → ver_ok T' vi.
Proof. intros HT [? ?]. split; [lia|]. destruct (VersionInfo.deletion_version vi); [lia|done]. Qed.

Lemma leaf_ok_mono T T' I (rs : list (RecordPoint P)) :
  (T ≤ T')%Z → leaf_ok T I rs → leaf_ok T' I rs.
Proof.
  intros HT [H1 H2 H3]. split; [|done..]. intros r Hr. apply H1 in Hr as [? ?].
  split; [done|]. by eapply ver_ok_mono.
Qed.

Lemma index_ok_mono T T' I es : (T ≤ T')%Z → index_ok (P:=P) T I es → index_ok (P:=P) T' I es.
Proof.
  intros HT [H1 H2 H3 H4]. split; [|done..]. intros e He. apply H1 in He as (? & ? & ?).
  split_and!; [lia..|done|done].
Qed.

Lemma node_at_mono T T' d I n U t : (T ≤ T')%Z → node_at T d I n U t → node_at T' d I n U t.
Proof.
  intros HT. destruct n as [p|p], d as [|d]; simpl; try done.
  - intros (rs & ? & Hl & ? & ?). exists rs. split_and!; [done| |done..].
    exact (leaf_ok_mono _ _ _ _ HT Hl).
  - intros (es & ? & Hl & ? & ?). exists es. split_and!; [done| |done..].
    exact (index_ok_mono _ _ _ _ HT Hl).
Qed.

Lemma node_ok_mono Γ Γ' T T' ty n U t :
  Γ ⊆ Γ' → (T ≤ T')%Z → node_ok Γ T ty n U t → node_ok Γ' T' ty n U t.
Proof.
  intros HΓ HT [H1 H2 H3 H4]. split; [by eapply node_at_mono|done..|].
  intros I c (d & ? & Hc)%H4. exists d. split; [done|]. by eapply lookup_weaken.
Qed.

Lemma block_ok_mono h h' Γ Γ' T T' b ty :
  Γ ⊆ Γ' → (T ≤ T')%Z → h' !! b = h !! b → block_ok h Γ T b ty → block_ok h' Γ' T' b ty.
Proof.
  intros HΓ HT Hb (n & U & t & Hn & Hok). exists n, U, t.
  split; [by rewrite Hb|]. by eapply node_ok_mono.
Qed.

(** ** Reading down from a block *)
Fixpoint read_from (fuel : nat) h (b : BlockRef) (k v : Z) : option (option (RecordPointResult P)) :=
  match fuel with
  | 0 => None
  | S fuel =>
      n ← h !! b;
      match n with
      | Leaf p => Some (RecordPoint.result_from <$> read_record (LeafPage.as_records p) k v)
      | Index p =>
          c ← read_child p k v ≫= InternalPage.get_pointer p;
          read_from fuel h c k v
      end
  end.

Lemma read_from_S fuel h b k v :
  read_from (S fuel) h b k v =
    match h !! b with
    | Some (Leaf p) => Some (RecordPoint.result_from <$> read_record (LeafPage.as_records p) k v)
    | Some (Index p) =>
        match (i ← read_child p k v; InternalPage.get_pointer p i) with
        | Some c => read_from fuel h c k v
        | None => None
        end
    | None => None
    end.
Proof. reflexivity. Qed.

Lemma read_leaf h Γ T b n I i U t k v fuel :
  h !! b = Some n → node_ok Γ T (mkTy 0 I i) n U t → (T - 1 ≤ v)%Z →
  read_from (S fuel) h b k v = Some (unit_result k (pick k U)).
Proof.
  intros Hb Hok Hv. rewrite read_from_S Hb.
  pose proof (no_at _ _ _ _ _ _ Hok) as Hat.
  destruct n as [p|p]; [|done]. simpl in Hat. destruct Hat as (rs & Hwf & Hl & -> & ->).
  by rewrite (leaf_wf_records _ _ _ Hwf) (read_record_ok _ _ _ _ _ Hl Hv).
Qed.

Lemma read_index h Γ T b n I i U t k v fuel d :
  h !! b = Some n → node_ok Γ T (mkTy (S d) I i) n U t → Interval.contains I k = true →
  ∃ J c p j, n = Index p ∧ active_child p k = Some j ∧ InternalPage.get_pointer p j = Some c ∧
    InternalPage.get_key p j = Some J ∧
    pick k U = Some (J, inr c) ∧ Interval.contains J k = true ∧ Γ !! c = Some (mkTy d J true) ∧
    ((T - 1 ≤ v)%Z → read_from (S fuel) h b k v = read_from fuel h c k v).
Proof.
  intros Hb Hok HI. pose proof (no_at _ _ _ _ _ _ Hok) as Hat.
  destruct n as [p|p]; [done|]. simpl in Hat. destruct Hat as (es & Hwf & Hl & -> & ->).
  destruct (child_ok (P:=P) _ _ _ _ _ _ Hwf Hl HI)
    as (j & e & Ha & Hr & Hj & He & Hc & Hp & Hg & Hk).
  exists (fence e), (ptr e), p, j. split_and!; try done.
  - apply pick_Some in Hp as [_ Hp].
    destruct (no_ptrs _ _ _ _ _ _ Hok _ _ Hp) as (d' & [= <-] & ?). done.
  - intros Hv. by rewrite read_from_S Hb Hr //= Hg.
Qed.

(** Recent versions all read the same, and the read succeeds. *)
Lemma read_current h Γ T b d I i k :
  store_ok h Γ T → Γ !! b = Some (mkTy d I i) → Interval.contains I k = true →
  ∃ r, ∀ v fuel, (T - 1 ≤ v)%Z → d < fuel → read_from fuel h b k v = Some r.
Proof.
  intros Hs. revert b I i. induction d as [|d IH]; intros b I i Hb HI.
  - destruct (Hs _ _ Hb) as (n & U & t & Hn & Hok). eexists. intros v [|fuel] Hv Hf; [lia|].
    by eapply read_leaf.
  - destruct (Hs _ _ Hb) as (n & U & t & Hn & Hok).
    destruct (read_index _ _ _ _ _ _ _ _ _ _ 0%Z 0 _ Hn Hok HI)
      as (J & c & p & j & -> & Ha & Hg & HJ & Hp & Hc & HΓ & _).
    destruct (IH _ _ _ HΓ Hc) as [r Hr]. exists r. intros v [|fuel] Hv Hf; [lia|].
    destruct (read_index _ _ _ _ _ _ _ _ _ _ v fuel _ Hn Hok HI)
      as (J' & c' & p' & j' & [= <-] & _ & _ & _ & Hp' & _ & _ & Hread).
    rewrite Hread //. rewrite Hp in Hp'. injection Hp' as <- <-. apply Hr; [done|lia].
Qed.

Lemma read_fuel h Γ T b d I i k v fuel :
  store_ok h Γ T → Γ !! b = Some (mkTy d I i) → Interval.contains I k = true →
  (T - 1 ≤ v)%Z → d < fuel → read_from fuel h b k v = read_from (S d) h b k v.
Proof.
  intros Hs Hb HI Hv Hf. destruct (read_current _ _ _ _ _ _ _ _ Hs Hb HI) as [r Hr].
  rewrite !Hr //. lia.
Qed.

(** Changing one block of the tree does not matter to reads elsewhere as long
    as the reads from that block stay the same. *)
Lemma read_replace h h' Γ T c k v :
  store_ok h Γ T → (T - 1 ≤ v)%Z →
  (∀ b ty, Γ !! b = Some ty → b ≠ c → h' !! b = h !! b) →
  (∀ d I i, Γ !! c = Some (mkTy d I i) → Interval.contains I k = true →
    read_from (S d) h' c k v = read_from (S d) h c k v) →
  ∀ d b I i, Γ !! b = Some (mkTy d I i) → Interval.contains I k = true →
    read_from (S d) h' b k v = read_from (S d) h b k v.
Proof.
  intros Hs Hv Hne Hc d. induction d as [|d IH]; intros b I i Hb HI.
  - destruct (decide (b = c)) as [->|Hbc]; [by eapply Hc|].
    by rewrite !read_from_S (Hne _ _ Hb Hbc).
  - destruct (decide (b = c)) as [->|Hbc]; [by eapply Hc|].
    destruct (Hs _ _ Hb) as (n & U & t & Hn & Hok).
    destruct (read_index _ _ _ _ _ _ _ _ _ _ v (S d) _ Hn Hok HI)
      as (J & c' & p & j & -> & Ha & Hg & HJ & Hp & HcJ & HΓ & Hread).
    rewrite Hread //.
    assert (h' !! b = Some (Index p)) as Hn' by by rewrite (Hne _ _ Hb Hbc).
    destruct (read_index h' _ _ _ _ _ _ _ _ _ v (S d) _ Hn' Hok HI)
      as (J' & c'' & p' & j' & [= <-] & _ & _ & _ & Hp' & _ & _ & Hread').
    rewrite Hread' //. rewrite Hp in Hp'. injection Hp' as <- <-. by eapply IH.
Qed.

(** Blocks of the same height as [c] or lower, other than [c], do not reach it. *)
Lemma read_below h h' Γ T c k v dc :
  store_ok h Γ T → (T - 1 ≤ v)%Z → (∃ I i, Γ !! c = Some (mkTy dc I i)) →
  (∀ b ty, Γ !! b = Some ty → b ≠ c → h' !! b = h !! b) →
  ∀ d b I i, Γ !! b = Some (mkTy d I i) → Interval.contains I k = true → d < dc →
    read_from (S d) h' b k v = read_from (S d) h b k v.
Proof.
  intros Hs Hv (Ic & ic & Hc) Hne d. induction d as [|d IH]; intros b I i Hb HI Hd.
  - rewrite !read_from_S (Hne _ _ Hb) //. intros ->. simplify_eq. lia.
  - assert (h' !! b = h !! b) as Hbb by (apply (Hne _ _ Hb); intros ->; simplify_eq; lia).
    destruct (Hs _ _ Hb) as (n & U & t & Hn & Hok).
    destruct (read_index _ _ _ _ _ _ _ _ _ _ v (S d) _ Hn Hok HI)
      as (J & c' & p & j & -> & Ha & Hg & HJ & Hp & HcJ & HΓ & Hread).
    rewrite Hread //. rewrite -Hbb in Hn.
    destruct (read_index h' _ _ _ _ _ _ _ _ _ v (S d) _ Hn Hok HI)
      as (J' & c'' & p' & j' & [= <-] & _ & _ & _ & Hp' & _ & _ & Hread').
    rewrite Hread' //. rewrite Hp in Hp'. injection Hp' as <- <-. eapply IH; [done..|lia].
Qed.

(** ** What older versions see *)
Definition node_ext (v : Z) n n' : Prop :=
  match n, n' with
  | Leaf p, Leaf p' => ∀ k u, (u ≤ v)%Z →
      RecordPoint.result_from <$> read_record (LeafPage.as_records p') k u =
      RecordPoint.result_from <$> read_record (LeafPage.as_records p) k u
  | Index p, Index p' => ∀ k u, (u ≤ v)%Z →
      read_child p' k u ≫= InternalPage.get_pointer p' =
      read_child p k u ≫= InternalPage.get_pointer p
  | _, _ => False
  end.
Definition heap_ext (v : Z) h h' : Prop :=
  ∀ b n, h !! b = Some n → ∃ n', h' !! b = Some n' ∧ node_ext v n n'.

#[global] Instance node_ext_preorder v : PreOrder (node_ext v).
Proof.
  split.
  - by intros [p|p].
  - intros [p|p] [p'|p'] [p''|p'']; simpl; try contradiction;
      intros H1 H2 k u Hu; (etransitivity; [exact (H2 k u Hu)|exact (H1 k u Hu)]).
Qed.
#[global] Instance heap_ext_preorder v : PreOrder (heap_ext v).
Proof.
  split.
  - intros h b n Hn. by exists n.
  - intros h1 h2 h3 H1 H2 b n (n2 & Hn2 & He)%H1. destruct (H2 _ _ Hn2) as (n3 & Hn3 & He').
    exists n3. split; [done|]. by etrans.
Qed.

Lemma heap_ext_sub v h h' : h ⊆ h' → heap_ext v h h'.
Proof. intros Hs b n Hn. exists n. split; [by eapply lookup_weaken|done]. Qed.

Lemma heap_ext_insert v h b n n' :
  h !! b = Some n → node_ext v n n' → heap_ext v h (<[b := n']> h).
Proof.
  intros Hb He b' m Hm. destruct (decide (b = b')) as [<-|Hne].
  - simplify_eq. exists n'. by rewrite lookup_insert_eq.
  - exists m. by rewrite lookup_insert_ne.
Qed.

Lemma read_ext v h h' u b k fuel r :
  heap_ext v h h' → (u ≤ v)%Z →
  read_from fuel h b k u = Some r → read_from fuel h' b k u = Some r.
Proof.
  intros Hh Hu. revert b. induction fuel as [|fuel IH]; intros b; [done|].
  rewrite !read_from_S. destruct (h !! b) as [n|] eqn:Hn; [|done].
  destruct (Hh _ _ Hn) as (n' & -> & He).
  destruct n as [p|p], n' as [p'|p']; simpl in He; try contradiction; [by rewrite (He k u Hu)|].
 
  rewrite (He k u Hu). destruct (read_child p k u ≫= _); [apply IH|done].
Qed.

(** ** The path a key takes *)
Inductive path h (k : Z) : nat → BlockRef → nat → BlockRef → Prop :=
  | path_here d b : path h k d b d b
  | path_down d b d' b' c p j :
      path h k d b (S d') b' → h !! b' = Some (Index p) →
      active_child p k = Some j → InternalPage.get_pointer p j = Some c →
      path h k d b d' c.

Lemma path_typed h Γ T k d b d' b' I i :
  store_ok h Γ T → path h k d b d' b' → Γ !! b = Some (mkTy d I i) →
  Interval.contains I k = true →
  ∃ I' i', Γ !! b' = Some (mkTy d' I' i') ∧ Interval.contains I' k = true ∧ d' ≤ d ∧
    (d' < d → i' = true) ∧ (d' = d → b' = b).
Proof.
  intros Hs Hp Hb HI. induction Hp as [d b|d b d' b' c p j Hp IH Hn Ha Hg].
  { exists I, i. split_and!; try done. lia. }
  destruct (IH Hb) as (I' & i' & Hb' & HI' & Hd & _ & _).
  destruct (Hs _ _ Hb') as (n & U & t & Hn' & Hok). rewrite Hn in Hn'. injection Hn' as <-.
  destruct (read_index _ _ _ _ _ _ _ _ _ _ 0%Z 0 _ Hn Hok HI')
    as (J & c' & p' & j' & [= <-] & Ha' & Hg' & _ & _ & HcJ & HΓ & _).
  simplify_eq. exists J, true. split_and!; try done; lia.
Qed.

Lemma path_read h Γ T k v d b d' b' I i :
  store_ok h Γ T → path h k d b d' b' → Γ !! b = Some (mkTy d I i) →
  Interval.contains I k = true → (T - 1 ≤ v)%Z →
  read_from (S d) h b k v = read_from (S d') h b' k v.
Proof.
  intros Hs Hp Hb HI Hv. induction Hp as [d b|d b d' b' c p j Hp IH Hn Ha Hg]; [done|].
  rewrite IH //. destruct (path_typed _ _ _ _ _ _ _ _ _ _ Hs Hp Hb HI)
    as (I' & i' & Hb' & HI' & _).
  destruct (Hs _ _ Hb') as (n & U & t & Hn' & Hok). rewrite Hn in Hn'. injection Hn' as <-.
  destruct (read_index _ _ _ _ _ _ _ _ _ _ v (S d') _ Hn Hok HI')
    as (J & c' & p' & j' & [= <-] & Ha' & Hg' & _ & _ & HcJ & HΓ & Hr).
  simplify_eq. by apply Hr.
Qed.

(** The path to a block only depends on the blocks above it. *)
Lemma path_frame h h' Γ T k d b d' b' I i :
  store_ok h Γ T → path h k d b d' b' → Γ !! b = Some (mkTy d I i) →
  Interval.contains I k = true →
  (∀ c ty, Γ !! c = Some ty → d' < ty_depth ty → h' !! c = h !! c) →
  path h' k d b d' b'.
Proof.
  intros Hs Hp Hb HI Hh. induction Hp as [d b|d b d' b' c p j Hp IH Hn Ha Hg]; [constructor|].
  destruct (path_typed _ _ _ _ _ _ _ _ _ _ Hs Hp Hb HI) as (I' & i' & Hb' & _).
  apply (path_down h' k d b d' b' c p j); [|rewrite (Hh _ _ Hb') //=; lia|done|done].
  apply IH; [done|]. intros c' ty Hc' Hd. eapply Hh; [done|lia].
Qed.
(** What a typed index block is. *)
Lemma typed_index h Γ T c d Ic ic :
  store_ok h Γ T → Γ !! c = Some (mkTy (S d) Ic ic) →
  ∃ p es, h !! c = Some (Index p) ∧ int_wf F p es ∧ index_ok (P:=P) T Ic es ∧
    (ic = true → fill_20 (S d) ≤ n_active es) ∧
    (∀ e, e ∈ es → active e → Γ !! ptr e = Some (mkTy d (fence e) true)).
Proof.
  intros Hs Hc. destruct (Hs _ _ Hc) as (n & U & t & Hn & Hok).
  pose proof (no_at _ _ _ _ _ _ Hok) as Hat. destruct n as [p|p]; [done|].
  destruct Hat as (es & Hwf & Hio & -> & ->). exists p, es. split_and!; try done.
  - intros Hic. rewrite -(length_ent_units (P:=P)). by apply (no_fill _ _ _ _ _ _ Hok).
  - intros e He Ha. destruct (no_ptrs _ _ _ _ _ _ Hok (fence e) (ptr e)) as (d' & [= <-] & ?); [|done].
    apply elem_of_ent_units. by exists e.
Qed.

Lemma typed_leaf h Γ T c Ic ic :
  store_ok h Γ T → Γ !! c = Some (mkTy 0 Ic ic) →
  ∃ p rs, h !! c = Some (Leaf p) ∧ leaf_wf N p rs ∧ leaf_ok T Ic rs ∧
    (ic = true → fill_20 0 ≤ n_live rs).
Proof.
  intros Hs Hc. destruct (Hs _ _ Hc) as (n & U & t & Hn & Hok).
  pose proof (no_at _ _ _ _ _ _ Hok) as Hat. destruct n as [p|p]; [|done].
  destruct Hat as (rs & Hwf & Hio & -> & ->). exists p, rs. split_and!; try done.
  intros Hic. rewrite -length_rec_units. by apply (no_fill _ _ _ _ _ _ Hok).
Qed.

Lemma typed_range h Γ T c ty :
  store_ok h Γ T → Γ !! c = Some ty →
  (0 ≤ lower (ty_range ty) ≤ upper (ty_range ty))%Z ∧ (upper (ty_range ty) ≤ U64_MAX)%Z.
Proof. intros Hs Hc. destruct (Hs _ _ Hc) as (n & U & t & _ & Hok). apply (no_range _ _ _ _ _ _ Hok). Qed.
End store.
