(* ===== verification/TreeInv.v ===== *)
(** * The invariant of the tree

    A tree state represents a history: for every version and key the payload
    a read at that version returns. The history is total from the first
    version on, it covers the versions that are still to come, and every step
    of a writer either keeps it or changes it from one version on. *)
From S2P Require Import Prelude OrdMap Version Interval PageLen LeafPage InternalPage Node.
From S2P Require Import Clock Gc RootIndex RetryStats Tree Traversal Query Units NodeInv Store.

#[local] Set Default Proof Using "Type*".

(** What a read at a version finds: version, then key. *)
Definition History (P : Type) : Type := Z → Z → option P.

Section tree_inv.
Context {P : Type}.
Context {M : ∀ K, KeyOrder K → Type → Type} `{!OrdMap M}.
Context {R : Type} `{!RootStore R, !RootStoreLaws R}.
Context (F N : nat).
Local Abbreviation St := (@TreeSt P M R).
Implicit Types (s : St) (Γ : gmap BlockRef Ty) (H : History P) (x : Root) (T : Z).

Definition now s : Z := clock_time (clock s).

(** ** The roots *)
Definition roots_ok (r : R) Γ (D : nat) T x : Prop :=
  (∃ rts, rs_ok r rts ∧ last rts = Some x ∧
    (∀ y, y ∈ rts → (root_version y ≤ Z.max 1 (T - 1))%Z) ∧
    (∃ y, y ∈ rts ∧ (root_version y ≤ 1)%Z)) ∧
  Γ !! block x = Some (mkTy D KEYS false).

Lemma roots_current r Γ D T x v :
  roots_ok r Γ D T x → (1 ≤ v)%Z → (T - 1 ≤ v)%Z → rs_for r v = Some x.
Proof.
  intros [(rts & Hr & Hl & Hv & y & Hy & Hy1) _] H1 HT.
  rewrite (rs_for_ok _ _ _ Hr); [|exists y; split; [done|lia]].
  rewrite filter_idemp //. apply Forall_forall. intros z Hz%Hv. lia.
Qed.

Lemma roots_guard r Γ D T x : roots_ok r Γ D T x → rs_guard_block r = Some (block x).
Proof. intros [(rts & Hr & Hl & _) _]. by rewrite (rs_guard_ok _ _ Hr) Hl. Qed.

Lemma roots_height r Γ D T x : roots_ok r Γ D T x → ∃ ht, rs_height r = Some ht.
Proof. intros [(rts & Hr & _) _]. destruct (rs_height_ok _ _ Hr) as [ht Hh]. by exists ht. Qed.

Lemma roots_mono r Γ Γ' D T T' x :
  Γ ⊆ Γ' → (T ≤ T')%Z → roots_ok r Γ D T x → roots_ok r Γ' D T' x.
Proof.
  intros HΓ HT [(rts & Hr & Hl & Hv & Hy) Hx]. split; [|by eapply lookup_weaken].
  exists rts. split_and!; [done..| |done]. intros y Hy'%Hv. lia.
Qed.

Lemma roots_append r Γ Γ' D D' T b ht x :
  roots_ok r Γ D T x → (2 ≤ T)%Z → Γ' !! b = Some (mkTy D' KEYS false) →
  ∃ r', rs_append r (mkRoot b T ht) = Some (true, r') ∧
    roots_ok r' Γ' D' (T + 1) (mkRoot b T ht) ∧
    ∀ v, (1 ≤ v < T)%Z → rs_for r' v = rs_for r v.
Proof.
  intros [(rts & Hr & Hl & Hv & y & Hy & Hy1) Hx] HT Hb.
  destruct (rs_append_ok _ _ (mkRoot b T ht) Hr) as (r' & Ha & Hr').
  { intros z Hz%Hv. simpl. lia. }
  exists r'. split_and!; [done| |].
  - split; [|done]. exists (rts ++ [mkRoot b T ht]). split_and!; [done| |..].
    + by rewrite last_snoc.
    + intros z [Hz%Hv| ->%list_elem_of_singleton]%elem_of_app; simpl; lia.
    + exists y. split; [by apply elem_of_app; left|done].
  - intros v Hv'.
    rewrite (rs_for_ok _ _ _ Hr'); [|exists y; split; [by apply elem_of_app; left|lia]].
    rewrite (rs_for_ok _ _ _ Hr); [|exists y; split; [done|lia]].
    rewrite filter_app filter_cons decide_False /=; [|lia].
    by rewrite filter_nil app_nil_r.
Qed.

(** ** The invariant *)
Definition snapshot_read s (fuel : nat) (v k : Z) : option (option (RecordPointResult P)) :=
  x ← rs_for (root s) v; read_from fuel (heap s) (block x) k v.

Definition fresh_ok s : Prop := ∀ b n, heap s !! b = Some n → b < next_block s.

Record Inv s Γ (D : nat) x H : Prop := {
  inv_tracker : tracker s = None;
  inv_fresh : fresh_ok s;
  inv_store : store_ok F N (heap s) Γ (now s);
  inv_time : (1 ≤ now s < 2 ^ 63)%Z;
  inv_roots : roots_ok (root s) Γ D (now s) x;
  inv_depth : (Z.of_nat (S D) ≤ now s)%Z;
  inv_hist v k fuel : (1 ≤ v)%Z → Interval.contains KEYS k = true →
    Z.to_nat (now s) ≤ fuel →
    snapshot_read s fuel v k = Some ((λ p, (k, p)) <$> H v k);
}.

(** The root reads the history at every recent version. *)
Lemma inv_current s Γ D x H v k :
  Inv s Γ D x H → (1 ≤ v)%Z → (now s - 1 ≤ v)%Z → Interval.contains KEYS k = true →
  read_from (S D) (heap s) (block x) k v = Some ((λ p, (k, p)) <$> H v k).
Proof.
  intros HI H1 Hv Hk. rewrite -(inv_hist _ _ _ _ _ HI v k (Z.to_nat (now s))) //.
  unfold snapshot_read. rewrite (roots_current _ _ _ _ _ _ (inv_roots _ _ _ _ _ HI) H1 Hv) /=.
  pose proof (inv_depth _ _ _ _ _ HI).
  symmetry. eapply read_fuel; [apply HI|apply (inv_roots _ _ _ _ _ HI)|done|done|lia].
Qed.

(** All recent versions of the history are the same. *)
Lemma inv_recent s Γ D x H v v' k :
  Inv s Γ D x H → (1 ≤ v)%Z → (1 ≤ v')%Z → (now s - 1 ≤ v)%Z → (now s - 1 ≤ v')%Z →
  Interval.contains KEYS k = true → H v k = H v' k.
Proof.
  intros HI H1 H1' Hv Hv' Hk.
  destruct (read_current _ _ _ _ _ _ _ _ _ _ (inv_store _ _ _ _ _ HI)
    (proj2 (inv_roots _ _ _ _ _ HI)) Hk) as [r Hr].
  pose proof (inv_current _ _ _ _ _ _ _ HI H1 Hv Hk) as E.
  pose proof (inv_current _ _ _ _ _ _ _ HI H1' Hv' Hk) as E'.
  rewrite Hr in E; [|done|lia]. rewrite Hr in E'; [|done|lia].
  destruct (H v k), (H v' k); simpl in *; congruence.
Qed.

(** One commit: the clock moves by one, what was written before is still read
    at the older versions, and the new root reads the new history. *)
Lemma Inv_step s s' Γ Γ' D D' x x' H H' :
  Inv s Γ D x H →
  tracker s' = None → fresh_ok s' → now s' = (now s + 1)%Z → (now s + 1 < 2 ^ 63)%Z →
  store_ok F N (heap s') Γ' (now s') →
  heap_ext (now s - 1) (heap s) (heap s') →
  roots_ok (root s') Γ' D' (now s') x' →
  (∀ v, (1 ≤ v < now s)%Z → rs_for (root s') v = rs_for (root s) v) →
  D' ≤ S D →
  (∀ v k, (v < now s)%Z → H' v k = H v k) →
  (∀ v k, (now s ≤ v)%Z → Interval.contains KEYS k = true →
    read_from (S D') (heap s') (block x') k v = Some ((λ p, (k, p)) <$> H' v k)) →
  Inv s' Γ' D' x' H'.
Proof.
  intros HI Ht Hf Hnow Hlt Hs Hext Hr Hfor HD Hold Hnew.
  pose proof (inv_time _ _ _ _ _ HI) as Htime. pose proof (inv_depth _ _ _ _ _ HI) as Hdepth.
  split; try done; [lia|lia|]. intros v k fuel H1 Hk Hfuel. unfold snapshot_read.
  destruct (decide (v < now s)%Z) as [Hv|Hv].
  - rewrite Hfor; [|lia]. rewrite Hold //.
    pose proof (inv_hist _ _ _ _ _ HI v k fuel H1 Hk ltac:(lia)) as Hh.
    unfold snapshot_read in Hh. destruct (rs_for (root s) v) as [y|]; [|done]. simpl in *.
    eapply read_ext; [exact Hext|lia|done].
  - rewrite (roots_current _ _ _ _ _ _ Hr H1); [|lia]. simpl.
    rewrite -Hnew //; [|lia]. eapply read_fuel; [exact Hs|apply Hr|done|lia|lia].
Qed.

(** A commit that leaves every read at a recent version as it is keeps the
    history. *)
Lemma Inv_quiet s s' Γ Γ' D D' x x' H :
  Inv s Γ D x H →
  tracker s' = None → fresh_ok s' → now s' = (now s + 1)%Z → (now s + 1 < 2 ^ 63)%Z →
  store_ok F N (heap s') Γ' (now s') →
  heap_ext (now s - 1) (heap s) (heap s') →
  roots_ok (root s') Γ' D' (now s') x' →
  (∀ v, (1 ≤ v < now s)%Z → rs_for (root s') v = rs_for (root s) v) →
  D' ≤ S D →
  (∀ v k, (now s ≤ v)%Z → Interval.contains KEYS k = true →
    read_from (S D') (heap s') (block x') k v = read_from (S D) (heap s) (block x) k v) →
  Inv s' Γ' D' x' H.
Proof.
  intros HI ? ? ? ? ? ? ? ? ? Hnew. eapply Inv_step; try done.
  pose proof (inv_time _ _ _ _ _ HI). intros v k Hv Hk.
  rewrite Hnew //. eapply inv_current; [done|lia..|done].
Qed.
(** The outcomes of latch operations do not matter to the invariant. *)
Lemma Inv_latches s Γ D x H l : Inv s Γ D x H → Inv (with_latches l s) Γ D x H.
Proof. by intros [H1 H2 H3 H4 H5 H6 H7]. Qed.
Lemma Inv_retries s Γ D x H c : Inv s Γ D x H → Inv (with_retries c s) Γ D x H.
Proof. by intros [H1 H2 H3 H4 H5 H6 H7]. Qed.
Lemma Inv_clock s c Γ D x H :
  Inv s Γ D x H → clock_time c = now s → Inv (with_clock c s) Γ D x H.
Proof.
  intros [H1 H2 H3 H4 H5 H6 H7] Hc. assert (now (with_clock c s) = now s) as Hn by done.
  split; rewrite ?Hn; done.
Qed.
End tree_inv.
