(* ===== verification/Alloc.v ===== *)
(** * Fresh blocks, and filling them

    What the allocation of [src/src/mv_block/block_handle.rs] and the writes to
    a block do to the state, as rules for [wp], when no tracker is installed:
    every block is a new one, so that whatever is built in fresh blocks leaves
    the blocks of the tree alone. *)
From S2P Require Import Prelude OrdMap Version Interval PageLen LeafPage InternalPage Node.
From S2P Require Import Clock Gc RootIndex RetryStats Tree Traversal Query Units NodeInv Store TreeInv.

#[local] Set Default Proof Using "Type*".

Section alloc.
Context {P : Type}.
Context {M : ∀ K, KeyOrder K → Type → Type} `{!OrdMap M}.
Context {R : Type} `{!RootStore R}.
Local Abbreviation St := (@TreeSt P M R).
Implicit Types (s : St) (b : BlockRef).

(** Everything but the heap and the allocator. *)
Record same_env s s' : Prop := {
  se_root : root s' = root s;
  se_clock : clock s' = clock s;
  se_tracker : tracker s' = tracker s;
  se_in_place : update_in_place s' = update_in_place s;
  se_latches : latches s' = latches s;
}.

#[global] Instance same_env_preorder : PreOrder same_env.
Proof. split; [by intros s|]. intros s1 s2 s3 [] []. split; congruence. Qed.

(** Only fresh blocks were added or written. *)
Record grown s s' : Prop := {
  gr_env : same_env s s';
  gr_next : next_block s ≤ next_block s';
  gr_heap b : b < next_block s → heap s' !! b = heap s !! b;
  gr_fresh : fresh_ok s';
}.

Lemma grown_refl s : fresh_ok s → grown s s.
Proof. by split. Qed.

Lemma grown_trans s1 s2 s3 : grown s1 s2 → grown s2 s3 → grown s1 s3.
Proof.
  intros [E1 N1 H1 F1] [E2 N2 H2 F2]. split; [by etrans|lia| |done].
  intros b Hb. rewrite H2; [by apply H1|lia].
Qed.

Lemma grown_write s0 s b n :
  grown s0 s → next_block s0 ≤ b < next_block s → grown s0 (with_heap <[b := n]> s).
Proof.
  intros [E HN Hh Hf] Hb. split; [|done| |].
  - destruct E. by split.
  - intros b' Hb'. simpl. rewrite lookup_insert_ne; [by apply Hh|lia].
  - intros b' n'. simpl. rewrite lookup_insert_Some. intros [[<- _]|[_ Hl]]; [lia|by eapply Hf].
Qed.

Lemma grown_lookup s s' b n :
  grown s s' → fresh_ok s → heap s !! b = Some n → heap s' !! b = Some n.
Proof. intros Hg Hf Hb. rewrite (gr_heap _ _ Hg) //. by eapply Hf. Qed.

Lemma wp_alloc s (leaf : bool) (Q : BlockRef → St → Prop) :
  tracker s = None → fresh_ok s →
  (∀ s', grown s s' → next_block s' = S (next_block s) →
    heap s' !! next_block s = Some (if leaf then Node.new_leaf else Node.new_internal) →
    Q (next_block s) s') →
  wp (alloc_block leaf) s Q.
Proof.
  intros Ht Hf HQ. unfold alloc_block, try_free_block. wp_steps. rewrite Ht. wp_steps.
  apply HQ; simpl; [|done|by rewrite lookup_insert_eq]. split; simpl.
  - by split.
  - lia.
  - intros b Hb. by rewrite lookup_insert_ne; [|lia].
  - intros b n. simpl. rewrite lookup_insert_Some. intros [[<- _]|[_ Hl]]; [lia|].
    apply Hf in Hl. lia.
Qed.

Lemma wp_read_block s b n (Q : Node P → St → Prop) :
  heap s !! b = Some n → Q n s → wp (read_block b) s Q.
Proof. intros Hb HQ. unfold read_block. wp_steps. by eapply wp_lift. Qed.

Lemma wp_get_leaf s b p (Q : LeafPage P → St → Prop) :
  heap s !! b = Some (Leaf p) → Q p s → wp (get_leaf b) s Q.
Proof. intros Hb HQ. apply wp_bind. eapply wp_read_block; [done|]. by eapply wp_lift. Qed.

Lemma wp_get_internal s b p (Q : InternalPage → St → Prop) :
  heap s !! b = Some (Index p) → Q p s → wp (get_internal b) s Q.
Proof. intros Hb HQ. apply wp_bind. eapply wp_read_block; [done|]. by eapply wp_lift. Qed.

Lemma wp_update_leaf s b p p' f (Q : () → St → Prop) :
  heap s !! b = Some (Leaf p) → f p = Some p' → Q () (with_heap <[b := Leaf p']> s) →
  wp (update_leaf b f) s Q.
Proof.
  intros Hb Hf HQ. apply wp_bind. eapply wp_get_leaf; [done|].
  apply wp_bind. eapply wp_lift; [done|]. by apply wp_modify.
Qed.

Lemma wp_update_internal s b p p' f (Q : () → St → Prop) :
  heap s !! b = Some (Index p) → f p = Some p' → Q () (with_heap <[b := Index p']> s) →
  wp (update_internal b f) s Q.
Proof.
  intros Hb Hf HQ. apply wp_bind. eapply wp_get_internal; [done|].
  apply wp_bind. eapply wp_lift; [done|]. by apply wp_modify.
Qed.

Lemma wp_start_tx me s (Q : Version → St → Prop) :
  (now s + 1 < 2 ^ 63)%Z → (1 ≤ now s)%Z →
  (∀ c, clock_time c = (now s + 1)%Z → Q (now s) (with_clock c s)) →
  wp (start_tx_commit me) s Q.
Proof.
  intros Hlt H1 HQ. unfold start_tx_commit. wp_steps. simpl. wp_steps. apply HQ. simpl.
  unfold now in *. unfold u64_wrap. rewrite Z.mod_small; [done|lia].
Qed.

Lemma wp_end_tx me s v (Q : () → St → Prop) :
  (∀ c, clock_time c = now s → Q () (with_clock c s)) → wp (end_tx_commit me v) s Q.
Proof. intros HQ. unfold end_tx_commit. wp_steps. by apply HQ. Qed.

(** A latch operation reads the next outcome, if there is one left to read. *)
Lemma wp_latch s (Q : bool → St → Prop) :
  (∀ o l, length l ≤ length (latches s) → (o = false → length l < length (latches s)) →
    Q o (with_latches l s)) → wp latch_outcome s Q.
Proof.
  intros HQ. unfold latch_outcome. wp_steps. destruct (latches s) as [|o l] eqn:E.
  - apply wp_ret. specialize (HQ true [] (le_n _) ltac:(done)).
    destruct s as [h b r c t i rc ac la rt rg]. simpl in E. by subst la.
  - wp_steps. apply HQ; simpl; [lia|]. intros _. lia.
Qed.

Lemma with_latches_same s : with_latches (latches s) s = s.
Proof. by destruct s. Qed.

Lemma wp_upgrade s g (Q : bool * Guard → St → Prop) :
  (∀ o w l, length l ≤ length (latches s) → (o = false → length l < length (latches s)) →
    Q (o, mkGuard (g_block g) w) (with_latches l s)) →
  wp (upgrade_write_lock g) s Q.
Proof.
  intros HQ. unfold upgrade_write_lock. destruct g as [b [|]]; cbn [g_writer].
  - apply wp_ret. specialize (HQ true true (latches s) (le_n _) ltac:(done)).
    by rewrite with_latches_same in HQ.
  - apply wp_bind, wp_latch. intros o l Hl Hf. by apply wp_ret, HQ.
Qed.

Lemma wp_is_still_live s g (Q : bool → St → Prop) :
  (∀ o l, length l ≤ length (latches s) → (o = false → length l < length (latches s)) →
    Q o (with_latches l s)) →
  wp (is_still_live g) s Q.
Proof.
  intros HQ. unfold is_still_live. destruct (g_writer g); [|by apply wp_latch].
  apply wp_ret. specialize (HQ true (latches s) (le_n _) ltac:(done)).
  by rewrite with_latches_same in HQ.
Qed.

(** Without a tracker the dead are not registered. *)
Lemma wp_register_dead s v b (Q : () → St → Prop) :
  tracker s = None → Q () (with_tracker None s) → wp (register_dead v b) s Q.
Proof. intros Ht HQ. unfold register_dead. apply wp_modify. by rewrite Ht. Qed.
Lemma wp_register_dead_col s l (Q : () → St → Prop) :
  tracker s = None → Q () (with_tracker None s) → wp (register_dead_col l) s Q.
Proof. intros Ht HQ. unfold register_dead_col. apply wp_modify. by rewrite Ht. Qed.
End alloc.
