(* ===== verification/Smo.v ===== *)
(** * Splits and merges keep what the nodes hold

    [src/src/mv_tree/smo.rs]: what a split or a merge puts into the fresh
    nodes. The units of the old nodes are dealt out over the new ones, each new
    node answers for its share of the old ranges, and is neither too full nor
    too empty. *)
From Stdlib Require Import ZifyNat.
From S2P Require Import Prelude OrdMap Version Interval PageLen LeafPage InternalPage Node.
From S2P Require Import Clock Gc RootIndex RetryStats Tree Traversal Query Units NodeInv Store TreeInv Alloc.

#[local] Set Default Proof Using "Type*".
Ltac Zify.zify_post_hook ::= Z.to_euclidean_division_equations.

(** ** Fresh nodes: everything in them is alive *)
Section fresh.
Context {P : Type}.
Implicit Types (rs : list (RecordPoint P)) (es : list Entry) (T : Z) (I : Interval).

Lemma leaf_ok_fresh T I rs :
  Forall live rs →
  (∀ r, r ∈ rs → Interval.contains I (key r) = true ∧ ver_ok T (version r)) →
  (∀ k, cover k (rec_units rs) ≤ 1) → leaf_ok T I rs.
Proof.
  intros Hl Hr Hc. split; [done..|]. intros r Hin _.
  destruct (rfind_idx (λ x, (key x =? key r)%Z) rs) as [i|] eqn:E.
  - pose proof E as [(r' & Hr' & _) _]%rfind_idx_Some. exists i, r'.
    split_and!; [done..|]. rewrite Forall_lookup in Hl. by eapply Hl.
  - apply rfind_idx_None with (x:=r) in E; [|done]. by rewrite Z.eqb_refl in E.
Qed.

Lemma index_ok_fresh T I es :
  Forall active es → (lower I ≤ upper I)%Z →
  (∀ e, e ∈ es → (1 ≤ TimeMatcher.into_cmp (ver e) < T)%Z ∧
    (lower (fence e) ≤ upper (fence e))%Z ∧ Interval.covers I (fence e) = true) →
  (∀ k, cover (P:=P) k (ent_units es) = if Interval.contains I k then 1 else 0) →
  index_ok (P:=P) T I es.
Proof.
  intros Ha HI He Ht. split; [done..| |].
  - intros k Hk. destruct (rfind_idx (λ e, Interval.contains (fence e) k) es) as [i|] eqn:E.
    + pose proof E as [(e & Hi & _) _]%rfind_idx_Some. exists i, e.
      split_and!; [done..|]. rewrite Forall_lookup in Ha. by eapply Ha.
    + exfalso. specialize (Ht k). rewrite Hk in Ht.
      destruct (cover_pos (P:=P) k (ent_units es)) as (u & Hu & Hh); [lia|].
      apply elem_of_ent_units in Hu as (e & -> & _ & Hin).
      apply (proj1 (rfind_idx_None _ _) E) in Hin. rewrite hit_ent in Hh. congruence.
  - destruct (last es) as [e|] eqn:E.
    + exists e. split; [done|]. rewrite Forall_forall in Ha. apply Ha.
      apply last_Some in E as [l ->]. apply elem_of_app. right. by left.
    + apply last_None in E as ->. specialize (Ht (lower I)).
      assert (Interval.contains I (lower I) = true) as Hc by (apply contains_spec; lia).
      rewrite Hc in Ht. done.
Qed.

(** ** Dealing units out at a pivot *)
Lemma pivot_split {A} (uf : A → Unit P) (lo : A → Z) I (L1 L2 : list A) x :
  (∀ y, lo y = lower (uf y).1) →
  StronglySorted (key_le lo) (L1 ++ x :: L2) →
  (∀ y, y ∈ L1 ++ x :: L2 →
    (lower (uf y).1 ≤ upper (uf y).1)%Z ∧ Interval.covers I (uf y).1 = true) →
  (∀ k, cover k (uf <$> (L1 ++ x :: L2)) ≤ 1) →
  L1 ≠ [] → (0 ≤ lower I)%Z →
  (lower I < lo x ≤ upper I)%Z ∧ dec_key (lo x) = (lo x - 1)%Z ∧
  (∀ y, y ∈ L1 → Interval.covers (Interval.new (lower I) (lo x - 1)) (uf y).1 = true) ∧
  (∀ y, y ∈ x :: L2 → Interval.covers (Interval.new (lo x) (upper I)) (uf y).1 = true).
Proof.
  intros Hlo Hs Hy Hc Hne H0.
  assert (∀ y, y ∈ L1 → (upper (uf y).1 < lo x)%Z) as Hbelow.
  { intros y Hin. assert (lo y ≤ lo x)%Z as Hle.
    { apply (StronglySorted_app_1_elem_of (key_le lo) L1 (x :: L2) y x Hs); [done|by left]. }
    destruct (decide (upper (uf y).1 < lo x)%Z) as [|Hge]; [done|]. exfalso.
    specialize (Hc (lo x)). rewrite fmap_app cover_app in Hc.
    assert (1 ≤ cover (lo x) (uf <$> L1)).
    { apply (cover_elem _ (uf y)); [by apply list_elem_of_fmap_2|].
      apply contains_spec. rewrite -Hlo. lia. }
    assert (1 ≤ cover (lo x) (uf <$> x :: L2)); [|lia].
    apply (cover_elem _ (uf x)); [by left|]. apply contains_spec.
    destruct (Hy x) as [Hx _]; [apply elem_of_app; right; by left|]. rewrite Hlo. lia. }
  assert (∀ y, y ∈ x :: L2 → (lo x ≤ lower (uf y).1)%Z) as Habove.
  { intros y [->|Hin]%elem_of_cons; [by rewrite Hlo|].
    apply StronglySorted_app_1_r in Hs. apply StronglySorted_inv in Hs as [_ Hs].
    rewrite Forall_forall in Hs. rewrite -Hlo. by apply Hs. }
  assert (lower I < lo x)%Z.
  { destruct L1 as [|y L1]; [done|]. assert (y ∈ y :: L1) as Hin by by left.
    specialize (Hbelow y Hin). destruct (Hy y) as [? Hcov]; [apply elem_of_app; by left|].
    apply covers_spec in Hcov. lia. }
  assert (lo x ≤ upper I)%Z.
  { destruct (Hy x) as [? Hcov]; [apply elem_of_app; right; by left|].
    apply covers_spec in Hcov. rewrite Hlo. lia. }
  split_and!; [done..| | |].
  - unfold dec_key. rewrite (proj2 (Z.leb_le _ _)) //. lia.
  - intros y Hin. apply covers_spec. simpl. specialize (Hbelow y Hin).
    destruct (Hy y) as [_ Hcov]; [apply elem_of_app; by left|]. apply covers_spec in Hcov. lia.
  - intros y Hin. apply covers_spec. simpl. specialize (Habove y Hin).
    destruct (Hy y) as [_ Hcov]; [apply elem_of_app; by right|]. apply covers_spec in Hcov. lia.
Qed.

(** The units on both sides of a pivot tile both parts of a tiled range. *)
Lemma pivot_tile (U1 U2 : list (Unit P)) I (p : Z) :
  (lower I < p ≤ upper I)%Z →
  (∀ k, cover k (U1 ++ U2) = if Interval.contains I k then 1 else 0) →
  (∀ u, u ∈ U1 → Interval.covers (Interval.new (lower I) (p - 1)) u.1 = true) →
  (∀ u, u ∈ U2 → Interval.covers (Interval.new p (upper I)) u.1 = true) →
  (∀ k, cover k U1 = if Interval.contains (Interval.new (lower I) (p - 1)) k then 1 else 0) ∧
  (∀ k, cover k U2 = if Interval.contains (Interval.new p (upper I)) k then 1 else 0).
Proof.
  intros Hp Ht H1 H2.
  assert (∀ k, (k < p)%Z → cover k U2 = 0) as Z2.
  { intros k Hk. apply cover_zero. intros u Hu Hh. apply H2, covers_spec in Hu.
    apply contains_spec in Hh. simpl in *. lia. }
  assert (∀ k, (p ≤ k)%Z → cover k U1 = 0) as Z1.
  { intros k Hk. apply cover_zero. intros u Hu Hh. apply H1, covers_spec in Hu.
    apply contains_spec in Hh. simpl in *. lia. }
  assert (∀ I' k, Interval.contains I' k = bool_decide (lower I' ≤ k ≤ upper I')%Z) as Hcb.
  { intros I' k. case_bool_decide; [by apply contains_spec|by apply contains_false]. }
  split; intros k; specialize (Ht k); rewrite cover_app in Ht; rewrite !Hcb in Ht |- *; simpl;
    destruct (decide (k < p)%Z) as [Hk|Hk];
    [rewrite Z2 // in Ht|rewrite Z1 //; [|lia]|rewrite Z2 //|rewrite Z1 // in Ht; [|lia]];
    repeat case_bool_decide; lia.
Qed.
End fresh.

Lemma halves {A} (L : list A) :
  2 ≤ length L → ∃ L1 x L2, L = L1 ++ x :: L2 ∧ length L1 = length L / 2 ∧
    take (length L / 2) L = L1 ∧ drop (length L / 2) L = x :: L2 ∧ L1 ≠ [].
Proof.
  intros HL. destruct (lookup_lt_is_Some_2 L (length L / 2)) as [x Hx]; [lia|].
  exists (take (length L / 2) L), x, (drop (S (length L / 2)) L). split_and!; try done.
  - by rewrite take_drop_middle.
  - rewrite length_take. lia.
  - by rewrite (drop_S _ _ _ Hx).
  - intros E%(f_equal length). rewrite length_take length_nil in E. lia.
Qed.

(** ** Filling fresh nodes *)
Section smo.
Context {P : Type}.
Context {M : ∀ K, KeyOrder K → Type → Type} `{!OrdMap M}.
Context {R : Type} `{!RootStore R}.
Context (F N : nat).
Context (HF : 8 ≤ F) (HN : 8 ≤ N) (HF16 : (Z.of_nat F < 2 ^ 16)%Z) (HN16 : (Z.of_nat N < 2 ^ 16)%Z).
Local Abbreviation St := (@TreeSt P M R).
Implicit Types (s : St) (b : BlockRef) (T : Z) (I : Interval) (U : list (Unit P)).
Implicit Types (rs : list (RecordPoint P)) (es : list Entry).

(** Live records, resp. active entries, that may be together in a node. *)
Definition live_ok T I rs : Prop :=
  Forall live rs ∧
  (∀ r, r ∈ rs → Interval.contains I (key r) = true ∧ ver_ok T (version r)) ∧
  (∀ k, cover k (rec_units rs) ≤ 1).
Definition active_ok T I es : Prop :=
  Forall active es ∧
  (∀ e, e ∈ es → (1 ≤ TimeMatcher.into_cmp (ver e) < T)%Z ∧
    (lower (fence e) ≤ upper (fence e))%Z ∧ Interval.covers I (fence e) = true) ∧
  (∀ k, cover (P:=P) k (ent_units es) = if Interval.contains I k then 1 else 0).

Lemma live_ok_perm T I rs rs' : rs ≡ₚ rs' → live_ok T I rs → live_ok T I rs'.
Proof using Type.
  intros Hp (Hl & Hr & Hc). split_and!.
  - by rewrite -Hp.
  - intros r. rewrite -Hp. apply Hr.
  - intros k. by rewrite -(cover_perm _ _ _ (rec_units_proper _ _ Hp)).
Qed.
Lemma active_ok_perm T I es es' : es ≡ₚ es' → active_ok T I es → active_ok T I es'.
Proof using Type.
  intros Hp (Hl & Hr & Hc). split_and!.
  - by rewrite -Hp.
  - intros r. rewrite -Hp. apply Hr.
  - intros k. by rewrite -(cover_perm _ _ _ (ent_units_proper _ _ Hp)).
Qed.

Lemma fill_leaf T I rs :
  live_ok T I rs → length rs ≤ N →
  ∃ p, LeafPage.bulk_push N LeafPage.new rs = Some p ∧
    node_at F N T 0 I (Leaf p) (rec_units rs) (length (rec_units rs)).
Proof.
  intros (Hl & Hr & Hc) Hle.
  destruct (leaf_bulk_push N LeafPage.new rs) as (p & Hp & Hwf); [by apply leaf_new_wf|done..|].
  exists p. split; [done|]. exists rs. split_and!; [done| |done|].
  - by apply leaf_ok_fresh.
  - by rewrite length_rec_units n_live_all.
Qed.

Lemma fill_index T d I es :
  active_ok T I es → (lower I ≤ upper I)%Z → length es ≤ F →
  ∃ p, InternalPage.bulk_push F InternalPage.new (triple <$> es) = Some p ∧
    node_at (P:=P) F N T (S d) I (Index p) (ent_units es) (length (ent_units (P:=P) es)).
Proof.
  intros (Hl & Hr & Hc) HI Hle.
  destruct (int_bulk_push F InternalPage.new es) as (p & Hp & Hwf); [by apply int_new_wf|done..|].
  exists p. split; [done|]. exists es. split_and!; [done| |done|].
  - by apply index_ok_fresh.
  - by rewrite length_ent_units n_active_all.
Qed.

(** The live part of an old node. *)
Lemma node_live T I p U t :
  node_at F N T 0 I (Leaf p) U t →
  live_ok T I (filter live (LeafPage.as_records p)) ∧
  rec_units (filter live (LeafPage.as_records p)) = U ∧
  length (filter live (LeafPage.as_records p)) = length U.
Proof using Type.
  intros (rs & Hwf & Hok & -> & _). rewrite (leaf_wf_records _ _ _ Hwf) rec_units_filter.
  split_and!; [|done|by rewrite length_rec_units]. split_and!.
  - apply Forall_filter_self.
  - intros r [_ Hr]%list_elem_of_filter. by apply (lo_recs _ _ _ Hok).
  - intros k. rewrite rec_units_filter. apply (lo_unique _ _ _ Hok).
Qed.

Lemma page_entries_wf p es : int_wf F p es → page_entries p = triple <$> es.
Proof using Type.
  intros H. unfold page_entries, zip_entries, InternalPage.keys_versions_pointers.
  rewrite (int_wf_keys _ _ _ H) (int_wf_versions _ _ _ H) (int_wf_children _ _ _ H).
  by rewrite !zip_fmap.
Qed.

Lemma node_active T d I p U t :
  node_at F N T (S d) I (Index p) U t →
  ∃ es, filter entry_active (page_entries p) = triple <$> es ∧ active_ok T I es ∧
    ent_units es = U ∧ length es = length U.
Proof using Type.
  intros (es & Hwf & Hok & -> & _). exists (filter active es).
  rewrite (page_entries_wf _ _ Hwf) ent_units_filter. split_and!; [|split_and!|done|by rewrite length_ent_units].
  - by apply filter_fmap_ext.
  - apply Forall_filter_self.
  - intros e [_ He]%list_elem_of_filter. by apply (io_ents _ _ _ Hok).
  - intros k. rewrite ent_units_filter. apply (io_tile _ _ _ Hok).
Qed.

(** ** The two halves of a split by key *)
Definition key_split T (d : nat) I U s s' (sp : BlockSplit) : Prop :=
  ∃ pv l r nl nr Ul Ur,
    sp = ByKey (Interval.new (lower I) (pv - 1)) l (Interval.new pv (upper I)) r ∧
    grown s s' ∧ l ≠ r ∧ next_block s ≤ l < next_block s' ∧ next_block s ≤ r < next_block s' ∧
    heap s' !! l = Some nl ∧ heap s' !! r = Some nr ∧
    node_at F N T d (Interval.new (lower I) (pv - 1)) nl Ul (length Ul) ∧
    node_at F N T d (Interval.new pv (upper I)) nr Ur (length Ur) ∧
    Ul ++ Ur ≡ₚ U ∧ length Ul = length U / 2 ∧ (lower I < pv ≤ upper I)%Z.

Lemma key_split_perm T d I U U' s s' sp :
  U ≡ₚ U' → key_split T d I U s s' sp → key_split T d I U' s s' sp.
Proof using Type.
  clear HF HN HF16 HN16.
  intros HU (pv & l & r & nl & nr & Ul & Ur & Hsp & Hg & Hlr & Hl & Hr & El & Er & Al & Ar &
    HP & Hlen & Hpv).
  exists pv, l, r, nl, nr, Ul, Ur. rewrite HU in HP. rewrite HU in Hlen.
  split_and!; try done; lia.
Qed.

Lemma wp_fill_leaves T I L L1 x L2 s0 s l r (Q : BlockSplit → St → Prop) :
  L = L1 ++ x :: L2 → length L1 = length L / 2 → L1 ≠ [] → length L ≤ 2 * N - 1 →
  live_ok T I L → StronglySorted (key_le key) L → (0 ≤ lower I)%Z →
  grown s0 s → l ≠ r → next_block s0 ≤ l < next_block s → next_block s0 ≤ r < next_block s →
  heap s !! l = Some Node.new_leaf → heap s !! r = Some Node.new_leaf →
  (∀ sp s', key_split T 0 I (rec_units L) s0 s' sp → Q sp s') →
  wp (update_leaf l (λ p, LeafPage.bulk_push N p (sort_by_key insertion_key L1));;
      update_leaf r (λ p, LeafPage.bulk_push N p (sort_by_key insertion_key (x :: L2)));;
      mret (ByKey (Interval.new (lower I) (dec_key (key x))) l
                  (Interval.new (key x) (upper I)) r)) s Q.
Proof.
  intros -> Hlen Hne HleN (Hl & Hr & Hc) Hs H0 Hg Hlr Hbl Hbr El Er HQ.
  destruct (pivot_split rec_unit key I L1 L2 x) as (Hx & Hdec & H1 & H2); try done.
  { intros y Hy. split; [simpl; lia|]. apply Hr in Hy as [Hy _]. apply contains_spec in Hy.
    by apply covers_spec. }
  { intros k. specialize (Hc k). unfold rec_units in Hc. by rewrite filter_idemp in Hc. }
  rewrite length_app length_cons in Hlen, HleN. rewrite rec_units_app in Hc.
  pose proof (proj1 (Forall_app _ _ _) Hl) as [Hl1 Hl2].
  assert (live_ok T (Interval.new (lower I) (key x - 1)) L1) as Hok1.
  { split_and!; [done|..].
    - intros y Hy. split; [|by apply Hr, elem_of_app; left].
      eapply covers_contains; [by apply H1|]. apply contains_spec. simpl. lia.
    - intros k. specialize (Hc k). rewrite cover_app in Hc. lia. }
  assert (live_ok T (Interval.new (key x) (upper I)) (x :: L2)) as Hok2.
  { split_and!; [done|..].
    - intros y Hy. split; [|by apply Hr, elem_of_app; right].
      eapply covers_contains; [by apply H2|]. apply contains_spec. simpl. lia.
    - intros k. specialize (Hc k). rewrite cover_app in Hc. lia. }
  pose proof (sort_by_key_perm insertion_key L1) as P1.
  pose proof (sort_by_key_perm insertion_key (x :: L2)) as P2.
  destruct (fill_leaf T _ _ (live_ok_perm _ _ _ _ (symmetry P1) Hok1)) as (pl & Hpl & Hnl).
  { rewrite length_sort_by_key. lia. }
  destruct (fill_leaf T _ _ (live_ok_perm _ _ _ _ (symmetry P2) Hok2)) as (pr & Hpr & Hnr).
  { rewrite length_sort_by_key /=. lia. }
  apply wp_bind. eapply wp_update_leaf; [done..|].
  apply wp_bind. eapply wp_update_leaf; [by rewrite /= lookup_insert_ne|done|].
  apply wp_ret, HQ. rewrite Hdec.
  exists (key x), l, r, (Leaf pl), (Leaf pr), (rec_units (sort_by_key insertion_key L1)),
    (rec_units (sort_by_key insertion_key (x :: L2))).
  split_and!; [done|by apply grown_write; [apply grown_write|]|done|apply Hbl|apply Hbl|
    apply Hbr|apply Hbr| | |exact Hnl|exact Hnr| | |lia|lia].
  - by rewrite /= lookup_insert_ne // lookup_insert_eq.
  - by rewrite /= lookup_insert_eq.
  - by rewrite P1 P2 -rec_units_app.
  - by rewrite P1 !length_rec_units n_live_app !n_live_all // -length_app.
Qed.

Definition e_lower (e : Entry) : Z := lower (fence e).

Lemma wp_fill_indexes T d I L L1 x L2 s0 s l r (Q : BlockSplit → St → Prop) :
  L = L1 ++ x :: L2 → length L1 = length L / 2 → L1 ≠ [] → length L ≤ 2 * F - 1 →
  active_ok T I L → StronglySorted (key_le e_lower) L → (0 ≤ lower I)%Z →
  grown s0 s → l ≠ r → next_block s0 ≤ l < next_block s → next_block s0 ≤ r < next_block s →
  heap s !! l = Some Node.new_internal → heap s !! r = Some Node.new_internal →
  (∀ sp s', key_split T (S d) I (ent_units L) s0 s' sp → Q sp s') →
  wp (update_internal l (λ p,
        InternalPage.bulk_push F p (sort_by_key entry_version (triple <$> L1)));;
      update_internal r (λ p,
        InternalPage.bulk_push F p (sort_by_key entry_version (triple <$> x :: L2)));;
      mret (ByKey (Interval.new (lower I) (dec_key (e_lower x))) l
                  (Interval.new (e_lower x) (upper I)) r)) s Q.
Proof.
  intros -> Hlen Hne HleF (Hl & Hr & Hc) Hs H0 Hg Hlr Hbl Hbr El Er HQ.
  assert ((ent_unit <$> L1 ++ x :: L2) = ent_units (P:=P) (L1 ++ x :: L2)) as Hu.
  { unfold ent_units. by rewrite filter_idemp. }
  destruct (pivot_split (P:=P) ent_unit e_lower I L1 L2 x) as (Hx & Hdec & H1 & H2); try done.
  { intros y Hy. by apply Hr in Hy as [_ Hy]. }
  { intros k. rewrite Hu Hc. case_match; lia. }
  rewrite length_app length_cons in Hlen, HleF.
  pose proof (proj1 (Forall_app _ _ _) Hl) as [Hl1 Hl2]. rewrite ent_units_app in Hc.
  destruct (pivot_tile _ _ I (e_lower x) Hx Hc) as [Hc1 Hc2].
  { intros u (e & -> & _ & He)%elem_of_ent_units. by apply H1. }
  { intros u (e & -> & _ & He)%elem_of_ent_units. by apply H2. }
  assert (active_ok T (Interval.new (lower I) (e_lower x - 1)) L1) as Hok1.
  { split_and!; [done|..|exact Hc1]. intros y Hy.
    destruct (Hr y) as (? & ? & _); [by apply elem_of_app; left|]. split_and!; [lia..|by apply H1]. }
  assert (active_ok T (Interval.new (e_lower x) (upper I)) (x :: L2)) as Hok2.
  { split_and!; [done|..|exact Hc2]. intros y Hy.
    destruct (Hr y) as (? & ? & _); [by apply elem_of_app; right|]. split_and!; [lia..|by apply H2]. }
  pose proof (sort_by_key_perm ver L1) as P1.
  pose proof (sort_by_key_perm ver (x :: L2)) as P2.
  destruct (fill_index T d _ _ (active_ok_perm _ _ _ _ (symmetry P1) Hok1)) as (pl & Hpl & Hnl).
  { simpl. lia. }
  { rewrite length_sort_by_key. lia. }
  destruct (fill_index T d _ _ (active_ok_perm _ _ _ _ (symmetry P2) Hok2)) as (pr & Hpr & Hnr).
  { simpl. lia. }
  { rewrite length_sort_by_key length_cons. lia. }
  rewrite !sort_by_key_fmap.
  apply wp_bind. eapply wp_update_internal; [done..|].
  apply wp_bind. eapply wp_update_internal; [by rewrite /= lookup_insert_ne|done|].
  apply wp_ret, HQ. rewrite Hdec.
  exists (e_lower x), l, r, (Index pl), (Index pr), (ent_units (sort_by_key ver L1)),
    (ent_units (sort_by_key ver (x :: L2))).
  split_and!; [done|by apply grown_write; [apply grown_write|]|done|apply Hbl|apply Hbl|
    apply Hbr|apply Hbr| | |exact Hnl|exact Hnr| | |lia|lia].
  - by rewrite /= lookup_insert_ne // lookup_insert_eq.
  - by rewrite /= lookup_insert_eq.
  - by rewrite P1 P2 -ent_units_app.
  - by rewrite P1 !length_ent_units n_active_app !n_active_all // -length_app.
Qed.

(** ** Splitting by key *)
Lemma wp_split_leaf_by_key T I U t s b n (Q : BlockSplit → St → Prop) :
  tracker s = None → fresh_ok s → (0 ≤ lower I)%Z →
  heap s !! b = Some n → node_at F N T 0 I n U t → 2 ≤ length U →
  (∀ sp s', key_split T 0 I U s s' sp → Q sp s') →
  wp (split_leaf_by_key N b I) s Q.
Proof.
  intros Ht Hf H0 Hb Hn H2 HQ. destruct n as [p|]; [|done].
  pose proof (node_at_bound _ _ _ _ _ _ _ _ Hn) as HUt. simpl in HUt.
  destruct (node_live _ _ _ _ _ Hn) as (Hok & HU & Hlen).
  unfold split_leaf_by_key. apply wp_bind, wp_alloc; [done..|]. intros s1 G1 N1 E1.
  apply wp_bind, wp_alloc; [by rewrite (se_tracker _ _ (gr_env _ _ G1))|apply G1|].
  intros s2 G2 N2 E2. pose proof (grown_trans _ _ _ G1 G2) as G.
  apply wp_bind. eapply wp_get_leaf; [by eapply grown_lookup|].
  set (L := sort_by_key key (filter not_deleted (LeafPage.as_records p))).
  assert (L ≡ₚ filter live (LeafPage.as_records p)) as HL by apply sort_by_key_perm.
  destruct (halves L) as (L1 & x & L2 & HLs & Hl1 & -> & -> & Hne); [rewrite HL; lia|].
  apply wp_bind. eapply wp_lift; [done|]. cbn beta iota zeta.
  eapply (wp_fill_leaves T I L); try done.
  - rewrite HL. lia.
  - by apply (live_ok_perm _ _ _ _ (symmetry HL)).
  - apply sort_by_key_sorted.
  - lia.
  - lia.
  - lia.
  - rewrite (gr_heap _ _ G2) //. lia.
  - intros sp s' Hsp. apply HQ. eapply key_split_perm; [|exact Hsp]. by rewrite HL HU.
Qed.

Lemma wp_split_index_by_key T d I U t s b n (Q : BlockSplit → St → Prop) :
  tracker s = None → fresh_ok s → (0 ≤ lower I)%Z →
  heap s !! b = Some n → node_at F N T (S d) I n U t → 2 ≤ length U →
  (∀ sp s', key_split T (S d) I U s s' sp → Q sp s') →
  wp (split_index_by_key F b I) s Q.
Proof.
  intros Ht Hf H0 Hb Hn H2 HQ. destruct n as [|p]; [done|].
  pose proof (node_at_bound _ _ _ _ _ _ _ _ Hn) as HUt. simpl in HUt.
  destruct (node_active _ _ _ _ _ _ Hn) as (es & Hes & Hok & HU & Hlen).
  unfold split_index_by_key. apply wp_bind, wp_alloc; [done..|]. intros s1 G1 N1 E1.
  apply wp_bind, wp_alloc; [by rewrite (se_tracker _ _ (gr_env _ _ G1))|apply G1|].
  intros s2 G2 N2 E2. pose proof (grown_trans _ _ _ G1 G2) as G.
  apply wp_bind. eapply wp_get_internal; [by eapply grown_lookup|].
  rewrite Hes sort_by_key_fmap.
  set (L := sort_by_key _ es). assert (L ≡ₚ es) as HL by apply sort_by_key_perm.
  rewrite length_fmap -fmap_take -fmap_drop.
  destruct (halves L) as (L1 & x & L2 & HLs & Hl1 & -> & -> & Hne); [rewrite HL; lia|].
  apply wp_bind. eapply wp_lift; [done|]. cbn beta iota zeta.
  eapply (wp_fill_indexes T d I L); try done.
  - rewrite HL. lia.
  - by apply (active_ok_perm _ _ _ _ (symmetry HL)).
  - apply sort_by_key_sorted.
  - lia.
  - lia.
  - lia.
  - rewrite (gr_heap _ _ G2) //. lia.
  - intros sp s' Hsp. apply HQ. eapply key_split_perm; [|exact Hsp]. by rewrite HL HU.
Qed.

(** ** Splitting by version: the live part of the node in a fresh one *)
Definition version_split T (d : nat) I U s s' (sp : BlockSplit) : Prop :=
  ∃ b n U', sp = ByVersion b ∧ grown s s' ∧ next_block s ≤ b < next_block s' ∧
    heap s' !! b = Some n ∧ node_at F N T d I n U' (length U') ∧ U' ≡ₚ U.

Lemma wp_split_leaf_by_version T I U t s b n (Q : BlockSplit → St → Prop) :
  tracker s = None → fresh_ok s → heap s !! b = Some n → node_at F N T 0 I n U t →
  (∀ sp s', version_split T 0 I U s s' sp → Q sp s') →
  wp (split_leaf_by_version N b) s Q.
Proof.
  intros Ht Hf Hb Hn HQ. destruct n as [p|]; [|done].
  pose proof (node_at_bound _ _ _ _ _ _ _ _ Hn) as HUt. simpl in HUt.
  destruct (node_live _ _ _ _ _ Hn) as (Hok & HU & Hlen).
  unfold split_leaf_by_version. apply wp_bind, wp_alloc; [done..|]. intros s1 G1 N1 E1.
  apply wp_bind. eapply wp_get_leaf; [by eapply grown_lookup|].
  destruct (fill_leaf T I _ Hok) as (p' & Hp' & Hn'); [lia|].
  apply wp_bind. eapply wp_update_leaf; [done..|]. apply wp_ret, HQ.
  eexists _, _, _. split_and!; [done| | | | |exact Hn'|by rewrite HU].
  - apply grown_write; [done|lia].
  - done.
  - simpl. lia.
  - by rewrite /= lookup_insert_eq.
Qed.

Lemma wp_split_index_by_version T d I U t s b n (Q : BlockSplit → St → Prop) :
  tracker s = None → fresh_ok s → (lower I ≤ upper I)%Z →
  heap s !! b = Some n → node_at F N T (S d) I n U t →
  (∀ sp s', version_split T (S d) I U s s' sp → Q sp s') →
  wp (split_index_by_version F b) s Q.
Proof.
  intros Ht Hf HI Hb Hn HQ. destruct n as [|p]; [done|].
  pose proof (node_at_bound _ _ _ _ _ _ _ _ Hn) as HUt. simpl in HUt.
  destruct (node_active _ _ _ _ _ _ Hn) as (es & Hes & Hok & HU & Hlen).
  unfold split_index_by_version. apply wp_bind, wp_alloc; [done..|]. intros s1 G1 N1 E1.
  apply wp_bind. eapply wp_get_internal; [by eapply grown_lookup|]. rewrite Hes.
  destruct (fill_index T d I _ Hok) as (p' & Hp' & Hn'); [done|lia|].
  apply wp_bind. eapply wp_update_internal; [done..|]. apply wp_ret, HQ.
  eexists _, _, _. split_and!; [done| | | | |exact Hn'|by rewrite HU].
  - apply grown_write; [done|lia].
  - done.
  - simpl. lia.
  - by rewrite /= lookup_insert_eq.
Qed.

(** ** [split]: which of the two is made *)
Definition fill_80 (d : nat) : nat := (4 * cap F N d + 4) / 5.

Definition split_result T (d : nat) I U s s' (sp : BlockSplit) : Prop :=
  (fill_80 d ≤ length U ∧ key_split T d I U s s' sp) ∨
  (length U < fill_80 d ∧ version_split T d I U s s' sp).

Lemma cap_8 d : 8 ≤ cap F N d.
Proof using HF HN. destruct d; simpl; lia. Qed.

Lemma wp_split T d I U t s b n (Q : BlockSplit → St → Prop) :
  tracker s = None → fresh_ok s → (0 ≤ lower I ≤ upper I)%Z →
  heap s !! b = Some n → node_at F N T d I n U t →
  (∀ sp s', split_result T d I U s s' sp → Q sp s') →
  wp (split F N b I) s Q.
Proof.
  intros Ht Hf HI Hb Hn HQ. unfold split. apply wp_bind. eapply wp_read_block; [done|].
  cbn beta zeta. rewrite (node_at_leaf _ _ _ _ _ _ _ _ Hn).
  rewrite (counts_node _ _ _ _ _ (node_at_counts _ _ _ _ _ _ _ _ Hn)). cbn [fst].
  assert (filling_80_percent F N n = fill_80 d) as ->.
  { unfold filling_80_percent. by rewrite (proj1 (node_at_cap _ _ _ _ _ _ _ _ Hn)). }
  pose proof (cap_8 d). assert (6 ≤ fill_80 d) by (unfold fill_80; lia).
  case_decide as Hfill; destruct d as [|d]; simpl.
  - eapply wp_split_leaf_by_key; try done; [lia..|]. intros sp s' Hs. apply HQ. by left.
  - eapply wp_split_index_by_key; try done; [lia..|]. intros sp s' Hs. apply HQ. by left.
  - eapply wp_split_leaf_by_version; try done. intros sp s' Hs. apply HQ. right. split; [lia|done].
  - eapply wp_split_index_by_version; try done; [lia|]. intros sp s' Hs. apply HQ.
    right. split; [lia|done].
Qed.

(** ** Merging siblings *)
Definition adjacent I1 I2 : Prop := (upper I1 + 1 = lower I2 ∨ upper I2 + 1 = lower I1)%Z.
Definition inside I k : nat := if Interval.contains I k then 1 else 0.

Lemma inside_merge I1 I2 k :
  adjacent I1 I2 → (lower I1 ≤ upper I1)%Z → (lower I2 ≤ upper I2)%Z →
  inside (Interval.merge I1 I2) k = inside I1 k + inside I2 k.
Proof using Type.
  clear. intros Ha H1 H2. unfold inside, Interval.contains. simpl.
  unfold adjacent in Ha.
  repeat match goal with |- context [(?a <=? ?b)%Z] => destruct (Z.leb_spec a b) end; simpl; lia.
Qed.

Lemma merge_covers I1 I2 J :
  Interval.covers I1 J = true ∨ Interval.covers I2 J = true →
  Interval.covers (Interval.merge I1 I2) J = true.
Proof using Type. clear. rewrite !covers_spec. simpl. lia. Qed.

Lemma live_ok_cover T I rs k : live_ok T I rs → cover k (rec_units rs) ≤ inside I k.
Proof using Type.
  clear. intros (_ & Hr & Hc). unfold inside. destruct (Interval.contains I k) eqn:E; [apply Hc|].
  enough (cover k (rec_units rs) = 0) by lia. apply cover_zero.
  intros u (r & -> & _ & Hin)%elem_of_rec_units <-%hit_rec. apply Hr in Hin as [? _]. congruence.
Qed.

Lemma live_ok_app T I1 I2 rs1 rs2 :
  adjacent I1 I2 → (lower I1 ≤ upper I1)%Z → (lower I2 ≤ upper I2)%Z →
  live_ok T I1 rs1 → live_ok T I2 rs2 → live_ok T (Interval.merge I1 I2) (rs1 ++ rs2).
Proof using Type.
  clear. intros Ha H1 H2 Hok1 Hok2. split_and!.
  - apply Forall_app. split; [apply Hok1|apply Hok2].
  - assert (∀ I (r : RecordPoint P), Interval.covers (Interval.merge I1 I2) I = true →
      Interval.contains I (key r) = true ∧ ver_ok T (version r) →
      Interval.contains (Interval.merge I1 I2) (key r) = true ∧ ver_ok T (version r)) as Hup.
    { intros I r Hc [Hk Hv]. split; [by eapply covers_contains|done]. }
    intros r [Hr|Hr]%elem_of_app.
    + apply (Hup I1); [apply merge_covers; left; apply covers_spec; lia|by apply Hok1].
    + apply (Hup I2); [apply merge_covers; right; apply covers_spec; lia|by apply Hok2].
  - intros k. rewrite rec_units_app cover_app.
    pose proof (live_ok_cover _ _ _ k Hok1). pose proof (live_ok_cover _ _ _ k Hok2).
    pose proof (inside_merge I1 I2 k Ha H1 H2).
    assert (inside (Interval.merge I1 I2) k ≤ 1); [|lia]. unfold inside. case_match; lia.
Qed.

Lemma active_ok_app T I1 I2 es1 es2 :
  adjacent I1 I2 → (lower I1 ≤ upper I1)%Z → (lower I2 ≤ upper I2)%Z →
  active_ok T I1 es1 → active_ok T I2 es2 → active_ok T (Interval.merge I1 I2) (es1 ++ es2).
Proof using Type.
  clear. intros Ha H1 H2 (Hl1 & He1 & Ht1) (Hl2 & He2 & Ht2). split_and!.
  - by apply Forall_app.
  - intros e [He|He]%elem_of_app; [apply He1 in He as (? & ? & Hc)|apply He2 in He as (? & ? & Hc)];
      (split_and!; [lia..|]); apply merge_covers; tauto.
  - intros k. rewrite ent_units_app cover_app Ht1 Ht2. symmetry.
    by apply (inside_merge I1 I2 k).
Qed.

Lemma merge_range I1 I2 :
  (lower I1 ≤ upper I1)%Z → (lower I2 ≤ upper I2)%Z → (0 ≤ lower I1)%Z → (0 ≤ lower I2)%Z →
  (0 ≤ lower (Interval.merge I1 I2) ≤ upper (Interval.merge I1 I2))%Z.
Proof using Type. clear. simpl. lia. Qed.

Section siblings.
Context (T : Z) (d : nat) (I1 I2 : Interval) (n1 n2 : Node P) (U1 U2 : list (Unit P)) (t1 t2 : nat).
Context (b1 b2 : BlockRef) (s : St).
Context (Ht : tracker s = None) (Hf : fresh_ok s) (Ha : adjacent I1 I2).
Context (HI1 : (0 ≤ lower I1 ≤ upper I1)%Z) (HI2 : (0 ≤ lower I2 ≤ upper I2)%Z).
Context (Hb1 : heap s !! b1 = Some n1) (Hb2 : heap s !! b2 = Some n2).
Context (Hn1 : node_at F N T d I1 n1 U1 t1) (Hn2 : node_at F N T d I2 n2 U2 t2).

Lemma wp_merge_leaf_blocks (Q : BlockRef → St → Prop) :
  d = 0 → length U1 + length U2 ≤ N →
  (∀ b s', version_split T d (Interval.merge I1 I2) (U1 ++ U2) s s' (ByVersion b) → Q b s') →
  wp (merge_leaf_blocks N b1 b2) s Q.
Proof.
  intros -> Hle HQ. destruct n1 as [p1|]; [|done]. destruct n2 as [p2|]; [|done].
  destruct (node_live _ _ _ _ _ Hn1) as (Hok1 & HU1 & Hl1).
  destruct (node_live _ _ _ _ _ Hn2) as (Hok2 & HU2 & Hl2).
  unfold merge_leaf_blocks. apply wp_bind, wp_alloc; [done..|]. intros s1 G1 N1 E1.
  apply wp_bind. eapply wp_get_leaf; [by eapply grown_lookup|].
  apply wp_bind. eapply wp_get_leaf; [by eapply grown_lookup|]. cbn beta zeta.
  set (L := merge_by _ _ _).
  assert (L ≡ₚ filter live (LeafPage.as_records p1) ++ filter live (LeafPage.as_records p2)) as HL
    by apply merge_by_perm.
  assert (live_ok T (Interval.merge I1 I2) L) as Hok.
  { eapply live_ok_perm; [symmetry; exact HL|]. by apply live_ok_app; [|lia..| |]. }
  destruct (fill_leaf T _ _ Hok) as (p' & Hp' & Hn'); [rewrite HL length_app; lia|].
  apply wp_bind. eapply wp_update_leaf; [done..|]. apply wp_ret, HQ.
  eexists _, _, _. split_and!; [done| | | | |exact Hn'|by rewrite HL rec_units_app HU1 HU2].
  - apply grown_write; [done|lia].
  - done.
  - simpl. lia.
  - by rewrite /= lookup_insert_eq.
Qed.

Lemma wp_merge_index_blocks d' (Q : BlockRef → St → Prop) :
  d = S d' → length U1 + length U2 ≤ F →
  (∀ b s', version_split T d (Interval.merge I1 I2) (U1 ++ U2) s s' (ByVersion b) → Q b s') →
  wp (merge_index_blocks F b1 b2) s Q.
Proof.
  intros -> Hle HQ. destruct n1 as [|p1]; [done|]. destruct n2 as [|p2]; [done|].
  destruct (node_active _ _ _ _ _ _ Hn1) as (es1 & Hes1 & Hok1 & HU1 & Hl1).
  destruct (node_active _ _ _ _ _ _ Hn2) as (es2 & Hes2 & Hok2 & HU2 & Hl2).
  unfold merge_index_blocks. apply wp_bind, wp_alloc; [done..|]. intros s1 G1 N1 E1.
  apply wp_bind. eapply wp_get_internal; [by eapply grown_lookup|].
  apply wp_bind. eapply wp_get_internal; [by eapply grown_lookup|].
  cbn beta zeta. rewrite Hes1 Hes2 merge_by_fmap.
  set (L := merge_by _ _ _). assert (L ≡ₚ es1 ++ es2) as HL by apply merge_by_perm.
  assert (active_ok T (Interval.merge I1 I2) L) as Hok.
  { eapply active_ok_perm; [symmetry; exact HL|]. by apply active_ok_app; [|lia..| |]. }
  destruct (fill_index T d' _ _ Hok) as (p' & Hp' & Hn').
  { apply merge_range; lia. }
  { rewrite HL length_app. lia. }
  apply wp_bind. eapply wp_update_internal; [done..|]. apply wp_ret, HQ.
  eexists _, _, _. split_and!; [done| | | | |exact Hn'|by rewrite HL ent_units_app HU1 HU2].
  - apply grown_write; [done|lia].
  - done.
  - simpl. lia.
  - by rewrite /= lookup_insert_eq.
Qed.

Lemma wp_redistribute_leaves (Q : BlockSplit → St → Prop) :
  d = 0 → 2 ≤ length U1 + length U2 ≤ 2 * N - 1 →
  (∀ sp s', key_split T d (Interval.merge I1 I2) (U1 ++ U2) s s' sp → Q sp s') →
  wp (redistribute_leaves N b1 b2 I1 I2) s Q.
Proof.
  intros -> Hle HQ. destruct n1 as [p1|]; [|done]. destruct n2 as [p2|]; [|done].
  destruct (node_live _ _ _ _ _ Hn1) as (Hok1 & HU1 & Hl1).
  destruct (node_live _ _ _ _ _ Hn2) as (Hok2 & HU2 & Hl2).
  unfold redistribute_leaves. apply wp_bind. eapply wp_get_leaf; [done|].
  apply wp_bind. eapply wp_get_leaf; [done|]. cbn beta zeta. set (L := merge_by _ _ _).
  assert (L ≡ₚ filter live (LeafPage.as_records p1) ++ filter live (LeafPage.as_records p2)) as HL.
  { unfold L. rewrite merge_by_perm !sort_by_key_perm. apply Permutation_app_comm. }
  assert (StronglySorted (key_le key) L) as Hs.
  { apply merge_by_sorted; [intros ??; rewrite ?Z.leb_le ?Z.leb_gt; lia..| |];
      apply sort_by_key_sorted. }
  assert (live_ok T (Interval.merge I1 I2) L) as Hok.
  { eapply live_ok_perm; [symmetry; exact HL|]. by apply live_ok_app; [|lia..| |]. }
  assert (length L = length U1 + length U2) as Hlen by (rewrite HL length_app; lia).
  destruct (halves L) as (L1 & x & L2 & HLs & Hlen1 & -> & -> & Hne); [lia|].
  apply wp_bind. eapply wp_lift; [done|]. cbn beta iota zeta.
  apply wp_bind, wp_alloc; [done..|]. intros s1 G1 N1 E1.
  apply wp_bind, wp_alloc; [by rewrite (se_tracker _ _ (gr_env _ _ G1))|apply G1|].
  intros s2 G2 N2 E2. pose proof (grown_trans _ _ _ G1 G2) as G.
  eapply (wp_fill_leaves T (Interval.merge I1 I2) L); try done.
  - lia.
  - apply merge_range; lia.
  - lia.
  - lia.
  - lia.
  - rewrite (gr_heap _ _ G2) //. lia.
  - intros sp s' Hsp. apply HQ. eapply key_split_perm; [|exact Hsp].
    by rewrite HL rec_units_app HU1 HU2.
Qed.

Lemma wp_redistribute_indexes d' (Q : BlockSplit → St → Prop) :
  d = S d' → 2 ≤ length U1 + length U2 ≤ 2 * F - 1 →
  (∀ sp s', key_split T d (Interval.merge I1 I2) (U1 ++ U2) s s' sp → Q sp s') →
  wp (redistribute_indexes F b1 b2 I1 I2) s Q.
Proof.
  intros -> Hle HQ. destruct n1 as [|p1]; [done|]. destruct n2 as [|p2]; [done|].
  destruct (node_active _ _ _ _ _ _ Hn1) as (es1 & Hes1 & Hok1 & HU1 & Hl1).
  destruct (node_active _ _ _ _ _ _ Hn2) as (es2 & Hes2 & Hok2 & HU2 & Hl2).
  unfold redistribute_indexes. apply wp_bind. eapply wp_get_internal; [done|].
  apply wp_bind. eapply wp_get_internal; [done|].
  cbn beta zeta. rewrite Hes1 Hes2 !sort_by_key_fmap merge_by_fmap.
  set (L := merge_by _ _ _).
  assert (L ≡ₚ es1 ++ es2) as HL.
  { unfold L. rewrite merge_by_perm !sort_by_key_perm. apply Permutation_app_comm. }
  assert (StronglySorted (key_le e_lower) L) as Hs.
  { apply merge_by_sorted; [|intros ??; rewrite Z.ltb_ge; done|apply sort_by_key_sorted..].
    intros ??; rewrite Z.ltb_lt. unfold e_lower, entry_lower. simpl. lia. }
  assert (active_ok T (Interval.merge I1 I2) L) as Hok.
  { eapply active_ok_perm; [symmetry; exact HL|]. by apply active_ok_app; [|lia..| |]. }
  assert (length L = length U1 + length U2) as Hlen by (rewrite HL length_app; lia).
  rewrite length_fmap -fmap_take -fmap_drop.
  destruct (halves L) as (L1 & x & L2 & HLs & Hlen1 & -> & -> & Hne); [lia|].
  apply wp_bind. eapply wp_lift; [done|]. cbn beta iota zeta.
  apply wp_bind, wp_alloc; [done..|]. intros s1 G1 N1 E1.
  apply wp_bind, wp_alloc; [by rewrite (se_tracker _ _ (gr_env _ _ G1))|apply G1|].
  intros s2 G2 N2 E2. pose proof (grown_trans _ _ _ G1 G2) as G.
  eapply (wp_fill_indexes T d' (Interval.merge I1 I2) L); try done.
  - lia.
  - apply merge_range; lia.
  - lia.
  - lia.
  - lia.
  - rewrite (gr_heap _ _ G2) //. lia.
  - intros sp s' Hsp. apply HQ. eapply key_split_perm; [|exact Hsp].
    by rewrite HL ent_units_app HU1 HU2.
Qed.
End siblings.
End smo.
