(* ===== verification/Sibling.v ===== *)
(** * The sibling a merge chooses

    [merge] of [src/src/mv_tree/smo.rs] sorts the other active entries of the
    parent by their lower bound and takes the one a binary search for the
    underfull node's own bound points at, or the last one. Since the active
    entries tile the range of the parent this is always a neighbour. *)
From S2P Require Import Prelude OrdMap Version Interval PageLen LeafPage InternalPage Node.
From S2P Require Import Clock Gc RootIndex RetryStats Tree Traversal Query Units NodeInv Store TreeInv Alloc Smo.

Section sorted_search.
Context {A : Type} (k : A → Z).

Lemma find_idx_None (p : A → bool) l : find_idx p l = None ↔ ∀ x, x ∈ l → p x = false.
Proof.
  induction l as [|x l IH]; simpl.
  { split; [intros _ x Hx; by apply elem_of_nil in Hx|done]. }
  destruct (p x) eqn:E.
  - split; [done|]. intros H. rewrite H in E; [done|by left].
  - rewrite fmap_None IH. split.
    + intros H y [->|Hy]%elem_of_cons; auto.
    + intros H y Hy. apply H. by right.
Qed.

(** The count of the smaller ones is the position of the first larger one. *)
Lemma sorted_count_lookup (l : list A) t j x :
  StronglySorted (key_le k) l → l !! j = Some x →
  j < length (filter (λ y, k y < t)%Z l) ↔ (k x < t)%Z.
Proof.
  intros Hs. revert j. induction Hs as [|y l Hs IH Hy]; intros j Hj; [done|].
  rewrite filter_cons. case_decide as Hlt.
  - destruct j as [|j]; simpl in *; [simplify_eq; lia|]. rewrite -IH //. lia.
  - assert (filter (λ y, k y < t)%Z l = []) as ->.
    { destruct (filter _ l) as [|z l'] eqn:E; [done|]. exfalso.
      assert (z ∈ filter (λ y, k y < t)%Z l) as [Hz Hin]%list_elem_of_filter by (rewrite E; by left).
      rewrite Forall_forall in Hy. apply Hy in Hin. unfold key_le in Hin. lia. }
    simpl. split; [lia|]. destruct j as [|j]; simpl in Hj; [simplify_eq; lia|].
    apply list_elem_of_lookup_2 in Hj. rewrite Forall_forall in Hy. apply Hy in Hj.
    unfold key_le in Hj. lia.
Qed.

Lemma sorted_lookup_le (l : list A) i j x y :
  StronglySorted (key_le k) l → i ≤ j → l !! i = Some x → l !! j = Some y → (k x ≤ k y)%Z.
Proof.
  intros Hs. revert i j. induction Hs as [|z l Hs IH Hz]; intros i j Hij Hi Hj; [done|].
  destruct i as [|i], j as [|j]; simpl in *; [simplify_eq; lia| |lia|apply (IH i j); [lia|done..]].
  simplify_eq. apply list_elem_of_lookup_2 in Hj. rewrite Forall_forall in Hz. by apply Hz.
Qed.

(** The search for a target that no element has. *)
Lemma search_neighbour (l : list A) t :
  StronglySorted (key_le k) l → (∀ x, x ∈ l → k x ≠ t) → l ≠ [] →
  ∃ x, x ∈ l ∧
    match binary_search_by_key k t l with
    | inl index => l !! index
    | inr index => if decide (index < length l) then l !! index else last l
    end = Some x ∧
    (((t < k x)%Z ∧ ∀ y, y ∈ l → (t < k y)%Z → (k x ≤ k y)%Z) ∨
     ((k x < t)%Z ∧ ∀ y, y ∈ l → (k y ≤ k x)%Z)).
Proof.
  intros Hs Hne Hnil. unfold binary_search_by_key.
  rewrite (proj2 (find_idx_None _ _)); [|intros x Hx; apply Z.eqb_neq; by apply Hne].
  set (idx := length _). case_decide as Hidx.
  - destruct (lookup_lt_is_Some_2 l idx Hidx) as [x Hx]. exists x.
    pose proof (list_elem_of_lookup_2 _ _ _ Hx) as Hin. pose proof (Hne _ Hin).
    pose proof (sorted_count_lookup l t idx x Hs Hx) as Hc. fold idx in Hc.
    split_and!; [done..|]. left. split; [lia|]. intros y Hy Hty.
    apply list_elem_of_lookup in Hy as [j Hj].
    pose proof (sorted_count_lookup l t j y Hs Hj) as Hcj. fold idx in Hcj.
    apply (sorted_lookup_le l idx j x y Hs); [lia|done..].
  - destruct (last l) as [x|] eqn:Hx; [|by apply last_None in Hx]. exists x.
    rewrite last_lookup in Hx. pose proof (list_elem_of_lookup_2 _ _ _ Hx) as Hin.
    pose proof (lookup_lt_Some _ _ _ Hx) as Hlt.
    pose proof (sorted_count_lookup l t _ x Hs Hx) as Hc. fold idx in Hc.
    split_and!; [done..|]. right. split; [lia|]. intros y Hy.
    apply list_elem_of_lookup in Hy as [j Hj].
    apply (sorted_lookup_le l j (pred (length l)) y x Hs); [|done..].
    apply lookup_lt_Some in Hj. lia.
Qed.
End sorted_search.

Lemma find_idx_fmap {A B} (f : A → B) (p : B → bool) l :
  find_idx p (f <$> l) = find_idx (λ x, p (f x)) l.
Proof. induction l as [|x l IH]; simpl; [done|]. by rewrite IH. Qed.

Lemma binary_search_fmap {A B} (f : A → B) (k : B → Z) t (l : list A) :
  binary_search_by_key k t (f <$> l) = binary_search_by_key (λ x, k (f x)) t l.
Proof.
  unfold binary_search_by_key. rewrite find_idx_fmap. case_match; [done|].
  rewrite (filter_fmap_ext f (λ x, k x < t)%Z (λ x, k (f x) < t)%Z) // length_fmap //.
Qed.

Section candidate.
Context {P : Type} (F : nat).
Implicit Types (es : list Entry) (p : InternalPage).

(** The other active entries with their positions, by lower bound. *)
Definition others es (i : nat) : list (nat * Entry) :=
  sort_by_key (λ x, e_lower x.2)
    (filter (λ x, active x.2) (filter (λ x, x.1 ≠ i) (zip (seq 0 (length es)) es))).

Lemma merge_candidates_wf p es i :
  int_wf F p es →
  merge_candidates p i = (λ x, (x.1, ptr x.2, fence x.2)) <$> others es i.
Proof.
  intros H. unfold merge_candidates, others.
  rewrite (int_wf_keys _ _ _ H) (int_wf_versions _ _ _ H) (int_wf_children _ _ _ H) length_fmap.
  assert (∃ X, zip (seq 0 (length es)) es = X ∧ X.*1 = seq 0 (length es) ∧ X.*2 = es)
    as (X & -> & H1 & H2).
  { eexists. split_and!; [done|..]; [apply fst_zip|apply snd_zip]; by rewrite length_seq. }
  rewrite -H1 -H2 -!list_fmap_compose !zip_fmap.
  rewrite (filter_fmap_ext _ _ (λ x, x.1 ≠ i)) //.
  rewrite (filter_fmap_ext _ _ (λ x, active x.2)) //.
  rewrite sort_by_key_fmap -list_fmap_compose. done.
Qed.

Lemma elem_of_others es i j e :
  (j, e) ∈ others es i ↔ es !! j = Some e ∧ j ≠ i ∧ active e.
Proof.
  unfold others. rewrite elem_of_sort_by_key !list_elem_of_filter /=.
  assert ((j, e) ∈ zip (seq 0 (length es)) es ↔ es !! j = Some e) as ->; [|tauto].
  rewrite list_elem_of_lookup. split.
  - intros [n Hn]. apply lookup_zip_with_Some in Hn as (a & b & [= -> ->] & Ha & Hb).
    apply lookup_seq in Ha as [-> _]. done.
  - intros Hj. exists j. apply lookup_zip_with_Some. exists j, e. split_and!; [done| |done].
    apply lookup_seq. split; [lia|]. by eapply lookup_lt_Some.
Qed.

Lemma active_unique T I es i j e e' k :
  index_ok (P:=P) T I es → es !! i = Some e → es !! j = Some e' → active e → active e' →
  Interval.contains (fence e) k = true → Interval.contains (fence e') k = true → i = j.
Proof.
  intros Hok Hi Hj He He' Hk Hk'.
  pose proof (active_found T I es i e k Hok Hi He Hk).
  pose proof (active_found T I es j e' k Hok Hj He' Hk'). congruence.
Qed.

(** Entries of the parent: nonempty fences inside its range, disjoint when both
    are active, and an active one for every key. *)
Lemma entry_range T I es j e :
  index_ok (P:=P) T I es → es !! j = Some e →
  (lower (fence e) ≤ upper (fence e))%Z ∧ (lower I ≤ lower (fence e))%Z ∧
  (upper (fence e) ≤ upper I)%Z.
Proof.
  intros Hok Hj%list_elem_of_lookup_2. apply (io_ents _ _ _ Hok) in Hj as [? [? Hc]].
  apply covers_spec in Hc. lia.
Qed.

Lemma active_disjoint T I es i j e e' :
  index_ok (P:=P) T I es → es !! i = Some e → es !! j = Some e' → active e → active e' →
  i ≠ j → (lower (fence e) ≤ lower (fence e'))%Z → (upper (fence e) < lower (fence e'))%Z.
Proof.
  intros Hok Hi Hj He He' Hij Hle. destruct (entry_range _ _ _ _ _ Hok Hj) as (? & _).
  destruct (decide (upper (fence e) < lower (fence e'))%Z) as [|Hge]; [done|]. destruct Hij.
  apply (active_unique T I es i j e e' (lower (fence e')) Hok); try done; apply contains_spec; lia.
Qed.

Lemma active_for T I es k :
  index_ok (P:=P) T I es → Interval.contains I k = true →
  ∃ m e, es !! m = Some e ∧ active e ∧ (lower (fence e) ≤ k ≤ upper (fence e))%Z.
Proof.
  intros Hok Hk. destruct (io_newest _ _ _ Hok k Hk) as (m & e & Hf & Hm & He).
  apply rfind_idx_Some in Hf as [(e' & Hm' & Hk') _]. rewrite Hm in Hm'. injection Hm' as <-.
  apply contains_spec in Hk'. by exists m, e.
Qed.

Lemma others_nonempty es i e :
  es !! i = Some e → active e → 2 ≤ n_active es → others es i ≠ [].
Proof.
  intros Hi He H2 Hnil. rewrite -(n_active_mark es i e Hi He) in H2.
  unfold n_active in H2. destruct (filter active (<[i:=mark e]> es)) as [|e' l] eqn:E; [simpl in H2; lia|].
  assert (e' ∈ filter active (<[i:=mark e]> es)) as [He' [j Hj]%list_elem_of_lookup]%list_elem_of_filter
    by (rewrite E; by left).
  destruct (decide (i = j)) as [<-|Hij].
  - rewrite list_lookup_insert_eq in Hj; [|by eapply lookup_lt_Some]. simplify_eq.
    by apply mark_not_active in He'.
  - rewrite list_lookup_insert_ne // in Hj.
    apply (not_elem_of_nil (j, e')). rewrite -Hnil. by apply elem_of_others.
Qed.

(** The closest entry on the right, and the last one when there is none. *)
Lemma right_neighbour T I es i j e e' :
  index_ok (P:=P) T I es → es !! i = Some e → es !! j = Some e' → active e → active e' → j ≠ i →
  (e_lower e < e_lower e')%Z →
  (∀ y, y ∈ others es i → (e_lower e < e_lower y.2)%Z → (e_lower e' ≤ e_lower y.2)%Z) →
  adjacent (fence e) (fence e').
Proof.
  unfold e_lower. intros Hok Hi Hj He He' Hji Hgt Hmin. left.
  pose proof (active_disjoint T I es i j e e' Hok Hi Hj He He' ltac:(done) ltac:(lia)).
  pose proof (entry_range _ _ _ _ _ Hok Hi). pose proof (entry_range _ _ _ _ _ Hok Hj).
  destruct (active_for T I es (upper (fence e) + 1) Hok) as (m & e2 & Hm & He2 & Hk2).
  { apply contains_spec. lia. }
  destruct (decide (m = i)) as [->|Hmi]; [simplify_eq; lia|].
  specialize (Hmin (m, e2) ltac:(by apply elem_of_others)). simpl in Hmin.
  destruct (decide (lower (fence e) < lower (fence e2))%Z) as [Hlt|Hge]; [lia|].
  pose proof (active_disjoint T I es m i e2 e Hok Hm Hi He2 He Hmi ltac:(lia)). lia.
Qed.

Lemma left_neighbour T I es i j e e' :
  index_ok (P:=P) T I es → es !! i = Some e → es !! j = Some e' → active e → active e' → j ≠ i →
  (e_lower e' < e_lower e)%Z → (∀ y, y ∈ others es i → (e_lower y.2 ≤ e_lower e')%Z) →
  adjacent (fence e) (fence e').
Proof.
  unfold e_lower. intros Hok Hi Hj He He' Hji Hlt Hmax. right.
  pose proof (active_disjoint T I es j i e' e Hok Hj Hi He' He Hji ltac:(lia)).
  pose proof (entry_range _ _ _ _ _ Hok Hi). pose proof (entry_range _ _ _ _ _ Hok Hj).
  destruct (active_for T I es (lower (fence e) - 1) Hok) as (m & e2 & Hm & He2 & Hk2).
  { apply contains_spec. lia. }
  destruct (decide (m = i)) as [->|Hmi]; [simplify_eq; lia|].
  specialize (Hmax (m, e2) ltac:(by apply elem_of_others)). simpl in Hmax.
  destruct (decide (m = j)) as [->|Hmj]; [simplify_eq; lia|].
  pose proof (active_disjoint T I es m j e2 e' Hok Hm Hj He2 He' Hmj ltac:(lia)). lia.
Qed.

(** With another active entry in the parent there is a candidate, and it is a
    neighbour. *)
Lemma compute_candidate_ok T I p es i e :
  int_wf F p es → index_ok (P:=P) T I es → es !! i = Some e → active e → 2 ≤ n_active es →
  ∃ j e', compute_candidate (merge_candidates p i) (fence e) = Some (j, ptr e', fence e') ∧
    es !! j = Some e' ∧ j ≠ i ∧ active e' ∧ adjacent (fence e) (fence e').
Proof.
  intros Hwf Hok Hi He H2. unfold compute_candidate.
  rewrite (merge_candidates_wf _ _ _ Hwf) binary_search_fmap length_fmap.
  destruct (search_neighbour (λ x : nat * Entry, e_lower x.2) (others es i) (e_lower e))
    as ([j e'] & Hin & Hsel & Hnb).
  { apply sort_by_key_sorted. }
  { intros [j e'] (Hj & Hne & He')%elem_of_others Heq. simpl in Heq. unfold e_lower in Heq.
    pose proof (active_disjoint T I es j i e' e Hok Hj Hi He' He Hne ltac:(lia)).
    pose proof (entry_range _ _ _ _ _ Hok Hj). lia. }
  { by eapply others_nonempty. }
  apply elem_of_others in Hin as (Hj & Hji & He'). exists j, e'.
  split_and!; [|done..|].
  - change (binary_search_by_key _ _ _) with
      (binary_search_by_key (λ x : nat * Entry, e_lower x.2) (e_lower e) (others es i)).
    destruct (binary_search_by_key _ _ _) as [n|n]; [by rewrite list_lookup_fmap Hsel|].
    destruct (decide (n < length (others es i)));
      [by rewrite list_lookup_fmap Hsel|by rewrite fmap_last Hsel].
  - destruct Hnb as [[Hgt Hmin]|[Hlt Hmax]];
      [by eapply (right_neighbour T I es i j)|by eapply (left_neighbour T I es i j)].
Qed.
End candidate.
