(* ===== verification/Parent.v ===== *)
(** * Replacing children in their parent

    The common core of [on_overflow_node] and [on_underflow_node] of
    [src/src/mv_tree/smo.rs]: the entries of one or two children get the
    obsolete mark, entries for fresh nodes with the same keys are appended under
    the next version. The parent keeps its invariant, and no read at any
    version sees the difference. *)
From S2P Require Import Prelude OrdMap Version Interval PageLen LeafPage InternalPage Node.
From S2P Require Import Clock Gc RootIndex RetryStats Tree Traversal Query.
From S2P Require Import Units NodeInv Store TreeInv Alloc Smo Sibling.

#[local] Set Default Proof Using "Type*".

Section entries.
Context {P : Type}.
Implicit Types (es news olds esm : list Entry) (e : Entry).

(** [esm] is [es] with the active entries [olds] marked. *)
Record remarked es olds esm : Prop := {
  rm_length : length esm = length es;
  rm_entry n e : es !! n = Some e →
    esm !! n = Some e ∨ (esm !! n = Some (mark e) ∧ active e ∧ e ∈ olds);
  rm_units : ent_units (P:=P) es ≡ₚ (ent_unit <$> olds) ++ ent_units esm;
}.

Lemma remarked_one es i e :
  es !! i = Some e → active e → remarked es [e] (<[i := mark e]> es).
Proof.
  intros Hi He. split.
  - by rewrite length_insert.
  - intros n a Hn. destruct (decide (i = n)) as [<-|Hne].
    + right. simplify_eq. rewrite list_lookup_insert_eq; [|by eapply lookup_lt_Some].
      split_and!; [done..|by left].
    + left. by rewrite list_lookup_insert_ne.
  - rewrite (ent_units_mark _ _ _ Hi He). done.
Qed.

Lemma remarked_two es i j e e' :
  es !! i = Some e → es !! j = Some e' → i ≠ j → active e → active e' →
  remarked es [e; e'] (<[i := mark e]> (<[j := mark e']> es)).
Proof.
  intros Hi Hj Hij He He'. split.
  - by rewrite !length_insert.
  - intros n a Hn. destruct (decide (i = n)) as [<-|Hne].
    { right. simplify_eq. rewrite list_lookup_insert_eq;
        [|rewrite length_insert; by eapply lookup_lt_Some].
      split_and!; [done..|by left]. }
    rewrite list_lookup_insert_ne //. destruct (decide (j = n)) as [<-|Hne'].
    { right. simplify_eq. rewrite list_lookup_insert_eq; [|by eapply lookup_lt_Some].
      split_and!; [done..|]. right. by left. }
    left. by rewrite list_lookup_insert_ne.
  - rewrite (ent_units_mark _ _ _ Hj He').
    rewrite (ent_units_mark (<[j:=mark e']> es) i e); [|by rewrite list_lookup_insert_ne|done].
    simpl. by rewrite perm_swap.
Qed.

Lemma remarked_fence es olds esm n :
  remarked es olds esm → fence <$> esm !! n = fence <$> es !! n.
Proof.
  intros Hr. destruct (es !! n) as [e|] eqn:Hn.
  - destruct (rm_entry _ _ _ Hr _ _ Hn) as [->|[-> _]]; done.
  - rewrite lookup_ge_None_2 //. rewrite (rm_length _ _ _ Hr). by apply lookup_ge_None_1.
Qed.

(** A search that does not look at the marks. *)
Lemma remarked_rfind es olds esm (p : Entry → bool) :
  remarked es olds esm → (∀ e, p (mark e) = p e) → rfind_idx p esm = rfind_idx p es.
Proof.
  intros Hr Hp. assert (p <$> esm = p <$> es) as Heq.
  { apply list_eq. intros n. rewrite !list_lookup_fmap. destruct (es !! n) as [e|] eqn:Hn.
    - destruct (rm_entry _ _ _ Hr _ _ Hn) as [->|[-> _]]; simpl; [done|by rewrite Hp].
    - rewrite lookup_ge_None_2 //. rewrite (rm_length _ _ _ Hr). by apply lookup_ge_None_1. }
  rewrite -(rfind_idx_fmap p id es) -(rfind_idx_fmap p id esm). by rewrite Heq.
Qed.

Lemma index_ok_replace T T' I es olds esm news :
  index_ok (P:=P) T I es → remarked es olds esm → (T ≤ T')%Z → news ≠ [] → Forall active news →
  (∀ e, e ∈ news → (1 ≤ TimeMatcher.into_cmp (ver e) < T')%Z ∧
    (lower (fence e) ≤ upper (fence e))%Z ∧ Interval.covers I (fence e) = true) →
  (∀ k, cover (P:=P) k (ent_units news) = cover (P:=P) k (ent_unit <$> olds)) →
  index_ok (P:=P) T' I (esm ++ news).
Proof.
  intros Hok Hr HT Hne Hact Hnews Hcov. split.
  - intros e [He|He]%elem_of_app; [|by apply Hnews].
    apply list_elem_of_lookup in He as [n Hn].
    destruct (es !! n) as [a|] eqn:Ha.
    2:{ apply lookup_lt_Some in Hn. apply lookup_ge_None_1 in Ha.
        rewrite (rm_length _ _ _ Hr) in Hn. lia. }
    pose proof (io_ents _ _ _ Hok a (list_elem_of_lookup_2 _ _ _ Ha)) as (? & ? & ?).
    destruct (rm_entry _ _ _ Hr _ _ Ha) as [E|[E _]]; rewrite Hn in E; injection E as ->; simpl;
      rewrite ?into_cmp_mark; split_and!; try done; lia.
  - intros k. rewrite ent_units_app cover_app Hcov.
    rewrite -(io_tile _ _ _ Hok k) (cover_perm _ _ _ (rm_units _ _ _ Hr)) cover_app. lia.
  - intros k Hk. rewrite rfind_idx_app.
    destruct (rfind_idx _ news) as [n|] eqn:En.
    { pose proof En as [(e & Hn & _) _]%rfind_idx_Some. exists (length esm + n), e.
      split_and!; [done| |].
      - rewrite lookup_app_r; [|lia]. by replace (length esm + n - length esm) with n by lia.
      - rewrite Forall_lookup in Hact. by eapply Hact. }
    rewrite (remarked_rfind _ _ _ _ Hr) //.
    destruct (io_newest _ _ _ Hok k Hk) as (i & e & Hf & Hi & He). exists i, e.
    pose proof Hf as [(e' & Hi' & Hc) _]%rfind_idx_Some. simplify_eq.
    split_and!; [done| |done].
    rewrite lookup_app_l; [|rewrite (rm_length _ _ _ Hr); by eapply lookup_lt_Some].
    destruct (rm_entry _ _ _ Hr _ _ Hi) as [|(_ & _ & Hold)]; [done|]. exfalso.
    assert (1 ≤ cover (P:=P) k (ent_unit <$> olds)) as Hpos.
    { apply (cover_elem _ (ent_unit e)); [by apply list_elem_of_fmap_2|done]. }
    rewrite -Hcov in Hpos. apply cover_pos in Hpos as (u & Hu & Hh).
    apply elem_of_ent_units in Hu as (e2 & -> & _ & Hin).
    apply (proj1 (rfind_idx_None _ _) En) in Hin. rewrite hit_ent in Hh. congruence.
  - destruct (last news) as [e|] eqn:El; [|by apply last_None in El].
    exists e. rewrite last_app El. split; [done|].
    apply last_Some in El as [l ->]. apply Forall_app in Hact as [_ Hact].
    by inversion Hact.
Qed.

(** Versions before the commit do not see the new entries. *)
Lemma read_child_replace F T p p' es olds esm news k u :
  int_wf F p es → int_wf F p' (esm ++ news) → remarked es olds esm →
  (∀ e, e ∈ news → TimeMatcher.into_cmp (ver e) = T) → (u ≤ T - 1)%Z →
  read_child p' k u ≫= InternalPage.get_pointer p' =
  read_child p k u ≫= InternalPage.get_pointer p.
Proof.
  intros Hwf Hwf' Hr Hnew Hu. rewrite (read_child_wf _ _ _ _ _ Hwf) (read_child_wf _ _ _ _ _ Hwf').
  rewrite rfind_idx_app. rewrite (proj2 (rfind_idx_None _ news)).
  2:{ intros e He. rewrite matched_into_cmp (Hnew _ He).
      rewrite (proj2 (Z.leb_gt _ _)) //. lia. }
  rewrite (remarked_rfind _ _ _ _ Hr); [|intros e; by rewrite /= matched_mark].
  destruct (rfind_idx _ es) as [i|] eqn:Ei; [|done]. simpl.
  apply rfind_idx_Some in Ei as [(e & Hi & _) _].
  destruct (int_rep_get _ _ _ _ _ (proj1 Hwf) Hi) as (_ & _ & ->).
  assert (∃ e', esm !! i = Some e' ∧ ptr e' = ptr e) as (e' & Hi' & <-).
  { destruct (rm_entry _ _ _ Hr _ _ Hi) as [->|[-> _]]; by eexists. }
  assert ((esm ++ news) !! i = Some e') as Hi2.
  { rewrite lookup_app_l //. by eapply lookup_lt_Some. }
  by destruct (int_rep_get _ _ _ _ _ (proj1 Hwf') Hi2) as (_ & _ & ->).
Qed.
End entries.

(** ** Nodes with what they hold *)
Section holders.
Context {P : Type}.
Implicit Types (L : list (Entry * list (Unit P))).

Definition holders L : list (Unit P) := ent_unit <$> L.*1.
Definition contents L : list (Unit P) := concat L.*2.
Definition fits L : Prop := ∀ e U, (e, U) ∈ L → ∀ k, cover k U ≤ inside (fence e) k.

Lemma contents_cons x L : contents (x :: L) = x.2 ++ contents L.
Proof. done. Qed.
Lemma holders_cons x L : holders (x :: L) = ent_unit x.1 :: holders L.
Proof. done. Qed.

Lemma fits_cons e U L : fits ((e, U) :: L) → (∀ k, cover k U ≤ inside (fence e) k) ∧ fits L.
Proof. intros H. split; [apply H; by left|]. intros e' U' Hin. apply H. by right. Qed.

Lemma cover_contents L k : fits L → cover k (contents L) ≤ cover k (holders L).
Proof.
  induction L as [|[e U] L IH]; intros Hf; [done|]. apply fits_cons in Hf as [HU Hf].
  rewrite contents_cons holders_cons cover_app cover_cons. specialize (HU k).
  specialize (IH Hf). unfold inside in HU. case_decide as Hh; unfold hit in Hh; simpl in Hh; simpl;
    destruct (Interval.contains (fence e) k); try done; lia.
Qed.

Lemma pick_contents L e U k :
  fits L → cover k (holders L) ≤ 1 → (e, U) ∈ L → Interval.contains (fence e) k = true →
  pick k (contents L) = pick k U.
Proof.
  intros Hf Hc Hin Hk. induction L as [|[e' U'] L IH]; [by apply elem_of_nil in Hin|].
  apply fits_cons in Hf as [HU Hf]. rewrite contents_cons /=.
  rewrite holders_cons cover_cons /= in Hc. pose proof (cover_contents L k Hf) as Hle.
  apply elem_of_cons in Hin as [[= <- <-]|Hin].
  - rewrite decide_True // in Hc. apply pick_app_l. lia.
  - assert (1 ≤ cover k (holders L)) as Hpos.
    { apply (cover_elem _ (ent_unit e)); [|done]. apply list_elem_of_fmap_2.
      by apply (list_elem_of_fmap_2 fst _ (e, U)). }
    case_decide as Hh; [lia|]. rewrite pick_app_r; [apply IH; [done|lia|done]|].
    specialize (HU k). unfold inside in HU. unfold hit in Hh. simpl in Hh.
    destruct (Interval.contains (fence e') k); [done|lia].
Qed.

Lemma elem_of_contents L u : u ∈ contents L ↔ ∃ e U, (e, U) ∈ L ∧ u ∈ U.
Proof.
  unfold contents. induction L as [|[e U] L IH]; simpl.
  - split; [by intros ?%elem_of_nil|]. intros (e & U & Hin & _). by apply elem_of_nil in Hin.
  - rewrite elem_of_app IH. split.
    + intros [Hu|(e' & U' & Hin & Hu)]; [exists e, U|exists e', U']; (split; [|done]);
        [by left|by right].
    + intros (e' & U' & [[= -> ->]|Hin]%elem_of_cons & Hu); [by left|right; by exists e', U'].
Qed.
End holders.

Lemma node_at_cover {P} F N T d I (n : Node P) U t k :
  node_at F N T d I n U t → cover k U ≤ inside I k.
Proof.
  destruct n as [p|p], d as [|d]; simpl; try done.
  - intros (rs & _ & Hok & -> & _). unfold inside.
    destruct (Interval.contains I k) eqn:E; [apply (lo_unique _ _ _ Hok)|].
    enough (cover k (rec_units rs) = 0) by lia. apply cover_zero.
    intros u (r & -> & _ & Hin)%elem_of_rec_units <-%hit_rec.
    apply (lo_recs _ _ _ Hok) in Hin as [? _]. congruence.
  - intros (es & _ & Hok & -> & _). by rewrite (io_tile _ _ _ Hok).
Qed.

(** Two nodes of the same height with the same unit for a key read the same. *)
Lemma read_pick {P} F N (h h' : gmap BlockRef (Node P)) Γ Γ' T T' d I I' i i' b b' n n' U U' t t' k v :
  h !! b = Some n → node_ok F N Γ T (mkTy d I i) n U t →
  h' !! b' = Some n' → node_ok F N Γ' T' (mkTy d I' i') n' U' t' →
  Interval.contains I k = true → Interval.contains I' k = true →
  pick k U' = pick k U → (T - 1 ≤ v)%Z → (T' - 1 ≤ v)%Z →
  (∀ J c d', d = S d' → Γ !! c = Some (mkTy d' J true) → Interval.contains J k = true →
    read_from (S d') h' c k v = read_from (S d') h c k v) →
  read_from (S d) h' b' k v = read_from (S d) h b k v.
Proof.
  intros Hb Hn Hb' Hn' HI HI' Hp HT HT' Hdown. destruct d as [|d].
  - rewrite (read_leaf _ _ _ _ _ _ _ _ _ _ _ _ _ 0 Hb Hn HT).
    rewrite (read_leaf _ _ _ _ _ _ _ _ _ _ _ _ _ 0 Hb' Hn' HT'). by rewrite Hp.
  - destruct (read_index F N _ _ _ _ _ _ _ _ _ k v (S d) _ Hb Hn HI)
      as (J & c & p & j & _ & _ & _ & _ & Hpk & HJ & Hc & Hr).
    destruct (read_index F N _ _ _ _ _ _ _ _ _ k v (S d) _ Hb' Hn' HI')
      as (J' & c' & p' & j' & _ & _ & _ & _ & Hpk' & HJ' & Hc' & Hr').
    rewrite Hr // Hr' //. rewrite Hp Hpk in Hpk'. injection Hpk' as <- <-. by eapply Hdown.
Qed.

(** ** The commit in the parent *)
Section parent.
Context {P : Type}.
Context {M : ∀ K, KeyOrder K → Type → Type} `{!OrdMap M}.
Context {R : Type} `{!RootStore R, !RootStoreLaws R}.
Context (F N : nat).
Local Abbreviation St := (@TreeSt P M R).
Local Abbreviation Children := (list (Entry * list (Unit P))).

(** A child of the parent, and one that was made for it in fresh blocks. *)
Definition old_child (s : St) (Γ : gmap BlockRef Ty) (d : nat) (es : list Entry) (e : Entry)
    (U : list (Unit P)) : Prop :=
  e ∈ es ∧ active e ∧ ∃ n t, heap s !! ptr e = Some n ∧
    node_ok F N Γ (now s) (mkTy d (fence e) true) n U t.
Definition new_child (s s0 : St) (d : nat) (Ic : Interval) (e : Entry)
    (U : list (Unit P)) : Prop :=
  ver e = now s ∧ next_block s ≤ ptr e < next_block s0 ∧
  (lower (fence e) ≤ upper (fence e))%Z ∧ Interval.covers Ic (fence e) = true ∧
  fill_20 F N d ≤ length U ∧
  ∃ n, heap s0 !! ptr e = Some n ∧ node_at F N (now s) d (fence e) n U (length U).

(** What a reorganisation below the parent [c] leaves behind: the same history,
    no other block of the tree changed, and the child that a key of the
    replaced range [I] now finds is neither too full nor too empty. *)
Record reorganised (s s' : St) Γ Γ' (D : nat) x (H : History P) (c : BlockRef) (I : Interval) : Prop := {
  ro_incl : Γ ⊆ Γ';
  ro_inv : Inv F N s' Γ' D x H;
  ro_now : now s' = (now s + 1)%Z;
  ro_latches : length (latches s') ≤ length (latches s);
  ro_same b ty : Γ !! b = Some ty → b ≠ c → heap s' !! b = heap s !! b;
  ro_child k p j b : Interval.contains I k = true → heap s' !! c = Some (Index p) →
    active_child p k = Some j → InternalPage.get_pointer p j = Some b →
    ∃ n, heap s' !! b = Some n ∧ unsafe_degree F N n = DegreeOk;
}.

Context (s s0 s' : St) (Γ : gmap BlockRef Ty) (D : nat) (x : Root) (H : History P).
Context (c : BlockRef) (d : nat) (Ic : Interval) (ic : bool) (p p' : InternalPage).
Context (es esm : list Entry) (ol nl : Children).
Context (HI : Inv F N s Γ D x H) (Hc : Γ !! c = Some (mkTy (S d) Ic ic)).
Context (Hp : heap s !! c = Some (Index p)) (Hwf : int_wf F p es).
Context (Hok : index_ok (P:=P) (now s) Ic es) (Hrm : remarked (P:=P) es ol.*1 esm).
Context (Hol : ∀ e U, (e, U) ∈ ol → old_child s Γ d es e U).
Context (Hg : grown s s0) (Hnl : ∀ e U, (e, U) ∈ nl → new_child s s0 d Ic e U).
Context (Hnil : nl ≠ []) (Hnd : NoDup (ptr <$> nl.*1)).
Context (Hcont : contents nl ≡ₚ contents ol).
Context (Hhold : ∀ k, cover k (holders nl) = cover k (holders ol)).
Context (Hheap : heap s' = <[c := Index p']> (heap s0)).
Context (Hnext : next_block s' = next_block s0) (Hroot : root s' = root s).
Context (Htr : tracker s' = None) (Hnow : now s' = (now s + 1)%Z) (Hlt : (now s + 1 < 2 ^ 63)%Z).
Context (Hwf' : int_wf F p' (esm ++ nl.*1)).
Context (Hfill : ic = true → fill_20 F N (S d) ≤ n_active (esm ++ nl.*1)).

Lemma parent_lt b ty : Γ !! b = Some ty → b < next_block s.
Proof using All.
  intros Hb. destruct (inv_store _ _ _ _ _ _ _ HI _ _ Hb) as (n & U & t & Hn & _).
  by apply (inv_fresh _ _ _ _ _ _ _ HI) in Hn.
Qed.

Lemma parent_new e : e ∈ nl.*1 → ∃ U, (e, U) ∈ nl ∧ new_child s s0 d Ic e U.
Proof using All. intros ([e' U] & -> & Hin)%list_elem_of_fmap. exists U. split; [done|by apply Hnl]. Qed.

Lemma parent_heap b : b < next_block s → b ≠ c → heap s' !! b = heap s !! b.
Proof using All. intros Hb Hbc. rewrite Hheap lookup_insert_ne //. by apply (gr_heap _ _ Hg). Qed.

Lemma int_wf_inj q es1 es2 : int_wf F q es1 → int_wf F q es2 → es1 = es2.
Proof using Type.
  intros H1 H2. assert (Inj (=) (=) triple) by (intros [] []; unfold triple; simpl; congruence).
  apply (inj (fmap triple)). by rewrite -(page_entries_wf _ _ _ H1) -(page_entries_wf _ _ _ H2).
Qed.

Lemma parent_ptr e : e ∈ es → active e → Γ !! ptr e = Some (mkTy d (fence e) true).
Proof using All.
  intros He Ha. destruct (typed_index F N _ _ _ _ _ _ _ (inv_store _ _ _ _ _ _ _ HI) Hc)
    as (q & es' & Hq & Hwfq & _ & _ & Hptr).
  rewrite Hp in Hq. injection Hq as <-. rewrite (int_wf_inj _ _ _ Hwfq Hwf) in Hptr. by apply Hptr.
Qed.

(** The typing afterwards. *)
Definition parent_typing : gmap BlockRef Ty :=
  list_to_map ((λ e, (ptr e, mkTy d (fence e) true)) <$> nl.*1) ∪ Γ.

Lemma parent_typing_old b ty : Γ !! b = Some ty → parent_typing !! b = Some ty.
Proof using All.
  intros Hb. unfold parent_typing. rewrite lookup_union_r //. apply not_elem_of_list_to_map_1.
  rewrite -list_fmap_compose. intros (e & -> & He)%list_elem_of_fmap. simpl in Hb.
  apply parent_lt in Hb. apply parent_new in He as (U & _ & Hn). destruct Hn as (_ & ? & _). lia.
Qed.

Lemma parent_typing_new e : e ∈ nl.*1 → parent_typing !! ptr e = Some (mkTy d (fence e) true).
Proof using All.
  intros He. unfold parent_typing. apply lookup_union_Some_l, elem_of_list_to_map_1.
  - rewrite -list_fmap_compose. exact Hnd.
  - by apply (list_elem_of_fmap_2 (λ e, (ptr e, mkTy d (fence e) true))).
Qed.

Lemma parent_typing_inv b ty :
  parent_typing !! b = Some ty →
  Γ !! b = Some ty ∨ ∃ e, e ∈ nl.*1 ∧ b = ptr e ∧ ty = mkTy d (fence e) true.
Proof using All.
  unfold parent_typing. intros [Hb|[_ Hb]]%lookup_union_Some_raw; [right|by left].
  apply elem_of_list_to_map_2, list_elem_of_fmap in Hb as (e & [= -> ->] & He). by exists e.
Qed.

Lemma parent_active e : e ∈ nl.*1 → active e.
Proof using All.
  intros (U & _ & Hv & _)%parent_new. unfold active. rewrite Hv. apply is_active_small.
  pose proof (inv_time _ _ _ _ _ _ _ HI). lia.
Qed.

Lemma parent_units : ent_units nl.*1 = holders nl.
Proof using All.
  unfold ent_units, holders. rewrite filter_idemp //. apply Forall_forall, parent_active.
Qed.

Lemma parent_index_ok : index_ok (P:=P) (now s') Ic (esm ++ nl.*1).
Proof using All.
  eapply (index_ok_replace (now s)); try done.
  - lia.
  - by destruct nl.
  - apply Forall_forall, parent_active.
  - intros e (U & _ & Hv & _ & Hle & Hcov & _)%parent_new. pose proof (inv_time _ _ _ _ _ _ _ HI).
    rewrite Hv into_cmp_small; [|lia]. split_and!; try done; lia.
  - intros k. rewrite parent_units. apply Hhold.
Qed.

Lemma parent_node_ok :
  node_ok (P:=P) F N parent_typing (now s') (mkTy (S d) Ic ic) (Index p')
    (ent_units (esm ++ nl.*1)) (length (esm ++ nl.*1)).
Proof using All.
  destruct (inv_store _ _ _ _ _ _ _ HI _ _ Hc) as (n & U & t & Hn & Hnode).
  assert (n = Index p) as -> by congruence.
  destruct (no_at _ _ _ _ _ _ _ _ Hnode) as (es2 & Hwf2 & _ & HU & _).
  rewrite (int_wf_inj _ _ _ Hwf2 Hwf) in HU.
  split; simpl.
  - exists (esm ++ nl.*1). split_and!; try done. apply parent_index_ok.
  - apply (no_range _ _ _ _ _ _ _ _ Hnode).
  - intros Hic. rewrite length_ent_units. by apply Hfill.
  - intros I b (e & [= -> ->] & He & [Hin|Hin]%elem_of_app)%elem_of_ent_units.
    + destruct (no_ptrs _ _ _ _ _ _ _ _ Hnode (fence e) (ptr e)) as (d' & Hd' & Hb).
      { rewrite HU (rm_units _ _ _ Hrm) elem_of_app elem_of_ent_units. right. by exists e. }
      exists d'. split; [done|]. by apply parent_typing_old.
    + exists d. split; [done|]. by apply parent_typing_new.
Qed.

Lemma parent_lookup : heap s' !! c = Some (Index p').
Proof using All. by rewrite Hheap lookup_insert_eq. Qed.

Lemma parent_lookup_new e n : e ∈ nl.*1 → heap s0 !! ptr e = Some n → heap s' !! ptr e = Some n.
Proof using All.
  intros (U & _ & _ & Hr & _)%parent_new Hn. rewrite Hheap lookup_insert_ne //.
  pose proof (parent_lt _ _ Hc). lia.
Qed.

Lemma parent_incl : Γ ⊆ parent_typing.
Proof using All. apply map_subseteq_spec. intros b ty. apply parent_typing_old. Qed.

Lemma parent_child_ok e U :
  (e, U) ∈ nl → ∃ n, heap s' !! ptr e = Some n ∧
    node_ok F N parent_typing (now s') (mkTy d (fence e) true) n U (length U).
Proof using All.
  intros Hin. assert (e ∈ nl.*1) as He by by apply (list_elem_of_fmap_2 fst _ (e, U)).
  destruct (Hnl _ _ Hin) as (Hv & Hr & Hle & Hcov & Hf & n & Hn & Hat).
  exists n. split; [by apply parent_lookup_new|]. split; simpl.
  - eapply node_at_mono; [|exact Hat]. lia.
  - destruct (inv_store _ _ _ _ _ _ _ HI _ _ Hc) as (n' & U' & t' & _ & Hnode).
    destruct (no_range _ _ _ _ _ _ _ _ Hnode) as [? ?]. simpl in *.
    apply covers_spec in Hcov. lia.
  - done.
  - intros J b Hu. assert ((J, inr b) ∈ contents nl) as Hc1 by (apply elem_of_contents; eauto).
    rewrite Hcont in Hc1. apply elem_of_contents in Hc1 as (eo & Uo & Hino & Huo).
    destruct (Hol _ _ Hino) as (_ & _ & no & to & _ & Hno).
    destruct (no_ptrs _ _ _ _ _ _ _ _ Hno _ _ Huo) as (d' & Hd' & Hb).
    exists d'. split; [done|]. by apply parent_typing_old.
Qed.

Lemma parent_store_ok : store_ok F N (heap s') parent_typing (now s').
Proof using All.
  intros b ty [Hb|(e & He & -> & ->)]%parent_typing_inv.
  - destruct (decide (b = c)) as [->|Hbc].
    + rewrite Hc in Hb. injection Hb as <-.
      eexists _, _, _. split; [apply parent_lookup|apply parent_node_ok].
    + eapply block_ok_mono; [apply parent_incl| |
        apply parent_heap; [by eapply parent_lt|done]|by apply (inv_store _ _ _ _ _ _ _ HI)].
      lia.
  - destruct (parent_new _ He) as (U & Hin & _).
    destruct (parent_child_ok _ _ Hin) as (n & Hn & Hnode). by eexists _, _, _.
Qed.

Lemma parent_heap_ext : heap_ext (now s - 1) (heap s) (heap s').
Proof using All.
  intros b n Hn. destruct (decide (b = c)) as [->|Hbc].
  - rewrite Hp in Hn. injection Hn as <-. exists (Index p'). split; [apply parent_lookup|].
    intros k u Hu. eapply (read_child_replace F (now s)); try done.
    intros e (U & _ & Hv & _)%parent_new. rewrite Hv into_cmp_small //.
    pose proof (inv_time _ _ _ _ _ _ _ HI). lia.
  - exists n. split; [|done]. rewrite parent_heap //. by apply (inv_fresh _ _ _ _ _ _ _ HI) in Hn.
Qed.

Lemma parent_fits :
  fits nl ∧ fits ol ∧ ∀ k, Interval.contains Ic k = true → cover k (holders nl) ≤ 1.
Proof using All.
  split_and!.
  - intros e U (_ & _ & _ & _ & _ & n & _ & Hat)%Hnl k. by eapply node_at_cover.
  - intros e U (_ & _ & n & t & _ & Hn)%Hol k. eapply node_at_cover. apply (no_at _ _ _ _ _ _ _ _ Hn).
  - intros k Hk. pose proof (io_tile _ _ _ parent_index_ok k) as Ht.
    rewrite Hk ent_units_app cover_app parent_units in Ht. lia.
Qed.

(** Reads of the parent at a recent version. *)
Lemma parent_read k v :
  Interval.contains Ic k = true → (now s ≤ v)%Z →
  read_from (S (S d)) (heap s') c k v = read_from (S (S d)) (heap s) c k v.
Proof using All.
  intros Hk Hv. pose proof parent_store_ok as Hs'.
  assert (∀ b J k d', Γ !! b = Some (mkTy d' J true) → Interval.contains J k = true → d' < S d →
    read_from (S d') (heap s') b k v = read_from (S d') (heap s) b k v) as Hbelow.
  { intros b J k' d' Hb HJ Hd'. eapply (read_below F N (heap s) (heap s') Γ (now s) c k' v (S d));
      [apply (inv_store _ _ _ _ _ _ _ HI)|lia|by eexists _, _| |exact Hb|done|done].
    intros b' ty Hb' Hne. apply parent_heap; [by eapply parent_lt|done]. }
  destruct (child_ok (P:=P) _ _ _ _ _ _ Hwf Hok Hk)
    as (i & e & _ & Hr & Hi & He & Hce & _ & Hge & _).
  destruct (child_ok (P:=P) _ _ _ _ _ _ Hwf' parent_index_ok Hk)
    as (i' & e' & _ & Hr' & Hi' & He' & Hce' & _ & Hge' & _).
  rewrite (read_from_S (S d) (heap s')) (read_from_S (S d) (heap s)) parent_lookup Hp.
  rewrite Hr; [|lia]. rewrite Hr'; [|lia]. simpl. rewrite Hge Hge'.
  assert (Γ !! ptr e = Some (mkTy d (fence e) true)) as HΓe.
  { apply parent_ptr; [by eapply list_elem_of_lookup_2|done]. }
  apply list_elem_of_lookup_2, elem_of_app in Hi' as [Hin|Hin].
  - (* an entry that was there before *)
    assert (ptr e' = ptr e) as ->; [|by apply Hbelow with (J:=fence e); [done|done|lia]].
    apply list_elem_of_lookup in Hin as [m Hm].
    destruct (es !! m) as [a|] eqn:Ha.
    2:{ apply lookup_lt_Some in Hm. apply lookup_ge_None_1 in Ha.
        rewrite (rm_length _ _ _ Hrm) in Hm. lia. }
    destruct (rm_entry _ _ _ Hrm _ _ Ha) as [E|[E _]]; rewrite Hm in E; injection E as ->.
    + pose proof (active_unique (P:=P) _ _ _ _ _ _ _ _ Hok Ha Hi He' He Hce' Hce) as Hmi.
      subst m. congruence.
    + by apply mark_not_active in He'.
  - (* one of the new entries *)
    destruct parent_fits as (Hfn & Hfo & Hone).
    destruct (parent_new _ Hin) as (Un & Hinn & _).
    assert (∃ Uo, (e, Uo) ∈ ol) as [Uo Hino].
    { assert (1 ≤ cover k (holders ol)) as Hpos.
      { rewrite -Hhold. apply (cover_elem _ (ent_unit e')); [by apply list_elem_of_fmap_2|done]. }
      apply cover_pos in Hpos as (u & Hu & Hh). apply list_elem_of_fmap in Hu as (eo & -> & Heo).
      apply list_elem_of_fmap in Heo as ([eo' Uo] & -> & Hino). exists Uo.
      destruct (Hol _ _ Hino) as (Hineo & Hacto & _). apply list_elem_of_lookup in Hineo as [m Hm].
      pose proof (active_unique (P:=P) _ _ _ _ _ _ _ _ Hok Hm Hi Hacto He Hh Hce) as ->.
      simpl in *. by simplify_eq. }
    destruct (Hol _ _ Hino) as (_ & _ & no & to & Hno & Hnodeo).
    destruct (parent_child_ok _ _ Hinn) as (nn & Hnn & Hnoden).
    eapply (read_pick F N _ _ _ _ _ _ d _ _ _ _ _ _ _ _ _ _ _ _ k v Hno Hnodeo Hnn Hnoden Hce Hce').
    + rewrite -(pick_contents nl e' Un k Hfn (Hone k Hk) Hinn Hce').
      rewrite -(pick_contents ol e Uo k Hfo); [|rewrite -Hhold; by apply Hone|done|done].
      apply pick_perm; [|done]. etransitivity; [apply (cover_contents _ _ Hfn)|by apply Hone].
    + lia.
    + lia.
    + intros J b d' -> Hb HJ. apply Hbelow with (J:=J); [done|done|lia].
Qed.

(** The history is the same, the new children are typed. *)
Lemma Inv_parent :
  Inv F N s' parent_typing D x H ∧ Γ ⊆ parent_typing ∧
  (∀ e, e ∈ nl.*1 → parent_typing !! ptr e = Some (mkTy d (fence e) true)) ∧
  (∀ b ty, Γ !! b = Some ty → b ≠ c → heap s' !! b = heap s !! b).
Proof using All.
  split_and!; [|apply parent_incl|apply parent_typing_new|].
  2:{ intros b ty Hb Hne. apply parent_heap; [by eapply parent_lt|done]. }
  pose proof (inv_roots _ _ _ _ _ _ _ HI) as Hroots.
  eapply (Inv_quiet F N s s' Γ parent_typing D D x x H HI Htr); try done.
  - intros b n. rewrite Hheap lookup_insert_Some Hnext. intros [[<- _]|[_ Hb]].
    + pose proof (parent_lt _ _ Hc). pose proof (gr_next _ _ Hg). lia.
    + by apply (gr_fresh _ _ Hg) in Hb.
  - apply parent_store_ok.
  - apply parent_heap_ext.
  - rewrite Hroot. eapply roots_mono; [apply parent_incl| |done]. lia.
  - intros v _. by rewrite Hroot.
  - lia.
  - intros v k Hv Hk. eapply (read_replace F N); [apply (inv_store _ _ _ _ _ _ _ HI)|lia| | |
      apply Hroots|done].
    + intros b ty Hb Hne. apply parent_heap; [by eapply parent_lt|done].
    + intros d' I i Hd' HIk. simplify_eq. by apply parent_read.
Qed.

(** A key of a replaced child now finds one of the new children. *)
Lemma parent_child_new eo k j :
  eo ∈ ol.*1 → Interval.contains (fence eo) k = true → active_child p' k = Some j →
  ∃ e U, (e, U) ∈ nl ∧ Interval.contains (fence e) k = true ∧
    InternalPage.get_pointer p' j = Some (ptr e).
Proof using All.
  intros Ho Hk Hj. apply list_elem_of_fmap in Ho as ([eo' Uo] & -> & Hino).
  destruct (Hol _ _ Hino) as (Hineo & Hacto & _).
  assert (Interval.contains Ic k = true) as HIk.
  { pose proof (io_ents _ _ _ Hok _ Hineo) as (_ & _ & Hcov). by eapply covers_contains. }
  destruct (child_ok (P:=P) _ _ _ _ _ _ Hwf' parent_index_ok HIk)
    as (i' & e' & Ha & _ & Hi' & He' & Hce' & _ & Hge' & _).
  assert (i' = j) as -> by congruence.
  assert (e' ∈ nl.*1) as Hin.
  { destruct (decide (1 ≤ cover k (holders nl))) as [Hpos|Hz].
    - apply cover_pos in Hpos as (u & Hu & Hh). apply list_elem_of_fmap in Hu as (e2 & -> & He2).
      apply list_elem_of_lookup in He2 as He2'. destruct He2' as [m Hm].
      assert ((esm ++ nl.*1) !! (length esm + m) = Some e2) as Hm'.
      { rewrite lookup_app_r; [|lia]. by replace (length esm + m - length esm) with m by lia. }
      pose proof (active_unique (P:=P) _ _ _ _ _ _ _ _ parent_index_ok Hi' Hm' He'
        (parent_active _ He2) Hce' Hh) as ->. congruence.
    - exfalso. apply Hz. rewrite Hhold. apply (cover_elem _ (ent_unit eo')); [|done].
      apply list_elem_of_fmap_2. by apply (list_elem_of_fmap_2 fst _ (eo', Uo)). }
  destruct (parent_new _ Hin) as (U & Hinn & _). by exists e', U.
Qed.

Lemma parent_reorganised eo :
  (∀ e U, (e, U) ∈ nl → fill_20 F N d < length U < overflow_at F N d) →
  length (latches s') ≤ length (latches s) → eo ∈ ol.*1 →
  reorganised s s' Γ parent_typing D x H c (fence eo).
Proof using All.
  intros Hdeg Hlat Ho. destruct Inv_parent as (HI' & Hincl & _ & Hsame). split; try done.
  intros k q j b Hk Hq Hj Hb. rewrite parent_lookup in Hq. injection Hq as <-.
  destruct (parent_child_new _ _ _ Ho Hk Hj) as (e & U & Hin & _ & Hb').
  rewrite Hb in Hb'. injection Hb' as ->.
  destruct (parent_child_ok _ _ Hin) as (n & Hn & Hnode). exists n. split; [done|].
  apply (node_at_degree F N _ _ _ _ _ _ (no_at _ _ _ _ _ _ _ _ Hnode)).
  destruct (Hdeg _ _ Hin). simpl. lia.
Qed.
End parent.
