(* ===== verification/Reorganise.v ===== *)
(** * Overflow and underflow below a parent

    [on_overflow_node] and [on_underflow_node] of [src/src/mv_tree/smo.rs] as
    the descent calls them: they cannot fail but for a sibling that is latched
    by another thread, they keep the history, and they leave a child that is
    neither too full nor too empty. *)
From Stdlib Require Import ZifyNat.
From S2P Require Import Prelude OrdMap Version Interval PageLen LeafPage InternalPage Node.
From S2P Require Import Clock Gc RootIndex RetryStats Tree Traversal Query.
From S2P Require Import Units NodeInv Store TreeInv Alloc Smo Sibling Parent.

#[local] Set Default Proof Using "Type*".
Ltac Zify.zify_post_hook ::= Z.to_euclidean_division_equations.

(** ** The parent page after the commit *)
Section page.
Context (F : nat).
Implicit Types (p : InternalPage) (es : list Entry) (e : Entry).

Lemma page_commit p p' es es' (da dd : Z) :
  int_wf F p es → int_rep F p' es' →
  int_len p' = from_active_dead (add_delta (active_len (int_len p)) da)
    (add_delta (dead_len (int_len p)) dd) →
  Z.of_nat (n_active es') = (Z.of_nat (n_active es) + da)%Z →
  (Z.of_nat (length es') = Z.of_nat (length es) + da + dd)%Z → int_wf F p' es'.
Proof.
  intros (Hrep & HF & Hc) Hrep' Hlen Ha Hl. split_and!; [done..|]. rewrite Hlen.
  apply int_rep_length in Hrep' as (_ & _ & _ & HF'). pose proof (n_active_le es').
  pose proof (n_active_le es). eapply len_counts_delta; [exact Hc|lia..].
Qed.

Lemma int_rep_mark_app p es news i e :
  int_rep F p (es ++ news) → es !! i = Some e →
  int_rep F (InternalPage.mark_version_obsolete p i) (<[i := mark e]> es ++ news).
Proof.
  intros Hrep Hi. rewrite -insert_app_l; [|by eapply lookup_lt_Some].
  apply int_rep_mark; [done|]. rewrite lookup_app_l //. by eapply lookup_lt_Some.
Qed.

Lemma n_active_mark_app es news i e :
  es !! i = Some e → active e → Forall active news →
  S (n_active (<[i := mark e]> es ++ news)) = n_active es + length news.
Proof.
  intros Hi He Hn. rewrite n_active_app (n_active_all _ Hn).
  pose proof (n_active_mark es i e Hi He). lia.
Qed.
End page.

Ltac wp_page H :=
  apply wp_bind; eapply wp_update_internal;
    [simpl; rewrite ?lookup_insert_eq; first [eassumption|reflexivity]|exact H|];
  cbn beta iota zeta.

Section reorganise.
Context {P : Type}.
Context {M : ∀ K, KeyOrder K → Type → Type} `{!OrdMap M}.
Context {R : Type} `{!RootStore R, !RootStoreLaws R}.
Context (F N : nat) (me : Tid).
Context (HF : 8 ≤ F) (HN : 8 ≤ N) (HF16 : (Z.of_nat F < 2 ^ 16)%Z) (HN16 : (Z.of_nat N < 2 ^ 16)%Z).
Local Abbreviation St := (@TreeSt P M R).
Implicit Types Γ : gmap BlockRef Ty.

(** A parent block with room for two entries, and one of its active children. *)
Record at_child (s : St) Γ (c : BlockRef) (d : nat) Ic ic p es (i : nat) (e : Entry) : Prop := {
  ac_typed : Γ !! c = Some (mkTy (S d) Ic ic);
  ac_page : heap s !! c = Some (Index p);
  ac_wf : int_wf F p es;
  ac_ok : index_ok (P:=P) (now s) Ic es;
  ac_entry : es !! i = Some e;
  ac_active : active e;
  ac_room : length es + 2 ≤ F;
  ac_fill : ic = true → fill_20 F N (S d) ≤ n_active es;
}.

Lemma at_child_old s Γ D x H c d Ic ic p es i e :
  Inv F N s Γ D x H → at_child s Γ c d Ic ic p es i e →
  ∃ n U t, heap s !! ptr e = Some n ∧ node_ok F N Γ (now s) (mkTy d (fence e) true) n U t ∧
    old_child F N s Γ d es e U.
Proof.
  intros HI [Hc Hp Hwf Hok Hi He _ _].
  destruct (typed_index F N _ _ _ _ _ _ _ (inv_store _ _ _ _ _ _ _ HI) Hc)
    as (q & es' & Hq & Hwfq & _ & _ & Hptr).
  rewrite Hp in Hq. injection Hq as <-. rewrite (int_wf_inj _ _ _ _ Hwfq Hwf) in Hptr.
  pose proof (list_elem_of_lookup_2 _ _ _ Hi) as Hin.
  destruct (inv_store _ _ _ _ _ _ _ HI _ _ (Hptr _ Hin He)) as (n & U & t & Hn & Hnode).
  exists n, U, t. split_and!; try done. split_and!; try done. by exists n, t.
Qed.

Lemma node_sizes d : 8 ≤ cap F N d ∧ fill_20 F N d = (cap F N d + 4) / 5 ∧
  overflow_at F N d + 1 ≥ cap F N d ∧ overflow_at F N d ≤ cap F N d.
Proof. unfold fill_20, cap, overflow_at. destruct d; lia. Qed.

Lemma holders_one (I : Interval) (m : Entry) k :
  fence m = I → cover (P:=P) k [ent_unit m] = inside I k.
Proof using Type.
  intros E. rewrite cover_cons /cover filter_nil /= /inside /hit /ent_unit /= E.
  by case_decide; destruct (Interval.contains I k).
Qed.

Lemma holders_two (I : Interval) pv (el er : Entry) k :
  fence el = Interval.new (lower I) (pv - 1) → fence er = Interval.new pv (upper I) →
  (lower I < pv ≤ upper I)%Z → cover (P:=P) k [ent_unit el; ent_unit er] = inside I k.
Proof using Type.
  clear. intros E2 E3 Hpv. rewrite (cover_app (P:=P) k [ent_unit el] [ent_unit er]).
  rewrite (holders_one _ _ _ E2) (holders_one _ _ _ E3). unfold inside, Interval.contains. simpl.
  repeat match goal with |- context [(?a <=? ?b)%Z] => destruct (Z.leb_spec a b) end; simpl; lia.
Qed.

Section commit.
Context (s s1 s' : St) Γ (D : nat) (x : Root) (H : History P).
Context (c : BlockRef) (d : nat) (Ic I : Interval) (ic : bool) (p p' : InternalPage).
Context (es esm : list Entry) (ol : list (Entry * list (Unit P))) (eo : Entry).
Context (HI : Inv F N s Γ D x H) (Hc : Γ !! c = Some (mkTy (S d) Ic ic)).
Context (Hp : heap s !! c = Some (Index p)) (Hwf : int_wf F p es).
Context (Hok : index_ok (P:=P) (now s) Ic es) (Hrm : remarked (P:=P) es ol.*1 esm).
Context (Hol : ∀ e U, (e, U) ∈ ol → old_child F N s Γ d es e U) (Heo : eo ∈ ol.*1).
Context (Hhold : ∀ k, cover k (holders ol) = inside I k) (HIc : Interval.covers Ic I = true).
Context (HIr : (lower I ≤ upper I)%Z) (Hg : grown s s1).
Context (Hheap : heap s' = <[c := Index p']> (heap s1)) (Hnext : next_block s' = next_block s1).
Context (Hroot : root s' = root s) (Htr : tracker s' = None) (Hnow : now s' = (now s + 1)%Z).
Context (Hlt : (now s + 1 < 2 ^ 63)%Z) (Hlat : length (latches s') ≤ length (latches s)).

(** The commit of one fresh child for the range [I]. *)
Lemma commit_one b n U :
  let m := mkEntry I (now s) b in
  next_block s ≤ b < next_block s1 → heap s1 !! b = Some n →
  node_at F N (now s) d I n U (length U) → U ≡ₚ contents ol →
  fill_20 F N d < length U < overflow_at F N d →
  int_wf F p' (esm ++ [m]) → (ic = true → fill_20 F N (S d) ≤ n_active (esm ++ [m])) →
  ∃ Γ', reorganised F N s s' Γ Γ' D x H c (fence eo).
Proof using All.
  intros m Hb En Hat HU Hdeg Hwf' Hfill. eexists.
  eapply (parent_reorganised F N s s1 s' Γ D x H c d Ic ic p p' es esm ol [(m, U)]); try done.
  - intros e' U' [= -> ->]%list_elem_of_singleton. split_and!; try done; try (simpl; lia).
    by exists n.
  - apply NoDup_singleton.
  - unfold contents at 1. simpl. by rewrite app_nil_r.
  - intros k. rewrite Hhold. by apply holders_one.
  - by intros e' U' [= -> ->]%list_elem_of_singleton.
Qed.

(** The commit of two fresh children, divided at [pv]. *)
Lemma commit_two pv l r nl nr Ul Ur :
  let el := mkEntry (Interval.new (lower I) (pv - 1)) (now s) l in
  let er := mkEntry (Interval.new pv (upper I)) (now s) r in
  l ≠ r → next_block s ≤ l < next_block s1 → next_block s ≤ r < next_block s1 →
  heap s1 !! l = Some nl → heap s1 !! r = Some nr →
  node_at F N (now s) d (fence el) nl Ul (length Ul) →
  node_at F N (now s) d (fence er) nr Ur (length Ur) →
  Ul ++ Ur ≡ₚ contents ol → (lower I < pv ≤ upper I)%Z →
  fill_20 F N d < length Ul < overflow_at F N d → fill_20 F N d < length Ur < overflow_at F N d →
  int_wf F p' (esm ++ [el; er]) →
  (ic = true → fill_20 F N (S d) ≤ n_active (esm ++ [el; er])) →
  ∃ Γ', reorganised F N s s' Γ Γ' D x H c (fence eo).
Proof using All.
  intros el er Hlr Hl Hr El Er Al Ar HP Hpv Dl Dr Hwf' Hfill. eexists.
  apply covers_spec in HIc as Hcov.
  eapply (parent_reorganised F N s s1 s' Γ D x H c d Ic ic p p' es esm ol [(el, Ul); (er, Ur)]);
    try done.
  - intros e' U' [[= -> ->]|[= -> ->]%list_elem_of_singleton]%elem_of_cons; split_and!;
      try done; try (simpl; lia); try (apply covers_spec; simpl; lia); by eexists.
  - simpl. constructor; [|by apply NoDup_singleton]. by intros ?%list_elem_of_singleton.
  - unfold contents at 1. simpl. by rewrite app_nil_r.
  - intros k. rewrite Hhold. by apply (holders_two I pv).
  - by intros e' U' [[= -> ->]|[= -> ->]%list_elem_of_singleton]%elem_of_cons.
Qed.
End commit.

(** ** The writes to the parent page

    The pushes of the new entries, the store of the counters, the obsolete
    marks and the end of the commit, as the four cases of the source have
    them. *)
Record committed (s1 s2 : St) (c : BlockRef) (p' : InternalPage) : Prop := {
  cm_heap : heap s2 = <[c := Index p']> (heap s1);
  cm_next : next_block s2 = next_block s1;
  cm_root : root s2 = root s1;
  cm_tracker : tracker s2 = tracker s1;
  cm_now : now s2 = (now s1 + 1)%Z;
  cm_latches : latches s2 = latches s1;
}.

Lemma rep_pointer p' es olds esm news m a :
  remarked (P:=P) es olds esm → int_rep F p' (esm ++ news) → es !! m = Some a →
  InternalPage.get_pointer p' m = Some (ptr a).
Proof using Type.
  intros Hrm Hrep Hm. assert (∃ a', esm !! m = Some a' ∧ ptr a' = ptr a) as (a' & Hm' & <-).
  { destruct (rm_entry _ _ _ Hrm _ _ Hm) as [->|[-> _]]; by eexists. }
  eapply int_rep_get; [exact Hrep|]. rewrite lookup_app_l //. by eapply lookup_lt_Some.
Qed.

Section writes.
Context (s1 : St) (c : BlockRef) (p : InternalPage) (es : list Entry) (i : nat) (e : Entry).
Context (Hp : heap s1 !! c = Some (Index p)) (Hwf : int_wf F p es).
Context (Hi : es !! i = Some e) (He : active e).
Context (H1 : (1 ≤ now s1)%Z) (Hlt : (now s1 + 1 < 2 ^ 63)%Z).

Lemma active_now f b : active (mkEntry f (now s1) b).
Proof using H1 Hlt. clear - H1 Hlt. apply is_active_small. simpl. lia. Qed.

Lemma wp_overflow_two lf l rf r (Q : Version → St → Prop) :
  let news := [mkEntry lf (now s1) l; mkEntry rf (now s1) r] in
  length es + 2 ≤ F →
  (∀ s2 p', committed s1 s2 c p' → int_wf F p' (<[i := mark e]> es ++ news) →
    n_active (<[i := mark e]> es ++ news) = n_active es + 1 → Q (now s1) s2) →
  wp (version ← start_tx_commit me;
      update_internal c (λ p, InternalPage.push_uncommitted F p lf version l (length es));;
      update_internal c (λ p, InternalPage.push_uncommitted F p rf version r (length es + 1));;
      update_internal c (λ p, Some (InternalPage.commit_delta p 1 1));;
      update_internal c (λ p, Some (InternalPage.mark_version_obsolete p i));;
      end_tx_commit me version;;
      mret version) s1 Q.
Proof using All.
  intros news Hroom HQ.
  destruct (int_rep_push F p es (mkEntry lf (now s1) l) (proj1 Hwf)) as (p1 & Hp1 & Hrep1 & Hl1);
    [lia|].
  destruct (int_rep_push F p1 _ (mkEntry rf (now s1) r) Hrep1) as (p2 & Hp2 & Hrep2 & Hl2);
    [rewrite length_app /=; lia|].
  rewrite -app_assoc /= in Hrep2. rewrite length_app /= in Hp2.
  pose proof (int_rep_mark_app F _ es news i e (int_rep_commit F _ _ 1 1 Hrep2) Hi) as Hrep3.
  apply wp_bind. eapply wp_start_tx; [lia|lia|]. intros ck Hck.
  wp_page Hp1. wp_page Hp2. wp_page (eq_refl (Some (InternalPage.commit_delta p2 1 1))).
  wp_page (eq_refl (Some (InternalPage.mark_version_obsolete (InternalPage.commit_delta p2 1 1) i))).
  apply wp_bind, wp_end_tx. intros ck2 Hck2. apply wp_ret.
  assert (Forall active news) as Hact by (repeat (apply Forall_cons; split; [apply active_now|]); done).
  pose proof (n_active_mark_app es news i e Hi He Hact) as Hna. simpl in Hna.
  eapply HQ; [|eapply page_commit; [exact Hwf|exact Hrep3|by rewrite /= Hl2 Hl1|lia|]|lia].
  - split; try done; [by rewrite /= !insert_insert_eq|]. unfold now in *. simpl in *. lia.
  - rewrite length_app length_insert /=. lia.
Qed.

Lemma wp_overflow_one f b (Q : Version → St → Prop) :
  let news := [mkEntry f (now s1) b] in
  length es + 2 ≤ F →
  (∀ s2 p', committed s1 s2 c p' → int_wf F p' (<[i := mark e]> es ++ news) →
    n_active (<[i := mark e]> es ++ news) = n_active es → Q (now s1) s2) →
  wp (version ← start_tx_commit me;
      update_internal c (λ p, InternalPage.push_uncommitted F p f version b (length es));;
      update_internal c (λ p, Some (InternalPage.commit_delta p 0 1));;
      update_internal c (λ p, Some (InternalPage.mark_version_obsolete p i));;
      end_tx_commit me version;;
      mret version) s1 Q.
Proof using All.
  intros news Hroom HQ.
  destruct (int_rep_push F p es (mkEntry f (now s1) b) (proj1 Hwf)) as (p1 & Hp1 & Hrep1 & Hl1);
    [lia|].
  pose proof (int_rep_mark_app F _ es news i e (int_rep_commit F _ _ 0 1 Hrep1) Hi) as Hrep3.
  apply wp_bind. eapply wp_start_tx; [lia|lia|]. intros ck Hck.
  wp_page Hp1. wp_page (eq_refl (Some (InternalPage.commit_delta p1 0 1))).
  wp_page (eq_refl (Some (InternalPage.mark_version_obsolete (InternalPage.commit_delta p1 0 1) i))).
  apply wp_bind, wp_end_tx. intros ck2 Hck2. apply wp_ret.
  assert (Forall active news) as Hact by (repeat (apply Forall_cons; split; [apply active_now|]); done).
  pose proof (n_active_mark_app es news i e Hi He Hact) as Hna. simpl in Hna.
  eapply HQ; [|eapply page_commit; [exact Hwf|exact Hrep3|by rewrite /= Hl1|lia|]|lia].
  - split; try done; [by rewrite /= !insert_insert_eq|]. unfold now in *. simpl in *. lia.
  - rewrite length_app length_insert /=. lia.
Qed.

Context (j : nat) (e' : Entry) (Hj : es !! j = Some e') (He' : active e') (Hij : j ≠ i).

Lemma writes_mark_two (p1 : InternalPage) news (da dd : Z) :
  int_rep F p1 (es ++ news) → Forall active news →
  let p3 := InternalPage.mark_version_obsolete
    (InternalPage.mark_version_obsolete (InternalPage.commit_delta p1 da dd) j) i in
  int_rep F p3 (<[i := mark e]> (<[j := mark e']> es) ++ news) ∧
  n_active (<[i := mark e]> (<[j := mark e']> es) ++ news) + 2 = n_active es + length news.
Proof using All.
  intros Hrep Hact p3.
  assert ((<[j := mark e']> es) !! i = Some e) as Hi' by by rewrite list_lookup_insert_ne.
  split.
  - apply int_rep_mark_app; [|done]. apply int_rep_mark_app; [done|done].
  - pose proof (n_active_mark_app (<[j := mark e']> es) news i e Hi' He Hact).
    pose proof (n_active_mark es j e' Hj He'). lia.
Qed.

(** The end of both cases of an underflow. *)
Lemma wp_underflow_end s2 p3 news (g : Guard) (Q : option Guard → St → Prop) :
  tracker s2 = None → heap s2 !! c = Some (Index p3) →
  int_rep F p3 (<[i := mark e]> (<[j := mark e']> es) ++ news) →
  (∀ ck, clock_time ck = now s2 → Q (Some g) (with_clock ck (with_tracker None s2))) →
  wp (page ← get_internal c;
      simba_p ← lift (InternalPage.get_pointer page i);
      sibling_p ← lift (InternalPage.get_pointer page j);
      register_dead_col [(now s1, simba_p); (now s1, sibling_p)];;
      end_tx_commit me (now s1);;
      mret (Some g)) s2 Q.
Proof using All.
  intros Ht Hc Hrep HQ.
  pose proof (remarked_two (P:=P) es i j e e' Hi Hj (not_eq_sym Hij) He He') as Hrm.
  apply wp_bind. eapply wp_get_internal; [done|].
  apply wp_bind. eapply wp_lift; [by apply (rep_pointer p3 es _ _ news i e Hrm)|].
  apply wp_bind. eapply wp_lift; [by apply (rep_pointer p3 es _ _ news j e' Hrm)|].
  apply wp_bind, wp_register_dead_col; [done|].
  apply wp_bind, wp_end_tx. intros ck Hck. by apply wp_ret, HQ.
Qed.

Lemma wp_underflow_one f b (g : Guard) (Q : option Guard → St → Prop) :
  let news := [mkEntry f (now s1) b] in
  length es + 2 ≤ F → tracker s1 = None →
  (∀ s2 p', committed s1 s2 c p' →
    int_wf F p' (<[i := mark e]> (<[j := mark e']> es) ++ news) →
    n_active (<[i := mark e]> (<[j := mark e']> es) ++ news) + 1 = n_active es → Q (Some g) s2) →
  wp (version ← start_tx_commit me;
      update_internal c (λ p, InternalPage.push_uncommitted F p f version b (length es));;
      update_internal c (λ p, Some (InternalPage.commit_delta p (-1) 2));;
      update_internal c (λ p, Some (InternalPage.mark_version_obsolete p j));;
      update_internal c (λ p, Some (InternalPage.mark_version_obsolete p i));;
      page ← get_internal c;
      simba_p ← lift (InternalPage.get_pointer page i);
      sibling_p ← lift (InternalPage.get_pointer page j);
      register_dead_col [(version, simba_p); (version, sibling_p)];;
      end_tx_commit me version;;
      mret (Some g)) s1 Q.
Proof using All.
  intros news Hroom Htr HQ.
  destruct (int_rep_push F p es (mkEntry f (now s1) b) (proj1 Hwf)) as (p1 & Hp1 & Hrep1 & Hl1);
    [lia|].
  assert (Forall active news) as Hact by (repeat (apply Forall_cons; split; [apply active_now|]); done).
  destruct (writes_mark_two p1 news (-1) 2 Hrep1 Hact) as [Hrep3 Hna]. simpl in Hna.
  apply wp_bind. eapply wp_start_tx; [lia|lia|]. intros ck Hck.
  wp_page Hp1. wp_page (eq_refl (Some (InternalPage.commit_delta p1 (-1) 2))).
  wp_page (eq_refl (Some (InternalPage.mark_version_obsolete (InternalPage.commit_delta p1 (-1) 2) j))).
  wp_page (eq_refl (Some (InternalPage.mark_version_obsolete
    (InternalPage.mark_version_obsolete (InternalPage.commit_delta p1 (-1) 2) j) i))).
  eapply wp_underflow_end; [done|by rewrite /= lookup_insert_eq|exact Hrep3|]. intros ck2 Hck2.
  eapply HQ; [|eapply page_commit; [exact Hwf|exact Hrep3|by rewrite /= Hl1|lia|]|lia].
  - split; try done; [by rewrite /= !insert_insert_eq|]. unfold now in *. simpl in *. lia.
  - rewrite length_app !length_insert /=. lia.
Qed.

Lemma wp_underflow_two lf l rf r (g : Guard) (Q : option Guard → St → Prop) :
  let news := [mkEntry lf (now s1) l; mkEntry rf (now s1) r] in
  length es + 2 ≤ F → tracker s1 = None →
  (∀ s2 p', committed s1 s2 c p' →
    int_wf F p' (<[i := mark e]> (<[j := mark e']> es) ++ news) →
    n_active (<[i := mark e]> (<[j := mark e']> es) ++ news) = n_active es → Q (Some g) s2) →
  wp (version ← start_tx_commit me;
      update_internal c (λ p, InternalPage.push_uncommitted F p lf version l (length es));;
      update_internal c (λ p, InternalPage.push_uncommitted F p rf version r (length es + 1));;
      update_internal c (λ p, Some (InternalPage.commit_delta p 0 2));;
      update_internal c (λ p, Some (InternalPage.mark_version_obsolete p j));;
      update_internal c (λ p, Some (InternalPage.mark_version_obsolete p i));;
      page ← get_internal c;
      simba_p ← lift (InternalPage.get_pointer page i);
      sibling_p ← lift (InternalPage.get_pointer page j);
      register_dead_col [(version, simba_p); (version, sibling_p)];;
      end_tx_commit me version;;
      mret (Some g)) s1 Q.
Proof using All.
  intros news Hroom Htr HQ.
  destruct (int_rep_push F p es (mkEntry lf (now s1) l) (proj1 Hwf)) as (p1 & Hp1 & Hrep1 & Hl1);
    [lia|].
  destruct (int_rep_push F p1 _ (mkEntry rf (now s1) r) Hrep1) as (p2 & Hp2 & Hrep2 & Hl2);
    [rewrite length_app /=; lia|].
  rewrite -app_assoc /= in Hrep2. rewrite length_app /= in Hp2.
  assert (Forall active news) as Hact by (repeat (apply Forall_cons; split; [apply active_now|]); done).
  destruct (writes_mark_two p2 news 0 2 Hrep2 Hact) as [Hrep3 Hna]. simpl in Hna.
  apply wp_bind. eapply wp_start_tx; [lia|lia|]. intros ck Hck.
  wp_page Hp1. wp_page Hp2. wp_page (eq_refl (Some (InternalPage.commit_delta p2 0 2))).
  wp_page (eq_refl (Some (InternalPage.mark_version_obsolete (InternalPage.commit_delta p2 0 2) j))).
  wp_page (eq_refl (Some (InternalPage.mark_version_obsolete
    (InternalPage.mark_version_obsolete (InternalPage.commit_delta p2 0 2) j) i))).
  eapply wp_underflow_end; [done|by rewrite /= lookup_insert_eq|exact Hrep3|]. intros ck2 Hck2.
  eapply HQ; [|eapply page_commit; [exact Hwf|exact Hrep3|by rewrite /= Hl2 Hl1|lia|]|lia].
  - split; try done; [by rewrite /= !insert_insert_eq|]. unfold now in *. simpl in *. lia.
  - rewrite length_app !length_insert /=. lia.
Qed.
End writes.

(** ** Overflow *)
Lemma committed_grown s s1 s2 c p' :
  grown s s1 → tracker s = None → committed s1 s2 c p' →
  heap s2 = <[c := Index p']> (heap s1) ∧ next_block s2 = next_block s1 ∧ root s2 = root s ∧
  tracker s2 = None ∧ now s2 = (now s + 1)%Z ∧ latches s2 = latches s.
Proof using Type.
  clear. intros [[E1 E2 E3 E4 E5] _ _ _] Ht [C1 C2 C3 C4 C5 C6]. split_and!; try congruence.
  unfold now in *. congruence.
Qed.

Lemma wp_overflow_end s2 c p' es i e news v w (Q : Guard → St → Prop) :
  es !! i = Some e → active e → heap s2 !! c = Some (Index p') → tracker s2 = None →
  int_rep F p' (<[i := mark e]> es ++ news) →
  Q (mkGuard c w) (with_tracker None s2) →
  wp (page ← get_internal c;
      dead ← lift (InternalPage.get_pointer page i);
      register_dead v dead;;
      mret (mkGuard c w)) s2 Q.
Proof using RootStore0.
  clear HF HN. intros Hi He Hc Ht Hrep HQ.
  pose proof (remarked_one (P:=P) es i e Hi He) as Hrm.
  apply wp_bind. eapply wp_get_internal; [done|].
  apply wp_bind. eapply wp_lift; [by apply (rep_pointer p' es _ _ news i e Hrm)|].
  by apply wp_bind, wp_register_dead.
Qed.

Section overflow.
Context (s : St) (Γ : gmap BlockRef Ty) (D : nat) (x : Root) (H : History P).
Context (c : BlockRef) (d : nat) (Ic : Interval) (ic : bool) (p : InternalPage).
Context (es : list Entry) (i : nat) (e : Entry).
Context (HI : Inv F N s Γ D x H) (Hac : at_child s Γ c d Ic ic p es i e).
Context (Hlt : (now s + 1 < 2 ^ 63)%Z).

(** The commit after a split by key, resp. by version. *)
Lemma overflow_key_split U s1 s2 p' pv l r nl nr Ul Ur :
  old_child F N s Γ d es e U → grown s s1 → l ≠ r →
  next_block s ≤ l < next_block s1 → next_block s ≤ r < next_block s1 →
  heap s1 !! l = Some nl → heap s1 !! r = Some nr →
  node_at F N (now s) d (Interval.new (lower (fence e)) (pv - 1)) nl Ul (length Ul) →
  node_at F N (now s) d (Interval.new pv (upper (fence e))) nr Ur (length Ur) →
  Ul ++ Ur ≡ₚ U → length Ul = length U / 2 → (lower (fence e) < pv ≤ upper (fence e))%Z →
  fill_80 F N d ≤ length U ≤ cap F N d → committed s1 s2 c p' →
  let news := [mkEntry (Interval.new (lower (fence e)) (pv - 1)) (now s) l;
               mkEntry (Interval.new pv (upper (fence e))) (now s) r] in
  int_wf F p' (<[i := mark e]> es ++ news) →
  n_active (<[i := mark e]> es ++ news) = n_active es + 1 →
  ∃ Γ', reorganised F N s (with_tracker None s2) Γ Γ' D x H c (fence e).
Proof using All.
  intros Hold Hg Hlr Hl Hr El Er Al Ar HP Hlen Hpv HU Hcm news Hwf' Hna.
  destruct Hac as [Hc Hp Hwf Hok Hi He Hroom Hfill].
  destruct (committed_grown _ _ _ _ _ Hg (inv_tracker _ _ _ _ _ _ _ HI) Hcm)
    as (C1 & C2 & C3 & C4 & C5 & C6).
  pose proof (io_ents _ _ _ Hok _ (list_elem_of_lookup_2 _ _ _ Hi)) as (_ & Hle & Hcov).
  assert (length Ul + length Ur = length U) as Hsum by (rewrite -length_app HP //).
  destruct (node_sizes d) as (H8 & H20 & Ho1 & Ho2). unfold fill_80 in HU.
  eapply (commit_two s s1 (with_tracker None s2) Γ D x H c d Ic (fence e) ic p p' es
    (<[i := mark e]> es) [(e, U)] e) with (pv := pv) (l := l) (r := r) (nl := nl) (nr := nr)
    (Ul := Ul) (Ur := Ur); try done.
  - by apply remarked_one.
  - by intros ?? [= -> ->]%list_elem_of_singleton.
  - by left.
  - intros k. by apply holders_one.
  - by rewrite /= C6.
  - unfold contents. simpl. by rewrite app_nil_r.
  - lia.
  - lia.
  - fold news. intros Hic. specialize (Hfill Hic). lia.
Qed.

Lemma overflow_version_split U U' s1 s2 p' b n :
  old_child F N s Γ d es e U → grown s s1 → next_block s ≤ b < next_block s1 →
  heap s1 !! b = Some n → node_at F N (now s) d (fence e) n U' (length U') → U' ≡ₚ U →
  fill_20 F N d < length U < fill_80 F N d → committed s1 s2 c p' →
  let news := [mkEntry (fence e) (now s) b] in
  int_wf F p' (<[i := mark e]> es ++ news) →
  n_active (<[i := mark e]> es ++ news) = n_active es →
  ∃ Γ', reorganised F N s (with_tracker None s2) Γ Γ' D x H c (fence e).
Proof using All.
  intros Hold Hg Hb En An HP HU Hcm news Hwf' Hna.
  destruct Hac as [Hc Hp Hwf Hok Hi He Hroom Hfill].
  destruct (committed_grown _ _ _ _ _ Hg (inv_tracker _ _ _ _ _ _ _ HI) Hcm)
    as (C1 & C2 & C3 & C4 & C5 & C6).
  pose proof (io_ents _ _ _ Hok _ (list_elem_of_lookup_2 _ _ _ Hi)) as (_ & Hle & Hcov).
  assert (length U' = length U) as Hlen by by rewrite HP.
  destruct (node_sizes d) as (H8 & H20 & Ho1 & Ho2). unfold fill_80 in HU.
  eapply (commit_one s s1 (with_tracker None s2) Γ D x H c d Ic (fence e) ic p p' es
    (<[i := mark e]> es) [(e, U)] e) with (b := b) (n := n) (U := U'); try done.
  - by apply remarked_one.
  - by intros ?? [= -> ->]%list_elem_of_singleton.
  - by left.
  - intros k. by apply holders_one.
  - by rewrite /= C6.
  - unfold contents. simpl. by rewrite app_nil_r.
  - lia.
  - fold news. intros Hic. specialize (Hfill Hic). lia.
Qed.

Lemma wp_on_overflow_node w w' n U t (Q : Guard → St → Prop) :
  heap s !! ptr e = Some n → node_ok F N Γ (now s) (mkTy d (fence e) true) n U t →
  unsafe_degree F N n = Overflow →
  (∀ s' Γ', reorganised F N s s' Γ Γ' D x H c (fence e) → latches s' = latches s →
    Q (mkGuard c w) s') →
  wp (on_overflow_node F N me (mkGuard c w) (mkGuard (ptr e) w') i) s Q.
Proof using All.
  intros Hn Hnode Hdeg HQ. pose proof Hac as [Hc Hp Hwf Hok Hi He Hroom Hfill].
  pose proof (no_at _ _ _ _ _ _ _ _ Hnode) as Hat. simpl in Hat.
  pose proof (no_range _ _ _ _ _ _ _ _ Hnode) as [Hrange _]. simpl in Hrange.
  apply (unsafe_degree_overflow F N _ _ _ (node_at_counts _ _ _ _ _ _ _ _ Hat)) in Hdeg as [H40 Hov].
  destruct (node_at_limits _ _ _ _ _ _ _ _ Hat) as [E20 _]. rewrite E20 in H40.
  pose proof (node_at_bound _ _ _ _ _ _ _ _ Hat) as HUt.
  pose proof (inv_time _ _ _ _ _ _ _ HI) as Htime. pose proof (inv_tracker _ _ _ _ _ _ _ HI) as Htr.
  pose proof (inv_fresh _ _ _ _ _ _ _ HI) as Hfr.
  destruct (int_rep_get _ _ _ _ _ (proj1 Hwf) Hi) as (Hgk & _ & _).
  assert (old_child F N s Γ d es e U) as Hold.
  { split_and!; [by eapply list_elem_of_lookup_2|done|by exists n, t]. }
  unfold on_overflow_node. cbn [g_block].
  apply wp_bind. eapply wp_get_internal; [done|]. apply wp_bind. eapply wp_lift; [done|].
  rewrite (int_wf_sum _ _ _ Hwf). apply wp_bind.
  eapply (wp_split F N HF HN HF16 HN16 (now s) d (fence e)); [done..|].
  intros sp s1 [[H80 (pv & l & r & nl & nr & Ul & Ur & -> & Hg & Hlr & Hl & Hr & El & Er & Al & Ar &
    HP & Hlen & Hpv)]|[H80 (b & m & U' & -> & Hg & Hb & Em & Am & HP)]];
    assert (now s1 = now s) as Hnow by (unfold now; by rewrite (se_clock _ _ (gr_env _ _ Hg)));
    apply wp_bind.
  - eapply (wp_overflow_two s1 c p es i e); [by eapply grown_lookup|done..|lia|lia|done|].
    rewrite Hnow. intros s2 p' Hcm Hwf' Hna.
    destruct (committed_grown _ _ _ _ _ Hg Htr Hcm) as (C1 & _ & _ & C4 & _ & C6).
    eapply (wp_overflow_end s2 c p' es i e); [done..|by rewrite C1 lookup_insert_eq|done|apply Hwf'|].
    destruct (overflow_key_split U s1 s2 p' pv l r nl nr Ul Ur) as [Γ' Hre]; try done; [lia|].
    by apply (HQ _ Γ').
  - eapply (wp_overflow_one s1 c p es i e); [by eapply grown_lookup|done..|lia|lia|done|].
    rewrite Hnow. intros s2 p' Hcm Hwf' Hna.
    destruct (committed_grown _ _ _ _ _ Hg Htr Hcm) as (C1 & _ & _ & C4 & _ & C6).
    eapply (wp_overflow_end s2 c p' es i e); [done..|by rewrite C1 lookup_insert_eq|done|apply Hwf'|].
    destruct (overflow_version_split U U' s1 s2 p' b m) as [Γ' Hre]; try done; [lia|].
    by apply (HQ _ Γ').
Qed.
End overflow.

(** ** Underflow *)
Lemma reorganised_latches (s s' : St) l Γ Γ' D x (H : History P) c I :
  length l ≤ length (latches s) →
  reorganised F N (with_latches l s) s' Γ Γ' D x H c I → reorganised F N s s' Γ Γ' D x H c I.
Proof using Type. clear. intros Hl [H1 H2 H3 H4 H5 H6]. split; try done. simpl in H4. lia. Qed.

Section underflow.
Context (s : St) (Γ : gmap BlockRef Ty) (D : nat) (x : Root) (H : History P).
Context (c : BlockRef) (d : nat) (Ic : Interval) (ic : bool) (p : InternalPage).
Context (es : list Entry) (i j : nat) (e e' : Entry) (n n' : Node P) (U U' : list (Unit P)) (t t' : nat).
Context (HI : Inv F N s Γ D x H) (Hac : at_child s Γ c d Ic ic p es i e).
Context (Hlt : (now s + 1 < 2 ^ 63)%Z) (Hicf : ic = true → fill_20 F N (S d) < n_active es).
Context (Hj : es !! j = Some e') (He' : active e') (Hij : j ≠ i) (Hadj : adjacent (fence e) (fence e')).
Context (Hn : heap s !! ptr e = Some n) (Hn' : heap s !! ptr e' = Some n').
Context (Hnode : node_ok F N Γ (now s) (mkTy d (fence e) true) n U t).
Context (Hnode' : node_ok F N Γ (now s) (mkTy d (fence e') true) n' U' t').
Local Abbreviation I := (Interval.merge (fence e) (fence e')).
Local Abbreviation esm := (<[i := mark e]> (<[j := mark e']> es)).
Local Abbreviation ol := [(e, U); (e', U')].

Lemma underflow_olds :
  remarked (P:=P) es ol.*1 esm ∧ (∀ a V, (a, V) ∈ ol → old_child F N s Γ d es a V) ∧
  (∀ k, cover k (holders ol) = inside I k) ∧ Interval.covers Ic I = true ∧
  (0 ≤ lower I ≤ upper I)%Z ∧ (0 ≤ lower (fence e) ≤ upper (fence e))%Z ∧
  (0 ≤ lower (fence e') ≤ upper (fence e'))%Z.
Proof using All.
  destruct Hac as [Hc Hp Hwf Hok Hi He Hroom Hfill].
  pose proof (no_range _ _ _ _ _ _ _ _ Hnode) as [Hr _].
  pose proof (no_range _ _ _ _ _ _ _ _ Hnode') as [Hr' _]. simpl in Hr, Hr'.
  pose proof (list_elem_of_lookup_2 _ _ _ Hi) as Hin. pose proof (list_elem_of_lookup_2 _ _ _ Hj) as Hin'.
  pose proof (io_ents _ _ _ Hok _ Hin) as (_ & _ & Hcov).
  pose proof (io_ents _ _ _ Hok _ Hin') as (_ & _ & Hcov'). apply covers_spec in Hcov, Hcov'.
  split_and!; try lia.
  - apply remarked_two; [done..|by apply not_eq_sym|done|done].
  - intros a V [[= -> ->]|[= -> ->]%list_elem_of_singleton]%elem_of_cons;
      (split_and!; [done..|by eexists _, _]).
  - intros k. unfold holders. simpl.
    rewrite (cover_app (P:=P) k [ent_unit e] [ent_unit e']) !(holders_one _ _ _ eq_refl).
    symmetry. apply inside_merge; [done|lia..].
  - apply covers_spec. simpl. lia.
  - apply merge_range; lia.
  - apply merge_range; lia.
Qed.

Lemma underflow_merged s1 s2 p' b :
  version_split F N (now s) d I (U ++ U') s s1 (ByVersion b) → committed s1 s2 c p' →
  fill_20 F N d < length U + length U' < overflow_at F N d →
  let news := [mkEntry I (now s) b] in
  int_wf F p' (esm ++ news) → n_active (esm ++ news) + 1 = n_active es →
  ∃ Γ', reorganised F N s s2 Γ Γ' D x H c (fence e).
Proof using All.
  intros (b' & m & V & [= <-] & Hg & Hb & Em & Am & HV) Hcm Hdeg news Hwf' Hna.
  destruct underflow_olds as (Hrm & Hol & Hhold & Hcov & Hr & _ & _).
  destruct Hac as [Hc Hp Hwf Hok Hi He Hroom Hfill].
  destruct (committed_grown _ _ _ _ _ Hg (inv_tracker _ _ _ _ _ _ _ HI) Hcm)
    as (C1 & C2 & C3 & C4 & C5 & C6).
  assert (length V = length U + length U') as Hlen by by rewrite HV length_app.
  eapply (commit_one s s1 s2 Γ D x H c d Ic I ic p p' es esm ol e) with (b := b) (n := m) (U := V);
    try done.
  - by left.
  - lia.
  - by rewrite C6.
  - unfold contents. simpl. by rewrite app_nil_r.
  - by rewrite Hlen.
  - fold news. intros Hic. pose proof (Hicf Hic). lia.
Qed.

Lemma underflow_key_split s1 s2 p' lf l rf r :
  key_split F N (now s) d I (U ++ U') s s1 (ByKey lf l rf r) → committed s1 s2 c p' →
  4 * cap F N d / 5 < length U + length U' ≤ cap F N d + 2 * fill_20 F N d →
  let news := [mkEntry lf (now s) l; mkEntry rf (now s) r] in
  int_wf F p' (esm ++ news) → n_active (esm ++ news) = n_active es →
  ∃ Γ', reorganised F N s s2 Γ Γ' D x H c (fence e).
Proof using All.
  intros (pv & l' & r' & nl & nr & Ul & Ur & [= -> -> -> ->] & Hg & Hlr & Hl & Hr & El & Er & Al & Ar &
    HP & Hlen & Hpv) Hcm Hdeg news Hwf' Hna.
  destruct underflow_olds as (Hrm & Hol & Hhold & Hcov & Hri & _ & _).
  destruct Hac as [Hc Hp Hwf Hok Hi He Hroom Hfill].
  destruct (committed_grown _ _ _ _ _ Hg (inv_tracker _ _ _ _ _ _ _ HI) Hcm)
    as (C1 & C2 & C3 & C4 & C5 & C6).
  assert (length Ul + length Ur = length U + length U') as Hsum by (rewrite -!length_app HP //).
  rewrite length_app in Hlen. destruct (node_sizes d) as (H8 & H20 & Ho1 & Ho2).
  eapply (commit_two s s1 s2 Γ D x H c d Ic I ic p p' es esm ol e) with (pv := pv) (l := l') (r := r')
    (nl := nl) (nr := nr) (Ul := Ul) (Ur := Ur); try done.
  - by left.
  - lia.
  - by rewrite C6.
  - unfold contents. simpl. by rewrite app_nil_r.
  - lia.
  - lia.
  - intros Hic. pose proof (Hicf Hic) as Hl2. rewrite -Hna in Hl2. exact (Nat.lt_le_incl _ _ Hl2).
Qed.

(** What [merge] returns when it got hold of the sibling, from the state [s]. *)
Inductive merge_result (w : bool) : MergeResult → St → Prop :=
  | mr_merged b s1 :
      version_split F N (now s) d I (U ++ U') s s1 (ByVersion b) →
      length U + length U' ≤ 4 * cap F N d / 5 →
      merge_result w (Merged j (fence e') b (mkGuard (ptr e') w)) s1
  | mr_split sp s1 :
      key_split F N (now s) d I (U ++ U') s s1 sp →
      4 * cap F N d / 5 < length U + length U' →
      merge_result w (KeySplit j sp (mkGuard (ptr e') w)) s1.

(** The part of [merge] after the sibling is latched. *)
Lemma wp_merge_latched w (Q : MergeResult → St → Prop) :
  length U ≤ 2 * fill_20 F N d →
  (∀ m s1, merge_result w m s1 → Q m s1) →
  wp (candidate_node ← read_block (ptr e');
      if decide ((counts candidate_node).1 + length U ≤ 4 * cap F N d / 5) then
        combined_block ← (if bool_decide (d = 0) then merge_leaf_blocks N (ptr e) (ptr e')
                          else merge_index_blocks F (ptr e) (ptr e'));
        mret (Merged j (fence e') combined_block (mkGuard (ptr e') w))
      else
        s ← (if bool_decide (d = 0)
             then redistribute_leaves N (ptr e) (ptr e') (fence e) (fence e')
             else redistribute_indexes F (ptr e) (ptr e') (fence e) (fence e'));
        mret (KeySplit j s (mkGuard (ptr e') w))) s Q.
Proof using All.
  intros H40 HQ. destruct underflow_olds as (_ & _ & _ & _ & _ & Hre & Hre').
  pose proof (no_at _ _ _ _ _ _ _ _ Hnode) as Hat. pose proof (no_at _ _ _ _ _ _ _ _ Hnode') as Hat'.
  simpl in Hat, Hat'. pose proof (node_at_bound _ _ _ _ _ _ _ _ Hat).
  pose proof (node_at_bound _ _ _ _ _ _ _ _ Hat').
  pose proof (inv_tracker _ _ _ _ _ _ _ HI) as Htr. pose proof (inv_fresh _ _ _ _ _ _ _ HI) as Hfr.
  destruct (node_sizes d) as (H8 & H20 & Ho1 & Ho2).
  apply wp_bind. eapply wp_read_block; [done|].
  rewrite (counts_node _ _ _ _ _ (node_at_counts _ _ _ _ _ _ _ _ Hat')). cbn [fst].
  assert (∀ d, d ≠ 0 → ∃ d', d = S d') as HS by (intros [|d']; [done|by exists d']).
  case_decide as Hfit; apply wp_bind; case_bool_decide as Hd;
    [|apply HS in Hd as [d' Hd]| |apply HS in Hd as [d' Hd]];
    [assert (cap F N d = N) by by rewrite Hd|assert (cap F N d = F) by by rewrite Hd|
     assert (cap F N d = N) by by rewrite Hd|assert (cap F N d = F) by by rewrite Hd].
  - eapply (wp_merge_leaf_blocks F N HF HN HF16 HN16 (now s) d (fence e) (fence e') n n' U U');
      try done; [lia|].
    intros b s1 Hs1. apply wp_ret, HQ. constructor; [done|lia].
  - eapply (wp_merge_index_blocks F N HF HN HF16 HN16 (now s) d (fence e) (fence e') n n' U U');
      try done; [lia|].
    intros b s1 Hs1. apply wp_ret, HQ. constructor; [done|lia].
  - eapply (wp_redistribute_leaves F N HF HN HF16 HN16 (now s) d (fence e) (fence e') n n' U U');
      try done; [lia|].
    intros sp s1 Hs1. apply wp_ret, HQ. constructor; [done|lia].
  - eapply (wp_redistribute_indexes F N HF HN HF16 HN16 (now s) d (fence e) (fence e') n n' U U');
      try done; [lia|].
    intros sp s1 Hs1. apply wp_ret, HQ. constructor; [done|lia].
Qed.

(** The commit of what [merge] returned. *)
Lemma wp_underflow_commit w w' m s1 (Q : option Guard → St → Prop) :
  merge_result w' m s1 →
  fill_20 F N d ≤ length U ≤ 2 * fill_20 F N d → fill_20 F N d ≤ length U' ≤ cap F N d →
  (∀ s' Γ', reorganised F N s s' Γ Γ' D x H c (fence e) → Q (Some (mkGuard c w)) s') →
  wp (match m with
      | Merged index_sibling fence_sibling merged_block _ =>
          page ← get_internal c;
          let mufasa_len := InternalPage.sum_len page in
          simba_fence ← lift (InternalPage.get_key page i);
          let merged_fence := Interval.merge simba_fence fence_sibling in
          version ← start_tx_commit me;
          update_internal c (λ p,
            InternalPage.push_uncommitted F p merged_fence version merged_block mufasa_len);;
          update_internal c (λ p, Some (InternalPage.commit_delta p (-1) 2));;
          update_internal c (λ p, Some (InternalPage.mark_version_obsolete p index_sibling));;
          update_internal c (λ p, Some (InternalPage.mark_version_obsolete p i));;
          page ← get_internal c;
          simba_p ← lift (InternalPage.get_pointer page i);
          sibling_p ← lift (InternalPage.get_pointer page index_sibling);
          register_dead_col [(version, simba_p); (version, sibling_p)];;
          end_tx_commit me version;;
          mret (Some (mkGuard c w))
      | KeySplit index_sibling (ByKey left_interval left_block right_interval right_block) _ =>
          page ← get_internal c;
          let mufasa_len := InternalPage.sum_len page in
          version ← start_tx_commit me;
          update_internal c (λ p,
            InternalPage.push_uncommitted F p left_interval version left_block mufasa_len);;
          update_internal c (λ p,
            InternalPage.push_uncommitted F p right_interval version right_block (mufasa_len + 1));;
          update_internal c (λ p, Some (InternalPage.commit_delta p 0 2));;
          update_internal c (λ p, Some (InternalPage.mark_version_obsolete p index_sibling));;
          update_internal c (λ p, Some (InternalPage.mark_version_obsolete p i));;
          page ← get_internal c;
          simba_p ← lift (InternalPage.get_pointer page i);
          sibling_p ← lift (InternalPage.get_pointer page index_sibling);
          register_dead_col [(version, simba_p); (version, sibling_p)];;
          end_tx_commit me version;;
          mret (Some (mkGuard c w))
      | _ => mret None
      end) s1 Q.
Proof using All.
  intros Hm HU HU' HQ. pose proof Hac as [Hc Hp Hwf Hok Hi He Hroom Hfill].
  pose proof (inv_tracker _ _ _ _ _ _ _ HI) as Htr. pose proof (inv_time _ _ _ _ _ _ _ HI) as Htime.
  destruct (node_sizes d) as (H8 & H20 & Ho1 & Ho2).
  destruct (int_rep_get _ _ _ _ _ (proj1 Hwf) Hi) as (Hgk & _ & _).
  destruct Hm as [b s1 Hsp Hfit|sp s1 Hsp Hfit].
  - pose proof Hsp as (b' & m & V & [= <-] & Hg & _).
    pose proof (grown_lookup _ _ _ _ Hg (inv_fresh _ _ _ _ _ _ _ HI) Hp) as Hp1.
    assert (now s1 = now s) as Hnow by (unfold now; by rewrite (se_clock _ _ (gr_env _ _ Hg))).
    apply wp_bind. eapply wp_get_internal; [done|]. cbn beta zeta. rewrite (int_wf_sum _ _ _ Hwf).
    apply wp_bind. eapply wp_lift; [done|]. cbn beta zeta.
    eapply (wp_underflow_one s1 c p es i e Hp1 Hwf Hi He); [lia|lia|done..| |].
    { by rewrite (se_tracker _ _ (gr_env _ _ Hg)). }
    rewrite Hnow. intros s2 p' Hcm Hwf' Hna.
    destruct (underflow_merged s1 s2 p' b) as [Γ' Hre]; [done..|lia|done|done|]. by apply (HQ _ Γ').
  - pose proof Hsp as (pv & l & r & nl & nr & Ul & Ur & -> & Hg & _).
    pose proof (grown_lookup _ _ _ _ Hg (inv_fresh _ _ _ _ _ _ _ HI) Hp) as Hp1.
    assert (now s1 = now s) as Hnow by (unfold now; by rewrite (se_clock _ _ (gr_env _ _ Hg))).
    apply wp_bind. eapply wp_get_internal; [done|]. cbn beta zeta. rewrite (int_wf_sum _ _ _ Hwf).
    eapply (wp_underflow_two s1 c p es i e Hp1 Hwf Hi He); [lia|lia|done..| |].
    { by rewrite (se_tracker _ _ (gr_env _ _ Hg)). }
    rewrite Hnow. intros s2 p' Hcm Hwf' Hna.
    destruct (underflow_key_split s1 s2 p' _ _ _ _ Hsp Hcm) as [Γ' Hre]; [lia|done|done|].
    by apply (HQ _ Γ').
Qed.
End underflow.

Lemma at_child_latches s Γ c d Ic ic p es i e l :
  at_child s Γ c d Ic ic p es i e → at_child (with_latches l s) Γ c d Ic ic p es i e.
Proof using Type. by intros [H1 H2 H3 H4 H5 H6 H7 H8]. Qed.

(** The underflow of the child [e]: it fails only when a latch was lost. *)
Lemma wp_on_underflow_node s Γ D x H c d Ic ic p es i e n U t w w' (Q : option Guard → St → Prop) :
  Inv F N s Γ D x H → at_child s Γ c d Ic ic p es i e → (now s + 1 < 2 ^ 63)%Z →
  (ic = true → fill_20 F N (S d) < n_active es) → 2 ≤ n_active es →
  heap s !! ptr e = Some n → node_ok F N Γ (now s) (mkTy d (fence e) true) n U t →
  unsafe_degree F N n = ActiveUnderflow →
  (∀ s' Γ', reorganised F N s s' Γ Γ' D x H c (fence e) → Q (Some (mkGuard c w)) s') →
  (∀ l, length l < length (latches s) → Q None (with_latches l s)) →
  wp (on_underflow_node F N me (mkGuard c w) (mkGuard (ptr e) w') i) s Q.
Proof.
  intros HI Hac Hlt Hicf H2 Hn Hnode Hdeg HQ1 HQ2.
  pose proof Hac as [Hc Hp Hwf Hok Hi He Hroom Hfill].
  pose proof (no_at _ _ _ _ _ _ _ _ Hnode) as Hat. simpl in Hat.
  pose proof (no_fill _ _ _ _ _ _ _ _ Hnode eq_refl) as H20. simpl in H20.
  apply (unsafe_degree_underflow F N _ _ _ (node_at_counts _ _ _ _ _ _ _ _ Hat)) in Hdeg.
  destruct (node_at_limits _ _ _ _ _ _ _ _ Hat) as [E20 _]. rewrite E20 in Hdeg.
  assert (length U ≤ 2 * fill_20 F N d) as H40 by lia. clear Hdeg.
  destruct (compute_candidate_ok (P:=P) F _ _ _ _ _ _ Hwf Hok Hi He H2)
    as (j & e' & Hcand & Hj & Hij & He' & Hadj).
  destruct (int_rep_get _ _ _ _ _ (proj1 Hwf) Hi) as (Hgk & _ & _).
  destruct (at_child_old s Γ D x H c d Ic ic p es j e' HI) as (n' & U' & t' & Hn' & Hnode' & _).
  { by split. }
  pose proof (no_at _ _ _ _ _ _ _ _ Hnode') as Hat'. simpl in Hat'.
  pose proof (no_fill _ _ _ _ _ _ _ _ Hnode' eq_refl) as H20'. simpl in H20'.
  pose proof (node_at_bound _ _ _ _ _ _ _ _ Hat').
  unfold on_underflow_node, merge. cbn [g_block].
  apply wp_bind, wp_bind. eapply wp_get_internal; [done|].
  apply wp_bind. eapply wp_read_block; [done|]. cbn beta zeta.
  apply wp_bind. eapply wp_lift; [done|]. rewrite Hcand. cbn beta iota zeta.
  apply wp_bind, wp_ret, wp_bind, wp_upgrade. cbn [g_block]. intros o w1 l Hl Hf.
  cbn beta iota. destruct o; cbn beta iota.
  2:{ apply wp_ret, wp_ret. by apply HQ2, Hf. }
  rewrite (node_at_leaf _ _ _ _ _ _ _ _ Hat) (proj1 (node_at_cap _ _ _ _ _ _ _ _ Hat)).
  rewrite (counts_node _ _ _ _ _ (node_at_counts _ _ _ _ _ _ _ _ Hat)). cbn [fst].
  pose proof (Inv_latches F N _ _ _ _ _ l HI) as HIl.
  pose proof (at_child_latches _ _ _ _ _ _ _ _ _ _ l Hac) as Hacl.
  eapply (wp_merge_latched (with_latches l s) Γ D x H c d Ic ic p es i j e e' n n' U U' t t'); try done.
  intros m s1 Hm.
  eapply (wp_underflow_commit (with_latches l s) Γ D x H c d Ic ic p es i j e e' n n' U U' t t');
    try done; [lia|].
  intros s' Γ' Hre. apply (HQ1 s' Γ'). by eapply reorganised_latches.
Qed.
End reorganise.
