(* ===== verification/RootOps.v ===== *)
(** * Replacing the root

    [split_root] and [merge_root] of [src/src/mv_tree/smo.rs], and the choice
    between them in [retrieve_root_write_olc] of [src/src/mv_query/olc_query.rs]:
    a new root under the next version holds what the old root, or its only
    child, held, so that no read at any version sees the difference. *)
From Stdlib Require Import ZifyNat.
From S2P Require Import Prelude OrdMap Version Interval PageLen LeafPage InternalPage Node.
From S2P Require Import Clock Gc RootIndex RetryStats Tree Traversal Query.
From S2P Require Import Units NodeInv Store TreeInv Alloc Smo Sibling Parent Reorganise.

#[local] Set Default Proof Using "Type*".
Ltac Zify.zify_post_hook ::= Z.to_euclidean_division_equations.

Section root_ops.
Context {P : Type}.
Context {M : ∀ K, KeyOrder K → Type → Type} `{!OrdMap M}.
Context {R : Type} `{!RootStore R, !RootStoreLaws R}.
Context (F N : nat) (me : Tid).
Context (HF : 8 ≤ F) (HN : 8 ≤ N) (HF16 : (Z.of_nat F < 2 ^ 16)%Z) (HN16 : (Z.of_nat N < 2 ^ 16)%Z).
Local Abbreviation St := (@TreeSt P M R).
Implicit Types (s : St) (Γ : gmap BlockRef Ty) (H : History P) (x : Root).

(** A block the descent may work below: it has room for what a reorganisation
    adds, and can do without what it takes away. *)
Definition ready s Γ (b : BlockRef) (ty : Ty) : Prop :=
  ∃ n U t, heap s !! b = Some n ∧ node_ok F N Γ (now s) ty n U t ∧
    t < overflow_at F N (ty_depth ty) ∧
    (ty_inner ty = true → fill_20 F N (ty_depth ty) < length U) ∧
    (ty_depth ty ≠ 0 → 2 ≤ length U).

(** Blocks outside of the typing do not matter. *)
Lemma read_grown (h h' : gmap BlockRef (Node P)) Γ T d b I i k v :
  store_ok F N h Γ T → (T - 1 ≤ v)%Z →
  (∀ b ty, Γ !! b = Some ty → h' !! b = h !! b) →
  Γ !! b = Some (mkTy d I i) → Interval.contains I k = true →
  read_from (S d) h' b k v = read_from (S d) h b k v.
Proof using Type.
  clear. intros Hs Hv Hh Hb HI.
  eapply (read_replace F N h h' Γ T b k v); [done|done|by intros ??? _; eapply Hh| |done|done].
  intros d' I' i' Hb' HI'. rewrite Hb in Hb'. injection Hb' as <- <- <-.
  clear HI'. revert b I i Hb HI. induction d as [|d IH]; intros b I i Hb HI.
  - by rewrite !read_from_S (Hh _ _ Hb).
  - destruct (Hs _ _ Hb) as (n & U & t & Hn & Hok).
    destruct (read_index F N _ _ _ _ _ _ _ _ _ k v (S d) _ Hn Hok HI)
      as (J & c & p & j & -> & _ & _ & _ & Hp & HJ & Hc & Hr).
    pose proof Hn as Hn'. rewrite -(Hh _ _ Hb) in Hn'.
    destruct (read_index F N h' _ _ _ _ _ _ _ _ k v (S d) _ Hn' Hok HI)
      as (J' & c' & p' & j' & [= <-] & _ & _ & _ & Hp' & _ & _ & Hr').
    rewrite Hr // Hr' //. rewrite Hp in Hp'. injection Hp' as <- <-. by eapply IH.
Qed.

Section split_root.
Context (s : St) (Γ : gmap BlockRef Ty) (D : nat) (x : Root) (H : History P).
Context (c : BlockRef) (d : nat) (ic : bool) (n : Node P) (U : list (Unit P)) (t : nat).
Context (HI : Inv F N s Γ D x H) (HdD : d ≤ D) (H2 : (2 ≤ now s)%Z) (Hlt : (now s + 1 < 2 ^ 63)%Z).
Context (Hn : heap s !! c = Some n) (Hnode : node_ok F N Γ (now s) (mkTy d KEYS ic) n U t).
Context (HU2 : d ≠ 0 → 2 ≤ length U).
(** The block to split is read for every key, as the root is. *)
Context (Hsame : ∀ k v, Interval.contains KEYS k = true → (now s ≤ v)%Z →
  read_from (S d) (heap s) c k v = read_from (S D) (heap s) (block x) k v).

Lemma root_old s1 b ty : grown s s1 → Γ !! b = Some ty → b < next_block s ∧ heap s1 !! b = heap s !! b.
Proof using All.
  intros Hg Hb. destruct (inv_store _ _ _ _ _ _ _ HI _ _ Hb) as (m & V & w & Hm & _).
  pose proof (inv_fresh _ _ _ _ _ _ _ HI _ _ Hm). split; [done|]. by apply (gr_heap _ _ Hg).
Qed.

Lemma root_fresh b : next_block s ≤ b → Γ !! b = None.
Proof using All.
  intros Hb. destruct (Γ !! b) as [ty|] eqn:E; [|done].
  destruct (root_old s _ _ (grown_refl s (inv_fresh _ _ _ _ _ _ _ HI)) E). lia.
Qed.

Lemma root_cover k : cover k U ≤ 1.
Proof using All.
  pose proof (node_at_cover F N _ _ _ _ _ _ k (no_at _ _ _ _ _ _ _ _ Hnode)) as Hc.
  unfold inside in Hc. case_match; lia.
Qed.

(** The state after the fresh nodes are in place and the root is appended. *)
Lemma root_commit s1 s' Γ' D' b ht :
  grown s s1 → heap s' = heap s1 → next_block s' = next_block s1 → tracker s' = None →
  now s' = (now s + 1)%Z → Γ ⊆ Γ' →
  (∀ b ty, Γ' !! b = Some ty → Γ !! b = Some ty ∨ block_ok F N (heap s1) Γ' (now s') b ty) →
  roots_ok (root s') Γ' D' (now s + 1) (mkRoot b (now s) ht) →
  (∀ v, (1 ≤ v < now s)%Z → rs_for (root s') v = rs_for (root s) v) → D' ≤ S d →
  (∀ k v, Interval.contains KEYS k = true → (now s ≤ v)%Z →
    read_from (S D') (heap s1) b k v = read_from (S d) (heap s) c k v) →
  Inv F N s' Γ' D' (mkRoot b (now s) ht) H.
Proof using All.
  intros Hg Hheap Hnext Htr Hnow Hincl Hblocks Hroots Hfor HD Hread.
  assert (store_ok F N (heap s1) Γ' (now s')) as Hs1.
  { intros a ty [Ha|Ha]%Hblocks; [|done]. destruct (root_old s1 _ _ Hg Ha) as [_ E].
    eapply block_ok_mono; [done| |exact E|by apply (inv_store _ _ _ _ _ _ _ HI)]. lia. }
  eapply (Inv_quiet F N s s' Γ Γ' D D' x); try done.
  - intros a m. rewrite Hheap Hnext. apply (gr_fresh _ _ Hg).
  - by rewrite Hheap.
  - rewrite Hheap. apply heap_ext_sub, map_subseteq_spec. intros a m Ha.
    by eapply grown_lookup; [|apply HI|].
  - by rewrite Hnow.
  - lia.
  - intros v k Hv Hk. rewrite Hheap Hread //. by apply Hsame.
Qed.

Lemma root_by_version s1 s' b m V ht :
  grown s s1 → next_block s ≤ b < next_block s1 → heap s1 !! b = Some m →
  node_at F N (now s) d KEYS m V (length V) → V ≡ₚ U → length U < fill_80 F N d →
  heap s' = heap s1 → next_block s' = next_block s1 → tracker s' = None → now s' = (now s + 1)%Z →
  rs_append (root s) (mkRoot b (now s) ht) = Some (true, root s') →
  ∃ Γ', Γ ⊆ Γ' ∧ Inv F N s' Γ' d (mkRoot b (now s) ht) H ∧ ready s' Γ' b (mkTy d KEYS false).
Proof using All.
  intros Hg Hb Hm Hat HV H80 Hheap Hnext Htr Hnow Happ.
  pose (Γ' := <[b := mkTy d KEYS false]> Γ). exists Γ'.
  assert (Γ ⊆ Γ') as Hincl by (apply insert_subseteq, root_fresh; lia).
  assert (Γ' !! b = Some (mkTy d KEYS false)) as HΓb by (unfold Γ'; by rewrite lookup_insert_eq).
  assert (length V = length U) as Hlen by by rewrite HV.
  assert (node_ok F N Γ' (now s) (mkTy d KEYS false) m V (length V)) as Hnb.
  { split; simpl; [done|apply (no_range _ _ _ _ _ _ _ _ Hnode)|done|].
    intros J a Hu. rewrite HV in Hu.
    destruct (no_ptrs _ _ _ _ _ _ _ _ Hnode _ _ Hu) as (d' & Hd' & Ha). exists d'.
    split; [done|]. by eapply lookup_weaken. }
  destruct (roots_append _ _ Γ' _ d _ b ht _ (inv_roots _ _ _ _ _ _ _ HI) H2 HΓb)
    as (r' & Happ' & Hroots & Hfor).
  rewrite Happ in Happ'. injection Happ' as <-.
  assert (node_ok F N Γ' (now s') (mkTy d KEYS false) m V (length V)) as Hnb'.
  { apply (node_ok_mono F N Γ' Γ' (now s)); [done|lia|done]. }
  assert (Inv F N s' Γ' d (mkRoot b (now s) ht) H) as HI'; [apply (root_commit s1); try done|].
  - intros a ty Ha. unfold Γ' in Ha. apply lookup_insert_Some in Ha as [[<- <-]|[_ Ha]]; [right|by left].
    by exists m, V, (length V).
  - lia.
  - intros k v Hk Hv.
    eapply (read_pick F N _ _ _ _ _ _ _ _ _ _ _ _ _ _ _ _ _ _ _ k v Hn Hnode Hm Hnb Hk Hk).
    + apply pick_perm; [|done]. rewrite (cover_perm _ _ _ HV). apply root_cover.
    + lia.
    + lia.
    + intros J a d' _ Ha HJ. eapply (read_grown (heap s)); [apply HI|lia| |exact Ha|done].
      intros a' ty Ha'. by apply root_old with (ty := ty).
  - split_and!; [done|done|]. exists m, V, (length V). rewrite Hheap. split_and!; [done| |..].
    + exact Hnb'.
    + destruct (node_sizes F N HF HN HF16 HN16 d) as (H8 & H20 & Ho1 & Ho2). unfold fill_80 in H80. simpl. lia.
    + done.
    + rewrite Hlen. done.
Qed.

(** Two halves of the split block, under a fresh index block. *)
Section by_key.
Context (s1 s2 s' : St) (pv : Z) (l r b : BlockRef) (nl nr : Node P) (Ul Ur : list (Unit P)).
Context (p : InternalPage) (ht : Height).
Local Abbreviation el := (mkEntry (Interval.new 0 (pv - 1)) (now s) l).
Local Abbreviation er := (mkEntry (Interval.new pv U64_MAX) (now s) r).
Context (Hg : grown s s1) (Hg2 : grown s1 s2) (Hlr : l ≠ r).
Context (Hl : next_block s ≤ l < next_block s1) (Hr : next_block s ≤ r < next_block s1).
Context (Hb : next_block s1 ≤ b < next_block s2) (El : heap s2 !! l = Some nl) (Er : heap s2 !! r = Some nr).
Context (Eb : heap s2 !! b = Some (Index p)) (Hwf : int_wf F p [el; er]).
Context (Al : node_at F N (now s) d (Interval.new 0 (pv - 1)) nl Ul (length Ul)).
Context (Ar : node_at F N (now s) d (Interval.new pv U64_MAX) nr Ur (length Ur)).
Context (HP : Ul ++ Ur ≡ₚ U) (Hlen : length Ul = length U / 2) (Hpv : (0 < pv ≤ U64_MAX)%Z).
Context (H80 : fill_80 F N d ≤ length U ≤ cap F N d).
Context (Hheap : heap s' = heap s2) (Hnext : next_block s' = next_block s2) (Htr : tracker s' = None).
Context (Hnow : now s' = (now s + 1)%Z).
Context (Happ : rs_append (root s) (mkRoot b (now s) ht) = Some (true, root s')).

Definition root_typing : gmap BlockRef Ty :=
  <[b := mkTy (S d) KEYS false]> (<[l := mkTy d (fence el) true]> (<[r := mkTy d (fence er) true]> Γ)).

Lemma root_typing_l : root_typing !! l = Some (mkTy d (fence el) true).
Proof using All. unfold root_typing. rewrite lookup_insert_ne; [|lia]. by rewrite lookup_insert_eq. Qed.
Lemma root_typing_r : root_typing !! r = Some (mkTy d (fence er) true).
Proof using All.
  unfold root_typing. rewrite lookup_insert_ne; [|lia]. rewrite lookup_insert_ne //.
  by rewrite lookup_insert_eq.
Qed.
Lemma root_typing_incl : Γ ⊆ root_typing.
Proof using All.
  apply map_subseteq_spec. intros a ty Ha. unfold root_typing.
  destruct (root_old s1 _ _ Hg Ha). rewrite !lookup_insert_ne //; lia.
Qed.

Lemma root_halves_ok :
  node_ok F N root_typing (now s') (mkTy d (fence el) true) nl Ul (length Ul) ∧
  node_ok F N root_typing (now s') (mkTy d (fence er) true) nr Ur (length Ur).
Proof using All.
  assert (length Ul + length Ur = length U) as Hsum by (rewrite -length_app HP //).
  destruct (node_sizes F N HF HN HF16 HN16 d) as (H8 & H20 & Ho1 & Ho2). unfold fill_80 in H80.
  assert (∀ V J a, (J, inr a) ∈ V → V ⊆ Ul ++ Ur →
    ∃ d', d = S d' ∧ root_typing !! a = Some (mkTy d' J true)) as Hptr.
  { intros V J a Hu Hsub. apply Hsub in Hu. rewrite HP in Hu.
    destruct (no_ptrs _ _ _ _ _ _ _ _ Hnode _ _ Hu) as (d' & Hd' & Ha). exists d'.
    split; [done|]. eapply lookup_weaken; [done|apply root_typing_incl]. }
  split; split; simpl; try (eapply node_at_mono; [|done]; lia).
  - unfold U64_MAX in *. lia.
  - intros _. lia.
  - intros J a Hu. apply (Hptr Ul _ _ Hu). set_solver.
  - unfold U64_MAX in *. lia.
  - intros _. lia.
  - intros J a Hu. apply (Hptr Ur _ _ Hu). set_solver.
Qed.

Lemma root_top_ok :
  node_ok (P:=P) F N root_typing (now s') (mkTy (S d) KEYS false) (Index p) (ent_units [el; er]) 2.
Proof using All.
  assert (Forall active [el; er]) as Hact.
  { apply Forall_cons; split; [|apply Forall_singleton]; apply is_active_small; simpl; lia. }
  split; simpl; [|done|done|].
  - exists [el; er]. split_and!; try done. apply index_ok_fresh; [done|done|..].
    + intros e [->| ->%list_elem_of_singleton]%elem_of_cons; simpl; rewrite into_cmp_small; try lia;
        (split_and!; try lia; apply covers_spec; simpl; lia).
    + intros k. unfold ent_units. rewrite filter_idemp //. simpl.
      by apply (holders_two (P:=P) KEYS pv el er).
  - intros J a (e & [= -> ->] & _ & [->| ->%list_elem_of_singleton]%elem_of_cons)%elem_of_ent_units;
      exists d; (split; [done|]); [apply root_typing_l|apply root_typing_r].
Qed.

Lemma root_by_key :
  ∃ Γ', Γ ⊆ Γ' ∧ Inv F N s' Γ' (S d) (mkRoot b (now s) ht) H ∧ ready s' Γ' b (mkTy (S d) KEYS false).
Proof using All.
  exists root_typing. pose proof root_halves_ok as [Hnl Hnr]. pose proof root_top_ok as Htop.
  assert (root_typing !! b = Some (mkTy (S d) KEYS false)) as HΓb
    by (unfold root_typing; by rewrite lookup_insert_eq).
  destruct (roots_append _ _ root_typing _ (S d) _ b ht _ (inv_roots _ _ _ _ _ _ _ HI) H2 HΓb)
    as (r' & Happ' & Hroots & Hfor).
  rewrite Happ in Happ'. injection Happ' as <-.
  assert (Inv F N s' root_typing (S d) (mkRoot b (now s) ht) H) as HI';
    [apply (root_commit s2); try done|].
  - by eapply grown_trans.
  - apply root_typing_incl.
  - intros a ty Ha. unfold root_typing in Ha.
    apply lookup_insert_Some in Ha as [[<- <-]|[_ Ha]]; [right; by eexists _, _, _|].
    apply lookup_insert_Some in Ha as [[<- <-]|[_ Ha]]; [right; by eexists _, _, _|].
    apply lookup_insert_Some in Ha as [[<- <-]|[_ Ha]]; [right; by eexists _, _, _|by left].
  - intros k v Hk Hv. assert (∀ J a d', d = S d' → Γ !! a = Some (mkTy d' J true) →
      Interval.contains J k = true → read_from (S d') (heap s2) a k v = read_from (S d') (heap s) a k v)
      as Hdown.
    { intros J a d' _ Ha HJ. eapply (read_grown (heap s)); [apply HI|lia| |exact Ha|done].
      intros a' ty Ha'. apply root_old with (ty := ty); [by eapply grown_trans|done]. }
    assert (cover k (Ul ++ Ur) ≤ 1) as Hone by (rewrite (cover_perm _ _ _ HP); apply root_cover).
    destruct (read_index F N _ _ _ _ _ _ _ _ _ k v (S d) _ Eb Htop Hk)
      as (J & a & q & j & _ & _ & _ & _ & Hp & HJ & _ & Hread).
    rewrite Hread; [|lia]. apply pick_Some in Hp as [_ Hp].
    apply elem_of_ent_units in Hp as (e & [= -> ->] & _ & [->| ->%list_elem_of_singleton]%elem_of_cons).
    + eapply (read_pick F N _ _ _ _ _ _ _ _ _ _ _ _ _ _ _ _ _ _ _ k v Hn Hnode El Hnl Hk HJ);
        [|lia|lia|done].
      rewrite -(pick_perm _ _ _ Hone HP) pick_app_l //.
      pose proof (node_at_cover F N _ _ _ _ _ _ k Ar) as Hc. unfold inside in Hc.
      rewrite (proj2 (contains_false _ _)) in Hc; [lia|]. apply contains_spec in HJ. simpl in *. lia.
    + eapply (read_pick F N _ _ _ _ _ _ _ _ _ _ _ _ _ _ _ _ _ _ _ k v Hn Hnode Er Hnr Hk HJ);
        [|lia|lia|done].
      rewrite -(pick_perm _ _ _ Hone HP) pick_app_r //.
      pose proof (node_at_cover F N _ _ _ _ _ _ k Al) as Hc. unfold inside in Hc.
      rewrite (proj2 (contains_false _ _)) in Hc; [lia|]. apply contains_spec in HJ. simpl in *. lia.
  - split_and!; [apply root_typing_incl|done|]. exists (Index p), (ent_units [el; er]), 2.
    rewrite Hheap. split_and!; [done| |simpl; lia|done|].
    + exact Htop.
    + intros _. rewrite length_ent_units n_active_all //.
      apply Forall_cons; split; [|apply Forall_singleton]; apply is_active_small; simpl; lia.
Qed.
End by_key.

Lemma wp_append_root (s0 : St) y r' (Q : () → St → Prop) :
  rs_append (root s0) y = Some (true, r') → Q () (with_root r' s0) → wp (tree_append_root y) s0 Q.
Proof using Type.
  clear. intros Ha HQ. unfold tree_append_root. wp_steps. by eapply wp_lift.
Qed.

(** A new root that the descent can start from. *)
Definition new_root (s' : St) (g : Guard) : Prop :=
  ∃ Γ' D' x', Γ ⊆ Γ' ∧ Inv F N s' Γ' D' x' H ∧ D' ≤ S d ∧ g = mkGuard (block x') false ∧
    ready s' Γ' (block x') (mkTy D' KEYS false) ∧ now s' = (now s + 1)%Z ∧ latches s' = latches s.

Lemma root_appends b ht :
  ∃ r', rs_append (root s) (mkRoot b (now s) ht) = Some (true, r').
Proof using All.
  destruct (inv_roots _ _ _ _ _ _ _ HI) as [(rts & Hr & _ & Hv & _) _].
  destruct (rs_append_ok _ _ (mkRoot b (now s) ht) Hr) as (r' & Ha & _); [|by exists r'].
  intros y Hy%Hv. simpl. lia.
Qed.

Lemma wp_split_root w ht (Q : Guard → St → Prop) :
  (∀ g s', new_root s' g → Q g s') →
  wp (split_root F N me (mkGuard c w) ht) s Q.
Proof using All.
  intros HQ. pose proof (inv_tracker _ _ _ _ _ _ _ HI) as Htr.
  pose proof (no_at _ _ _ _ _ _ _ _ Hnode) as Hat. simpl in Hat.
  pose proof (node_at_bound _ _ _ _ _ _ _ _ Hat) as HUt.
  unfold split_root. cbn [g_block]. apply wp_bind.
  eapply (wp_split F N HF HN HF16 HN16 (now s) d KEYS); [done|apply HI|
    apply (no_range _ _ _ _ _ _ _ _ Hnode)|done|done|].
  intros sp s1 [[H80 (pv & l & r & nl & nr & Ul & Ur & -> & Hg & Hlr & Hl & Hr & El & Er & Al & Ar &
    HP & Hlen & Hpv)]|[H80 (b & m & U' & -> & Hg & Hb & Em & Am & HP)]];
    pose proof (gr_env _ _ Hg) as [Eroot Eclock Etr _ Elat].
  - apply wp_bind, wp_alloc; [congruence|apply Hg|]. intros s2 Hg2 N2 E2.
    pose proof (gr_env _ _ Hg2) as [Eroot2 Eclock2 Etr2 _ Elat2].
    assert (now s2 = now s) as Hnow by (unfold now; congruence).
    set (el := mkEntry (Interval.new 0 (pv - 1)) (now s) l).
    set (er := mkEntry (Interval.new pv U64_MAX) (now s) r).
    destruct (int_rep_push F InternalPage.new [] el (int_rep_new F)) as (p1 & Hp1 & Hrep1 & Hl1);
      [simpl; lia|].
    destruct (int_rep_push F p1 _ er Hrep1) as (p2 & Hp2 & Hrep2 & Hl2); [simpl; lia|].
    destruct (root_appends (next_block s1) (ht + 1)) as [r' Happ].
    assert (Forall active [el; er]) as Hact.
    { apply Forall_cons; split; [|apply Forall_singleton]; apply is_active_small; simpl; lia. }
    assert (int_wf F (InternalPage.commit_delta p2 2 0) [el; er]) as Hwf.
    { eapply (page_commit F InternalPage.new _ []); [by apply int_new_wf|exact Hrep2|
        by rewrite /= Hl2 Hl1|by rewrite (n_active_all _ Hact)|done]. }
    apply wp_bind, wp_start_tx; [lia|lia|]. intros ck Hck. rewrite Hnow.
    wp_page Hp1. wp_page Hp2. wp_page (eq_refl (Some (InternalPage.commit_delta p2 2 0))).
    apply wp_bind, wp_ret, wp_bind. eapply wp_append_root; [by rewrite /= Eroot2 Eroot|].
    apply wp_bind, wp_end_tx. intros ck2 Hck2. apply wp_bind, wp_register_dead; [by rewrite /= Etr2 Etr|].
    apply wp_ret, HQ. set (s' := with_tracker None _).
    set (s3 := with_heap <[next_block s1 := Index (InternalPage.commit_delta p2 2 0)]> s2).
    assert (grown s1 s3) as Hg3 by (apply grown_write; [done|lia]).
    assert (heap s' = heap s3) as Hheap by by rewrite /= !insert_insert_eq.
    assert (now s' = (now s + 1)%Z) as Hnow' by (unfold s', now in *; simpl in *; lia).
    assert (∀ a m, a < next_block s1 → heap s1 !! a = Some m → heap s3 !! a = Some m) as Hkeep.
    { intros a m Ha Hm. by rewrite (gr_heap _ _ Hg3). }
    destruct (root_by_key s1 s3 s' pv l r (next_block s1) nl nr Ul Ur
      (InternalPage.commit_delta p2 2 0) (ht + 1)) as (Γ' & Hincl & HI' & Hready); try done.
    + simpl. lia.
    + apply Hkeep; [lia|done].
    + apply Hkeep; [lia|done].
    + by rewrite /= lookup_insert_eq.
    + lia.
    + exists Γ', (S d), (mkRoot (next_block s1) (now s) (ht + 1)). split_and!; try done.
      unfold s'. simpl. congruence.
  - apply wp_bind, wp_start_tx; [unfold now in *; rewrite Eclock; lia..|]. intros ck Hck.
    assert (now s1 = now s) as Hnow by (unfold now; congruence). rewrite Hnow.
    destruct (root_appends b ht) as [r' Happ].
    apply wp_bind, wp_ret, wp_bind. eapply wp_append_root; [by rewrite /= Eroot|].
    apply wp_bind, wp_end_tx. intros ck2 Hck2. apply wp_bind, wp_register_dead; [by rewrite /= Etr|].
    apply wp_ret, HQ. set (s' := with_tracker None _).
    assert (now s' = (now s + 1)%Z) as Hnow' by (unfold s', now in *; simpl in *; lia).
    destruct (root_by_version s1 s' b m U' ht) as (Γ' & Hincl & HI' & Hready); try done.
    exists Γ', d, (mkRoot b (now s) ht). split_and!; try done; lia.
Qed.
End split_root.

Lemma new_root_latches s Γ H d l s' g :
  length l ≤ length (latches s) → new_root (with_latches l s) Γ H d s' g →
  ∃ Γ' D' x', Γ ⊆ Γ' ∧ Inv F N s' Γ' D' x' H ∧ D' ≤ S d ∧ g = mkGuard (block x') false ∧
    ready s' Γ' (block x') (mkTy D' KEYS false) ∧ now s' = (now s + 1)%Z ∧
    length (latches s') ≤ length (latches s).
Proof using Type.
  clear. intros Hl (Γ' & D' & x' & H1 & H2 & H3 & H4 & H5 & H6 & H7). exists Γ', D', x'.
  split_and!; try done. rewrite H7. done.
Qed.

(** The current root. *)
Lemma root_block s Γ D x H :
  Inv F N s Γ D x H → ∃ n U t, heap s !! block x = Some n ∧
    node_ok F N Γ (now s) (mkTy D KEYS false) n U t.
Proof using Type.
  intros HI. apply (inv_store _ _ _ _ _ _ _ HI). apply (inv_roots _ _ _ _ _ _ _ HI).
Qed.

Lemma node_at_time T d I (n : Node P) U t : node_at F N T d I n U t → 0 < t → (2 ≤ T)%Z.
Proof using Type.
  clear. destruct n as [p|p], d as [|d]; simpl; try done.
  - intros (rs & _ & Hok & _ & ->) Ht. destruct rs as [|r rs]; simpl in Ht; [lia|].
    destruct (lo_recs _ _ _ Hok r ltac:(by left)) as [_ [? _]]. lia.
  - intros (es & _ & Hok & _ & ->) Ht. destruct es as [|e es]; simpl in Ht; [lia|].
    destruct (io_ents _ _ _ Hok e ltac:(by left)) as [? _]. lia.
Qed.

(** An only child answers for all keys. *)
Lemma only_child T p es :
  int_wf F p es → index_ok (P:=P) T KEYS es → n_active es = 1 →
  ∃ e, InternalPage.last_child p = Some (ptr e) ∧ e ∈ es ∧ active e ∧ fence e = KEYS ∧
    ∀ k, pick (P:=P) k (ent_units es) = Some (ent_unit e) ∨ Interval.contains KEYS k = false.
Proof using Type.
  clear. intros Hwf Hok H1. destruct (io_last _ _ _ Hok) as (e & Hl & He). exists e.
  rewrite last_lookup in Hl. pose proof (list_elem_of_lookup_2 _ _ _ Hl) as Hin.
  assert (ent_units (P:=P) es = [ent_unit e]) as Hu.
  { pose proof (ent_units_mark (P:=P) _ _ _ Hl He) as Hp.
    assert (ent_units (P:=P) (<[pred (length es) := mark e]> es) = []) as E.
    { apply length_zero_iff_nil. rewrite length_ent_units.
      pose proof (n_active_mark _ _ _ Hl He). lia. }
    rewrite E in Hp. symmetry in Hp. by apply Permutation_singleton_l in Hp as ->. }
  assert (∀ k, Interval.contains KEYS k = Interval.contains (fence e) k) as Hk.
  { intros k. pose proof (io_tile _ _ _ Hok k) as Ht. rewrite Hu (holders_one (P:=P) _ _ _ eq_refl) in Ht.
    unfold inside in Ht. by destruct (Interval.contains (fence e) k), (Interval.contains KEYS k). }
  split_and!; [|done|done|..].
  - unfold InternalPage.last_child. rewrite (int_wf_sum _ _ _ Hwf) Nat.sub_1_r.
    by apply (int_rep_get _ _ _ _ _ (proj1 Hwf) Hl).
  - pose proof (io_ents _ _ _ Hok _ Hin) as (_ & _ & Hcov). apply covers_spec in Hcov.
    pose proof (Hk 0%Z) as K0. pose proof (Hk U64_MAX) as KM. symmetry in K0, KM.
    rewrite (proj2 (contains_spec KEYS _)) in K0; [|done].
    rewrite (proj2 (contains_spec KEYS _)) in KM; [|done].
    apply contains_spec in K0, KM. destruct (fence e) as [lo up]. unfold KEYS, Interval.new in *.
    simpl in *. f_equal; lia.
  - intros k. destruct (Interval.contains KEYS k) eqn:E; [left|by right]. rewrite Hu.
    apply pick_elem; [|by left|unfold hit; simpl; by rewrite -Hk].
    rewrite (holders_one (P:=P) _ _ _ eq_refl). unfold inside. case_match; lia.
Qed.

(** What [retrieve_root_write_olc] hands to the descent. *)
Definition root_retrieved s Γ D H (g : Guard) (s' : St) : Prop :=
  ∃ Γ' D' x', Γ ⊆ Γ' ∧ Inv F N s' Γ' D' x' H ∧ D' ≤ S D ∧ g = mkGuard (block x') false ∧
    ready s' Γ' (block x') (mkTy D' KEYS false) ∧ (now s ≤ now s' ≤ now s + 1)%Z ∧
    length (latches s') ≤ length (latches s).

Lemma wp_merge_root s Γ D x H w ht n U t (Q : option Guard → St → Prop) :
  Inv F N s Γ D x H → (now s + 1 < 2 ^ 63)%Z →
  heap s !! block x = Some n → node_ok F N Γ (now s) (mkTy D KEYS false) n U t →
  length U = 1 → D ≠ 0 →
  (∀ g s', root_retrieved s Γ D H g s' → Q (Some g) s') →
  (∀ l, length l < length (latches s) → Q None (with_latches l s)) →
  wp (merge_root F N me (mkGuard (block x) w) ht) s Q.
Proof.
  intros HI Hlt Hn Hnode H1 HD HQ1 HQ2. destruct D as [|D]; [done|].
  pose proof (no_at _ _ _ _ _ _ _ _ Hnode) as Hat. destruct n as [|p]; [done|].
  pose proof Hat as (es & Hwf & Hok & -> & ->). rewrite length_ent_units in H1. simpl in Hok.
  destruct (only_child _ _ _ Hwf Hok H1) as (e & Hlast & Hin & He & Hfe & Hpick).
  destruct (no_ptrs _ _ _ _ _ _ _ _ Hnode (fence e) (ptr e)) as (d & [= <-] & HΓe).
  { apply elem_of_ent_units. by exists e. }
  destruct (inv_store _ _ _ _ _ _ _ HI _ _ HΓe) as (m & V & tv & Hm & Hnodem).
  rewrite Hfe in Hnodem.
  assert (2 ≤ now s)%Z as H2.
  { apply (node_at_time _ _ _ _ _ _ Hat). pose proof (n_active_le es). lia. }
  assert (2 ≤ length V) as HV.
  { pose proof (no_fill _ _ _ _ _ _ _ _ Hnodem eq_refl) as Hf. simpl in Hf.
    destruct (node_sizes F N HF HN HF16 HN16 D) as (H8 & H20 & _ & _). lia. }
  unfold merge_root. cbn [g_block].
  apply wp_bind. eapply wp_get_internal; [done|]. apply wp_bind. eapply wp_lift; [done|].
  apply wp_bind, wp_ret, wp_bind, wp_upgrade. cbn [g_block]. intros o w1 l Hl Hf.
  cbn beta iota. destruct o; cbn beta iota; [|by apply wp_ret, HQ2, Hf].
  apply wp_bind. eapply (wp_split_root (with_latches l s) Γ (S D) x H (ptr e) D true m V tv);
    try done; [by apply Inv_latches|lia| |].
  - intros k v Hk Hv. change (now (with_latches l s)) with (now s) in Hv.
    destruct (read_index F N _ _ _ _ _ _ _ _ _ k v (S D) _ Hn Hnode Hk)
      as (J & a & q & j & _ & _ & _ & _ & Hp & _ & _ & Hread).
    simpl heap. rewrite Hread; [|lia]. destruct (Hpick k) as [Hp'|?]; [|congruence].
    rewrite Hp' in Hp. by injection Hp as <- <-.
  - intros g s' Hnr. apply wp_ret, HQ1.
    destruct (new_root_latches _ _ _ _ _ _ _ Hl Hnr) as (Γ' & D' & x' & ? & ? & ? & ? & ? & ? & ?).
    exists Γ', D', x'. split_and!; try done; lia.
Qed.

Lemma wp_retrieve_root_internal s Γ D x H (Q : option Guard → St → Prop) :
  Inv F N s Γ D x H → (now s + 1 < 2 ^ 63)%Z →
  (∀ g s', root_retrieved s Γ D H g s' → Q (Some g) s') →
  (∀ l, length l < length (latches s) → Q None (with_latches l s)) →
  wp (retrieve_root_write_internal_olc F N me) s Q.
Proof.
  intros HI Hlt HQ1 HQ2. destruct (root_block _ _ _ _ _ HI) as (n & U & t & Hn & Hnode).
  pose proof (no_at _ _ _ _ _ _ _ _ Hnode) as Hat. simpl in Hat.
  pose proof (node_at_counts F N _ _ _ _ _ _ Hat) as Hc.
  pose proof (node_at_leaf F N _ _ _ _ _ _ Hat) as Hleaf.
  destruct (node_at_limits F N _ _ _ _ _ _ Hat) as [_ Eov].
  destruct (roots_height _ _ _ _ _ (inv_roots _ _ _ _ _ _ _ HI)) as [ht Hht].
  assert (D ≠ 0 → 1 ≤ length U) as HU1.
  { intros HD. destruct D as [|D]; [done|]. destruct n as [|p]; [done|].
    destruct Hat as (es & _ & Hok & -> & _). pose proof (io_tile _ _ _ Hok 0%Z) as Ht.
    change (Interval.contains KEYS 0) with true in Ht.
    pose proof (length_filter (hit (P:=P) 0) (ent_units es)) as Hle. unfold cover in Ht. lia. }
  destruct (node_sizes F N HF HN HF16 HN16 D) as (H8 & H20 & Ho1 & Ho2).
  unfold retrieve_root_write_internal_olc. wp_steps.
  eapply wp_lift; [apply (roots_guard _ _ _ _ _ (inv_roots _ _ _ _ _ _ _ HI))|].
  wp_steps. eapply wp_read_block; [done|].
  destruct (unsafe_degree_root F N n) eqn:Edeg; cbn beta iota.
  - apply (unsafe_degree_root_ok F N _ _ _ Hc) in Edeg as [Ha Ht]. rewrite Eov in Ht.
    apply wp_ret, HQ1. exists Γ, D, x. split_and!; try done; try lia.
    exists n, U, t. split_and!; try done. intros HD. simpl in HD. specialize (HU1 HD).
    rewrite Hleaf bool_decide_eq_true in Ha. lia.
  - assert (overflow_at F N D ≤ t ∧ (D ≠ 0 → length U ≠ 1)) as [Ht Ha].
    { destruct (decide (overflow_at F N D ≤ t)) as [Ht|Ht];
        [|exfalso; assert (unsafe_degree_root F N n ≠ Overflow) as Hne; [|done]].
      - split; [done|]. intros HD H1. assert (unsafe_degree_root F N n = ActiveUnderflow); [|congruence].
        apply (unsafe_degree_root_underflow F N _ _ _ Hc). by rewrite Hleaf bool_decide_eq_false.
      - unfold unsafe_degree_root. rewrite (counts_node _ _ _ _ _ Hc) Eov.
        pose proof (node_counts_le _ _ _ _ _ Hc). repeat case_match; try done; lia. }
    apply wp_bind, wp_latch. intros o l Hl Hf. destruct o; [|by apply wp_ret, HQ2, Hf].
    apply wp_bind. eapply wp_lift; [done|]. apply wp_bind.
    eapply (wp_split_root (with_latches l s) Γ D x H (block x) D false n U t); try done.
    + by apply Inv_latches.
    + apply (node_at_time _ _ _ _ _ _ Hat). lia.
    + intros HD. specialize (HU1 HD). specialize (Ha HD). lia.
    + intros g s' Hnr. apply wp_ret, HQ1.
      destruct (new_root_latches _ _ _ _ _ _ _ Hl Hnr) as (Γ' & D' & x' & ? & ? & ? & ? & ? & ? & ?).
      exists Γ', D', x'. split_and!; try done; lia.
  - apply (unsafe_degree_root_underflow F N _ _ _ Hc) in Edeg as [H1 HD].
    rewrite Hleaf bool_decide_eq_false in HD.
    apply wp_bind, wp_latch. intros o l Hl Hf. destruct o; [|by apply wp_ret, HQ2, Hf].
    apply wp_bind. eapply wp_lift; [done|].
    eapply (wp_merge_root (with_latches l s) Γ D x H false ht n U t); try done.
    + by apply Inv_latches.
    + intros g s' (Γ' & D' & x' & ? & ? & ? & ? & ? & Hn' & Hl'). apply HQ1.
      change (now (with_latches l s)) with (now s) in Hn'.
      exists Γ', D', x'. simpl in Hl'. split_and!; try done; lia.
    + intros l' Hl'. simpl in Hl'. apply (HQ2 l'). lia.
Qed.

(** The loop ends: every failure has used up a latch outcome. *)
Lemma wp_retrieve_root s Γ D x H fuel a (Q : Guard * Attempts → St → Prop) :
  Inv F N s Γ D x H → (now s + 1 < 2 ^ 63)%Z → length (latches s) < fuel →
  (∀ g a' s', root_retrieved s Γ D H g s' → Q (g, a') s') →
  wp (retrieve_root_write_olc F N me fuel a) s Q.
Proof.
  revert s a. induction fuel as [|fuel IH]; intros s a HI Hlt Hf HQ; [lia|].
  simpl. apply wp_bind. eapply wp_retrieve_root_internal; [done|done|..].
  - intros g s' Hr. by apply wp_ret, HQ.
  - intros l Hl. apply IH; [by apply Inv_latches|done|simpl; lia|].
    intros g a' s' (Γ' & D' & x' & ? & ? & ? & ? & ? & Hn' & Hl'). apply HQ.
    change (now (with_latches l s)) with (now s) in Hn'.
    exists Γ', D', x'. simpl in Hl'. split_and!; try done; lia.
Qed.
End root_ops.
