(* ===== verification/Descent.v ===== *)
(** * The descent of a writer

    [traversal_write_olc] of [src/src/mv_query/olc_query.rs]: it always comes
    back with a leaf that has room, on the path of the key, or fails an attempt
    because a latch was lost; with a finite number of lost latches it ends.
    None of the reorganisations on its way changes what is read. *)
From Stdlib Require Import ZifyNat.
From S2P Require Import Prelude OrdMap Version Interval PageLen LeafPage InternalPage Node.
From S2P Require Import Clock Gc RootIndex RetryStats Tree Traversal Query.
From S2P Require Import Units NodeInv Store TreeInv Alloc Smo Sibling Parent Reorganise RootOps.

#[local] Set Default Proof Using "Type*".

Section descent.
Context {P : Type}.
Context {M : ∀ K, KeyOrder K → Type → Type} `{!OrdMap M}.
Context {R : Type} `{!RootStore R, !RootStoreLaws R}.
Context (F N : nat) (me : Tid).
Context (HF : 8 ≤ F) (HN : 8 ≤ N) (HF16 : (Z.of_nat F < 2 ^ 16)%Z) (HN16 : (Z.of_nat N < 2 ^ 16)%Z).
Local Abbreviation St := (@TreeSt P M R).
Implicit Types (s : St) (Γ : gmap BlockRef Ty) (H : History P) (x : Root) (g : Guard).
Local Abbreviation ready := (ready F N).

(** The block the descent is at. *)
Definition on_path s Γ (D : nat) x (k : Z) (d : nat) (b : BlockRef) I i : Prop :=
  path (heap s) k D (block x) d b ∧ Γ !! b = Some (mkTy d I i) ∧ Interval.contains I k = true.

(** The child of the key is neither too full nor too empty. *)
Definition child_fine s (b : BlockRef) (k : Z) : Prop :=
  ∀ p j c, heap s !! b = Some (Index p) → active_child p k = Some j →
    InternalPage.get_pointer p j = Some c →
    ∃ n, heap s !! c = Some n ∧ unsafe_degree F N n = DegreeOk.

(** The leaf the descent is looking for: it can take one more record, and lose
    a live one. *)
Definition leaf_found s Γ (D : nat) x (k : Z) (b : BlockRef) : Prop :=
  ∃ I i, on_path s Γ D x k 0 b I i ∧ ready s Γ b (mkTy 0 I i).

Definition descended s Γ (D : nat) x H (k : Z) (n : nat) (r : result Guard Attempts) s' : Prop :=
  ∃ Γ', Γ ⊆ Γ' ∧ Inv F N s' Γ' D x H ∧ (now s ≤ now s' ≤ now s + Z.of_nat n)%Z ∧
    match r with
    | Ok g => length (latches s') ≤ length (latches s) ∧ leaf_found s' Γ' D x k (g_block g)
    | Err _ => length (latches s') < length (latches s)
    end.

Lemma descended_step s s1 s' Γ Γ1 D x H k n n1 r :
  Γ ⊆ Γ1 → (now s ≤ now s1)%Z → (now s1 + Z.of_nat n1 ≤ now s + Z.of_nat n)%Z →
  length (latches s1) ≤ length (latches s) →
  descended s1 Γ1 D x H k n1 r s' → descended s Γ D x H k n r s'.
Proof.
  intros Hi Hn0 Hn Hl (Γ' & Hi' & HI & Hnow & Hr). exists Γ'.
  split_and!; [by etrans|done|lia|lia|]. destruct r; [|lia]. destruct Hr. split; [lia|done].
Qed.

Lemma descended_err s l Γ D x H k n a :
  Inv F N s Γ D x H → length l < length (latches s) →
  descended s Γ D x H k n (Err a) (with_latches l s).
Proof.
  intros HI Hl. exists Γ. split_and!; [done|by apply Inv_latches| | |done];
    change (now (with_latches l s)) with (now s); lia.
Qed.

Lemma child_ready s Γ b d I n U t :
  heap s !! b = Some n → node_ok F N Γ (now s) (mkTy d I true) n U t →
  unsafe_degree F N n = DegreeOk → ready s Γ b (mkTy d I true).
Proof.
  intros Hn Hnode Hdeg. exists n, U, t.
  apply (node_at_degree F N _ _ _ _ _ _ (no_at _ _ _ _ _ _ _ _ Hnode)) in Hdeg as [H20 Hov].
  simpl in *. split_and!; try done. intros _.
  destruct (node_sizes F N HF HN HF16 HN16 d) as (H8 & E20 & _ & _). lia.
Qed.

(** The step of the descent to the child of the key. *)
Lemma on_path_child s Γ D x H k d b I i :
  Inv F N s Γ D x H → on_path s Γ D x k (S d) b I i →
  ∃ p es j e n U t, heap s !! b = Some (Index p) ∧ int_wf F p es ∧ index_ok (P:=P) (now s) I es ∧
    active_child p k = Some j ∧ es !! j = Some e ∧ active e ∧ Interval.contains (fence e) k = true ∧
    InternalPage.get_pointer p j = Some (ptr e) ∧ heap s !! ptr e = Some n ∧
    node_ok F N Γ (now s) (mkTy d (fence e) true) n U t ∧ on_path s Γ D x k d (ptr e) (fence e) true ∧
    (i = true → fill_20 F N (S d) ≤ n_active es).
Proof.
  intros HI (Hp & Hb & Hk).
  destruct (typed_index F N _ _ _ _ _ _ _ (inv_store _ _ _ _ _ _ _ HI) Hb)
    as (p & es & Hn & Hwf & Hok & Hfill & Hptr).
  destruct (child_ok (P:=P) _ _ _ _ _ _ Hwf Hok Hk) as (j & e & Ha & _ & Hj & He & Hc & _ & Hg & _).
  pose proof (Hptr e (list_elem_of_lookup_2 _ _ _ Hj) He) as HΓe.
  destruct (inv_store _ _ _ _ _ _ _ HI _ _ HΓe) as (n & U & t & Hn' & Hnode).
  exists p, es, j, e, n, U, t. split_and!; try done. split_and!; [by eapply path_down|done|done].
Qed.

(** After a reorganisation the block is still on the path, and its child is
    fine. *)
Lemma reorganised_path s s' Γ Γ' D x H k d b I i J :
  Inv F N s Γ D x H → on_path s Γ D x k (S d) b I i → Interval.contains J k = true →
  Interval.contains KEYS k = true →
  reorganised F N s s' Γ Γ' D x H b J → on_path s' Γ' D x k (S d) b I i ∧ child_fine s' b k.
Proof.
  intros HI (Hp & Hb & Hk) HJ HK Hre. split; [split_and!; [|by eapply lookup_weaken; [|apply Hre]|done]|].
  - eapply (path_frame F N (heap s)); [apply HI|done|apply (inv_roots _ _ _ _ _ _ _ HI)|done|].
    intros c ty Hc Hd. apply (ro_same _ _ _ _ _ _ _ _ _ _ _ Hre _ _ Hc). intros ->.
    rewrite Hb in Hc. injection Hc as <-. simpl in Hd. lia.
  - intros p j c Hn Ha Hg. by apply (ro_child _ _ _ _ _ _ _ _ _ _ _ Hre k p j c).
Qed.

(** The fuel of a descent from height [d]: two turns a level, one of them for
    the repair of the child. *)
Definition descent_fuel (d : nat) (is_ready : bool) : nat := 2 * d + (if is_ready then 2 else 1).

Lemma wp_descend_leaf fuel k s Γ D x H b I i w a (Q : result Guard Attempts → St → Prop) :
  Inv F N s Γ D x H → on_path s Γ D x k 0 b I i → ready s Γ b (mkTy 0 I i) →
  (∀ r s', descended s Γ D x H k 0 r s' → Q r s') →
  wp (descend_write F N me (S fuel) (mkGuard b w) k a) s Q.
Proof.
  intros HI Hpath Hready HQ. pose proof Hready as (n & U & t & Hn & Hnode & _).
  pose proof (no_at _ _ _ _ _ _ _ _ Hnode) as Hat. destruct n as [p|]; [|done].
  simpl. apply wp_bind. eapply wp_read_block; [done|]. cbn beta iota.
  apply wp_bind, wp_upgrade. cbn [g_block]. intros o w1 l Hl Hf. cbn beta iota.
  destruct o; apply wp_ret, HQ; [|by apply descended_err, Hf].
  exists Γ. split_and!; [done|by apply Inv_latches| | |done|by exists I, i];
    change (now (with_latches l s)) with (now s); lia.
Qed.

(** Both latches are taken, or the attempt fails and a latch outcome is used up. *)
Lemma wp_two_latches s g g' a (m : Guard → Guard → Comp St (result Guard Attempts))
    (Q : result Guard Attempts → St → Prop) :
  (∀ l, length l < length (latches s) → Q (Err a) (with_latches l s)) →
  (∀ w w' l, length l ≤ length (latches s) →
    wp (m (mkGuard (g_block g) w) (mkGuard (g_block g') w')) (with_latches l s) Q) →
  wp (r ← upgrade_write_lock g;
      let '(ok, g) := r in
      if negb (ok : bool) then mret (Err a)
      else
        r ← upgrade_write_lock g';
        let '(ok, g') := r in
        if negb (ok : bool) then mret (Err a) else m g g') s Q.
Proof using Type*.
  clear HF HN HF16 HN16. intros Herr Hm. apply wp_bind, wp_upgrade. intros o w l Hl Hf. destruct o; cbn beta iota;
    [|apply wp_ret, Herr; by apply Hf].
  apply wp_bind, wp_upgrade. intros o' w' l' Hl' Hf'. simpl in Hl', Hf'. destruct o'; cbn beta iota;
    [|apply wp_ret, (Herr l'); specialize (Hf' eq_refl); lia].
  apply (Hm w w' l'). lia.
Qed.

Lemma wp_descend_write fuel k : ∀ s Γ D x H d b I i w a (is_ready : bool)
    (Q : result Guard Attempts → St → Prop),
  Inv F N s Γ D x H → (now s + Z.of_nat (if is_ready then d else (d - 1)%nat) < 2 ^ 63)%Z →
  Interval.contains KEYS k = true → on_path s Γ D x k d b I i →
  (if is_ready then ready s Γ b (mkTy d I i) else d ≠ 0 ∧ child_fine s b k) →
  descent_fuel d is_ready ≤ fuel →
  (∀ r s', descended s Γ D x H k (if is_ready then d else d - 1) r s' → Q r s') →
  wp (descend_write F N me fuel (mkGuard b w) k a) s Q.
Proof.
  induction fuel as [|fuel IH]; intros s Γ D x H d b I i w a is_ready Q HI Hlt HK Hpath Hready Hfuel HQ.
  { unfold descent_fuel in Hfuel. destruct is_ready; lia. }
  destruct d as [|d].
  { destruct is_ready; [by eapply wp_descend_leaf|by destruct Hready]. }
  destruct (on_path_child _ _ _ _ _ _ _ _ _ _ HI Hpath)
    as (p & es & j & e & n & U & t & Hn & Hwf & Hok & Ha & Hj & He & Hc & Hg & Hn' & Hnode & Hchild & _).
  simpl. apply wp_bind. eapply wp_read_block; [done|]. cbn beta iota. rewrite Ha.
  apply wp_bind. eapply wp_lift; [done|]. apply wp_bind, wp_ret.
  apply wp_bind, wp_is_still_live. intros o l Hl Hf. destruct o; cbn beta iota;
    [|by apply wp_ret, HQ, descended_err, Hf].
  assert (∀ l, now (with_latches l s) = now s) as Hnow by done.
  apply wp_bind. eapply (wp_read_block _ _ n); [done|]. cbn beta.
  destruct (decide (unsafe_degree F N n = DegreeOk)) as [Hdeg|Hdeg].
  { rewrite Hdeg. eapply (IH (with_latches l s) Γ D x H d (ptr e) (fence e) true false a true);
      [by apply Inv_latches|rewrite Hnow; destruct is_ready; lia|done|exact Hchild| | |].
    - by eapply (child_ready (with_latches l s)).
    - unfold descent_fuel in *. destruct is_ready; lia.
    - intros r s' Hd. apply HQ.
      apply (descended_step s (with_latches l s) s' Γ Γ D x H k _ d r); [done| | |exact Hl|exact Hd];
        rewrite Hnow; destruct is_ready; lia. }
  destruct is_ready.
  2:{ exfalso. destruct Hready as [_ Hfine]. destruct (Hfine _ _ _ Hn Ha Hg) as (m & Hm & Hd).
      congruence. }
  destruct Hready as (n0 & U0 & t0 & Hn0 & Hnode0 & Ht0 & Hf0 & H20).
  rewrite Hn in Hn0. injection Hn0 as <-.
  destruct (no_at _ _ _ _ _ _ _ _ Hnode0) as (es0 & Hwf0 & _ & -> & ->).
  rewrite (int_wf_inj _ _ _ _ Hwf0 Hwf) length_ent_units in Ht0, Hf0, H20. simpl in Ht0, Hf0.
  assert (at_child F N s Γ b d I i p es j e) as Hac.
  { split; try done; [apply Hpath|lia|]. intros Hi. specialize (Hf0 Hi). lia. }
  assert (∀ l s' Γ' w, length l ≤ length (latches s) →
    reorganised F N (with_latches l s) s' Γ Γ' D x H b (fence e) →
    wp (descend_write F N me fuel (mkGuard b w) k a) s' Q) as Hcont.
  { clear l Hl Hf. intros l s' Γ' w' Hl Hre%(reorganised_latches F N); [|done].
    destruct (reorganised_path _ _ _ _ _ _ _ _ _ _ _ _ _ HI Hpath Hc HK Hre) as [Hpath' Hfine].
    pose proof (ro_now _ _ _ _ _ _ _ _ _ _ _ Hre) as Hn1.
    eapply (IH s' Γ' D x H (S d) b I i w' a false);
      [apply Hre|lia|done|done|by split| |].
    - unfold descent_fuel in *. lia.
    - intros r s2 Hd. apply HQ.
      apply (descended_step s s' s2 Γ Γ' D x H k _ (S d - 1) r); [apply Hre|lia|lia|apply Hre|exact Hd]. }
  assert (∀ l, Inv F N (with_latches l s) Γ D x H) as HIl by (intros; by apply Inv_latches).
  assert (∀ l, at_child F N (with_latches l s) Γ b d I i p es j e) as Hacl
    by (intros; by eapply at_child_latches).
  destruct (unsafe_degree F N n) eqn:Edeg; [done| |];
    (apply wp_two_latches; [intros l1 Hl1; apply HQ, (descended_err s l1); [done|simpl in Hl1; lia]|];
     intros w1 w2 l2 Hl2; simpl in Hl2; cbn beta); try (case_decide; try done); apply wp_bind.
  - eapply (wp_on_overflow_node F N me HF HN HF16 HN16 (with_latches l2 s));
      [apply HIl|apply Hacl|rewrite Hnow; lia|done|exact Hnode|done|].
    intros s' Γ' Hre _. eapply Hcont; [|exact Hre]. lia.
  - eapply (wp_on_underflow_node F N me HF HN HF16 HN16 (with_latches l2 s));
      [apply HIl|apply Hacl|rewrite Hnow; lia|exact Hf0|by apply H20|done|exact Hnode|done| |].
    + intros s' Γ' Hre. eapply Hcont; [|exact Hre]. lia.
    + intros l3 Hl3. simpl in Hl3. apply wp_ret, HQ, (descended_err s l3); [done|lia].
Qed.

(** ** The whole traversal

    With a tree of height [D] and [L] lost latches to come, this is the fuel
    that is enough, and the number of versions it draws at most. *)
Definition traversal_fuel (D L : nat) : nat := 2 * (D + L) + 4.
Definition traversal_versions (D L : nat) : nat := (L + 1) * (D + L + 2).

Lemma versions_one D L : D + 2 ≤ traversal_versions D L.
Proof using Type. clear. unfold traversal_versions. nia. Qed.

Lemma versions_step D D1 L L1 :
  D1 ≤ S D → L1 < L → D + 2 + traversal_versions D1 L1 ≤ traversal_versions D L.
Proof using Type. clear. unfold traversal_versions. nia. Qed.

Definition traversed s (D : nat) H (k : Z) g s' : Prop :=
  ∃ Γ' D' x', Inv F N s' Γ' D' x' H ∧ leaf_found s' Γ' D' x' k (g_block g) ∧
    (now s ≤ now s' ≤ now s + Z.of_nat (traversal_versions D (length (latches s))))%Z ∧
    length (latches s') ≤ length (latches s) ∧
    D' + length (latches s') ≤ S (D + length (latches s)).

Lemma wp_traversal_internal s Γ D x H k fuel a (Q : result Guard Attempts → St → Prop) :
  Inv F N s Γ D x H → (now s + Z.of_nat (D + 2) < 2 ^ 63)%Z → Interval.contains KEYS k = true →
  traversal_fuel D (length (latches s)) ≤ fuel →
  (∀ r s' Γ' D' x', Inv F N s' Γ' D' x' H → D' ≤ S D →
    (now s ≤ now s' ≤ now s + Z.of_nat (D + 2))%Z →
    match r with
    | Ok g => length (latches s') ≤ length (latches s) ∧ leaf_found s' Γ' D' x' k (g_block g)
    | Err _ => length (latches s') < length (latches s)
    end → Q r s') →
  wp (traversal_write_internal_olc F N me fuel k a) s Q.
Proof.
  intros HI Hlt HK Hfuel HQ. unfold traversal_fuel in Hfuel. unfold traversal_write_internal_olc.
  apply wp_bind. eapply (wp_retrieve_root F N me HF HN HF16 HN16); [exact HI|lia|lia|].
  intros g a' s1 (Γ1 & D1 & x1 & _ & HI1 & HD1 & -> & Hready & Hn1 & Hl1). cbn beta iota.
  eapply (wp_descend_write _ k s1 Γ1 D1 x1 H D1 _ KEYS false _ _ true); try done.
  - lia.
  - split; [constructor|]. split; [|done]. apply (inv_roots _ _ _ _ _ _ _ HI1).
  - unfold descent_fuel. lia.
  - intros r s' (Γ' & _ & HI' & Hn' & Hr). apply (HQ r s' Γ' D1 x1); [done|done|lia|].
    destruct r; [|lia]. destruct Hr. split; [lia|done].
Qed.

Lemma leaf_found_retries s Γ D x k b c :
  leaf_found s Γ D x k b → leaf_found (with_retries c s) Γ D x k b.
Proof. done. Qed.

Lemma wp_traversal_from fuel depth k : ∀ s Γ D x H a (Q : Guard → St → Prop),
  Inv F N s Γ D x H → Interval.contains KEYS k = true →
  (now s + Z.of_nat (traversal_versions D (length (latches s))) < 2 ^ 63)%Z →
  length (latches s) < fuel → traversal_fuel D (length (latches s)) ≤ depth →
  (∀ g s', traversed s D H k g s' → Q g s') →
  wp (traversal_write_from F N me fuel depth k a) s Q.
Proof.
  induction fuel as [|fuel IH]; intros s Γ D x H a Q HI HK Hlt Hf Hd HQ; [lia|].
  pose proof (versions_one D (length (latches s))) as Hv1.
  simpl. apply wp_bind. eapply wp_traversal_internal; [exact HI|lia|done|done|].
  intros r s1 Γ1 D1 x1 HI1 HD1 Hn1 Hr. destruct r as [g|a1].
  - destruct Hr as [Hl1 Hleaf]. apply wp_bind, wp_modify, wp_ret, HQ.
    set (s' := with_retries _ s1). assert (now s' = now s1) as En by done.
    exists Γ1, D1, x1. split_and!; [by apply Inv_retries|by apply leaf_found_retries|lia|lia|done|].
    simpl. lia.
  - pose proof (versions_step D D1 _ _ HD1 Hr) as Hv2.
    eapply (IH s1 Γ1 D1 x1 H a1); [done|done|lia|lia|unfold traversal_fuel in *; lia|].
    intros g s' (Γ' & D' & x' & HI' & Hleaf & Hn' & Hl' & HD'). apply HQ.
    exists Γ', D', x'. split_and!; [done|done|lia|lia|lia|lia].
Qed.

Lemma wp_traversal_write s Γ D x H fuel k (Q : Guard → St → Prop) :
  Inv F N s Γ D x H → Interval.contains KEYS k = true →
  (now s + Z.of_nat (traversal_versions D (length (latches s))) < 2 ^ 63)%Z →
  traversal_fuel D (length (latches s)) ≤ fuel →
  (∀ g s', traversed s D H k g s' → Q g s') →
  wp (traversal_write_olc F N me fuel k) s Q.
Proof.
  intros HI HK Hlt Hf HQ. eapply wp_traversal_from; try done. unfold traversal_fuel in Hf. lia.
Qed.
End descent.
