(* ===== verification/Mvbt.v ===== *)
(** * The tree

    [src/src/mv_tree/mvbt.rs]: the constants of the standard tree, its
    constructor and what it exports of its parts. *)
From S2P Require Import Prelude OrdMap Version Interval PageLen LeafPage InternalPage Node.
From S2P Require Import Clock Gc RootIndex RetryStats Tree.

Definition FAN_OUT : nat := 125.
Definition NUM_RECORDS : nat := 125.
Definition min_key : Z := 0.
Definition max_key : Z := U64_MAX.

Section mvbt.
Context {P : Type}.
Context {M : ∀ K, KeyOrder K → Type → Type} `{!OrdMap M}.
Context {T : Type → Type} `{!BPlusTree T}.
Local Abbreviation St := (@TreeSt P M (RootIndex M T)).

(** The state of a new tree: its allocator has handed out one empty leaf, the
    first root. The clock and the retry counters are statics, so they are as the
    process left them; the outcomes of latches and the random numbers are still
    to come. *)
Definition make (root_index_type : RootIndexType) (coins : list bool) (c : ClockSt)
    (l : list bool) (r : Counters) (g : list Z) : St :=
  mkTree {[ 0 := Node.new_leaf ]} 1 (root_index_new root_index_type coins 0) c
    None false 0 1 l r g.

Definition tree_count_roots (s : St) : nat := count_roots (root s).
Definition root_star_index (s : St) : RootIndexType := index_type (root s).
Definition has_update_in_place (s : St) : bool := update_in_place s.
End mvbt.
