(* ===== verification/LeafOps.v ===== *)
(** * Writing to a leaf

    What the writes of [src/src/mv_query/dispatch.rs] do to the records of a
    leaf, as lists: a new record at the end, the end of a record's life, or both
    under one version. A write under version [w] decides what is read of its key
    from [w] on, and changes neither the other keys nor the older versions. *)
From S2P Require Import Prelude OrdMap Version Interval PageLen LeafPage InternalPage Node.
From S2P Require Import Clock Gc RootIndex RetryStats Tree Traversal Query Dispatch.
From S2P Require Import Units NodeInv.

Section leaf_writes.
Context {P : Type} (N : nat).
Implicit Types (r : RecordPoint P) (rs : list (RecordPoint P)) (k v w T : Z) (I : Interval).

Definition keyed (k : Z) r : bool := (key r =? k)%Z.

(** ** The newest record of a key *)
Lemma find_key_wf p rs k :
  leaf_wf N p rs →
  find_key p k = (i ← rfind_idx (keyed k) rs; (i,.) <$> rs !! i).
Proof. intros Hwf. unfold find_key. by rewrite (leaf_wf_records _ _ _ Hwf). Qed.

Lemma find_key_Some p rs k i r :
  leaf_wf N p rs → find_key p k = Some (i, r) →
  rfind_idx (keyed k) rs = Some i ∧ rs !! i = Some r ∧ key r = k.
Proof.
  intros Hwf. rewrite (find_key_wf _ _ _ Hwf).
  destruct (rfind_idx _ _) as [j|] eqn:E; [|done]. simpl.
  pose proof E as [(r' & Hr' & Hk%Z.eqb_eq) _]%rfind_idx_Some.
  rewrite Hr'. intros [= <- <-]. done.
Qed.

Lemma find_key_None p rs k :
  leaf_wf N p rs → find_key p k = None → ∀ r, r ∈ rs → key r ≠ k.
Proof.
  intros Hwf. rewrite (find_key_wf _ _ _ Hwf).
  destruct (rfind_idx _ _) as [j|] eqn:E; simpl.
  - pose proof (rfind_idx_lt _ _ _ E) as [x ->]%lookup_lt_is_Some. done.
  - intros _ r Hr. rewrite rfind_idx_None in E. apply E in Hr. by apply Z.eqb_neq.
Qed.

(** A leaf with a live record of the key shows it, and only the newest one can
    be live. *)
Lemma pick_live T I rs k i r :
  leaf_ok T I rs → rs !! i = Some r → key r = k → live r →
  pick k (rec_units rs) = Some (rec_unit r).
Proof.
  intros Hok Hi Hk Hl. apply pick_elem; [apply (lo_unique _ _ _ Hok)| |by apply hit_rec].
  apply elem_of_rec_units. exists r. split_and!; [done..|]. by eapply list_elem_of_lookup_2.
Qed.

Lemma pick_dead T I rs k i r :
  leaf_ok T I rs → rfind_idx (keyed k) rs = Some i → rs !! i = Some r → ¬ live r →
  pick k (rec_units rs) = None.
Proof.
  intros Hok Hf Hi Hd. destruct (pick k (rec_units rs)) as [u|] eqn:E; [|done]. exfalso.
  apply pick_Some in E as [Hh (r' & -> & Hl & Hr')%elem_of_rec_units].
  apply hit_rec in Hh. destruct (lo_newest _ _ _ Hok _ Hr' Hl) as (j & r2 & Hj & Hr2 & Hl2).
  rewrite Hh in Hj. change (rfind_idx (keyed k) rs = Some j) in Hj. congruence.
Qed.

Lemma pick_absent rs k : (∀ r, r ∈ rs → key r ≠ k) → pick k (rec_units rs) = None.
Proof.
  intros H. apply pick_None, cover_zero. intros u (r & -> & _ & Hr)%elem_of_rec_units Hh.
  apply hit_rec in Hh. by apply (H r).
Qed.

(** ** Reads at older versions *)
Lemma read_record_cons_newer rs r k v :
  (v < insertion_key r)%Z → read_record (rs ++ [r]) k v = read_record rs k v.
Proof. intros Hv. unfold read_record. rewrite reverse_snoc /=. by rewrite (proj2 (Z.ltb_lt _ _) Hv). Qed.

(** Records with the same key, payload and insertion that match alike. *)
Definition alike (v : Z) r r' : Prop :=
  key r' = key r ∧ payload r' = payload r ∧ insertion_key r' = insertion_key r ∧
  VersionInfo.matches (version r') v = VersionInfo.matches (version r) v.

#[global] Instance alike_refl v : Reflexive (alike v).
Proof. intros r. by split_and!. Qed.

Lemma skip_while_alike v rs rs' :
  Forall2 (alike v) rs rs' →
  Forall2 (alike v) (skip_while (λ r, (v <? insertion_key r)%Z) rs)
    (skip_while (λ r, (v <? insertion_key r)%Z) rs').
Proof.
  induction 1 as [|r r' rs rs' Hr Hrs IH]; simpl; [constructor|].
  pose proof Hr as (_ & _ & -> & _). destruct (_ <? _)%Z; [done|]. by constructor.
Qed.

Lemma head_filter_alike v k rs rs' :
  Forall2 (alike v) rs rs' →
  RecordPoint.result_from <$>
    head (filter (λ r, (key r =? k)%Z && VersionInfo.matches (version r) v = true) rs') =
  RecordPoint.result_from <$>
    head (filter (λ r, (key r =? k)%Z && VersionInfo.matches (version r) v = true) rs).
Proof.
  induction 1 as [|r r' rs rs' (Hk & Hp & _ & Hm) Hrs IH]; [done|].
  rewrite !filter_cons Hk Hm. case_decide; [|done]. simpl. unfold RecordPoint.result_from. congruence.
Qed.

Lemma read_record_alike v k rs rs' :
  Forall2 (alike v) rs rs' →
  RecordPoint.result_from <$> read_record rs' k v = RecordPoint.result_from <$> read_record rs k v.
Proof.
  intros H. unfold read_record. apply head_filter_alike, skip_while_alike. by apply Forall2_reverse.
Qed.

Lemma alike_kill v w r : live r → (0 ≤ w < 2 ^ 63)%Z → (v < w)%Z → alike v r (kill r w).
Proof.
  intros Hl Hw Hv. split_and!; [done..|].
  rewrite (matches_delete (version r) (version (kill r w)) w v Hw (delete_live _ _ Hl)).
  by rewrite (proj2 (Z.ltb_lt _ _) Hv) andb_true_r.
Qed.

Lemma Forall2_insert_alike v rs i r r' :
  rs !! i = Some r → alike v r r' → Forall2 (alike v) rs (<[i := r']> rs).
Proof.
  intros Hi Hr. rewrite -{1}(list_insert_id rs i r Hi).
  apply Forall2_insert; [reflexivity|done].
Qed.

(** ** What a write does to the records *)

(** A leaf that is good before the time [T] is good after the death of a live
    record at [w]. *)
Lemma leaf_ok_kill T w I rs i r :
  leaf_ok T I rs → (T ≤ w + 1)%Z → (1 ≤ w < 2 ^ 63)%Z → rs !! i = Some r → live r →
  leaf_ok (w + 1) I (<[i := kill r w]> rs) ∧ cover (key r) (rec_units (<[i := kill r w]> rs)) = 0.
Proof.
  intros Hok HT Hw Hi Hl. pose proof (rec_units_kill rs i r w Hi Hl) as Hp.
  assert (∀ k, cover k (rec_units rs) =
    (if decide (hit k (rec_unit r)) then 1 else 0) + cover k (rec_units (<[i:=kill r w]> rs))) as Hc.
  { intros k. by rewrite (cover_perm k _ _ Hp) cover_cons. }
  assert (cover (key r) (rec_units (<[i := kill r w]> rs)) = 0) as H0.
  { pose proof (lo_unique _ _ _ Hok (key r)). specialize (Hc (key r)).
    rewrite decide_True in Hc; [lia|by apply hit_rec]. }
  split; [split|done].
  - intros r' Hr'. apply list_elem_of_lookup in Hr' as [j Hj].
    destruct (decide (i = j)) as [<-|Hne].
    + rewrite list_lookup_insert_eq in Hj; [|by eapply lookup_lt_Some]. simplify_eq.
      apply list_elem_of_lookup_2 in Hi. destruct (lo_recs _ _ _ Hok _ Hi) as [Hc1 [Hv1 _]].
      split; [done|]. split; [simpl; lia|]. unfold kill, VersionInfo.deletion_version. simpl.
      rewrite DeletedVersion.get_new; lia.
    + rewrite list_lookup_insert_ne // in Hj. apply list_elem_of_lookup_2 in Hj.
      destruct (lo_recs _ _ _ Hok _ Hj) as [Hc1 [Hv1 Hd1]]. split; [done|]. split; [lia|].
      destruct (VersionInfo.deletion_version _); [lia|done].
  - intros k. specialize (Hc k). pose proof (lo_unique _ _ _ Hok k). lia.
  - intros r' Hr' Hl'.
    assert (key r' ≠ key r) as Hk.
    { intros E. apply (proj1 (cover_zero _ _) H0 (rec_unit r')); [|by apply hit_rec].
      apply elem_of_rec_units. by exists r'. }
    apply list_elem_of_lookup in Hr' as [j Hj].
    destruct (decide (i = j)) as [<-|Hne].
    { rewrite list_lookup_insert_eq in Hj; [|by eapply lookup_lt_Some]. simplify_eq. }
    rewrite list_lookup_insert_ne // in Hj. apply list_elem_of_lookup_2 in Hj.
    destruct (lo_newest _ _ _ Hok _ Hj Hl') as (n & r2 & Hn & Hr2 & Hl2).
    pose proof Hn as [(r3 & Hr3 & Hk3%Z.eqb_eq) Hlast]%rfind_idx_Some.
    assert (i ≠ n) as Hin by (intros ->; congruence).
    exists n, r2. rewrite list_lookup_insert_ne //. split_and!; [|done..].
    apply rfind_idx_Some. split.
    { exists r3. rewrite list_lookup_insert_ne //. split; [done|by apply Z.eqb_eq]. }
    intros a y Ha Hy. destruct (decide (i = a)) as [<-|Hia].
    + rewrite list_lookup_insert_eq in Hy; [|by eapply lookup_lt_Some]. simplify_eq. simpl.
      apply Z.eqb_neq. congruence.
    + rewrite list_lookup_insert_ne // in Hy. by eapply Hlast.
Qed.

Lemma leaf_ok_push T I rs r :
  leaf_ok T I rs → Interval.contains I (key r) = true → ver_ok T (version r) → live r →
  cover (key r) (rec_units rs) = 0 →
  leaf_ok T I (rs ++ [r]).
Proof.
  intros Hok HI Hv Hl H0.
  assert (rec_units [r] = [rec_unit r]) as Hu by by rewrite /rec_units filter_cons decide_True.
  split.
  - intros r' [Hr'| ->%list_elem_of_singleton]%elem_of_app; [by apply (lo_recs _ _ _ Hok)|done].
  - intros k. rewrite rec_units_app cover_app Hu cover_cons /cover filter_nil /=.
    case_decide as Hh; [|pose proof (lo_unique _ _ _ Hok k) as Hk; unfold cover in Hk; lia].
    apply hit_rec in Hh as <-. unfold cover in H0. lia.
  - intros r' Hr' Hl'. rewrite rfind_idx_snoc. destruct (Z.eqb_spec (key r) (key r')) as [E|E].
    { exists (length rs), r. by rewrite lookup_app_r // Nat.sub_diag. }
    apply elem_of_app in Hr' as [Hr'| ->%list_elem_of_singleton]; [|done].
    destruct (lo_newest _ _ _ Hok _ Hr' Hl') as (i & r2 & Hi & Hr2 & Hl2).
    exists i, r2. split_and!; [done| |done]. rewrite lookup_app_l //. by eapply lookup_lt_Some.
Qed.

(** A write of the value [o] to the key [k] under the version [w]: the records
    [rs] before and [rs'] after. *)
Record leaf_write (w : Z) I k (o : option P) rs rs' : Prop := {
  lw_ok : leaf_ok (w + 1) I rs';
  lw_here : unit_result k (pick k (rec_units rs')) = (λ p, (k, p)) <$> o;
  lw_there k' : k' ≠ k → pick k' (rec_units rs') = pick k' (rec_units rs);
  lw_old k' v : (v < w)%Z →
    RecordPoint.result_from <$> read_record rs' k' v =
    RecordPoint.result_from <$> read_record rs k' v;
  lw_live : n_live rs ≤ n_live rs' + 1;
}.

Definition new_record (w k : Z) (p : P) : RecordPoint P :=
  RecordPoint.new k (VersionInfo.new w) p.

Lemma new_record_live w k p : live (new_record w k p).
Proof. apply is_deleted_new. Qed.

Lemma new_record_ok w k p : (1 ≤ w)%Z → ver_ok (w + 1) (version (new_record w k p)).
Proof.
  intros Hw. split; [simpl; lia|exact I].
Qed.

Lemma pick_push rs r k :
  live r → pick k (rec_units (rs ++ [r])) =
    match pick k (rec_units rs) with
    | Some u => Some u
    | None => if decide (key r = k) then Some (rec_unit r) else None
    end.
Proof.
  intros Hl. rewrite rec_units_app pick_app {2}/rec_units filter_cons decide_True // filter_nil /=.
  unfold pick at 2. rewrite filter_cons filter_nil.
  destruct (decide (key r = k)) as [E|E].
  - by rewrite decide_True; [|by apply hit_rec].
  - by rewrite decide_False; [|by rewrite hit_rec].
Qed.

Lemma n_live_push rs r : live r → n_live (rs ++ [r]) = n_live rs + 1.
Proof. intros Hl. rewrite n_live_app (n_live_all [r]) //. by constructor. Qed.

Lemma pick_killed T I rs i r w k :
  leaf_ok T I rs → rs !! i = Some r → live r → k ≠ key r →
  pick k (rec_units (<[i := kill r w]> rs)) = pick k (rec_units rs).
Proof.
  intros Hok Hi Hl Hk. symmetry.
  rewrite (pick_perm k _ _ (lo_unique _ _ _ Hok k) (rec_units_kill rs i r w Hi Hl)).
  unfold pick. rewrite filter_cons decide_False //. by rewrite hit_rec.
Qed.

Lemma n_live_kill rs i r w :
  rs !! i = Some r → live r → n_live rs = n_live (<[i := kill r w]> rs) + 1.
Proof.
  intros Hi Hl. pose proof (n_live_insert rs i r (kill r w) Hi) as H.
  rewrite (decide_True (P:=live r)) // decide_False in H; [lia|apply kill_not_live].
Qed.

(** The three writes. *)
Lemma insert_write w I k p rs :
  leaf_ok w I rs → (1 ≤ w < 2 ^ 63)%Z → Interval.contains I k = true →
  pick k (rec_units rs) = None →
  leaf_write w I k (Some p) rs (rs ++ [new_record w k p]).
Proof.
  intros Hok Hw HI Hk. pose proof (new_record_live w k p) as Hl. split.
  - apply leaf_ok_push; try done; [|apply new_record_ok; lia|by apply pick_None].
    destruct Hok as [H1 H2 H3]. split; [|done..]. intros r Hr.
    apply H1 in Hr as [? [? Hd]]. split; [done|]. split; [lia|].
    destruct (VersionInfo.deletion_version _); [lia|done].
  - by rewrite pick_push // Hk decide_True.
  - intros k' Hne. rewrite pick_push // decide_False; [|by intros <-]. by destruct (pick k' _).
  - intros k' v Hv. by rewrite read_record_cons_newer.
  - rewrite n_live_push //. lia.
Qed.

Lemma delete_write w I k rs i r :
  leaf_ok w I rs → (1 ≤ w < 2 ^ 63)%Z → rs !! i = Some r → key r = k → live r →
  leaf_write w I k None rs (<[i := kill r w]> rs).
Proof.
  intros Hok Hw Hi Hk Hl. subst k.
  destruct (leaf_ok_kill w w _ _ _ _ Hok ltac:(lia) Hw Hi Hl) as [Hok' H0]. split; [done|..].
  - by rewrite (proj2 (pick_None _ _) H0).
  - intros k' Hne. by eapply pick_killed.
  - intros k' v Hv. apply read_record_alike, Forall2_insert_alike with r; [done|].
    apply alike_kill; [done|lia|done].
  - rewrite (n_live_kill rs i r w) //.
Qed.

Lemma update_write w I k p rs i r :
  leaf_ok w I rs → (1 ≤ w < 2 ^ 63)%Z → rs !! i = Some r → key r = k → live r →
  leaf_write w I k (Some p) rs (<[i := kill r w]> rs ++ [new_record w k p]).
Proof.
  intros Hok Hw Hi Hk Hl. pose proof (new_record_live w k p) as Hl2.
  destruct (delete_write _ _ _ _ _ _ Hok Hw Hi Hk Hl) as [Hok' Hh Ht Ho Hn].
  destruct (leaf_ok_kill w w _ _ _ _ Hok ltac:(lia) Hw Hi Hl) as [_ H0]. rewrite Hk in H0.
  assert (Interval.contains I k = true) as HI.
  { rewrite -Hk. apply list_elem_of_lookup_2 in Hi. by apply (lo_recs _ _ _ Hok). }
  split.
  - apply leaf_ok_push; try done. apply new_record_ok. lia.
  - by rewrite pick_push // (proj2 (pick_None _ _) H0) decide_True.
  - intros k' Hne. rewrite pick_push // decide_False; [|by intros <-].
    rewrite Ht //. by destruct (pick k' _).
  - intros k' v Hv. rewrite read_record_cons_newer; [by apply Ho|done].
  - rewrite n_live_push //. lia.
Qed.
End leaf_writes.
