(* ===== verification/Spec.v ===== *)
(** * The specification of the point operations

    A map from versions and keys to payloads, which a write changes from its own
    version on: what [dispatch_crud] of [src/src/mv_query/dispatch.rs] promises
    for [Insert], [Update], [Delete] and [Point], each alone and in sequence. *)
From S2P Require Import Prelude OrdMap Version Interval PageLen LeafPage InternalPage Node.
From S2P Require Import Clock Gc RootIndex RetryStats Tree Traversal Query Dispatch.
From S2P Require Import Store TreeInv.

Section spec.
Context {P : Type}.
Implicit Types (H : History P).

(** From the version [w] on, the key [k] has the value [o]. *)
Definition hist_set H (w k : Z) (o : option P) : History P :=
  λ v k', if decide (k' = k ∧ (w ≤ v)%Z) then o else H v k'.

Lemma hist_set_here H w k o v : (w ≤ v)%Z → hist_set H w k o v k = o.
Proof. intros Hv. unfold hist_set. by rewrite decide_True. Qed.
Lemma hist_set_old H w k o v k' : (v < w)%Z → hist_set H w k o v k' = H v k'.
Proof. intros Hv. unfold hist_set. rewrite decide_False //. lia. Qed.
Lemma hist_set_other H w k o v k' : k' ≠ k → hist_set H w k o v k' = H v k'.
Proof. intros Hk. unfold hist_set. rewrite decide_False //. tauto. Qed.

(** What an operation that takes effect at the version [w] returns, and the
    history after it. *)
Inductive crud_spec (H : History P) (w : Z) :
    CRUDOperation P → CRUDOperationResult P → History P → Prop :=
  | spec_insert k p :
      H w k = None →
      crud_spec H w (OpInsert k p) (Inserted w) (hist_set H w k (Some p))
  | spec_insert_exists k p q :
      H w k = Some q → crud_spec H w (OpInsert k p) (ZeroAffected KeyAlreadyExists) H
  | spec_update k p q :
      H w k = Some q →
      crud_spec H w (OpUpdate k p) (Updated w) (hist_set H w k (Some p))
  | spec_update_none k p reason :
      H w k = None → reason = KeyDoesNotExist ∨ reason = KeyAlreadyDeleted →
      crud_spec H w (OpUpdate k p) (ZeroAffected reason) H
  | spec_delete k q :
      H w k = Some q → crud_spec H w (OpDelete k) (Deleted w) (hist_set H w k None)
  | spec_delete_none k reason :
      H w k = None → reason = KeyDoesNotExist ∨ reason = KeyAlreadyDeleted →
      crud_spec H w (OpDelete k) (ZeroAffected reason) H
  | spec_point k v :
      crud_spec H w (OpPoint k v) (MatchedRecords (option_list ((λ p, (k, p)) <$> H v k))) H.

(** The operations it speaks about. *)
Definition point_op (op : CRUDOperation P) : Prop :=
  match op with
  | OpInsert k _ | OpUpdate k _ | OpDelete k => Interval.contains KEYS k = true
  | OpPoint k v => Interval.contains KEYS k = true ∧ (1 ≤ v)%Z
  | _ => False
  end.

(** The version under which an operation committed, if it wrote. *)
Definition commit_of (res : CRUDOperationResult P) : option Version :=
  match res with Inserted v | Updated v | Deleted v => Some v | _ => None end.

(** A sequence of operations, from the time [t] to the time [t']: each takes
    effect at a version in between, and what commits takes a version away. *)
Inductive crud_run : History P → Z → list (CRUDOperation P) → list (CRUDOperationResult P) →
    History P → Z → Prop :=
  | run_nil H t : crud_run H t [] [] H t
  | run_cons H t op ops res ress H1 t1 H2 t2 w :
      (t ≤ w ≤ t1)%Z → (is_Some (commit_of res) → (w < t1)%Z) →
      crud_spec H w op res H1 → crud_run H1 t1 ops ress H2 t2 →
      crud_run H t (op :: ops) (res :: ress) H2 t2.

Lemma spec_commit H w op res H' v : crud_spec H w op res H' → commit_of res = Some v → v = w.
Proof. destruct 1; simpl; congruence. Qed.

Lemma spec_read_only H w op res H' : crud_spec H w op res H' → commit_of res = None → H' = H.
Proof. by destruct 1. Qed.

(** What was there before a version stays there. *)
Lemma spec_old H w op res H' v k : crud_spec H w op res H' → (v < w)%Z → H' v k = H v k.
Proof. destruct 1; intros Hv; rewrite ?hist_set_old //. Qed.

(** The other keys do not change at all. *)
Definition op_key (op : CRUDOperation P) : option Z :=
  match op with OpInsert k _ | OpUpdate k _ | OpDelete k => Some k | _ => None end.
Lemma spec_other H w op res H' v k : crud_spec H w op res H' → op_key op ≠ Some k → H' v k = H v k.
Proof. destruct 1; simpl; intros Hk; rewrite ?hist_set_other //; congruence. Qed.

Lemma run_time H t ops ress H' t' : crud_run H t ops ress H' t' → (t ≤ t')%Z.
Proof. induction 1; lia. Qed.

Lemma run_old H t ops ress H' t' v k : crud_run H t ops ress H' t' → (v < t)%Z → H' v k = H v k.
Proof.
  induction 1 as [|H t op ops res ress H1 t1 H2 t2 w Hw Hc Hs Hr IH]; [done|].
  intros Hv. rewrite IH; [|lia]. eapply spec_old; [done|lia].
Qed.

Lemma run_length H t ops ress H' t' : crud_run H t ops ress H' t' → length ress = length ops.
Proof. induction 1; simpl; congruence. Qed.

Lemma run_no_error H t ops ress H' t' :
  crud_run H t ops ress H' t' → Forall (λ res, is_err res = false) ress.
Proof. induction 1 as [|H t op ops res ress H1 t1 H2 t2 w _ _ Hs _ IH]; constructor; [by destruct Hs|done]. Qed.

(** Commits of a sequence get increasing versions. *)
Lemma run_commits H t ops ress H' t' :
  crud_run H t ops ress H' t' →
  StronglySorted Z.lt (omap commit_of ress) ∧ Forall (λ v, (t ≤ v < t')%Z) (omap commit_of ress).
Proof.
  induction 1 as [|H t op ops res ress H1 t1 H2 t2 w Hw Hc Hs Hr [IH1 IH2]].
  { split; constructor. }
  pose proof (run_time _ _ _ _ _ _ Hr) as Ht.
  cbn. destruct (commit_of res) as [v|] eqn:E.
  - pose proof (spec_commit _ _ _ _ _ _ Hs E) as ->.
    assert (w < t1)%Z by (apply Hc; eauto). split.
    + constructor; [done|]. eapply Forall_impl; [exact IH2|]. simpl. lia.
    + constructor; [lia|]. eapply Forall_impl; [exact IH2|]. simpl. lia.
  - split; [done|]. eapply Forall_impl; [exact IH2|]. simpl. lia.
Qed.
End spec.

