(* ===== verification/LeafRefine.v ===== *)
(** * Writes at the leaf are writes to the history

    [insert_at_leaf], [update_at_leaf] and [delete_at_leaf], the parts of
    [dispatch_crud] of [src/src/mv_query/dispatch.rs] that follow the descent:
    from a state that satisfies the invariant, with the leaf of the key at hand,
    each does what the specification says and keeps the invariant. *)
From Stdlib Require Import ZifyNat.
From S2P Require Import Prelude OrdMap Version Interval PageLen LeafPage InternalPage Node.
From S2P Require Import Clock Gc RootIndex RetryStats Tree Traversal Query Dispatch.
From S2P Require Import Units NodeInv Store TreeInv Alloc Smo Sibling Parent Reorganise RootOps.
From S2P Require Import Descent LeafOps Spec.

#[local] Set Default Proof Using "Type*".

Section leaf_refine.
Context {P : Type}.
Context {M : ∀ K, KeyOrder K → Type → Type} `{!OrdMap M}.
Context {R : Type} `{!RootStore R, !RootStoreLaws R}.
Context (F N : nat) (me : Tid).
Context (HF : 8 ≤ F) (HN : 8 ≤ N) (HF16 : (Z.of_nat F < 2 ^ 16)%Z) (HN16 : (Z.of_nat N < 2 ^ 16)%Z).
Local Abbreviation St := (@TreeSt P M R).
Implicit Types (s : St) (Γ : gmap BlockRef Ty) (H : History P) (x : Root) (g : Guard).

(** ** A write to the leaf of a key *)
Lemma Inv_leaf s s' Γ D x H k b I i p p' rs rs' o :
  Inv F N s Γ D x H → Interval.contains KEYS k = true →
  on_path s Γ D x k 0 b I i → heap s !! b = Some (Leaf p) → leaf_wf N p rs →
  leaf_wf N p' rs' → leaf_write (now s) I k o rs rs' →
  (i = true → fill_20 F N 0 ≤ n_live rs') →
  heap s' = <[b := Leaf p']> (heap s) → next_block s' = next_block s → root s' = root s →
  tracker s' = None → now s' = (now s + 1)%Z → (now s + 1 < 2 ^ 63)%Z →
  Inv F N s' Γ D x (hist_set H (now s) k o).
Proof using All.
  intros HI HK (Hp & Hb & Hk) Hn Hwf Hwf' [Hok' Hhere Hthere Hold _] Hfill Hh Hnext Hroot Htr Hnow Hlt.
  pose proof (inv_time _ _ _ _ _ _ _ HI) as Htime.
  pose proof (inv_store _ _ _ _ _ _ _ HI) as Hs. pose proof (inv_roots _ _ _ _ _ _ _ HI) as Hroots.
  destruct (Hs _ _ Hb) as (n0 & U & t & Hn0 & Hnode). rewrite Hn in Hn0. injection Hn0 as <-.
  destruct (no_at _ _ _ _ _ _ _ _ Hnode) as (rs0 & Hwf0 & Hok & -> & ->).
  assert (rs0 = rs) as -> by by rewrite -(leaf_wf_records _ _ _ Hwf) (leaf_wf_records _ _ _ Hwf0).
  assert (node_ok F N Γ (now s') (mkTy 0 I i) (Leaf p') (rec_units rs') (length rs')) as Hnode'.
  { split; [exists rs'; rewrite Hnow; by split_and!|apply (no_range _ _ _ _ _ _ _ _ Hnode)| |].
    - rewrite length_rec_units. done.
    - intros J c (r & [=] & _)%elem_of_rec_units. }
  assert (store_ok F N (heap s') Γ (now s')) as Hs'.
  { intros a ty Ha. destruct (decide (a = b)) as [->|Hne].
    - rewrite Hb in Ha. injection Ha as <-. eexists _, _, _. split; [|exact Hnode'].
      by rewrite Hh lookup_insert_eq.
    - eapply block_ok_mono; [done| | |by apply Hs]; [lia|]. by rewrite Hh lookup_insert_ne. }
  eapply (Inv_step F N s s' Γ Γ D D x x); try done.
  - intros a m. rewrite Hh Hnext lookup_insert_Some.
    intros [[<- _]|[_ Hl]]; by eapply (inv_fresh _ _ _ _ _ _ _ HI).
  - rewrite Hh. eapply heap_ext_insert; [done|]. intros k' u Hu. simpl.
    rewrite (leaf_wf_records _ _ _ Hwf) (leaf_wf_records _ _ _ Hwf'). apply Hold. lia.
  - rewrite Hroot. eapply roots_mono; [done| |exact Hroots]. lia.
  - intros v _. by rewrite Hroot.
  - lia.
  - intros v k' Hv. by apply hist_set_old.
  - intros v k' Hv HK'. destruct (decide (k' = k)) as [->|Hne].
    + rewrite hist_set_here // -Hhere.
      assert (path (heap s') k D (block x) 0 b) as Hp'.
      { eapply (path_frame F N (heap s)); [done|done|apply Hroots|done|].
        intros c ty Hc Hd. rewrite Hh lookup_insert_ne //. intros <-.
        rewrite Hb in Hc. injection Hc as <-. simpl in Hd. lia. }
      rewrite (path_read F N _ _ (now s') _ v _ _ _ _ _ _ Hs' Hp' (proj2 Hroots) HK); [|lia].
      eapply (read_leaf F N); [by rewrite Hh lookup_insert_eq|exact Hnode'|lia].
    + rewrite hist_set_other // -(inv_current F N _ _ _ _ _ v k' HI); [|lia|lia|done].
      eapply (read_replace F N (heap s) (heap s') Γ (now s) b); [done|lia| | |apply Hroots|done].
      * intros c ty _ Hc. by rewrite Hh lookup_insert_ne.
      * intros d I' i' Hb' HI'. rewrite Hb in Hb'. injection Hb' as <- <- <-.
        rewrite (read_leaf F N _ _ _ _ _ _ _ _ _ _ v 0 Hn Hnode); [|lia].
        assert (heap s' !! b = Some (Leaf p')) as Hn' by by rewrite Hh lookup_insert_eq.
        rewrite (read_leaf F N _ _ _ _ _ _ _ _ _ _ v 0 Hn' Hnode'); [|lia].
        by rewrite Hthere.
Qed.

(** A version that is drawn for nothing. *)
Lemma Inv_tick s c Γ D x H :
  Inv F N s Γ D x H → clock_time c = (now s + 1)%Z → (now s + 1 < 2 ^ 63)%Z →
  Inv F N (with_clock c s) Γ D x H.
Proof using All.
  intros HI Hc Hlt. assert (now (with_clock c s) = now s + 1)%Z as Hn by done.
  pose proof (inv_time _ _ _ _ _ _ _ HI) as Htime.
  eapply (Inv_quiet F N s _ Γ Γ D D x x); try done.
  - apply HI.
  - apply HI.
  - intros b ty Hb. eapply block_ok_mono; [done| |done|by apply (inv_store _ _ _ _ _ _ _ HI)]. lia.
  - eapply roots_mono; [done| |apply (inv_roots _ _ _ _ _ _ _ HI)]. lia.
  - lia.
Qed.

(** The leaf the descent found, with what it holds. *)
Record at_leaf s Γ (D : nat) x H k b I i p rs : Prop := {
  al_inv : Inv F N s Γ D x H;
  al_key : Interval.contains KEYS k = true;
  al_path : on_path s Γ D x k 0 b I i;
  al_page : heap s !! b = Some (Leaf p);
  al_wf : leaf_wf N p rs;
  al_ok : leaf_ok (now s) I rs;
  al_room : length rs < N;
  al_fill : i = true → fill_20 F N 0 < n_live rs;
}.

Lemma leaf_found_at s Γ D x H k b :
  Inv F N s Γ D x H → Interval.contains KEYS k = true → leaf_found F N s Γ D x k b →
  ∃ I i p rs, at_leaf s Γ D x H k b I i p rs.
Proof using Type.
  clear. intros HI HK (I & i & Hp & n & U & t & Hn & Hnode & Ht & Hf & _).
  pose proof (no_at _ _ _ _ _ _ _ _ Hnode) as Hat. destruct n as [p|]; [|done].
  destruct Hat as (rs & Hwf & Hok & -> & ->). exists I, i, p, rs.
  split; try done. intros Hi. rewrite -length_rec_units. by apply Hf.
Qed.

Section leaf.
Context (s : St) (Γ : gmap BlockRef Ty) (D : nat) (x : Root) (H : History P) (k : Z) (b : BlockRef).
Context (I : Interval) (i : bool) (p : LeafPage P) (rs : list (RecordPoint P)).
Context (Hat : at_leaf s Γ D x H k b I i p rs) (Hlt : (now s + 1 < 2 ^ 63)%Z).

Lemma leaf_value : unit_result k (pick k (rec_units rs)) = (λ p, (k, p)) <$> H (now s) k.
Proof using All.
  destruct Hat as [HI HK (Hp & Hb & Hk) Hn Hwf Hok _ _].
  pose proof (inv_time _ _ _ _ _ _ _ HI) as Htime.
  destruct (inv_store _ _ _ _ _ _ _ HI _ _ Hb) as (n0 & U & t & Hn0 & Hnode).
  rewrite Hn in Hn0. injection Hn0 as <-.
  destruct (no_at _ _ _ _ _ _ _ _ Hnode) as (rs0 & Hwf0 & _ & -> & ->).
  assert (rs0 = rs) as -> by by rewrite -(leaf_wf_records _ _ _ Hwf) (leaf_wf_records _ _ _ Hwf0).
  pose proof (inv_current F N _ _ _ _ _ (now s) k HI ltac:(lia) ltac:(lia) HK) as Hc.
  rewrite (path_read F N _ _ (now s) _ (now s) _ _ _ _ _ _ (inv_store _ _ _ _ _ _ _ HI) Hp
    (proj2 (inv_roots _ _ _ _ _ _ _ HI)) HK) in Hc; [|lia].
  rewrite (read_leaf F N _ _ _ _ _ _ _ _ _ _ (now s) 0 Hn Hnode) in Hc; [|lia].
  by injection Hc as ->.
Qed.

(** The newest record of the key decides. *)
Lemma leaf_none : find_key p k = None → H (now s) k = None.
Proof using All.
  intros Hf. pose proof leaf_value as Hv.
  rewrite (pick_absent rs k) in Hv; [|by eapply find_key_None, Hf; apply Hat].
  by destruct (H (now s) k).
Qed.

Lemma leaf_dead j r : find_key p k = Some (j, r) → ¬ live r → H (now s) k = None.
Proof using All.
  intros Hf Hd. pose proof leaf_value as Hv.
  apply (find_key_Some N _ rs) in Hf as (Hi & Hr & Hk); [|apply Hat].
  rewrite (pick_dead (now s) I rs k j r) // in Hv; [|apply Hat]. by destruct (H (now s) k).
Qed.

Lemma leaf_live j r : find_key p k = Some (j, r) → live r → H (now s) k = Some (payload r).
Proof using All.
  intros Hf Hl. pose proof leaf_value as Hv.
  apply (find_key_Some N _ rs) in Hf as (Hi & Hr & Hk); [|apply Hat].
  rewrite (pick_live (now s) I rs k j r) // in Hv; [|apply Hat].
  destruct (H (now s) k); simpl in Hv; congruence.
Qed.

Definition leaf_done (op : CRUDOperation P) (res : CRUDOperationResult P) s' : Prop :=
  ∃ H', crud_spec H (now s) op res H' ∧ Inv F N s' Γ D x H' ∧
    (now s ≤ now s' ≤ now s + 1)%Z ∧ (is_Some (commit_of res) → now s < now s')%Z ∧
    latches s' = latches s.

(** Between the draw of the version and the end of the commit only the page in
    the block changes. *)
Record leaf_state s1 p1 : Prop := {
  ls_heap : heap s1 = <[b := Leaf p1]> (heap s);
  ls_next : next_block s1 = next_block s;
  ls_root : root s1 = root s;
  ls_tracker : tracker s1 = None;
  ls_now : now s1 = (now s + 1)%Z;
  ls_latches : latches s1 = latches s;
}.

Lemma wp_leaf_start (Q : Version → St → Prop) :
  (∀ s1, leaf_state s1 p → Q (now s) s1) → wp (start_tx_commit me) s Q.
Proof using All.
  intros HQ. destruct Hat as [HI _ _ Hn _ _ _ _].
  apply wp_start_tx; [done|by apply (inv_time _ _ _ _ _ _ _ HI)|]. intros c Hc. apply HQ.
  split; simpl; try done; [by rewrite insert_id|apply HI].
Qed.

Lemma wp_leaf_get s1 p1 (Q : LeafPage P → St → Prop) :
  leaf_state s1 p1 → Q p1 s1 → wp (get_leaf b) s1 Q.
Proof using All. intros Hs. apply wp_get_leaf. by rewrite (ls_heap _ _ Hs) lookup_insert_eq. Qed.

Lemma leaf_state_write s1 p1 p2 :
  leaf_state s1 p1 → leaf_state (with_heap <[b := Leaf p2]> s1) p2.
Proof using All. intros [E ? ? ? ? ?]. split; try done. simpl. by rewrite E insert_insert_eq. Qed.

Lemma wp_leaf_update s1 p1 p2 f (Q : () → St → Prop) :
  leaf_state s1 p1 → f p1 = Some p2 → (∀ s2, leaf_state s2 p2 → Q () s2) →
  wp (update_leaf b f) s1 Q.
Proof using All.
  intros Hs Hf HQ. eapply wp_update_leaf; [|exact Hf|].
  - by rewrite (ls_heap _ _ Hs) lookup_insert_eq.
  - by eapply HQ, leaf_state_write.
Qed.

Lemma wp_leaf_write s1 p1 p2 (Q : () → St → Prop) :
  leaf_state s1 p1 → (∀ s2, leaf_state s2 p2 → Q () s2) → wp (write_block b (Leaf p2)) s1 Q.
Proof using All. intros Hs HQ. by eapply wp_modify, HQ, leaf_state_write. Qed.

Lemma wp_leaf_end s1 p1 v (Q : () → St → Prop) :
  leaf_state s1 p1 → (∀ s2, leaf_state s2 p1 → Q () s2) → wp (end_tx_commit me v) s1 Q.
Proof using All.
  intros [H1 H2 H3 H4 H5 H6] HQ. apply wp_end_tx. intros c Hc. apply HQ.
  split; try done. unfold now in *. simpl. by rewrite Hc.
Qed.

(** The end of a write. *)
Lemma leaf_written op res s' p' rs' o :
  leaf_wf N p' rs' → leaf_write (now s) I k o rs rs' →
  crud_spec H (now s) op res (hist_set H (now s) k o) →
  leaf_state s' p' → leaf_done op res s'.
Proof using All.
  intros Hwf' Hw Hspec [Hh Hn Hr Ht Hnow Hl]. exists (hist_set H (now s) k o).
  split_and!; [done| |lia|lia|lia|done].
  eapply (Inv_leaf s s' Γ D x H k b I i p p' rs rs' o); try done; try apply Hat.
  intros Hi. pose proof (al_fill _ _ _ _ _ _ _ _ _ _ _ Hat Hi).
  pose proof (lw_live _ _ _ _ _ _ Hw). lia.
Qed.

Lemma leaf_unchanged op res :
  crud_spec H (now s) op res H → commit_of res = None → leaf_done op res s.
Proof using All.
  intros Hs Hc. exists H. split_and!; [done|apply Hat|lia|lia| |done]. by rewrite Hc; intros [? ?].
Qed.

Lemma leaf_time : (1 ≤ now s < 2 ^ 63)%Z.
Proof using All. apply (inv_time F N _ _ _ _ _ (al_inv _ _ _ _ _ _ _ _ _ _ _ Hat)). Qed.

Lemma not_live_deleted (r : RecordPoint P) : ¬ live r → VersionInfo.is_deleted (version r) = true.
Proof using Type. unfold live. by destruct (VersionInfo.is_deleted _). Qed.

Lemma leaf_keys : Interval.contains I k = true.
Proof using All. apply (al_path _ _ _ _ _ _ _ _ _ _ _ Hat). Qed.

(** The push of a record and the store of the counters. *)
Lemma wp_leaf_push {A} s1 q (rest : Comp St A) (Q : A → St → Prop) :
  leaf_state s1 p →
  (∀ s2 p2, leaf_state s2 p2 → leaf_wf N p2 (rs ++ [new_record (now s) k q]) → wp rest s2 Q) →
  wp (update_leaf b (λ page, LeafPage.push_uncommitted N page
        (RecordPoint.new k (VersionInfo.new (now s)) q) (LeafPage.len p));;
      update_leaf b (λ page, Some (LeafPage.commit_delta page 1 0));; rest) s1 Q.
Proof using All.
  intros Hs HQ.
  destruct (leaf_push_commit N p rs (new_record (now s) k q)) as (p1 & Hpush & _ & Hwf1);
    [apply Hat|apply Hat|apply new_record_live|].
  apply wp_bind. eapply wp_leaf_update; [done|exact Hpush|]. intros s2 Hs2.
  apply wp_bind. eapply wp_leaf_update; [done|reflexivity|]. intros s3 Hs3. by eapply HQ.
Qed.

(** The end of the life of a live record. *)
Lemma wp_leaf_kill {A} s1 p1 rs1 j r (rest : Comp St A) (Q : A → St → Prop) :
  leaf_state s1 p1 → leaf_wf N p1 rs1 → rs1 !! j = Some r → live r →
  (∀ s2 p2, leaf_state s2 p2 → leaf_wf N p2 (<[j := kill r (now s)]> rs1) → wp rest s2 Q) →
  wp (write_block b (Leaf (LeafPage.set_record p1 j (kill r (now s))));;
      update_leaf b (λ page, Some (LeafPage.commit_delta page (-1) 1));; rest) s1 Q.
Proof using All.
  intros Hs Hwf Hj Hl HQ.
  destruct (leaf_delete_at_live N p1 rs1 j r (now s) Hwf Hj Hl) as [_ Hwf2].
  apply wp_bind. eapply wp_leaf_write; [done|]. intros s2 Hs2.
  apply wp_bind. eapply wp_leaf_update; [done|reflexivity|]. intros s3 Hs3. by eapply HQ.
Qed.

Lemma delete_after_update_at p2 q :
  leaf_wf N p2 (rs ++ [new_record (now s) k q]) →
  LeafPage.delete_after_update p2 k (now s) =
    LeafPage.delete_at p2 (rfind_idx (keyed k) rs) (now s).
Proof using All.
  intros Hwf. unfold LeafPage.delete_after_update.
  rewrite (leaf_wf_len _ _ _ Hwf) (leaf_wf_records _ _ _ Hwf) length_app /=.
  by rewrite Nat.add_sub take_app_length.
Qed.

Lemma delete_at_found p2 (q : list (RecordPoint P)) :
  leaf_wf N p2 q → LeafPage.delete p2 k (now s) =
    LeafPage.delete_at p2 (rfind_idx (keyed k) q) (now s).
Proof using Type. clear. intros Hwf. unfold LeafPage.delete. by rewrite (leaf_wf_records _ _ _ Hwf). Qed.

(** ** Insert *)
Lemma wp_insert_at_leaf q : wp (insert_at_leaf N me b k q) s (leaf_done (OpInsert k q)).
Proof using All.
  pose proof leaf_time as Htime. unfold insert_at_leaf.
  apply wp_bind. eapply wp_get_leaf; [apply Hat|]. cbn beta zeta.
  destruct (find_key p k) as [[j r]|] eqn:Ef.
  1: destruct (decide (live r)) as [Hl|Hd].
  { pose proof Hl as Hl'. unfold live in Hl'. rewrite Hl'. simpl negb. cbn beta iota.
    apply wp_ret, leaf_unchanged; [|done]. by eapply spec_insert_exists, leaf_live. }
  1: rewrite (not_live_deleted _ Hd); simpl negb; cbn beta iota; pose proof (leaf_dead _ _ Ef Hd) as HH.
  2: pose proof (leaf_none Ef) as HH.
  all: apply wp_bind, wp_leaf_start; intros s1 Hs1; apply wp_leaf_push; [done|];
    intros s2 p2 Hs2 Hwf2; apply wp_bind; eapply wp_leaf_end; [done|]; intros s3 Hs3; apply wp_ret;
    eapply leaf_written; [done| |by apply spec_insert|done].
  all: apply insert_write; [apply Hat|done|apply leaf_keys|].
  - apply (find_key_Some N _ rs) in Ef as (Hi & Hr & Hk); [|apply Hat].
    eapply pick_dead; [apply Hat|done..].
  - apply pick_absent. eapply find_key_None, Ef. apply Hat.
Qed.

(** ** Update *)
Lemma wp_update_versioned q :
  wp (update_versioned N me b k q (LeafPage.len p)) s (leaf_done (OpUpdate k q)).
Proof using All.
  pose proof leaf_time as Htime. unfold update_versioned.
  apply wp_bind. eapply wp_get_leaf; [apply Hat|]. cbn beta zeta.
  destruct (find_key p k) as [[j r]|] eqn:Ef; cycle 1.
  { apply wp_ret, leaf_unchanged; [|done]. apply spec_update_none; [by apply leaf_none|by left]. }
  destruct (decide (live r)) as [Hl|Hd]; cycle 1.
  { rewrite (not_live_deleted _ Hd). apply wp_ret, leaf_unchanged; [|done]. apply spec_update_none; [|by right].
    by eapply leaf_dead. }
  pose proof Hl as Hl'. unfold live in Hl'. rewrite Hl'.
  pose proof (leaf_live _ _ Ef Hl) as HH.
  apply (find_key_Some N _ rs) in Ef as (Hi & Hr & Hk); [|apply Hat].
  apply wp_bind, wp_leaf_start. intros s1 Hs1. apply wp_leaf_push; [done|]. intros s2 p2 Hs2 Hwf2.
  apply wp_bind. eapply wp_leaf_get; [done|]. cbn beta.
  rewrite (delete_after_update_at _ _ Hwf2) Hi.
  assert ((rs ++ [new_record (now s) k q]) !! j = Some r) as Hj by by apply lookup_app_l_Some.
  rewrite (proj1 (leaf_delete_at_live N p2 _ j r (now s) Hwf2 Hj Hl)).
  eapply wp_leaf_kill; [done..|]. intros s3 p3 Hs3 Hwf3.
  apply wp_bind. eapply wp_leaf_end; [done|]. intros s4 Hs4. apply wp_ret.
  eapply leaf_written; [exact Hwf3| |by eapply spec_update|done].
  rewrite insert_app_l; [|by eapply lookup_lt_Some].
  apply update_write; [apply Hat|done..].
Qed.

(** Without a tracker there is no update in place. *)
Lemma wp_update_at_leaf q : wp (update_at_leaf N me b k q) s (leaf_done (OpUpdate k q)).
Proof using All.
  unfold update_at_leaf. apply wp_bind. eapply wp_get_leaf; [apply Hat|]. cbn beta zeta.
  apply wp_bind, wp_gets, wp_bind, wp_gets.
  rewrite (inv_tracker _ _ _ _ _ _ _ (al_inv _ _ _ _ _ _ _ _ _ _ _ Hat)).
  apply wp_update_versioned.
Qed.

(** ** Delete *)
Lemma leaf_missed op res s1 :
  crud_spec H (now s) op res H → leaf_state s1 p → leaf_done op res s1.
Proof using All.
  intros Hspec [Hh Hn Hr Ht Hnow Hl]. exists H. split_and!; [done| |lia|lia|lia|done].
  rewrite insert_id in Hh; [|apply Hat].
  pose proof (al_inv _ _ _ _ _ _ _ _ _ _ _ Hat) as HI.
  pose proof (Inv_tick s (clock s1) _ _ _ _ HI Hnow Hlt) as [H1 H2 H3 H4 H5 H6 H7].
  split; try done.
  - intros c m. rewrite Hh Hn. apply HI.
  - by rewrite Hh.
  - by rewrite Hr.
  - intros v k' fuel. specialize (H7 v k' fuel). unfold snapshot_read in *. by rewrite Hh Hr.
Qed.

Lemma wp_delete_at_leaf : wp (delete_at_leaf me b k) s (leaf_done (OpDelete k)).
Proof using All.
  pose proof leaf_time as Htime. unfold delete_at_leaf.
  pose proof (al_wf _ _ _ _ _ _ _ _ _ _ _ Hat) as Hwf.
  apply wp_bind, wp_leaf_start. intros s1 Hs1. apply wp_bind. eapply wp_leaf_get; [done|]. cbn beta.
  rewrite (delete_at_found _ _ Hwf). destruct (find_key p k) as [[j r]|] eqn:Ef; cycle 1.
  { assert (rfind_idx (keyed k) rs = None) as ->.
    { apply rfind_idx_None. intros r Hr. apply Z.eqb_neq. by eapply find_key_None. }
    apply wp_ret, leaf_missed; [|done]. apply spec_delete_none; [by apply leaf_none|by left]. }
  pose proof (leaf_dead _ _ Ef) as Hdead. pose proof (leaf_live _ _ Ef) as Hlive.
  apply (find_key_Some N _ rs) in Ef as (Hi & Hr & Hk); [|done]. rewrite Hi.
  destruct (decide (live r)) as [Hl|Hd]; cycle 1.
  { rewrite (leaf_delete_at_dead N p rs j r (now s) Hwf Hr Hd).
    apply wp_ret, leaf_missed; [|done]. apply spec_delete_none; [by apply Hdead|by right]. }
  rewrite (proj1 (leaf_delete_at_live N p rs j r (now s) Hwf Hr Hl)).
  eapply wp_leaf_kill; [done..|]. intros s2 p2 Hs2 Hwf2.
  apply wp_bind. eapply wp_leaf_end; [done|]. intros s3 Hs3. apply wp_ret.
  eapply leaf_written; [exact Hwf2| |by eapply spec_delete, Hlive|done].
  apply delete_write; [apply Hat|done..].
Qed.
End leaf.
End leaf_refine.
