(* ===== verification/Refine.v ===== *)
(** * Operations on the tree are operations on a history

    [dispatch_crud] of [src/src/mv_query/dispatch.rs] implements the
    specification of [Spec.v] for the point operations, one by one and in the
    transactions of [src/src/mv_tx_query/dispatch.rs]. The refinement is total:
    with the fuel given here every operation returns, whatever repairs its
    descent makes and however often it loses a latch. *)
From Stdlib Require Import ZifyNat.
From S2P Require Import Prelude OrdMap Version Interval PageLen LeafPage InternalPage Node.
From S2P Require Import Clock Gc RootIndex RetryStats Tree Traversal Query Dispatch Transaction.
From S2P Require Import Units NodeInv Store TreeInv Alloc Smo Sibling Parent Reorganise RootOps.
From S2P Require Import Descent Mvbt LeafOps Spec LeafRefine.

#[local] Set Default Proof Using "Type*".

Section refine.
Context {P : Type} (Payload_default : P).
Context {M : ∀ K, KeyOrder K → Type → Type} `{!OrdMap M}.
Context {R : Type} `{!RootStore R, !RootStoreLaws R}.
Context (F N : nat) (me : Tid).
Context (HF : 8 ≤ F) (HN : 8 ≤ N) (HF16 : (Z.of_nat F < 2 ^ 16)%Z) (HN16 : (Z.of_nat N < 2 ^ 16)%Z).
Local Abbreviation St := (@TreeSt P M R).
Implicit Types (s : St) (Γ : gmap BlockRef Ty) (H : History P) (x : Root).

(** ** Point reads *)
Lemma traverse_read fuel s b k v r :
  read_from fuel (heap s) b k v = Some r →
  ∃ leaf p, traverse_read_key fuel b k v s = Some (leaf, s) ∧ heap s !! leaf = Some (Leaf p) ∧
    r = RecordPoint.result_from <$> read_record (LeafPage.as_records p) k v.
Proof using Type.
  clear. revert b. induction fuel as [|fuel IH]; intros b; [done|]. rewrite read_from_S.
  destruct (heap s !! b) as [[p|p]|] eqn:E; [..|done].
  - intros [= <-]. exists b, p. split_and!; [|done..]. simpl.
    unfold read_block, mbind, Comp_bind, gets. simpl. by rewrite E.
  - destruct (read_child p k v) as [i|] eqn:Ei; [simpl|done].
    destruct (InternalPage.get_pointer p i) as [c|] eqn:Ec; [|done].
    intros (leaf & q & Hl & Hq & Hr)%IH. exists leaf, q. split_and!; [|done..]. simpl.
    unfold read_block, mbind, Comp_bind, gets in *. simpl. rewrite E /= Ei /= Ec /=. exact Hl.
Qed.

(** The point read of the code, from a root, is [read_from]. *)
Lemma wp_point_read fuel s b k v r (Q : list (RecordPointResult P) → St → Prop) :
  read_from fuel (heap s) b k v = Some r → Q (option_list r) s →
  wp (key_point_read_from_root fuel b k v) s Q.
Proof.
  intros Hr HQ. destruct (traverse_read _ _ _ _ _ _ Hr) as (leaf & p & Hl & Hp & ->).
  unfold key_point_read_from_root.
  apply wp_bind, wp_run. exists leaf, s. split; [done|].
  apply wp_bind. eapply wp_get_leaf; [done|].
  destruct (read_record _ k v); by apply wp_ret.
Qed.

Lemma snapshot_read_inv s fuel v k r :
  snapshot_read s fuel v k = Some r →
  ∃ x, rs_for (root s) v = Some x ∧ read_from fuel (heap s) (block x) k v = Some r.
Proof using Type. clear. unfold snapshot_read. intros (x & ? & ?)%bind_Some. by exists x. Qed.

Lemma Inv_no_tracker s Γ D x H : Inv F N s Γ D x H → with_tracker None s = s.
Proof using Type. clear. intros HI. pose proof (inv_tracker _ _ _ _ _ _ _ HI). destruct s. unfold with_tracker. simpl in *. congruence. Qed.

(** ** One operation *)
Definition op_fuel s (D : nat) : nat :=
  Nat.max (traversal_fuel D (length (latches s))) (Z.to_nat (now s)).
Definition op_versions (D L : nat) : nat := traversal_versions D L + 1.

Definition dispatched s (D : nat) H (op : CRUDOperation P) (res : CRUDOperationResult P) s' : Prop :=
  ∃ Γ' D' x' H' w, crud_spec H w op res H' ∧ Inv F N s' Γ' D' x' H' ∧
    (now s ≤ w ≤ now s')%Z ∧ (is_Some (commit_of res) → (w < now s')%Z) ∧
    (now s' ≤ now s + Z.of_nat (op_versions D (length (latches s))))%Z ∧
    length (latches s') ≤ length (latches s) ∧
    D' + length (latches s') ≤ S (D + length (latches s)).

Local Abbreviation dispatch := (dispatch_crud Payload_default F N me).

(** A write: the descent, then the operation at the leaf. *)
Lemma wp_dispatch_write s Γ D x H fuel k op (act : BlockRef → Comp St (CRUDOperationResult P))
    (Q : CRUDOperationResult P → St → Prop) :
  (∀ s1 Γ1 D1 x1 b I i p rs, at_leaf F N s1 Γ1 D1 x1 H k b I i p rs → (now s1 + 1 < 2 ^ 63)%Z →
    wp (act b) s1 (leaf_done F N s1 Γ1 D1 x1 H op)) →
  Inv F N s Γ D x H → Interval.contains KEYS k = true →
  (now s + Z.of_nat (op_versions D (length (latches s))) < 2 ^ 63)%Z → op_fuel s D ≤ fuel →
  (∀ res s', dispatched s D H op res s' → Q res s') →
  wp (g ← traversal_write_olc F N me fuel k; act (g_block g)) s Q.
Proof using All.
  intros Hact HI HK Hlt Hfuel HQ. unfold op_versions, op_fuel in *.
  apply wp_bind. eapply (wp_traversal_write F N me HF HN HF16 HN16); [done|done|lia|lia|].
  intros g s1 (Γ1 & D1 & x1 & HI1 & Hleaf & Hn1 & Hl1 & HD1).
  destruct (leaf_found_at F N _ _ _ _ _ _ _ HI1 HK Hleaf) as (I & i & p & rs & Hat).
  eapply wp_mono; [eapply Hact; [exact Hat|lia]|].
  intros res s2 (H' & Hspec & HI2 & Hn2 & Hc2 & Hl2). apply HQ.
  exists Γ1, D1, x1, H', (now s1). rewrite Hl2. unfold op_versions.
  split_and!; [done|done|lia|lia|exact Hc2|lia|done|done].
Qed.

(** A read at a version of the history. *)
Lemma dispatch_point s Γ D x H fuel k v :
  Inv F N s Γ D x H → (1 ≤ v)%Z → Interval.contains KEYS k = true → Z.to_nat (now s) ≤ fuel →
  dispatch fuel (OpPoint k v) s =
    Some (MatchedRecords (option_list ((λ p, (k, p)) <$> H v k)), s).
Proof.
  intros HI Hv HK Hf. pose proof (inv_hist _ _ _ _ _ _ _ HI v k fuel Hv HK Hf) as Hh.
  destruct (snapshot_read_inv _ _ _ _ _ Hh) as (y & Hy & Hr).
  assert (wp (dispatch fuel (OpPoint k v)) s (λ r s', r = MatchedRecords
    (option_list ((λ p, (k, p)) <$> H v k)) ∧ s' = s)) as (r & s' & E & -> & ->)%wp_run; [|done].
  unfold dispatch_crud, on_acquire_reader_snapshot, retrieve_root_for.
  apply wp_bind, wp_modify. rewrite (inv_tracker _ _ _ _ _ _ _ HI) (Inv_no_tracker _ _ _ _ _ HI).
  apply wp_bind, wp_bind, wp_gets, wp_bind. eapply wp_lift; [done|]. apply wp_ret.
  apply wp_bind. eapply wp_point_read; [done|]. apply wp_bind, wp_modify.
  rewrite (inv_tracker _ _ _ _ _ _ _ HI) (Inv_no_tracker _ _ _ _ _ HI). by apply wp_ret.
Qed.

Lemma wp_dispatch s Γ D x H fuel op (Q : CRUDOperationResult P → St → Prop) :
  Inv F N s Γ D x H → point_op op →
  (now s + Z.of_nat (op_versions D (length (latches s))) < 2 ^ 63)%Z → op_fuel s D ≤ fuel →
  (∀ res s', dispatched s D H op res s' → Q res s') →
  wp (dispatch fuel op) s Q.
Proof using All.
  intros HI Hop Hlt Hfuel HQ. destruct op as [|k p|k p|k|k v| | | | | | | |]; try done; simpl in Hop.
  - eapply (wp_dispatch_write s Γ D x H fuel k _ (λ b, insert_at_leaf N me b k p)); try done.
    intros. by eapply (wp_insert_at_leaf F N me HF HN HF16 HN16).
  - eapply (wp_dispatch_write s Γ D x H fuel k _ (λ b, update_at_leaf N me b k p)); try done.
    intros. by eapply (wp_update_at_leaf F N me HF HN HF16 HN16).
  - eapply (wp_dispatch_write s Γ D x H fuel k _ (λ b, delete_at_leaf me b k)); try done.
    intros. by eapply (wp_delete_at_leaf F N me HF HN HF16 HN16).
  - destruct Hop as [HK Hv]. unfold op_fuel in Hfuel. apply wp_run. eexists _, _.
    split; [eapply dispatch_point; [done..|lia]|]. apply HQ.
    exists Γ, D, x, H, (now s). split_and!; [constructor|done|lia|lia|by intros [? ?]|lia|lia|lia].
Qed.

(** ** Transactions *)

(** What an operation of a transaction is at the transaction's snapshot. *)
Definition isolate (snapshot : SnapShot) (op : CRUDOperation P) : CRUDOperation P :=
  match op with
  | OpPointSi k => OpPoint k snapshot
  | OpRangeSi range => OpRange range snapshot
  | OpRangeIterSi range => OpRangeIter range snapshot
  | op => op
  end.

Lemma dispatch_isolated_isolate fuel snapshot op :
  dispatch_isolated Payload_default F N me fuel snapshot op = dispatch fuel (isolate snapshot op).
Proof using Type. by destruct op. Qed.

Lemma spec_not_err H w op res H' : crud_spec H w op res H' → is_err res = false.
Proof using Type. by destruct 1. Qed.

(** Versions and fuel for [n] operations: every one may grow the tree once. *)
Definition run_versions (D L n : nat) : nat := n * ((L + 1) * (D + L + n + 2) + 1).
Definition run_fuel s (D n : nat) : nat :=
  Nat.max (2 * (D + length (latches s) + n) + 4)
    (Z.to_nat (now s) + run_versions D (length (latches s)) n).

Lemma run_versions_one D L n : op_versions D L ≤ run_versions D L (S n).
Proof using Type. clear. unfold op_versions, traversal_versions, run_versions. nia. Qed.

Lemma run_versions_step D L D' L' n :
  L' ≤ L → D' + L' ≤ S (D + L) → op_versions D L + run_versions D' L' n ≤ run_versions D L (S n).
Proof using Type.
  clear. intros HL HD. unfold op_versions, traversal_versions, run_versions.
  assert ((L' + 1) * (D' + L' + n + 2) ≤ (L + 1) * (D + L + S n + 2)) as H1
    by (apply Nat.mul_le_mono; lia).
  assert ((L + 1) * (D + L + 2) ≤ (L + 1) * (D + L + S n + 2)) as H2
    by (apply Nat.mul_le_mono_l; lia). nia.
Qed.

Definition ran s (D : nat) H (ops : list (CRUDOperation P))
    (ress : list (CRUDOperationResult P)) s' : Prop :=
  ∃ Γ' D' x' H', crud_run H (now s) ops ress H' (now s') ∧ Inv F N s' Γ' D' x' H' ∧
    (now s' ≤ now s + Z.of_nat (run_versions D (length (latches s)) (length ops)))%Z ∧
    length (latches s') ≤ length (latches s) ∧
    D' + length (latches s') ≤ D + length (latches s) + length ops.

Lemma ran_nil s Γ D x H : Inv F N s Γ D x H → ran s D H [] [] s.
Proof using Type. clear. intros HI. exists Γ, D, x, H. split_and!; [constructor|done|lia|lia|simpl; lia]. Qed.

Lemma ran_cons s s1 s' D H H1 D1 Γ1 x1 op ops res ress w :
  crud_spec H w op res H1 → Inv F N s1 Γ1 D1 x1 H1 → (now s ≤ w ≤ now s1)%Z →
  (is_Some (commit_of res) → (w < now s1)%Z) →
  (now s1 ≤ now s + Z.of_nat (op_versions D (length (latches s))))%Z →
  length (latches s1) ≤ length (latches s) →
  D1 + length (latches s1) ≤ S (D + length (latches s)) →
  ran s1 D1 H1 ops ress s' → ran s D H (op :: ops) (res :: ress) s'.
Proof using Type.
  clear. intros Hs HI1 Hw Hc Hn Hl HD (Γ' & D' & x' & H' & Hr & HI' & Hn' & Hl' & HD').
  exists Γ', D', x', H'. split_and!; [by eapply run_cons|done| |lia|simpl; lia].
  pose proof (run_versions_step _ _ _ _ (length ops) Hl HD). simpl length. lia.
Qed.

Lemma wp_dispatch_operations fuel snapshot si ops : ∀ s Γ D x H acc
    (Q : TransactionResult → St → Prop),
  Inv F N s Γ D x H → Forall point_op (isolate snapshot <$> ops) →
  (now s + Z.of_nat (run_versions D (length (latches s)) (length ops)) < 2 ^ 63)%Z →
  run_fuel s D (length ops) ≤ fuel →
  (∀ ress s', ran s D H (isolate snapshot <$> ops) ress s' →
    Q (Ok (default U64_MAX si, acc ++ ress)) s') →
  wp (dispatch_operations Payload_default F N me fuel snapshot si ops acc) s Q.
Proof using All.
  induction ops as [|op ops IH]; intros s Γ D x H acc Q HI Hops Hlt Hfuel HQ.
  { apply wp_ret. rewrite -(app_nil_r acc). by eapply HQ, ran_nil. }
  apply Forall_cons in Hops as [Hop Hops]. simpl length in *.
  pose proof (run_versions_one D (length (latches s)) (length ops)) as Hv1.
  simpl dispatch_operations. apply wp_bind. rewrite dispatch_isolated_isolate.
  eapply wp_dispatch; [done|done|lia| |].
  { unfold run_fuel, op_fuel, traversal_fuel in *. lia. }
  intros res s1 (Γ1 & D1 & x1 & H1 & w & Hs & HI1 & Hw & Hc & Hn1 & Hl1 & HD1). cbn beta.
  rewrite (spec_not_err _ _ _ _ _ Hs).
  pose proof (run_versions_step D _ D1 _ (length ops) Hl1 HD1) as Hv2.
  eapply (IH s1 Γ1 D1 x1 H1); [done|done|lia| |].
  { unfold run_fuel in *. lia. }
  intros ress s' Hran. rewrite -app_assoc /=. apply HQ. by eapply ran_cons.
Qed.

(** ** What stays *)

(** Whatever a run does, a snapshot that was taken before reads the same after. *)
Lemma ran_snapshot s s' Γ D x H ops ress v k fuel :
  Inv F N s Γ D x H → ran s D H ops ress s' → (1 ≤ v < now s)%Z →
  Interval.contains KEYS k = true → Z.to_nat (now s') ≤ fuel →
  snapshot_read s' fuel v k = snapshot_read s fuel v k.
Proof using Type.
  clear. intros HI (Γ' & D' & x' & H' & Hr & HI' & _) Hv HK Hf.
  pose proof (run_time _ _ _ _ _ _ Hr).
  rewrite (inv_hist F N _ _ _ _ _ HI') ?(inv_hist F N _ _ _ _ _ HI) //; [|lia..].
  by rewrite (run_old _ _ _ _ _ _ v k Hr ltac:(lia)).
Qed.
End refine.

(** ** The new tree *)
Section make.
Context {P : Type}.
Context {M : ∀ K, KeyOrder K → Type → Type} `{!OrdMap M, !OrdMapLaws M}.
Context {T : Type → Type} `{!BPlusTree T, !BPlusTreeLaws T}.
Context (F N : nat) (HN16 : (Z.of_nat N < 2 ^ 16)%Z).

(** It is empty at every version. *)
Definition no_history : History P := λ _ _, None.
Definition make_types : gmap BlockRef Ty := {[ 0 := mkTy 0 KEYS false ]}.

Lemma Inv_make variant coins c l r g :
  (Z.of_nat (length coins) < U64_MAX - 1)%Z → (1 ≤ clock_time c < 2 ^ 63)%Z →
  Inv F N (make (P:=P) (M:=M) (T:=T) variant coins c l r g) make_types 0
    (mkRoot 0 START_VERSION INIT_TREE_HEIGHT) no_history.
Proof using All.
  intros Hcs Hc.
  assert (rs_ok (root_index_new (M:=M) (T:=T) variant coins 0)
    [mkRoot 0 START_VERSION INIT_TREE_HEIGHT]) as Hok by exact (index_new_ok variant coins 0 Hcs).
  assert (roots_ok (root_index_new (M:=M) (T:=T) variant coins 0) make_types 0 (clock_time c)
    (mkRoot 0 START_VERSION INIT_TREE_HEIGHT)) as Hroots.
  { split; [|done]. eexists. split_and!; [exact Hok|done| |].
    - intros y ->%list_elem_of_singleton. simpl. unfold START_VERSION. lia.
    - eexists. split; [by left|done]. }
  split; try done.
  - intros b n. simpl. rewrite lookup_singleton_Some. intros [<- _]. lia.
  - intros b ty. unfold make_types. rewrite lookup_singleton_Some. intros [<- <-].
    exists (Leaf LeafPage.new), [], 0. split; [done|]. split; try done.
    + exists []. split_and!; [by apply leaf_new_wf| |done|done]. split.
      * intros ? []%elem_of_nil.
      * intros k. unfold cover. simpl. lia.
      * intros ? []%elem_of_nil.
    + intros I c' []%elem_of_nil.
  - change (now _) with (clock_time c). lia.
  - intros v k fuel Hv HK Hf. change (now _) with (clock_time c) in Hf. unfold snapshot_read.
    change (root (make _ _ _ _ _ _)) with (root_index_new (M:=M) (T:=T) variant coins 0).
    rewrite (rs_for_ok _ _ v Hok); [|eexists; split; [by left|done]].
    rewrite filter_cons decide_True //. rewrite filter_nil /=. destruct fuel as [|fuel]; [lia|]. done.
Qed.
End make.
