(* ===== verification/RangeRead.v ===== *)
(** * Range reads

    The lazy iterator of [src/src/mv_query/iter_query.rs] on a good tree, at a
    recent version: it walks the leaves in key order with a stack of fences, and
    collecting it, which is what [Range] of [src/src/mv_query/dispatch.rs] does,
    gives every record of the range once. *)
From Stdlib Require Import ZifyNat.
From S2P Require Import Prelude OrdMap Version Interval PageLen LeafPage InternalPage Node.
From S2P Require Import Clock Gc RootIndex RetryStats Tree Traversal Query Dispatch.
From S2P Require Import Units NodeInv Store TreeInv Alloc Sibling Descent LeafOps Spec LeafRefine Refine.

#[local] Set Default Proof Using "Type*".

Lemma reader_keeps_time c t : clock_time (current_version_for_reader c t).2 = clock_time c.
Proof.
  unfold current_version_for_reader, committed_read, committed_snapshot, fetch_max, compare_exchange.
  repeat case_decide; repeat case_match; simplify_eq/=; try done;
    repeat case_decide; simplify_eq/=; done.
Qed.

Lemma NoDup_keys {P} (Q : RecordPoint P → Prop) `{∀ r, Decision (Q r)} (rs : list (RecordPoint P)) :
  (∀ k, cover k (rec_units rs) ≤ 1) → (∀ r, r ∈ rs → Q r → live r) → NoDup (key <$> filter Q rs).
Proof.
  induction rs as [|r rs IH]; intros Hc Hl; [constructor|].
  assert (∀ k, cover k (rec_units (r :: rs)) =
    cover k (rec_units [r]) + cover k (rec_units rs)) as Hsplit
    by (intros k; by rewrite -cover_app -rec_units_app).
  assert (NoDup (key <$> filter Q rs)) as IHrs.
  { apply IH; [|intros r' Hr'; apply Hl; by right]. intros k. specialize (Hc k). rewrite Hsplit in Hc. lia. }
  rewrite filter_cons. case_decide as HQ; [|done]. simpl. constructor; [|done].
  intros (r' & Hk & [HQ' Hr']%list_elem_of_filter)%list_elem_of_fmap.
  specialize (Hc (key r)). rewrite Hsplit in Hc.
  assert (1 ≤ cover (key r) (rec_units [r])).
  { apply (cover_elem _ (rec_unit r)); [|by apply hit_rec]. apply elem_of_rec_units. exists r.
    split_and!; [done|apply Hl; [by left|done]|by left]. }
  assert (1 ≤ cover (key r) (rec_units rs)).
  { apply (cover_elem _ (rec_unit r')); [|by apply hit_rec]. apply elem_of_rec_units. exists r'.
    split_and!; [done|apply Hl; [by right|done]|done]. }
  lia.
Qed.

Section range.
Context {P : Type}.
Context {M : ∀ K, KeyOrder K → Type → Type} `{!OrdMap M}.
Context {R : Type} `{!RootStore R, !RootStoreLaws R}.
Context (F N : nat).
Local Abbreviation St := (@TreeSt P M R).
Implicit Types (l : Z) (f : Interval) (b : BlockRef).

Context (s : St) (Γ : gmap BlockRef Ty) (D : nat) (x : Root) (H : History P) (v hi : Z).
Context (HI : Inv F N s Γ D x H) (Hv1 : (1 ≤ v)%Z) (Hv : (now s - 1 ≤ v)%Z).
Context (Hhi : (hi < U64_MAX)%Z).

(** The iterator with an empty buffer, at the lower bound [l]. *)
Definition at_bound l (path : list (Interval * BlockRef)) : @RangeQueryIter P :=
  mkIter v (mkInterval l hi) path [] false.

(** The stack: the root below, and each block the child of the one under it,
    for every key of its fence. *)
Inductive stack : nat → list (Interval * BlockRef) → Prop :=
  | stack_root : stack D [(KEYS, block x)]
  | stack_child d f b rest J c :
      stack (S d) ((f, b) :: rest) → Γ !! c = Some (mkTy d J true) →
      (lower f ≤ lower J ≤ upper J)%Z → (upper J ≤ upper f)%Z →
      (∀ k, Interval.contains J k = true → path (heap s) k D (block x) d c) →
      stack d ((J, c) :: (f, b) :: rest).

Lemma stack_top d f b rest :
  stack d ((f, b) :: rest) →
  (∃ i, Γ !! b = Some (mkTy d f i)) ∧
  (∀ k, Interval.contains f k = true → path (heap s) k D (block x) d b) ∧
  (0 ≤ lower f ≤ upper f)%Z ∧ (upper f ≤ U64_MAX)%Z.
Proof using All.
  intros Hs. assert ((∃ i, Γ !! b = Some (mkTy d f i)) ∧
    (∀ k, Interval.contains f k = true → path (heap s) k D (block x) d b)) as [[i Hb] Hp].
  { inversion Hs; subst.
    - split; [eexists; apply (inv_roots _ _ _ _ _ _ _ HI)|]. intros. constructor.
    - split; [by eexists|done]. }
  split_and!; [by eexists|done|..];
    pose proof (typed_range F N _ _ _ _ _ (inv_store _ _ _ _ _ _ _ HI) Hb) as [? ?]; simpl in *; lia.
Qed.

(** Where the lower bound is: in the fence on top, or right behind it. *)
Definition bound_ok l (path : list (Interval * BlockRef)) : Prop :=
  (0 ≤ l)%Z ∧ ((l ≤ hi)%Z → ∃ f b rest, path = (f, b) :: rest ∧
    (lower f ≤ l ≤ upper f + 1)%Z).

(** Without a tracker nothing is registered. *)
Lemma release_nop : on_release_reader_snapshot v s = Some ((), s).
Proof using All.
  unfold on_release_reader_snapshot, modify. rewrite (inv_tracker _ _ _ _ _ _ _ HI).
  by rewrite (Inv_no_tracker F N _ _ _ _ _ HI).
Qed.

(** ** The steps of the loop *)
Lemma loop_done fuel l path :
  (hi < l)%Z ∨ path = [] →
  iter_loop (S fuel) (at_bound l path) s =
    Some ((None, mkIter v (mkInterval l hi) path [] true), s).
Proof using All.
  intros Hd. unfold at_bound. simpl. destruct path as [|[f b] path].
  - by rewrite (bind_comp_eq _ _ _ _ _ release_nop).
  - destruct Hd as [Hd|]; [|done]. rewrite (proj2 (Z.ltb_lt _ _) Hd).
    by rewrite (bind_comp_eq _ _ _ _ _ release_nop).
Qed.

Lemma read_block_eq b n : heap s !! b = Some n → read_block b s = Some (n, s).
Proof using Type. unfold read_block, mbind, Comp_bind, gets, lift. by intros ->. Qed.

Lemma iter_child_wf p es k :
  int_wf F p es →
  iter_child p k v = (i ← read_child p k v; e ← es !! i; Some (fence e, i)).
Proof using Type.
  intros Hwf. unfold iter_child, read_child, InternalPage.keys_versions.
  rewrite (rfind_idx_ext _ (λ e, TimeMatcher.matched e.1 v && Interval.contains e.2 k));
    [|intros e _; apply andb_comm].
  rewrite (int_wf_keys _ _ _ Hwf). destruct (rfind_idx _ _) as [i|]; [|done]. simpl.
  rewrite list_lookup_fmap. by destruct (es !! i).
Qed.

(** Down to the child of the lower bound. *)
Lemma loop_down l d f b rest :
  stack (S d) ((f, b) :: rest) → Interval.contains f l = true → (l ≤ hi)%Z →
  ∃ J c, stack d ((J, c) :: (f, b) :: rest) ∧ Interval.contains J l = true ∧
    ∀ fuel, iter_loop (S fuel) (at_bound l ((f, b) :: rest)) s =
      iter_loop fuel (at_bound l ((J, c) :: (f, b) :: rest)) s.
Proof using All.
  intros Hs Hl Hle. destruct (stack_top _ _ _ _ Hs) as ([i Hb] & Hp & Hr & _).
  destruct (typed_index F N _ _ _ _ _ _ _ (inv_store _ _ _ _ _ _ _ HI) Hb)
    as (p & es & Hn & Hwf & Hok & _ & Hptr).
  destruct (child_ok (P:=P) F _ _ _ _ _ Hwf Hok Hl) as (j & e & _ & Hr' & Hj & He & Hc & _ & Hg & _).
  pose proof (list_elem_of_lookup_2 _ _ _ Hj) as Hin.
  destruct (io_ents _ _ _ Hok _ Hin) as (_ & Hle' & Hcov). apply covers_spec in Hcov.
  exists (fence e), (ptr e). split_and!; [|done|].
  - constructor; [done|by apply Hptr|lia|lia|]. intros k Hk.
    assert (Interval.contains f k = true) as Hfk.
    { apply contains_spec in Hk. apply contains_spec. lia. }
    destruct (child_ok (P:=P) F _ _ _ _ _ Hwf Hok Hfk) as (j' & e' & Ha' & _ & Hj' & He' & Hc' & _ & Hg' & _).
    assert (j' = j) as -> by by eapply (active_unique (P:=P) _ _ es j' j e' e k).
    eapply path_down; [by apply Hp|done|done|done].
  - intros fuel. unfold at_bound at 1. simpl. rewrite (proj2 (Z.ltb_ge _ _) Hle).
    rewrite (bind_comp_eq _ _ _ _ _ (read_block_eq _ _ Hn)).
    rewrite (iter_child_wf _ _ _ Hwf) (Hr' v Hv) /= Hj /= Hg. done.
Qed.

(** Up from a fence that is behind. *)
Lemma loop_up fuel l d f b rest :
  stack (S d) ((f, b) :: rest) → l = (upper f + 1)%Z → (l ≤ hi)%Z →
  iter_loop (S fuel) (at_bound l ((f, b) :: rest)) s = iter_loop fuel (at_bound l rest) s.
Proof using All.
  intros Hs Hl Hle. destruct (stack_top _ _ _ _ Hs) as ([i Hb] & _ & Hr & _).
  destruct (typed_index F N _ _ _ _ _ _ _ (inv_store _ _ _ _ _ _ _ HI) Hb)
    as (p & es & Hn & Hwf & Hok & _ & _).
  assert (read_child p l v = None) as Hnone.
  { rewrite (read_child_wf F _ _ _ _ Hwf). apply rfind_idx_None. intros e He.
    destruct (io_ents _ _ _ Hok _ He) as (_ & _ & Hcov). apply covers_spec in Hcov.
    destruct (Interval.contains (fence e) l) eqn:Ec; [|by rewrite andb_false_r].
    apply contains_spec in Ec. lia. }
  unfold at_bound at 1. simpl. rewrite (proj2 (Z.ltb_ge _ _) Hle).
  rewrite (bind_comp_eq _ _ _ _ _ (read_block_eq _ _ Hn)).
  rewrite (iter_child_wf _ _ _ Hwf) Hnone /=. unfold at_bound, set_range_lower, inc_key. simpl.
  rewrite (proj2 (Z.leb_le _ _)); [by rewrite Hl|lia].
Qed.

(** ** The records of a leaf *)
Definition leaf_hits l (rs : list (RecordPoint P)) : list (RecordPointResult P) :=
  RecordPoint.result_from <$> filter (λ r, VersionInfo.matches (version r) v
    && Interval.contains (mkInterval l hi) (key r) = true) rs.

Definition hits l (rs : list (RecordPointResult P)) : Prop :=
  (∀ k p, (k, p) ∈ rs ↔ (l ≤ k ≤ hi)%Z ∧ H v k = Some p) ∧ NoDup rs.*1.

Lemma loop_leaf fuel l f b rest p :
  heap s !! b = Some (Leaf p) → (l ≤ hi)%Z →
  iter_loop (S fuel) (at_bound l ((f, b) :: rest)) s =
    match leaf_hits l (LeafPage.as_records p) with
    | r :: rs => Some ((Some r, mkIter v (mkInterval (inc_key (upper f)) hi) rest rs false), s)
    | [] => if (inc_key (upper f) =? U64_MAX)%Z
            then Some ((None, at_bound (inc_key (upper f)) rest), s)
            else iter_loop fuel (at_bound (inc_key (upper f)) rest) s
    end.
Proof using All.
  intros Hn Hle. unfold at_bound at 1. simpl. rewrite (proj2 (Z.ltb_ge _ _) Hle).
  rewrite (bind_comp_eq _ _ _ _ _ (read_block_eq _ _ Hn)).
  change (RecordPoint.result_from <$> filter _ (LeafPage.as_records p))
    with (leaf_hits l (LeafPage.as_records p)). simpl.
  destruct (leaf_hits l _) as [|r rs]; [|done]. by destruct (_ =? _)%Z.
Qed.

Lemma leaf_hits_ok l f b rest :
  stack 0 ((f, b) :: rest) → (0 ≤ l)%Z →
  ∃ p, heap s !! b = Some (Leaf p) ∧ NoDup (leaf_hits l (LeafPage.as_records p)).*1 ∧
    ∀ k q, (k, q) ∈ leaf_hits l (LeafPage.as_records p) ↔
      (l ≤ k ≤ hi)%Z ∧ Interval.contains f k = true ∧ H v k = Some q.
Proof using All.
  intros Hs Hl0. destruct (stack_top _ _ _ _ Hs) as ([i Hb] & Hp & Hr & Hmax).
  destruct (inv_store _ _ _ _ _ _ _ HI _ _ Hb) as (n & U & t & Hn & Hnode).
  pose proof (no_at _ _ _ _ _ _ _ _ Hnode) as Hat. destruct n as [p|]; [|done].
  destruct Hat as (rs & Hwf & Hok & -> & ->). exists p. rewrite (leaf_wf_records _ _ _ Hwf).
  assert (∀ k, Interval.contains f k = true → Interval.contains KEYS k = true) as HK.
  { intros k Hk%contains_spec. apply contains_spec. unfold KEYS. simpl. lia. }
  assert (∀ k, Interval.contains f k = true →
    unit_result k (pick k (rec_units rs)) = (λ p, (k, p)) <$> H v k) as Hval.
  { intros k Hk. pose proof (inv_current F N _ _ _ _ _ v k HI Hv1 Hv (HK k Hk)) as Hc.
    rewrite (path_read F N _ _ (now s) _ v _ _ _ _ _ _ (inv_store _ _ _ _ _ _ _ HI) (Hp k Hk)
      (proj2 (inv_roots _ _ _ _ _ _ _ HI)) (HK k Hk) Hv) in Hc.
    rewrite (read_leaf F N _ _ _ _ _ _ _ _ _ _ v 0 Hn Hnode Hv) in Hc. by injection Hc as ->. }
  split_and!; [done| |].
  - unfold leaf_hits. rewrite -list_fmap_compose. apply (NoDup_keys _ rs); [apply (lo_unique _ _ _ Hok)|].
    intros r Hr' [Hm _]%andb_true_iff. destruct (lo_recs _ _ _ Hok _ Hr') as [_ Hver].
    by apply (live_matches _ _ _ Hver Hv) in Hm.
  - intros k q. unfold leaf_hits. rewrite list_elem_of_fmap. split.
    + intros (r & [= -> ->] & [[Hm Hk]%andb_true_iff Hr']%list_elem_of_filter).
      apply contains_spec in Hk. simpl in Hk.
      destruct (lo_recs _ _ _ Hok _ Hr') as [Hf Hver]. apply (live_matches _ _ _ Hver Hv) in Hm.
      split_and!; [lia|lia|done|]. apply list_elem_of_lookup in Hr' as [j Hj].
      specialize (Hval _ Hf). rewrite (pick_live _ _ _ _ _ _ Hok Hj eq_refl Hm) /= in Hval.
      destruct (H v (key r)); simpl in Hval; congruence.
    + intros (Hlk & Hf & Hh). specialize (Hval k Hf). rewrite Hh /= in Hval.
      destruct (pick k (rec_units rs)) as [[J [q'|]]|] eqn:E; try done. simpl in Hval.
      injection Hval as ->. apply pick_Some in E as [Hhit (r & [= -> ->] & Hl & Hr')%elem_of_rec_units].
      apply (hit_rec k r) in Hhit. exists r. split; [by rewrite -Hhit|].
      apply list_elem_of_filter. split; [|done]. destruct (lo_recs _ _ _ Hok _ Hr') as [_ Hver].
      rewrite (proj2 (live_matches _ _ _ Hver Hv) Hl) /=. apply contains_spec. simpl. lia.
Qed.

(** ** The walk *)
Definition pos_ok l (path : list (Interval * BlockRef)) : Prop :=
  (0 ≤ l)%Z ∧ ((l ≤ hi)%Z → ∃ d f b rest, path = (f, b) :: rest ∧ stack d path ∧
    (Interval.contains f l = true ∨ (d ≠ 0 ∧ l = (upper f + 1)%Z))).

(** From a fence that holds the lower bound down to the leaf. *)
Lemma walk_down d : ∀ l f b rest,
  stack d ((f, b) :: rest) → Interval.contains f l = true → (l ≤ hi)%Z →
  ∃ n f' b' rest', stack 0 ((f', b') :: rest') ∧ Interval.contains f' l = true ∧
    ∀ a, iter_loop (n + a) (at_bound l ((f, b) :: rest)) s =
      iter_loop a (at_bound l ((f', b') :: rest')) s.
Proof using All.
  induction d as [|d IH]; intros l f b rest Hs Hl Hle.
  { by exists 0, f, b, rest. }
  destruct (loop_down l d f b rest Hs Hl Hle) as (J & c & Hs' & HJ & Hdown).
  destruct (IH l J c _ Hs' HJ Hle) as (n & f' & b' & rest' & Hs2 & Hf' & Hstep).
  exists (S n), f', b', rest'. split_and!; [done..|]. intros a. by rewrite -Hstep -Hdown.
Qed.

(** From where a leaf was left up to a fence that holds the lower bound. *)
Lemma walk_up path : ∀ l,
  pos_ok l path → (l ≤ hi)%Z →
  ∃ n d f b rest, stack d ((f, b) :: rest) ∧ Interval.contains f l = true ∧
    ∀ a, iter_loop (n + a) (at_bound l path) s = iter_loop a (at_bound l ((f, b) :: rest)) s.
Proof using All.
  induction path as [|[f b] rest IH]; intros l [Hl0 Hpos] Hle.
  { by destruct (Hpos Hle) as (d & f & b & rest & ? & _). }
  destruct (Hpos Hle) as (d & f0 & b0 & rest0 & [= <- <- <-] & Hs & [Hl|[Hd Hl]]).
  { by exists 0, d, f, b, rest. }
  destruct d as [|d]; [done|].
  assert (pos_ok l rest) as Hrest.
  { split; [done|]. intros _. inversion Hs as [|d' f' b' rest' J c Hs' _ HJ HJ' _]; subst.
    - unfold KEYS in *. simpl in *. lia.
    - exists (S (S d)), f', b', rest'. split_and!; [done..|].
      destruct (decide (upper f + 1 ≤ upper f')%Z).
      + left. apply contains_spec. lia.
      + right. split; [done|lia]. }
  destruct (IH l Hrest Hle) as (n & d' & f' & b' & rest' & Hs' & Hf' & Hstep).
  exists (S n), d', f', b', rest'. split_and!; [done..|]. intros a.
  rewrite -Hstep. by apply (loop_up _ _ d).
Qed.

(** Behind a leaf. *)
Lemma pos_next l f b rest :
  stack 0 ((f, b) :: rest) → Interval.contains f l = true → (l ≤ hi)%Z →
  pos_ok (inc_key (upper f)) rest ∧ (l < inc_key (upper f))%Z ∧
  ((inc_key (upper f) ≤ hi)%Z → inc_key (upper f) = (upper f + 1)%Z) ∧
  ((hi < inc_key (upper f))%Z → (hi ≤ upper f)%Z).
Proof using All.
  intros Hs Hl Hle. destruct (stack_top _ _ _ _ Hs) as (_ & _ & Hr & Hmax).
  apply contains_spec in Hl. unfold inc_key. destruct (Z.leb_spec (upper f + 1) U64_MAX) as [Hu|Hu].
  - split_and!; [split; [lia|]|lia|done|lia]. intros Hle'.
    inversion Hs as [|d' f' b' rest' J c Hs' _ HJ HJ' _]; subst.
    { unfold KEYS in *. simpl in *. lia. }
    exists 1, f', b', rest'. split_and!; [done..|].
    destruct (decide (upper f + 1 ≤ upper f')%Z).
    + left. apply contains_spec. lia.
    + right. split; [done|lia].
  - split_and!; [split; [lia|]|lia|lia|lia]. intros. lia.
Qed.

(** ** Collecting *)
Local Abbreviation IterM := (Comp St).
Definition drain (n depth : nat) (r : option (RecordPointResult P) * @RangeQueryIter P)
    : IterM (list (RecordPointResult P)) :=
  match r with
  | (None, it) => iter_drop it;; mret []
  | (Some r, it) => rest ← iter_collect n depth it; mret (r :: rest)
  end.

Lemma collect_buffer rs n depth l path rs' :
  (iter_loop depth (at_bound l path) ≫= drain n depth) s = Some (rs', s) →
  iter_collect (length rs + S n) depth (mkIter v (mkInterval l hi) path rs false) s =
    Some (rs ++ rs', s).
Proof using Type.
  intros Hrec. induction rs as [|r rs IH]; simpl.
  - unfold iter_next. simpl. rewrite -Hrec. done.
  - unfold iter_next at 1. simpl. unfold mbind, Comp_bind at 1. simpl.
    unfold mbind, Comp_bind at 1. by rewrite IH.
Qed.

Lemma hits_nil l : (hi < l)%Z → hits l [].
Proof using Type.
  intros Hl. split; [|constructor]. intros k p. split; [by intros ?%elem_of_nil|]. lia.
Qed.

Lemma hits_app l f b rest p rs :
  stack 0 ((f, b) :: rest) → Interval.contains f l = true → (0 ≤ l)%Z → (l ≤ hi)%Z →
  heap s !! b = Some (Leaf p) → hits (inc_key (upper f)) rs →
  hits l (leaf_hits l (LeafPage.as_records p) ++ rs).
Proof using All.
  intros Hs Hl Hl0 Hle Hn [Hrs Hnd].
  destruct (leaf_hits_ok l f b rest Hs Hl0) as (p' & Hn' & Hnd' & Hh). simplify_eq.
  destruct (pos_next l f b rest Hs Hl Hle) as (_ & Hlt & H1 & H2).
  apply contains_spec in Hl. split.
  - intros k q. rewrite elem_of_app Hh Hrs contains_spec. split; [intros [?|?]; split; tauto || lia|].
    intros [Hk Hq]. destruct (decide (inc_key (upper f) ≤ k)%Z); [right|left]; split_and!; try done; lia.
  - rewrite fmap_app. apply NoDup_app. split_and!; [done| |done].
    intros k ([k1 q1] & -> & Hk1)%list_elem_of_fmap ([k2 q2] & E & Hk2)%list_elem_of_fmap.
    simpl in E. subst k2. apply Hh in Hk1 as (_ & Hf & _). apply Hrs in Hk2 as [Hk2 _].
    apply contains_spec in Hf. specialize (H1 ltac:(lia)). lia.
Qed.

Lemma collect_all m : ∀ l path,
  (Z.to_nat (hi + 1 - l) < m) → pos_ok l path →
  ∃ n0 rs, hits l rs ∧ ∀ n a depth, n0 ≤ n → n0 ≤ a → n0 ≤ depth →
    (iter_loop a (at_bound l path) ≫= drain n depth) s = Some (rs, s).
Proof using All.
  induction m as [|m IH]; intros l path Hm Hpos; [lia|].
  destruct (decide (hi < l)%Z) as [Hlt|Hle].
  { exists 1, []. split; [by apply hits_nil|]. intros n [|a] depth _ Ha _; [lia|].
    unfold mbind, Comp_bind. rewrite loop_done; [|by left]. done. }
  apply Z.nlt_ge in Hle.
  destruct (walk_up path l Hpos Hle) as (nu & d & f & b & rest & Hs & Hf & Hup).
  destruct (walk_down d l f b rest Hs Hf Hle) as (nd & f' & b' & rest' & Hs' & Hf' & Hdown).
  destruct (leaf_hits_ok l f' b' rest' Hs' (proj1 Hpos)) as (p & Hn & _ & _).
  destruct (pos_next l f' b' rest' Hs' Hf' Hle) as (Hpos' & Hlt & H1 & H2).
  destruct (IH (inc_key (upper f')) rest' ltac:(lia) Hpos') as (n1 & rs & Hrs & Hrun).
  exists (nu + nd + S n1 + length (leaf_hits l (LeafPage.as_records p)) + n1 + 1),
    (leaf_hits l (LeafPage.as_records p) ++ rs).
  split; [apply (hits_app l f' b' rest'); [done|done|apply Hpos|done..]|]. intros n a depth Hn0 Ha Hd.
  replace a with (nu + (nd + S (a - nu - nd - 1))) by lia.
  unfold mbind, Comp_bind. rewrite Hup Hdown (loop_leaf _ _ _ _ _ _ Hn Hle).
  destruct (leaf_hits l (LeafPage.as_records p)) as [|r hs] eqn:Eh.
  - destruct (Z.eqb_spec (inc_key (upper f')) U64_MAX) as [E|_].
    + simpl. unfold iter_drop. simpl. rewrite (bind_comp_eq _ _ _ _ _ release_nop).
      destruct rs as [|[k q] rs]; [done|]. exfalso.
      destruct (proj1 (proj1 Hrs k q)) as [Hk _]; [by left|]. lia.
    + specialize (Hrun n (a - nu - nd - 1) depth). unfold mbind, Comp_bind in Hrun.
      apply Hrun; simpl in *; lia.
  - simpl in *. unfold mbind, Comp_bind at 1.
    replace n with (length hs + S (n - length hs - 1)) by lia.
    rewrite (collect_buffer hs _ _ _ _ rs); [done|]. apply Hrun; lia.
Qed.
End range.

Section range_dispatch.
Context {P : Type} (Payload_default : P).
Context {M : ∀ K, KeyOrder K → Type → Type} `{!OrdMap M}.
Context {R : Type} `{!RootStore R, !RootStoreLaws R}.
Context (F N : nat) (me : Tid).
Local Abbreviation St := (@TreeSt P M R).
Implicit Types (s : St).

Lemma iter_new_eq s Γ D x H v r :
  Inv F N s Γ D x H → (1 ≤ v)%Z → (now s - 1 ≤ v)%Z →
  iter_new me v r s =
    Some (mkIter v r [(KEYS, block x)] [] false,
      with_clock (current_version_for_reader (clock s) me).2 s).
Proof.
  intros HI H1 Hv. unfold iter_new, on_acquire_reader_snapshot, retrieve_root_for, tree_version_for_reader.
  unfold mbind, Comp_bind, modify, gets, lift, mret, Comp_ret. simpl.
  rewrite (inv_tracker _ _ _ _ _ _ _ HI) /= (Inv_no_tracker F N _ _ _ _ _ HI).
  destruct (current_version_for_reader (clock s) me) as [u c]. simpl.
  by rewrite (roots_current _ _ _ _ _ _ (inv_roots _ _ _ _ _ _ _ HI) H1 Hv).
Qed.

(** A range below the greatest key, at a recent version. *)
Lemma dispatch_range s Γ D x H v lo hi :
  Inv F N s Γ D x H → (1 ≤ v)%Z → (now s - 1 ≤ v)%Z → (0 ≤ lo)%Z → (hi < U64_MAX)%Z →
  ∃ fuel0 rs c, clock_time c = now s ∧ hits H v hi lo rs ∧ ∀ fuel, fuel0 ≤ fuel →
    dispatch_crud Payload_default F N me fuel (OpRange (mkInterval lo hi) v) s =
      Some (MatchedRecords rs, with_clock c s).
Proof.
  intros HI H1 Hv Hlo Hhi. set (c := (current_version_for_reader (clock s) me).2).
  assert (clock_time c = now s) as Hc by apply reader_keeps_time.
  pose proof (Inv_clock F N s c _ _ _ _ HI Hc) as HI'.
  assert (now (with_clock c s) = now s) as Hn by done.
  destruct (collect_all F N (with_clock c s) Γ D x H v hi HI' H1 ltac:(by rewrite Hn) Hhi
    (S (Z.to_nat (hi + 1 - lo))) lo [(KEYS, block x)]) as (n0 & rs & Hrs & Hrun); [lia| |].
  { split; [done|]. intros Hle. exists D, KEYS, (block x), []. split_and!; [done|constructor|].
    left. apply contains_spec. unfold KEYS. simpl. lia. }
  exists (S n0), rs, c. split_and!; [done|done|]. intros [|fuel] Hf; [lia|].
  unfold dispatch_crud, RANGE_DISPATCH_LAZY.
  rewrite (bind_comp_eq _ _ _ _ _ (iter_new_eq s Γ D x H v _ HI H1 Hv)).
  rewrite (bind_comp_eq _ _ _ rs (with_clock c s)); [done|].
  apply (Hrun fuel (S fuel) (S fuel)); lia.
Qed.
End range_dispatch.
