(* ===== verification/Examples.v ===== *)
(** * Two trees for the examples

    A new tree with pages of eight entries, and the same tree after twenty
    inserts, four deletes and a lost latch: its root is an internal page, and
    both carry the invariant. *)
From S2P Require Import Prelude OrdMap Version Interval PageLen LeafPage InternalPage Node.
From S2P Require Import Clock Gc RootIndex RetryStats Tree Traversal Query Dispatch Transaction.
From S2P Require Import Units NodeInv Store TreeInv Descent Mvbt Spec Refine.

Definition ExSt : Type := @TreeSt Z AssocMap (RootIndex AssocMap SortedTree).

Definition ex_clock : ClockSt := from_option snd clock_init (ThreadState.new clock_init).
Definition ex_new : ExSt :=
  make TFrugalList [true; false; true; true; false] ex_clock [true; false] counters_zero [].

Definition ex_insert (n : nat) : CRUDOperation Z := OpInsert (Z.of_nat n) (Z.of_nat (10 * n)).
Definition ex_delete (n : nat) : CRUDOperation Z := OpDelete (Z.of_nat n).
Definition ex_ops : list (CRUDOperation Z) := (ex_insert <$> seq 1 20) ++ (ex_delete <$> seq 2 4).

Definition ex_run (ops : list (CRUDOperation Z)) (s : ExSt) : option (TransactionResult * ExSt) :=
  dispatch_transaction 0%Z 8 8 0 3000 (mkTx None ops) s.
Definition ex_grown : ExSt := Eval vm_compute in from_option snd ex_new (ex_run ex_ops ex_new).

Lemma ex_clock_time : clock_time ex_clock = 1%Z.
Proof. reflexivity. Qed.

Lemma ex_new_inv :
  Inv 8 8 ex_new make_types 0 (mkRoot 0 START_VERSION INIT_TREE_HEIGHT) no_history.
Proof. apply Inv_make; [done|done|rewrite ex_clock_time; lia]. Qed.

Lemma ex_run_inv ops :
  Forall point_op (isolate (P:=Z) U64_MAX <$> ops) → length ops ≤ 26 →
  ∃ res s' Γ D x H, ex_run ops ex_new = Some (res, s') ∧ Inv 8 8 s' Γ D x H ∧
    D + length (latches s') ≤ 28 ∧ (now s' ≤ 3000)%Z.
Proof.
  intros Hops Hl.
  assert (run_versions 0 2 (length ops) ≤ 2366) as Hv by (unfold run_versions; nia).
  assert (run_versions 0 (length (latches ex_new)) (length ops) ≤ 2366) as Hv' by exact Hv.
  assert (now ex_new = 1%Z) as Hnow by done.
  destruct (proj1 (wp_run _ _ _) (wp_dispatch_operations 0%Z 8 8 0 ltac:(lia) ltac:(lia) ltac:(done)
    ltac:(done) 3000 U64_MAX None ops ex_new make_types 0 _ no_history []
    (λ res s', ran 8 8 ex_new 0 no_history (isolate U64_MAX <$> ops) (match res with
      Ok (_, ress) => ress | _ => [] end) s') ex_new_inv Hops
    ltac:(lia)
    ltac:(unfold run_fuel; rewrite Hnow; change (length (latches ex_new)) with 2 in *; lia)
    ltac:(intros; done))) as (res & s' & E & Γ & D & x & H & _ & HI & Hn & _ & HD).
  exists res, s', Γ, D, x, H. rewrite !length_fmap in Hn HD. split_and!; [exact E|done| |].
  - change (length (latches ex_new)) with 2 in HD. lia.
  - lia.
Qed.

(** The same tree after two more deletes: the leaf of the smallest keys is left
    with two live records. *)
Definition ex_shrunk : ExSt :=
  Eval vm_compute in from_option snd ex_new (ex_run (ex_ops ++ [ex_delete 7; ex_delete 8]) ex_new).

Lemma ex_state_inv ops s :
  Forall point_op (isolate (P:=Z) U64_MAX <$> ops) → length ops ≤ 26 →
  from_option snd ex_new (ex_run ops ex_new) = s →
  ∃ Γ D x H, Inv 8 8 s Γ D x H ∧ D + length (latches s) ≤ 28.
Proof.
  intros Hops Hl <-. destruct (ex_run_inv ops Hops Hl) as (res & s' & Γ & D & x & H & E & HI & HD & _).
  rewrite E. by exists Γ, D, x, H.
Qed.

Lemma ex_grown_inv : ∃ Γ D x H, Inv 8 8 ex_grown Γ D x H ∧ D + length (latches ex_grown) ≤ 28.
Proof.
  apply (ex_state_inv ex_ops); [by repeat constructor|vm_compute; lia|by vm_compute].
Qed.

Lemma ex_shrunk_inv : ∃ Γ D x H, Inv 8 8 ex_shrunk Γ D x H ∧ D + length (latches ex_shrunk) ≤ 28.
Proof.
  apply (ex_state_inv (ex_ops ++ [ex_delete 7; ex_delete 8]));
    [by repeat constructor|vm_compute; lia|by vm_compute].
Qed.

(** The root of a tree whose current root is an internal page. *)
Lemma root_on_path {P M R} `{!OrdMap M, !RootStore R, !RootStoreLaws R} F N
    (s : @TreeSt P M R) Γ D x H k b p :
  Inv F N s Γ D x H → rs_guard_block (root s) = Some b → heap s !! b = Some (Index p) →
  Interval.contains KEYS k = true →
  ∃ d, D = S d ∧ on_path s Γ D x k (S d) b KEYS false.
Proof.
  intros HI Hb Hp HK. pose proof (inv_roots _ _ _ _ _ _ _ HI) as Hroots.
  rewrite (roots_guard _ _ _ _ _ Hroots) in Hb. injection Hb as <-.
  destruct (inv_store _ _ _ _ _ _ _ HI _ _ (proj2 Hroots)) as (n & U & t & Hn & Hnode).
  rewrite Hp in Hn. injection Hn as <-. pose proof (no_at _ _ _ _ _ _ _ _ Hnode) as Hat.
  destruct D as [|d]; [done|]. exists d. split; [done|]. split; [constructor|].
  split; [apply Hroots|done].
Qed.

(** The budgets of one operation and of a short transaction on them. *)
Lemma ex_grown_op D :
  D + length (latches ex_grown) ≤ 28 →
  (now ex_grown + Z.of_nat (op_versions D (length (latches ex_grown))) < 2 ^ 63)%Z ∧
  op_fuel ex_grown D ≤ 3000.
Proof.
  change (length (latches ex_grown)) with 0. change (now ex_grown) with 30%Z.
  unfold op_fuel, op_versions, traversal_versions, traversal_fuel.
  change (length (latches ex_grown)) with 0. change (now ex_grown) with 30%Z. lia.
Qed.

Lemma ex_grown_run D n :
  D + length (latches ex_grown) ≤ 28 → n ≤ 6 →
  (now ex_grown + Z.of_nat (run_versions D (length (latches ex_grown)) n) < 2 ^ 63)%Z ∧
  run_fuel ex_grown D n ≤ 3000.
Proof.
  change (length (latches ex_grown)) with 0. intros HD Hn.
  assert (run_versions D 0 n ≤ 6 * 37) as Hv by (unfold run_versions; nia).
  unfold run_fuel. change (length (latches ex_grown)) with 0. change (now ex_grown) with 30%Z. lia.
Qed.

(** A transaction with a read at its snapshot: it updates, deletes, reads what
    it deleted as it was, and finds nothing to delete. *)
Definition ex_tx : Transaction Z :=
  mkTx (Some 20%Z) [OpUpdate 15 7; OpDelete 16; OpPointSi 16; OpDelete 16]%Z.

Lemma ex_grown_traversal D :
  D + length (latches ex_grown) ≤ 28 →
  (now ex_grown + Z.of_nat (traversal_versions D (length (latches ex_grown))) < 2 ^ 63)%Z ∧
  traversal_fuel D (length (latches ex_grown)) ≤ 3000.
Proof.
  change (length (latches ex_grown)) with 0. change (now ex_grown) with 30%Z.
  unfold traversal_versions, traversal_fuel. lia.
Qed.

(** The page of an internal block, and the node of a block. *)
Definition ex_page (s : ExSt) (b : BlockRef) : InternalPage :=
  match heap s !! b with Some (Index p) => p | _ => InternalPage.new end.
Definition ex_node (s : ExSt) (b : BlockRef) : Node Z := default Node.new_leaf (heap s !! b).

(** A tree of two levels that has the greatest key, and two small ones: with the
    keys 2, 1 and 3 in this order, and with the key 1, collected in place. *)
Definition ex_max : ExSt := Eval vm_compute in
  from_option snd ex_new (ex_run ((ex_insert <$> seq 1 20) ++ [OpInsert U64_MAX 1%Z]) ex_new).
Definition ex_unsorted : ExSt := Eval vm_compute in
  from_option snd ex_new (ex_run [ex_insert 2; ex_insert 1; ex_insert 3] ex_new).
Definition ex_in_place : ExSt := Eval vm_compute in
  from_option snd ex_new (enable_gc true (from_option snd ex_new (ex_run [ex_insert 1] ex_new))).
