(* ===== verification/TreeTheorems.v ===== *)
(** * What the tree guarantees

    The theorems about [src/src/mv_query/dispatch.rs], [src/src/mv_query/olc_query.rs],
    [src/src/mv_query/query.rs], [src/src/mv_tree/smo.rs] and
    [src/src/mv_tx_query/dispatch.rs] as a whole: every operation returns and
    does what the specification says, old snapshots never change, and the
    repairs on the way down cannot be seen at any version. *)
From Stdlib Require Import ZifyNat.
From S2P Require Import Prelude OrdMap Version Interval PageLen LeafPage InternalPage Node.
From S2P Require Import Clock Gc RootIndex RetryStats Tree Traversal Query Dispatch Transaction.
From S2P Require Import Units NodeInv Store TreeInv Alloc Smo Sibling Parent Reorganise RootOps.
From S2P Require Import Descent Mvbt LeafOps Spec LeafRefine Refine RangeRead Examples.

Section tree_theorems.
Context {P : Type} (Payload_default : P).
Context {M : ∀ K, KeyOrder K → Type → Type} `{!OrdMap M}.
Context {R : Type} `{!RootStore R, !RootStoreLaws R}.
Context (F N : nat) (me : Tid).
Context (HF : 8 ≤ F) (HN : 8 ≤ N) (HF16 : (Z.of_nat F < 2 ^ 16)%Z) (HN16 : (Z.of_nat N < 2 ^ 16)%Z).
Local Abbreviation St := (@TreeSt P M R).
Implicit Types (s : St) (Γ : gmap BlockRef Ty) (H : History P) (x : Root).
Local Abbreviation dispatch := (dispatch_crud Payload_default F N me).

(** Every read at every version is the same in both states. *)
Definition same_reads s s' : Prop :=
  ∀ v k fuel, (1 ≤ v)%Z → Interval.contains KEYS k = true → Z.to_nat (now s') ≤ fuel →
    snapshot_read s' fuel v k = snapshot_read s fuel v k.

Lemma Inv_same_reads s s' Γ Γ' D D' x x' H :
  Inv F N s Γ D x H → Inv F N s' Γ' D' x' H → (now s ≤ now s')%Z → same_reads s s'.
Proof using Type.
  clear. intros HI HI' Hn v k fuel Hv HK Hf.
  rewrite (inv_hist _ _ _ _ _ _ _ HI') // (inv_hist _ _ _ _ _ _ _ HI) //. lia.
Qed.

(** C1: A point operation on a good tree returns, and it does what the
    specification says: the value of the key from the version it commits under
    is the one written, nothing else changes, and the answers for keys that are
    there, were deleted or never existed are the right ones. The tree is good
    again afterwards. *)
Theorem dispatch_refines s Γ D x H fuel op :
  Inv F N s Γ D x H → point_op op →
  (now s + Z.of_nat (op_versions D (length (latches s))) < 2 ^ 63)%Z → op_fuel s D ≤ fuel →
  ∃ res s' w Γ' D' x' H', dispatch fuel op s = Some (res, s') ∧
    crud_spec H w op res H' ∧ Inv F N s' Γ' D' x' H' ∧ (now s ≤ w ≤ now s')%Z ∧
    (now s' ≤ now s + Z.of_nat (op_versions D (length (latches s))))%Z.
Proof using All.
  intros HI Hop Hlt Hf.
  pose proof (wp_dispatch Payload_default F N me HF HN HF16 HN16 s Γ D x H fuel op _ HI Hop Hlt Hf
    (λ res s' Hd, Hd)) as (res & s' & E & Γ' & D' & x' & H' & w & Hs & HI' & Hw & _ & Hn & _)%wp_run.
  by exists res, s', w, Γ', D', x', H'.
Qed.

(** C2: A transaction of point operations returns without an error, with one
    answer for each operation, and is the sequence of their specifications, its
    snapshot reads at the transaction's snapshot included. *)
Theorem transaction_refines s Γ D x H fuel tx :
  Inv F N s Γ D x H → Forall point_op (isolate (tx_snapshot_or_max tx) <$> tx_crud tx) →
  (now s + Z.of_nat (run_versions D (length (latches s)) (length (tx_crud tx))) < 2 ^ 63)%Z →
  run_fuel s D (length (tx_crud tx)) ≤ fuel →
  ∃ ress s' Γ' D' x' H',
    dispatch_transaction Payload_default F N me fuel tx s =
      Some (Ok (tx_snapshot_or_max tx, ress), s') ∧
    crud_run H (now s) (isolate (tx_snapshot_or_max tx) <$> tx_crud tx) ress H' (now s') ∧
    Inv F N s' Γ' D' x' H'.
Proof using All.
  intros HI Hops Hlt Hf.
  pose proof (wp_dispatch_operations Payload_default F N me HF HN HF16 HN16 fuel
    (tx_snapshot_or_max tx) (tx_snapshot tx) (tx_crud tx) s Γ D x H []
    (λ r s', ∃ ress, r = Ok (tx_snapshot_or_max tx, ress) ∧
      ran F N s D H (isolate (tx_snapshot_or_max tx) <$> tx_crud tx) ress s')
    HI Hops Hlt Hf (λ ress s' Hr, ex_intro _ ress (conj eq_refl Hr))) as (r & s' & E & ress & -> & Γ' & D' & x' & H' & Hr & HI' & _)%wp_run.
  by exists ress, s', Γ', D', x', H'.
Qed.

(** C7: A snapshot that was taken before a transaction answers every point read
    after it as before: whatever the transaction inserts, updates and deletes,
    and however the tree is reorganised. *)
Theorem snapshots_immutable s Γ D x H fuel tx r s' v k :
  Inv F N s Γ D x H → Forall point_op (isolate (tx_snapshot_or_max tx) <$> tx_crud tx) →
  (now s + Z.of_nat (run_versions D (length (latches s)) (length (tx_crud tx))) < 2 ^ 63)%Z →
  run_fuel s D (length (tx_crud tx)) ≤ fuel →
  dispatch_transaction Payload_default F N me fuel tx s = Some (r, s') →
  (1 ≤ v < now s)%Z → Interval.contains KEYS k = true →
  ∃ rs, dispatch fuel (OpPoint k v) s = Some (MatchedRecords rs, s) ∧
    dispatch fuel (OpPoint k v) s' = Some (MatchedRecords rs, s').
Proof using All.
  intros HI Hops Hlt Hf E Hv HK.
  pose proof (wp_dispatch_operations Payload_default F N me HF HN HF16 HN16 fuel
    (tx_snapshot_or_max tx) (tx_snapshot tx) (tx_crud tx) s Γ D x H []
    (λ _ s', ∃ ress, ran F N s D H (isolate (tx_snapshot_or_max tx) <$> tx_crud tx) ress s')
    HI Hops Hlt Hf (λ ress s' Hr, ex_intro _ ress Hr)) as (r2 & s2 & E2 & ress & Hran)%wp_run.
  assert (s2 = s') as -> by (unfold dispatch_transaction in E; congruence).
  pose proof Hran as (Γ' & D' & x' & H' & Hrun & HI' & Hn & _).
  rewrite length_fmap in Hn. unfold run_fuel in Hf.
  pose proof (run_time _ _ _ _ _ _ Hrun).
  exists (option_list ((λ p, (k, p)) <$> H v k)). split.
  - by apply (dispatch_point Payload_default F N me HF HN HF16 HN16 s Γ D x H); [done|lia|done|lia].
  - rewrite -(run_old _ _ _ _ _ _ v k Hrun) //; [|lia].
    by apply (dispatch_point Payload_default F N me HF HN HF16 HN16 s' Γ' D' x' H'); [done|lia|done|lia].
Qed.

(** C16: Commits of one transaction get strictly increasing versions, all drawn
    after the transaction began. *)
Theorem commits_increase s Γ D x H fuel tx r s' :
  Inv F N s Γ D x H → Forall point_op (isolate (tx_snapshot_or_max tx) <$> tx_crud tx) →
  (now s + Z.of_nat (run_versions D (length (latches s)) (length (tx_crud tx))) < 2 ^ 63)%Z →
  run_fuel s D (length (tx_crud tx)) ≤ fuel →
  dispatch_transaction Payload_default F N me fuel tx s = Some (r, s') →
  ∃ si ress, r = Ok (si, ress) ∧ StronglySorted Z.lt (omap commit_of ress) ∧
    Forall (λ v, (now s ≤ v < now s')%Z) (omap commit_of ress).
Proof using All.
  intros HI Hops Hlt Hf E.
  pose proof (wp_dispatch_operations Payload_default F N me HF HN HF16 HN16 fuel
    (tx_snapshot_or_max tx) (tx_snapshot tx) (tx_crud tx) s Γ D x H []
    (λ r s', ∃ ress, r = Ok (tx_snapshot_or_max tx, ress) ∧
      ran F N s D H (isolate (tx_snapshot_or_max tx) <$> tx_crud tx) ress s')
    HI Hops Hlt Hf (λ ress s' Hr, ex_intro _ ress (conj eq_refl Hr)))
    as (r2 & s2 & E2 & ress & -> & Γ' & D' & x' & H' & Hr & _)%wp_run.
  unfold dispatch_transaction in E. rewrite E2 in E. injection E as <- <-.
  exists (tx_snapshot_or_max tx), ress. split; [done|]. by eapply run_commits.
Qed.

(** C14: A committed insert or update can be read back: at its version and later
    the key has the new payload, just before it what it had. *)
Theorem write_visible s Γ D x H fuel k p op res w s' v :
  Inv F N s Γ D x H → Interval.contains KEYS k = true → op = OpInsert k p ∨ op = OpUpdate k p →
  (now s + Z.of_nat (op_versions D (length (latches s))) < 2 ^ 63)%Z → op_fuel s D ≤ fuel →
  dispatch fuel op s = Some (res, s') → commit_of res = Some w →
  (w ≤ v)%Z → Z.to_nat (now s') ≤ fuel →
  dispatch fuel (OpPoint k v) s' = Some (MatchedRecords [(k, p)], s') ∧
  ((1 < w)%Z → dispatch fuel (OpPoint k (w - 1)%Z) s' =
    Some (MatchedRecords (option_list ((λ p, (k, p)) <$> H (w - 1)%Z k)), s')).
Proof using All.
  intros HI HK Hop Hlt Hf E Hc Hv Hf'.
  assert (point_op op) as Hpop by by destruct Hop as [-> | ->].
  pose proof (wp_dispatch Payload_default F N me HF HN HF16 HN16 s Γ D x H fuel op _ HI Hpop Hlt Hf
    (λ res s' Hd, Hd)) as (r2 & s2 & E2 & Γ' & D' & x' & H' & w' & Hs & HI' & Hw & _)%wp_run.
  rewrite E in E2. injection E2 as <- <-. pose proof (spec_commit _ _ _ _ _ _ Hs Hc) as ->.
  pose proof (inv_time _ _ _ _ _ _ _ HI).
  assert (H' = hist_set H w' k (Some p)) as ->.
  { destruct Hop as [-> | ->]; inversion Hs; subst; done. }
  split; [|intros Hw1].
  - rewrite (dispatch_point Payload_default F N me HF HN HF16 HN16 s' Γ' D' x' _ fuel k v HI') //; [|lia].
    by rewrite hist_set_here.
  - rewrite (dispatch_point Payload_default F N me HF HN HF16 HN16 s' Γ' D' x' _ fuel k _ HI') //; [|lia].
    rewrite hist_set_old //. lia.
Qed.


(** C15: A range read at a recent version, below the greatest key, returns every
    record of the range exactly once: the records that point reads of its keys
    return. It changes nothing but the reader's bookkeeping in the clock. *)
Theorem range_complete s Γ D x H v lo hi :
  Inv F N s Γ D x H → (1 ≤ v)%Z → (now s - 1 ≤ v)%Z → (0 ≤ lo)%Z → (hi < U64_MAX)%Z →
  ∃ fuel0 rs c, clock_time c = now s ∧ NoDup rs.*1 ∧ ∀ fuel, fuel0 ≤ fuel →
    dispatch fuel (OpRange (mkInterval lo hi) v) s = Some (MatchedRecords rs, with_clock c s) ∧
    ∀ k p, (k, p) ∈ rs ↔ (lo ≤ k ≤ hi)%Z ∧
      dispatch fuel (OpPoint k v) s = Some (MatchedRecords [(k, p)], s).
Proof using All.
  intros HI H1 Hv Hlo Hhi.
  destruct (dispatch_range Payload_default F N me s Γ D x H v lo hi HI H1 Hv Hlo Hhi)
    as (fuel0 & rs & c & Hc & [Hrs Hnd] & Hrun).
  exists (Nat.max fuel0 (Z.to_nat (now s))), rs, c. split_and!; [done..|]. intros fuel Hf.
  split; [apply Hrun; lia|]. intros k p. rewrite Hrs.
  assert ((lo ≤ k ≤ hi)%Z → dispatch fuel (OpPoint k v) s =
    Some (MatchedRecords (option_list ((λ p, (k, p)) <$> H v k)), s)) as Hpt.
  { intros Hk. apply (dispatch_point Payload_default F N me HF HN HF16 HN16 s Γ D x H); [done..| |lia].
    apply contains_spec. unfold KEYS. simpl. lia. }
  split; intros [Hk Hq]; (split; [done|]); rewrite Hpt // in Hq |- *.
  - by rewrite Hq.
  - destruct (H v k); simpl in Hq; congruence.
Qed.
End tree_theorems.

Section new_tree.
Context {P : Type} (Payload_default : P).
Context {M : ∀ K, KeyOrder K → Type → Type} `{!OrdMap M, !OrdMapLaws M}.
Context {T : Type → Type} `{!BPlusTree T, !BPlusTreeLaws T}.
Context (F N : nat) (me : Tid).
Context (HF : 8 ≤ F) (HN : 8 ≤ N) (HF16 : (Z.of_nat F < 2 ^ 16)%Z) (HN16 : (Z.of_nat N < 2 ^ 16)%Z).

(** C17: A new tree is good, whatever index its roots are kept in and whatever the
    clock of the process already says, and has no record at any version. *)
Theorem new_tree_empty variant coins c l r g k v fuel :
  (Z.of_nat (length coins) < U64_MAX - 1)%Z → (1 ≤ clock_time c < 2 ^ 63)%Z →
  Interval.contains KEYS k = true → (1 ≤ v)%Z → Z.to_nat (clock_time c) ≤ fuel →
  let s := make (P:=P) (M:=M) (T:=T) variant coins c l r g in
  Inv F N s make_types 0 (mkRoot 0 START_VERSION INIT_TREE_HEIGHT) no_history ∧
  dispatch_crud Payload_default F N me fuel (OpPoint k v) s = Some (MatchedRecords [], s).
Proof using All.
  intros Hcs Hc HK Hv Hf s.
  assert (Inv F N s make_types 0 (mkRoot 0 START_VERSION INIT_TREE_HEIGHT) no_history) as HI
    by by apply Inv_make.
  split; [done|]. by apply (dispatch_point Payload_default F N me HF HN HF16 HN16 s _ _ _ _ fuel k v HI).
Qed.
End new_tree.

Section descent_theorems.
Context {P : Type}.
Context {M : ∀ K, KeyOrder K → Type → Type} `{!OrdMap M}.
Context {R : Type} `{!RootStore R, !RootStoreLaws R}.
Context (F N : nat) (me : Tid).
Context (HF : 8 ≤ F) (HN : 8 ≤ N) (HF16 : (Z.of_nat F < 2 ^ 16)%Z) (HN16 : (Z.of_nat N < 2 ^ 16)%Z).
Local Abbreviation St := (@TreeSt P M R).
Implicit Types (s : St) (Γ : gmap BlockRef Ty) (H : History P) (x : Root).

(** C8: The descent of a writer ends, however many latches it loses, at a
    latched leaf on the path of its key that can take one more record and lose
    a live one. *)
Theorem traversal_total s Γ D x H fuel k :
  Inv F N s Γ D x H → Interval.contains KEYS k = true →
  (now s + Z.of_nat (traversal_versions D (length (latches s))) < 2 ^ 63)%Z →
  traversal_fuel D (length (latches s)) ≤ fuel →
  ∃ g s' Γ' D' x', traversal_write_olc F N me fuel k s = Some (g, s') ∧
    Inv F N s' Γ' D' x' H ∧ leaf_found F N s' Γ' D' x' k (g_block g).
Proof using All.
  intros HI HK Hlt Hf.
  pose proof (wp_traversal_write F N me HF HN HF16 HN16 s Γ D x H fuel k _ HI HK Hlt Hf
    (λ g s' Ht, Ht)) as (g & s' & E & Γ' & D' & x' & HI' & Hl & _)%wp_run.
  by exists g, s', Γ', D', x'.
Qed.

(** C11: What a descent reorganises on its way, splits, merges and new roots,
    cannot be seen: every read at every version is the same after it. *)
Theorem traversal_invisible s Γ D x H fuel k g s' :
  Inv F N s Γ D x H → Interval.contains KEYS k = true →
  (now s + Z.of_nat (traversal_versions D (length (latches s))) < 2 ^ 63)%Z →
  traversal_fuel D (length (latches s)) ≤ fuel →
  traversal_write_olc F N me fuel k s = Some (g, s') → same_reads s s'.
Proof using All.
  intros HI HK Hlt Hf E.
  pose proof (wp_traversal_write F N me HF HN HF16 HN16 s Γ D x H fuel k _ HI HK Hlt Hf
    (λ g s' Ht, Ht)) as (g' & s2 & E2 & Γ' & D' & x' & HI' & _ & Hn & _)%wp_run.
  rewrite E in E2. injection E2 as <- <-. eapply Inv_same_reads; [done|done|lia].
Qed.

(** Choosing the root for a writer ends with a root that has room, and a
    split or a collapse of the root on the way cannot be seen by any read. *)
Theorem root_choice_total s Γ D x H fuel a :
  Inv F N s Γ D x H → length (latches s) < fuel → (now s + 2 < 2 ^ 63)%Z →
  ∃ g a' s' Γ' D' x', retrieve_root_write_olc F N me fuel a s = Some ((g, a'), s') ∧
    Inv F N s' Γ' D' x' H ∧ g_block g = block x' ∧ D' ≤ S D ∧
    ready F N s' Γ' (g_block g) (mkTy D' KEYS false) ∧ same_reads s s'.
Proof using All.
  intros HI Hf Hlt.
  pose proof (wp_retrieve_root F N me HF HN HF16 HN16 s Γ D x H fuel a
    (λ r s', root_retrieved F N s Γ D H r.1 s') HI ltac:(lia) ltac:(lia) ltac:(by intros ???))
    as ([g a'] & s' & E & Γ' & D' & x' & Hi & HI' & HD & Hg & Hr & Hn & Hl)%wp_run.
  exists g, a', s', Γ', D', x'. simpl in *. subst g. split_and!; try done.
  eapply Inv_same_reads; [done|done|lia].
Qed.

(** The parent and the child a repair works on: blocks on the path of [k]. *)
Record parent_child s Γ D x H k d b I i p j c n : Prop := {
  pc_inv : Inv F N s Γ D x H;
  pc_path : on_path s Γ D x k (S d) b I i;
  pc_page : heap s !! b = Some (Index p);
  pc_child : active_child p k = Some j;
  pc_pointer : InternalPage.get_pointer p j = Some c;
  pc_node : heap s !! c = Some n;
}.

Lemma parent_child_at s Γ D x H k d b I i p j c n :
  parent_child s Γ D x H k d b I i p j c n → InternalPage.sum_len p + 2 ≤ F →
  ∃ es e U t, at_child F N s Γ b d I i p es j e ∧ c = ptr e ∧ Interval.contains (fence e) k = true ∧
    node_ok F N Γ (now s) (mkTy d (fence e) true) n U t ∧
    int_wf F p es ∧ index_ok (P:=P) (now s) I es ∧ (i = true → fill_20 F N (S d) ≤ n_active es).
Proof using All.
  intros [HI Hpath Hp Hj Hc Hn] Hroom.
  destruct (on_path_child F N HF HN HF16 HN16 _ _ _ _ _ _ _ _ _ _ HI Hpath)
    as (p2 & es & j2 & e & n2 & U & t & Hp2 & Hwf & Hok & Hj2 & He & Ha & Hk & Hc2 & Hn2 & Hnode & _ & Hfill).
  simplify_eq. exists es, e, U, t. rewrite (int_wf_sum _ _ _ Hwf) in Hroom.
  split_and!; try done. split; try done. apply Hpath.
Qed.

(** What a repair leaves: the same reads, a new version, and a child of the key
    that is neither too full nor too empty. *)
Definition repaired s s' (b : BlockRef) (k : Z) : Prop :=
  same_reads s s' ∧ now s' = (now s + 1)%Z ∧
  ∀ p j c, heap s' !! b = Some (Index p) → active_child p k = Some j →
    InternalPage.get_pointer p j = Some c →
    ∃ n, heap s' !! c = Some n ∧ unsafe_degree F N n = DegreeOk.

Lemma reorganised_repaired s s' Γ Γ' D x H b I k :
  Inv F N s Γ D x H → reorganised F N s s' Γ Γ' D x H b I → Interval.contains I k = true →
  repaired s s' b k.
Proof using Type.
  clear. intros HI Hre Hk. pose proof (ro_now _ _ _ _ _ _ _ _ _ _ _ Hre) as Hn.
  split_and!; [|done|].
  - eapply Inv_same_reads; [done|apply Hre|lia].
  - intros p j c Hp Hj Hc. by eapply (ro_child _ _ _ _ _ _ _ _ _ _ _ Hre).
Qed.

(** C12: The repair of a full child splits it, by key or by version, under one
    new version; no read at any version sees it, and the child that the key then
    finds is neither too full nor too empty. *)
Theorem overflow_repaired s Γ D x H k d b I i p j c n w w' :
  parent_child s Γ D x H k d b I i p j c n → unsafe_degree F N n = Overflow →
  InternalPage.sum_len p + 2 ≤ F → (now s + 1 < 2 ^ 63)%Z →
  ∃ s', on_overflow_node F N me (mkGuard b w) (mkGuard c w') j s = Some (mkGuard b w, s') ∧
    repaired s s' b k.
Proof using All.
  intros Hpc Hdeg Hroom Hlt.
  destruct (parent_child_at _ _ _ _ _ _ _ _ _ _ _ _ _ _ Hpc Hroom)
    as (es & e & U & t & Hac & -> & Hk & Hnode & _).
  pose proof Hpc as [HI _ _ _ _ Hn].
  assert (wp (on_overflow_node F N me (mkGuard b w) (mkGuard (ptr e) w') j) s
    (λ g s', g = mkGuard b w ∧ repaired s s' b k)) as (g & s' & E & -> & Hr)%wp_run; [|by exists s'].
  eapply (wp_on_overflow_node F N me HF HN HF16 HN16); [done|done|done|exact Hn|done|done|].
  intros s' Γ' Hre _. split; [done|]. by eapply reorganised_repaired.
Qed.

(** C13: The repair of a child with too few live entries merges it with an
    adjacent sibling, or shares their entries out again, under one new version;
    no read at any version sees it. It gives up only when a latch is lost. *)
Theorem underflow_repaired s Γ D x H k d b I i p j c n w w' :
  parent_child s Γ D x H k d b I i p j c n → unsafe_degree F N n = ActiveUnderflow →
  InternalPage.sum_len p + 2 ≤ F → (now s + 1 < 2 ^ 63)%Z →
  2 ≤ InternalPage.active_len p → (i = true → fill_20 F N (S d) < InternalPage.active_len p) →
  ∃ r s', on_underflow_node F N me (mkGuard b w) (mkGuard c w') j s = Some (r, s') ∧
    match r with
    | Some g => g = mkGuard b w ∧ repaired s s' b k
    | None => ∃ l, s' = with_latches l s ∧ length l < length (latches s)
    end.
Proof using All.
  intros Hpc Hdeg Hroom Hlt H2 Hfill.
  destruct (parent_child_at _ _ _ _ _ _ _ _ _ _ _ _ _ _ Hpc Hroom)
    as (es & e & U & t & Hac & -> & Hk & Hnode & Hwf & _).
  pose proof Hpc as [HI _ _ _ _ Hn]. rewrite (int_wf_active_len _ _ _ Hwf) in H2 Hfill.
  assert (wp (on_underflow_node F N me (mkGuard b w) (mkGuard (ptr e) w') j) s
    (λ r s', match r with
      | Some g => g = mkGuard b w ∧ repaired s s' b k
      | None => ∃ l, s' = with_latches l s ∧ length l < length (latches s)
      end)) as (r & s' & E & Hr)%wp_run; [|by exists r, s'].
  eapply (wp_on_underflow_node F N me HF HN HF16 HN16); [done..|exact Hn|done|done| |].
  - intros s' Γ' Hre. split; [done|]. by eapply reorganised_repaired.
  - intros l Hl. by exists l.
Qed.
End descent_theorems.

(** ** Examples *)
Local Abbreviation ex_dispatch := (dispatch_crud 0%Z 8 8 0 3000).
Local Abbreviation ex_transaction := (dispatch_transaction 0%Z 8 8 0 3000).
Ltac ex_ops := by repeat constructor.

(** An update that first splits the full leaf of its key. *)
Lemma dispatch_refines_witness :
  ∃ Γ D x H, Inv 8 8 ex_grown Γ D x H ∧
  ∃ res s' w Γ' D' x' H', ex_dispatch (OpUpdate 15 7)%Z ex_grown = Some (res, s') ∧
    crud_spec H w (OpUpdate 15 7)%Z res H' ∧ Inv 8 8 s' Γ' D' x' H' ∧ (now ex_grown ≤ w ≤ now s')%Z ∧
    (now s' ≤ now ex_grown + Z.of_nat (op_versions D (length (latches ex_grown))))%Z.
Proof.
  destruct ex_grown_inv as (Γ & D & x & H & HI & HD). exists Γ, D, x, H. split; [exact HI|].
  destruct (ex_grown_op D HD) as [Hb1 Hb2].
  apply (dispatch_refines 0%Z 8 8 0 ltac:(lia) ltac:(lia) eq_refl eq_refl ex_grown Γ D x H);
    [exact HI|reflexivity|assumption|assumption].
Defined.

Lemma transaction_refines_witness :
  ∃ Γ D x H, Inv 8 8 ex_grown Γ D x H ∧
  ∃ ress s' Γ' D' x' H',
    ex_transaction ex_tx ex_grown = Some (Ok (tx_snapshot_or_max ex_tx, ress), s') ∧
    crud_run H (now ex_grown) (isolate (tx_snapshot_or_max ex_tx) <$> tx_crud ex_tx) ress H' (now s') ∧
    Inv 8 8 s' Γ' D' x' H'.
Proof.
  destruct ex_grown_inv as (Γ & D & x & H & HI & HD). exists Γ, D, x, H. split; [exact HI|].
  destruct (ex_grown_run D 4 HD) as [Hb1 Hb2]; [lia|].
  apply (transaction_refines 0%Z 8 8 0 ltac:(lia) ltac:(lia) eq_refl eq_refl ex_grown Γ D x H);
    [exact HI|ex_ops|assumption|assumption].
Defined.

Lemma snapshots_immutable_witness :
  ∃ r s' rs, ex_transaction ex_tx ex_grown = Some (r, s') ∧
    ex_dispatch (OpPoint 16 25)%Z ex_grown = Some (MatchedRecords rs, ex_grown) ∧
    ex_dispatch (OpPoint 16 25)%Z s' = Some (MatchedRecords rs, s').
Proof.
  destruct ex_grown_inv as (Γ & D & x & H & HI & HD). destruct (ex_grown_run D 4 HD) as [Hb1 Hb2]; [lia|].
  destruct (ex_transaction ex_tx ex_grown) as [[r s']|] eqn:E; [|vm_compute in E; discriminate].
  exists r, s'.
  destruct (snapshots_immutable 0%Z 8 8 0 ltac:(lia) ltac:(lia) eq_refl eq_refl ex_grown Γ D x H
    3000 ex_tx r s' 25 16) as (rs & H1 & H2);
    [exact HI|ex_ops|assumption|assumption|exact E|change (now ex_grown) with 30%Z; lia|reflexivity|].
  exists rs. split_and!; [reflexivity|exact H1|exact H2].
Defined.

Lemma commits_increase_witness :
  ∃ r s' si ress, ex_transaction ex_tx ex_grown = Some (r, s') ∧ r = Ok (si, ress) ∧
    StronglySorted Z.lt (omap commit_of ress) ∧
    Forall (λ v, (now ex_grown ≤ v < now s')%Z) (omap commit_of ress).
Proof.
  destruct ex_grown_inv as (Γ & D & x & H & HI & HD). destruct (ex_grown_run D 4 HD) as [Hb1 Hb2]; [lia|].
  destruct (ex_transaction ex_tx ex_grown) as [[r s']|] eqn:E; [|vm_compute in E; discriminate].
  exists r, s'.
  destruct (commits_increase 0%Z 8 8 0 ltac:(lia) ltac:(lia) eq_refl eq_refl ex_grown Γ D x H
    3000 ex_tx r s') as (si & ress & H1 & H2 & H3); [exact HI|ex_ops|assumption|assumption|exact E|].
  exists si, ress. split_and!; [reflexivity|exact H1|exact H2|exact H3].
Defined.

Lemma write_visible_witness :
  ∃ w s', ex_dispatch (OpUpdate 15 7)%Z ex_grown = Some (Updated w, s') ∧
    ex_dispatch (OpPoint 15 w)%Z s' = Some (MatchedRecords [(15, 7)]%Z, s').
Proof.
  destruct ex_grown_inv as (Γ & D & x & H & HI & HD). destruct (ex_grown_op D HD) as [Hb1 Hb2].
  assert (∃ w s', ex_dispatch (OpUpdate 15 7)%Z ex_grown = Some (Updated w, s') ∧
    Z.to_nat (now s') ≤ 3000) as (w & s' & E & Hs').
  { eexists _, _. split; [vm_compute; reflexivity|]. vm_compute. lia. }
  exists w, s'. split; [exact E|].
  apply (write_visible 0%Z 8 8 0 ltac:(lia) ltac:(lia) eq_refl eq_refl ex_grown Γ D x H 3000 15 7%Z
    (OpUpdate 15 7)%Z (Updated w) w s' w);
    [exact HI|reflexivity|right; reflexivity|assumption|assumption|exact E|reflexivity|
     apply Z.le_refl|exact Hs'].
Defined.

Lemma traversal_total_witness :
  ∃ Γ D x H, Inv 8 8 ex_grown Γ D x H ∧
  ∃ g s' Γ' D' x', traversal_write_olc 8 8 0 3000 15 ex_grown = Some (g, s') ∧
    Inv 8 8 s' Γ' D' x' H ∧ leaf_found 8 8 s' Γ' D' x' 15 (g_block g).
Proof.
  destruct ex_grown_inv as (Γ & D & x & H & HI & HD). exists Γ, D, x, H. split; [exact HI|].
  destruct (ex_grown_traversal D HD) as [Hb1 Hb2].
  apply (traversal_total 8 8 0 ltac:(lia) ltac:(lia) eq_refl eq_refl ex_grown Γ D x H);
    [exact HI|reflexivity|assumption|assumption].
Defined.

Lemma traversal_invisible_witness :
  ∃ g s', traversal_write_olc 8 8 0 3000 15 ex_grown = Some (g, s') ∧ same_reads ex_grown s'.
Proof.
  destruct ex_grown_inv as (Γ & D & x & H & HI & HD).
  destruct (ex_grown_traversal D HD) as [Hb1 Hb2].
  destruct (traversal_write_olc 8 8 0 3000 15 ex_grown) as [[g s']|] eqn:E;
    [|vm_compute in E; discriminate].
  exists g, s'. split; [reflexivity|].
  apply (traversal_invisible 8 8 0 ltac:(lia) ltac:(lia) eq_refl eq_refl ex_grown Γ D x H 3000 15 g);
    [exact HI|reflexivity|assumption|assumption|exact E].
Defined.

Lemma root_choice_total_witness :
  ∃ Γ D x H, Inv 8 8 ex_grown Γ D x H ∧
  ∃ g a' s' Γ' D' x', retrieve_root_write_olc 8 8 0 10 0 ex_grown = Some ((g, a'), s') ∧
    Inv 8 8 s' Γ' D' x' H ∧ g_block g = block x' ∧ D' ≤ S D ∧
    ready 8 8 s' Γ' (g_block g) (mkTy D' KEYS false) ∧ same_reads ex_grown s'.
Proof.
  destruct ex_grown_inv as (Γ & D & x & H & HI & HD). exists Γ, D, x, H. split; [exact HI|].
  apply (root_choice_total 8 8 0 ltac:(lia) ltac:(lia) eq_refl eq_refl ex_grown Γ D x H);
    [exact HI|vm_compute; lia|reflexivity].
Defined.

Lemma ex_child (s : ExSt) b p k j c n :
  (∃ Γ D x H, Inv 8 8 s Γ D x H ∧ D + length (latches s) ≤ 28) →
  rs_guard_block (root s) = Some b → heap s !! b = Some (Index p) → Interval.contains KEYS k = true →
  active_child p k = Some j → InternalPage.get_pointer p j = Some c → heap s !! c = Some n →
  ∃ Γ D x H d, parent_child 8 8 s Γ D x H k d b KEYS false p j c n.
Proof.
  intros (Γ & D & x & H & HI & _) Hb Hp HK Hj Hc Hn.
  destruct (root_on_path 8 8 s Γ D x H k b p HI Hb Hp HK) as (d & -> & Hpath).
  exists Γ, (S d), x, H, d. by split.
Qed.

(** The leaf of the key 15 is full. *)
Lemma overflow_repaired_witness :
  ∃ b c j s', on_overflow_node 8 8 0 (mkGuard b true) (mkGuard c true) j ex_grown =
    Some (mkGuard b true, s') ∧ repaired 8 8 ex_grown s' b 15.
Proof.
  destruct (ex_child ex_grown 9 (ex_page ex_grown 9) 15 1 7 (ex_node ex_grown 7) ex_grown_inv)
    as (Γ & D & x & H & d & Hpc);
    [vm_compute; reflexivity|vm_compute; reflexivity|reflexivity|vm_compute; reflexivity|
     vm_compute; reflexivity|vm_compute; reflexivity|].
  exists 9, 7, 1.
  refine (overflow_repaired 8 8 0 ltac:(lia) ltac:(lia) eq_refl eq_refl ex_grown Γ D x H 15 d 9 KEYS
    false (ex_page ex_grown 9) 1 7 (ex_node ex_grown 7) true true Hpc _ _ _); [vm_compute; reflexivity|vm_compute; lia|reflexivity].
Defined.

(** The leaf of the key 1 has two live records left. *)
Lemma underflow_repaired_witness :
  ∃ b c j r s', on_underflow_node 8 8 0 (mkGuard b true) (mkGuard c true) j ex_shrunk = Some (r, s') ∧
    match r with
    | Some g => g = mkGuard b true ∧ repaired 8 8 ex_shrunk s' b 1
    | None => ∃ l, s' = with_latches l ex_shrunk ∧ length l < length (latches ex_shrunk)
    end.
Proof.
  destruct (ex_child ex_shrunk 9 (ex_page ex_shrunk 9) 1 2 8 (ex_node ex_shrunk 8) ex_shrunk_inv)
    as (Γ & D & x & H & d & Hpc);
    [vm_compute; reflexivity|vm_compute; reflexivity|reflexivity|vm_compute; reflexivity|
     vm_compute; reflexivity|vm_compute; reflexivity|].
  exists 9, 8, 2.
  refine (underflow_repaired 8 8 0 ltac:(lia) ltac:(lia) eq_refl eq_refl ex_shrunk Γ D x H 1 d 9 KEYS
    false (ex_page ex_shrunk 9) 2 8 (ex_node ex_shrunk 8) true true Hpc _ _ _ _ _);
    [vm_compute; reflexivity|vm_compute; lia|reflexivity|vm_compute; lia|discriminate].
Defined.

Lemma new_tree_empty_witness :
  Inv 8 8 ex_new make_types 0 (mkRoot 0 START_VERSION INIT_TREE_HEIGHT) no_history ∧
  ex_dispatch (OpPoint 7 1)%Z ex_new = Some (MatchedRecords [], ex_new).
Proof.
  apply (new_tree_empty (M:=AssocMap) (T:=SortedTree) 0%Z 8 8 0 ltac:(lia) ltac:(lia) eq_refl eq_refl
    TFrugalList [true; false; true; true; false] ex_clock [true; false] counters_zero [] 7 1 3000);
    [reflexivity|split; reflexivity || discriminate|reflexivity|lia|].
  change (clock_time ex_clock) with 1%Z. lia.
Defined.

Lemma range_complete_witness :
  ∃ fuel0 rs c, clock_time c = now ex_grown ∧ NoDup rs.*1 ∧ ∀ fuel, fuel0 ≤ fuel →
    dispatch_crud 0%Z 8 8 0 fuel (OpRange (mkInterval 4 17) 29)%Z ex_grown =
      Some (MatchedRecords rs, with_clock c ex_grown) ∧
    ∀ k p, (k, p) ∈ rs ↔ (4 ≤ k ≤ 17)%Z ∧
      dispatch_crud 0%Z 8 8 0 fuel (OpPoint k 29)%Z ex_grown = Some (MatchedRecords [(k, p)], ex_grown).
Proof.
  destruct ex_grown_inv as (Γ & D & x & H & HI & HD).
  apply (range_complete 0%Z 8 8 0 ltac:(lia) ltac:(lia) eq_refl eq_refl ex_grown Γ D x H);
    [exact HI|lia|change (now ex_grown) with 30%Z; lia|lia|reflexivity].
Defined.
