(* ===== verification/PageTheorems.v ===== *)
(** * What the pages guarantee

    The theorems about the searches of [src/src/mv_query/query.rs] and
    [src/src/mv_query/olc_query.rs] in one page, the fill degrees, the split and
    the choice of a sibling of [src/src/mv_tree/smo.rs], and the copy of a node
    of [src/src/mv_page_model/node.rs]. *)
From Stdlib Require Import ZifyNat.
From S2P Require Import Prelude OrdMap Version Interval PageLen LeafPage InternalPage Node.
From S2P Require Import Clock Gc RootIndex RetryStats Tree Traversal Query Dispatch Transaction.
From S2P Require Import Units NodeInv Store TreeInv Alloc Smo Sibling Parent Reorganise RootOps.
From S2P Require Import Descent Mvbt LeafOps Spec LeafRefine Refine Examples TreeTheorems.

Ltac Zify.zify_post_hook ::= Z.to_euclidean_division_equations.

(** ** The search for a record *)
Lemma skip_while_filter {A} (f : A → bool) (Q : A → Prop) `{∀ x, Decision (Q x)} l :
  (∀ x, f x = true → ¬ Q x) → filter Q (skip_while f l) = filter Q l.
Proof.
  intros HfQ. induction l as [|x l IH]; [done|]. simpl. destruct (f x) eqn:E; [|done].
  rewrite IH filter_cons decide_False //. by apply HfQ.
Qed.

Lemma head_filter_reverse {A} (p : A → bool) l :
  head (filter (λ x, p x = true) (reverse l)) = rfind p l.
Proof.
  induction l as [|x l IH] using rev_ind; [done|].
  rewrite reverse_snoc filter_cons rfind_snoc -IH. by destruct (p x).
Qed.

(** The search for the record of a key at a version, backwards past what is
    newer, finds what the last match in the whole page is. *)
Theorem read_record_is_rfind {P} (rs : list (RecordPoint P)) (k v : Z) :
  read_record rs k v = rfind (λ r, (key r =? k)%Z && VersionInfo.matches (version r) v) rs.
Proof.
  unfold read_record. rewrite skip_while_filter; [apply head_filter_reverse|].
  intros r Hr%Z.ltb_lt Hm%andb_true_iff. destruct Hm as [_ [Hi _]%matches_visible].
  unfold insertion_key, VersionInfo.insertion_version in Hr. lia.
Qed.

(** In a good internal page a reader of a recent version and a writer find
    the same child: the one active entry whose fence holds the key. *)
Theorem lookups_agree {P} F T I p es k v :
  int_wf F p es → index_ok (P:=P) T I es → Interval.contains I k = true → (T - 1 ≤ v)%Z →
  read_child p k v = active_child p k ∧
  ∃ i e, active_child p k = Some i ∧ InternalPage.get_pointer p i = Some (ptr e) ∧
    ∀ j e', es !! j = Some e' → (active e' ∧ Interval.contains (fence e') k = true) ↔ j = i ∧ e' = e.
Proof.
  intros Hwf Hok Hk Hv.
  destruct (child_ok (P:=P) F _ _ _ _ _ Hwf Hok Hk) as (i & e & Ha & Hr & Hi & He & Hc & _ & Hg & _).
  rewrite Ha (Hr v Hv). split; [done|]. exists i, e. split_and!; [done..|].
  intros j e' Hj. split; [intros [He' Hc']|by intros [-> ->]].
  assert (j = i) as -> by by eapply (active_unique (P:=P) T I es j i e' e k).
  split; [done|congruence].
Qed.

(** The choice of a sibling to merge with never fails while the parent has
    another active entry, and chooses a neighbour in key order. *)
Theorem sibling_is_adjacent {P} F T I p es i e :
  int_wf F p es → index_ok (P:=P) T I es → es !! i = Some e → active e → 2 ≤ n_active es →
  ∃ j e', compute_candidate (merge_candidates p i) (fence e) = Some (j, ptr e', fence e') ∧
    es !! j = Some e' ∧ j ≠ i ∧ active e' ∧ adjacent (fence e) (fence e').
Proof. apply compute_candidate_ok. Qed.

(** A node overflows when its slots are used up and more than two fifths of
    them are live, it underflows with at most a fifth, or two when it is full,
    live; a root underflows as an internal page with a single child. *)
Theorem degree_thresholds {P} F N (n : Node P) a t :
  node_counts F N n a t →
  (unsafe_degree F N n = Overflow ↔
    2 * filling_20_percent F N n < a ∧ overflow_units_count F N n ≤ t) ∧
  (unsafe_degree F N n = ActiveUnderflow ↔ a ≤ filling_20_percent F N n ∨
    (a ≤ 2 * filling_20_percent F N n ∧ overflow_units_count F N n ≤ t)) ∧
  (unsafe_degree F N n = DegreeOk ↔
    filling_20_percent F N n < a ∧ t < overflow_units_count F N n) ∧
  (unsafe_degree_root F N n = ActiveUnderflow ↔ a = 1 ∧ Node.is_leaf n = false) ∧
  (unsafe_degree_root F N n = DegreeOk ↔
    (a ≠ 1 ∨ Node.is_leaf n = true) ∧ t < overflow_units_count F N n).
Proof.
  intros Hc. split_and!.
  - exact (unsafe_degree_overflow _ _ _ _ _ Hc).
  - exact (unsafe_degree_underflow _ _ _ _ _ Hc).
  - exact (unsafe_degree_ok _ _ _ _ _ Hc).
  - exact (unsafe_degree_root_underflow _ _ _ _ _ Hc).
  - exact (unsafe_degree_root_ok _ _ _ _ _ Hc).
Qed.

(** ** The copy of a node *)
Lemma leaf_from_wf {P} N p (rs : list (RecordPoint P)) :
  leaf_wf N p rs → ∃ p', LeafPage.from N p = Some p' ∧ leaf_wf N p' rs.
Proof.
  intros Hwf. unfold LeafPage.from.
  rewrite (leaf_wf_records _ _ _ Hwf) (leaf_wf_active _ _ _ Hwf).
  pose proof (leaf_wf_bound _ _ _ Hwf) as Hb. destruct Hwf as (_ & _ & HN & _).
  destruct (region_write_all_app N 0 rs []) as (data & E & Ht & Hl & Hm); [lia|simpl; lia|].
  change (record_data LeafPage.new) with (@nil (RecordPoint P)). rewrite E /=.
  eexists. split; [done|]. pose proof (n_live_le rs).
  apply leaf_wf_intro; simpl in *; [done|lia|lia|done|]. split_and!; [lia|lia|done].
Qed.

Lemma int_from_wf F p es :
  int_wf F p es → ∃ p', InternalPage.from F p = Some p' ∧ int_wf F p' es.
Proof.
  intros Hwf. unfold InternalPage.from.
  rewrite (int_wf_keys _ _ _ Hwf) (int_wf_versions _ _ _ Hwf) (int_wf_children _ _ _ Hwf)
    (int_wf_active _ _ _ Hwf).
  pose proof (int_wf_bound _ _ _ Hwf) as Hb. destruct Hwf as (_ & HF & _).
  destruct (region_write_all_app F 0 (fence <$> es) []) as (ks & Hks & Tk & _ & Mk);
    [rewrite length_fmap /=; lia|simpl; lia|].
  destruct (region_write_all_app F 0 (ver <$> es) []) as (vs & Hvs & Tv & _ & Mv);
    [rewrite length_fmap /=; lia|simpl; lia|].
  destruct (region_write_all_app F 0 (ptr <$> es) []) as (ps & Hps & Tp & _ & Mp);
    [rewrite length_fmap /=; lia|simpl; lia|].
  rewrite Hks Hvs Hps /=. rewrite !length_fmap /= in Tk, Mk, Tv, Mv, Tp, Mp.
  pose proof (n_active_le es). eexists. split; [done|]. split_and!; simpl; [|done|].
  - unfold int_rep. simpl. split_and!; first [done|lia].
  - split_and!; [lia|lia|done].
Qed.

(** Cloning a node copies its committed entries and its counters exactly. *)
Theorem clone_exact {P} F N (n : Node P) a t :
  node_counts F N n a t →
  ∃ n', Node.clone F N n = Some n' ∧ node_counts F N n' a t ∧
    Node.as_records n' = Node.as_records n ∧
    Node.keys_versions_pointers n' = Node.keys_versions_pointers n.
Proof.
  destruct 1 as [p rs Hwf|p es Hwf]; simpl.
  - destruct (leaf_from_wf _ _ _ Hwf) as (p' & -> & Hwf'). exists (Leaf p').
    split_and!; [done|by constructor| |done].
    unfold Node.as_records. by rewrite (leaf_wf_records _ _ _ Hwf) (leaf_wf_records _ _ _ Hwf').
  - destruct (int_from_wf _ _ _ Hwf) as (p' & -> & Hwf'). exists (Index p').
    split_and!; [done|by constructor|done|].
    unfold Node.keys_versions_pointers, InternalPage.keys_versions_pointers.
    by rewrite (int_wf_keys _ _ _ Hwf) (int_wf_versions _ _ _ Hwf) (int_wf_children _ _ _ Hwf)
      (int_wf_keys _ _ _ Hwf') (int_wf_versions _ _ _ Hwf') (int_wf_children _ _ _ Hwf').
Qed.

(** ** Splits *)
Section split_theorem.
Context {P : Type}.
Context {M : ∀ K, KeyOrder K → Type → Type} `{!OrdMap M}.
Context {R : Type} `{!RootStore R}.
Context (F N : nat).
Context (HF : 8 ≤ F) (HN : 8 ≤ N) (HF16 : (Z.of_nat F < 2 ^ 16)%Z) (HN16 : (Z.of_nat N < 2 ^ 16)%Z).
Local Abbreviation St := (@TreeSt P M R).

(** C18: Splitting a full node leaves it and every other block alone. With four
    fifths of it live the fresh nodes are two halves in key order, whose ranges
    partition the fence; otherwise there is one, with what is live. Together
    they hold the live entries, each once, and none of them is unsafe. *)
Theorem split_shares T d I U t (s : St) b n :
  tracker s = None → fresh_ok s → (0 ≤ lower I ≤ upper I)%Z →
  heap s !! b = Some n → node_at F N T d I n U t → unsafe_degree F N n = Overflow →
  ∃ sp s', split F N b I s = Some (sp, s') ∧
    (∀ c m, heap s !! c = Some m → heap s' !! c = Some m) ∧
    match sp with
    | ByKey li l ri r => fill_80 F N d ≤ length U ∧
        ∃ pv nl nr Ul Ur, li = Interval.new (lower I) (pv - 1) ∧ ri = Interval.new pv (upper I) ∧
          (lower I < pv ≤ upper I)%Z ∧ heap s' !! l = Some nl ∧ heap s' !! r = Some nr ∧
          node_at F N T d li nl Ul (length Ul) ∧ node_at F N T d ri nr Ur (length Ur) ∧
          Ul ++ Ur ≡ₚ U ∧ unsafe_degree F N nl = DegreeOk ∧ unsafe_degree F N nr = DegreeOk
    | ByVersion c => length U < fill_80 F N d ∧
        ∃ m V, heap s' !! c = Some m ∧ node_at F N T d I m V (length V) ∧ V ≡ₚ U ∧
          unsafe_degree F N m = DegreeOk
    end.
Proof using All.
  intros Htr Hf HI Hb Hat Hdeg.
  apply (unsafe_degree_overflow F N _ _ _ (node_at_counts _ _ _ _ _ _ _ _ Hat)) in Hdeg as [H40 _].
  destruct (node_at_limits _ _ _ _ _ _ _ _ Hat) as [E20 _]. rewrite E20 in H40.
  pose proof (node_at_bound _ _ _ _ _ _ _ _ Hat) as HU.
  destruct (node_sizes F N HF HN HF16 HN16 d) as (H8 & H20 & Hov & Hov').
  assert (∀ s', grown s s' → ∀ c m, heap s !! c = Some m → heap s' !! c = Some m) as Hgr.
  { intros s' Hg c m Hc. by eapply grown_lookup. }
  pose proof (wp_split F N HF HN HF16 HN16 T d I U t s b n (λ sp s', split_result F N T d I U s s' sp)
    ltac:(done) ltac:(done) ltac:(done) ltac:(done) ltac:(done) (λ sp s' Hs, Hs)) as (sp & s' & E & Hs)%wp_run.
  exists sp, s'. split; [done|].
  destruct Hs as [[H80 (pv & l & r & nl & nr & Ul & Ur & -> & Hg & _ & _ & _ & Hl & Hr & Hatl & Hatr & Hp & Hlen & Hpv)]
    |[H80 (c & m & V & -> & Hg & _ & Hc & Hatm & Hp)]].
  - split; [by apply Hgr|]. split; [exact H80|]. unfold fill_80 in H80. exists pv, nl, nr, Ul, Ur. split_and!; try done; try lia.
    + apply (node_at_degree F N _ _ _ _ _ _ Hatl). lia.
    + apply (node_at_degree F N _ _ _ _ _ _ Hatr). apply Permutation_length in Hp.
      rewrite length_app in Hp. lia.
  - split; [by apply Hgr|]. split; [exact H80|]. unfold fill_80 in H80. exists m, V. split_and!; try done.
    apply (node_at_degree F N _ _ _ _ _ _ Hatm). apply Permutation_length in Hp. lia.
Qed.
End split_theorem.

(** ** Examples *)

(** The root page of the grown tree, and the full leaf below it. *)
Lemma ex_root_page : ∃ es, int_wf 8 (ex_page ex_grown 9) es ∧ index_ok (P:=Z) 30 KEYS es ∧
  n_active es = 3.
Proof.
  destruct ex_grown_inv as (Γ & D & x & H & HI & _).
  destruct (root_on_path 8 8 ex_grown Γ D x H 15 9 (ex_page ex_grown 9) HI)
    as (d & -> & _ & HΓ & _); [reflexivity|vm_compute; reflexivity|reflexivity|].
  destruct (typed_index 8 8 _ _ _ _ _ _ _ (inv_store _ _ _ _ _ _ _ HI) HΓ)
    as (p & es & Hp & Hwf & Hok & _).
  assert (p = ex_page ex_grown 9) as -> by (unfold ex_page; by rewrite Hp).
  exists es. split_and!; [exact Hwf|exact Hok|]. by rewrite -(int_wf_active_len _ _ _ Hwf).
Qed.

Lemma ex_full_leaf : node_counts 8 8 (ex_node ex_grown 7) 8 8.
Proof.
  assert (leaf_wf 8 (match ex_node ex_grown 7 with Leaf p => p | _ => LeafPage.new end)
    (LeafPage.as_records (match ex_node ex_grown 7 with Leaf p => p | _ => LeafPage.new end))) as Hwf.
  { split_and!; [reflexivity|vm_compute; lia|vm_compute; lia|reflexivity|..].
    vm_compute. split_and!; reflexivity. }
  exact (counts_leaf 8 8 _ _ Hwf).
Qed.

Lemma lookups_agree_witness :
  ∃ es : list Entry, read_child (ex_page ex_grown 9) 15 30%Z = active_child (ex_page ex_grown 9) 15 ∧
  ∃ i e, active_child (ex_page ex_grown 9) 15 = Some i ∧
    InternalPage.get_pointer (ex_page ex_grown 9) i = Some (ptr e) ∧
    ∀ j e', es !! j = Some e' →
      (active e' ∧ Interval.contains (fence e') 15 = true) ↔ j = i ∧ e' = e.
Proof.
  destruct ex_root_page as (es & Hwf & Hok & _). exists es.
  apply (lookups_agree (P:=Z) 8 30 KEYS (ex_page ex_grown 9) es 15 30);
    [exact Hwf|exact Hok|reflexivity|lia].
Defined.

Lemma sibling_is_adjacent_witness :
  ∃ (es : list Entry) i e j e', es !! i = Some e ∧
    compute_candidate (merge_candidates (ex_page ex_grown 9) i) (fence e) = Some (j, ptr e', fence e') ∧
    es !! j = Some e' ∧ j ≠ i ∧ active e' ∧ adjacent (fence e) (fence e').
Proof.
  destruct ex_root_page as (es & Hwf & Hok & Hn).
  destruct (child_ok (P:=Z) 8 _ _ _ _ 15 Hwf Hok eq_refl) as (i & e & _ & _ & Hi & He & _).
  exists es, i, e.
  destruct (sibling_is_adjacent (P:=Z) 8 30 KEYS (ex_page ex_grown 9) es i e Hwf Hok Hi He)
    as (j & e' & Hres); [lia|]. exists j, e'. split; [exact Hi|exact Hres].
Defined.

Lemma degree_thresholds_witness :
  let n := ex_node ex_grown 7 in
  (unsafe_degree 8 8 n = Overflow ↔
    2 * filling_20_percent 8 8 n < 8 ∧ overflow_units_count 8 8 n ≤ 8) ∧
  (unsafe_degree 8 8 n = ActiveUnderflow ↔ 8 ≤ filling_20_percent 8 8 n ∨
    (8 ≤ 2 * filling_20_percent 8 8 n ∧ overflow_units_count 8 8 n ≤ 8)) ∧
  (unsafe_degree 8 8 n = DegreeOk ↔
    filling_20_percent 8 8 n < 8 ∧ 8 < overflow_units_count 8 8 n) ∧
  (unsafe_degree_root 8 8 n = ActiveUnderflow ↔ 8 = 1 ∧ Node.is_leaf n = false) ∧
  (unsafe_degree_root 8 8 n = DegreeOk ↔
    (8 ≠ 1 ∨ Node.is_leaf n = true) ∧ 8 < overflow_units_count 8 8 n).
Proof. exact (degree_thresholds 8 8 (ex_node ex_grown 7) 8 8 ex_full_leaf). Defined.

Lemma clone_exact_witness :
  ∃ n', Node.clone 8 8 (ex_node ex_grown 7) = Some n' ∧ node_counts 8 8 n' 8 8 ∧
    Node.as_records n' = Node.as_records (ex_node ex_grown 7) ∧
    Node.keys_versions_pointers n' = Node.keys_versions_pointers (ex_node ex_grown 7).
Proof. exact (clone_exact 8 8 (ex_node ex_grown 7) 8 8 ex_full_leaf). Defined.

Lemma split_shares_witness :
  ∃ (I : Interval) (U : list (Unit Z)) d sp s', split 8 8 7 I ex_grown = Some (sp, s') ∧
    (∀ c m, heap ex_grown !! c = Some m → heap s' !! c = Some m) ∧
    match sp with
    | ByKey li l ri r => fill_80 8 8 d ≤ length U ∧
        ∃ pv nl nr Ul Ur, li = Interval.new (lower I) (pv - 1) ∧ ri = Interval.new pv (upper I) ∧
          (lower I < pv ≤ upper I)%Z ∧ heap s' !! l = Some nl ∧ heap s' !! r = Some nr ∧
          node_at 8 8 30 d li nl Ul (length Ul) ∧ node_at 8 8 30 d ri nr Ur (length Ur) ∧
          Ul ++ Ur ≡ₚ U ∧ unsafe_degree 8 8 nl = DegreeOk ∧ unsafe_degree 8 8 nr = DegreeOk
    | ByVersion c => length U < fill_80 8 8 d ∧
        ∃ m V, heap s' !! c = Some m ∧ node_at 8 8 30 d I m V (length V) ∧ V ≡ₚ U ∧
          unsafe_degree 8 8 m = DegreeOk
    end.
Proof.
  destruct (ex_child ex_grown 9 (ex_page ex_grown 9) 15 1 7 (ex_node ex_grown 7) ex_grown_inv)
    as (Γ & D & x & H & d & Hpc);
    [vm_compute; reflexivity|vm_compute; reflexivity|reflexivity|vm_compute; reflexivity|
     vm_compute; reflexivity|vm_compute; reflexivity|].
  destruct (parent_child_at 8 8 0 ltac:(lia) ltac:(lia) eq_refl eq_refl ex_grown Γ D x H 15 d 9 KEYS false
    (ex_page ex_grown 9) 1 7 (ex_node ex_grown 7) Hpc) as (es & e & U & t & _ & _ & _ & Hnode & _);
    [vm_compute; lia|].
  pose proof (pc_inv _ _ _ _ _ _ _ _ _ _ _ _ _ _ _ _ Hpc) as HI.
  exists (fence e), U, d.
  apply (split_shares 8 8 ltac:(lia) ltac:(lia) eq_refl eq_refl 30 d (fence e) U t ex_grown 7
    (ex_node ex_grown 7));
    [reflexivity|exact (inv_fresh _ _ _ _ _ _ _ HI)|exact (proj1 (no_range _ _ _ _ _ _ _ _ Hnode))|
     vm_compute; reflexivity|exact (no_at _ _ _ _ _ _ _ _ Hnode)|vm_compute; reflexivity].
Defined.
