(* ===== verification/OpTheorems.v ===== *)
(** * What single operations guarantee, and where they do not

    The theorems about the outcome of a transaction
    ([src/src/mv_tx_query/dispatch.rs], [src/src/mv_tx_model/transaction.rs]),
    about the updates in place and the random operations of
    [src/src/mv_query/dispatch.rs], and about the range reads of
    [src/src/mv_query/iter_query.rs], [src/src/mv_query/query.rs] and
    [src/src/lib.rs] at the edges of the key range. *)
From S2P Require Import Prelude OrdMap Version Interval PageLen LeafPage InternalPage Node.
From S2P Require Import Clock Gc RootIndex RetryStats Tree Traversal Query Dispatch Transaction.
From S2P Require Import Units NodeInv Store TreeInv Alloc Mvbt LeafOps Spec Refine Examples PageTheorems.

#[local] Set Default Proof Using "Type*".

(** ** Transactions *)
Section outcome.
Context {P : Type} (Payload_default : P).
Context {M : ∀ K, KeyOrder K → Type → Type} `{!OrdMap M}.
Context {R : Type} `{!RootStore R}.
Context (F N : nat) (me : Tid).
Local Abbreviation St := (@TreeSt P M R).
Local Abbreviation Result := (CRUDOperationResult P).
Implicit Types (s : St) (ops : list (CRUDOperation P)) (ress acc : list Result).
Implicit Types (r : RecordPoint P) (rs : list (RecordPoint P)) (p : LeafPage P).

(** A transaction with one operation and an atomic one are the same thing:
    the conversions are inverse to each other, and a transaction that is not a
    single operation is handed back unchanged. *)
Theorem atomic_roundtrip (tx : Transaction P) (a : AtomicTransaction P) :
  try_into_atomic_transaction (into_transaction a) = Ok a ∧
  match try_into_atomic_transaction tx with
  | Ok b => into_transaction b = tx
  | Err tx' => tx' = tx ∧ length (tx_crud tx) ≠ 1
  end.
Proof.
  destruct tx as [si [|op [|op' ops]]], a; simpl; split; try done; split; done.
Qed.

Lemma dispatch_operations_outcome fuel snapshot si ops : ∀ s acc (r : TransactionResult) s',
  dispatch_operations Payload_default F N me fuel snapshot si ops acc s = Some (r, s') →
  match r with
  | Ok (si', ress) => si' = default U64_MAX si ∧ ∃ new, ress = acc ++ new ∧
      length new = length ops ∧ Forall (λ x, is_err x = false) new
  | Err (rest, ress) => tx_snapshot rest = si ∧ ∃ pre op new s1,
      ops = pre ++ op :: tx_crud rest ∧ ress = (acc ++ new) ++ [OpError] ∧
      length new = length pre ∧ Forall (λ x, is_err x = false) new ∧
      dispatch_operations Payload_default F N me fuel snapshot si pre acc s =
        Some (Ok (default U64_MAX si, acc ++ new), s1) ∧
      dispatch_isolated Payload_default F N me fuel snapshot op s1 = Some (OpError, s')
  end.
Proof.
  induction ops as [|op ops IH]; intros s acc r s'.
  { intros [= <- <-]. split; [done|]. exists []. by rewrite app_nil_r. }
  simpl. unfold mbind, Comp_bind at 1.
  destruct (dispatch_isolated _ _ _ _ _ _ op s) as [[res s1]|] eqn:E; [|done].
  destruct (is_err res) eqn:Ee.
  - intros [= <- <-]. split; [done|]. exists [], op, [], s.
    rewrite app_nil_r. destruct res; done.
  - intros Hr%IH. destruct r as [[si' ress]|[rest ress]].
    + destruct Hr as (-> & new & -> & Hl & Hf). split; [done|]. exists (res :: new).
      rewrite -app_assoc /=. split_and!; [done|by rewrite Hl|by constructor].
    + destruct Hr as (Hsi & pre & op' & new & s2 & -> & -> & Hl & Hf & Hpre & Hop).
      split; [done|]. exists (op :: pre), op', (res :: new), s2.
      rewrite -!app_assoc /= in Hpre |- *. split_and!; [done|done|by rewrite Hl|by constructor| |done].
      unfold mbind, Comp_bind at 1. by rewrite E Ee.
Qed.

(** Whatever its operations are, a transaction that returns has stopped at the
    first one that is an error. *)
Lemma transaction_result_shape fuel (tx : Transaction P) s (r : TransactionResult) s' :
  dispatch_transaction Payload_default F N me fuel tx s = Some (r, s') →
  match r with
  | Ok (si, ress) => si = tx_snapshot_or_max tx ∧ length ress = length (tx_crud tx) ∧
      Forall (λ x, is_err x = false) ress
  | Err (rest, ress) => tx_snapshot rest = tx_snapshot tx ∧ ∃ pre op new s1,
      tx_crud tx = pre ++ op :: tx_crud rest ∧ ress = new ++ [OpError] ∧
      Forall (λ x, is_err x = false) new ∧
      dispatch_transaction Payload_default F N me fuel (mkTx (tx_snapshot tx) pre) s =
        Some (Ok (tx_snapshot_or_max tx, new), s1) ∧
      dispatch_isolated Payload_default F N me fuel (tx_snapshot_or_max tx) op s1 = Some (OpError, s')
  end.
Proof.
  intros Hr%dispatch_operations_outcome. destruct r as [[si ress]|[rest ress]].
  - by destruct Hr as (-> & new & -> & Hl & Hf).
  - destruct Hr as (Hsi & pre & op & new & s1 & Hops & -> & _ & Hf & Hpre & Hop).
    split; [done|]. exists pre, op, new, s1. by split_and!.
Qed.

Lemma dispatch_operations_stop fuel snapshot si pre op rest : ∀ s acc d new s1 s',
  dispatch_operations Payload_default F N me fuel snapshot si pre acc s = Some (Ok (d, new), s1) →
  dispatch_isolated Payload_default F N me fuel snapshot op s1 = Some (OpError, s') →
  dispatch_operations Payload_default F N me fuel snapshot si (pre ++ op :: rest) acc s =
    Some (Err (mkTx si rest, new ++ [OpError]), s').
Proof.
  induction pre as [|op' pre IH]; intros s acc d new s1 s'; simpl; unfold mbind, Comp_bind at 1.
  - intros [= _ <- <-] Hop. by rewrite Hop.
  - destruct (dispatch_isolated _ _ _ _ _ _ op' s) as [[res s2]|] eqn:E; [|done].
    unfold mbind, Comp_bind at 1. rewrite E. destruct (is_err res) eqn:Ee; [done|]. apply IH.
Qed.
End outcome.

(** An operation that asks for nothing is an error; the others here are the point
    operations. *)
Definition point_or_empty {P} (op : CRUDOperation P) : Prop := point_op op ∨ op = OpEmpty.

Lemma first_empty {P} snapshot (ops : list (CRUDOperation P)) :
  Forall point_or_empty (isolate snapshot <$> ops) →
  Forall point_op (isolate snapshot <$> ops) ∨
  ∃ pre rest, ops = pre ++ OpEmpty :: rest ∧ Forall point_op (isolate snapshot <$> pre).
Proof.
  induction ops as [|op ops IH]; [by left|]. intros [Hop [Hops|(pre & rest & -> & Hpre)]%IH]%Forall_cons.
  - destruct Hop as [Hop|Hop]; [left; by constructor|]. right. exists [], ops. by destruct op.
  - right. destruct Hop as [Hop|Hop].
    + exists (op :: pre), rest. split; [done|by constructor].
    + exists [], (pre ++ OpEmpty :: rest). by destruct op.
Qed.

Section errors.
Context {P : Type} (Payload_default : P).
Context {M : ∀ K, KeyOrder K → Type → Type} `{!OrdMap M}.
Context {R : Type} `{!RootStore R, !RootStoreLaws R}.
Context (F N : nat) (me : Tid).
Context (HF : 8 ≤ F) (HN : 8 ≤ N) (HF16 : (Z.of_nat F < 2 ^ 16)%Z) (HN16 : (Z.of_nat N < 2 ^ 16)%Z).
Local Abbreviation St := (@TreeSt P M R).
Implicit Types (s : St) (Γ : gmap BlockRef Ty) (H : History P) (x : Root) (tx : Transaction P).

Lemma run_versions_mono D L n n' : n ≤ n' → run_versions D L n ≤ run_versions D L n'.
Proof using Type.
  clear. intros Hn. unfold run_versions. apply Nat.mul_le_mono; [done|].
  apply Nat.add_le_mono_r, Nat.mul_le_mono_l. lia.
Qed.

(** C36: A transaction of point operations and empty ones returns, and it stops
    at the first that is an error. The operations before it have done what the
    specification says, one answer for each, none of them an error, and the tree
    is good; then either there is no other operation, and the transaction returns
    these answers; or the next one is the empty operation, and it returns them
    with the error, and hands back exactly what was not run. *)
Theorem transaction_outcome s Γ D x H fuel tx :
  let snapshot := tx_snapshot_or_max tx in
  Inv F N s Γ D x H → Forall point_or_empty (isolate snapshot <$> tx_crud tx) →
  (now s + Z.of_nat (run_versions D (length (latches s)) (length (tx_crud tx))) < 2 ^ 63)%Z →
  run_fuel s D (length (tx_crud tx)) ≤ fuel →
  ∃ pre ress s' Γ' D' x' H',
    crud_run H (now s) (isolate snapshot <$> pre) ress H' (now s') ∧ Inv F N s' Γ' D' x' H' ∧
    length ress = length pre ∧ Forall (λ res, is_err res = false) ress ∧
    (tx_crud tx = pre ∧
       dispatch_transaction Payload_default F N me fuel tx s = Some (Ok (snapshot, ress), s') ∨
     ∃ rest, tx_crud tx = pre ++ OpEmpty :: rest ∧
       dispatch_transaction Payload_default F N me fuel tx s =
         Some (Err (mkTx (tx_snapshot tx) rest, ress ++ [OpError]), s')).
Proof using All.
  intros snapshot HI Hops Hlt Hf.
  assert (∀ pre, Forall point_op (isolate snapshot <$> pre) → length pre ≤ length (tx_crud tx) →
    ∃ ress s' Γ' D' x' H',
      dispatch_operations Payload_default F N me fuel snapshot (tx_snapshot tx) pre [] s =
        Some (Ok (snapshot, ress), s') ∧
      crud_run H (now s) (isolate snapshot <$> pre) ress H' (now s') ∧ Inv F N s' Γ' D' x' H' ∧
      length ress = length pre ∧ Forall (λ res, is_err res = false) ress) as Hrun.
  { intros pre Hpre Hle. pose proof (run_versions_mono D (length (latches s)) _ _ Hle).
    assert (wp (dispatch_operations Payload_default F N me fuel snapshot (tx_snapshot tx) pre []) s (λ r s',
      ∃ ress, r = Ok (snapshot, ress) ∧ ran F N s D H (isolate snapshot <$> pre) ress s'))
      as (r & s' & E & ress & -> & Γ' & D' & x' & H' & Hr & HI' & _)%wp_run.
    { eapply (wp_dispatch_operations Payload_default F N me HF HN HF16 HN16); [done|done|lia| |].
      - unfold run_fuel in *. lia.
      - intros ress s' Hr. by exists ress. }
    exists ress, s', Γ', D', x', H'. split_and!; [done|done|done| |by eapply run_no_error].
    by rewrite (run_length _ _ _ _ _ _ Hr) length_fmap. }
  unfold dispatch_transaction. fold snapshot.
  destruct (first_empty snapshot (tx_crud tx) Hops) as [Hall|(pre & rest & E & Hpre)].
  - destruct (Hrun _ Hall (le_n _)) as (ress & s' & Γ' & D' & x' & H' & Hd & H1 & H2 & H3 & H4).
    exists (tx_crud tx), ress, s', Γ', D', x', H'. split_and!; [done..|]. by left.
  - destruct (Hrun pre Hpre) as (ress & s' & Γ' & D' & x' & H' & Hd & H1 & H2 & H3 & H4).
    { rewrite E length_app. simpl. lia. }
    exists pre, ress, s', Γ', D', x', H'. split_and!; [done..|]. right. exists rest. split; [done|].
    rewrite E. by eapply dispatch_operations_stop.
Qed.
End errors.

(** ** Updates in place *)
Section in_place.
Context {P : Type}.
Context {M : ∀ K, KeyOrder K → Type → Type} `{!OrdMap M}.
Context {R : Type} `{!RootStore R}.
Context (N : nat) (me : Tid).
Local Abbreviation St := (@TreeSt P M R).
Implicit Types (s : St) (r : RecordPoint P) (rs : list (RecordPoint P)) (p : LeafPage P).

(** What the record becomes: its payload, and its life again when it was over. *)
Definition updated_record (r : RecordPoint P) (q : P) : RecordPoint P :=
  if VersionInfo.is_deleted (version r)
  then RecordPoint.set_version (RecordPoint.set_payload r q) (VersionInfo.undelete (version r))
  else RecordPoint.set_payload r q.

Lemma updated_record_live r q : live (updated_record r q).
Proof.
  unfold live, updated_record. destruct (VersionInfo.is_deleted (version r)) eqn:E; [done|].
  by rewrite /= E.
Qed.

Lemma leaf_set_wf p rs i (r r' : RecordPoint P) :
  leaf_wf N p rs → rs !! i = Some r → (live r ↔ live r') →
  leaf_wf N (LeafPage.set_record p i r') (<[i := r']> rs).
Proof.
  intros Hwf Hi Hl. pose proof (lookup_lt_Some _ _ _ Hi) as Hlt.
  pose proof (as_records_set_record N p rs i r' Hwf Hlt) as Has.
  pose proof (n_live_insert rs i r r' Hi) as Hn. destruct Hwf as (_ & Hlen & HN & Hc).
  split_and!; [done|rewrite length_insert; simpl; rewrite length_insert; lia|
    simpl; rewrite length_insert; lia|done|..]; rewrite length_insert.
  all: replace (n_live (<[i:=r']> rs)) with (n_live rs) by (do 2 case_decide; tauto || lia); apply Hc.
Qed.

Lemma leaf_revive_wf p rs i (r r' : RecordPoint P) :
  leaf_wf N p rs → rs !! i = Some r → ¬ live r → live r' →
  leaf_wf N (LeafPage.commit_delta (LeafPage.set_record p i r') 1 (-1)) (<[i := r']> rs).
Proof.
  intros Hwf Hi Hd Hl. pose proof (lookup_lt_Some _ _ _ Hi) as Hlt.
  pose proof (leaf_wf_take _ _ _ Hwf) as Htake.
  pose proof (n_live_insert rs i r r' Hi) as Hn. destruct Hwf as (_ & Hlen & HN & Hc).
  rewrite decide_False // decide_True // in Hn.
  pose proof (n_live_le rs). pose proof (n_live_le (<[i:=r']> rs)) as Hle.
  rewrite length_insert in Hle.
  apply leaf_wf_intro; simpl; rewrite ?length_insert; [done|lia..| |].
  - by rewrite take_insert_lt // Htake.
  - eapply len_counts_delta; [exact Hc|lia..].
Qed.

Lemma rfind_cons {A} (f : A → bool) x (l : list A) :
  rfind f (x :: l) = match rfind f l with Some z => Some z | None => if f x then Some x else None end.
Proof.
  change (x :: l) with ([x] ++ l). rewrite rfind_app.
  destruct (rfind f l); [done|]. by rewrite (rfind_snoc f [] x).
Qed.

Lemma rfind_insert_false {A} (f : A → bool) (l : list A) i x y :
  l !! i = Some x → f x = false → f y = false → rfind f (<[i := y]> l) = rfind f l.
Proof.
  intros Hi Hx Hy. rewrite -{2}(take_drop_middle l i x) //.
  rewrite insert_take_drop; [|by eapply lookup_lt_Some].
  by rewrite !rfind_app !rfind_cons Hx Hy.
Qed.

Lemma updated_record_insertion r q : insertion_key (updated_record r q) = insertion_key r.
Proof. unfold updated_record. by destruct (VersionInfo.is_deleted _). Qed.

Lemma not_yet_inserted r v : (v < insertion_key r)%Z → VersionInfo.matches (version r) v = false.
Proof.
  intros Hv. destruct (VersionInfo.matches _ _) eqn:E; [|done].
  apply matches_visible in E as [Hi _]. unfold insertion_key, VersionInfo.insertion_version in Hv. lia.
Qed.

Lemma read_record_rfind rs k v :
  read_record rs k v = rfind (λ r, (key r =? k)%Z && VersionInfo.matches (version r) v) rs.
Proof.
  unfold read_record. rewrite skip_while_filter; [apply head_filter_reverse|].
  intros r Hr%Z.ltb_lt [_ Hm]%andb_true_iff. by rewrite not_yet_inserted in Hm.
Qed.

Lemma read_record_updated rs i r q k v :
  rs !! i = Some r → (v < insertion_key r)%Z →
  read_record (<[i := updated_record r q]> rs) k v = read_record rs k v.
Proof.
  intros Hi Hv. rewrite !read_record_rfind. eapply rfind_insert_false; [done|..].
  - by rewrite not_yet_inserted // andb_false_r.
  - rewrite (not_yet_inserted (updated_record r q)) ?andb_false_r //. by rewrite updated_record_insertion.
Qed.

Lemma wp_update_record leaf p rs i r q s (Q : () → St → Prop) :
  heap s !! leaf = Some (Leaf p) → leaf_wf N p rs → rs !! i = Some r →
  (∀ p' s', heap s' = <[leaf := Leaf p']> (heap s) → clock s' = clock s → root s' = root s →
    leaf_wf N p' (<[i := updated_record r q]> rs) → Q () s') →
  wp (update_record leaf i r q) s Q.
Proof.
  intros Hp Hwf Hi HQ. pose proof (updated_record_live r q) as Hl.
  unfold update_record, updated_record in *. destruct (VersionInfo.is_deleted (version r)) eqn:E.
  - apply wp_bind. eapply wp_update_leaf; [done|done|]. cbn beta.
    eapply wp_update_leaf; [by rewrite /= lookup_insert_eq|done|].
    eapply HQ; simpl; [by rewrite insert_insert_eq|done..|]. eapply leaf_revive_wf; try done.
    unfold live. by rewrite E.
  - eapply wp_update_leaf; [done|done|]. eapply HQ; [done..|]. by eapply leaf_set_wf.
Qed.

(** An update in place, which is done when no reader can see the newest
    record of the key, draws no version: it overwrites that record, keeps the
    page well-formed, and changes no read at a version before the record. It
    also brings a deleted key back to life, where the versioned update answers
    that the key is already deleted. *)
Theorem update_in_place_exact leaf k q s t p rs i r :
  tracker s = Some t → update_in_place s = true → heap s !! leaf = Some (Leaf p) →
  leaf_wf N p rs → find_key p k = Some (i, r) →
  match newest_live_si t with Some si => (si < insertion_key r)%Z | None => True end →
  ∃ p' s', update_at_leaf N me leaf k q s = Some (Updated (clock_time (clock s)), s') ∧
    heap s' = <[leaf := Leaf p']> (heap s) ∧ clock s' = clock s ∧ root s' = root s ∧
    leaf_wf N p' (<[i := updated_record r q]> rs) ∧ live (updated_record r q) ∧
    ∀ k' v, (v < insertion_key r)%Z →
      read_record (<[i := updated_record r q]> rs) k' v = read_record rs k' v.
Proof.
  intros Ht Hip Hp Hwf Hf Hsi.
  assert (in_place_target p k (Some t) true = Some (i, r)) as Htarget.
  { unfold in_place_target. destruct (newest_live_si t) as [si|]; [|done].
    by rewrite Hf (proj2 (Z.ltb_lt _ _) Hsi). }
  apply (find_key_Some N _ rs) in Hf as (_ & Hi & _); [|done].
  assert (wp (update_at_leaf N me leaf k q) s (λ res s', res = Updated (clock_time (clock s)) ∧
    ∃ p', heap s' = <[leaf := Leaf p']> (heap s) ∧ clock s' = clock s ∧ root s' = root s ∧
      leaf_wf N p' (<[i := updated_record r q]> rs))) as (res & s' & E & -> & p' & H1 & H2 & H3 & H4)%wp_run.
  { unfold update_at_leaf. apply wp_bind. eapply wp_get_leaf; [done|]. cbn beta zeta.
    apply wp_bind, wp_gets, wp_bind, wp_gets. rewrite Ht Hip Htarget.
    apply wp_bind. eapply wp_update_record; [done..|]. intros p' s' H1 H2 H3 H4.
    unfold current_version. wp_steps. split.
    - unfold GlobalClock.current_version. by rewrite H2.
    - by exists p'. }
  exists p', s'. split_and!; try done; [apply updated_record_live|].
  intros k' v Hv. by apply read_record_updated.
Qed.

(** A random update or delete that arrives at a leaf without live records
    panics: there is nothing to draw from. *)
Theorem random_write_on_dead_leaf (Payload_default : P) leaf s p rs :
  heap s !! leaf = Some (Leaf p) → leaf_wf N p rs → n_live rs = 0 →
  update_rand_at_leaf Payload_default N me leaf s = None ∧
  delete_rand_at_leaf (P:=P) me leaf s = None.
Proof.
  intros Hp Hwf H0.
  assert (get_leaf leaf s = Some (p, s)) as Hg.
  { unfold get_leaf, read_block, mbind, Comp_bind, gets. simpl. by rewrite Hp. }
  assert (random_live_key p s = None) as Hr.
  { unfold random_live_key. by rewrite (leaf_wf_active _ _ _ Hwf) H0. }
  unfold update_rand_at_leaf, delete_rand_at_leaf.
  rewrite !(bind_comp_eq _ _ _ _ _ Hg). unfold mbind, Comp_bind. by rewrite Hr.
Qed.
End in_place.

(** ** The defects, on small trees *)

(** A random update in place of a live record takes a dead record off a page
    that has none: both counters wrap around, and the page of one record claims
    131070 committed ones. *)
Theorem random_update_breaks_counters :
  ∃ s' p', update_rand_at_leaf 0%Z 8 0 0 ex_in_place = Some (UpdatedRand 1 1, s')%Z ∧
    heap s' !! 0 = Some (Leaf p') ∧ length (record_data p') = 1 ∧
    from_len (leaf_len p') = (65535, 65535)%Z.
Proof. eexists _, _. split; [vm_compute; reflexivity|]. by split_and!. Qed.

(** A scan returns the records of a leaf in the order of their insertion and
    not by key, and a scan of no records from the key 0 returns all there are,
    as the end of its range wraps around. *)
Theorem scan_order_and_wrap :
  (∃ s', api_scan 0%Z 8 8 0 3000 0 5 ex_unsorted = Some (Some [(2, 20); (1, 10); (3, 30)], s')%Z) ∧
  (∃ s', api_scan 0%Z 8 8 0 3000 0 0 ex_unsorted = Some (Some [(2, 20); (1, 10); (3, 30)], s')%Z).
Proof. split; eexists; vm_compute; reflexivity. Qed.

(** Once a range iterator over an internal root has returned the record of
    the greatest key it returns it again and again: [next] leaves the iterator
    as it was, and collecting the range never ends. *)
Theorem range_at_max_repeats :
  let range := Interval.new U64_MAX U64_MAX in
  (∃ it s', iter_new 0 100%Z range ex_max = Some (it, s') ∧
    iter_next 3 it s' = Some ((Some (U64_MAX, 1%Z), it), s')) ∧
  ∀ fuel, dispatch_crud 0%Z 8 8 0 fuel (OpRange range 100%Z) ex_max = None.
Proof.
  assert (∃ it s', iter_new 0 100%Z (Interval.new U64_MAX U64_MAX) ex_max = Some (it, s') ∧
    ∀ d, iter_next d it s' = if decide (d < 2) then None
      else Some ((Some (U64_MAX, 1%Z), it), s')) as (it & s' & E & Hnext).
  { eexists _, _. split; [vm_compute; reflexivity|]. intros [|[|d]]; reflexivity. }
  split; [exists it, s'; split; [done|by rewrite Hnext]|]. intros fuel.
  assert (∀ n, iter_collect n fuel it s' = None) as Hc.
  { intros n. induction n as [|n IH]; [done|]. simpl. unfold mbind, Comp_bind at 1.
    rewrite Hnext. case_decide; [done|]. unfold mbind, Comp_bind at 1. by rewrite IH. }
  unfold dispatch_crud, RANGE_DISPATCH_LAZY. rewrite (bind_comp_eq _ _ _ _ _ E).
  unfold mbind, Comp_bind at 1. by rewrite Hc.
Qed.

(** The eager range read, which the lazy one has replaced, does not see a
    record at the very version it was inserted under; the point read does. *)
Theorem eager_range_misses_own_version :
  let rs := [RecordPoint.new 7 (VersionInfo.new 5) 70%Z]%Z in
  range_records rs (Interval.new 0 10) 5%Z = [] ∧
  RecordPoint.result_from <$> read_record rs 7 5%Z = Some (7, 70)%Z ∧
  range_records rs (Interval.new 0 10) 6%Z = [(7, 70)]%Z.
Proof. by vm_compute. Qed.

(** ** Examples *)
Definition ex_error_tx : Transaction Z :=
  mkTx None [OpInsert 2 20; OpEmpty; OpInsert 3 30]%Z.

Lemma transaction_outcome_witness :
  let snapshot := tx_snapshot_or_max ex_error_tx in
  ∃ Γ D x H, Inv 8 8 ex_grown Γ D x H ∧
  ∃ pre ress s' Γ' D' x' H',
    crud_run H (now ex_grown) (isolate snapshot <$> pre) ress H' (now s') ∧ Inv 8 8 s' Γ' D' x' H' ∧
    length ress = length pre ∧ Forall (λ res, is_err res = false) ress ∧
    (tx_crud ex_error_tx = pre ∧
       dispatch_transaction 0%Z 8 8 0 3000 ex_error_tx ex_grown = Some (Ok (snapshot, ress), s') ∨
     ∃ rest, tx_crud ex_error_tx = pre ++ OpEmpty :: rest ∧
       dispatch_transaction 0%Z 8 8 0 3000 ex_error_tx ex_grown =
         Some (Err (mkTx (tx_snapshot ex_error_tx) rest, ress ++ [OpError]), s')).
Proof.
  destruct ex_grown_inv as (Γ & D & x & H & HI & HD). exists Γ, D, x, H. split; [exact HI|].
  destruct (ex_grown_run D 3 HD) as [Hb1 Hb2]; [lia|].
  apply (transaction_outcome 0%Z 8 8 0 ltac:(lia) ltac:(lia) eq_refl eq_refl ex_grown Γ D x H 3000 ex_error_tx);
    [exact HI| |assumption|assumption].
  repeat constructor; by left || by right.
Defined.

Definition ex_leaf (s : ExSt) (b : BlockRef) : LeafPage Z :=
  match heap s !! b with Some (Leaf p) => p | _ => LeafPage.new end.

Lemma ex_in_place_wf : leaf_wf 8 (ex_leaf ex_in_place 0) (LeafPage.as_records (ex_leaf ex_in_place 0)).
Proof.
  split_and!; [reflexivity|vm_compute; lia|vm_compute; lia|reflexivity|].
  vm_compute. split_and!; reflexivity.
Qed.

(** No reader is registered, so the record of the key 1 is overwritten. *)
Lemma update_in_place_exact_witness :
  ∃ i r p' s', update_at_leaf 8 0 0 1 7%Z ex_in_place =
      Some (Updated (clock_time (clock ex_in_place)), s') ∧
    heap s' = <[0 := Leaf p']> (heap ex_in_place) ∧ clock s' = clock ex_in_place ∧
    root s' = root ex_in_place ∧
    leaf_wf 8 p' (<[i := updated_record r 7%Z]> (LeafPage.as_records (ex_leaf ex_in_place 0))) ∧
    live (updated_record r 7%Z) ∧
    ∀ k' v, (v < insertion_key r)%Z →
      read_record (<[i := updated_record r 7%Z]> (LeafPage.as_records (ex_leaf ex_in_place 0))) k' v =
      read_record (LeafPage.as_records (ex_leaf ex_in_place 0)) k' v.
Proof.
  exists 0, (RecordPoint.new 1 (VersionInfo.new 1%Z) 10%Z).
  apply (update_in_place_exact 8 0 0 1 7%Z ex_in_place tracker_new (ex_leaf ex_in_place 0)
    (LeafPage.as_records (ex_leaf ex_in_place 0)) 0 (RecordPoint.new 1 (VersionInfo.new 1%Z) 10%Z));
    [reflexivity|reflexivity|reflexivity|exact ex_in_place_wf|reflexivity|exact I].
Defined.

Lemma random_write_on_dead_leaf_witness :
  update_rand_at_leaf 0%Z 8 0 0 ex_new = None ∧ delete_rand_at_leaf (P:=Z) 0 0 ex_new = None.
Proof.
  apply (random_write_on_dead_leaf 8 0 0%Z 0 ex_new LeafPage.new []);
    [reflexivity|apply leaf_new_wf; reflexivity|reflexivity].
Defined.
