(* ===== verification/DexaLocking.v ===== *)
(** * Locking strategies of the baseline trees

    [src/src/dexa/mvb_locking/locking_strategy.rs], and what
    [src/src/dexa/mvb_tree/bplus_tree.rs] makes of a strategy: which kind of
    guard a traversal asks for at which level and attempt. The fractions of the
    height are single-precision floats, taken from the Standard Library's
    executable specification of IEEE 754. *)
From S2P Require Import Prelude.
From Stdlib Require Import SpecFloat.
Local Open Scope Z_scope.

(** [Level] and [Height] are [u16], [Attempts] is [u32]. *)
Definition Level := Z.
Definition Height := Z.
Definition Attempts := Z.
Definition LockLevel := Z.
Definition U16_MAX : Z := 2 ^ 16 - 1.
Definition u16_wrap (z : Z) : Z := z `mod` 2 ^ 16.
Definition INIT_TREE_HEIGHT : Height := 1.
Definition MAX_TREE_HEIGHT : Height := U16_MAX.

(** ** [f32] *)
Definition f32 := spec_float.
Definition f32_one : f32 := S754_finite false 8388608 (-23).
Definition f32_MAX : f32 := S754_finite false 16777215 104.
Definition f32_of_Z (z : Z) : f32 := binary_normalize 24 128 z 0 false.
Definition f32_mul (x y : f32) : f32 := SFmul 24 128 x y.
Definition f32_le (x y : f32) : bool := SFleb x y.

(** [f as u16] truncates and saturates; a NaN becomes 0. *)
Definition f32_to_u16 (x : f32) : Z :=
  match x with
  | S754_zero _ | S754_nan => 0
  | S754_infinity s => if s then 0 else U16_MAX
  | S754_finite s m e =>
      if s then 0
      else Z.min U16_MAX (if 0 <=? e then Zpos m * 2 ^ e else Zpos m / 2 ^ (- e))
  end.

(** [LevelExtras::is_lock] *)
Definition is_lock (self : Level) (height : Height) (lock_from : f32) : bool :=
  f32_to_u16 (f32_mul lock_from (f32_of_Z height)) <=? self.

(** ** The strategies *)
Inductive LatchType :=
  | Exclusive | ReadersWriter | Optimistic | Hybrid | LightWeightHybrid | NoLatch.

Inductive LockingStrategy :=
  | MonoWriter
  | LockCoupling
  | ORWC (write_level : f32) (write_attempt : Attempts)
  | OLC
  | LightweightHybridLock (read_level : f32) (read_attempt : Attempts)
      (write_level : f32) (write_attempt : Attempts)
  | HybridLocking (read_attempt : Attempts).

Definition LHL_read (read_attempt : Attempts) : LockingStrategy :=
  LightweightHybridLock f32_one read_attempt f32_MAX U32_MAX.
Definition LHL_write (write_attempt : Attempts) : LockingStrategy :=
  LightweightHybridLock f32_MAX U32_MAX f32_one write_attempt.
Definition LHL_read_write (write_attempt read_attempt : Attempts) : LockingStrategy :=
  LightweightHybridLock f32_one read_attempt f32_one write_attempt.
Definition lightweight_hybrid_lock : LockingStrategy := LHL_read 4.
Definition lightweight_hybrid_lock_unlimited : LockingStrategy :=
  LightweightHybridLock f32_MAX U32_MAX f32_MAX U32_MAX.
Definition hybrid_lock_attempts (attempts : Attempts) : LockingStrategy := HybridLocking attempts.
Definition hybrid_lock : LockingStrategy := hybrid_lock_attempts 1.
Definition orwc_attempts (attempts : Attempts) : LockingStrategy := ORWC f32_one attempts.
Definition orwc : LockingStrategy := orwc_attempts 4.

Definition latch_type (self : LockingStrategy) : LatchType :=
  match self with
  | MonoWriter => NoLatch
  | LockCoupling => Exclusive
  | ORWC _ _ => ReadersWriter
  | OLC => Optimistic
  | LightweightHybridLock _ _ _ _ => LightWeightHybrid
  | HybridLocking _ => Hybrid
  end.

Definition is_optimistic (self : LockingStrategy) : bool :=
  match self with
  | OLC | HybridLocking _ | LightweightHybridLock _ _ _ _ => true
  | _ => false
  end.

Definition is_mono_writer (self : LockingStrategy) : bool :=
  match self with MonoWriter => true | _ => false end.

Definition is_orwc (self : LockingStrategy) : bool :=
  match self with ORWC _ _ => true | _ => false end.

Definition is_hybrid_lock (self : LockingStrategy) : bool :=
  match self with HybridLocking _ => true | _ => false end.

Definition is_lightweight_hybrid_lock (self : LockingStrategy) : bool :=
  match self with LightweightHybridLock _ _ _ _ => true | _ => false end.

Definition additional_lock_required (self : LockingStrategy) : bool :=
  match self with MonoWriter | LockCoupling => false | _ => true end.

(** ** What a traversal borrows

    The methods of [SmartCell] the tree calls. *)
Inductive Borrow := BorrowFree | BorrowMut | BorrowPin | BorrowRead | BorrowReadHybrid.

Definition lock_reader (st : LockingStrategy) : Borrow :=
  match st with
  | MonoWriter => BorrowFree
  | LockCoupling => BorrowMut
  | _ => BorrowRead
  end.

Definition lock_reader_olc (st : LockingStrategy) (curr_level : Level) (attempt : Attempts)
    (height : Height) : Borrow :=
  match st with
  | MonoWriter => BorrowFree
  | LockCoupling => BorrowMut
  | LightweightHybridLock read_level read_attempt _ _ =>
      if f32_le read_level f32_one &&
         ((read_attempt <=? attempt) || is_lock curr_level height read_level)
      then BorrowPin else BorrowRead
  | HybridLocking read_attempt =>
      if read_attempt <=? attempt then BorrowReadHybrid else BorrowRead
  | _ => BorrowRead
  end.

Definition apply_for_ref (st : LockingStrategy) (curr_level max_level : Level)
    (attempt : Attempts) (height : Level) : Borrow :=
  match st with
  | MonoWriter => BorrowFree
  | LockCoupling => BorrowMut
  | ORWC write_level write_attempt =>
      if (height <=? curr_level) || (max_level <=? curr_level) || (write_attempt <=? attempt)
         || is_lock curr_level height write_level
      then BorrowMut else BorrowRead
  | LightweightHybridLock _ _ write_level write_attempt =>
      if f32_le write_level f32_one &&
         ((height <=? curr_level) || (max_level <=? curr_level) || (write_attempt <=? attempt)
          || is_lock curr_level height write_level)
      then BorrowPin else BorrowRead
  | HybridLocking _ => if max_level <=? curr_level then BorrowMut else BorrowRead
  | OLC => BorrowRead
  end.

(** ** What the levels mean

    No tree of 64-bit keys is higher than 64. *)
Lemma is_lock_table :
  forallb (λ h, (f32_to_u16 (f32_mul f32_one (f32_of_Z (Z.of_nat h))) =? Z.of_nat h) &&
    ((h =? 0)%nat || (f32_to_u16 (f32_mul f32_MAX (f32_of_Z (Z.of_nat h))) =? U16_MAX)))
    (seq 0 65) = true.
Proof. vm_compute. reflexivity. Qed.

Lemma is_lock_entry height :
  0 ≤ height ≤ 64 →
  f32_to_u16 (f32_mul f32_one (f32_of_Z height)) = height ∧
  (0 < height → f32_to_u16 (f32_mul f32_MAX (f32_of_Z height)) = U16_MAX).
Proof.
  intros Hh. pose proof is_lock_table as Ht. rewrite forallb_forall in Ht.
  specialize (Ht (Z.to_nat height)). rewrite Z2Nat.id in Ht; [|lia].
  destruct (andb_prop _ _ (Ht ltac:(apply in_seq; lia))) as [H1 H2].
  apply Z.eqb_eq in H1. split; [done|]. intros H0. apply orb_prop in H2 as [H2|H2].
  - apply Nat.eqb_eq in H2. lia.
  - by apply Z.eqb_eq in H2.
Qed.

(** A fraction of one locks the nodes at the height of the tree and below, the
    greatest float nothing of a tree. *)
Lemma is_lock_exact level height :
  0 ≤ level ≤ U16_MAX → 0 ≤ height ≤ 64 →
  is_lock level height f32_one = (height <=? level) ∧
  (0 < height → level < U16_MAX → is_lock level height f32_MAX = false).
Proof.
  intros Hl [H1 H2]%is_lock_entry. unfold is_lock. rewrite H1. split; [done|].
  intros H0 Hlt. rewrite H2; [|done]. lia.
Qed.

(** At a height of 1 the coupling of readers and writers locks every node
    exclusively, whatever its parameters. *)
Lemma orwc_at_height_one write_level write_attempt curr_level max_level attempt :
  1 ≤ curr_level →
  apply_for_ref (ORWC write_level write_attempt) curr_level max_level attempt 1 = BorrowMut.
Proof. intros Hc. simpl. by rewrite (proj2 (Z.leb_le _ _) Hc). Qed.
