(* ===== verification/DexaCell.v ===== *)
(** * The cells of the baseline trees

    [src/src/dexa/mvb_utils/smart_cell.rs]: a block of a tree sits in a cell of
    one of six flavours, with no latch, a mutex, a readers-writer lock, or a
    version word with a write, a pin and an obsolete flag; the guard a thread
    holds depends on the flavour and on how the block was borrowed. Every
    operation on cells and guards is a function here; a compare-exchange does
    not fail spuriously. *)
From S2P Require Import Prelude DexaLocking.
Local Open Scope Z_scope.

Definition LatchVersion := Z.
Definition OBSOLETE_FLAG_VERSION : LatchVersion := 0x8000000000000000.
Definition WRITE_FLAG_VERSION : LatchVersion := 0x4000000000000000.
Definition PIN_FLAG_VERSION : LatchVersion := 0x2000000000000000.
Definition ZEROED_FLAG_VERSION : LatchVersion := 0.
Definition WRITE_OBSOLETE_FLAG_VERSION : LatchVersion := 0xC000000000000000.
Definition WRITE_PIN_FLAG_VERSION : LatchVersion := 0x6000000000000000.
Definition WRITE_PIN_OBSOLETE_FLAG_VERSION : LatchVersion := 0xE000000000000000.
Definition CELL_START_VERSION : LatchVersion := 0.

(** ** The version word *)
Module OptCell.
Definition unpinned (v : LatchVersion) : LatchVersion := Z.land v (u64_not PIN_FLAG_VERSION).
Definition readable (v : LatchVersion) : bool := Z.land v WRITE_OBSOLETE_FLAG_VERSION =? 0.

Definition read_lock (word : LatchVersion) : bool * LatchVersion :=
  (readable word, unpinned word).

(** [Err] carries whether the cell can be read, and the version read. *)
Definition pin_lock (word : LatchVersion)
    : result LatchVersion (bool * LatchVersion) * LatchVersion :=
  if negb (Z.land word PIN_FLAG_VERSION =? 0) then (Err (true, unpinned word), word)
  else if negb (readable word) then (Err (false, word), word)
  else (Ok (Z.lor word PIN_FLAG_VERSION), Z.lor word PIN_FLAG_VERSION).

Definition write_unpin (pin_lock : LatchVersion) : LatchVersion :=
  Z.lxor pin_lock PIN_FLAG_VERSION.

Definition is_read_valid (word read_latch : LatchVersion) : bool :=
  (read_latch =? unpinned word) && readable word.

Definition pin_write_lock (read_version_pin : LatchVersion) : LatchVersion :=
  Z.lor WRITE_FLAG_VERSION (unpinned read_version_pin).

(** [write_lock] and [write_lock_strong]. *)
Definition write_lock (word read_version : LatchVersion)
    : option LatchVersion * LatchVersion :=
  if word =? read_version
  then (Some (Z.lor WRITE_FLAG_VERSION read_version), Z.lor WRITE_FLAG_VERSION read_version)
  else (None, word).

Definition write_unlock (write_version : LatchVersion) : LatchVersion :=
  Z.lxor (u64_wrap (write_version + 1)) WRITE_FLAG_VERSION.

Definition write_obsolete : LatchVersion := OBSOLETE_FLAG_VERSION.
Definition write_obsolete_with_latch (latch : LatchVersion) : LatchVersion :=
  Z.lor OBSOLETE_FLAG_VERSION latch.

Definition is_read_not_obsolete (word : LatchVersion) : bool := readable word.
Definition is_read_not_obsolete_result (word : LatchVersion) : bool * LatchVersion :=
  (readable word, word).
End OptCell.

(** A [parking_lot] lock: the readers that hold it, and whether a writer does. *)
Record RwLock := mkRw { rw_readers : nat; rw_writer : bool }.
Definition rw_new : RwLock := mkRw 0 false.

Definition try_read (rw : RwLock) : option RwLock :=
  if rw_writer rw then None else Some (mkRw (S (rw_readers rw)) false).
Definition try_write (rw : RwLock) : option RwLock :=
  if rw_writer rw || negb (rw_readers rw =? 0)%nat then None else Some (mkRw 0 true).
Definition unlock_read (rw : RwLock) : RwLock := mkRw (rw_readers rw - 1) (rw_writer rw).
Definition unlock_write (rw : RwLock) : RwLock := mkRw (rw_readers rw) false.
Definition downgrade_write (rw : RwLock) : RwLock := mkRw (S (rw_readers rw)) false.

Inductive SmartFlavor :=
  | FreeCell
  | ExclusiveCell (mutex : bool)
  | ReadersWriterCell (rw : RwLock)
  | OLCCell (cell_version : LatchVersion)
  | LightWeightHybridCell (cell_version : LatchVersion)
  | HybridCell (cell_version : LatchVersion) (rw : RwLock).

Inductive SmartGuard :=
  | LockFree
  | RwReader
  | RwWriter
  | MutExclusive
  | OLCReader (read : option LatchVersion)
  | OLCWriter (latch : LatchVersion)
  | OLCReaderPin (pin_latch : LatchVersion)
  | OLCAppendPin (pin_latch : LatchVersion)
  | HybridRwReader (latch : LatchVersion)
  | HybridRwWriter (latch : LatchVersion).

Implicit Types (c : SmartFlavor) (g : SmartGuard).

(** A reader's [try_read] on a hybrid cell is released at once. *)
Definition flavor_is_read_valid c (read_version : LatchVersion) : bool :=
  match c with
  | OLCCell word | LightWeightHybridCell word => OptCell.is_read_valid word read_version
  | HybridCell word rw => bool_decide (is_Some (try_read rw)) && OptCell.is_read_valid word read_version
  | _ => true
  end.

Definition flavor_is_read_not_obsolete_result c : bool * LatchVersion :=
  match c with
  | OLCCell word | LightWeightHybridCell word => OptCell.is_read_not_obsolete_result word
  | HybridCell word rw =>
      match try_read rw with
      | Some _ => OptCell.is_read_not_obsolete_result word
      | None => (false, 0)
      end
  | _ => (true, 0)
  end.

(** ** Borrowing

    [None] is an [unreachable!], or a thread that blocks. *)
Definition borrow_free c : option (SmartGuard * SmartFlavor) :=
  match c with FreeCell => Some (LockFree, c) | _ => None end.

Definition borrow_read_hybrid c : option (SmartGuard * SmartFlavor) :=
  match c with
  | HybridCell word rw => rw ← try_read rw; Some (HybridRwReader word, HybridCell word rw)
  | _ => None
  end.

Definition optimistic_reader (word : LatchVersion) : SmartGuard :=
  let '(success, read) := OptCell.read_lock word in
  OLCReader (if success then Some read else None).

Definition borrow_read c : option (SmartGuard * SmartFlavor) :=
  match c with
  | OLCCell word | HybridCell word _ | LightWeightHybridCell word =>
      Some (optimistic_reader word, c)
  | ExclusiveCell mutex => if mutex then None else Some (MutExclusive, ExclusiveCell true)
  | ReadersWriterCell rw => rw ← try_read rw; Some (RwReader, ReadersWriterCell rw)
  | FreeCell => Some (LockFree, c)
  end.

Definition borrow_pin c : option (SmartGuard * SmartFlavor) :=
  match c with
  | LightWeightHybridCell word =>
      let '(res, word) := OptCell.pin_lock word in
      Some (match res with
            | Ok pin_latch => OLCReaderPin pin_latch
            | Err (true, read_latch) => OLCReader (Some read_latch)
            | Err (false, _) => OLCReader None
            end, LightWeightHybridCell word)
  | _ => Some (OLCReader None, c)
  end.

Definition borrow_mut_word (word : LatchVersion) : SmartGuard * LatchVersion :=
  if negb (Z.land word WRITE_PIN_OBSOLETE_FLAG_VERSION =? 0) then (OLCReader None, word)
  else
    match OptCell.write_lock word word with
    | (Some latched, word) => (OLCWriter latched, word)
    | (None, word) => (OLCReader None, word)
    end.

Definition borrow_mut c : option (SmartGuard * SmartFlavor) :=
  match c with
  | FreeCell => Some (LockFree, c)
  | ReadersWriterCell rw => rw ← try_write rw; Some (RwWriter, ReadersWriterCell rw)
  | OLCCell word => let '(g, word) := borrow_mut_word word in Some (g, OLCCell word)
  | LightWeightHybridCell word =>
      let '(g, word) := borrow_mut_word word in Some (g, LightWeightHybridCell word)
  | HybridCell word rw =>
      match try_write rw with
      | None => Some (OLCReader None, c)
      | Some rw' =>
          let '(read, read_version) := OptCell.is_read_not_obsolete_result word in
          if negb read then Some (OLCReader None, c)
          else
            match OptCell.write_lock word read_version with
            | (Some write_latch, word) => Some (HybridRwWriter write_latch, HybridCell word rw')
            | (None, word) => Some (OLCReader None, HybridCell word rw)
            end
      end
  | ExclusiveCell mutex => if mutex then None else Some (MutExclusive, ExclusiveCell true)
  end.

(** ** Upgrading *)
Definition upgrade_write_lock g c : option (bool * SmartGuard * SmartFlavor) :=
  match g with
  | LockFree | RwWriter | HybridRwWriter _ | MutExclusive | OLCWriter _ => Some (true, g, c)
  | RwReader =>
      match c with
      | ReadersWriterCell rw =>
          match try_write (unlock_read rw) with
          | Some rw => Some (true, RwWriter, ReadersWriterCell rw)
          | None => Some (false, OLCReader None, ReadersWriterCell (unlock_read rw))
          end
      | _ => None
      end
  | OLCReader (Some read_latch) =>
      match c with
      | OLCCell word =>
          match OptCell.write_lock word read_latch with
          | (Some write_latch, word) => Some (true, OLCWriter write_latch, OLCCell word)
          | (None, word) => Some (false, g, OLCCell word)
          end
      | LightWeightHybridCell word =>
          match OptCell.write_lock word read_latch with
          | (Some write_latch, word) => Some (true, OLCWriter write_latch, LightWeightHybridCell word)
          | (None, word) => Some (false, g, LightWeightHybridCell word)
          end
      | HybridCell word rw =>
          match try_write rw with
          | Some rw' =>
              if negb (OptCell.readable word) then Some (false, g, c)
              else
                match OptCell.write_lock word word with
                | (Some write_latch, word) =>
                    Some (true, HybridRwWriter write_latch, HybridCell word rw')
                | (None, word) => Some (false, g, HybridCell word rw)
                end
          | None => Some (false, g, c)
          end
      | _ => Some (false, g, c)
      end
  | OLCReaderPin pin_latch =>
      match c with
      | LightWeightHybridCell _ =>
          let word := OptCell.pin_write_lock pin_latch in
          Some (true, OLCWriter word, LightWeightHybridCell word)
      | _ => None
      end
  | _ => Some (false, g, c)
  end.

Definition pin_upgrade g (word : LatchVersion) : bool * SmartGuard * LatchVersion :=
  match OptCell.pin_lock word with
  | (Ok pin_latch, word) => (true, OLCAppendPin pin_latch, word)
  | (Err _, word) => (false, g, word)
  end.

Definition upgrade_append_lock g c : option (bool * SmartGuard * SmartFlavor) :=
  match g with
  | OLCReader (Some _) =>
      match c with
      | OLCCell word =>
          let '(ok, g, word) := pin_upgrade g word in Some (ok, g, OLCCell word)
      | LightWeightHybridCell word =>
          let '(ok, g, word) := pin_upgrade g word in Some (ok, g, LightWeightHybridCell word)
      | _ => upgrade_write_lock g c
      end
  | OLCReaderPin pin_latch => Some (true, OLCAppendPin pin_latch, c)
  | _ => upgrade_write_lock g c
  end.

(** ** Marking, downgrading and dropping *)
Definition guard_mark_obsolete g c : SmartGuard * SmartFlavor :=
  match g with
  | OLCWriter latch =>
      match c with
      | OLCCell _ => (g, OLCCell OptCell.write_obsolete)
      | HybridCell _ rw => (g, HybridCell OptCell.write_obsolete rw)
      | LightWeightHybridCell _ =>
          (OLCWriter ZEROED_FLAG_VERSION, LightWeightHybridCell OptCell.write_obsolete)
      | _ => (g, c)
      end
  | HybridRwWriter latch =>
      match c with
      | HybridCell _ rw =>
          (HybridRwWriter (Z.lor latch OBSOLETE_FLAG_VERSION),
           HybridCell (OptCell.write_obsolete_with_latch latch) rw)
      | _ => (g, c)
      end
  | _ => (g, c)
  end.

Definition downgrade g c : SmartGuard * SmartFlavor :=
  match g, c with
  | RwWriter, ReadersWriterCell rw => (RwReader, ReadersWriterCell (downgrade_write rw))
  | OLCWriter latch, OLCCell _ =>
      if Z.land latch OBSOLETE_FLAG_VERSION =? 0 then
        (OLCReader (Some (Z.land (u64_wrap (latch + 1)) (u64_not WRITE_FLAG_VERSION))),
         OLCCell (OptCell.write_unlock latch))
      else (g, c)
  | OLCAppendPin latch, OLCCell _ | OLCReaderPin latch, OLCCell _ =>
      (OLCReader (Some (Z.lxor latch PIN_FLAG_VERSION)), OLCCell (OptCell.write_unpin latch))
  | _, _ => (g, c)
  end.

(** Dropping a [parking_lot] guard releases its lock. *)
Definition drop_guard g c : SmartFlavor :=
  match g, c with
  | OLCWriter write_version, LightWeightHybridCell word =>
      if write_version =? ZEROED_FLAG_VERSION then c
      else LightWeightHybridCell (OptCell.write_unlock write_version)
  | OLCWriter write_version, OLCCell _ => OLCCell (OptCell.write_unlock write_version)
  | OLCWriter write_version, HybridCell _ rw => HybridCell (OptCell.write_unlock write_version) rw
  | OLCReaderPin pin_version, LightWeightHybridCell _ =>
      LightWeightHybridCell (OptCell.write_unpin pin_version)
  | OLCAppendPin pin_version, OLCCell _ => OLCCell (OptCell.write_unpin pin_version)
  | OLCAppendPin pin_version, LightWeightHybridCell _ =>
      LightWeightHybridCell (OptCell.write_unpin pin_version)
  | HybridRwWriter latch, HybridCell _ rw => HybridCell (OptCell.write_unlock latch) (unlock_write rw)
  | HybridRwReader _, HybridCell word rw => HybridCell word (unlock_read rw)
  | RwWriter, ReadersWriterCell rw => ReadersWriterCell (unlock_write rw)
  | RwReader, ReadersWriterCell rw => ReadersWriterCell (unlock_read rw)
  | MutExclusive, ExclusiveCell _ => ExclusiveCell false
  | _, _ => c
  end.

(** ** Inspecting a guard *)
Definition is_write_lock g : bool :=
  match g with RwWriter | MutExclusive | OLCWriter _ | HybridRwWriter _ => true | _ => false end.

Definition is_reader_lock g : bool := negb (is_write_lock g).

Definition word_of c : LatchVersion :=
  match c with
  | OLCCell word | LightWeightHybridCell word | HybridCell word _ => word
  | _ => 0
  end.

Definition is_valid g c : bool :=
  match g with
  | OLCReader (Some latch) => flavor_is_read_valid c latch
  | OLCReader None => false
  | HybridRwReader latch => OptCell.is_read_valid (word_of c) latch
  | _ => true
  end.

Definition is_valid_local g : bool :=
  match g with
  | OLCReader (Some latch) | HybridRwReader latch => OptCell.readable latch
  | OLCReader None => false
  | _ => true
  end.

Definition is_read_not_obsolete g c : bool :=
  match g with
  | OLCReader (Some _) => fst (flavor_is_read_not_obsolete_result c)
  | OLCReader None => false
  | HybridRwReader _ | HybridRwWriter _ => OptCell.is_read_not_obsolete (word_of c)
  | _ => true
  end.

Definition is_read_not_obsolete_result g c : bool * LatchVersion :=
  match g with
  | OLCReader (Some _) => flavor_is_read_not_obsolete_result c
  | OLCReader None => (false, 0)
  | OLCReaderPin latch => (true, OptCell.unpinned latch)
  | HybridRwReader _ | HybridRwWriter _ => OptCell.is_read_not_obsolete_result (word_of c)
  | _ => (true, 0)
  end.

Definition update_read_latch g (read_latch : LatchVersion) : SmartGuard :=
  match g with OLCReader (Some _) => OLCReader (Some read_latch) | _ => g end.

(** Whether [deref], [deref_unsafe] and [deref_mut] give access to the data. *)
Definition can_deref g c : bool :=
  match g with
  | OLCReader (Some latch) => flavor_is_read_valid c latch
  | OLCReader None => false
  | _ => true
  end.

Definition can_deref_unsafe g : bool :=
  match g with OLCReader None => false | _ => true end.

Definition can_deref_mut g : bool :=
  match g with
  | LockFree | RwWriter | MutExclusive | OLCWriter _ | OLCAppendPin _ | HybridRwWriter _ => true
  | _ => false
  end.

(** ** The word: a count below 2^61 under three flags *)
Definition FLAG_SHIFT : Z := 61.
Definition word (flags n : Z) : LatchVersion := n + flags * 2 ^ FLAG_SHIFT.
Definition count_ok (n : Z) : Prop := 0 ≤ n < 2 ^ FLAG_SHIFT.

Lemma testbit_word_low k n i : count_ok n → i < FLAG_SHIFT → Z.testbit (word k n) i = Z.testbit n i.
Proof.
  intros Hn Hi. destruct (decide (0 ≤ i)) as [H0|]; [|by rewrite !Z.testbit_neg_r; [..|lia|lia]].
  rewrite -(Z.mod_pow2_bits_low (word k n) FLAG_SHIFT) //. unfold word.
  rewrite Z.mod_add; [|done]. by rewrite Z.mod_small.
Qed.

Lemma testbit_word_high k n i :
  count_ok n → FLAG_SHIFT ≤ i → Z.testbit (word k n) i = Z.testbit k (i - FLAG_SHIFT).
Proof.
  intros Hn Hi. unfold FLAG_SHIFT in *. replace i with ((i - 61) + 61) at 1 by lia.
  rewrite -Z.div_pow2_bits; [|lia..]. unfold word, FLAG_SHIFT. rewrite Z.div_add; [|done].
  by rewrite Z.div_small.
Qed.

Lemma zero_ok : count_ok 0.
Proof. done. Qed.
#[local] Hint Resolve zero_ok : core.

(** A binary operation on the bits goes flag by flag. *)
Lemma bitwise_flags (op : Z → Z → Z) (b : bool → bool → bool) k m n :
  (∀ x y i, 0 ≤ i → Z.testbit (op x y) i = b (Z.testbit x i) (Z.testbit y i)) →
  count_ok n → count_ok (op n 0) → op (word k n) (word m 0) = word (op k m) (op n 0).
Proof.
  intros Hop Hn Hn'. apply Z.bits_inj'. intros i Hi. rewrite Hop //.
  destruct (decide (i < FLAG_SHIFT)).
  - rewrite !testbit_word_low // Hop //.
  - rewrite !testbit_word_high //; [|lia..]. rewrite Hop; [done|lia].
Qed.

Lemma lor_flags k m n : count_ok n → Z.lor (word k n) (word m 0) = word (Z.lor k m) n.
Proof.
  intros Hn. rewrite (bitwise_flags Z.lor orb) ?Z.lor_0_r //. intros. apply Z.lor_spec.
Qed.

Lemma lxor_flags k m n : count_ok n → Z.lxor (word k n) (word m 0) = word (Z.lxor k m) n.
Proof.
  intros Hn. rewrite (bitwise_flags Z.lxor xorb) ?Z.lxor_0_r //. intros. apply Z.lxor_spec.
Qed.

Lemma land_flags k m n : count_ok n → Z.land (word k n) (word m 0) = word (Z.land k m) 0.
Proof.
  intros Hn. rewrite (bitwise_flags Z.land andb) ?Z.land_0_r //. intros. apply Z.land_spec.
Qed.

Lemma flags_words :
  PIN_FLAG_VERSION = word 1 0 ∧ WRITE_FLAG_VERSION = word 2 0 ∧ OBSOLETE_FLAG_VERSION = word 4 0 ∧
  WRITE_OBSOLETE_FLAG_VERSION = word 6 0 ∧ WRITE_PIN_OBSOLETE_FLAG_VERSION = word 7 0.
Proof. done. Qed.

Lemma unpinned_word k n : count_ok n → 0 ≤ k < 8 → OptCell.unpinned (word k n) = word (Z.land k 6) n.
Proof.
  intros Hn Hk. unfold OptCell.unpinned. apply Z.bits_inj'. intros i Hi. rewrite Z.land_spec.
  change (u64_not PIN_FLAG_VERSION) with (word 6 (2 ^ FLAG_SHIFT - 1)).
  destruct (decide (i < FLAG_SHIFT)).
  - rewrite !testbit_word_low //. change (2 ^ FLAG_SHIFT - 1) with (Z.ones 61).
    rewrite Z.ones_spec_low; [apply andb_true_r|unfold FLAG_SHIFT in *; lia].
  - rewrite !testbit_word_high //; [|lia..]. by rewrite Z.land_spec.
Qed.

Lemma readable_word k n : count_ok n → OptCell.readable (word k n) = (Z.land k 6 =? 0).
Proof.
  intros Hn. unfold OptCell.readable. change WRITE_OBSOLETE_FLAG_VERSION with (word 6 0).
  rewrite land_flags //. unfold word. rewrite Z.add_0_l.
  destruct (Z.eqb_spec (Z.land k 6) 0) as [->|Hk]; [done|].
  apply Z.eqb_neq. unfold FLAG_SHIFT. lia.
Qed.

Lemma write_unlock_word k n :
  count_ok (n + 1) → 0 ≤ n → 0 ≤ k < 8 →
  OptCell.write_unlock (word k n) = word (Z.lxor k 2) (n + 1).
Proof.
  intros Hn H0 Hk. unfold OptCell.write_unlock.
  replace (word k n + 1) with (word k (n + 1)) by (unfold word; lia).
  change WRITE_FLAG_VERSION with (word 2 0). rewrite -lxor_flags //. f_equal.
  unfold u64_wrap, word, count_ok, FLAG_SHIFT in *. apply Z.mod_small. lia.
Qed.

(** ** A new cell, and the guard of a node that is split

    [Block::into_cell]. A split holds the guard of the full node, marks it
    obsolete, moves the upper half into a new block and drops the guard; the
    lower half stays where it is. *)
Definition cell_at (latch : LatchType) (n : LatchVersion) : SmartFlavor :=
  match latch with
  | Exclusive => ExclusiveCell false
  | ReadersWriter => ReadersWriterCell rw_new
  | Optimistic => OLCCell n
  | Hybrid => HybridCell n rw_new
  | NoLatch => FreeCell
  | LightWeightHybrid => LightWeightHybridCell n
  end.

Definition into_cell (latch : LatchType) : SmartFlavor := cell_at latch CELL_START_VERSION.

Definition borrow (b : Borrow) c : option (SmartGuard * SmartFlavor) :=
  match b with
  | BorrowFree => borrow_free c
  | BorrowMut => borrow_mut c
  | BorrowPin => borrow_pin c
  | BorrowRead => borrow_read c
  | BorrowReadHybrid => borrow_read_hybrid c
  end.

Definition split_guard (b : Borrow) c : option SmartFlavor :=
  '(g, c) ← borrow b c;
  '(ok, g, c) ← upgrade_write_lock g c;
  if (ok : bool) then let '(g, c) := guard_mark_obsolete g c in Some (drop_guard g c) else None.

(** No guard on the cell, of whatever kind, will ever be valid again. *)
Definition sealed c : Prop :=
  ∀ b g c', borrow b c = Some (g, c') → is_valid g c' = false ∧ fst (is_read_not_obsolete_result g c') = false.

(** The strategies whose splits leave the lower half marked. *)
Definition split_seals (latch : LatchType) : bool :=
  match latch with LightWeightHybrid | Hybrid => true | _ => false end.

Definition sealing_word (word : LatchVersion) : Prop :=
  OptCell.readable word = false ∧ Z.land word PIN_FLAG_VERSION = 0 ∧
  Z.land word WRITE_PIN_OBSOLETE_FLAG_VERSION ≠ 0.

Lemma obsolete_seals n : count_ok n → sealing_word (word 4 n).
Proof.
  intros Hn. split_and!; [by rewrite readable_word|..].
  - change PIN_FLAG_VERSION with (word 1 0). by rewrite land_flags.
  - change WRITE_PIN_OBSOLETE_FLAG_VERSION with (word 7 0). by rewrite land_flags.
Qed.

Lemma invalid_read word read_latch : sealing_word word → OptCell.is_read_valid word read_latch = false.
Proof. intros (Hr & _). unfold OptCell.is_read_valid. by rewrite Hr andb_false_r. Qed.

Lemma sealed_lightweight word : sealing_word word → sealed (LightWeightHybridCell word).
Proof.
  intros (Hr & Hp & Hw) b g c'. destruct b; simpl; [done|..|done].
  - unfold borrow_mut_word. rewrite (proj2 (Z.eqb_neq _ _) Hw) /=. by intros [= <- <-].
  - unfold OptCell.pin_lock. rewrite Hp Hr /=. by intros [= <- <-].
  - unfold optimistic_reader, OptCell.read_lock. rewrite Hr /=. by intros [= <- <-].
Qed.

Lemma sealed_hybrid word rw : sealing_word word → sealed (HybridCell word rw).
Proof.
  intros Hs b g c'. pose proof Hs as (Hr & _). destruct b; simpl; [done|..].
  - destruct (try_write rw); [|by intros [= <- <-]]. rewrite Hr /=. by intros [= <- <-].
  - by intros [= <- <-].
  - unfold optimistic_reader, OptCell.read_lock. rewrite Hr /=. by intros [= <- <-].
  - destruct (try_read rw) as [rw'|]; [|done]. simpl. intros [= <- <-]. simpl. by rewrite invalid_read.
Qed.

(** How the writers of a strategy come to the guard of a node. *)
Definition write_borrow (latch : LatchType) (b : Borrow) : Prop :=
  match latch with
  | NoLatch => b = BorrowFree
  | Exclusive => b = BorrowMut
  | ReadersWriter | Hybrid => b = BorrowMut ∨ b = BorrowRead
  | Optimistic => b = BorrowRead
  | LightWeightHybrid => b = BorrowPin ∨ b = BorrowRead
  end.

Lemma apply_for_ref_borrow st curr_level max_level attempt height :
  write_borrow (latch_type st) (apply_for_ref st curr_level max_level attempt height).
Proof. destruct st; simpl; repeat case_match; auto. Qed.

(** A count does not collide with the flags. *)
Lemma word_zero n : word 0 n = n.
Proof. unfold word. lia. Qed.

Lemma write_lock_word n : count_ok n → OptCell.write_lock n n = (Some (word 2 n), word 2 n).
Proof.
  intros Hn. unfold OptCell.write_lock. rewrite Z.eqb_refl.
  assert (Z.lor WRITE_FLAG_VERSION n = word 2 n) as ->; [|done].
  rewrite Z.lor_comm. transitivity (Z.lor (word 0 n) (word 2 0)); [by rewrite word_zero|].
  by rewrite lor_flags.
Qed.

Lemma read_lock_word n : count_ok n → OptCell.read_lock n = (true, n).
Proof.
  intros Hn. transitivity (OptCell.read_lock (word 0 n)); [by rewrite word_zero|].
  unfold OptCell.read_lock. by rewrite readable_word // unpinned_word // word_zero.
Qed.

Lemma optimistic_reader_word n : count_ok n → optimistic_reader n = OLCReader (Some n).
Proof. intros Hn. unfold optimistic_reader. by rewrite read_lock_word. Qed.

Lemma pin_lock_word n : count_ok n → OptCell.pin_lock n = (Ok (word 1 n), word 1 n).
Proof.
  intros Hn. transitivity (OptCell.pin_lock (word 0 n)); [by rewrite word_zero|].
  unfold OptCell.pin_lock. change PIN_FLAG_VERSION with (word 1 0).
  by rewrite land_flags // readable_word // lor_flags.
Qed.

Lemma borrow_mut_flags_word n : count_ok n → Z.land n WRITE_PIN_OBSOLETE_FLAG_VERSION = 0.
Proof.
  intros Hn. transitivity (Z.land (word 0 n) (word 7 0)); [by rewrite word_zero|]. by rewrite land_flags.
Qed.

Lemma pin_write_lock_word n : count_ok n → OptCell.pin_write_lock (word 1 n) = word 2 n.
Proof.
  intros Hn. unfold OptCell.pin_write_lock. rewrite unpinned_word // Z.lor_comm.
  change WRITE_FLAG_VERSION with (word 2 0). by rewrite lor_flags.
Qed.

Lemma count_ok_succ n : 0 ≤ n → count_ok (n + 1) → count_ok n.
Proof. unfold count_ok. lia. Qed.

Lemma land_OBSOLETE_word k n : count_ok n → Z.land (word k n) OBSOLETE_FLAG_VERSION = word (Z.land k 4) 0.
Proof. intros Hn. change OBSOLETE_FLAG_VERSION with (word 4 0). by rewrite land_flags. Qed.

#[local] Arguments OptCell.write_lock : simpl never.
#[local] Arguments OptCell.write_unlock : simpl never.
#[local] Arguments OptCell.pin_lock : simpl never.
#[local] Arguments OptCell.pin_write_lock : simpl never.
#[local] Arguments OptCell.readable : simpl never.
#[local] Arguments word : simpl never.
#[local] Arguments optimistic_reader : simpl never.

(** What is left of the cell of a node that was split. *)
Lemma split_guard_olc n :
  0 ≤ n → count_ok (n + 1) → split_guard BorrowRead (OLCCell n) = Some (OLCCell (n + 1)).
Proof.
  intros H0 Hn. pose proof (count_ok_succ n H0 Hn) as Hc. unfold split_guard.
  cbn [borrow borrow_read]. rewrite optimistic_reader_word //=. rewrite write_lock_word //=.
  by rewrite write_unlock_word // word_zero.
Qed.

Lemma split_guard_lightweight n b :
  count_ok n → b = BorrowPin ∨ b = BorrowRead →
  split_guard b (LightWeightHybridCell n) = Some (LightWeightHybridCell (word 4 0)).
Proof.
  intros Hc [-> | ->]; unfold split_guard; cbn [borrow borrow_read borrow_pin].
  - by rewrite pin_lock_word //= pin_write_lock_word.
  - rewrite optimistic_reader_word //=. by rewrite write_lock_word.
Qed.

Lemma split_guard_hybrid n b :
  0 ≤ n → count_ok (n + 1) → b = BorrowMut ∨ b = BorrowRead →
  split_guard b (HybridCell n rw_new) = Some (HybridCell (word 4 (n + 1)) rw_new).
Proof.
  intros H0 Hn Hb. pose proof (count_ok_succ n H0 Hn) as Hc. unfold split_guard.
  assert (OptCell.readable n = true) as Hr by (pose proof (read_lock_word n Hc) as H; by injection H).
  assert (OptCell.write_unlock (Z.lor (word 2 n) OBSOLETE_FLAG_VERSION) = word 4 (n + 1)) as Hu.
  { change OBSOLETE_FLAG_VERSION with (word 4 0). by rewrite lor_flags // write_unlock_word. }
  destruct Hb as [-> | ->]; cbn [borrow borrow_read].
  - simpl. rewrite Hr /= write_lock_word //=. by rewrite Hu.
  - rewrite optimistic_reader_word //= Hr /= write_lock_word //=. by rewrite Hu.
Qed.

(** C34: a split leaves the lower half of the node readable, unless the strategy is
    one of the two hybrid ones: there the mark of the split outlives the guard,
    so that the half that stays in the tree can never be latched again. *)
Theorem split_guard_outcome st n curr_level max_level attempt height :
  let latch := latch_type st in
  0 ≤ n → count_ok (n + 1) →
  ∃ c, split_guard (apply_for_ref st curr_level max_level attempt height) (cell_at latch n) = Some c ∧
    if split_seals latch then sealed c else c = cell_at latch n ∨ c = cell_at latch (n + 1).
Proof.
  intros latch H0 Hn. pose proof (count_ok_succ n H0 Hn) as Hc.
  pose proof (apply_for_ref_borrow st curr_level max_level attempt height) as Hb. fold latch in Hb.
  destruct latch; simpl in Hb |- *.
  - rewrite Hb. eexists. split; [done|]. by left.
  - destruct Hb as [-> | ->]; (eexists; split; [done|]; by left).
  - rewrite Hb split_guard_olc //. eexists. split; [done|]. by right.
  - rewrite split_guard_hybrid //. eexists. split; [done|]. by apply sealed_hybrid, obsolete_seals.
  - rewrite split_guard_lightweight //. eexists. split; [done|]. by apply sealed_lightweight, obsolete_seals.
  - rewrite Hb. eexists. split; [done|]. by left.
Qed.

Lemma split_guard_outcome_witness :
  ∃ c, split_guard (apply_for_ref (LHL_read 4) 2 U16_MAX 0 1) (cell_at LightWeightHybrid 0) = Some c ∧
    sealed c.
Proof. apply (split_guard_outcome (LHL_read 4) 0 2 U16_MAX 0 1); done. Defined.
