(* ===== verification/DexaTree.v ===== *)
(** * The state of the baseline trees

    The blocks of the B+ tree of [src/src/dexa/], its pages
    ([mvb_page_model/internal_page.rs], [node.rs], [leaf_page.rs]), their
    allocation ([mvb_block/block_manager.rs], [block.rs]), the root
    ([mvb_tree/root.rs], [bplus_tree.rs]), and the guards of its blocks as one
    thread meets them: it may lose any latch, in the order the list [latches]
    says, and finds every latch free once the list is used up. A block that a
    split has sealed ([DexaCell.v]) is never had again. *)
From S2P Require Import Prelude Version Interval Clock VersionHistory VersionedLeaf.
From S2P Require Import DexaLocking DexaCell.
#[local] Set Default Proof Using "Type*".

Abbreviation BlockRef := nat.
Definition START_KEY : Z := 0.
Definition END_KEY : Z := U64_MAX.

Inductive SplitType := SplitAndFilter | SplitNormal.

(** What a thread holds of a block: a free pointer, an optimistic or shared
    reader, a writer or a pin, or nothing. *)
Inductive GuardKind := GuardFree | GuardReader | GuardWriter | GuardNone.
Record BlockGuard := mkGuard { g_block : BlockRef; g_kind : GuardKind }.

Record MVBPlusTree (S : Type) := mkBPlusTree {
  root_block : BlockRef;
  root_height : Height;
  blocks : gmap BlockRef (Node S);
  next_block : BlockRef;              (* the address of the next allocation *)
  alloc_count : Z;
  limbo : list (VersionedRecordPoint S);
  obsolete : gset BlockRef;           (* the sealed cells *)
  clock : ClockSt;
  latches : list bool;
}.
Arguments mkBPlusTree {_} _ _ _ _ _ _ _ _ _.
Arguments root_block {_} _.
Arguments root_height {_} _.
Arguments blocks {_} _.
Arguments next_block {_} _.
Arguments alloc_count {_} _.
Arguments limbo {_} _.
Arguments obsolete {_} _.
Arguments clock {_} _.
Arguments latches {_} _.

Section updates.
Context {S : Type}.
Implicit Types (s : MVBPlusTree S).

Definition set_root b h s : MVBPlusTree S := mkBPlusTree b h (blocks s) (next_block s)
  (alloc_count s) (limbo s) (obsolete s) (clock s) (latches s).
Definition set_blocks bs s : MVBPlusTree S := mkBPlusTree (root_block s) (root_height s) bs
  (next_block s) (alloc_count s) (limbo s) (obsolete s) (clock s) (latches s).
Definition set_next n s : MVBPlusTree S := mkBPlusTree (root_block s) (root_height s) (blocks s)
  n (alloc_count s) (limbo s) (obsolete s) (clock s) (latches s).
Definition set_alloc n s : MVBPlusTree S := mkBPlusTree (root_block s) (root_height s) (blocks s)
  (next_block s) n (limbo s) (obsolete s) (clock s) (latches s).
Definition set_limbo l s : MVBPlusTree S := mkBPlusTree (root_block s) (root_height s) (blocks s)
  (next_block s) (alloc_count s) l (obsolete s) (clock s) (latches s).
Definition set_obsolete o s : MVBPlusTree S := mkBPlusTree (root_block s) (root_height s) (blocks s)
  (next_block s) (alloc_count s) (limbo s) o (clock s) (latches s).
Definition set_clock c s : MVBPlusTree S := mkBPlusTree (root_block s) (root_height s) (blocks s)
  (next_block s) (alloc_count s) (limbo s) (obsolete s) c (latches s).
Definition set_latches l s : MVBPlusTree S := mkBPlusTree (root_block s) (root_height s) (blocks s)
  (next_block s) (alloc_count s) (limbo s) (obsolete s) (clock s) l.
End updates.

(** ** Vectors over the arrays of a page

    [ShadowVec]; an access behind the end is [None]. *)
Section vectors.
Context {A : Type}.
Implicit Types (l : list A) (index : nat) (x : A).

Definition vec_insert index x l : option (list A) :=
  if decide (index ≤ length l) then Some (take index l ++ x :: drop index l) else None.

Definition vec_remove index l : option (list A) :=
  if decide (index < length l) then Some (take index l ++ drop (Datatypes.S index) l) else None.

(** [get_unchecked_mut(index)] is a plain write into the array: one behind the
    end leaves the visible part alone. *)
Definition vec_write index x l : list A := <[index := x]> l.
End vectors.

Section tree.
Context {P S : Type} `{!VersionStore P S}.
Context (FAN_OUT NUM_RECORDS : nat) (locking_strategy : LockingStrategy) (gc : bool) (me : Tid).
Local Abbreviation St := (MVBPlusTree S).
Local Abbreviation Comp := (Comp St).
Implicit Types (b : BlockRef) (node : Node S) (g : BlockGuard).
Implicit Types (keys : list Z) (records : list (VersionedRecordPoint S)).

(** ** Pages

    The first slot of the key array is the length word, and the children count
    one more than the keys, unless there are none. *)
Definition children_len keys : nat :=
  match length keys with 0 => 0 | n => Datatypes.S n end.

Definition index_page keys (children : list BlockRef) : option (Node S) :=
  if decide (length keys < FAN_OUT ∧ children_len keys ≤ length children ≤ FAN_OUT)
  then Some (Index keys (take (children_len keys) children)) else None.

Definition leaf_page records : option (Node S) :=
  if decide (length records ≤ NUM_RECORDS) then Some (Leaf records) else None.

Definition is_leaf node : bool := match node with Leaf _ => true | Index _ _ => false end.
Definition is_directory node : bool := negb (is_leaf node).

Definition node_len node : nat :=
  match node with Index keys _ => length keys | Leaf records => length records end.

Definition node_keys node : option (list Z) :=
  match node with Index keys _ => Some keys | Leaf _ => None end.
Definition node_children node : option (list BlockRef) :=
  match node with Index _ children => Some children | Leaf _ => None end.

(** [BlockManager] *)
Definition allocation_leaf : nat := NUM_RECORDS.
Definition allocation_directory : nat := FAN_OUT - 1.

(** [is_overflow] and [is_underflow]; the cast of a length to [f32] and back is
    exact, and the subtraction wraps. *)
Definition is_overflow node (allocation : nat) : bool := allocation <=? node_len node.
Definition is_underflow node (allocation : nat) : bool :=
  (Z.of_nat (node_len node) <? u64_wrap (Z.of_nat (allocation / 2) - 1))%Z.

Definition has_overflow node : bool :=
  if is_leaf node then is_overflow node allocation_leaf
  else is_overflow node (allocation_directory - 1).

Definition has_underflow node : bool :=
  if is_leaf node then is_underflow node allocation_leaf
  else is_underflow node allocation_directory.

(** The records of a leaf that are live, and those that are not. *)
Fixpoint partition_live records
    : option (list (VersionedRecordPoint S) * list (VersionedRecordPoint S)) :=
  match records with
  | [] => Some ([], [])
  | r :: records =>
      live ← vs_is_live (P := P) (version_index r);
      '(kept, dead) ← partition_live records;
      Some (if (live : bool) then (r :: kept, dead) else (kept, r :: dead))
  end.

(** [(NUM_RECORDS as f64 * 0.4).ceil()] *)
Definition filter_threshold : nat := (2 * NUM_RECORDS + 4) / 5.

Definition split_type node : option SplitType :=
  match node with
  | Index _ _ => Some SplitNormal
  | Leaf records =>
      '(_, dead) ← partition_live records;
      Some (if (length dead <? filter_threshold) then SplitAndFilter else SplitNormal)
  end.

(** ** Blocks *)
Definition read_block b : Comp (Node S) := bs ← gets blocks; lift (bs !! b).

Definition write_block b node : Comp () :=
  bs ← gets blocks;
  match bs !! b with
  | Some _ => modify (set_blocks (<[b := node]> bs))
  | None => panic
  end.

(** [new_empty_leaf] and [new_empty_index_block] count; [into_cell] places the
    block somewhere. *)
Definition count_alloc : Comp () :=
  n ← gets alloc_count; modify (set_alloc (u64_wrap (n + 1))).

Definition new_cell node : Comp BlockRef :=
  b ← gets next_block;
  bs ← gets blocks;
  modify (set_blocks (<[b := node]> bs));; modify (set_next (Datatypes.S b));; mret b.

Definition new_leaf_cell records : Comp BlockRef :=
  count_alloc;; node ← lift (leaf_page records); new_cell node.
Definition new_index_cell keys (children : list BlockRef) : Comp BlockRef :=
  count_alloc;; node ← lift (index_page keys children); new_cell node.

Definition reset_alloc_reuse_counts : Comp () := modify (set_alloc 0).

(** ** Guards *)
Definition win : Comp bool :=
  ls ← gets latches;
  match ls with
  | [] => mret true
  | l :: ls => modify (set_latches ls);; mret l
  end.

Definition is_sealed b : Comp bool := o ← gets obsolete; mret (bool_decide (b ∈ o)).

Local Abbreviation optimistic := (is_optimistic locking_strategy).

(** A borrow of a cell that a writer holds gives no guard, unless it blocks. *)
Definition borrow_as (how : Borrow) b : Comp BlockGuard :=
  match how with
  | BorrowFree => mret (mkGuard b GuardFree)
  | _ =>
      let kind := match locking_strategy, how with
        | MonoWriter, _ => GuardFree
        | LockCoupling, _ | _, BorrowMut => GuardWriter
        | _, _ => GuardReader
        end in
      if optimistic then
        sealed ← is_sealed b;
        if (sealed : bool) then mret (mkGuard b GuardNone)
        else ok ← win; mret (mkGuard b (if (ok : bool) then kind else GuardNone))
      else mret (mkGuard b kind)
  end.

Definition is_write_guard g : bool :=
  match g_kind g with GuardWriter => true | _ => false end.

(** [is_valid], and [deref] of a guard that is valid. *)
Definition guard_valid g : Comp bool :=
  match g_kind g with
  | GuardNone => mret false
  | GuardReader => if optimistic then win else mret true
  | _ => mret true
  end.

Definition guard_valid_local g : bool :=
  match g_kind g with GuardNone => false | _ => true end.

Definition guard_upgrade g : Comp (bool * BlockGuard) :=
  match g_kind g with
  | GuardNone => mret (false, g)
  | GuardReader =>
      ok ← win;
      mret (ok : bool,
            if ok then mkGuard (g_block g) GuardWriter
            else if optimistic then g else mkGuard (g_block g) GuardNone)
  | _ => mret (true, g)
  end.

(** [deref], [deref_unsafe] and [deref_mut]. *)
Definition guard_deref g : Comp (option (Node S)) :=
  ok ← guard_valid g;
  if (ok : bool) then node ← read_block (g_block g); mret (Some node) else mret None.

Definition guard_deref_unsafe g : Comp (option (Node S)) :=
  if guard_valid_local g then node ← read_block (g_block g); mret (Some node) else mret None.

Definition unwrap {A} (o : option A) : Comp A := lift o.

Definition guard_deref_mut g : Comp (Node S) :=
  match g_kind g with
  | GuardFree | GuardWriter => read_block (g_block g)
  | _ => panic
  end.

(** [mark_obsolete], of a guard that will be dropped. *)
Definition mark_obsolete g : Comp () :=
  if split_seals (latch_type locking_strategy) && is_write_guard g
  then o ← gets obsolete; modify (set_obsolete ({[g_block g]} ∪ o))
  else mret ().

(** ** Versions

    [mvb_tree/clock.rs], which is the clock of [Clock.v] but for its names. *)
Definition start_tx_commit : Comp Version :=
  c ← gets clock;
  let '(v, c) := GlobalClock.start_commit c me in
  modify (set_clock c);; mret v.

Definition end_tx_commit (version : Version) : Comp () :=
  c ← gets clock; modify (set_clock (GlobalClock.end_commit c me version)).

Definition current_version_for_reader : Comp Version :=
  c ← gets clock;
  let '(v, c) := Clock.current_version_for_reader c me in
  modify (set_clock c);; mret v.

(** [MVBPlusTree::make] *)
Definition make : St :=
  mkBPlusTree 0 INIT_TREE_HEIGHT {[0 := Leaf []]} 1 1 [] ∅ clock_init [].

(** [set_new_root], which nothing calls. *)
Definition set_new_root (new_root : Node S) (new_height : Height) : Comp () :=
  b ← gets root_block;
  modify (set_root b new_height);; write_block b new_root.
End tree.
