(* ===== verification/DexaSmo.v ===== *)
(** * Splits and merges of the baseline trees

    [retrieve_root_internal], [do_overflow_correction], [do_underflow_correction]
    and [merge] of [src/src/dexa/mvb_crud_model/query.rs]. *)
From S2P Require Import Prelude Version Interval Clock VersionHistory VersionedLeaf.
From S2P Require Import DexaLocking DexaCell DexaTree.
#[local] Set Default Proof Using "Type*".

Section smo.
Context {P S : Type} `{!VersionStore P S}.
Context (FAN_OUT NUM_RECORDS : nat) (locking_strategy : LockingStrategy) (gc : bool).
Local Abbreviation St := (MVBPlusTree S).
Local Abbreviation Comp := (Comp St).
Implicit Types (b : BlockRef) (node : Node S) (g : BlockGuard).
Implicit Types (keys : list Z) (records : list (VersionedRecordPoint S)).
Local Abbreviation has_overflow := (has_overflow FAN_OUT NUM_RECORDS).
Local Abbreviation has_underflow := (has_underflow FAN_OUT NUM_RECORDS).
Local Abbreviation new_leaf_cell := (new_leaf_cell NUM_RECORDS).
Local Abbreviation new_index_cell := (new_index_cell FAN_OUT).
Local Abbreviation borrow_as := (borrow_as locking_strategy).
Local Abbreviation guard_valid := (guard_valid locking_strategy).
Local Abbreviation guard_upgrade := (guard_upgrade locking_strategy).
Local Abbreviation guard_deref := (guard_deref locking_strategy).

Definition borrow_for (curr_level : Level) (max_level : Level) (attempt : Attempts)
    (height : Height) b : Comp BlockGuard :=
  borrow_as (apply_for_ref locking_strategy curr_level max_level attempt height) b.

(** The records of a leaf that is split: with the collector on, the dead ones
    may leave first. *)
Definition split_records records : Comp (list (VersionedRecordPoint S)) :=
  ty ← (if gc then lift (split_type (P := P) NUM_RECORDS (Leaf records)) else mret SplitNormal);
  match ty with
  | SplitAndFilter =>
      '(kept, dead) ← lift (partition_live (P := P) records);
      l ← gets limbo;
      modify (set_limbo (l ++ dead));; mret kept
  | SplitNormal => mret records
  end.

(** An overfull root: an index stays where it is and gets two new children, a
    leaf becomes the left child of a new root. *)
Definition split_root root_ref node : Comp () :=
  match node with
  | Index keys children =>
      let keys_mid := length keys / 2 in
      k3 ← lift (keys !! keys_mid);
      count_alloc;; count_alloc;;
      right ← lift (index_page FAN_OUT (drop (Datatypes.S keys_mid) keys)
                      (drop (Datatypes.S keys_mid) children));
      left ← lift (index_page FAN_OUT (take keys_mid keys) (take (Datatypes.S keys_mid) children));
      left ← new_cell left;
      right ← new_cell right;
      node ← lift (index_page FAN_OUT [k3] [left; right]);
      write_block root_ref node
  | Leaf records =>
      records ← split_records records;
      let records_mid := length records / 2 in
      k3 ← lift (vr_key <$> records !! records_mid);
      count_alloc;; count_alloc;;
      right ← lift (leaf_page NUM_RECORDS (drop records_mid records));
      write_block root_ref (Leaf (take records_mid records));;
      right ← new_cell right;
      node ← lift (index_page FAN_OUT [k3] [root_ref; right]);
      new_root ← new_cell node;
      height ← gets root_height;
      modify (set_root new_root height)
  end.

Definition retrieve_root_internal (lock_level : LockLevel) (attempt : Attempts)
    : Comp (result (BlockGuard * Height) (LockLevel * Attempts)) :=
  root_ref ← gets root_block;
  height ← gets root_height;
  root_guard ← borrow_for INIT_TREE_HEIGHT lock_level attempt height root_ref;
  if negb (guard_valid_local root_guard) then mret (Err (lock_level, u32_wrap (attempt + 1)))
  else
    node ← read_block root_ref;
    let has_overflow_root := has_overflow node in
    let force_restart := match locking_strategy with
      | MonoWriter | LockCoupling => false
      | _ => negb (is_write_guard root_guard)
      end in
    '(ok, root_guard) ← (if force_restart && has_overflow_root then guard_upgrade root_guard
                         else mret (true, root_guard));
    if negb ok then mret (Err (lock_level, u32_wrap (attempt + 1)))
    else if negb has_overflow_root then mret (Ok (root_guard, height))
    else
      node ← guard_deref_mut root_guard;
      if is_orwc locking_strategy && negb (has_overflow node)
      then mret (Ok (root_guard, height))
      else
        split_root root_ref node;;
        if is_leaf node then mret (Err (lock_level, attempt))
        else mret (Ok (root_guard, u16_wrap (height + 1))).

(** [child_pos + 1] gets the upper half of the child, and the key between the
    halves goes in front of it. *)
Definition link_right parent_guard (child_pos : nat) (right : BlockRef) (k3 : Z) : Comp () :=
  parent ← guard_deref_mut parent_guard;
  match parent with
  | Index keys children =>
      children ← lift (vec_insert (Datatypes.S child_pos) right children);
      keys ← lift (vec_insert child_pos k3 keys);
      node ← lift (index_page FAN_OUT keys children);
      write_block (g_block parent_guard) node
  | Leaf _ => panic
  end.

Definition do_overflow_correction parent_guard (child_pos : nat) (from_guard : BlockGuard)
    : Comp () :=
  mark_obsolete locking_strategy from_guard;;
  from ← guard_deref_mut from_guard;
  match from with
  | Index keys children =>
      let keys_mid := length keys / 2 in
      k3 ← lift (keys !! keys_mid);
      right ← new_index_cell (drop (Datatypes.S keys_mid) keys) (drop (Datatypes.S keys_mid) children);
      from ← lift (index_page FAN_OUT (take keys_mid keys) children);
      write_block (g_block from_guard) from;;
      link_right parent_guard child_pos right k3
  | Leaf records =>
      records ← split_records records;
      let records_mid := length records / 2 in
      k3 ← lift (vr_key <$> records !! records_mid);
      right ← new_leaf_cell (drop records_mid records);
      write_block (g_block from_guard) (Leaf (take records_mid records));;
      link_right parent_guard child_pos right k3
  end.

(** ** Underfull nodes *)
Fixpoint borrow_all curr_level lock_level attempt height (children : list BlockRef)
    : Comp (list BlockGuard) :=
  match children with
  | [] => mret []
  | b :: children =>
      g ← borrow_for curr_level lock_level attempt height b;
      gs ← borrow_all curr_level lock_level attempt height children;
      mret (g :: gs)
  end.

(** Whether all the guards could be upgraded. *)
Fixpoint upgrade_all (gs : list BlockGuard) : Comp (option (list BlockGuard)) :=
  match gs with
  | [] => mret (Some [])
  | g :: gs =>
      '(ok, g) ← guard_upgrade g;
      if negb ok then mret None
      else gs ← upgrade_all gs; mret ((g ::.) <$> gs)
  end.

Fixpoint read_all (gs : list BlockGuard) : Comp (list (Node S)) :=
  match gs with
  | [] => mret []
  | g :: gs => node ← read_block (g_block g); nodes ← read_all gs; mret (node :: nodes)
  end.

(** One page of all the leaves. *)
Fixpoint join_leaves (nodes : list (Node S)) : option (list (VersionedRecordPoint S)) :=
  match nodes with
  | [] => Some []
  | Leaf records :: nodes => rest ← join_leaves nodes; Some (records ++ rest)
  | Index _ _ :: _ => None
  end.

(** One page of all the index pages; the key above the underfull child goes in
    front of the page that follows the child. The children are written behind
    as many as the keys written so far count. *)
Fixpoint join_indexes (child_pos : nat) (child_key : Z) (index : nat) (keys : list Z)
    (children : list BlockRef) (nodes : list (Node S)) : option (list Z * list BlockRef) :=
  match nodes with
  | [] => Some (keys, children)
  | Index keys' children' :: nodes =>
      let children := take (children_len keys) children ++ children' in
      let keys := keys ++ (if decide (index = Datatypes.S child_pos) then [child_key] else []) in
      join_indexes child_pos child_key (Datatypes.S index) (keys ++ keys') children nodes
  | Leaf _ :: _ => None
  end.

(** All children of the root into the root. *)
Definition merge (block_guard from_guard : BlockGuard) (merge_guard : option (nat * BlockGuard))
    (child_pos : nat) (child_key : Z) (curr_level : Level) (lock_level : LockLevel)
    (attempt : Attempts) : Comp (result () ()) :=
  height ← gets root_height;
  '(ok, block_guard) ← guard_upgrade block_guard;
  if negb ok then mret (Err ())
  else
    node ← guard_deref_mut block_guard;
    children ← lift (node_children node);
    let others := filter (λ ic, ic.1 ≠ child_pos) (imap (λ i c, (i, c)) children) in
    let others := match merge_guard with
      | Some (merge_pos, _) => filter (λ ic, ic.1 ≠ merge_pos) others
      | None => others
      end in
    latched ← borrow_all curr_level lock_level attempt height others.*2;
    latched ← lift (match latched with
      | [] => Some [from_guard]
      | _ => vec_insert child_pos from_guard latched
      end);
    latched ← lift (match merge_guard with
      | Some (merge_pos, merge_guard) => vec_insert merge_pos merge_guard latched
      | None => Some latched
      end);
    upgraded ← upgrade_all latched;
    match upgraded with
    | None => mret (Err ())
    | Some latched =>
        nodes ← read_all latched;
        count_alloc;;
        first ← lift (head nodes);
        block ← lift (if is_leaf first then
          records ← join_leaves nodes; leaf_page NUM_RECORDS records
        else
          '(keys, children) ← join_indexes child_pos child_key 0 [] [] nodes;
          index_page FAN_OUT keys children);
        root_ref ← gets root_block;
        if decide (root_ref = g_block block_guard) then
          modify (set_root root_ref (u16_wrap (height - 1)));;
          write_block (g_block block_guard) block;;
          mret (Ok ())
        else panic (* Merge non-root into lower height *)
    end.

Definition enumerate_candidates (fence_upper : Z) (child_pos : nat) keys (children : list BlockRef)
    : list (nat * BlockRef * Z) :=
  filter (λ c, c.1.1 ≠ child_pos)
    (imap (λ i ck, (i, ck.1, ck.2))
      (zip children (merge_by Z.leb keys [fence_upper]))).

(** Both pages of a merge in key order, with the lower position first. *)
Definition join_records from merged : list (VersionedRecordPoint S) :=
  merge_by (λ r0 r1, (vr_key r0 <? vr_key r1)%Z) from merged.

Definition merge_leaves parent_guard keys (children : list BlockRef) (child_pos merge_index : nat)
    from merged : Comp () :=
  new_leaf ← new_leaf_cell (join_records from merged);
  let lo := Nat.min child_pos merge_index in
  let hi := Nat.max merge_index child_pos in
  keys ← lift (vec_remove lo keys);
  children ← lift (vec_remove hi children);
  node ← lift (index_page FAN_OUT keys (vec_write lo new_leaf children));
  write_block (g_block parent_guard) node.

Definition key_split_leaves parent_guard keys (children : list BlockRef) (child_pos merge_index : nat)
    from merged : Comp () :=
  let joined := join_records from merged in
  let first := take (length joined / 2) joined in
  let second := drop (length joined / 2) joined in
  left_key ← lift (vr_key <$> head second);
  left ← new_leaf_cell first;
  right ← new_leaf_cell second;
  let lo := Nat.min child_pos merge_index in
  let hi := Nat.max child_pos merge_index in
  node ← lift (index_page FAN_OUT (vec_write lo left_key keys)
                 (vec_write hi right (vec_write lo left children)));
  write_block (g_block parent_guard) node.

(** A page of an internal node, as the two halves of a merge or split come. *)
Definition IndexPage : Type := list Z * list BlockRef.

Definition merge_indexes parent_guard keys (children : list BlockRef) (child_pos merge_index : nat)
    (child_key merge_key : Z) (from merged : IndexPage) : Comp () :=
  let '(lo, hi, lower, key, upper) :=
    if decide (child_pos < merge_index) then (child_pos, merge_index, from, child_key, merged)
    else (merge_index, child_pos, merged, merge_key, from) in
  new_index ← new_index_cell (lower.1 ++ key :: upper.1) (lower.2 ++ upper.2);
  children ← lift (vec_remove hi children);
  keys ← lift (vec_remove lo keys);
  node ← lift (index_page FAN_OUT keys (vec_write lo new_index children));
  write_block (g_block parent_guard) node.

Definition key_split_indexes parent_guard keys (children : list BlockRef) (child_pos merge_index : nat)
    (from merged : IndexPage) : Comp () :=
  let '(lo, hi, lower, upper) :=
    if decide (child_pos < merge_index) then (child_pos, merge_index, from, merged)
    else (merge_index, child_pos, merged, from) in
  let joined_keys := merge_by Z.leb lower.1 upper.1 in
  let joined_children := merge_by (λ _ _, true) lower.2 upper.2 in
  let keys_left := take (length joined_keys / 2) joined_keys in
  split_key ← lift (head (drop (length joined_keys / 2) joined_keys));
  let keys_right := drop (Datatypes.S (length joined_keys / 2)) joined_keys in
  left ← new_index_cell keys_left (take (Datatypes.S (length keys_left)) joined_children);
  right ← new_index_cell keys_right (drop (Datatypes.S (length keys_left)) joined_children);
  node ← lift (index_page FAN_OUT (vec_write hi split_key keys)
                 (vec_write hi right (vec_write lo left children)));
  write_block (g_block parent_guard) node.

Definition do_underflow_correction (fence : Interval) (curr_level : Level) (attempts : Attempts)
    (lock_level : LockLevel) (parent_guard : BlockGuard) (child_pos : nat) (from_guard : BlockGuard)
    : Comp (result () ()) :=
  parent ← guard_deref_mut parent_guard;
  keys ← lift (node_keys parent);
  children ← lift (node_children parent);
  let child_key := default (upper fence) (keys !! child_pos) in
  from ← guard_deref_mut from_guard;
  let all_candidates := enumerate_candidates (upper fence) child_pos keys children in
  let into_parent merge_guard :=
    merge parent_guard from_guard merge_guard child_pos child_key curr_level lock_level attempts in
  let index := match binary_search_by_key (λ c, c.2) child_key all_candidates with
    | inl i | inr i => i
    end in
  if (length all_candidates =? 1) && negb (is_leaf from) then into_parent None
  else
    match (if decide (index < length all_candidates) then all_candidates !! index
           else last all_candidates) with
    | None => into_parent None
    | Some (merge_index, merge_block, merge_key) =>
        merge_guard ← borrow_as BorrowMut merge_block;
        if negb (guard_valid_local merge_guard) then mret (Err ())
        else
          merged ← read_block merge_block;
          match from, merged with
          | Leaf from, Leaf merged =>
              let fit := length from + length merged <? NUM_RECORDS in
              if (length keys =? 1) && fit then into_parent (Some (merge_index, merge_guard))
              else if fit then
                merge_leaves parent_guard keys children child_pos merge_index from merged;;
                mret (Ok ())
              else
                key_split_leaves parent_guard keys children child_pos merge_index from merged;;
                mret (Ok ())
          | Index from_keys from_children, Index merge_keys merge_children =>
              if length from_keys + length merge_keys <? FAN_OUT - 1 then
                merge_indexes parent_guard keys children child_pos merge_index child_key merge_key
                  (from_keys, from_children) (merge_keys, merge_children);;
                mret (Ok ())
              else
                key_split_indexes parent_guard keys children child_pos merge_index
                  (from_keys, from_children) (merge_keys, merge_children);;
                mret (Ok ())
          | _, _ => panic
          end
    end.
End smo.
