(* ===== verification/DexaDescent.v ===== *)
(** * Descents in the baseline trees

    [traversal_read] and [traversal_write] of
    [src/src/dexa/mvb_crud_model/query.rs] and their optimistic variants of
    [olc_query.rs]. The loops take fuel; the node visits they count are left
    out. *)
From S2P Require Import Prelude Version Interval Clock VersionHistory VersionedLeaf.
From S2P Require Import DexaLocking DexaCell DexaTree DexaSmo.
#[local] Set Default Proof Using "Type*".

Section descent.
Context {P S : Type} `{!VersionStore P S}.
Context (FAN_OUT NUM_RECORDS : nat) (locking_strategy : LockingStrategy) (gc : bool).
Local Abbreviation St := (MVBPlusTree S).
Local Abbreviation Comp := (Comp St).
Implicit Types (b : BlockRef) (g : BlockGuard) (key : Z).
Local Abbreviation has_overflow := (has_overflow FAN_OUT NUM_RECORDS).
Local Abbreviation has_underflow := (has_underflow FAN_OUT NUM_RECORDS).
Local Abbreviation borrow_as := (borrow_as locking_strategy).
Local Abbreviation borrow_for := (borrow_for locking_strategy).
Local Abbreviation guard_valid := (guard_valid locking_strategy).
Local Abbreviation guard_upgrade := (guard_upgrade locking_strategy).
Local Abbreviation guard_deref := (guard_deref locking_strategy).

(** The position of the child for a key: the descents search the successor of
    the key, since a separator is the least key of the child on its right. *)
Definition child_position (keys : list Z) key : nat :=
  match binary_search_by_key id key keys with inl pos | inr pos => pos end.

Definition fence_below (keys : list Z) (child_pos : nat) (fence : Interval) : Interval :=
  let fence := match keys !! child_pos with
    | Some k => Interval.set_upper fence k
    | None => fence
    end in
  match child_pos with
  | 0 => fence
  | Datatypes.S i => match keys !! i with Some k => Interval.set_lower fence k | None => fence end
  end.

Definition restart_at (curr_level : Level) (attempt : Attempts)
    : result BlockGuard (LockLevel * Attempts) :=
  Err (u16_wrap (curr_level - 1), u32_wrap (attempt + 1)).

(** ** Writers *)
Fixpoint retrieve_root (fuel : nat) (lock_level : LockLevel) (attempt : Attempts)
    : Comp (BlockGuard * Height * LockLevel * Attempts) :=
  match fuel with
  | 0 => panic
  | Datatypes.S fuel =>
      res ← retrieve_root_internal (P := P) FAN_OUT NUM_RECORDS locking_strategy gc lock_level attempt;
      match res with
      | Err (lock_level, attempt) => retrieve_root fuel lock_level attempt
      | Ok (guard, height) => mret (guard, height, lock_level, attempt)
      end
  end.

(** The repair of the child, with both guards upgraded. *)
Definition correct_child (has_overflow_next : bool) (fence : Interval) (curr_level : Level)
    (attempt : Attempts) (lock_level : LockLevel) (current_guard : BlockGuard) (child_pos : nat)
    (next_guard : BlockGuard) : Comp (result () ()) :=
  if has_overflow_next then
    do_overflow_correction (P := P) FAN_OUT NUM_RECORDS locking_strategy gc current_guard child_pos
      next_guard;;
    mret (Ok ())
  else
    do_underflow_correction FAN_OUT NUM_RECORDS locking_strategy fence curr_level attempt
      lock_level current_guard child_pos next_guard.

Definition upgrade_both (first second : BlockGuard) : Comp (bool * BlockGuard * BlockGuard) :=
  '(ok, first) ← guard_upgrade first;
  if negb ok then mret (false, first, second)
  else '(ok, second) ← guard_upgrade second; mret (ok, first, second).

Fixpoint descend_write (fuel : nat) (curr_level : Level) (height : Height) (lock_level : LockLevel)
    (attempt : Attempts) (fence : Interval) (current_guard : BlockGuard) key
    : Comp (result BlockGuard (LockLevel * Attempts)) :=
  match fuel with
  | 0 => panic
  | Datatypes.S fuel =>
      current ← guard_deref current_guard;
      current ← unwrap current;
      match current with
      | Index keys children =>
          let child_pos := child_position keys key in
          next_node ← lift (children !! child_pos);
          let curr_level := u16_wrap (curr_level + 1) in
          next_guard ← borrow_for curr_level lock_level attempt height next_node;
          next ← guard_deref next_guard;
          next ← unwrap next;
          let has_overflow_next := has_overflow next in
          let has_underflow_next := has_underflow next in
          if has_overflow_next || has_underflow_next then
            let current_exclusive := is_write_guard current_guard in
            '(ok, next_guard, current_guard) ←
              (if additional_lock_required locking_strategy
               then upgrade_both next_guard current_guard
               else mret (true, next_guard, current_guard));
            if negb ok then mret (restart_at curr_level attempt)
            else
              interfered ← (if is_orwc locking_strategy && negb current_exclusive then
                node ← guard_deref current_guard;
                node ← unwrap node;
                mret (has_overflow node || has_underflow node)
              else mret false);
              if interfered : bool then mret (restart_at curr_level attempt)
              else
                res ← correct_child has_overflow_next fence curr_level attempt lock_level
                        current_guard child_pos next_guard;
                match res with
                | Err _ => mret (restart_at curr_level attempt)
                | Ok _ =>
                    descend_write fuel curr_level height lock_level attempt fence current_guard key
                end
          else
            descend_write fuel curr_level height lock_level attempt
              (fence_below keys child_pos fence) next_guard key
      | Leaf _ =>
          '(ok, current_guard) ← guard_upgrade current_guard;
          mret (if (ok : bool) then Ok current_guard else restart_at curr_level attempt)
      end
  end.

Definition traversal_write_internal (fuel : nat) (lock_level : LockLevel) (attempt : Attempts) key
    : Comp (result BlockGuard (LockLevel * Attempts)) :=
  '(current_guard, height, lock_level, attempt) ← retrieve_root fuel lock_level attempt;
  descend_write fuel INIT_TREE_HEIGHT height lock_level attempt
    (Interval.new START_KEY END_KEY) current_guard (inc_key key).

Fixpoint retry_write (attempts : nat)
    (internal : LockLevel → Attempts → Comp (result BlockGuard (LockLevel * Attempts)))
    (lock_level : LockLevel) (attempt : Attempts) : Comp BlockGuard :=
  match attempts with
  | 0 => panic
  | Datatypes.S attempts =>
      res ← internal lock_level attempt;
      match res with
      | Err (lock_level, attempt) => retry_write attempts internal lock_level attempt
      | Ok guard => mret guard
      end
  end.

Definition traversal_write (fuel : nat) key : Comp BlockGuard :=
  retry_write fuel (λ lock_level attempt, traversal_write_internal fuel lock_level attempt key)
    MAX_TREE_HEIGHT 0%Z.

(** ** Optimistic writers

    An update or a deletion appends to a version index and repairs nothing; the
    pin it takes on the leaf is a writer to the model. *)
Definition upgrade_append g : Comp (bool * BlockGuard) := guard_upgrade g.

Fixpoint descend_write_olc (append_op : bool) (fuel : nat) (curr_level : Level) (height : Height)
    (lock_level : LockLevel) (attempt : Attempts) (fence : Interval) (current_guard : BlockGuard) key
    : Comp (result BlockGuard (LockLevel * Attempts)) :=
  match fuel with
  | 0 => panic
  | Datatypes.S fuel =>
      current ← guard_deref current_guard;
      match current with
      | None => mret (restart_at curr_level attempt)
      | Some (Index keys children) =>
          let child_pos := child_position keys key in
          next_node ← lift (children !! child_pos);
          valid ← guard_valid current_guard;
          if negb valid then mret (restart_at curr_level attempt)
          else
            let curr_level := u16_wrap (curr_level + 1) in
            next_guard ← borrow_for curr_level lock_level attempt height next_node;
            next ← guard_deref_unsafe next_guard;
            match next with
            | None => mret (restart_at curr_level attempt)
            | Some next =>
                valid ← guard_valid current_guard;
                if negb valid then mret (restart_at curr_level attempt)
                else
                  let has_overflow_next := negb append_op && has_overflow next in
                  let has_underflow_next := negb append_op && has_underflow next in
                  if has_overflow_next || has_underflow_next then
                    '(ok, current_guard, next_guard) ← upgrade_both current_guard next_guard;
                    if negb ok then mret (restart_at curr_level attempt)
                    else
                      res ← correct_child has_overflow_next fence curr_level attempt lock_level
                              current_guard child_pos next_guard;
                      match res with
                      | Err _ => mret (restart_at curr_level attempt)
                      | Ok _ =>
                          descend_write_olc append_op fuel curr_level height lock_level attempt
                            fence current_guard key
                      end
                  else
                    descend_write_olc append_op fuel curr_level height lock_level attempt
                      (fence_below keys child_pos fence) next_guard key
            end
      | Some (Leaf _) =>
          '(ok, current_guard) ← (if append_op then upgrade_append current_guard
                                  else guard_upgrade current_guard);
          mret (if (ok : bool) then Ok current_guard else restart_at curr_level attempt)
      end
  end.

Definition traversal_write_olc_internal (append_op : bool) (fuel : nat) (lock_level : LockLevel)
    (attempt : Attempts) key : Comp (result BlockGuard (LockLevel * Attempts)) :=
  '(current_guard, height, lock_level, attempt) ← retrieve_root fuel lock_level attempt;
  descend_write_olc append_op fuel INIT_TREE_HEIGHT height lock_level attempt
    (Interval.new START_KEY END_KEY) current_guard (inc_key key).

Definition traversal_write_olc_op (fuel : nat) key (append_op : bool) : Comp BlockGuard :=
  retry_write fuel
    (λ lock_level attempt, traversal_write_olc_internal append_op fuel lock_level attempt key)
    MAX_TREE_HEIGHT 0%Z.

Definition traversal_write_olc_append (fuel : nat) key : Comp BlockGuard :=
  traversal_write_olc_op fuel key true.
Definition traversal_write_olc (fuel : nat) key : Comp BlockGuard :=
  traversal_write_olc_op fuel key false.

(** ** Readers *)
Fixpoint descend_read (fuel : nat) (current_guard : BlockGuard) key : Comp BlockGuard :=
  match fuel with
  | 0 => panic
  | Datatypes.S fuel =>
      current ← guard_deref current_guard;
      current ← unwrap current;
      match current with
      | Index keys children =>
          next_block ← lift (children !! child_position keys key);
          next_guard ← borrow_as (lock_reader locking_strategy) next_block;
          descend_read fuel next_guard key
      | Leaf _ => mret current_guard
      end
  end.

Definition traversal_read (fuel : nat) key : Comp BlockGuard :=
  root ← gets root_block;
  current_guard ← borrow_as (lock_reader locking_strategy) root;
  descend_read fuel current_guard (inc_key key).

(** The page is read before the latch is validated. *)
Fixpoint descend_read_olc (fuel : nat) (current_guard : BlockGuard) key : Comp (option BlockGuard) :=
  match fuel with
  | 0 => panic
  | Datatypes.S fuel =>
      current ← guard_deref_unsafe current_guard;
      read ← guard_valid current_guard;
      match current with
      | None => mret None
      | Some node =>
          if negb read then mret None
          else
            match node with
            | Index keys children =>
                next_node ← lift (children !! child_position keys key);
                read ← guard_valid current_guard;
                if negb read then mret None
                else
                  next_guard ← borrow_as (lock_reader locking_strategy) next_node;
                  descend_read_olc fuel next_guard key
            | Leaf _ => mret (Some current_guard)
            end
      end
  end.

Definition traversal_read_olc_internal (fuel : nat) key : Comp (option BlockGuard) :=
  root ← gets root_block;
  current_guard ← borrow_as (lock_reader locking_strategy) root;
  descend_read_olc fuel current_guard (inc_key key).

Fixpoint retry_read (attempts fuel : nat) key : Comp BlockGuard :=
  match attempts with
  | 0 => panic
  | Datatypes.S attempts =>
      res ← traversal_read_olc_internal fuel key;
      match res with
      | Some guard =>
          valid ← guard_valid guard;
          if (valid : bool) then mret guard else retry_read attempts fuel key
      | None => retry_read attempts fuel key
      end
  end.

Definition traversal_read_olc (fuel : nat) key : Comp BlockGuard := retry_read fuel fuel key.
End descent.
