(* ===== verification/DexaScan.v ===== *)
(** * Range scans in the baseline trees

    The leaf-by-leaf scan of [src/src/dexa/mvb_crud_model/olc_query.rs]: a stack
    holds the path to the leaf read last, each block with the keys it covers;
    the next leaf is found by climbing up to a block that covers the next key
    and descending again. *)
From S2P Require Import Prelude Version Interval Clock VersionHistory VersionedLeaf.
From S2P Require Import DexaLocking DexaCell DexaTree DexaSmo DexaDescent.
#[local] Set Default Proof Using "Type*".

(** [slice.partition_point] on a slice the predicate cuts in two. *)
Definition partition_point {A} (p : A → bool) (l : list A) : nat :=
  match find_idx (λ x, negb (p x)) l with Some i => i | None => length l end.

(** [usize] arithmetic wraps. *)
Definition usize_pred (i : Z) : Z := u64_wrap (i - 1).

Section scan.
Context {P S : Type} `{!VersionStore P S}.
Context (locking_strategy : LockingStrategy).
Local Abbreviation St := (MVBPlusTree S).
Local Abbreviation Comp := (Comp St).
Implicit Types (b : BlockRef) (g : BlockGuard) (next_key : Z).
Local Abbreviation borrow_as := (borrow_as locking_strategy).
Local Abbreviation guard_valid := (guard_valid locking_strategy).
Local Abbreviation guard_upgrade := (guard_upgrade locking_strategy).
Local Abbreviation guard_deref := (guard_deref locking_strategy).

Definition Path : Type := list (Interval * BlockGuard).
Implicit Types (path : Path).

Definition lock_olc (curr_level : Level) (attempt : Attempts) (height : Height) b : Comp BlockGuard :=
  borrow_as (lock_reader_olc locking_strategy curr_level attempt height) b.

(** The keys of the child at a position; [keys.get(pos - 1)] wraps to an index
    that is never there at position 0. *)
Definition child_interval (keys : list Z) (pos : nat) (curr : Interval) : Interval :=
  Interval.new
    (match pos with 0 => lower curr | Datatypes.S i => default (lower curr) (keys !! i) end)
    (match keys !! pos with Some max => dec_key max | None => upper curr end).

(** [while !curr_interval.contains(next_key) { parent_index -= 1; .. }] *)
Fixpoint climb path (parent_index : nat) next_key : option (nat * Interval * BlockGuard) :=
  '(curr_interval, curr_parent) ← path !! parent_index;
  if Interval.contains curr_interval next_key then Some (parent_index, curr_interval, curr_parent)
  else
    match parent_index with
    | 0 => None
    | Datatypes.S parent_index => climb path parent_index next_key
    end.

(** One round of the loop of [next_leaf_page]: it goes on with a path, an index
    and a count of attempts, or is done. *)
Definition next_leaf_descend path (parent_index : nat) next_key (attempts : Attempts)
    : Comp (Path * Z * Attempts + Path) :=
  '(parent_index, curr_interval, curr_parent) ← lift (climb path parent_index next_key);
  curr_deref ← guard_deref_unsafe curr_parent;
  read ← guard_valid curr_parent;
  let retry := mret (inl (take parent_index path, usize_pred (Z.of_nat parent_index),
                          u32_wrap (attempts + 1))) in
  match curr_deref with
  | None => retry
  | Some node =>
      if negb read then retry
      else
        match node with
        | Index keys children =>
            let pos := child_position keys (inc_key next_key) in
            next_page ← lift (children !! pos);
            read ← guard_valid curr_parent;
            if negb read then retry
            else
              let parent_index := Datatypes.S parent_index in
              height ← gets root_height;
              g ← lock_olc (u16_wrap (Z.of_nat parent_index)) 0%Z height next_page;
              mret (inl (take parent_index path ++ (child_interval keys pos curr_interval, g) ::
                           drop parent_index path, Z.of_nat parent_index, 0%Z))
        | Leaf _ => mret (inr (take (Datatypes.S parent_index) path))
        end
  end.

Definition next_leaf_round path (parent_index : Z) next_key (attempts : Attempts)
    : Comp (Path * Z * Attempts + Path) :=
  if (Z.of_nat (length path) <=? parent_index)%Z then
    root ← gets root_block;
    root_read ← lock_olc 0%Z attempts 0%Z root;
    read ← guard_valid root_read;
    if negb read then mret (inl ([], parent_index, u32_wrap (attempts + 1)))
    else next_leaf_descend [(Interval.new START_KEY END_KEY, root_read)] 0 next_key 0%Z
  else next_leaf_descend path (Z.to_nat parent_index) next_key attempts.

Fixpoint next_leaf_loop (fuel : nat) path (parent_index : Z) next_key (attempts : Attempts)
    : Comp Path :=
  match fuel with
  | 0 => panic
  | Datatypes.S fuel =>
      res ← next_leaf_round path parent_index next_key attempts;
      match res with
      | inl (path, parent_index, attempts) => next_leaf_loop fuel path parent_index next_key attempts
      | inr path => mret path
      end
  end.

Definition next_leaf_page (fuel : nat) path (parent_index : Z) next_key : Comp Path :=
  next_leaf_loop fuel path parent_index next_key 0%Z.

(** [path.len() - 1] *)
Definition last_index path : Z := usize_pred (Z.of_nat (length path)).

Definition guard_downgrade g : BlockGuard :=
  match g_kind g, locking_strategy with
  | GuardWriter, OLC | GuardWriter, ORWC _ _ => mkGuard (g_block g) GuardReader
  | _, _ => g
  end.

(** The records of a sorted leaf with keys in an interval; a slice that ends
    before it starts panics. *)
Definition records_in (key_interval : Interval) (records : list (VersionedRecordPoint S))
    : option (list (VersionedRecordPoint S)) :=
  let start := partition_point (λ r, (vr_key r <? lower key_interval)%Z) records in
  let end_ := partition_point (λ r, (vr_key r <=? upper key_interval)%Z) records in
  if decide (start ≤ end_) then Some (drop start (take end_ records)) else None.

Fixpoint find_all (version : Version) (records : list (VersionedRecordPoint S))
    : option (list (Z * P)) :=
  match records with
  | [] => Some []
  | r :: records =>
      found ← vs_find (P := P) (version_index r) version;
      rest ← find_all version records;
      Some (match found with Some (_, p) => (vr_key r, p) :: rest | None => rest end)
  end.

Fixpoint range_query_leaf_results (fuel : nat) path (key_interval : Interval) (version : Version)
    : Comp (Path * list (Z * P)) :=
  match fuel with
  | 0 => panic
  | Datatypes.S fuel =>
      '(fence, leaf_guard) ← lift (last path);
      let path := take (length path - 1) path in
      '(ok, leaf_guard) ← upgrade_append locking_strategy leaf_guard;
      leaf ← (if ok : bool then guard_deref leaf_guard else mret None);
      match leaf with
      | Some (Leaf records) =>
          in_range ← lift (records_in key_interval records);
          result ← lift (find_all version in_range);
          mret (path ++ [(fence, guard_downgrade leaf_guard)], result)
      | _ =>
          path ← next_leaf_page fuel path (last_index path) (lower key_interval);
          range_query_leaf_results fuel path key_interval version
      end
  end.

Fixpoint range_query_olc (fuel : nat) path (key_interval : Interval) (version : Version)
    : Comp (list (Z * P)) :=
  match fuel with
  | 0 => panic
  | Datatypes.S fuel' =>
      '(path, local_results) ← range_query_leaf_results fuel' path key_interval version;
      '(leaf_space, _) ← lift (last path);
      let path := take (length path - 1) path in
      if (upper leaf_space =? END_KEY)%Z then mret local_results
      else
        let key_interval := Interval.set_lower key_interval (inc_key (upper leaf_space)) in
        if (upper key_interval <? lower key_interval)%Z then mret local_results
        else
          path ← next_leaf_page fuel' path (last_index path) (lower key_interval);
          rest ← range_query_olc fuel' path key_interval version;
          mret (local_results ++ rest)
  end.

(** The arm of the dispatch. *)
Definition range_lazy (fuel : nat) (key_interval : Interval) (version : Version)
    : Comp (list (Z * P)) :=
  path ← next_leaf_page fuel [] 0%Z (lower key_interval);
  range_query_olc fuel path key_interval version.

(** ** The eager scan, breadth first

    [traversal_read_range] of [query.rs] and the arm of the dispatch that would
    use it if [LAZY_RANGE_SCAN_ENABLED] were off. *)
Fixpoint borrow_range (children : list BlockRef) : Comp (list BlockGuard) :=
  match children with
  | [] => mret []
  | b :: children =>
      g ← borrow_as (lock_reader locking_strategy) b;
      gs ← borrow_range children;
      mret (g :: gs)
  end.

Fixpoint read_range_loop (fuel : nat) (path : list BlockGuard) (current_range : Interval)
    : Comp (list BlockGuard) :=
  match fuel with
  | 0 => panic
  | Datatypes.S fuel =>
      match path with
      | [] => mret []
      | current_guard :: path =>
          node ← guard_deref current_guard;
          node ← unwrap node;
          match node with
          | Index keys children =>
              let first_pos := child_position keys (lower current_range) in
              let last_pos := child_position keys (inc_key (upper current_range)) in
              if decide (first_pos ≤ Datatypes.S last_pos ∧ last_pos < length children) then
                gs ← borrow_range (drop first_pos (take (Datatypes.S last_pos) children));
                read_range_loop fuel (path ++ gs) current_range
              else panic
          | Leaf _ =>
              results ← read_range_loop fuel path current_range;
              mret (current_guard :: results)
          end
      end
  end.

Definition traversal_read_range (fuel : nat) (current_range : Interval) : Comp (list BlockGuard) :=
  root ← gets root_block;
  current_guard ← borrow_as (lock_reader locking_strategy) root;
  read_range_loop fuel [current_guard] current_range.
End scan.
