(* ===== verification/DexaLatch.v ===== *)
(** * Guards and the cells behind them

    The tree keeps no cells: [DexaTree.v] says of a guard only whether it is
    free, reads, writes or is none, and draws from a list whether a latch was
    lost to another thread. Here that is related to the cells of [DexaCell.v]:
    whatever a cell answers, and whatever other threads did to it, is an answer
    the tree's guards can give for some draw. *)
From S2P Require Import Prelude DexaLocking DexaCell DexaTree DexaScan.
#[local] Set Default Proof Using "Type*".

(** What is left of a guard in the tree. *)
Definition kind_of (g : SmartGuard) : GuardKind :=
  match g with
  | LockFree => GuardFree
  | RwReader | OLCReader (Some _) | OLCReaderPin _ | HybridRwReader _ => GuardReader
  | RwWriter | MutExclusive | OLCWriter _ | OLCAppendPin _ | HybridRwWriter _ => GuardWriter
  | OLCReader None => GuardNone
  end.

(** The pin of an update or a scan, which is not upgraded again. *)
Definition is_append_pin (g : SmartGuard) : bool :=
  match g with OLCAppendPin _ => true | _ => false end.

(** A word with the write flag is not readable, and whoever borrows the cell gets
    a guard that is not valid, the writer itself included: the tree says that the
    block is sealed. *)
Lemma written_unreadable word : OptCell.readable (Z.lor WRITE_FLAG_VERSION word) = false.
Proof.
  apply Z.eqb_neq. intros E. assert (Z.testbit (Z.land (Z.lor WRITE_FLAG_VERSION word) WRITE_OBSOLETE_FLAG_VERSION) 62 = true) as H.
  { by rewrite Z.land_spec Z.lor_spec. }
  by rewrite E in H.
Qed.

Lemma unreadable_borrow how word c :
  how = BorrowRead ∨ how = BorrowPin → c = OLCCell word ∨ c = LightWeightHybridCell word →
  OptCell.readable word = false → ∃ g, borrow how c = Some (g, c) ∧ is_valid g c = false.
Proof.
  intros [-> | ->] [-> | ->] Hr; cbn; unfold optimistic_reader, OptCell.read_lock, OptCell.pin_lock; rewrite ?Hr.
  1-3: by eexists.
  destruct (negb _); (eexists; split; [done|]); [|done].
  cbn. unfold OptCell.is_read_valid. by rewrite Hr andb_false_r.
Qed.

(** A guard a thread can have of a cell of the strategy. Other threads may have
    changed the word of the cell since. *)
Definition holds (st : LockingStrategy) (g : SmartGuard) (c : SmartFlavor) : Prop :=
  match latch_type st, c, g with
  | NoLatch, FreeCell, LockFree => True
  | Exclusive, ExclusiveCell _, MutExclusive => True
  | ReadersWriter, ReadersWriterCell _, (RwReader | RwWriter | OLCReader None) => True
  | Optimistic, OLCCell _, OLCReader (Some latch) => OptCell.readable latch = true
  | Optimistic, OLCCell _, OLCWriter latch => Z.land latch OBSOLETE_FLAG_VERSION = 0%Z
  | Optimistic, OLCCell _, (OLCReader None | OLCAppendPin _) => True
  | _, _, _ => False
  end.

(** The cells of a strategy, and what its traversals call on them. *)
Definition cell_of (st : LockingStrategy) (c : SmartFlavor) : Prop :=
  match latch_type st, c with
  | NoLatch, FreeCell | Exclusive, ExclusiveCell _ | ReadersWriter, ReadersWriterCell _
  | Optimistic, OLCCell _ => True
  | _, _ => False
  end.

Definition borrows (st : LockingStrategy) (how : Borrow) : Prop :=
  how = lock_reader st ∨ (∃ l a h, how = lock_reader_olc st l a h) ∨
  (∃ l x a h, how = apply_for_ref st l x a h).

Section latch.
Context {S : Type} (st : LockingStrategy) (st_ok : split_seals (latch_type st) = false).
Local Abbreviation St := (MVBPlusTree S).
Implicit Types (s : St) (b : BlockRef) (c : SmartFlavor) (g : SmartGuard) (ok : bool).

(** The answer of a computation on guards for some draw; it changes nothing but
    what is left to draw. No block of these strategies is sealed. *)
Definition may {A} (m : Comp St A) (a : A) : Prop :=
  ∃ ls, ∀ s, obsolete s = ∅ → ∃ ls', m (set_latches ls s) = Some (a, set_latches ls' s).

Lemma may_ret {A} (a : A) : may (mret a) a.
Proof using Type. exists []. intros s _. by exists []. Qed.

Lemma may_win ok {A} (k : bool → Comp St A) a :
  (∀ s, k ok s = Some (a, s)) → may (ok ← win; k ok) a.
Proof using Type. intros Hk. exists [ok]. intros s _. exists []. apply Hk. Qed.

Lemma may_sealed {A} b (k k' : Comp St A) a :
  may k' a → may (sealed ← is_sealed b; if (sealed : bool) then k else k') a.
Proof using Type.
  intros [ls Hls]. exists ls. intros s Hs. destruct (Hls s Hs) as [ls' Hrun]. exists ls'. rewrite -Hrun.
  apply (bind_comp_eq _ (λ sealed : bool, if sealed then k else k') _ false). unfold is_sealed. erewrite bind_comp_eq; [|reflexivity]. simpl.
  by rewrite Hs bool_decide_eq_false_2.
Qed.

Definition guard_at b g : BlockGuard := mkGuard b (kind_of g).

Lemma readable_unpinned word : OptCell.readable word = true → OptCell.readable (OptCell.unpinned word) = true.
Proof using Type.
  unfold OptCell.readable, OptCell.unpinned. rewrite !Z.eqb_eq -Z.land_assoc. intros H.
  change (Z.land (u64_not PIN_FLAG_VERSION) WRITE_OBSOLETE_FLAG_VERSION) with WRITE_OBSOLETE_FLAG_VERSION.
  exact H.
Qed.

Lemma readable_obsolete word : OptCell.readable word = true →
  Z.land (Z.lor WRITE_FLAG_VERSION word) OBSOLETE_FLAG_VERSION = 0%Z.
Proof using Type.
  unfold OptCell.readable. rewrite Z.eqb_eq Z.land_lor_distr_l. intros H.
  change (Z.land WRITE_FLAG_VERSION OBSOLETE_FLAG_VERSION) with 0%Z. rewrite Z.lor_0_l.
  change OBSOLETE_FLAG_VERSION with (Z.land WRITE_OBSOLETE_FLAG_VERSION OBSOLETE_FLAG_VERSION).
  by rewrite Z.land_assoc H Z.land_0_l.
Qed.

(** Every borrow of the strategies with no latch, a mutex, a lock or a word. *)
Lemma borrow_refines how b c g c' :
  borrows st how → cell_of st c → borrow how c = Some (g, c') →
  holds st g c' ∧ may (borrow_as st how b) (guard_at b g).
Proof.
  intros Hh Hc Hb. unfold cell_of in Hc. unfold holds, borrow_as, guard_at.
  destruct st eqn:Est; simpl in st_ok; try done; destruct c; simpl in Hc; try done.
  - assert (how = BorrowFree) as -> by (by destruct Hh as [->|[(?&?&?&->)|(?&?&?&?&->)]]).
    injection Hb as <- <-. split; [done|]. apply may_ret.
  - assert (how = BorrowMut) as -> by (by destruct Hh as [->|[(?&?&?&->)|(?&?&?&?&->)]]).
    simpl in Hb. destruct mutex; [done|]. injection Hb as <- <-. split; [done|]. apply may_ret.
  - assert (how = BorrowRead ∨ how = BorrowMut) as [-> | ->]
      by (destruct Hh as [->|[(?&?&?&->)|(?&?&?&?&->)]]; simpl; repeat case_match; auto);
      simpl in Hb; apply bind_Some in Hb as (rw' & _ & [= <- <-]); (split; [done|]); apply may_ret.
  - assert (how = BorrowRead) as -> by (by destruct Hh as [->|[(?&?&?&->)|(?&?&?&?&->)]]).
    injection Hb as <- <-. unfold optimistic_reader, OptCell.read_lock.
    destruct (OptCell.readable cell_version) eqn:Hr; (split; [by try apply readable_unpinned|]).
    + apply may_sealed, (may_win true). done.
    + apply may_sealed, (may_win false). done.
Qed.

Lemma valid_refines b g c : holds st g c → may (guard_valid st (guard_at b g)) (is_valid g c).
Proof.
  unfold holds, guard_valid, guard_at. intros Hg.
  destruct st; simpl in st_ok; try done; destruct c, g as [| | | |[r|]| | | | |]; try done; try apply may_ret.
  eexists [_]. intros s _. exists []. reflexivity.
Qed.

Lemma upgrade_refines b g c ok g' c' :
  holds st g c → is_append_pin g = false → upgrade_write_lock g c = Some (ok, g', c') →
  holds st g' c' ∧ may (guard_upgrade st (guard_at b g)) (ok, guard_at b g').
Proof.
  unfold holds, guard_upgrade, guard_at. intros Hg Hp.
  destruct st; simpl in st_ok; try done; destruct c, g as [| | | |[r|]| | | | |]; try done; simpl;
    try (by intros [= <- <- <-]; split; [|apply may_ret]).
  - destruct (try_write _); intros [= <- <- <-]; (split; [done|]).
    + by apply (may_win true (λ ok, mret (ok, if ok then mkGuard b GuardWriter else mkGuard b GuardNone))).
    + by apply (may_win false (λ ok, mret (ok, if ok then mkGuard b GuardWriter else mkGuard b GuardNone))).
  - unfold OptCell.write_lock. destruct (cell_version =? r)%Z eqn:Hw; intros [= <- <- <-]; (split; [by try apply readable_obsolete|]).
    + by apply (may_win true (λ ok, mret (ok, if ok then mkGuard b GuardWriter else mkGuard b GuardReader))).
    + by apply (may_win false (λ ok, mret (ok, if ok then mkGuard b GuardWriter else mkGuard b GuardReader))).
Qed.

Lemma append_refines b g c ok g' c' :
  holds st g c → is_append_pin g = false → upgrade_append_lock g c = Some (ok, g', c') →
  holds st g' c' ∧ may (guard_upgrade st (guard_at b g)) (ok, guard_at b g').
Proof.
  intros Hg Hp.
  assert (upgrade_append_lock g c = upgrade_write_lock g c ∨
    ∃ r w, g = OLCReader (Some r) ∧ c = OLCCell w) as [-> | (r & w & -> & ->)].
  { unfold holds in Hg. destruct st; simpl in Hg, st_ok; try done; destruct c, g as [| | | |[r|]| | | | |];
      try done; try (by left); right; by eexists _, _. }
  - by apply (upgrade_refines b g c).
  - unfold holds, guard_upgrade, guard_at in *. destruct st; simpl in Hg, st_ok; try done; simpl.
    unfold pin_upgrade, OptCell.pin_lock. repeat case_match; intros; simplify_eq/=; (split; [done|]).
    all: first [exists [true]; intros s _; by exists []|exists [false]; intros s _; by exists []].
Qed.

Lemma downgrade_refines b g c :
  holds st g c → kind_of (downgrade g c).1 = g_kind (guard_downgrade st (guard_at b g)).
Proof.
  unfold holds, guard_downgrade, guard_at. intros Hg.
  destruct st; simpl in st_ok; try done; destruct c, g as [| | | |[r|]| | | | |]; try done.
  simpl in Hg |- *. by rewrite Hg.
Qed.

Lemma inspect_refines b g c : holds st g c →
  guard_valid_local (guard_at b g) = is_valid_local g ∧
  can_deref_unsafe g = guard_valid_local (guard_at b g) ∧ can_deref g c = is_valid g c ∧
  (can_deref_mut g = true ↔ kind_of g = GuardFree ∨ kind_of g = GuardWriter) ∧
  (is_append_pin g = false → is_write_lock g = is_write_guard (guard_at b g)).
Proof.
  unfold holds, guard_valid_local, is_write_guard, guard_at. intros Hg.
  destruct st; simpl in st_ok; try done; destruct c, g as [| | | |[r|]| | | | |]; try done; naive_solver.
Qed.

Lemma not_obsolete_refines b g c :
  holds st g c → may (guard_valid st (guard_at b g)) (is_read_not_obsolete_result g c).1.
Proof.
  unfold holds, guard_valid, guard_at. intros Hg.
  destruct st; simpl in st_ok; try done; destruct c, g as [| | | |[r|]| | | | |]; try done; try apply may_ret.
  eexists [_]. intros s _. exists []. reflexivity.
Qed.
End latch.

(** C33: the guards of the tree stand for those of the cells. For the strategies
    whose splits seal nothing, whatever a cell answers (to a borrow, a validation,
    an upgrade for writing or for appending, a downgrade, a dereference), and
    whatever other threads did to it before, is an answer of the tree's guard for
    some draw of lost latches: what holds of the tree for all draws holds of the
    code with its cells. *)
Theorem guards_refine_cells {S : Type} st b c :
  split_seals (latch_type st) = false → cell_of st c →
  (∀ how g c', borrows st how → borrow how c = Some (g, c') →
    holds st g c' ∧ may (S := S) (borrow_as st how b) (guard_at b g)) ∧
  ∀ g, holds st g c →
    may (S := S) (guard_valid st (guard_at b g)) (is_valid g c) ∧
    may (S := S) (guard_valid st (guard_at b g)) (is_read_not_obsolete_result g c).1 ∧
    guard_valid_local (guard_at b g) = is_valid_local g ∧
    can_deref g c = is_valid g c ∧ can_deref_unsafe g = guard_valid_local (guard_at b g) ∧
    (can_deref_mut g = true ↔ kind_of g = GuardFree ∨ kind_of g = GuardWriter) ∧
    kind_of (downgrade g c).1 = g_kind (guard_downgrade st (guard_at b g)) ∧
    (is_append_pin g = false →
      is_write_lock g = is_write_guard (guard_at b g) ∧
      (∀ ok g' c', upgrade_write_lock g c = Some (ok, g', c') →
        holds st g' c' ∧ may (S := S) (guard_upgrade st (guard_at b g)) (ok, guard_at b g')) ∧
      (∀ ok g' c', upgrade_append_lock g c = Some (ok, g', c') →
        holds st g' c' ∧ may (S := S) (guard_upgrade st (guard_at b g)) (ok, guard_at b g'))).
Proof.
  intros Hst Hc. split; [intros; by eapply borrow_refines|]. intros g Hg.
  destruct (inspect_refines st Hst b g c Hg) as (H1 & H2 & H3 & H4 & H5). split_and!; try done.
  - by apply valid_refines.
  - by apply not_obsolete_refines.
  - by apply downgrade_refines.
  - intros Hp. split; [by apply H5|]. split; intros; [by eapply upgrade_refines|by eapply append_refines].
Qed.

(** An optimistic cell that a writer locked since it was read: the upgrade fails. *)
Lemma guards_refine_cells_witness :
  may (S := Z) (guard_upgrade OLC (guard_at 7 (OLCReader (Some 0%Z))))
    (false, guard_at 7 (OLCReader (Some 0%Z))).
Proof.
  destruct (guards_refine_cells (S := Z) OLC 7 (OLCCell WRITE_FLAG_VERSION) eq_refl Logic.I) as [_ H].
  destruct (H (OLCReader (Some 0%Z)) eq_refl) as (_ & _ & _ & _ & _ & _ & _ & Hu).
  destruct (Hu eq_refl) as (_ & Hw & _). by destruct (Hw false _ _ eq_refl).
Defined.
