(* ===== verification/DexaDispatch.v ===== *)
(** * Operations of the baseline trees

    Every arm of [src/src/dexa/mvb_crud_model/dispatch.rs] on the whole tree: a
    descent, and what [VersionedLeaf.v] says the operation does to the leaf. A
    tree whose records are lists of the vWeaver also threads links between the
    records of neighbouring keys and scans along them: the arms that do are in
    [DexaWeaver.v]. *)
From S2P Require Import Prelude Version Interval Clock VersionHistory VersionedLeaf.
From S2P Require Import DexaLocking DexaCell DexaTree DexaSmo DexaDescent DexaScan.
#[local] Set Default Proof Using "Type*".

Section dispatch.
Context {P S : Type} `{!VersionStore P S}.
Context (FAN_OUT NUM_RECORDS : nat) (locking_strategy : LockingStrategy) (gc : bool) (me : Tid).
Context (Key_default : Z) (Payload_default : P) (is_weaver : bool).
Context (version_index_new : Z → P → Version → S).
Local Abbreviation St := (MVBPlusTree S).
Local Abbreviation Comp := (Comp St).
Local Abbreviation Result := (CRUDOperationResult P).
Implicit Types (key : Z) (payload : P) (toss : bool) (guard : BlockGuard).
Local Abbreviation traversal_write := (traversal_write (P := P) FAN_OUT NUM_RECORDS locking_strategy gc).
Local Abbreviation traversal_write_olc_op :=
  (traversal_write_olc_op (P := P) FAN_OUT NUM_RECORDS locking_strategy gc).
Local Abbreviation guard_deref := (guard_deref locking_strategy).
Local Abbreviation guard_valid := (guard_valid locking_strategy).
Local Abbreviation olc := (is_optimistic locking_strategy).

(** The descent of a write; [append_op] if it does not add a record. *)
Definition write_guard (fuel : nat) (append_op : bool) key : Comp BlockGuard :=
  if olc then traversal_write_olc_op fuel key append_op else traversal_write fuel key.

(** A commit: a version is drawn, the leaf changed, the version published. *)
Definition commit_at guard (f : Version → Node S → option (Result * Node S)) : Comp Result :=
  version ← start_tx_commit me;
  node ← guard_deref_mut guard;
  '(ret, node) ← lift (f version node);
  write_block (g_block guard) node;;
  end_tx_commit me version;;
  mret ret.

Definition delete_arm (fuel : nat) toss key : Comp Result :=
  guard ← write_guard fuel true key;
  commit_at guard (λ del_version node, delete_at_leaf toss node key del_version).

Definition insert_arm (fuel : nat) toss key payload : Comp Result :=
  guard ← write_guard fuel false key;
  commit_at guard (λ ingest_version node,
    insert_at_leaf NUM_RECORDS version_index_new toss node key payload ingest_version).

Definition update_arm (fuel : nat) toss key payload : Comp Result :=
  guard ← write_guard fuel true key;
  commit_at guard (λ update_version node, update_at_leaf toss node key payload update_version).

(** A record at one end of a leaf, which takes a version only if it is live. *)
Definition pop_at toss guard (at_end : bool) : Comp Result :=
  node ← guard_deref guard;
  node ← unwrap node;
  records ← lift (as_records node);
  match records with
  | [] => mret Error
  | _ =>
      let pos := if at_end then length records - 1 else 0 in
      v_record ← lift (records !! pos);
      live ← lift (vs_is_live (P := P) (version_index v_record));
      if negb live then mret Error
      else commit_at guard (λ del_version node, pop_record toss node pos del_version)
  end.

Definition pop_min_arm (fuel : nat) toss : Comp Result :=
  guard ← write_guard fuel true START_KEY; pop_at toss guard false.
Definition pop_max_arm (fuel : nat) toss : Comp Result :=
  guard ← write_guard fuel true END_KEY; pop_at toss guard true.

(** An optimistic read whose leaf was changed under it is dispatched again. *)
Fixpoint read_valid (attempts fuel : nat) key (f : Node S → option Result) : Comp Result :=
  match attempts with
  | 0 => panic
  | Datatypes.S attempts =>
      leaf_guard ← traversal_read_olc locking_strategy fuel key;
      leaf_page ← guard_deref_unsafe leaf_guard;
      leaf_page ← unwrap leaf_page;
      valid ← guard_valid leaf_guard;
      if (valid : bool) then lift (f leaf_page) else read_valid attempts fuel key f
  end.

Definition read_locked (fuel : nat) key (f : Node S → option Result) : Comp Result :=
  leaf_guard ← traversal_read locking_strategy fuel key;
  leaf_page ← guard_deref leaf_guard;
  leaf_page ← unwrap leaf_page;
  lift (f leaf_page).

Definition point_arm (fuel : nat) key (version : Version) : Comp Result :=
  if olc then read_valid fuel fuel key (λ node, point_olc node key version)
  else read_locked fuel key (λ node, point_locked Key_default Payload_default node key version).

Definition peek_arm (fuel : nat) key (f : Node S → option Result) : Comp Result :=
  if olc then read_valid fuel fuel key f else read_locked fuel key f.

(** The scan along the links of the vWeaver is [scan_arm] of [DexaWeaver.v]. *)
Definition range_arm (fuel : nat) (interval : Interval) (version : Version) : Comp Result :=
  if is_weaver then panic
  else matches ← range_lazy locking_strategy fuel interval version; mret (MatchedRecords matches).

Definition dispatch (fuel : nat) toss (crud_operation : CRUDOperation P) : Comp Result :=
  match crud_operation with
  | Delete key => delete_arm fuel toss key
  | Insert key payload => insert_arm fuel toss key payload
  | Update key payload => update_arm fuel toss key payload
  | Point key version => point_arm fuel key version
  | PointSi key => version ← current_version_for_reader me; point_arm fuel key version
  | Range interval version => range_arm fuel interval version
  | RangeSi interval => version ← current_version_for_reader me; range_arm fuel interval version
  | PeekMin => peek_arm fuel START_KEY peek_min
  | PeekMax => peek_arm fuel END_KEY peek_max
  | PopMin => pop_min_arm fuel toss
  | PopMax => pop_max_arm fuel toss
  | Empty => mret Error
  | UpdateRand | DeleteRand | InsertRand => panic
  end.

(** The operations of a run, one after the other, with the coin of each. *)
Fixpoint dispatch_all (fuel : nat) (ops : list (bool * CRUDOperation P)) : Comp (list Result) :=
  match ops with
  | [] => mret []
  | (toss, op) :: ops =>
      res ← dispatch fuel toss op;
      rest ← dispatch_all fuel ops;
      mret (res :: rest)
  end.
End dispatch.
