(* ===== verification/DexaWeaver.v ===== *)
(** * The links of the vWeaver

    [src/src/dexa/mvb_version_index/v_weaver.rs]: in a tree whose records are
    lists of the vWeaver, a write links the version it replaces to the newest
    version of the next key ([weaver_callback]), and a scan follows these links
    across the keys instead of visiting every leaf ([weaver_scan_dispatch]). A
    node of a list is shared and does not change but for its link; so the links
    are kept beside the tree, under the key and the version of the node they
    leave, which no other node has. *)
From S2P Require Import Prelude Version Interval Clock VersionHistory VersionLists VersionedLeaf.
From S2P Require Import DexaLocking DexaCell DexaTree DexaSmo DexaDescent DexaScan DexaDispatch.
#[local] Set Default Proof Using "Type*".

(** ** A list of the vWeaver as the index of a record

    The arms for [VWEAVER] of [version_index.rs]. *)
Section store.
Context {P : Type}.
Local Abbreviation Node := (VWeaverNodeSt P).

#[export] Instance Weaver_store : VersionStore P Node := {|
  vs_push toss n v p := Weaver.push toss n (Some p) v;
  vs_append toss n v p := Weaver.append toss n (Some p) v;
  vs_delete toss n v := Weaver.delete toss n v;
  vs_find n v := found ← Weaver.find n v; Weaver.node_record found;
  vs_is_live n := Some (Weaver.is_live n);
  vs_newest_payload n := Weaver.newest_payload n;
  vs_clone _ n := Some (Weaver.clone n);
|}.

Definition wn_next (n : Node) : option Node := let '(WNode next _ _ _ _ _) := n in next.
Definition node_id (n : Node) : Z * Version := (Weaver.wn_key n, Weaver.wn_version n).
End store.

Section weaver.
Context {P : Type}.
Local Abbreviation Node := (VWeaverNodeSt P).
Local Abbreviation St := (MVBPlusTree Node).
Local Abbreviation Record := (VersionedRecordPoint Node).
Context (FAN_OUT NUM_RECORDS : nat) (locking_strategy : LockingStrategy) (gc : bool) (me : Tid).
Context (Key_default : Z) (Payload_default : P).
Implicit Types (g : BlockGuard) (from_key : Z) (version from_version : Version) (records : list Record).
Local Abbreviation guard_valid := (guard_valid locking_strategy).
Local Abbreviation guard_deref := (guard_deref locking_strategy).

Record WeaverTree := mkWeaver { tree : St; k_ridgy : gmap (Z * Version) Node }.

Definition on_tree {A} (m : Comp St A) : Comp WeaverTree A := λ w,
  '(a, s) ← m (tree w); Some (a, mkWeaver s (k_ridgy w)).

(** ** Linking *)
Definition link (from target : Node) : Comp WeaverTree () :=
  modify (λ w, mkWeaver (tree w) (<[node_id from := target]> (k_ridgy w))).

(** What a thread finds of a leaf it holds itself: nothing keeps it from a leaf
    without a latch, or pinned; a version word with its write flag is not
    readable, so that the leaf is as good as sealed ([unreadable_borrow] in
    [DexaLatch.v]); and on a lock of its own it blocks, so that a search that
    meets the leaf has no result. *)
Definition holding {A} (pinned : bool) (leaf : BlockRef) (m : Comp St A) : Comp St A :=
  match locking_strategy with
  | MonoWriter => m
  | LockCoupling | ORWC _ _ =>
      bs ← gets blocks;
      modify (set_blocks (delete leaf bs));; a ← m; modify (set_blocks bs);; mret a
  | OLC | LightweightHybridLock _ _ _ _ | HybridLocking _ =>
      if pinned && negb (is_hybrid_lock locking_strategy) then m
      else
        sealed ← gets obsolete;
        modify (set_obsolete ({[leaf]} ∪ sealed));; a ← m; modify (set_obsolete sealed);; mret a
  end.

(** The node of the first record above the key: [None] if the leaf was changed
    under the search, [Some None] if there is no such record. *)
Fixpoint first_above g from_key from_version records : Comp St (option (option Node)) :=
  match records with
  | [] => mret (Some None)
  | r :: records =>
      above ← (if (from_key <? vr_key r)%Z then guard_valid g else mret false);
      if (above : bool) then
        found ← lift (Weaver.find_any (version_index r) from_version); mret (Some found)
      else
        valid ← guard_valid g;
        if negb valid then mret None else first_above g from_key from_version records
  end.

Fixpoint find_neighbour (fuel : nat) (path : Path) (parent_index : Z) from_key from_version
    : Comp St (option Node) :=
  match fuel with
  | 0 => panic
  | S fuel =>
      path ← next_leaf_page locking_strategy fuel path parent_index (inc_key from_key);
      let parent_index := Z.of_nat (length path - 2) in
      '(_, next_leaf_guard) ← lift (last path);
      let path := take (length path - 1) path in
      let again := find_neighbour fuel path parent_index from_key from_version in
      next_leaf ← guard_deref next_leaf_guard;
      match next_leaf with
      | None => again
      | Some next_leaf =>
          records ← lift (as_records next_leaf);
          neighbour_r ← first_above next_leaf_guard from_key from_version records;
          match neighbour_r with
          | None => again
          | Some neighbour_r =>
              valid ← guard_valid next_leaf_guard;
              if negb valid then again else mret neighbour_r
          end
      end
  end.

Definition weaver_callback (fuel : nat) (pinned : bool) g from_key from_version : Comp WeaverTree () :=
  from_leaf ← on_tree (guard_deref_unsafe g);
  from_leaf ← lift from_leaf;
  records ← lift (as_records from_leaf);
  index ← lift (match binary_search_by_key vr_key from_key records with
                | inl index => Some index | inr _ => None end);
  current_record ← lift (records !! index);
  found ← lift (Weaver.find_any (version_index current_record) from_version);
  current_weaver_node ← lift found;
  links ← gets k_ridgy;
  match wn_next current_weaver_node with
  | Some curr_next =>
      match links !! node_id curr_next with
      | Some _ => mret ()
      | None =>
          next_weaver_node ←
            (if decide (S index < length records) then
               r ← lift (records !! S index);
               lift (Weaver.find_any (version_index r) from_version)
             else
               on_tree (holding pinned (g_block g) (find_neighbour fuel [] 0%Z from_key from_version)));
          match next_weaver_node with
          | Some next_weaver_node => link curr_next next_weaver_node
          | None => mret ()
          end
      end
  | None => mret ()
  end.

(** ** Scanning *)
Fixpoint skip_while {A} (p : A → bool) (l : list A) : list A :=
  match l with [] => [] | x :: l' => if p x then skip_while p l' else l end.

Fixpoint find_weaver version records : option (option Node) :=
  match records with
  | [] => Some None
  | r :: records =>
      found ← Weaver.find (version_index r) version;
      match found with Some n => Some (Some n) | None => find_weaver version records end
  end.

(** The records along the links of a node, and the last key found; a deletion on
    the way is passed by. *)
Fixpoint ridgy (fuel : nat) (links : gmap (Z * Version) Node) (interval : Interval) version
    (current : option Node) (last_key : Z) : option (Z * list (Z * P)) :=
  match current, fuel with
  | None, _ => Some (last_key, [])
  | Some _, 0 => None
  | Some node, S fuel =>
      let next := links !! node_id node in
      match Weaver.wn_payload node with
      | None => ridgy fuel links interval version next last_key
      | Some _ =>
          if negb (Interval.contains interval (Weaver.wn_key node)) then Some (last_key, [])
          else
            found ← Weaver.find_from node version false;
            match found with
            | None => ridgy fuel links interval version next last_key
            | Some n =>
                payload ← Weaver.wn_payload n;
                '(last_key, records) ← ridgy fuel links interval version next (Weaver.wn_key n);
                Some (last_key, (Weaver.wn_key n, payload) :: records)
            end
      end
  end.

Fixpoint scan_loop (fuel : nat) (path : Path) (parent_index : Z) (interval : Interval) version
    : Comp WeaverTree (list (Z * P)) :=
  match fuel with
  | 0 => panic
  | S fuel =>
      path ← on_tree (next_leaf_page locking_strategy fuel path parent_index (lower interval));
      let parent_index := Z.of_nat (length path - 2) in
      match last path with
      | None => mret []
      | Some (leaf_fence, leaf_guard) =>
          let path := take (length path - 1) path in
          '(ok, leaf_guard) ← on_tree (upgrade_append locking_strategy leaf_guard);
          if negb ok then scan_loop fuel path parent_index interval version
          else
            leaf ← on_tree (guard_deref_unsafe leaf_guard);
            leaf ← lift leaf;
            records ← lift (as_records leaf);
            in_range ← lift (records_in interval records);
            first ← lift (find_weaver version
              (skip_while (λ r, negb (Interval.contains interval (vr_key r))) in_range));
            links ← gets k_ridgy;
            '(lower', result) ← lift (match first with
              | Some weaver_node =>
                  '(last_key, result) ←
                    ridgy fuel links interval version (Some weaver_node) (Weaver.wn_key weaver_node);
                  Some (inc_key last_key, result)
              | None => Some (inc_key (upper leaf_fence), [])
              end);
            if ((upper interval <? lower') || (lower' <=? lower interval))%Z then mret result
            else
              rest ← scan_loop fuel path parent_index (Interval.set_lower interval lower') version;
              mret (result ++ rest)
      end
  end.

Definition weaver_scan_dispatch (fuel : nat) (interval : Interval) version
    : Comp WeaverTree (list (Z * P)) :=
  scan_loop fuel [] 0%Z interval version.

(** ** The operations *)
Local Abbreviation Result := (CRUDOperationResult P).
Local Abbreviation write_guard := (write_guard (P := P) FAN_OUT NUM_RECORDS locking_strategy gc).

(** A commit of a single record, and its link. *)
Definition commit_linked (fuel : nat) (append_op : bool) g key (f : Version → _ → option (Result * _))
    : Comp WeaverTree Result :=
  version ← on_tree (start_tx_commit me);
  node ← on_tree (guard_deref_mut g);
  '(ret, node) ← lift (f version node);
  on_tree (write_block (g_block g) node);;
  (match ret with
   | Deleted _ | Inserted _ | Updated _ => weaver_callback fuel append_op g key version
   | _ => mret ()
   end);;
  on_tree (end_tx_commit me version);;
  mret ret.

Definition scan_arm (fuel : nat) (interval : Interval) version : Comp WeaverTree Result :=
  matches ← weaver_scan_dispatch fuel interval version; mret (MatchedRecords matches).

Definition dispatch_weaver (fuel : nat) (toss : bool) (crud_operation : CRUDOperation P)
    : Comp WeaverTree Result :=
  match crud_operation with
  | Delete key =>
      guard ← on_tree (write_guard fuel true key);
      commit_linked fuel true guard key (λ del_version node, delete_at_leaf toss node key del_version)
  | Insert key payload =>
      guard ← on_tree (write_guard fuel false key);
      commit_linked fuel false guard key (λ ingest_version node,
        insert_at_leaf NUM_RECORDS Weaver.new toss node key payload ingest_version)
  | Update key payload =>
      guard ← on_tree (write_guard fuel true key);
      commit_linked fuel true guard key (λ update_version node,
        update_at_leaf toss node key payload update_version)
  | Range interval version => scan_arm fuel interval version
  | RangeSi interval =>
      version ← on_tree (current_version_for_reader me); scan_arm fuel interval version
  | _ => on_tree (dispatch FAN_OUT NUM_RECORDS locking_strategy gc me Key_default Payload_default true
           Weaver.new fuel toss crud_operation)
  end.

Fixpoint dispatch_weaver_all (fuel : nat) (ops : list (bool * CRUDOperation P))
    : Comp WeaverTree (list Result) :=
  match ops with
  | [] => mret []
  | (toss, op) :: ops =>
      res ← dispatch_weaver fuel toss op;
      rest ← dispatch_weaver_all fuel ops;
      mret (res :: rest)
  end.

Definition make_weaver : WeaverTree := mkWeaver make ∅.
End weaver.
Arguments WeaverTree : clear implicits.
