(* ===== verification/DexaKeys.v ===== *)
(** * Separators of the baseline trees

    The keys of an index page cut the interval of the page into those of its
    children. The search finds the child of a key, and the cuts of a split or a
    new separator are again such cuts. *)
From S2P Require Import Prelude Version Interval VersionedLeaf.
From S2P Require Import DexaLocking DexaCell DexaTree DexaSmo DexaDescent DexaScan.
From Stdlib Require Import ZifyNat.
Local Open Scope Z_scope.

Definition ALL_KEYS : Interval := Interval.new START_KEY END_KEY.

Section separators.
Implicit Types (I J : Interval) (keys : list Z) (k : Z) (i j pos : nat).

Record seps_ok I keys : Prop := {
  so_sorted : StronglySorted Z.lt keys;
  so_range k : k ∈ keys → lower I < k ≤ upper I ∧ k < END_KEY;
  so_lower : START_KEY ≤ lower I;
  so_upper : upper I ≤ END_KEY;
}.

Lemma sorted_lookup keys i j a b :
  StronglySorted Z.lt keys → keys !! i = Some a → keys !! j = Some b → (i < j)%nat → a < b.
Proof.
  intros Hs Hi Hj Hij. rewrite -(take_drop j keys) in Hs.
  apply (StronglySorted_app_1_elem_of Z.lt _ _ _ _ Hs).
  - apply list_elem_of_lookup. exists i. by rewrite lookup_take_lt.
  - apply list_elem_of_lookup. exists 0%nat. by rewrite lookup_drop Nat.add_0_r.
Qed.

Lemma sorted_le_lookup keys i j a b :
  StronglySorted Z.lt keys → keys !! i = Some a → keys !! j = Some b → (i ≤ j)%nat → a ≤ b.
Proof.
  intros Hs Hi Hj Hij. destruct (decide (i = j)) as [->|]; [by simplify_eq|].
  apply Z.lt_le_incl. eapply sorted_lookup; [done..|lia].
Qed.

(** ** The bounds of a child *)
Definition lo_at I keys i : Z := match i with 0%nat => lower I | S j => default (lower I) (keys !! j) end.
Definition up_at I keys i : Z := match keys !! i with Some k => k - 1 | None => upper I end.

Lemma child_interval_at I keys i :
  seps_ok I keys → child_interval keys i I = Interval.new (lo_at I keys i) (up_at I keys i).
Proof.
  intros [_ Hr H0 _]. unfold child_interval, lo_at, up_at. f_equal.
  destruct (keys !! i) as [k|] eqn:E; [|done].
  apply list_elem_of_lookup_2 in E. specialize (Hr k E). unfold dec_key, START_KEY in *.
  rewrite (proj2 (Z.leb_le 0 (k - 1))); lia.
Qed.

Lemma lo_at_range I keys i : seps_ok I keys → lower I ≤ upper I → lower I ≤ lo_at I keys i ≤ upper I.
Proof.
  intros [_ Hr _ _] HI. unfold lo_at. destruct i as [|i]; [lia|].
  destruct (keys !! i) as [k|] eqn:E; simpl; [|lia].
  apply list_elem_of_lookup_2 in E. specialize (Hr k E). lia.
Qed.

Lemma up_at_range I keys i : seps_ok I keys → lower I ≤ upper I → lower I ≤ up_at I keys i ≤ upper I.
Proof.
  intros [_ Hr _ _] HI. unfold up_at. destruct (keys !! i) as [k|] eqn:E; [|lia].
  apply list_elem_of_lookup_2 in E. specialize (Hr k E). lia.
Qed.

(** Bounds of different children are apart. *)
Lemma bounds_apart I keys i j :
  seps_ok I keys → (i < j ≤ length keys)%nat → up_at I keys i < lo_at I keys j.
Proof.
  intros Hok Hij. destruct j as [|j]; [lia|]. unfold up_at, lo_at.
  destruct (lookup_lt_is_Some_2 keys i) as [a Ha]; [lia|].
  destruct (lookup_lt_is_Some_2 keys j) as [b Hb]; [lia|]. rewrite Ha Hb. simpl.
  pose proof (sorted_le_lookup _ _ _ _ _ (so_sorted _ _ Hok) Ha Hb ltac:(lia)). lia.
Qed.

Lemma bounds_nonempty I keys i :
  seps_ok I keys → lower I ≤ upper I → (i ≤ length keys)%nat → lo_at I keys i ≤ up_at I keys i.
Proof.
  intros Hok HI Hi. destruct i as [|i]; [by apply up_at_range|]. unfold lo_at.
  destruct (lookup_lt_is_Some_2 keys i) as [a Ha]; [lia|]. rewrite Ha. simpl.
  pose proof (so_range _ _ Hok a (list_elem_of_lookup_2 _ _ _ Ha)) as Hr.
  unfold up_at. destruct (keys !! S i) as [b|] eqn:Hb; [|lia].
  pose proof (sorted_lookup _ _ _ _ _ (so_sorted _ _ Hok) Ha Hb ltac:(lia)). lia.
Qed.

Lemma child_within I keys i k :
  seps_ok I keys → lower I ≤ upper I → Interval.contains (child_interval keys i I) k = true →
  Interval.contains I k = true.
Proof.
  intros Hok HI. rewrite child_interval_at // !contains_spec. simpl.
  pose proof (lo_at_range I keys i Hok HI). pose proof (up_at_range I keys i Hok HI). lia.
Qed.

Lemma child_nonempty I keys i :
  seps_ok I keys → lower I ≤ upper I → (i ≤ length keys)%nat →
  lower (child_interval keys i I) ≤ upper (child_interval keys i I).
Proof. intros Hok HI Hi. rewrite child_interval_at //. by apply bounds_nonempty. Qed.

Lemma child_unique I keys i j k :
  seps_ok I keys → (i ≤ length keys)%nat → (j ≤ length keys)%nat →
  Interval.contains (child_interval keys i I) k = true →
  Interval.contains (child_interval keys j I) k = true → i = j.
Proof.
  intros Hok Hi Hj. rewrite !child_interval_at // !contains_spec. simpl. intros H1 H2.
  destruct (decide (i < j)%nat); [pose proof (bounds_apart I keys i j Hok); lia|].
  destruct (decide (j < i)%nat); [pose proof (bounds_apart I keys j i Hok); lia|]. lia.
Qed.

(** ** The search *)
Lemma child_position_spec keys key :
  StronglySorted Z.lt keys →
  (child_position keys key ≤ length keys)%nat ∧
  (∀ j a, keys !! j = Some a → (j < child_position keys key)%nat → a < key) ∧
  (∀ j a, keys !! j = Some a → (child_position keys key ≤ j)%nat → key ≤ a).
Proof.
  intros Hs. assert (sorted_by id keys) as Hs' by by rewrite /sorted_by list_fmap_id.
  unfold child_position. destruct (binary_search_by_key id key keys) as [pos|pos] eqn:E.
  - destruct (search_found id keys key pos E) as (x & Hx & Hid). unfold id in Hid. subst x.
    pose proof (lookup_lt_Some _ _ _ Hx). split_and!; [lia|..].
    + intros j a Ha Hj. exact (sorted_lookup _ _ _ _ _ Hs Ha Hx Hj).
    + intros j a Ha Hj. exact (sorted_le_lookup _ _ _ _ _ Hs Hx Ha Hj).
  - pose proof (search_missing id keys key pos E) as [Hp _].
    destruct (search_split id keys key pos Hs' E) as [H1 H2]. split_and!.
    + rewrite Hp. apply length_filter.
    + intros j a Ha Hj. apply (H1 a). apply list_elem_of_lookup. exists j. by rewrite lookup_take_lt.
    + intros j a Ha Hj. apply Z.lt_le_incl, (H2 a). apply list_elem_of_lookup. exists (j - pos)%nat.
      rewrite lookup_drop. by replace (pos + (j - pos))%nat with j by lia.
Qed.

(** The successor of a key leads to the child the key lies in. *)
Lemma child_position_contains I keys k :
  seps_ok I keys → Interval.contains I k = true →
  (child_position keys (inc_key k) ≤ length keys)%nat ∧
  Interval.contains (child_interval keys (child_position keys (inc_key k)) I) k = true.
Proof.
  intros Hok Hk. destruct (child_position_spec keys (inc_key k) (so_sorted _ _ Hok)) as (Hl & H1 & H2).
  split; [done|]. rewrite child_interval_at //. apply contains_spec in Hk. apply contains_spec. simpl.
  pose proof (so_upper _ _ Hok) as HU. unfold inc_key, END_KEY in *.
  set (pos := child_position _ _) in *. split.
  - unfold lo_at. destruct pos as [|j]; [lia|]. destruct (keys !! j) as [a|] eqn:Ha; simpl; [|lia].
    specialize (H1 j a Ha ltac:(lia)). destruct (k + 1 <=? U64_MAX) eqn:Ek; lia.
  - unfold up_at. destruct (keys !! pos) as [a|] eqn:Ha; [|lia].
    specialize (H2 pos a Ha ltac:(lia)).
    pose proof (so_range _ _ Hok a (list_elem_of_lookup_2 _ _ _ Ha)). unfold END_KEY in *.
    destruct (k + 1 <=? U64_MAX) eqn:Ek; lia.
Qed.

(** ** Splitting a page in two *)
Definition left_of I k : Interval := Interval.new (lower I) (k - 1).
Definition right_of I k : Interval := Interval.new k (upper I).

Lemma seps_take I keys n k3 :
  seps_ok I keys → keys !! n = Some k3 → seps_ok (left_of I k3) (take n keys).
Proof.
  intros Hok Hk. pose proof (so_range _ _ Hok k3 (list_elem_of_lookup_2 _ _ _ Hk)). split; simpl.
  - pose proof (so_sorted _ _ Hok) as Hs. rewrite -(take_drop n keys) in Hs.
    by apply StronglySorted_app_1_l in Hs.
  - intros k (j & Hj)%list_elem_of_lookup. apply lookup_take_Some in Hj as [Hj Hn].
    pose proof (so_range _ _ Hok k (list_elem_of_lookup_2 _ _ _ Hj)).
    pose proof (sorted_lookup _ _ _ _ _ (so_sorted _ _ Hok) Hj Hk Hn). lia.
  - apply Hok.
  - pose proof (so_upper _ _ Hok). lia.
Qed.

Lemma seps_drop I keys n k3 :
  seps_ok I keys → keys !! n = Some k3 → seps_ok (right_of I k3) (drop (S n) keys).
Proof.
  intros Hok Hk. pose proof (so_range _ _ Hok k3 (list_elem_of_lookup_2 _ _ _ Hk)). split; simpl.
  - pose proof (so_sorted _ _ Hok) as Hs. rewrite -(take_drop (S n) keys) in Hs.
    by apply StronglySorted_app_1_r in Hs.
  - intros k (j & Hj)%list_elem_of_lookup. rewrite lookup_drop in Hj.
    pose proof (so_range _ _ Hok k (list_elem_of_lookup_2 _ _ _ Hj)).
    pose proof (sorted_lookup _ _ _ _ _ (so_sorted _ _ Hok) Hk Hj ltac:(lia)). lia.
  - pose proof (so_lower _ _ Hok). lia.
  - apply Hok.
Qed.

Lemma child_of_left I keys n k3 i :
  seps_ok I keys → keys !! n = Some k3 → (i ≤ n)%nat →
  child_interval (take n keys) i (left_of I k3) = child_interval keys i I.
Proof.
  intros Hok Hk Hi. rewrite !child_interval_at //; [|by eapply seps_take].
  pose proof (lookup_lt_Some _ _ _ Hk) as Hlt. f_equal.
  - unfold lo_at. destruct i as [|i]; [done|]. rewrite lookup_take_lt; [|lia].
    by destruct (lookup_lt_is_Some_2 keys i ltac:(lia)) as [a ->].
  - unfold up_at. destruct (decide (i = n)) as [->|].
    + rewrite Hk lookup_ge_None_2 //. rewrite length_take. lia.
    + rewrite lookup_take_lt; [|lia]. by destruct (lookup_lt_is_Some_2 keys i ltac:(lia)) as [a ->].
Qed.

Lemma child_of_right I keys n k3 i :
  seps_ok I keys → keys !! n = Some k3 → (S n + i ≤ length keys)%nat →
  child_interval (drop (S n) keys) i (right_of I k3) = child_interval keys (S n + i) I.
Proof.
  intros Hok Hk Hi. rewrite !child_interval_at //; [|by eapply seps_drop]. f_equal.
  - unfold lo_at. simpl. destruct i as [|i]; [by rewrite Nat.add_0_r Hk|]. rewrite lookup_drop.
    replace (n + S i)%nat with (S n + i)%nat by lia.
    by destruct (lookup_lt_is_Some_2 keys (S n + i) ltac:(lia)) as [a ->].
  - unfold up_at. by rewrite lookup_drop.
Qed.

(** ** One more separator *)
Definition keys_insert (pos : nat) k keys : list Z := take pos keys ++ k :: drop pos keys.

Lemma keys_insert_lookup pos k keys i :
  (pos ≤ length keys)%nat →
  keys_insert pos k keys !! i =
    if decide (i < pos)%nat then keys !! i else if decide (i = pos) then Some k else keys !! (i - 1)%nat.
Proof.
  intros Hp. unfold keys_insert. case_decide as C1; [|case_decide as C2].
  - rewrite lookup_app_l; [|rewrite length_take; lia]. by rewrite lookup_take_lt.
  - subst. rewrite lookup_app_r length_take; [|lia]. by replace (pos - pos `min` length keys)%nat with 0%nat by lia.
  - rewrite lookup_app_r length_take; [|lia]. rewrite lookup_cons_ne_0; [|lia].
    rewrite lookup_drop. f_equal. lia.
Qed.

Lemma seps_insert I keys pos k3 :
  seps_ok I keys → (pos ≤ length keys)%nat →
  lo_at I keys pos < k3 ≤ up_at I keys pos → k3 < END_KEY → lower I ≤ upper I →
  seps_ok I (keys_insert pos k3 keys).
Proof.
  intros Hok Hp Hk3 HE HI. pose proof (lo_at_range I keys pos Hok HI).
  pose proof (up_at_range I keys pos Hok HI). split; [|..|apply Hok|apply Hok].
  - unfold keys_insert. pose proof (so_sorted _ _ Hok) as Hs. rewrite -(take_drop pos keys) in Hs.
    pose proof (StronglySorted_app_1_l _ _ _ Hs). pose proof (StronglySorted_app_1_r _ _ _ Hs).
    assert (∀ a, a ∈ take pos keys → a < k3) as Hbelow.
    { intros a (j & Hj)%list_elem_of_lookup. apply lookup_take_Some in Hj as [Hj Hlt].
      unfold lo_at in Hk3. destruct pos as [|q]; [lia|].
      destruct (lookup_lt_is_Some_2 keys q ltac:(lia)) as [b Hb]. rewrite Hb /= in Hk3.
      pose proof (sorted_le_lookup _ _ _ _ _ (so_sorted _ _ Hok) Hj Hb ltac:(lia)). lia. }
    assert (∀ a, a ∈ drop pos keys → k3 < a) as Habove.
    { intros a (j & Hj)%list_elem_of_lookup. rewrite lookup_drop in Hj. unfold up_at in Hk3.
      destruct (lookup_lt_is_Some_2 keys pos) as [b Hb]; [apply lookup_lt_Some in Hj; lia|].
      rewrite Hb in Hk3.
      pose proof (sorted_le_lookup _ _ _ _ _ (so_sorted _ _ Hok) Hb Hj ltac:(lia)). lia. }
    apply StronglySorted_app_2; [|done|].
    + intros x y Hx [->|Hy]%elem_of_cons; [by apply Hbelow|].
      specialize (Hbelow x Hx). specialize (Habove y Hy). lia.
    + constructor; [done|]. by apply Forall_forall.
  - intros k [Hk|[->|Hk]%elem_of_cons]%elem_of_app; [|lia|];
      (apply (so_range _ _ Hok); rewrite -(take_drop pos keys); set_solver).
Qed.

Lemma up_at_insert I keys pos k3 n :
  (pos ≤ length keys)%nat →
  up_at I (keys_insert pos k3 keys) n =
    if decide (n < pos)%nat then up_at I keys n
    else if decide (n = pos) then k3 - 1 else up_at I keys (n - 1).
Proof. intros Hp. unfold up_at. rewrite keys_insert_lookup //. by repeat case_decide. Qed.

Lemma lo_at_insert I keys pos k3 n :
  (pos ≤ length keys)%nat →
  lo_at I (keys_insert pos k3 keys) n =
    if decide (n ≤ pos)%nat then lo_at I keys n
    else if decide (n = S pos) then k3 else lo_at I keys (n - 1).
Proof.
  intros Hp. unfold lo_at. destruct n as [|n]; [by case_decide; [|lia]|].
  rewrite keys_insert_lookup //. simpl. rewrite Nat.sub_0_r.
  repeat case_decide; try lia; simplify_eq; try done.
  destruct n as [|n]; [lia|]. by rewrite /= Nat.sub_0_r.
Qed.

Lemma child_of_insert I keys pos k3 i :
  seps_ok I keys → (pos ≤ length keys)%nat → lo_at I keys pos < k3 ≤ up_at I keys pos →
  k3 < END_KEY → lower I ≤ upper I →
  child_interval (keys_insert pos k3 keys) i I =
    if decide (i < pos)%nat then child_interval keys i I
    else if decide (i = pos) then left_of (child_interval keys pos I) k3
    else if decide (i = S pos) then right_of (child_interval keys pos I) k3
    else child_interval keys (i - 1) I.
Proof.
  intros Hok Hp Hk3 HE HI. rewrite !child_interval_at //; [|by apply seps_insert].
  rewrite up_at_insert // lo_at_insert //. unfold left_of, right_of. simpl.
  repeat case_decide; simplify_eq; try lia; try done.
  by replace (S pos - 1)%nat with pos by lia.
Qed.
End separators.
