(* ===== verification/DexaInv.v ===== *)
(** * The invariant of the baseline trees

    A typing gives every block of the tree its depth and its keys. An index page
    cuts its keys among its children, a leaf stands for the part of the table in
    its keys ([VersionedLeaf.v]), no node but the root is less than half full,
    and blocks of one depth have no key in common. *)
From S2P Require Import Prelude Version Interval Clock VersionHistory VersionedLeaf.
From S2P Require Import DexaLocking DexaCell DexaTree DexaSmo DexaDescent DexaScan DexaKeys.
From Stdlib Require Import ZifyNat.
Ltac Zify.zify_post_hook ::= Z.div_mod_to_equations.
#[local] Set Default Proof Using "Type*".

Record Ty := mkTy { t_depth : nat; t_keys : Interval }.

(** The part of a table with keys in an interval. *)
Definition restrict {P} (I : Interval) (m : Table P) : Table P :=
  filter (λ kh, Interval.contains I kh.1 = true) m.

Lemma restrict_lookup {P} (I : Interval) (m : Table P) k :
  restrict I m !! k = if Interval.contains I k then m !! k else None.
Proof.
  unfold restrict. destruct (Interval.contains I k) eqn:E.
  - destruct (m !! k) as [h|] eqn:Hk.
    + by apply (map_lookup_filter_Some_2 (M := gmap Z)).
    + apply (map_lookup_filter_None_2 (M := gmap Z)). by left.
  - apply (map_lookup_filter_None_2 (M := gmap Z)). right. intros h _. simpl. by rewrite E.
Qed.

Section inv.
Context {P S : Type} `{!VersionStore P S, !VersionStoreLaws P S}.
Context (F N : nat).
Local Abbreviation St := (MVBPlusTree S).
Implicit Types (s : St) (Γ : gmap BlockRef Ty) (m : Table P) (D d : nat) (b c p r : BlockRef).
Implicit Types (I J : Interval) (node : Node S) (rs : list (VersionedRecordPoint S)).
Implicit Types (keys : list Z) (cs : list BlockRef) (full : Prop) (ty : Ty).

Definition fill_leaf : nat := N / 2.
Definition fill_index : nat := (F - 3) / 2.

Definition node_ok Γ m full ty node : Prop :=
  match node with
  | Leaf rs => t_depth ty = 0 ∧ leaf_rep rs (restrict (t_keys ty) m) ∧ length rs ≤ N ∧
      (full → fill_leaf ≤ length rs)
  | Index keys cs => ∃ d, t_depth ty = Datatypes.S d ∧ seps_ok (t_keys ty) keys ∧
      length cs = Datatypes.S (length keys) ∧ 1 ≤ length keys ≤ F - 2 ∧
      (full → fill_index ≤ length keys) ∧
      ∀ i c, cs !! i = Some c → Γ !! c = Some (mkTy d (child_interval keys i (t_keys ty)))
  end.

Record Inv s Γ D m : Prop := {
  inv_root : Γ !! root_block s = Some (mkTy D ALL_KEYS);
  inv_store b ty : Γ !! b = Some ty →
    ∃ node, blocks s !! b = Some node ∧ node_ok Γ m (b ≠ root_block s) ty node;
  inv_apart b c d I J k : Γ !! b = Some (mkTy d I) → Γ !! c = Some (mkTy d J) →
    Interval.contains I k = true → Interval.contains J k = true → b = c;
  inv_depth b ty : Γ !! b = Some ty →
    t_depth ty ≤ D ∧ (t_depth ty = D → b = root_block s) ∧ (lower (t_keys ty) ≤ upper (t_keys ty))%Z;
  inv_next b node : blocks s !! b = Some node → b < next_block s;
  inv_keys k h : m !! k = Some h → Interval.contains ALL_KEYS k = true;
  inv_height : root_height s = 1%Z;
  inv_sealed : obsolete s = ∅;
}.

Lemma Inv_set_latches s Γ D m l : Inv s Γ D m → Inv (set_latches l s) Γ D m.
Proof. by intros []. Qed.

Lemma Inv_set_clock s Γ D m cl : Inv s Γ D m → Inv (set_clock cl s) Γ D m.
Proof. by intros []. Qed.

Lemma Inv_alloc s Γ D m n : Inv s Γ D m → Inv (set_alloc n s) Γ D m.
Proof. by intros []. Qed.

Lemma inv_nonempty s Γ D m b d I :
  Inv s Γ D m → Γ !! b = Some (mkTy d I) → (lower I ≤ upper I)%Z.
Proof. intros HI Hb. by destruct (inv_depth _ _ _ _ HI _ _ Hb) as (_ & _ & ?). Qed.

Lemma inv_fresh s Γ D m : Inv s Γ D m → Γ !! next_block s = None.
Proof.
  intros HI. destruct (Γ !! next_block s) as [ty|] eqn:E; [|done].
  destruct (inv_store _ _ _ _ HI _ _ E) as (node & Hn & _). apply (inv_next _ _ _ _ HI) in Hn. lia.
Qed.

Lemma inv_lt s Γ D m b ty : Inv s Γ D m → Γ !! b = Some ty → b < next_block s.
Proof.
  intros HI Hb. destruct (inv_store _ _ _ _ HI _ _ Hb) as (node & Hn & _).
  by apply (inv_next _ _ _ _ HI) in Hn.
Qed.

Lemma node_ok_full Γ m full (full' : Prop) ty node :
  (full' → full) → node_ok Γ m full ty node → node_ok Γ m full' ty node.
Proof.
  destruct node as [keys cs|rs]; simpl.
  - intros Hf (d & Hd & Hs & Hl & [Hr1 Hr2] & Hfull & Hc). exists d. split_and!; try done. by intros ?%Hf%Hfull.
  - intros Hf (Hd & Hr & Hl & Hfull). split_and!; try done. by intros ?%Hf%Hfull.
Qed.

Definition child_of node c : Prop :=
  match node with Index _ cs => c ∈ cs | Leaf _ => False end.

Lemma node_ok_types Γ Γ' m full ty node :
  (∀ c, child_of node c → Γ' !! c = Γ !! c) → node_ok Γ m full ty node → node_ok Γ' m full ty node.
Proof.
  destruct node as [keys cs|rs]; [|done]. intros Hc (d & Hd & Hs & Hl & [Hr1 Hr2] & Hfull & Ht).
  exists d. split_and!; try done. intros i c Hi. rewrite Hc; [by apply Ht|].
  by eapply list_elem_of_lookup_2.
Qed.

(** ** A block and its children *)
Lemma index_typed s Γ D m b d I keys cs :
  Inv s Γ D m → Γ !! b = Some (mkTy d I) → blocks s !! b = Some (Index keys cs) →
  ∃ d', d = Datatypes.S d' ∧ seps_ok I keys ∧ length cs = Datatypes.S (length keys) ∧
    1 ≤ length keys ≤ F - 2 ∧
    ∀ i c, cs !! i = Some c → Γ !! c = Some (mkTy d' (child_interval keys i I)).
Proof.
  intros HI Hb Hn. destruct (inv_store _ _ _ _ HI _ _ Hb) as (node & Hn' & Hok). simplify_eq.
  destruct Hok as (d' & Hd & Hs & Hl & Hr & _ & Hc). by exists d'.
Qed.

Lemma child_lt s Γ D m b node c ty :
  Inv s Γ D m → Γ !! b = Some ty → blocks s !! b = Some node → child_of node c →
  ∃ d' J, Γ !! c = Some (mkTy d' J) ∧ t_depth ty = Datatypes.S d' ∧ d' < D ∧ c ≠ root_block s.
Proof.
  intros HI Hb Hn Hc. destruct ty as [d I]. destruct node as [keys cs|]; [|done].
  destruct (index_typed _ _ _ _ _ _ _ _ _ HI Hb Hn) as (d' & -> & _ & _ & _ & Ht).
  apply list_elem_of_lookup in Hc as [i Hi]. apply Ht in Hi.
  destruct (inv_depth _ _ _ _ HI _ _ Hb) as [Hle _]. simpl in Hle.
  exists d', (child_interval keys i I). split_and!; [done..|lia|]. intros ->.
  rewrite (inv_root _ _ _ _ HI) in Hi. simplify_eq. lia.
Qed.

(** A block is the child of one index only, and at one position. *)
Lemma parent_unique s Γ D m p p' d d' I I' keys keys' cs cs' c i i' :
  Inv s Γ D m → Γ !! p = Some (mkTy d I) → Γ !! p' = Some (mkTy d' I') →
  blocks s !! p = Some (Index keys cs) → blocks s !! p' = Some (Index keys' cs') →
  cs !! i = Some c → cs' !! i' = Some c → p = p' ∧ i = i'.
Proof.
  intros HI Hp Hp' Hn Hn' Hi Hi'.
  destruct (index_typed _ _ _ _ _ _ _ _ _ HI Hp Hn) as (e & -> & Hs & Hl & _ & Ht).
  destruct (index_typed _ _ _ _ _ _ _ _ _ HI Hp' Hn') as (e' & -> & Hs' & Hl' & _ & Ht').
  pose proof (Ht _ _ Hi) as Hc. pose proof (Ht' _ _ Hi') as Hc'. rewrite Hc in Hc'.
  apply (inj Some) in Hc'. pose proof (f_equal t_depth Hc') as Hd. apply (f_equal t_keys) in Hc' as HJ.
  cbn [t_depth t_keys] in Hd, HJ. subst e'.
  pose proof (inv_nonempty _ _ _ _ _ _ _ HI Hc) as Hne.
  pose proof (inv_nonempty _ _ _ _ _ _ _ HI Hp) as HnI.
  pose proof (inv_nonempty _ _ _ _ _ _ _ HI Hp') as HnI'.
  assert (∃ k, Interval.contains (child_interval keys i I) k = true) as [k Hk].
  { exists (lower (child_interval keys i I)). apply contains_spec. lia. }
  assert (p = p') as ->.
  { eapply (inv_apart _ _ _ _ HI p p' _ _ _ k); [done..| |].
    - by eapply child_within.
    - apply (child_within I' keys' i' k); [done..|]. by rewrite -HJ. }
  split; [done|]. rewrite Hn in Hn'. injection Hn' as <- <-. rewrite Hp in Hp'.
  apply (inj Some), (f_equal t_keys) in Hp'. cbn [t_keys] in Hp'. subst I'.
  pose proof (lookup_lt_Some _ _ _ Hi). pose proof (lookup_lt_Some _ _ _ Hi').
  eapply (child_unique I keys i i' k); [done|lia|lia|done|by rewrite -HJ].
Qed.

(** The child that a key is searched in. *)
Lemma child_found s Γ D m b d I keys cs k :
  Inv s Γ D m → Γ !! b = Some (mkTy d I) → blocks s !! b = Some (Index keys cs) →
  Interval.contains I k = true →
  let pos := child_position keys (inc_key k) in
  ∃ c d' node, d = Datatypes.S d' ∧ cs !! pos = Some c ∧ pos ≤ length keys ∧
    Γ !! c = Some (mkTy d' (child_interval keys pos I)) ∧
    Interval.contains (child_interval keys pos I) k = true ∧
    blocks s !! c = Some node ∧ c ≠ root_block s ∧
    node_ok Γ m True (mkTy d' (child_interval keys pos I)) node.
Proof.
  intros HI Hb Hn Hk pos.
  destruct (index_typed _ _ _ _ _ _ _ _ _ HI Hb Hn) as (d' & -> & Hs & Hl & _ & Ht).
  destruct (child_position_contains I keys k Hs Hk) as [Hpos Hin]. fold pos in Hpos, Hin.
  destruct (lookup_lt_is_Some_2 cs pos ltac:(lia)) as [c Hc]. pose proof (Ht _ _ Hc) as Hct.
  destruct (inv_store _ _ _ _ HI _ _ Hct) as (node & Hcn & Hok).
  destruct (child_lt _ _ _ _ b _ c _ HI Hb Hn) as (_ & _ & _ & _ & _ & Hroot);
    [by eapply list_elem_of_lookup_2|].
  exists c, d', node. split_and!; try done. by eapply node_ok_full; [|done].
Qed.

(** ** Depth

    Every level doubles the keys under a block, so that no tree of 64-bit keys
    is deeper than 64. *)
Lemma depth_width s Γ D m b d I :
  Inv s Γ D m → Γ !! b = Some (mkTy d I) → (2 ^ Z.of_nat d ≤ upper I - lower I + 1)%Z.
Proof.
  intros HI. revert b I. induction d as [|d IH]; intros b I Hb.
  - pose proof (inv_nonempty _ _ _ _ _ _ _ HI Hb). change (2 ^ Z.of_nat 0)%Z with 1%Z. lia.
  - destruct (inv_store _ _ _ _ HI _ _ Hb) as (node & Hn & Hok).
    destruct node as [keys cs|]; [|by destruct Hok].
    destruct (index_typed _ _ _ _ _ _ _ _ _ HI Hb Hn) as (d' & [= <-] & Hs & Hl & Hr & Ht).
        destruct (lookup_lt_is_Some_2 cs 0 ltac:(lia)) as [c0 Hc0].
    destruct (lookup_lt_is_Some_2 cs 1 ltac:(lia)) as [c1 Hc1].
    pose proof (IH _ _ (Ht _ _ Hc0)) as H0. pose proof (IH _ _ (Ht _ _ Hc1)) as H1.
    rewrite child_interval_at // in H0. rewrite child_interval_at // in H1.
    change (2 ^ Z.of_nat d ≤ up_at I keys 0 - lower I + 1)%Z in H0.
    change (2 ^ Z.of_nat d ≤ up_at I keys 1 - lo_at I keys 1 + 1)%Z in H1.
    pose proof (inv_nonempty _ _ _ _ _ _ _ HI Hb) as Hne.
    pose proof (bounds_apart I keys 0 1 Hs ltac:(lia)).
    pose proof (up_at_range I keys 1 Hs Hne). rewrite Nat2Z.inj_succ Z.pow_succ_r; lia.
Qed.

Lemma depth_bound s Γ D m : Inv s Γ D m → D ≤ 64.
Proof.
  intros HI. pose proof (depth_width _ _ _ _ _ _ _ HI (inv_root _ _ _ _ HI)) as Hw.
  change (upper ALL_KEYS - lower ALL_KEYS + 1)%Z with (2 ^ 64)%Z in Hw.
  apply Z.pow_le_mono_r_iff in Hw; lia.
Qed.
End inv.
