(* ===== verification/DexaSplit.v ===== *)
(** * Splits keep the invariant

    The two halves of a full node are nodes again; linked into the parent, or
    under a new root, they leave a tree that stands for the same table. *)
From S2P Require Import Prelude Version Interval Clock VersionHistory VersionedLeaf.
From S2P Require Import DexaLocking DexaCell DexaTree DexaSmo DexaDescent DexaScan DexaKeys DexaInv.
From Stdlib Require Import ZifyNat.
Ltac Zify.zify_post_hook ::= Z.div_mod_to_equations.
#[local] Set Default Proof Using "Type*".

Section restrict.
Context {P : Type}.
Implicit Types (I J : Interval) (m : Table P).

Lemma restrict_restrict I J m :
  (∀ k, Interval.contains J k = true → Interval.contains I k = true) →
  restrict J (restrict I m) = restrict J m.
Proof.
  intros HJ. apply (map_eq (M := gmap Z)). intros k. rewrite !restrict_lookup.
  destruct (Interval.contains J k) eqn:E; [|done]. by rewrite HJ.
Qed.

Lemma restrict_all I m :
  (∀ k h, m !! k = Some h → Interval.contains I k = true) → restrict I m = m.
Proof.
  intros HI. apply (map_eq (M := gmap Z)). intros k. rewrite restrict_lookup.
  destruct (m !! k) as [h|] eqn:E; [by rewrite (HI k h)|by case_match].
Qed.
End restrict.

Section parts.
Context {P S : Type} `{!VersionStore P S, !VersionStoreLaws P S}.
Implicit Types (m : Table P) (I J : Interval) (rs : list (VersionedRecordPoint S)).

Lemma leaf_rep_part rs rs1 rs2 rs3 m J :
  leaf_rep rs m → rs = rs1 ++ rs2 ++ rs3 →
  (∀ r, r ∈ rs2 → Interval.contains J (vr_key r) = true) →
  (∀ r, r ∈ rs1 ++ rs3 → Interval.contains J (vr_key r) = false) →
  leaf_rep rs2 (restrict J m).
Proof using Type.
  intros [Hs Hok Hdom] -> H2 H13. split.
  - unfold sorted_by in *. rewrite !fmap_app in Hs.
    by eapply StronglySorted_app_1_l, StronglySorted_app_1_r.
  - intros r Hr. rewrite restrict_lookup H2 //. apply Hok. set_solver.
  - intros k. rewrite restrict_lookup. destruct (Interval.contains J k) eqn:E; [|by intros [??]].
    intros (r & Hr & <-)%Hdom. exists r. split; [|done].
    apply elem_of_app in Hr as [Hr|[Hr|Hr]%elem_of_app]; [|done|]; rewrite H13 in E; (done || set_solver).
Qed.

Lemma leaf_key_in rs m I r :
  leaf_rep rs (restrict I m) → r ∈ rs →
  Interval.contains I (vr_key r) = true ∧ is_Some (m !! vr_key r).
Proof using Type.
  intros Hrep (h & Hh & _)%(lr_ok _ _ Hrep). rewrite restrict_lookup in Hh. by case_match.
Qed.

Lemma leaf_sorted_lookup rs m i j r r' :
  leaf_rep rs m → rs !! i = Some r → rs !! j = Some r' → i < j → (vr_key r < vr_key r')%Z.
Proof using Type.
  intros Hrep Hi Hj Hij. pose proof (lr_sorted _ _ Hrep) as Hs. unfold sorted_by in Hs.
  apply (sorted_lookup _ i j _ _ Hs); [by rewrite list_lookup_fmap Hi|by rewrite list_lookup_fmap Hj|done].
Qed.
End parts.

Section halves.
Context {P S : Type} `{!VersionStore P S, !VersionStoreLaws P S}.
Context (F N : nat).
Context (HF : 5 ≤ F) (HN : 3 ≤ N).
Local Abbreviation St := (MVBPlusTree S).
Local Abbreviation node_ok := (node_ok F N).
Local Abbreviation Inv := (Inv F N).
Implicit Types (s : St) (Γ : gmap BlockRef Ty) (m : Table P) (D d : nat) (b c p : BlockRef).
Implicit Types (I J : Interval) (node : Node S) (rs : list (VersionedRecordPoint S)).
Implicit Types (keys : list Z) (cs : list BlockRef) (full : Prop) (ty : Ty).

(** ** The halves *)
Lemma leaf_halves Γ m full I rs :
  (∀ k h, m !! k = Some h → Interval.contains ALL_KEYS k = true) →
  node_ok Γ m full (mkTy 0 I) (Leaf rs) → N ≤ length rs →
  ∃ k3, vr_key <$> rs !! (length rs / 2) = Some k3 ∧ (lower I < k3 ≤ upper I ∧ k3 < END_KEY)%Z ∧
    node_ok Γ m True (mkTy 0 (left_of I k3)) (Leaf (take (length rs / 2) rs)) ∧
    node_ok Γ m True (mkTy 0 (right_of I k3)) (Leaf (drop (length rs / 2) rs)).
Proof.
  intros Hkeys (_ & Hrep & Hlen & _) HNl. cbn [t_keys] in Hrep.
  set (n := length rs / 2). assert (0 < n ∧ Datatypes.S n < length rs) as [Hn0 Hn] by (unfold n; lia).
  destruct (lookup_lt_is_Some_2 rs n ltac:(lia)) as [r Hr].
  destruct (lookup_lt_is_Some_2 rs 0 ltac:(lia)) as [r0 Hr0].
  destruct (lookup_lt_is_Some_2 rs (Datatypes.S n) ltac:(lia)) as [r1 Hr1].
  pose proof (leaf_sorted_lookup _ _ _ _ _ _ Hrep Hr0 Hr ltac:(lia)) as H0.
  pose proof (leaf_sorted_lookup _ _ _ _ _ _ Hrep Hr Hr1 ltac:(lia)) as H1.
  destruct (leaf_key_in _ _ _ r0 Hrep) as [Hin0 _]; [by eapply list_elem_of_lookup_2|].
  destruct (leaf_key_in _ _ _ r Hrep) as [Hin _]; [by eapply list_elem_of_lookup_2|].
  destruct (leaf_key_in _ _ _ r1 Hrep) as [_ [h1 Hh1]]; [by eapply list_elem_of_lookup_2|].
  apply Hkeys in Hh1. apply contains_spec in Hin0, Hin, Hh1. change (upper ALL_KEYS) with END_KEY in Hh1.
  exists (vr_key r). rewrite Hr. split; [done|]. split; [lia|].
  assert (∀ x, x ∈ take n rs → (lower I ≤ vr_key x < vr_key r)%Z) as Hleft.
  { intros x Hx. pose proof Hx as (j & Hj)%list_elem_of_lookup. apply lookup_take_Some in Hj as [Hj Hlt].
    pose proof (leaf_sorted_lookup _ _ _ _ _ _ Hrep Hj Hr Hlt).
    destruct (leaf_key_in _ _ _ x Hrep) as [Hx' _]; [by eapply list_elem_of_lookup_2|].
    apply contains_spec in Hx'. lia. }
  assert (∀ x, x ∈ drop n rs → (vr_key r ≤ vr_key x ≤ upper I)%Z) as Hright.
  { intros x (j & Hj)%list_elem_of_lookup. rewrite lookup_drop in Hj.
    destruct (leaf_key_in _ _ _ x Hrep) as [Hx' _]; [by eapply list_elem_of_lookup_2|].
    apply contains_spec in Hx'. destruct j as [|j].
    - rewrite Nat.add_0_r in Hj. simplify_eq. lia.
    - pose proof (leaf_sorted_lookup _ _ _ _ _ _ Hrep Hr Hj ltac:(lia)). lia. }
  assert (restrict (left_of I (vr_key r)) m = restrict (left_of I (vr_key r)) (restrict I m)) as HL.
  { symmetry. apply restrict_restrict. intros k. rewrite !contains_spec. simpl. lia. }
  assert (restrict (right_of I (vr_key r)) m = restrict (right_of I (vr_key r)) (restrict I m)) as HR.
  { symmetry. apply restrict_restrict. intros k. rewrite !contains_spec. simpl. lia. }
  split; (split; [done|]); cbn [t_keys].
  - split_and!; [|rewrite length_take; lia|intros _; rewrite length_take; unfold fill_leaf; fold n; lia].
    rewrite HL. eapply (leaf_rep_part rs [] (take n rs) (drop n rs)); [done|by rewrite /= take_drop|..].
    + intros x Hx%Hleft. apply contains_spec. simpl. lia.
    + simpl. intros x Hx%Hright. apply contains_false. simpl. lia.
  - split_and!; [|rewrite length_drop; lia|intros _; rewrite length_drop; unfold fill_leaf; lia].
    rewrite HR. eapply (leaf_rep_part rs (take n rs) (drop n rs) []);
      [done|by rewrite app_nil_r take_drop|..].
    + intros x Hx%Hright. apply contains_spec. simpl. lia.
    + rewrite app_nil_r. intros x Hx%Hleft. apply contains_false. simpl. lia.
Qed.

Lemma index_halves Γ m full d I keys cs :
  node_ok Γ m full (mkTy (Datatypes.S d) I) (Index keys cs) → F - 2 ≤ length keys →
  let n := length keys / 2 in
  ∃ k3, keys !! n = Some k3 ∧ (lower I < k3 ≤ upper I ∧ k3 < END_KEY)%Z ∧
    node_ok Γ m True (mkTy (Datatypes.S d) (left_of I k3))
      (Index (take n keys) (take (Datatypes.S n) cs)) ∧
    node_ok Γ m True (mkTy (Datatypes.S d) (right_of I k3))
      (Index (drop (Datatypes.S n) keys) (drop (Datatypes.S n) cs)).
Proof.
  intros (d' & Hd & Hs & Hl & Hr & _ & Ht) HFl n. cbn [t_depth] in Hd. injection Hd as <-.
  cbn [t_keys] in *. assert (0 < n ∧ Datatypes.S n < length keys) as [Hn0 Hn] by (unfold n; lia).
  destruct (lookup_lt_is_Some_2 keys n ltac:(lia)) as [k3 Hk3].
  pose proof (so_range _ _ Hs k3 (list_elem_of_lookup_2 _ _ _ Hk3)) as Hk.
  exists k3. split; [done|]. split; [lia|]. split; exists d; cbn [t_depth t_keys].
  - split_and!; [done|by eapply seps_take|rewrite !length_take; lia|rewrite length_take; lia
      |rewrite length_take; lia|intros _; rewrite length_take; unfold fill_index; lia|].
    intros i c Hi. apply lookup_take_Some in Hi as [Hi Hlt]. rewrite (child_of_left _ _ _ _ _ Hs Hk3); [|lia].
    by apply Ht.
  - split_and!; [done|by eapply seps_drop|rewrite !length_drop; lia|rewrite length_drop; lia
      |rewrite length_drop; lia|intros _; rewrite length_drop; unfold fill_index; lia|].
    intros i c Hi. rewrite lookup_drop in Hi. pose proof (lookup_lt_Some _ _ _ Hi).
    rewrite (child_of_right _ _ _ _ _ Hs Hk3); [|lia]. by apply Ht.
Qed.
End halves.

(** ** Linking the halves *)
Section linking.
Context {P S : Type} `{!VersionStore P S, !VersionStoreLaws P S}.
Context (F N : nat).
Local Abbreviation St := (MVBPlusTree S).
Local Abbreviation node_ok := (node_ok F N).
Local Abbreviation Inv := (Inv F N).
Implicit Types (s : St) (Γ : gmap BlockRef Ty) (m : Table P) (D d : nat) (b c p : BlockRef).
Implicit Types (I J : Interval) (node : Node S) (rs : list (VersionedRecordPoint S)).
Implicit Types (keys : list Z) (cs : list BlockRef) (full : Prop) (ty : Ty).

Lemma Inv_ext s s' Γ D m :
  Inv s Γ D m → root_block s' = root_block s → root_height s' = root_height s →
  blocks s' = blocks s → next_block s' = next_block s → obsolete s' = obsolete s → Inv s' Γ D m.
Proof using Type. intros [] H1 H2 H3 H4 H5. split; by rewrite ?H1 ?H2 ?H3 ?H4 ?H5. Qed.

Lemma node_ok_child Γ m full ty node c :
  node_ok Γ m full ty node → child_of node c →
  ∃ d J, t_depth ty = Datatypes.S d ∧ Γ !! c = Some (mkTy d J).
Proof using Type.
  destruct node as [keys cs|]; [|done]. intros (d & Hd & _ & _ & _ & _ & Ht) [i Hi]%list_elem_of_lookup.
  eexists d, _. split; [done|]. by eapply Ht.
Qed.

Lemma halves_apart J k3 k :
  Interval.contains (left_of J k3) k = true → Interval.contains (right_of J k3) k = true → False.
Proof using Type. rewrite !contains_spec. simpl. lia. Qed.

Lemma half_within J k3 k :
  (lower J < k3 ≤ upper J)%Z →
  Interval.contains (left_of J k3) k = true ∨ Interval.contains (right_of J k3) k = true →
  Interval.contains J k = true.
Proof using Type. rewrite !contains_spec. simpl. lia. Qed.

Definition split_node (pos : nat) (k3 : Z) (right : BlockRef) keys cs : Node S :=
  Index (keys_insert pos k3 keys) (take (Datatypes.S pos) cs ++ right :: drop (Datatypes.S pos) cs).

(** The parent of a split node. *)
Lemma split_node_ok Γ Γ' m full d I keys cs pos c r k3 :
  let J := child_interval keys pos I in
  node_ok Γ m full (mkTy (Datatypes.S d) I) (Index keys cs) → (lower I ≤ upper I)%Z →
  cs !! pos = Some c → length keys < F - 2 → (lower J < k3 ≤ upper J ∧ k3 < END_KEY)%Z →
  Γ' !! c = Some (mkTy d (left_of J k3)) → Γ' !! r = Some (mkTy d (right_of J k3)) →
  (∀ i b, cs !! i = Some b → i ≠ pos → Γ' !! b = Γ !! b) →
  node_ok Γ' m full (mkTy (Datatypes.S d) I) (split_node pos k3 r keys cs).
Proof using Type.
  intros J (d' & Hd & Hs & Hl & Hr & Hfull & Ht) HI Hc Hlen Hk3 Hc' Hr' Hrest.
  cbn [t_depth t_keys] in *. injection Hd as <-.
  destruct Hk3 as [Hk3 HE]. pose proof (lookup_lt_Some _ _ _ Hc) as Hpos.
  assert (pos ≤ length keys) as Hp by lia.
  assert (lo_at I keys pos < k3 ≤ up_at I keys pos)%Z as Hk.
  { unfold J in Hk3. by rewrite child_interval_at in Hk3. }
  exists d. cbn [t_depth t_keys]. split; [done|]. split; [by apply seps_insert|].
  assert (length (keys_insert pos k3 keys) = Datatypes.S (length keys)) as Hlk.
  { unfold keys_insert. rewrite length_app /= length_take length_drop. lia. }
  split_and!; [|lia|lia|lia|].
  - rewrite Hlk length_app /= length_take length_drop. lia.
  - intros i b Hi. rewrite child_of_insert //.
    destruct (decide (i ≤ pos)) as [Hip|Hip].
    + rewrite lookup_app_l in Hi; [|rewrite length_take; lia].
      apply lookup_take_Some in Hi as [Hi _]. case_decide as C1.
      * rewrite (Hrest i b Hi ltac:(lia)). by apply Ht.
      * rewrite decide_True; [|lia]. assert (i = pos) as -> by lia. simplify_eq. done.
    + rewrite lookup_app_r length_take in Hi; [|lia]. do 2 (rewrite decide_False; [|lia]).
      rewrite Nat.min_l in Hi; [|lia].
      case_decide as C3.
      * subst i. rewrite Nat.sub_diag /= in Hi. by simplify_eq.
      * rewrite lookup_cons_ne_0 in Hi; [|lia]. rewrite lookup_drop in Hi.
        replace (Datatypes.S pos + pred (i - Datatypes.S pos)) with (i - 1) in Hi by lia.
        rewrite (Hrest _ b Hi ltac:(lia)). by apply Ht.
Qed.

Lemma Inv_split_child s Γ D m p d I keys cs pos c node n1 n2 k3 :
  let J := child_interval keys pos I in
  let r := next_block s in
  Inv s Γ D m → Γ !! p = Some (mkTy (Datatypes.S d) I) → blocks s !! p = Some (Index keys cs) →
  cs !! pos = Some c → blocks s !! c = Some node →
  length keys < F - 2 → (lower J < k3 ≤ upper J ∧ k3 < END_KEY)%Z →
  node_ok Γ m True (mkTy d (left_of J k3)) n1 → node_ok Γ m True (mkTy d (right_of J k3)) n2 →
  Inv (set_next (Datatypes.S r) (set_blocks
        (<[p := split_node pos k3 r keys cs]> (<[c := n1]> (<[r := n2]> (blocks s)))) s))
    (<[r := mkTy d (right_of J k3)]> (<[c := mkTy d (left_of J k3)]> Γ)) D m.
Proof using Type.
  intros J r HI Hp Hn Hc Hcn Hlen Hk3 Hn1 Hn2.
  set (Γ' := <[r := mkTy d (right_of J k3)]> (<[c := mkTy d (left_of J k3)]> Γ)).
  destruct (index_typed _ _ _ _ _ _ _ _ _ _ _ HI Hp Hn) as (? & [= <-] & Hs & Hl & Hr & Ht).
  pose proof (Ht _ _ Hc) as Hct. fold J in Hct.
  destruct (child_lt _ _ _ _ _ _ p _ c _ HI Hp Hn) as (d' & J' & Hct' & [= <-] & HdD & Hcroot);
    [by eapply list_elem_of_lookup_2|].
  assert (Γ !! r = None) as Hrfresh by by eapply inv_fresh.
  assert (r ≠ c ∧ r ≠ p ∧ c ≠ p ∧ r ≠ root_block s) as (Hrc & Hrp & Hcp & Hrr).
  { split_and!; intros E; rewrite ?E in Hrfresh; simplify_eq; [lia|].
    by rewrite (inv_root _ _ _ _ _ _ HI) in Hrfresh. }
  assert (Γ' !! c = Some (mkTy d (left_of J k3))) as Hc' by by rewrite /Γ' lookup_insert_ne ?lookup_insert_eq.
  assert (Γ' !! r = Some (mkTy d (right_of J k3))) as Hr' by by rewrite /Γ' lookup_insert_eq.
  assert (∀ b, b ≠ c → b ≠ r → Γ' !! b = Γ !! b) as Hother.
  { intros b H1 H2. by rewrite /Γ' !lookup_insert_ne. }
  assert (∀ b ty, Γ !! b = Some ty → b ≠ c → Γ' !! b = Γ !! b) as Hother'.
  { intros b ty Hb H1. apply Hother; [done|]. intros ->. by rewrite Hrfresh in Hb. }
  assert (∀ ty n full, t_depth ty = d → node_ok Γ m full ty n → node_ok Γ' m full ty n) as Hhalf.
  { intros ty n full Hd Hok. eapply node_ok_types; [|done]. intros x Hx.
    destruct (node_ok_child _ _ _ _ _ _ Hok Hx) as (dx & Jx & Hdx & Hxt).
    eapply Hother'; [done|]. intros ->. rewrite Hct in Hxt. simplify_eq. lia. }
  assert (∀ b ty, Γ' !! b = Some ty → ∃ b0 ty0, Γ !! b0 = Some ty0 ∧ t_depth ty0 = t_depth ty ∧
    (∀ k, Interval.contains (t_keys ty) k = true → Interval.contains (t_keys ty0) k = true) ∧
    (b0 = b ∨ b0 = c ∧ b = r)) as Hback.
  { intros b ty Hb. destruct (decide (b = r)) as [->|Hbr]; [|destruct (decide (b = c)) as [->|Hbc]].
    - rewrite Hr' in Hb. simplify_eq. exists c, (mkTy d J). split_and!; [done|done| |by right].
      intros k Hk. eapply half_within; [by apply Hk3|by right].
    - rewrite Hc' in Hb. simplify_eq. exists c, (mkTy d J). split_and!; [done|done| |by left].
      intros k Hk. eapply half_within; [by apply Hk3|by left].
    - rewrite Hother // in Hb. exists b, ty. split_and!; try done. by left. }
  split; cbn [root_block root_height blocks next_block obsolete set_next set_blocks].
  - rewrite Hother; [by eapply inv_root|by apply not_eq_sym..].
  - intros b ty Hb. destruct (decide (b = p)) as [->|Hbp].
    { rewrite lookup_insert_eq. eexists. split; [done|]. rewrite Hother // Hp in Hb. simplify_eq.
      destruct (inv_store _ _ _ _ _ _ HI _ _ Hp) as (n & Hn' & Hok). simplify_eq.
      apply (split_node_ok Γ _ _ _ _ _ _ _ _ c r k3); try done.
      - by eapply inv_nonempty.
      - intros i b Hi Hne. eapply Hother'; [by eapply Ht|]. intros ->.
        by destruct (parent_unique _ _ _ _ _ _ p p _ _ _ _ _ _ _ _ c i pos HI Hp Hp Hn Hn Hi Hc). }
    rewrite lookup_insert_ne //. destruct (decide (b = c)) as [->|Hbc].
    { rewrite lookup_insert_eq. eexists. split; [done|]. rewrite Hc' in Hb. simplify_eq.
      apply Hhalf; [done|]. by eapply node_ok_full; [|done]. }
    rewrite lookup_insert_ne //. destruct (decide (b = r)) as [->|Hbr].
    { rewrite lookup_insert_eq. eexists. split; [done|]. rewrite Hr' in Hb. simplify_eq.
      apply Hhalf; [done|]. by eapply node_ok_full; [|done]. }
    rewrite lookup_insert_ne //. rewrite Hother // in Hb.
    destruct (inv_store _ _ _ _ _ _ HI _ _ Hb) as (n & Hbn & Hok). exists n. split; [done|].
    eapply node_ok_types; [|done]. intros x Hx.
    destruct (node_ok_child _ _ _ _ _ _ Hok Hx) as (dx & Jx & Hdx & Hxt).
    eapply Hother'; [done|]. intros ->. destruct n as [keys' cs'|]; [|done].
    apply list_elem_of_lookup in Hx as [i' Hi']. destruct ty as [d0 I0].
    by destruct (parent_unique _ _ _ _ _ _ p b _ _ _ _ _ _ _ _ c pos i' HI Hp Hb Hn Hbn Hc Hi').
  - intros b b' d0 I1 I2 k Hb Hb' Hk Hk'.
    destruct (Hback _ _ Hb) as (x & [dx Ix] & Hx & Hdx & Hkx & Hx').
    destruct (Hback _ _ Hb') as (y & [dy Iy] & Hy & Hdy & Hky & Hy').
    cbn [t_depth t_keys] in *. subst dx dy.
    pose proof (inv_apart _ _ _ _ _ _ HI x y _ _ _ k Hx Hy (Hkx _ Hk) (Hky _ Hk')) as ->.
    destruct Hx' as [->|[-> ->]], Hy' as [Hy'|[Hy' ->]]; subst; try done;
      rewrite Hr' in Hb || rewrite Hr' in Hb'; rewrite Hc' in Hb || rewrite Hc' in Hb';
      simplify_eq; by destruct (halves_apart J k3 k).
  - intros b ty Hb. pose proof Hb as Hb0. apply Hback in Hb as (x & tx & Hx & Hdx & _ & Hxb).
    destruct (inv_depth _ _ _ _ _ _ HI _ _ Hx) as (H1 & H2 & H3). rewrite -Hdx. split; [done|]. split.
    + intros E. destruct Hxb as [->|[-> ->]]; [by apply H2|]. by destruct Hcroot; apply H2.
    + destruct (decide (b = r)) as [->|Hbr]; [|destruct (decide (b = c)) as [->|Hbc]].
      * rewrite Hr' in Hb0. injection Hb0 as <-. change (k3 ≤ upper J)%Z. lia.
      * rewrite Hc' in Hb0. injection Hb0 as <-. change (lower J ≤ k3 - 1)%Z. lia.
      * rewrite Hother // in Hb0. by eapply inv_depth.
  - intros b n Hb. destruct (decide (b = r)) as [->|Hbr]; [lia|].
    assert (is_Some (blocks s !! b)) as [n' Hn'].
    { rewrite !lookup_insert_Some in Hb. naive_solver. }
    apply (inv_next _ _ _ _ _ _ HI) in Hn'. unfold r. lia.
  - by eapply inv_keys.
  - by eapply inv_height.
  - by eapply inv_sealed.
Qed.

(** The two halves of the root under a new root; one of the three blocks is the
    old root. *)
Record new_top s (l rr top : BlockRef) (Γ : gmap BlockRef Ty) : Prop := {
  nt_distinct : l ≠ rr ∧ l ≠ top ∧ rr ≠ top;
  nt_old b : b ∈ [l; rr; top] → Γ !! b = None ∨ b = root_block s;
  nt_root : root_block s ∈ [l; rr; top];
}.

Definition types_top D k3 (l rr top : BlockRef) Γ : gmap BlockRef Ty :=
  <[top := mkTy (Datatypes.S D) ALL_KEYS]>
    (<[rr := mkTy D (right_of ALL_KEYS k3)]> (<[l := mkTy D (left_of ALL_KEYS k3)]> Γ)).

Lemma types_top_cases s Γ D m l rr top k3 b ty :
  Inv s Γ D m → new_top s l rr top Γ → types_top D k3 l rr top Γ !! b = Some ty →
  b = top ∧ ty = mkTy (Datatypes.S D) ALL_KEYS ∨
  b = rr ∧ ty = mkTy D (right_of ALL_KEYS k3) ∨ b = l ∧ ty = mkTy D (left_of ALL_KEYS k3) ∨
  (b ∉ [l; rr; top]) ∧ Γ !! b = Some ty ∧ t_depth ty < D.
Proof using Type.
  intros HI Htop. unfold types_top.
  intros [[<- <-]|[H1 [[<- <-]|[H2 [[<- <-]|[H3 Hb]]%lookup_insert_Some]]%lookup_insert_Some]]%lookup_insert_Some;
    [by left|by right; left|by right; right; left|right; right; right].
  assert (b ∉ [l; rr; top]) as Hnot by (rewrite !elem_of_cons elem_of_nil; naive_solver).
  split; [done|]. split; [done|]. destruct (inv_depth _ _ _ _ _ _ HI _ _ Hb) as (Hle & Heq & _).
  destruct (decide (t_depth ty = D)) as [E|]; [|lia]. destruct Hnot. rewrite (Heq E). apply Htop.
Qed.

Lemma types_top_old s Γ D m l rr top k3 full ty node c :
  Inv s Γ D m → new_top s l rr top Γ → node_ok Γ m full ty node → t_depth ty ≤ D →
  child_of node c → types_top D k3 l rr top Γ !! c = Γ !! c.
Proof using Type.
  intros HI Htop Hok Hd Hc. destruct (node_ok_child _ _ _ _ _ _ Hok Hc) as (d & J & Hdt & HΓ).
  assert (c ∉ [l; rr; top]) as Hnot.
  { intros Hin. destruct (nt_old _ _ _ _ _ Htop c Hin) as [E|E]; [by rewrite HΓ in E|].
    rewrite E (inv_root _ _ _ _ _ _ HI) in HΓ. simplify_eq. lia. }
  rewrite !elem_of_cons in Hnot. unfold types_top. rewrite !lookup_insert_ne //; naive_solver.
Qed.

Lemma Inv_split_root s s' Γ D m l rr top n1 n2 k3 :
  Inv s Γ D m → new_top s l rr top Γ → 3 ≤ F → (START_KEY < k3 < END_KEY)%Z →
  node_ok Γ m True (mkTy D (left_of ALL_KEYS k3)) n1 →
  node_ok Γ m True (mkTy D (right_of ALL_KEYS k3)) n2 →
  root_block s' = top → root_height s' = root_height s → obsolete s' = obsolete s →
  blocks s' !! l = Some n1 → blocks s' !! rr = Some n2 → blocks s' !! top = Some (Index [k3] [l; rr]) →
  (∀ b, b ∉ [l; rr; top] → blocks s' !! b = blocks s !! b) →
  (∀ b n, blocks s' !! b = Some n → b < next_block s') →
  Inv s' (types_top D k3 l rr top Γ) (Datatypes.S D) m.
Proof using Type.
  intros HI Htop HF Hk3 Hn1 Hn2 Hroot Hheight Hobs Hl Hr Ht Hrest Hnext.
  pose proof (nt_distinct _ _ _ _ _ Htop) as (Hlr & Hlt & Hrt).
  split.
  - by rewrite Hroot /types_top lookup_insert_eq.
  - rewrite Hroot. intros b ty Hb. pose proof HI as HI'.
    eapply types_top_cases in Hb as [[-> ->]|[[-> ->]|[[-> ->]|(Hb & HΓ & Hd)]]]; [..|done|done].
    + eexists. split; [done|]. exists D. split; [done|]. split.
      { change (seps_ok ALL_KEYS ([] ++ k3 :: [])). unfold END_KEY, START_KEY in *.
        split; simpl; unfold START_KEY, END_KEY; [repeat constructor| |lia..].
        intros k ->%list_elem_of_singleton. lia. }
      split_and!; [done|simpl; lia|simpl; lia|done|]. intros i c Hi.
      assert (seps_ok ALL_KEYS []) as Hnil.
      { split; [constructor|by intros k ?%elem_of_nil|done|done]. }
      change [k3] with (keys_insert 0 k3 []). rewrite child_of_insert //.
      * destruct i as [|[|i]]; simplify_eq/=; unfold types_top.
        -- do 2 (rewrite lookup_insert_ne; [|congruence]). by rewrite lookup_insert_eq.
        -- rewrite lookup_insert_ne; [|congruence]. by rewrite lookup_insert_eq.
      * change (START_KEY < k3 ≤ END_KEY)%Z. lia.
      * lia.
    + exists n2. split; [done|]. eapply node_ok_types; [|by eapply node_ok_full; [|exact Hn2]].
      intros c Hc. eapply types_top_old; [done|done|exact Hn2|simpl; lia|done].
    + exists n1. split; [done|]. eapply node_ok_types; [|by eapply node_ok_full; [|exact Hn1]].
      intros c Hc. eapply types_top_old; [done|done|exact Hn1|simpl; lia|done].
    + destruct (inv_store _ _ _ _ _ _ HI _ _ HΓ) as (n & Hn & Hok). exists n.
      rewrite Hrest //. split; [done|]. eapply node_ok_types.
      * intros c Hc. eapply types_top_old; [done..|lia|done].
      * eapply node_ok_full; [|done]. intros _ ->. apply Hb. apply Htop.
  - intros b c d I1 I2 k Hb Hc Hk Hk'.
    eapply types_top_cases in Hb as [[-> E]|[[-> E]|[[-> E]|(_ & HΓ & Hd)]]]; [..|done|done];
    eapply types_top_cases in Hc as [[-> E']|[[-> E']|[[-> E']|(_ & HΓ' & Hd')]]];
      try done; simplify_eq/=; try lia.
    + by destruct (halves_apart ALL_KEYS k3 k).
    + by destruct (halves_apart ALL_KEYS k3 k).
    + by eapply inv_apart.
  - intros b ty Hb. unfold START_KEY, END_KEY in *.
    eapply types_top_cases in Hb as [[-> ->]|[[-> ->]|[[-> ->]|(Hnot & HΓ & Hd)]]];
      [..|done|done]; simpl.
    + done.
    + unfold END_KEY. split_and!; [lia|lia|lia].
    + unfold START_KEY. split_and!; [lia|lia|lia].
    + destruct (inv_depth _ _ _ _ _ _ HI _ _ HΓ) as (_ & _ & ?). split_and!; [lia|lia|done].
  - done.
  - by eapply inv_keys.
  - by rewrite Hheight; eapply inv_height.
  - by rewrite Hobs; eapply inv_sealed.
Qed.
End linking.
