(* ===== verification/DexaGuard.v ===== *)
(** * Guards of the baseline trees, as one thread meets them

    Rules for the total correctness of the steps of [DexaTree.v]. A guard that
    could not be had, or a latch that was lost, has used up an entry of the list
    of lost latches, which bounds the retries of a traversal. *)
From S2P Require Import Prelude Version Interval Clock VersionHistory VersionedLeaf.
From S2P Require Import DexaLocking DexaCell DexaTree DexaSmo.
#[local] Set Default Proof Using "Type*".

#[local] Instance Borrow_eq_dec : EqDecision Borrow.
Proof. solve_decision. Defined.

Lemma optimistic_not_orwc (self : LockingStrategy) : is_optimistic self = true → is_orwc self = false.
Proof. by destruct self. Qed.

Section guards.
Context {P S : Type} `{!VersionStore P S}.
Context (F N : nat) (st : LockingStrategy).
Context (st_ok : split_seals (latch_type st) = false).
Local Abbreviation St := (MVBPlusTree S).
Implicit Types (s : St) (g : BlockGuard) (b : BlockRef) (n : nat) (l : list bool).
Implicit Types (node : Node S).

(** A guard for writing; only a cell without a latch has a free one. *)
Definition held g : Prop := g_kind g = GuardWriter ∨ g_kind g = GuardFree ∧ is_orwc st = false.

Lemma held_writer g : held g → is_orwc st = true → is_write_guard g = true.
Proof using Type. unfold is_write_guard. by intros [-> | [_ ->]]. Qed.

(** Fewer latches are left than [n], or at least not more. *)
Definition within n (ok : bool) l : Prop := if ok then length l ≤ n else length l < n.

(** Only the optimistic strategy has guards that may be invalid. *)
Definition guard_ok n g l : Prop :=
  (is_optimistic st = false → held g) ∧ within n (guard_valid_local g) l.

Lemma within_le n ok l l' : within n ok l → length l' ≤ length l → within n ok l'.
Proof using Type. destruct ok; simpl; lia. Qed.

Lemma within_refl l : within (length l) true l.
Proof using Type. simpl. lia. Qed.

Lemma within_mono n n' ok l : within n ok l → n ≤ n' → within n' ok l.
Proof using Type. destruct ok; simpl; lia. Qed.

Lemma within_true n ok l : within n ok l → within n true l.
Proof using Type. destruct ok; simpl; lia. Qed.

Lemma guard_ok_le n g l l' : guard_ok n g l → length l' ≤ length l → guard_ok n g l'.
Proof using Type. intros [H1 H2] Hl. split; [done|]. by eapply within_le. Qed.

Lemma guard_ok_mono n n' g l : guard_ok n g l → n ≤ n' → guard_ok n' g l.
Proof using Type. intros [H1 H2] Hn. split; [done|]. by eapply within_mono. Qed.

Lemma guard_ok_within n g l : guard_ok n g l → within n true l.
Proof using Type. intros [_ H]. by eapply within_true. Qed.

Lemma held_valid g : held g → guard_valid_local g = true.
Proof using Type. unfold held, guard_valid_local. by intros [-> | [-> _]]. Qed.

Lemma held_ok n g l : held g → within n true l → guard_ok n g l.
Proof using Type. intros Hg Hl. split; [done|]. by rewrite held_valid. Qed.

Lemma wp_win s n (Q : bool → St → Prop) :
  within n true (latches s) →
  (∀ ok l, length l ≤ length (latches s) → within n ok l → Q ok (set_latches l s)) →
  wp win s Q.
Proof using Type.
  intros Hn HQ. unfold win. wp_steps. destruct (latches s) as [|x l] eqn:E.
  - apply wp_ret. replace s with (set_latches [] s) by (destruct s; simpl in E; by subst).
    apply HQ; simpl; lia.
  - apply wp_bind, wp_modify, wp_ret. simpl in Hn. apply HQ; [simpl; lia|]. destruct x; simpl; lia.
Qed.

Lemma set_latches_id s : set_latches (latches s) s = s.
Proof using Type. by destruct s. Qed.

Lemma wp_guard_valid_local s n g (Q : bool → St → Prop) :
  guard_ok n g (latches s) →
  (∀ ok l, length l ≤ length (latches s) → within n ok l → (ok = true → guard_valid_local g = true) →
    Q ok (set_latches l s)) →
  wp (guard_valid st g) s Q.
Proof using Type.
  intros Hg HQ. pose proof (guard_ok_within _ _ _ Hg) as Hw. destruct Hg as [_ Hg].
  unfold guard_valid, guard_valid_local in *.
  destruct (g_kind g); [| |apply wp_ret; rewrite -(set_latches_id s); by apply HQ|];
    [apply wp_ret; rewrite -(set_latches_id s); by apply HQ| |];
    [|apply wp_ret; rewrite -(set_latches_id s); by apply HQ].
  destruct (is_optimistic st); [apply (wp_win s n); auto|].
  apply wp_ret. rewrite -(set_latches_id s). by apply HQ.
Qed.

Lemma wp_guard_valid s n g (Q : bool → St → Prop) :
  guard_ok n g (latches s) →
  (∀ ok l, length l ≤ length (latches s) → within n ok l → Q ok (set_latches l s)) →
  wp (guard_valid st g) s Q.
Proof using Type. intros Hg HQ. apply (wp_guard_valid_local s n); auto. Qed.

Lemma wp_guard_upgrade s n g (Q : bool * BlockGuard → St → Prop) :
  guard_ok n g (latches s) →
  (∀ g' l, length l ≤ length (latches s) → within n true l → g_block g' = g_block g → held g' →
    Q (true, g') (set_latches l s)) →
  (∀ g' l, length l ≤ length (latches s) → within n false l → Q (false, g') (set_latches l s)) →
  wp (guard_upgrade st g) s Q.
Proof using Type.
  intros Hg HQ1 HQ2. pose proof (guard_ok_within _ _ _ Hg) as Hw. destruct Hg as [Hh Hg].
  unfold guard_upgrade. unfold guard_valid_local in Hg.
  destruct (g_kind g) eqn:E.
  - apply wp_ret. rewrite -(set_latches_id s). apply HQ1; [done..|]. right. split; [done|].
    destruct (is_optimistic st) eqn:Ho; [by apply optimistic_not_orwc|].
    by destruct (Hh eq_refl) as [Hk|[_ ?]]; [rewrite E in Hk|].
  - apply wp_bind, (wp_win s n); [done|]. intros [] l Hl Hn; apply wp_ret; [|by apply HQ2].
    apply HQ1; [done..|]. by left.
  - apply wp_ret. rewrite -(set_latches_id s). apply HQ1; [done..|]. by left.
  - apply wp_ret. rewrite -(set_latches_id s). by apply HQ2.
Qed.

Lemma wp_read_page s b node (Q : Node S → St → Prop) :
  blocks s !! b = Some node → Q node s → wp (read_block b) s Q.
Proof using Type. intros Hb HQ. unfold read_block. wp_steps. by eapply wp_lift. Qed.

Lemma wp_write_block s b node (Q : () → St → Prop) :
  is_Some (blocks s !! b) → Q () (set_blocks (<[b := node]> (blocks s)) s) →
  wp (write_block b node) s Q.
Proof using Type. intros [x Hb] HQ. unfold write_block. wp_steps. rewrite Hb. by apply wp_modify. Qed.

Lemma wp_guard_deref_mut s g node (Q : Node S → St → Prop) :
  held g → blocks s !! g_block g = Some node → Q node s → wp (guard_deref_mut g) s Q.
Proof using Type.
  unfold guard_deref_mut. intros [-> | [-> _]] Hb HQ; by eapply wp_read_page.
Qed.

Lemma wp_guard_deref s n g node (Q : option (Node S) → St → Prop) :
  guard_ok n g (latches s) → blocks s !! g_block g = Some node →
  (∀ ok l, length l ≤ length (latches s) → within n ok l →
    Q (if ok : bool then Some node else None) (set_latches l s)) →
  wp (guard_deref st g) s Q.
Proof using Type.
  intros Hg Hb HQ. unfold guard_deref. apply wp_bind, (wp_guard_valid s n); [done|].
  intros ok l Hl Hn. specialize (HQ ok l Hl Hn).
  destruct ok; [|by apply wp_ret]. apply wp_bind. by eapply wp_read_page.
Qed.

(** A guard that is held, or of a strategy without optimism, is valid. *)
Lemma wp_guard_deref_valid s g node (Q : option (Node S) → St → Prop) :
  g_kind g ≠ GuardNone → held g ∨ is_optimistic st = false →
  blocks s !! g_block g = Some node → Q (Some node) s → wp (guard_deref st g) s Q.
Proof using Type.
  intros Hk Hh Hb HQ. unfold guard_deref, guard_valid. apply wp_bind.
  destruct (g_kind g) eqn:E; [| |apply wp_ret; apply wp_bind; by eapply wp_read_page|done];
    [apply wp_ret; apply wp_bind; by eapply wp_read_page|].
  destruct Hh as [[?|[? _]]| ->]; [congruence..|]. apply wp_ret, wp_bind. by eapply wp_read_page.
Qed.

Lemma wp_guard_deref_unsafe s n g node (Q : option (Node S) → St → Prop) :
  guard_ok n g (latches s) → blocks s !! g_block g = Some node →
  (∀ ok : bool, within n ok (latches s) → (ok = true → guard_valid_local g = true) →
    Q (if ok then Some node else None) s) →
  wp (guard_deref_unsafe g) s Q.
Proof using Type.
  intros [_ Hg] Hb HQ. unfold guard_deref_unsafe.
  destruct (guard_valid_local g).
  - apply wp_bind. eapply wp_read_page; [done|]. by apply wp_ret, (HQ true).
  - by apply wp_ret, (HQ false).
Qed.

(** ** Borrowing *)

(** At the levels a writer meets, every strategy but the optimistic one borrows
    for writing. *)
Definition writes (curr_level : Level) (height : Height) : Prop := (height ≤ curr_level)%Z.

Lemma wp_borrow_as s n how b (Q : BlockGuard → St → Prop) :
  obsolete s = ∅ → within n true (latches s) →
  (∀ g l, length l ≤ length (latches s) → within n (guard_valid_local g) l → g_block g = b →
    (is_optimistic st = false → g_kind g ≠ GuardNone) →
    (is_orwc st = true → how = BorrowMut → held g) →
    (is_optimistic st = false → is_orwc st = false → held g) →
    Q g (set_latches l s)) →
  wp (borrow_as st how b) s Q.
Proof using st_ok.
  intros Hob Hn HQ. unfold borrow_as. rewrite -{1}(set_latches_id s).
  destruct (decide (how = BorrowFree)) as [->|Hfree].
  { apply wp_ret, HQ; [done..|by intros _|by intros _ ?|intros; by right]. }
  assert (is_optimistic st = false → ∀ k, k ≠ GuardNone →
    (is_orwc st = true → how = BorrowMut → k = GuardWriter) →
    (is_orwc st = false → held (mkGuard b k)) → Q (mkGuard b k) s) as Hstrict.
  { intros Ho k Hk H1 H2. rewrite -(set_latches_id s). apply HQ; [done|by destruct k|done|done| |auto].
    intros Horwc Hm. left. simpl. by apply H1. }
  unfold held in *. destruct st as [| | | | |]; simpl in st_ok; try done; simpl.
  - destruct how; try done; apply wp_ret; rewrite set_latches_id; (apply Hstrict; [done..|intros _; by right]).
  - destruct how; try done; apply wp_ret; rewrite set_latches_id; (apply Hstrict; [done..|intros _; by left]).
  - destruct how; try done; apply wp_ret; rewrite set_latches_id; by apply Hstrict.
  - rewrite set_latches_id. destruct how; try done; unfold is_sealed; wp_steps; rewrite Hob /=;
      (apply wp_bind, (wp_win s n); [done|]); intros ok l Hl Hw; apply wp_ret, HQ; try done; by destruct ok.
Qed.

Lemma wp_borrow_for s n curr_level max_level attempt height b (Q : BlockGuard → St → Prop) :
  obsolete s = ∅ → within n true (latches s) → writes curr_level height →
  (∀ g l, length l ≤ length (latches s) → guard_ok n g l → g_block g = b → Q g (set_latches l s)) →
  wp (borrow_for st curr_level max_level attempt height b) s Q.
Proof using st_ok.
  intros Hob Hn Hlvl HQ. unfold borrow_for. apply (wp_borrow_as s n); [done..|].
  intros g l Hl Hw Hb Hk Hmut Hheld. apply HQ; [done| |done]. split; [|done].
  intros Ho. destruct (is_orwc st) eqn:E; [|by apply Hheld]. apply Hmut; [done|].
  destruct st as [| |write_level write_attempt| | |]; try done. simpl. by rewrite (proj2 (Z.leb_le _ _) Hlvl).
Qed.

Lemma wp_borrow_read s n b (Q : BlockGuard → St → Prop) :
  obsolete s = ∅ → within n true (latches s) →
  (∀ g l, length l ≤ length (latches s) → within n (guard_valid_local g) l → g_block g = b →
    (is_optimistic st = false → g_kind g ≠ GuardNone) → Q g (set_latches l s)) →
  wp (borrow_as st (lock_reader st) b) s Q.
Proof using st_ok. intros Hob Hn HQ. apply (wp_borrow_as s n); [done..|]. eauto. Qed.

Lemma wp_mark_obsolete s g (Q : () → St → Prop) : Q () s → wp (mark_obsolete st g) s Q.
Proof using st_ok. intros HQ. unfold mark_obsolete. rewrite st_ok. by apply wp_ret. Qed.

(** ** Allocation *)
Lemma wp_count_alloc s (Q : () → St → Prop) :
  (∀ a, Q () (set_alloc a s)) → wp count_alloc s Q.
Proof using Type. intros HQ. unfold count_alloc. wp_steps. apply HQ. Qed.

Lemma wp_new_cell s node (Q : BlockRef → St → Prop) :
  Q (next_block s) (set_next (Datatypes.S (next_block s))
    (set_blocks (<[next_block s := node]> (blocks s)) s)) →
  wp (new_cell node) s Q.
Proof using Type. intros HQ. unfold new_cell. wp_steps. exact HQ. Qed.

Lemma index_page_ok (keys : list Z) (children : list BlockRef) :
  1 ≤ length keys < F → Datatypes.S (length keys) ≤ length children ≤ F →
  index_page F keys children =
    Some (Index keys (take (Datatypes.S (length keys)) children) : Node S).
Proof using Type.
  intros Hk Hc. unfold index_page, children_len. destruct (length keys) as [|k] eqn:E; [lia|].
  by rewrite decide_True; [|lia].
Qed.

Lemma leaf_page_ok (rs : list (VersionedRecordPoint S)) :
  length rs ≤ N → leaf_page N rs = Some (Leaf rs).
Proof using Type. intros H. unfold leaf_page. by rewrite decide_True. Qed.
End guards.
