(* ===== verification/DexaRepair.v ===== *)
(** * The repairs of an overfull node keep the invariant

    [do_overflow_correction] and the split of the root (without the collector)
    run to their end and leave a tree for the same table, in which both halves
    have room. Under the invariant no node is underfull. *)
From S2P Require Import Prelude Version Interval Clock VersionHistory VersionedLeaf.
From S2P Require Import DexaLocking DexaCell DexaTree DexaSmo DexaDescent DexaScan.
From S2P Require Import DexaKeys DexaInv DexaSplit DexaGuard.
From Stdlib Require Import ZifyNat.
Ltac Zify.zify_post_hook ::= Z.div_mod_to_equations.
#[local] Set Default Proof Using "Type*".

Section repair.
Context {P S : Type} `{!VersionStore P S, !VersionStoreLaws P S}.
Context (F N : nat) (HF : 5 ≤ F) (HN : 3 ≤ N) (st : LockingStrategy).
Context (st_ok : split_seals (latch_type st) = false).
Local Abbreviation St := (MVBPlusTree S).
Local Abbreviation node_ok := (node_ok F N).
Local Abbreviation Inv := (Inv F N).
Local Abbreviation has_overflow := (has_overflow (S := S) F N).
Local Abbreviation has_underflow := (has_underflow (S := S) F N).
Implicit Types (s : St) (Γ : gmap BlockRef Ty) (m : Table P) (D d : nat) (b c p : BlockRef).
Implicit Types (I J : Interval) (node : Node S) (rs : list (VersionedRecordPoint S)).
Implicit Types (keys : list Z) (cs : list BlockRef) (full : Prop) (ty : Ty) (g : BlockGuard).

Lemma has_overflow_leaf rs : has_overflow (Leaf rs) = (N <=? length rs).
Proof using Type. done. Qed.

Lemma has_overflow_index keys cs : has_overflow (Index keys cs) = (F - 2 <=? length keys).
Proof using Type. unfold DexaTree.has_overflow, is_overflow, allocation_directory. simpl. f_equal. clear; lia. Qed.

(** No node but the root is underfull. *)
Lemma full_no_underflow Γ m ty node : node_ok Γ m True ty node → has_underflow node = false.
Proof using HF HN.
  intros Hok. unfold DexaTree.has_underflow, is_underflow, u64_wrap.
  destruct node as [keys cs|rs]; cbn [is_leaf node_len].
  - destruct Hok as (d & _ & _ & _ & _ & Hfull & _). specialize (Hfull I).
    unfold fill_index, allocation_directory in *. apply Z.ltb_ge.
    etransitivity; [apply Z.mod_le; lia|]. lia.
  - destruct Hok as (_ & _ & _ & Hfull). specialize (Hfull I).
    unfold fill_leaf, allocation_leaf in *. apply Z.ltb_ge.
    etransitivity; [apply Z.mod_le; lia|]. lia.
Qed.

(** ** A full node in two *)
Record halves Γ m ty (k3 : Z) node n1 n2 : Prop := {
  hv_key : (lower (t_keys ty) < k3 ≤ upper (t_keys ty) ∧ k3 < END_KEY)%Z;
  hv_left : node_ok Γ m True (mkTy (t_depth ty) (left_of (t_keys ty) k3)) n1;
  hv_right : node_ok Γ m True (mkTy (t_depth ty) (right_of (t_keys ty) k3)) n2;
  hv_room : has_overflow n1 = false ∧ has_overflow n2 = false;
}.

Lemma leaf_halves_ok Γ m full ty rs :
  (∀ k h, m !! k = Some h → Interval.contains ALL_KEYS k = true) →
  node_ok Γ m full ty (Leaf rs) → has_overflow (Leaf rs) = true →
  ∃ k3, vr_key <$> rs !! (length rs / 2) = Some k3 ∧
    halves Γ m ty k3 (Leaf rs) (Leaf (take (length rs / 2) rs)) (Leaf (drop (length rs / 2) rs)) ∧
    length rs ≤ N.
Proof using HF HN.
  destruct ty as [d J]. intros Hkeys Hok Hov%Nat.leb_le.
  unfold allocation_leaf in Hov. simpl in Hov. pose proof Hok as (Hd & _ & Hl & _). simpl in Hd. subst d.
  destruct (leaf_halves F N HF HN Γ m full J rs Hkeys Hok Hov) as (k3 & Hk3 & Hk & H1 & H2).
  exists k3. split; [done|]. split; [|done]. split; [done..|].
  rewrite !has_overflow_leaf length_take length_drop.
  split; apply Nat.leb_gt; lia.
Qed.

Lemma index_halves_ok Γ m full ty keys cs :
  node_ok Γ m full ty (Index keys cs) → has_overflow (Index keys cs) = true →
  let n := length keys / 2 in
  ∃ k3, keys !! n = Some k3 ∧ 3 ≤ length keys ≤ F - 2 ∧ length cs = Datatypes.S (length keys) ∧
    halves Γ m ty k3 (Index keys cs) (Index (take n keys) (take (Datatypes.S n) cs))
      (Index (drop (Datatypes.S n) keys) (drop (Datatypes.S n) cs)).
Proof using HF HN.
  destruct ty as [d J]. intros Hok Hov n. rewrite has_overflow_index in Hov. apply Nat.leb_le in Hov.
  pose proof Hok as (d' & Hd & _ & Hl & Hr & _). simpl in Hd. subst d.
  destruct (index_halves F N HF HN Γ m full d' J keys cs Hok Hov) as (k3 & Hk3 & Hk & H1 & H2).
  exists k3. split; [done|]. split; [lia|]. split; [done|]. split; [done..|].
  rewrite !has_overflow_index length_take length_drop.
  split; apply Nat.leb_gt; unfold n; lia.
Qed.

(** What a step of a traversal leaves alone. *)
Definition keeps s s' : Prop :=
  latches s' = latches s ∧ clock s' = clock s ∧ limbo s' = limbo s.

Lemma wp_link_right s g pos right k3 keys cs (Q : () → St → Prop) :
  held st g → blocks s !! g_block g = Some (Index keys cs) → length cs = Datatypes.S (length keys) →
  pos ≤ length keys → length keys < F - 2 →
  Q () (set_blocks (<[g_block g := split_node pos k3 right keys cs]> (blocks s)) s) →
  wp (link_right F g pos right k3) s Q.
Proof using HF HN.
  intros Hg Hb Hl Hp Hroom HQ. unfold link_right.
  apply wp_bind. eapply wp_guard_deref_mut; [done..|].
  apply wp_bind. eapply wp_lift; [unfold vec_insert; rewrite decide_True; [done|lia]|].
  apply wp_bind. eapply wp_lift; [unfold vec_insert; rewrite decide_True; [done|lia]|].
  apply wp_bind. eapply wp_lift.
  { apply index_page_ok; rewrite !length_app /= !length_take !length_drop; lia. }
  apply wp_write_block; [done|].
  rewrite (take_ge (take _ _ ++ _ :: _)); [exact HQ|]. rewrite !length_app /= !length_take !length_drop. lia.
Qed.

(** The state after a split: the child [c] holds the lower half, the fresh block
    [r] the upper half, and their parent one more key. *)
Record split_done s s' Γ Γ' m p c d J : Prop := {
  sd_keeps : keeps s s';
  sd_root : root_block s' = root_block s;
  sd_types b ty : Γ !! b = Some ty → b ≠ c → Γ' !! b = Some ty;
  sd_left : ∃ k3 n1 n2, Γ' !! c = Some (mkTy d (left_of J k3)) ∧
    Γ' !! next_block s = Some (mkTy d (right_of J k3)) ∧
    blocks s' !! c = Some n1 ∧ blocks s' !! next_block s = Some n2 ∧
    has_overflow n1 = false ∧ has_overflow n2 = false;
  sd_parent : ∃ keys cs, blocks s' !! p = Some (Index keys cs);
}.

Lemma split_child s s' Γ D m p d I keys cs pos c node n1 n2 k3 :
  let J := child_interval keys pos I in
  let r := next_block s in
  Inv s Γ D m → Γ !! p = Some (mkTy (Datatypes.S d) I) → blocks s !! p = Some (Index keys cs) →
  cs !! pos = Some c → blocks s !! c = Some node → length keys < F - 2 →
  halves Γ m (mkTy d J) k3 node n1 n2 →
  root_block s' = root_block s → root_height s' = root_height s → obsolete s' = obsolete s →
  next_block s' = Datatypes.S r → keeps s s' →
  blocks s' = <[p := split_node pos k3 r keys cs]> (<[c := n1]> (<[r := n2]> (blocks s))) →
  ∃ Γ', Inv s' Γ' D m ∧ split_done s s' Γ Γ' m p c d J.
Proof using Type.
  intros J r HI Hp Hn Hc Hcn Hroom [Hk H1 H2 [Ho1 Ho2]] Hr1 Hr2 Hr3 Hr4 Hkeep Hbs.
  pose proof (Inv_split_child F N s Γ D m p d I keys cs pos c node n1 n2 k3 HI Hp Hn Hc Hcn Hroom Hk H1 H2) as HI'.
  fold J r in HI'.
  destruct (child_lt F N _ _ _ _ p _ c _ HI Hp Hn) as (d' & J' & Hct & Hd & HdD & Hcroot);
    [by eapply list_elem_of_lookup_2|].
  pose proof (inv_lt F N _ _ _ _ _ _ HI Hp) as Hpr. pose proof (inv_lt F N _ _ _ _ _ _ HI Hct) as Hcr.
  fold r in Hpr, Hcr.
  assert (c ≠ p) as Hcp by (intros ->; rewrite Hp in Hct; injection Hct as E _; simpl in Hd; clear -Hd E; lia).
  assert (r ≠ c ∧ r ≠ p) as [Hrc Hrp] by (clear -Hpr Hcr; lia).
  eexists. split; [eapply Inv_ext; [exact HI'|done..]|]. split; [done|done| |exists k3, n1, n2|].
  - intros b ty Hb Hbc. rewrite lookup_insert_ne; [by rewrite lookup_insert_ne|].
    pose proof (inv_lt F N _ _ _ _ _ _ HI Hb). intros <-. unfold r in *. clear -H. lia.
  - rewrite Hbs. split_and!; try done.
    + rewrite lookup_insert_ne // lookup_insert_eq //.
    + by rewrite lookup_insert_eq.
    + rewrite lookup_insert_ne // lookup_insert_eq //.
    + do 2 (rewrite lookup_insert_ne; [|done]). by rewrite lookup_insert_eq.
  - rewrite Hbs lookup_insert_eq. by eexists _, _.
Qed.

Lemma wp_do_overflow_correction s Γ D m pg cg pos d I keys cs c node :
  let J := child_interval keys pos I in
  Inv s Γ D m → held st pg → held st cg → Γ !! g_block pg = Some (mkTy (Datatypes.S d) I) →
  blocks s !! g_block pg = Some (Index keys cs) → cs !! pos = Some (g_block cg) →
  blocks s !! g_block cg = Some node → has_overflow node = true → length keys < F - 2 →
  wp (do_overflow_correction (P := P) F N st false pg pos cg) s (λ _ s',
    ∃ Γ', Inv s' Γ' D m ∧ split_done s s' Γ Γ' m (g_block pg) (g_block cg) d J).
Proof.
  intros J HI Hpg Hcg Hp Hn Hc Hcn Hov Hroom. unfold do_overflow_correction.
  destruct (index_typed F N _ _ _ _ _ _ _ _ _ HI Hp Hn) as (? & [= <-] & Hs & Hl & Hr & Ht).
  pose proof (Ht _ _ Hc) as Hct. fold J in Hct. pose proof (lookup_lt_Some _ _ _ Hc) as Hpos.
  destruct (inv_store _ _ _ _ _ _ HI _ _ Hct) as (node' & Hcn' & Hok). simplify_eq.
  pose proof (inv_lt F N _ _ _ _ _ _ HI Hct) as Hcr. pose proof (inv_lt F N _ _ _ _ _ _ HI Hp) as Hpr.
  assert (g_block pg ≠ g_block cg) as Hne.
  { intros E. rewrite -E Hp in Hct. injection Hct as E' _. clear -E'. lia. }
  apply wp_bind, wp_mark_obsolete; [done|]. apply wp_bind.
  eapply wp_guard_deref_mut; [done|done|].
  destruct node as [ckeys ccs|crs].
  - destruct (index_halves_ok _ _ _ _ _ _ Hok Hov) as (k3 & Hk3 & Hlen & Hcl & Hh).
    apply wp_bind. eapply wp_lift; [done|]. unfold new_index_cell.
    apply wp_bind, wp_bind, wp_count_alloc. intros a.
    apply wp_bind. eapply wp_lift.
    { apply index_page_ok; rewrite !length_drop; clear -Hlen Hcl; lia. }
    apply wp_new_cell. apply wp_bind. eapply wp_lift.
    { apply index_page_ok; rewrite !length_take; clear -Hlen Hcl; lia. }
    apply wp_bind, wp_write_block.
    { simpl. rewrite lookup_insert_is_Some'. right. by rewrite Hcn. }
    apply (wp_link_right _ _ _ _ _ keys cs); [done| |done|clear -Hpos Hl; lia|done|].
    { simpl. rewrite lookup_insert_ne //. rewrite lookup_insert_ne //. clear -Hpr. simpl. lia. }
    rewrite (take_ge (drop _ ccs)); [|rewrite !length_drop; clear -Hlen Hcl; lia].
    rewrite length_take Nat.min_l; [|clear -Hlen; lia].
    eapply split_child; try done.
  - destruct (leaf_halves_ok _ _ _ _ _ (inv_keys _ _ _ _ _ _ HI) Hok Hov) as (k3 & Hk3 & Hh & Hlen).
    apply wp_bind. unfold split_records. apply wp_bind, wp_ret, wp_ret.
    apply wp_bind. eapply wp_lift; [done|]. unfold new_leaf_cell.
    apply wp_bind, wp_bind, wp_count_alloc. intros a.
    apply wp_bind. eapply wp_lift; [apply leaf_page_ok; rewrite length_drop; clear -Hlen; lia|].
    apply wp_new_cell. apply wp_bind, wp_write_block.
    { simpl. rewrite lookup_insert_is_Some'. right. by rewrite Hcn. }
    apply (wp_link_right _ _ _ _ _ keys cs); [done| |done|clear -Hpos Hl; lia|done|].
    { simpl. rewrite lookup_insert_ne //. rewrite lookup_insert_ne //. clear -Hpr. simpl. lia. }
    eapply split_child; try done.
Qed.

(** ** The root *)
Definition root_room s : Prop :=
  ∃ node, blocks s !! root_block s = Some node ∧ has_overflow node = false.

Lemma lone_separator_room k3 (b c : BlockRef) : has_overflow (Index [k3] [b; c]) = false.
Proof using HF HN. rewrite has_overflow_index. simpl. apply Nat.leb_gt. lia. Qed.

Lemma root_key Γ m D node n1 n2 k3 :
  halves Γ m (mkTy D ALL_KEYS) k3 node n1 n2 → (START_KEY < k3 < END_KEY)%Z.
Proof using HF HN.
  intros Hh. destruct (hv_key _ _ _ _ _ _ _ Hh) as [[H1 _] H2].
  change (lower (t_keys (mkTy D ALL_KEYS))) with START_KEY in H1. lia.
Qed.

Lemma root_split_done s s' Γ D m l rr top node n1 n2 k3 :
  Inv s Γ D m → new_top s l rr top Γ → halves Γ m (mkTy D ALL_KEYS) k3 node n1 n2 →
  root_block s' = top → root_height s' = root_height s → obsolete s' = obsolete s →
  keeps s s' → next_block s ≤ next_block s' → l < next_block s' → rr < next_block s' →
  top < next_block s' →
  blocks s' = <[top := Index [k3] [l; rr]]> (<[rr := n2]> (<[l := n1]> (blocks s))) →
  (is_leaf node = false → root_block s' = root_block s) →
  ∃ Γ', Inv s' Γ' (Datatypes.S D) m ∧ keeps s s' ∧ root_room s' ∧
    (is_leaf node = false → root_block s' = root_block s).
Proof using HF HN.
  intros HI Htop Hh Hr1 Hr2 Hr3 Hkeep Hnx Hlx Hrx Htx Hbs Hsame.
  pose proof (nt_distinct _ _ _ _ _ Htop) as (Hlr & Hlt & Hrt).
  exists (types_top D k3 l rr top Γ). split; [|split; [done|]].
  - eapply (Inv_split_root F N s s' Γ D m l rr top n1 n2 k3); try done.
    + clear -HF; lia.
    + by eapply root_key.
    + apply (hv_left _ _ _ _ _ _ _ Hh).
    + apply (hv_right _ _ _ _ _ _ _ Hh).
    + rewrite Hbs lookup_insert_ne // lookup_insert_ne // lookup_insert_eq //.
    + rewrite Hbs lookup_insert_ne // lookup_insert_eq //.
    + by rewrite Hbs lookup_insert_eq.
    + intros b Hb. rewrite Hbs. rewrite !elem_of_cons in Hb.
      do 3 (rewrite lookup_insert_ne; [|naive_solver]). done.
    + intros b n. rewrite Hbs !lookup_insert_Some. intros Hb.
      assert (b = top ∨ b = rr ∨ b = l ∨ blocks s !! b = Some n) as [->|[->|[->|Hb']]]
        by (clear -Hb; naive_solver); [done..|].
      apply (inv_next _ _ _ _ _ _ HI) in Hb'. clear -Hb' Hnx. lia.
  - split; [|done]. exists (Index [k3] [l; rr]). rewrite Hr1 Hbs lookup_insert_eq. split; [done|].
    by apply lone_separator_room.
Qed.

Lemma old_or_fresh s Γ D m b :
  Inv s Γ D m → b = root_block s ∨ next_block s ≤ b → Γ !! b = None ∨ b = root_block s.
Proof using Type.
  intros HI [->|Hb]; [by right|left]. destruct (Γ !! b) as [ty|] eqn:E; [|done].
  pose proof (inv_lt F N _ _ _ _ _ _ HI E) as Hlt. exfalso. clear -Hb Hlt; lia.
Qed.

Lemma wp_split_top s Γ D m node :
  Inv s Γ D m → blocks s !! root_block s = Some node → has_overflow node = true →
  wp (split_root (P := P) F N false (root_block s) node) s (λ _ s',
    ∃ Γ', Inv s' Γ' (Datatypes.S D) m ∧ keeps s s' ∧ root_room s' ∧
      (is_leaf node = false → root_block s' = root_block s)).
Proof.
  intros HI Hn Hov. pose proof (inv_root _ _ _ _ _ _ HI) as Hroot.
  destruct (inv_store _ _ _ _ _ _ HI _ _ Hroot) as (node' & Hn' & Hok). simplify_eq.
  pose proof (inv_lt F N _ _ _ _ _ _ HI Hroot) as Hlt.
  destruct node as [keys cs|rs]; unfold split_root; cbv zeta.
  - destruct (index_halves_ok _ _ _ _ _ _ Hok Hov) as (k3 & Hk3 & Hlen & Hcl & Hh).
    apply wp_bind. eapply wp_lift; [done|].
    apply wp_bind, wp_count_alloc; intros a1. apply wp_bind, wp_count_alloc; intros a2.
    apply wp_bind. eapply wp_lift; [apply index_page_ok; rewrite !length_drop; clear -Hlen Hcl; lia|].
    apply wp_bind. eapply wp_lift; [apply index_page_ok; rewrite !length_take; clear -Hlen Hcl; lia|].
    apply wp_bind, wp_new_cell, wp_bind, wp_new_cell, wp_bind. eapply wp_lift.
    { apply index_page_ok; simpl; clear -HF; lia. }
    apply wp_write_block.
    { simpl. rewrite !lookup_insert_is_Some'. right. right. by rewrite Hn. }
    rewrite (take_ge (drop _ cs)); [|rewrite !length_drop; clear -Hlen Hcl; lia].
    rewrite (take_ge (take _ cs)); [|rewrite !length_take; clear -Hlen Hcl; lia].
    eapply root_split_done; [done|split|exact Hh|done..| | | | |done|done]; simpl; try (clear -Hlt; lia).
    + intros b Hb. rewrite !elem_of_cons elem_of_nil in Hb. eapply old_or_fresh; [done|].
      clear -Hb. naive_solver lia.
    + rewrite !elem_of_cons. tauto.
  - destruct (leaf_halves_ok _ _ _ _ _ (inv_keys _ _ _ _ _ _ HI) Hok Hov) as (k3 & Hk3 & Hh & Hlen).
    pose proof Hok as (HD & _). simpl in HD. subst D.
    apply wp_bind. unfold split_records. apply wp_bind, wp_ret, wp_ret.
    apply wp_bind. eapply wp_lift; [done|].
    apply wp_bind, wp_count_alloc; intros a1. apply wp_bind, wp_count_alloc; intros a2.
    apply wp_bind. eapply wp_lift; [apply leaf_page_ok; rewrite length_drop; clear -Hlen; lia|].
    apply wp_bind, wp_write_block; [by rewrite Hn|].
    apply wp_bind, wp_new_cell, wp_bind. eapply wp_lift; [apply index_page_ok; simpl; clear -HF; lia|].
    apply wp_bind, wp_new_cell. wp_steps.
    eapply root_split_done; [done|split|exact Hh|done..| | | | |done|done]; simpl; try (clear -Hlt; lia).
    + intros b Hb. rewrite !elem_of_cons elem_of_nil in Hb. eapply old_or_fresh; [done|].
      clear -Hb. naive_solver lia.
    + rewrite !elem_of_cons. tauto.
Qed.
End repair.
