(* ===== verification/DexaWrite.v ===== *)
(** * The descents of writers

    From any tree and for any latches the thread may lose, the traversals of
    [DexaDescent.v] that prepare a write end: they repair the overfull nodes on
    their way, start again when a latch is lost, and arrive with a guard on the
    leaf for the key, which has room for a record more. *)
From S2P Require Import Prelude Version Interval Clock VersionHistory VersionedLeaf.
From S2P Require Import DexaLocking DexaCell DexaTree DexaSmo DexaDescent DexaScan.
From S2P Require Import DexaKeys DexaInv DexaSplit DexaGuard DexaRepair.
#[local] Set Default Proof Using "Type*".

Section write.
Context {P S : Type} `{!VersionStore P S, !VersionStoreLaws P S}.
Context (F N : nat) (HF : 5 ≤ F) (HN : 3 ≤ N) (st : LockingStrategy).
Context (st_ok : split_seals (latch_type st) = false).
Local Abbreviation St := (MVBPlusTree S).
Local Abbreviation node_ok := (node_ok F N).
Local Abbreviation Inv := (Inv F N).
Local Abbreviation has_overflow := (has_overflow (S := S) F N).
Local Abbreviation has_underflow := (has_underflow (S := S) F N).
Local Abbreviation guard_ok := (guard_ok st).
Local Abbreviation held := (held st).
Local Abbreviation root_room := (root_room F N).
Implicit Types (s : St) (Γ : gmap BlockRef Ty) (m : Table P) (D d n : nat) (b c p : BlockRef).
Implicit Types (I J : Interval) (node : Node S) (rs : list (VersionedRecordPoint S)).
Implicit Types (keys : list Z) (cs : list BlockRef) (ty : Ty) (g : BlockGuard) (k : Z).

(** A tree for the table [m], at the clock [cl], with at most [n] latches to lose. *)
Definition tree_at m (cl : ClockSt) n (ok : bool) s : Prop :=
  (∃ Γ D, Inv s Γ D m) ∧ clock s = cl ∧ within n ok (latches s).

Lemma tree_at_intro s Γ D m n ok : Inv s Γ D m → within n ok (latches s) → tree_at m (clock s) n ok s.
Proof using Type. intros HI Hw. split; [by exists Γ, D|done]. Qed.

Lemma Inv_lat s Γ D m l : Inv s Γ D m → Inv (set_latches l s) Γ D m.
Proof using Type. apply Inv_set_latches. Qed.

(** ** The root *)
Definition root_res m (cl : ClockSt) n s (res : result (BlockGuard * Height) (LockLevel * Attempts)) s' :
    Prop :=
  match res with
  | Ok (g, height) => tree_at m cl n true s' ∧ g_block g = root_block s' ∧
      guard_ok n g (latches s') ∧ root_room s' ∧ (1 ≤ height ≤ 2)%Z
  | Err _ => tree_at m cl n false s' ∨ tree_at m cl n true s' ∧ root_room s' ∧ ¬ root_room s
  end.

Lemma not_root_room s node :
  blocks s !! root_block s = Some node → has_overflow node = true → ¬ root_room s.
Proof using Type.
  intros Hn Ho (x & Hx & Hxo). rewrite Hn in Hx. injection Hx as <-. by rewrite Ho in Hxo.
Qed.

Lemma wp_find_root_once s Γ D m n lock_level attempt :
  Inv s Γ D m → within n true (latches s) →
  wp (retrieve_root_internal (P := P) F N st false lock_level attempt) s (root_res m (clock s) n s).
Proof.
  intros HI Hn. unfold retrieve_root_internal. wp_steps.
  pose proof (inv_root _ _ _ _ _ _ HI) as Hroot. rewrite (inv_height _ _ _ _ _ _ HI).
  destruct (inv_store _ _ _ _ _ _ HI _ _ Hroot) as (node & Hnode & Hok).
  apply (wp_borrow_for st st_ok s n); [by eapply inv_sealed|done|done|].
  intros g l Hl Hg Hb. pose proof (guard_ok_within _ _ _ _ Hg) as Hw.
  destruct (guard_valid_local g) eqn:Hlocal; simpl.
  2:{ apply wp_ret. left. destruct Hg as [_ Hg]. rewrite Hlocal in Hg.
      apply (tree_at_intro (set_latches l s) Γ D); [by apply Inv_lat|done]. }
  apply wp_bind. eapply wp_read_page; [exact Hnode|].
  destruct (has_overflow node) eqn:Hov; simpl.
  2:{ rewrite andb_false_r. wp_steps. simpl. split_and!; try done.
      - apply (tree_at_intro (set_latches l s) Γ D); [by apply Inv_lat|done].
      - by exists node. }
  rewrite andb_true_r. apply wp_bind.
  set (force := match st with MonoWriter | LockCoupling => false | _ => _ end).
  assert (force = false → held g) as Hforce.
  { intros E. unfold force in E. destruct st; try done; try (by apply Hg; done);
      unfold is_write_guard in E; destruct (g_kind g) eqn:Hk; try done; by left. }
  assert (∀ s1 g1, Inv s1 Γ D m → clock s1 = clock s → held g1 → g_block g1 = root_block s1 →
    root_height s1 = 1%Z → blocks s1 !! root_block s1 = Some node → root_block s1 = root_block s →
    within n true (latches s1) →
    wp (node ← guard_deref_mut g1;
        if is_orwc st && negb (has_overflow node) then mret (Ok (g1, 1%Z))
        else split_root (P := P) F N false (root_block s) node;;
             (if is_leaf node then mret (Err (lock_level, attempt)) else mret (Ok (g1, u16_wrap (1 + 1)))))
      s1 (root_res m (clock s) n s)) as Hsplit.
  { intros s1 g1 HI1 Hcl Hh Hb1 Hht Hn1 Hsame Hw1. apply wp_bind.
    eapply wp_guard_deref_mut; [done|by rewrite Hb1|]. rewrite Hov andb_false_r. apply wp_bind.
    rewrite -Hsame. eapply wp_mono; [by eapply (wp_split_top F N HF HN)|].
    intros _ s2 (Γ' & HI2 & (Hk1 & Hk2 & _) & Hroom & Hidx). rewrite -Hcl -Hk2.
    assert (within n true (latches s2)) as Hw2 by by rewrite Hk1.
    destruct (is_leaf node) eqn:Hleaf; apply wp_ret; simpl.
    - right. split; [by eapply tree_at_intro|]. split; [done|]. by eapply not_root_room.
    - split; [by eapply tree_at_intro|]. split; [by rewrite Hb1 Hidx|]. split; [by apply held_ok|done]. }
  destruct force.
  - apply (wp_guard_upgrade st _ n); [done| |].
    + intros g' l' Hl' Hw' Hb' Hh'. simpl.
      apply Hsplit; try done; [by apply Inv_lat, Inv_lat|by rewrite Hb'|by apply (inv_height _ _ _ _ _ _ HI)].
    + intros g' l' Hl' Hw'. simpl. apply wp_ret. left.
      apply (tree_at_intro (set_latches l' s) Γ D); [by apply Inv_lat|done].
  - apply wp_ret. simpl. apply Hsplit; try done; [by apply Inv_lat|by apply Hforce|].
    by apply (inv_height _ _ _ _ _ _ HI).
Qed.

Definition root_measure s : nat :=
  2 * length (latches s) +
  match blocks s !! root_block s with
  | Some node => if has_overflow node then 1 else 0
  | None => 0
  end.

Lemma wp_find_root fuel s Γ D m n lock_level attempt :
  Inv s Γ D m → within n true (latches s) → root_measure s < fuel →
  wp (retrieve_root (P := P) F N st false fuel lock_level attempt) s (λ res s',
    root_res m (clock s) n s (Ok (res.1.1.1, res.1.1.2)) s').
Proof.
  revert s Γ D lock_level attempt. induction fuel as [|fuel IH]; intros s Γ D lock_level attempt HI Hn Hf;
    [by apply Nat.nlt_0_r in Hf|]. simpl. apply wp_bind.
  eapply wp_mono; [eapply (wp_find_root_once s Γ D m (length (latches s))); [done|apply within_refl]|].
  intros [[g height]|[lock_level' attempt']] s'.
  - intros (H1 & H2 & H3 & H4). apply wp_ret. simpl.
    destruct H1 as (? & ? & ?). split; [split_and!; [done..|by eapply within_mono]|].
    split; [done|]. split; [|done]. by eapply guard_ok_mono.
  - intros Hres. assert (clock s' = clock s) as Hcl by (destruct Hres as [(_ & ? & _)|[(_ & ? & _) _]]; done).
    assert ((∃ Γ D, Inv s' Γ D m) ∧ length (latches s') ≤ length (latches s) ∧ root_measure s' < fuel)
      as ((Γ' & D' & HI') & Hle & Hf').
    { unfold root_measure in *. destruct Hres as [(HI' & _ & Hw)|((HI' & _ & Hw) & Hroom & Hnot)]; simpl in Hw.
      - split; [done|]. split; [lia|]. destruct (blocks s' !! root_block s') as [x|]; [|lia].
        destruct (DexaTree.has_overflow _ _ x), (blocks s !! root_block s) as [y|];
          [destruct (DexaTree.has_overflow _ _ y)| |destruct (DexaTree.has_overflow _ _ y)|]; lia.
      - split; [done|]. split; [done|]. destruct Hroom as (x & Hx & Hxo). rewrite Hx Hxo.
        pose proof (inv_root _ _ _ _ _ _ HI) as Hroot.
        destruct (inv_store _ _ _ _ _ _ HI _ _ Hroot) as (y & Hy & _). rewrite Hy in Hf.
        destruct (DexaTree.has_overflow _ _ y) eqn:Hyo; [lia|]. destruct Hnot. by exists y. }
    rewrite -Hcl. eapply wp_mono; [eapply IH; [done| |done]|].
    + simpl in *. lia.
    + done.
Qed.

(** ** The repair of a child *)
Definition child_room s keys cs k : Prop :=
  ∀ c node, cs !! child_position keys (inc_key k) = Some c → blocks s !! c = Some node →
    has_overflow node = false.

Lemma split_child_room s s' Γ Γ' D m p c d I J keys cs k :
  Inv s' Γ' D m → split_done F N s s' Γ Γ' m p c d J → Γ' !! p = Some (mkTy (Datatypes.S d) I) →
  blocks s' !! p = Some (Index keys cs) → Interval.contains I k = true →
  Interval.contains J k = true → child_room s' keys cs k.
Proof using Type.
  intros HI [_ _ _ (k3 & n1 & n2 & Hl & Hr & Hn1 & Hn2 & Ho1 & Ho2) _] Hp Hn Hk HJ c0 node Hc Hnode.
  destruct (child_found F N _ _ _ _ _ _ _ _ _ k HI Hp Hn Hk) as (x & d' & _ & [= <-] & Hx & _ & Hxt & Hxk & _).
  rewrite Hc in Hx. injection Hx as <-.
  assert (Interval.contains (left_of J k3) k = true ∨ Interval.contains (right_of J k3) k = true)
    as [Hside|Hside].
  { apply contains_spec in HJ. rewrite !contains_spec. simpl. clear -HJ. lia. }
  - pose proof (inv_apart _ _ _ _ _ _ HI _ _ _ _ _ k Hxt Hl Hxk Hside) as ->. rewrite Hn1 in Hnode.
    by injection Hnode as <-.
  - pose proof (inv_apart _ _ _ _ _ _ HI _ _ _ _ _ k Hxt Hr Hxk Hside) as ->. rewrite Hn2 in Hnode.
    by injection Hnode as <-.
Qed.

Lemma wp_repair s Γ D m pg cg d I keys cs node k fence curr_level attempt lock_level
    (Q : result () () → St → Prop) :
  let pos := child_position keys (inc_key k) in
  Inv s Γ D m → held pg → held cg → Γ !! g_block pg = Some (mkTy (Datatypes.S d) I) →
  Interval.contains I k = true →
  blocks s !! g_block pg = Some (Index keys cs) → cs !! pos = Some (g_block cg) →
  blocks s !! g_block cg = Some node → has_overflow node = true →
  has_overflow (Index keys cs) = false →
  (∀ s' Γ' keys' cs', Inv s' Γ' D m → clock s' = clock s → latches s' = latches s →
    Γ' !! g_block pg = Some (mkTy (Datatypes.S d) I) →
    blocks s' !! g_block pg = Some (Index keys' cs') → child_room s' keys' cs' k → Q (Ok ()) s') →
  wp (correct_child (P := P) F N st false true fence curr_level attempt lock_level pg pos cg) s Q.
Proof.
  intros pos HI Hpg Hcg Hp Hk Hn Hc Hcn Hov Hroom HQ. unfold correct_child. apply wp_bind.
  destruct (child_found F N _ _ _ _ _ _ _ _ _ k HI Hp Hn Hk) as (x & d' & nd & [= <-] & Hx & _ & Hxt & Hxk & _ & _ & _).
  fold pos in Hx, Hxt, Hxk. rewrite Hc in Hx. injection Hx as <-.
  rewrite has_overflow_index in Hroom. apply Nat.leb_gt in Hroom.
  eapply wp_mono; [eapply (wp_do_overflow_correction F N HF HN st st_ok); done|].
  intros [] s' (Γ' & HI' & Hd). apply wp_ret.
  destruct (sd_parent _ _ _ _ _ _ _ _ _ _ _ Hd) as (keys' & cs' & Hn').
  assert (Γ' !! g_block pg = Some (mkTy (Datatypes.S d) I)) as Hp'.
  { apply (sd_types _ _ _ _ _ _ _ _ _ _ _ Hd); [done|]. intros E. rewrite E Hxt in Hp.
    injection Hp as E' _. clear -E'. lia. }
  destruct (sd_keeps _ _ _ _ _ _ _ _ _ _ _ Hd) as (Hk1 & Hk2 & _).
  eapply HQ; [done|done|done|done|done|]. by eapply split_child_room.
Qed.

(** ** The leaf for a key *)
Definition arrived m (cl : ClockSt) n (room : Prop) k g s : Prop :=
  held g ∧ clock s = cl ∧ within n true (latches s) ∧ ∃ Γ D I rs, Inv s Γ D m ∧
    Γ !! g_block g = Some (mkTy 0 I) ∧ Interval.contains I k = true ∧
    blocks s !! g_block g = Some (Leaf rs) ∧ (room → length rs < N).

Definition write_res m (cl : ClockSt) n (room : Prop) k
    (res : result BlockGuard (LockLevel * Attempts)) s : Prop :=
  match res with
  | Ok g => arrived m cl n room k g s
  | Err _ => tree_at m cl n false s
  end.

(** A node of the descent has room, or the next node has. *)
Definition prepared s node k (fixed : bool) : Prop :=
  if fixed then match node with Index keys cs => child_room s keys cs k | Leaf _ => False end
  else has_overflow node = false.

Lemma level_next curr_level (x : nat) :
  (1 ≤ curr_level)%Z → (curr_level + Z.of_nat (Datatypes.S x) ≤ U16_MAX)%Z →
  u16_wrap (curr_level + 1) = (curr_level + 1)%Z.
Proof using Type. intros H1 H2. unfold u16_wrap, U16_MAX in *. apply Z.mod_small. clear -H1 H2. lia. Qed.

(** A node of depth [d] takes at most a repair and a step down per level. *)
Definition steps_left d (fixed : bool) : nat := 2 * d + (if fixed then 0 else 1).

Lemma level_step curr_level d (fixed : bool) :
  (1 ≤ curr_level)%Z →
  (curr_level + Z.of_nat (steps_left (Datatypes.S d) fixed) ≤ U16_MAX)%Z →
  u16_wrap (curr_level + 1) = (curr_level + 1)%Z.
Proof using Type.
  intros H1 H2. apply (level_next _ 0); [done|]. unfold steps_left in H2. clear -H2. destruct fixed; lia.
Qed.

Lemma child_index s Γ D m b d I node k :
  Inv s Γ D m → Γ !! b = Some (mkTy d I) → blocks s !! b = Some node →
  Interval.contains I k = true → match node with
  | Index keys cs => ∃ c d' cnode, d = Datatypes.S d' ∧ cs !! child_position keys (inc_key k) = Some c ∧
      Γ !! c = Some (mkTy d' (child_interval keys (child_position keys (inc_key k)) I)) ∧
      Interval.contains (child_interval keys (child_position keys (inc_key k)) I) k = true ∧
      blocks s !! c = Some cnode ∧ has_underflow cnode = false
  | Leaf _ => d = 0
  end.
Proof using HF HN.
  intros HI Hb Hn Hk. destruct node as [keys cs|rs].
  - destruct (child_found F N _ _ _ _ _ _ _ _ _ k HI Hb Hn Hk)
      as (c & d' & cnode & -> & Hc & _ & Hct & Hck & Hcn & _ & Hok).
    exists c, d', cnode. split_and!; try done. by eapply (full_no_underflow F N HF HN).
  - destruct (inv_store _ _ _ _ _ _ HI _ _ Hb) as (node & Hn' & Hok).
    rewrite Hn in Hn'. injection Hn' as <-. by destruct Hok.
Qed.

(** ** The descents *)
Lemma tree_lost s Γ D m n l :
  Inv s Γ D m → within n false l → tree_at m (clock s) n false (set_latches l s).
Proof using Type. intros HI Hl. apply (tree_at_intro (set_latches l s) Γ D); [by apply Inv_lat|done]. Qed.

Lemma wp_upgrade_both s n g1 g2 (Q : bool * BlockGuard * BlockGuard → St → Prop) :
  guard_ok n g1 (latches s) → guard_ok n g2 (latches s) →
  (∀ g1' g2' l, within n true l → held g1' → held g2' → g_block g1' = g_block g1 →
    g_block g2' = g_block g2 → Q (true, g1', g2') (set_latches l s)) →
  (∀ g1' g2' l, within n false l → Q (false, g1', g2') (set_latches l s)) →
  wp (upgrade_both st g1 g2) s Q.
Proof using Type.
  intros H1 H2 HQ1 HQ2. unfold upgrade_both. apply wp_bind.
  apply (wp_guard_upgrade st _ n); [done| |]; intros g1' l1 Hl1 Hw1; simpl.
  2:{ apply wp_ret. by apply HQ2. }
  intros Hb1 Hh1. apply wp_bind. apply (wp_guard_upgrade st _ n); [by eapply guard_ok_le| |];
    intros g2' l2 Hl2 Hw2; simpl.
  - intros Hb2 Hh2. apply wp_ret. by apply (HQ1 g1' g2' l2).
  - apply wp_ret. by apply (HQ2 g1' g2' l2).
Qed.

Lemma wp_descend_locked fuel s Γ D m n d I node g k curr_level height lock_level attempt fence fixed :
  is_optimistic st = false →
  Inv s Γ D m → Γ !! g_block g = Some (mkTy d I) → Interval.contains I k = true →
  blocks s !! g_block g = Some node → prepared s node k fixed →
  held g → within n true (latches s) →
  (1 ≤ curr_level)%Z → (curr_level + Z.of_nat (steps_left d fixed) ≤ U16_MAX)%Z → (height ≤ 2)%Z →
  steps_left d fixed ≤ fuel →
  wp (descend_write (P := P) F N st false fuel curr_level height lock_level attempt fence g (inc_key k)) s
    (write_res m (clock s) n True k).
Proof.
  intros Hopt. revert s Γ d I node g curr_level fence fixed.
  induction fuel as [|fuel IH]; intros s Γ d I node g curr_level fence fixed HI Hb Hk Hn Hprep Hg Hw Hlvl Hmax
    Hheight Hfuel.
  { pose proof (child_index _ _ _ _ _ _ _ _ _ HI Hb Hn Hk) as Hci. exfalso.
    destruct fixed; unfold steps_left in Hfuel; [|clear -Hfuel; lia]. destruct node; [|done].
    destruct Hci as (_ & d' & _ & -> & _). clear -Hfuel. lia. }
  simpl. apply wp_bind.
  assert (∀ g', held g' → g_kind g' ≠ GuardNone) as Hkind by (intros g' [-> | [-> _]]; done).
  eapply (wp_guard_deref_valid st); [by apply Hkind|by left|exact Hn|].
  apply wp_bind. eapply wp_lift; [done|].
  pose proof (child_index _ _ _ _ _ _ _ _ _ HI Hb Hn Hk) as Hci. destruct node as [keys cs|rs].
  - destruct Hci as (c & d' & cnode & -> & Hc & Hct & Hck & Hcn & Hund).
    set (pos := child_position keys (inc_key k)) in *.
    apply wp_bind. eapply wp_lift; [exact Hc|]. rewrite (level_step _ _ _ Hlvl Hmax).
    apply wp_bind. eapply (wp_borrow_for st st_ok s n); [by eapply inv_sealed|done|unfold writes; lia|].
    intros ng l Hl [Hng Hnw] Hnb. specialize (Hng Hopt).
    pose proof (within_le _ _ _ _ Hw Hl) as Hw'.
    apply wp_bind. eapply (wp_guard_deref_valid st); [by apply Hkind|by left|by rewrite Hnb|].
    apply wp_bind. eapply wp_lift; [done|]. cbv zeta. rewrite Hund orb_false_r.
    destruct (has_overflow cnode) eqn:Hov.
    + destruct fixed; [by rewrite (Hprep _ _ Hc Hcn) in Hov|]. apply wp_bind.
      assert (∀ l1 g1 g2, within n true l1 → held g1 → held g2 → g_block g1 = g_block ng →
        g_block g2 = g_block g →
        wp (interfered ← (if is_orwc st && negb (is_write_guard g) then
              node ← guard_deref st g2; node ← unwrap node;
              mret (has_overflow node || has_underflow node) else mret false);
            if interfered : bool then mret (restart_at (curr_level + 1)%Z attempt)
            else
              res ← correct_child (P := P) F N st false true fence (curr_level + 1)%Z attempt lock_level
                      g2 pos g1;
              match res with
              | Err _ => mret (restart_at (curr_level + 1)%Z attempt)
              | Ok _ => descend_write (P := P) F N st false fuel (curr_level + 1)%Z height lock_level attempt
                          fence g2 (inc_key k)
              end) (set_latches l1 s) (write_res m (clock s) n True k)) as Hrep.
      { intros l1 g1 g2 Hw1 Hh1 Hh2 Hb1 Hb2.
        assert (is_orwc st && negb (is_write_guard g) = false) as ->.
        { destruct (is_orwc st) eqn:Ho; [|done]. by rewrite (held_writer st g Hg Ho). }
        apply wp_bind, wp_ret. cbn beta iota. apply wp_bind.
        apply (wp_repair (set_latches l1 s) Γ D m g2 g1 d' I keys cs cnode);
          rewrite ?Hb1 ?Hb2 ?Hnb; [by apply Inv_lat|done..|].
        intros s2 Γ2 keys2 cs2 HI2 Hcl2 Hl2 Hp2 Hn2 Hroom2. rewrite -Hb2 in Hp2, Hn2.
        change (clock (set_latches l1 s)) with (clock s) in Hcl2. rewrite -Hcl2.
        eapply (IH s2 Γ2 (Datatypes.S d') I (Index keys2 cs2) g2 _ _ true); try done.
        - by rewrite Hl2.
        - lia.
        - unfold steps_left in *. lia.
        - unfold steps_left in *. lia. }
      destruct (additional_lock_required st).
      * apply (wp_upgrade_both _ n); [by apply held_ok..| |].
        -- intros g1 g2 l1 Hw1 Hh1 Hh2 Hb1 Hb2. cbn beta iota. by apply Hrep.
        -- intros g1 g2 l1 Hw1. cbn beta iota. apply wp_ret. exact (tree_lost s _ _ _ _ _ HI Hw1).
      * apply wp_ret. by apply Hrep.
    + cbn beta iota.
      apply (IH (set_latches l s) Γ d' (child_interval keys pos I) cnode ng _ _ false); rewrite ?Hnb; try done.
      * by apply Inv_lat.
      * lia.
      * unfold steps_left in *. lia.
      * unfold steps_left in *. destruct fixed; lia.
  - subst d. apply wp_bind. apply (wp_guard_upgrade st _ n); [by apply held_ok| |];
      intros g' l Hl Hw'; [intros Hb' Hg'|]; apply wp_ret; cbn [write_res].
    + split; [done|]. split; [done|]. split; [done|]. exists Γ, D, I, rs. rewrite Hb'.
      split; [by apply Inv_lat|]. split_and!; try done. intros _. destruct fixed; [done|].
      by apply Nat.leb_gt.
    + exact (tree_lost s _ _ _ _ _ HI Hw').
Qed.

(** ** The optimistic descents *)
Lemma wp_borrow_opt s n how b (Q : BlockGuard → St → Prop) :
  is_optimistic st = true → obsolete s = ∅ → within n true (latches s) →
  (∀ g l, length l ≤ length (latches s) → guard_ok n g l → g_block g = b → Q g (set_latches l s)) →
  wp (borrow_as st how b) s Q.
Proof using st_ok.
  intros Ho Hob Hn HQ. apply (wp_borrow_as st st_ok s n); [done..|].
  intros g l Hl Hw Hb _ _ _. apply HQ; [done| |done]. split; [|done]. by rewrite Ho.
Qed.

Definition prepared_for s node k (append_op fixed : bool) : Prop :=
  if append_op then fixed = false else prepared s node k fixed.

Lemma wp_descend_write_olc append_op fuel s Γ D m n d I node g k curr_level height lock_level attempt
    fence fixed :
  is_optimistic st = true →
  Inv s Γ D m → Γ !! g_block g = Some (mkTy d I) → Interval.contains I k = true →
  blocks s !! g_block g = Some node → prepared_for s node k append_op fixed →
  guard_ok n g (latches s) → steps_left d fixed ≤ fuel →
  wp (descend_write_olc (P := P) F N st false append_op fuel curr_level height lock_level attempt fence g
        (inc_key k)) s (write_res m (clock s) n (append_op = false) k).
Proof.
  intros Hopt. revert s Γ d I node g curr_level fence fixed.
  induction fuel as [|fuel IH]; intros s Γ d I node g curr_level fence fixed HI Hb Hk Hn Hprep Hg Hfuel.
  { pose proof (child_index _ _ _ _ _ _ _ _ _ HI Hb Hn Hk) as Hci. exfalso.
    destruct fixed; unfold steps_left in Hfuel; [|clear -Hfuel; lia].
    destruct append_op; [done|]. destruct node; [|done].
    destruct Hci as (_ & d' & _ & -> & _). clear -Hfuel. lia. }
  simpl. apply wp_bind. eapply (wp_guard_deref st s n); [done|exact Hn|].
  intros [] l0 Hl0 Hw0; [|apply wp_ret; exact (tree_lost s _ _ _ _ _ HI Hw0)].
  pose proof (child_index _ _ _ _ _ _ _ _ _ HI Hb Hn Hk) as Hci. destruct node as [keys cs|rs].
  - destruct Hci as (c & d' & cnode & -> & Hc & Hct & Hck & Hcn & Hund).
    set (pos := child_position keys (inc_key k)) in *.
    apply wp_bind. eapply wp_lift; [exact Hc|].
    apply wp_bind. eapply (wp_guard_valid st _ n); [by eapply guard_ok_le|].
    intros [] l1 Hl1 Hw1; [|apply wp_ret; exact (tree_lost s _ _ _ _ _ HI Hw1)]. cbn [negb].
    apply wp_bind. apply (wp_borrow_opt _ n); [done|by apply (inv_sealed _ _ _ _ _ _ HI)|done|].
    intros ng l2 Hl2 Hng Hnb.
    apply wp_bind. eapply (wp_guard_deref_unsafe st _ n ng cnode); [done|by rewrite Hnb|].
    intros [] Hw2 Hlocal; [|apply wp_ret; exact (tree_lost s _ _ _ _ _ HI Hw2)].
    simpl in Hl0, Hl1, Hl2.
    apply wp_bind. eapply (wp_guard_valid st _ n);
      [eapply guard_ok_le; [exact Hg|simpl; clear -Hl0 Hl1 Hl2; lia]|].
    intros [] l3 Hl3 Hw3; [|apply wp_ret; exact (tree_lost s _ _ _ _ _ HI Hw3)]. cbn [negb]. cbv zeta.
    rewrite Hund andb_false_r orb_false_r. simpl in Hl3.
    destruct (negb append_op && has_overflow cnode) eqn:Hov.
    + apply andb_prop in Hov as [Happ Hov]. apply negb_true_iff in Happ. subst append_op.
      destruct fixed; [by rewrite (Hprep _ _ Hc Hcn) in Hov|]. apply wp_bind.
      apply (wp_upgrade_both _ n);
        [eapply guard_ok_le; [exact Hg|simpl; clear -Hl0 Hl1 Hl2 Hl3; lia]|by eapply guard_ok_le| |].
      2:{ intros g1 g2 l4 Hw4. cbn beta iota. apply wp_ret. exact (tree_lost s _ _ _ _ _ HI Hw4). }
      intros g1 g2 l4 Hw4 Hh1 Hh2 Hb1 Hb2. cbn [negb]. apply wp_bind.
      apply (wp_repair (set_latches l4 s) Γ D m g1 g2 d' I keys cs cnode);
        rewrite ?Hb1 ?Hb2 ?Hnb; [by apply Inv_lat|done..|].
      intros s2 Γ2 keys2 cs2 HI2 Hcl2 Hls2 Hp2 Hn2 Hroom2. rewrite -Hb1 in Hp2, Hn2.
      change (clock (set_latches l4 s)) with (clock s) in Hcl2. rewrite -Hcl2.
      eapply (IH s2 Γ2 (Datatypes.S d') I (Index keys2 cs2) g1 _ _ true); try done.
      * apply held_ok; [done|by rewrite Hls2].
      * unfold steps_left in *. lia.
    + apply (IH (set_latches l3 s) Γ d' (child_interval keys pos I) cnode ng _ _ false); rewrite ?Hnb; try done.
      * by apply Inv_lat.
      * destruct append_op; [done|]. by rewrite andb_true_l in Hov.
      * by eapply guard_ok_le.
      * unfold steps_left in *. destruct fixed; lia.
  - subst d. apply wp_bind.
    assert (wp (guard_upgrade st g) (set_latches l0 s) (λ x s',
      wp (let '(ok, current_guard) := x in
        mret (if ok : bool then Ok current_guard else restart_at curr_level attempt)) s'
        (write_res m (clock s) n (append_op = false) k))) as Hlast.
    { apply (wp_guard_upgrade st _ n); [by eapply guard_ok_le| |];
        intros g' l Hl Hw'; [intros Hb' Hg'|]; apply wp_ret; cbn [write_res].
      - split; [done|]. split; [done|]. split; [done|]. exists Γ, D, I, rs. rewrite Hb'.
        split; [by apply (Inv_lat s)|]. split_and!; try done. intros ->. destruct fixed; [done|].
        by apply Nat.leb_gt.
      - exact (tree_lost s _ _ _ _ _ HI Hw'). }
    by destruct append_op.
Qed.

(** ** The traversals

    Every attempt that fails has lost a latch, so that there is one more attempt
    than latches to lose; no tree is deeper than 64. *)
Definition enough (fuel : nat) s : Prop := 2 * length (latches s) + 200 ≤ fuel.

Lemma enough_measure fuel s : enough fuel s → root_measure s < fuel.
Proof using Type.
  unfold enough, root_measure. intros H. destruct (blocks s !! root_block s) as [x|];
    [destruct (DexaTree.has_overflow _ _ x)|]; clear -H; lia.
Qed.

Lemma prepared_root s : root_room s → ∃ node, blocks s !! root_block s = Some node ∧
  ∀ k, prepared s node k false.
Proof using Type. intros (node & Hn & Ho). by exists node. Qed.

Lemma wp_internal (append_op olc : bool) fuel s Γ D m k lock_level attempt :
  is_optimistic st = olc → (olc = false → append_op = false) →
  Inv s Γ D m → Interval.contains ALL_KEYS k = true → enough fuel s →
  wp (if olc then traversal_write_olc_internal (P := P) F N st false append_op fuel lock_level attempt k
      else traversal_write_internal (P := P) F N st false fuel lock_level attempt k) s
    (write_res m (clock s) (length (latches s)) (append_op = false) k).
Proof.
  intros Holc Happ HI Hk Hf. set (n := length (latches s)).
  assert (∀ g height s', root_res m (clock s) n s (Ok (g, height)) s' → ∃ Γ' D' node,
    Inv s' Γ' D' m ∧ clock s' = clock s ∧ Γ' !! g_block g = Some (mkTy D' ALL_KEYS) ∧
    blocks s' !! g_block g = Some node ∧ (∀ k, prepared s' node k false) ∧ guard_ok n g (latches s') ∧
    (height ≤ 2)%Z ∧ steps_left D' false ≤ 129 ∧ within n true (latches s')) as Hres.
  { intros g height s' (((Γ' & D' & HI') & Hcl & Hw) & Hb & Hg & (node & Hn & Hp)%prepared_root & Hh).
    exists Γ', D', node. rewrite Hb. split_and!; try done; [by apply (inv_root _ _ _ _ _ _ HI')|lia|].
    pose proof (depth_bound F N _ _ _ _ HI') as HD. unfold steps_left. clear -HD. lia. }
  pose proof (enough_measure _ _ Hf) as Hm. unfold enough in Hf. unfold inc_key in *.
  destruct olc.
  - unfold traversal_write_olc_internal. apply wp_bind.
    eapply wp_mono; [by apply (wp_find_root fuel s Γ D m n); [|apply within_refl|]|].
    intros [[[g height] ll] att] s' (Γ' & D' & node & HI' & <- & Ht & Hn & Hp & Hg & Hh & Hst & Hw)%Hres.
    eapply (wp_descend_write_olc append_op fuel s' Γ' D' m n D' ALL_KEYS node g k _ _ _ _ _ false); try done.
    + destruct append_op; [done|exact (Hp k)].
    + clear -Hst Hf. lia.
  - rewrite Happ //. unfold traversal_write_internal. apply wp_bind.
    eapply wp_mono; [by apply (wp_find_root fuel s Γ D m n); [|apply within_refl|]|].
    intros [[[g height] ll] att] s' (Γ' & D' & node & HI' & <- & Ht & Hn & Hp & Hg & Hh & Hst & Hw)%Hres.
    eapply wp_mono; [eapply (wp_descend_locked fuel s' Γ' D' m n D' ALL_KEYS node g k _ _ _ _ _ false); try done|].
    + by apply Hg.
    + unfold INIT_TREE_HEIGHT, U16_MAX. clear -Hst. lia.
    + clear -Hst Hf. lia.
    + intros [g'|[ll' att']] s''; [|done]. intros (? & ? & ? & Γ2 & D2 & I2 & rs2 & ? & ? & ? & ? & Hroom).
      split_and!; try done. exists Γ2, D2, I2, rs2. split_and!; try done. intros _. by apply Hroom.
Qed.

Lemma wp_retry_write attempts fuel
    (internal : LockLevel → Attempts → Comp St (result BlockGuard (LockLevel * Attempts)))
    s Γ D m room k lock_level attempt :
  (∀ s Γ D ll att, Inv s Γ D m → enough fuel s →
    wp (internal ll att) s (write_res m (clock s) (length (latches s)) room k)) →
  Inv s Γ D m → enough fuel s → length (latches s) < attempts →
  wp (retry_write attempts internal lock_level attempt) s
    (arrived m (clock s) (length (latches s)) room k).
Proof using Type.
  intros Hint. revert s Γ D lock_level attempt.
  induction attempts as [|attempts IH]; intros s Γ D ll att HI Hf Ha; [by apply Nat.nlt_0_r in Ha|].
  simpl. apply wp_bind. eapply wp_mono; [by eapply Hint|]. intros [g|[ll' att']] s'; [done|].
  intros ((Γ' & D' & HI') & Hcl & Hl). simpl in Hl. rewrite -Hcl. unfold enough in *.
  eapply wp_mono; [eapply (IH s'); [done|clear -Hf Hl; lia|clear -Ha Hl; lia]|].
  intros g s'' (? & ? & Hw & ?). split; [done|]. split; [done|]. split; [|done].
  eapply within_mono; [done|clear -Hl; lia].
Qed.
End write.
