(* ===== verification/DexaRead.v ===== *)
(** * The descents of readers

    The traversals of [DexaDescent.v] that look for a leaf end on the leaf for
    the key, and change nothing of the tree. *)
From S2P Require Import Prelude Version Interval Clock VersionHistory VersionedLeaf.
From S2P Require Import DexaLocking DexaCell DexaTree DexaSmo DexaDescent DexaScan.
From S2P Require Import DexaKeys DexaInv DexaSplit DexaGuard DexaRepair DexaWrite.
#[local] Set Default Proof Using "Type*".

Section read.
Context {P S : Type} `{!VersionStore P S, !VersionStoreLaws P S}.
Context (F N : nat) (HF : 5 ≤ F) (HN : 3 ≤ N) (st : LockingStrategy).
Context (st_ok : split_seals (latch_type st) = false).
Local Abbreviation St := (MVBPlusTree S).
Local Abbreviation Inv := (Inv F N).
Local Abbreviation guard_ok := (guard_ok st).
Implicit Types (s : St) (Γ : gmap BlockRef Ty) (m : Table P) (D d n : nat) (b c p : BlockRef).
Implicit Types (I J : Interval) (node : Node S) (rs : list (VersionedRecordPoint S)).
Implicit Types (keys : list Z) (cs : list BlockRef) (ty : Ty) (g : BlockGuard) (k : Z) (l : list bool).

(** A guard on the leaf for a key. *)
Definition leaf_at s Γ k g : Prop := ∃ I rs,
  Γ !! g_block g = Some (mkTy 0 I) ∧ Interval.contains I k = true ∧ blocks s !! g_block g = Some (Leaf rs).

Lemma leaf_reached s Γ D m d I k g rs :
  Inv s Γ D m → Γ !! g_block g = Some (mkTy d I) → Interval.contains I k = true →
  blocks s !! g_block g = Some (Leaf rs) → leaf_at s Γ k g.
Proof using HF HN.
  intros HI Hb Hk Hn. pose proof (child_index F N HF HN _ _ _ _ _ _ _ _ _ HI Hb Hn Hk) as Hd.
  simpl in Hd. subst d. by exists I, rs.
Qed.

Lemma wp_descend_read fuel s Γ D m n d I g k (Q : BlockGuard → St → Prop) :
  is_optimistic st = false → Inv s Γ D m → Γ !! g_block g = Some (mkTy d I) →
  Interval.contains I k = true → g_kind g ≠ GuardNone → within n true (latches s) → d < fuel →
  (∀ g' l, length l ≤ length (latches s) → leaf_at s Γ k g' → g_kind g' ≠ GuardNone →
    Q g' (set_latches l s)) →
  wp (descend_read st fuel g (inc_key k)) s Q.
Proof.
  intros Hopt. revert s d I g. induction fuel as [|fuel IH]; intros s d I g HI Hb Hk Hg Hw Hf HQ;
    [by apply Nat.nlt_0_r in Hf|]. simpl. apply wp_bind.
  destruct (inv_store _ _ _ _ _ _ HI _ _ Hb) as (node & Hn & _).
  eapply (wp_guard_deref_valid st); [done|by right|exact Hn|].
  apply wp_bind. eapply wp_lift; [done|].
  pose proof (child_index F N HF HN _ _ _ _ _ _ _ _ _ HI Hb Hn Hk) as Hci. destruct node as [keys cs|rs].
  - destruct Hci as (c & d' & cnode & -> & Hc & Hct & Hck & Hcn & _).
    apply wp_bind. eapply wp_lift; [exact Hc|].
    apply wp_bind. apply (wp_borrow_read st st_ok s n); [by eapply inv_sealed|done|].
    intros ng l Hl Hnw Hnb Hnk.
    eapply (IH (set_latches l s) d' _ ng); rewrite ?Hnb; [by apply Inv_lat|exact Hct|done|by apply Hnk| | |].
    + by eapply within_le.
    + clear -Hf. lia.
    + intros g' l' Hl' Hleaf Hk'. apply (HQ g' l'); [|done..]. simpl in Hl'. clear -Hl Hl'. lia.
  - apply wp_ret. rewrite -(set_latches_id s). apply HQ; [done|by eapply leaf_reached|done].
Qed.

Lemma wp_traversal_read fuel s Γ D m k (Q : BlockGuard → St → Prop) :
  is_optimistic st = false → Inv s Γ D m → Interval.contains ALL_KEYS k = true → 64 < fuel →
  (∀ g' l, length l ≤ length (latches s) → leaf_at s Γ k g' → g_kind g' ≠ GuardNone →
    Q g' (set_latches l s)) →
  wp (traversal_read st fuel k) s Q.
Proof.
  intros Hopt HI Hk Hf HQ. unfold traversal_read. wp_steps.
  pose proof (depth_bound F N _ _ _ _ HI) as HD.
  apply (wp_borrow_read st st_ok s (length (latches s))); [by eapply inv_sealed|apply within_refl|].
  intros g l Hl Hw Hb Hkind. pose proof (inv_root _ _ _ _ _ _ HI) as Hr.
  eapply (wp_descend_read fuel (set_latches l s)); [done|by apply Inv_lat|by rewrite Hb|done|by apply Hkind| | |].
  - simpl. apply within_refl.
  - clear -HD Hf. lia.
  - intros g' l' Hl' Hleaf Hk'. apply (HQ g' l'); [|done..]. simpl in Hl'. clear -Hl Hl'. lia.
Qed.

(** ** Optimistic readers *)
Lemma wp_descend_read_olc fuel s Γ D m n d I g k (Q : option BlockGuard → St → Prop) :
  is_optimistic st = true → Inv s Γ D m → Γ !! g_block g = Some (mkTy d I) →
  Interval.contains I k = true → guard_ok n g (latches s) → d < fuel →
  (∀ g' l, length l ≤ length (latches s) → leaf_at s Γ k g' → guard_ok n g' l →
    Q (Some g') (set_latches l s)) →
  (∀ l, within n false l → Q None (set_latches l s)) →
  wp (descend_read_olc st fuel g (inc_key k)) s Q.
Proof.
  intros Hopt. revert s d I g. induction fuel as [|fuel IH]; intros s d I g HI Hb Hk Hg Hf HQ HN';
    [by apply Nat.nlt_0_r in Hf|]. simpl. apply wp_bind.
  destruct (inv_store _ _ _ _ _ _ HI _ _ Hb) as (node & Hn & _).
  eapply (wp_guard_deref_unsafe st s n g node); [done|done|]. intros [] Hw1 Hloc.
  2:{ apply wp_bind. eapply (wp_guard_valid st s n); [done|]. intros ok l Hl Hw. apply wp_ret, HN'.
      simpl in *. clear -Hl Hw1. lia. }
  apply wp_bind. eapply (wp_guard_valid st s n); [done|].
  intros [] l1 Hl1 Hw; [|by apply wp_ret, HN']. cbn [negb].
  pose proof (child_index F N HF HN _ _ _ _ _ _ _ _ _ HI Hb Hn Hk) as Hci. destruct node as [keys cs|rs].
  - destruct Hci as (c & d' & cnode & -> & Hc & Hct & Hck & Hcn & _).
    apply wp_bind. eapply wp_lift; [exact Hc|]. apply wp_bind.
    eapply (wp_guard_valid st (set_latches l1 s) n); [by eapply guard_ok_le|].
    intros [] l2 Hl2 Hw2; [|by apply wp_ret, (HN' l2)]. cbn [negb]. simpl in Hl2.
    apply wp_bind. apply (wp_borrow_opt st st_ok _ n); [done|by apply (inv_sealed _ _ _ _ _ _ HI)|done|].
    intros ng l3 Hl3 Hng Hnb. simpl in Hl3.
    eapply (IH (set_latches l3 s) d' _ ng); rewrite ?Hnb; [by apply Inv_lat|exact Hct|done|done| | |].
    + clear -Hf. lia.
    + intros g' l' Hl' Hleaf Hk'. apply (HQ g' l'); [|done..]. simpl in Hl'. clear -Hl1 Hl2 Hl3 Hl'. lia.
    + intros l'. apply (HN' l').
  - apply wp_ret. apply HQ; [done|by eapply leaf_reached|by eapply guard_ok_le].
Qed.

Lemma wp_retry_read attempts fuel s Γ D m n k (Q : BlockGuard → St → Prop) :
  is_optimistic st = true → Inv s Γ D m → Interval.contains ALL_KEYS k = true → 64 < fuel →
  length (latches s) < attempts → within n true (latches s) →
  (∀ g' l, length l ≤ length (latches s) → leaf_at s Γ k g' → guard_ok n g' l →
    guard_valid_local g' = true → Q g' (set_latches l s)) →
  wp (retry_read st attempts fuel k) s Q.
Proof.
  intros Hopt. revert s. induction attempts as [|attempts IH]; intros s HI Hk Hf Ha Hn HQ;
    [by apply Nat.nlt_0_r in Ha|]. simpl. apply wp_bind. unfold traversal_read_olc_internal. wp_steps.
  pose proof (depth_bound F N _ _ _ _ HI) as HD. pose proof (inv_root _ _ _ _ _ _ HI) as Hr.
  assert (∀ l, within (length (latches s)) false l → wp (retry_read st attempts fuel k) (set_latches l s) Q)
    as Hagain.
  { intros l Hl. simpl in Hl, Hn. apply IH; [by apply Inv_lat|done|done| | |].
    - simpl. clear -Ha Hl. lia.
    - simpl. clear -Hl Hn. lia.
    - intros g' l' Hl' Hleaf Hg' Hloc. apply (HQ g' l'); [|done..]. simpl in Hl'. clear -Hl Hl'. lia. }
  apply (wp_borrow_opt st st_ok s (length (latches s))); [done|by eapply inv_sealed|apply within_refl|].
  intros g l Hl Hg Hb.
  eapply (wp_descend_read_olc fuel (set_latches l s) Γ D m (length (latches s)));
    [done|by apply Inv_lat|by rewrite Hb|done|done| | |].
  - clear -HD Hf. lia.
  - intros g' l1 Hl1 Hleaf Hg'. simpl in Hl1. apply wp_bind.
    eapply (wp_guard_valid_local st _ (length (latches s))); [exact Hg'|].
    intros [] l2 Hl2 Hw2 Hloc; [|by apply (Hagain l2)]. simpl in Hl2. apply wp_ret.
    apply (HQ g' l2); [clear -Hl Hl1 Hl2; lia|done| |by apply Hloc]. simpl in Hn.
    eapply guard_ok_mono; [by eapply guard_ok_le|exact Hn].
  - intros l1 Hl1. by apply (Hagain l1).
Qed.
End read.
