(* ===== verification/DexaTable.v ===== *)
(** * A leaf of the baseline trees and the table of the tree

    A leaf has the part of the table with keys in its interval. What an
    operation does to that part it does to the table: the extreme keys of the
    table are in its outer leaves. *)
From S2P Require Import Prelude Version Interval Clock VersionHistory VersionedLeaf.
From S2P Require Import DexaLocking DexaCell DexaTree DexaSmo DexaDescent DexaScan.
From S2P Require Import DexaKeys DexaInv DexaSplit.
#[local] Set Default Proof Using "Type*".

Section table.
Context {P : Type} (Key_default : Z) (Payload_default : P).
Implicit Types (m : Table P) (h : History P) (k : Z) (v : Version) (I : Interval).
Implicit Types (op : CRUDOperation P) (res : CRUDOperationResult P).
Local Abbreviation leaf_step := (leaf_step Key_default Payload_default).

Lemma restrict_insert I m k h :
  Interval.contains I k = true → restrict I (<[k := h]> m) = <[k := h]> (restrict I m).
Proof using Type.
  intros Hk. apply (map_eq (M := gmap Z)). intros j. rewrite restrict_lookup.
  destruct (decide (j = k)) as [->|Hne].
  - by rewrite Hk !lookup_insert_eq.
  - rewrite !lookup_insert_ne // restrict_lookup //.
Qed.

Lemma restrict_insert_out I m k h :
  Interval.contains I k = false → restrict I (<[k := h]> m) = restrict I m.
Proof using Type.
  intros Hk. apply (map_eq (M := gmap Z)). intros j. rewrite !restrict_lookup.
  destruct (Interval.contains I j) eqn:Hj; [|done]. rewrite lookup_insert_ne; [done|]. intros <-. congruence.
Qed.

(** The keys an operation may be about, with a leaf for each. *)
Definition leaf_for op I m : Prop :=
  match op with
  | Insert k _ | Update k _ | Delete k | Point k _ => Interval.contains I k = true
  | PeekMin | PopMin => (restrict I m = ∅ → m = ∅) ∧
      ∀ k, is_Some (m !! k) → Interval.contains I k = false → (upper I < k)%Z
  | PeekMax | PopMax => (restrict I m = ∅ → m = ∅) ∧
      ∀ k, is_Some (m !! k) → Interval.contains I k = false → (k < lower I)%Z
  | _ => True
  end.

Lemma extreme_lift (R : relation Z) I m k h :
  (∀ j, is_Some (m !! j) → Interval.contains I j = false → Interval.contains I k = true → R k j) →
  extreme R (restrict I m) k h → extreme R m k h ∧ Interval.contains I k = true.
Proof using Type.
  intros Hout [Hk Hmin]. rewrite restrict_lookup in Hk.
  destruct (Interval.contains I k) eqn:E; [|done]. split; [split; [done|]|done].
  intros j Hj. destruct (Interval.contains I j) eqn:Ej.
  - apply Hmin. by rewrite restrict_lookup Ej.
  - by apply Hout.
Qed.

Lemma extreme_min I m k h :
  (∀ j, is_Some (m !! j) → Interval.contains I j = false → (upper I < j)%Z) →
  extreme Z.le (restrict I m) k h → extreme Z.le m k h ∧ Interval.contains I k = true.
Proof using Type.
  intros Hout. apply extreme_lift. intros j Hj Hji Hk. specialize (Hout j Hj Hji).
  apply contains_spec in Hk. lia.
Qed.

Lemma extreme_max I m k h :
  (∀ j, is_Some (m !! j) → Interval.contains I j = false → (j < lower I)%Z) →
  extreme Z.ge (restrict I m) k h → extreme Z.ge m k h ∧ Interval.contains I k = true.
Proof using Type.
  intros Hout. apply extreme_lift. intros j Hj Hji Hk. specialize (Hout j Hj Hji).
  apply contains_spec in Hk. lia.
Qed.

(** One key of the leaf changes, or nothing does. *)
Definition touches v op I m m' : Prop :=
  m' = m ∨ ∃ k h, Interval.contains I k = true ∧ m' = <[k := h]> m ∧ (newest h ≤ v)%Z ∧
    (is_Some (m !! k) ∨ ∃ p, op = Insert k p).

Definition lifted olc v I m op res m1 : Prop :=
  ∃ m', leaf_step olc v m op res m' ∧ m1 = restrict I m' ∧ touches v op I m m'.

Lemma lifted_same olc v I m op res :
  leaf_step olc v m op res m → lifted olc v I m op res (restrict I m).
Proof using Type. intros Hs. exists m. split; [done|]. split; [done|by left]. Qed.

Lemma lifted_set olc v I m op res k h :
  Interval.contains I k = true → leaf_step olc v m op res (<[k := h]> m) → (newest h ≤ v)%Z →
  is_Some (m !! k) ∨ (∃ p, op = Insert k p) →
  lifted olc v I m op res (<[k := h]> (restrict I m)).
Proof using Type.
  intros Hk Hs Hv Hd. exists (<[k := h]> m). split; [done|]. rewrite restrict_insert //.
  split; [done|]. right. by exists k, h.
Qed.

Lemma leaf_step_lift olc v I m op res m1 :
  leaf_step olc v (restrict I m) op res m1 → leaf_for op I m → before v m →
  lifted olc v I m op res m1.
Proof using Type.
  intros Hstep Hop Hb.
  assert (∀ k, Interval.contains I k = true → restrict I m !! k = m !! k) as Hin
    by (intros k Hk; by rewrite restrict_lookup Hk).
  assert (∀ k, live_key (restrict I m) k = false → Interval.contains I k = true → live_key m k = false)
    as Hdead by (intros k Hl Hk; unfold live_key in *; by rewrite Hin in Hl).
  assert (∀ k h, m !! k = Some h → (newest (hist_kill v h) ≤ v)%Z) as Hkill.
  { intros k h Hk. destruct (Hb _ _ Hk). by apply newest_kill. }
  inversion Hstep as [k p|k p h Hk Hl|k p Hl|k h Hk Hl|k Hl|k w|k h He|k h He|? He Ho|k h He Hl|k h He Hl
    |R ? k h Ho He Hl|? He Ho|]; subst; simpl in Hop.
  - rewrite Hin //. apply lifted_set; [done|constructor|done|by right; eexists].
  - rewrite Hin // in Hk. apply lifted_set; [done|by constructor|done|by left; rewrite Hk].
  - apply lifted_same. constructor. by apply Hdead.
  - rewrite Hin // in Hk. apply lifted_set; [done|by constructor|by eapply Hkill|by left; rewrite Hk].
  - apply lifted_same. constructor. by apply Hdead.
  - unfold point_answer. rewrite Hin //. apply lifted_same. constructor.
  - apply extreme_min in He as [He Hk]; [|apply Hop]. apply lifted_same. by apply LS_peek_min.
  - apply extreme_max in He as [He Hk]; [|apply Hop]. apply lifted_same. by apply LS_peek_max.
  - apply lifted_same. apply LS_peek_none; [|done]. destruct Ho as [-> | ->]; by apply Hop.
  - apply extreme_min in He as [He Hk]; [|apply Hop]. apply lifted_set; [done|by apply LS_pop_min| |];
      [eapply Hkill, He|left; by rewrite (proj1 He)].
  - apply extreme_max in He as [He Hk]; [|apply Hop]. apply lifted_set; [done|by apply LS_pop_max| |];
      [eapply Hkill, He|left; by rewrite (proj1 He)].
  - apply lifted_same. destruct Ho as [[= -> ->]|[= -> ->]].
    + apply extreme_min in He as [He _]; [|apply Hop]. by eapply (LS_pop_dead _ _ _ _ _ Z.le); [left|..].
    + apply extreme_max in He as [He _]; [|apply Hop]. by eapply (LS_pop_dead _ _ _ _ _ Z.ge); [right|..].
  - apply lifted_same. apply LS_pop_none; [|done]. destruct Ho as [-> | ->]; by apply Hop.
  - apply lifted_same, LS_empty.
Qed.

Lemma touches_out v op I J m m' :
  touches v op I m m' → (∀ k, Interval.contains I k = true → Interval.contains J k = true → False) →
  restrict J m' = restrict J m.
Proof using Type.
  intros [->|(k & h & Hk & -> & _)] Hd; [done|]. apply restrict_insert_out.
  destruct (Interval.contains J k) eqn:E; [by destruct (Hd k)|done].
Qed.

Lemma touches_before v op I m m' :
  touches v op I m m' → before v m → (v + 1 < VERSION_BOUND)%Z → before (v + 1)%Z m'.
Proof using Type.
  intros Ht Hb Hv. assert (before (v + 1)%Z m) as Hb'.
  { intros k h Hk. specialize (Hb k h Hk). lia. }
  destruct Ht as [->|(k & h & _ & -> & Hn & _)]; [done|].
  intros j x Hj. apply (lookup_insert_Some (M := gmap Z)) in Hj as [[<- <-]|[_ Hj]]; [lia|].
  by apply (Hb' j).
Qed.

(** A leaf has as many records as its part of the table has keys. *)
Lemma leaf_rep_size {S} `{!VersionStore P S, !VersionStoreLaws P S} rs m :
  leaf_rep rs m → length rs = size m.
Proof using Type.
  intros Hrep. pose proof (sorted_NoDup vr_key rs (lr_sorted _ _ Hrep)) as Hnd.
  transitivity (size (list_to_set (vr_key <$> rs) : gset Z)).
  - by rewrite size_list_to_set // length_fmap.
  - rewrite -(size_dom (M := gmap Z) (D := gset Z) m). f_equal. apply set_eq. intros k.
    rewrite elem_of_list_to_set list_elem_of_fmap (elem_of_dom (M := gmap Z)). split.
    + intros (r & -> & Hr). destruct (lr_ok _ _ Hrep r Hr) as (h & Hh & _). by exists h.
    + intros (r & Hr & <-)%(lr_dom _ _ Hrep). by exists r.
Qed.

Lemma touches_size v op I m m' :
  touches v op I m m' →
  size (restrict I m) ≤ size (restrict I m') ≤ size (restrict I m) +
    match op with Insert _ _ => 1 | _ => 0 end.
Proof using Type.
  intros [->|(k & h & Hk & -> & _ & Hd)]; [destruct op; lia|]. rewrite restrict_insert // (map_size_insert (M := gmap Z)).
  rewrite restrict_lookup Hk. destruct (m !! k) eqn:E.
  - split; [done|apply Nat.le_add_r].
  - destruct Hd as [[]|[p ->]]; [done|]. rewrite Nat.add_1_r. split; [apply Nat.le_succ_diag_r|done].
Qed.

Lemma touches_keys v op I m m' :
  touches v op I m m' → (∀ k h, m !! k = Some h → Interval.contains ALL_KEYS k = true) →
  (∀ k p, op = Insert k p → Interval.contains ALL_KEYS k = true) →
  ∀ k h, m' !! k = Some h → Interval.contains ALL_KEYS k = true.
Proof using Type.
  intros [->|(k & h & Hk & -> & _ & Hd)] Hm Hop; [done|]. intros j x Hj.
  apply (lookup_insert_Some (M := gmap Z)) in Hj as [[<- _]|[_ Hj]]; [|by eapply Hm].
  destruct Hd as [[y Hy]|[p Hp]]; [by eapply Hm|by eapply Hop].
Qed.
End table.

(** ** The tree after its leaf was changed *)
Section leaf_write.
Context {P S : Type} `{!VersionStore P S, !VersionStoreLaws P S}.
Context (F N : nat).
Implicit Types (s : MVBPlusTree S) (Γ : gmap BlockRef Ty) (m : Table P) (D d : nat) (b : BlockRef).
Implicit Types (I : Interval) (rs : list (VersionedRecordPoint S)) (op : CRUDOperation P).

Lemma Inv_set_leaf s Γ D m m' b I rs rs' op v :
  Inv F N s Γ D m → Γ !! b = Some (mkTy 0 I) → blocks s !! b = Some (Leaf rs) →
  touches v op I m m' → leaf_rep rs' (restrict I m') →
  (∀ k p, op = Insert k p → Interval.contains ALL_KEYS k = true ∧ length rs < N) →
  Inv F N (set_blocks (<[b := Leaf rs']> (blocks s)) s) Γ D m'.
Proof.
  intros HI Hb Hn Ht Hrep Hop. pose proof (touches_size _ _ _ _ _ Ht) as Hsize.
  destruct (inv_store _ _ _ _ _ _ HI _ _ Hb) as (node & Hn' & Hok). rewrite Hn in Hn'.
  injection Hn' as <-. destruct Hok as (_ & Hrep0 & Hl & Hfull). cbn [t_keys] in *.
  rewrite -(leaf_rep_size _ _ Hrep) -(leaf_rep_size _ _ Hrep0) in Hsize.
  split; cbn [root_block root_height blocks next_block obsolete set_blocks]; try apply HI.
  - intros c ty Hc. destruct (decide (c = b)) as [->|Hcb].
    + rewrite lookup_insert_eq. eexists. split; [done|]. rewrite Hb in Hc. injection Hc as <-.
      split; [done|]. split; [done|]. cbn [t_keys]. split.
      * destruct op as [|k p|k p|k|k w|k| | | | |i w|i| | |]; try (clear -Hsize Hl; lia).
        destruct (Hop k p eq_refl) as [_ Hr]. clear -Hsize Hr. lia.
      * intros Hr. specialize (Hfull Hr). clear -Hsize Hfull. lia.
    + rewrite lookup_insert_ne //. destruct (inv_store _ _ _ _ _ _ HI _ _ Hc) as (node & Hcn & Hok).
      exists node. split; [done|]. destruct node as [keys cs|crs]; [done|].
      destruct ty as [d J]. destruct Hok as (Hd & Hrepc & Hrest). simpl in Hd. subst d.
      split; [done|]. split; [|done]. cbn [t_keys] in *. erewrite touches_out; [exact Hrepc|exact Ht|].
      intros k Hk Hk'. apply Hcb. by eapply (inv_apart _ _ _ _ _ _ HI c b).
  - intros c node Hc. apply lookup_insert_Some in Hc as [[<- _]|[_ Hc]]; [|by apply (inv_next _ _ _ _ _ _ HI c node)].
    by apply (inv_next _ _ _ _ _ _ HI b (Leaf rs)).
  - eapply touches_keys; [done|apply (inv_keys _ _ _ _ _ _ HI)|]. intros k p Hp. by apply (Hop k p).
Qed.

(** The outer leaves hold the extreme keys of the table. *)
Lemma leaf_not_empty s Γ D m b I rs :
  2 ≤ N → Inv F N s Γ D m → Γ !! b = Some (mkTy 0 I) → blocks s !! b = Some (Leaf rs) →
  restrict I m = ∅ → m = ∅.
Proof.
  intros HN HI Hb Hn He. destruct (inv_store _ _ _ _ _ _ HI _ _ Hb) as (node & Hn' & Hok).
  rewrite Hn in Hn'. injection Hn' as <-. destruct Hok as (_ & Hrep & _ & Hfull). cbn [t_keys] in *.
  destruct (decide (b = root_block s)) as [->|Hne].
  - rewrite (inv_root _ _ _ _ _ _ HI) in Hb. injection Hb as -> <-.
    by rewrite restrict_all in He; [|apply (inv_keys _ _ _ _ _ _ HI)].
  - apply leaf_rep_size in Hrep. rewrite He in Hrep.
    change (length rs = size (∅ : gmap Z (History P))) in Hrep. rewrite map_size_empty in Hrep.
    specialize (Hfull Hne). unfold fill_leaf in Hfull. rewrite Hrep in Hfull.
    assert (0 < N / 2) as Hpos by (apply Nat.div_str_pos; clear -HN; lia). clear -Hfull Hpos. lia.
Qed.

Lemma leaf_for_min s Γ D m b I rs op :
  2 ≤ N → Inv F N s Γ D m → Γ !! b = Some (mkTy 0 I) → blocks s !! b = Some (Leaf rs) →
  Interval.contains I START_KEY = true → op = PeekMin ∨ op = PopMin → leaf_for op I m.
Proof.
  intros HN HI Hb Hn Hk Hop. assert ((restrict I m = ∅ → m = ∅) ∧
    ∀ k, is_Some (m !! k) → Interval.contains I k = false → (upper I < k)%Z) as H.
  { split; [by eapply leaf_not_empty|]. intros k [h Hm] Hout.
    apply (inv_keys _ _ _ _ _ _ HI), contains_spec in Hm. change (lower ALL_KEYS) with START_KEY in Hm.
    apply contains_spec in Hk. apply contains_false in Hout. lia. }
  by destruct Hop as [-> | ->].
Qed.

Lemma leaf_for_max s Γ D m b I rs op :
  2 ≤ N → Inv F N s Γ D m → Γ !! b = Some (mkTy 0 I) → blocks s !! b = Some (Leaf rs) →
  Interval.contains I END_KEY = true → op = PeekMax ∨ op = PopMax → leaf_for op I m.
Proof.
  intros HN HI Hb Hn Hk Hop. assert ((restrict I m = ∅ → m = ∅) ∧
    ∀ k, is_Some (m !! k) → Interval.contains I k = false → (k < lower I)%Z) as H.
  { split; [by eapply leaf_not_empty|]. intros k [h Hm] Hout.
    apply (inv_keys _ _ _ _ _ _ HI), contains_spec in Hm. change (upper ALL_KEYS) with END_KEY in Hm.
    apply contains_spec in Hk. apply contains_false in Hout. lia. }
  by destruct Hop as [-> | ->].
Qed.
End leaf_write.
