(* ===== verification/DexaRefine.v ===== *)
(** * The baseline trees refine a table of histories

    The abstract tree is a table from keys to histories and a clock. Every
    arm of the dispatch ([DexaDispatch.v]) ends, for any latches that are lost
    on its way, and does one step of the abstract tree. *)
From S2P Require Import Prelude Version Interval Clock VersionHistory VersionedLeaf.
From S2P Require Import DexaLocking DexaCell DexaTree DexaSmo DexaDescent DexaScan DexaDispatch.
From S2P Require Import DexaKeys DexaInv DexaSplit DexaGuard DexaRepair DexaWrite DexaRead DexaTable.
#[local] Set Default Proof Using "Type*".

(** ** The abstract tree *)
Section spec.
Context {P : Type} (Key_default : Z) (Payload_default : P) (olc : bool) (me : Tid).
Implicit Types (m : Table P) (c : ClockSt) (v w : Version) (k : Z) (p : P).
Implicit Types (op : CRUDOperation P) (res : CRUDOperationResult P).
Local Abbreviation leaf_step := (leaf_step Key_default Payload_default olc).

(** What a scan finds: the keys of the interval with a version to show, sorted. *)
Record range_answer m (I : Interval) w (l : list (Z * P)) : Prop := {
  ra_sorted : StronglySorted Z.lt l.*1;
  ra_found k p : (k, p) ∈ l ↔ Interval.contains I k = true ∧ ∃ h u, m !! k = Some h ∧ hist_at h w = Some (u, p);
}.

(** The clock after a commit of the thread. *)
Definition committed c : ClockSt :=
  let '(v, c) := GlobalClock.start_commit c me in GlobalClock.end_commit c me v.

Inductive tree_step c m : CRUDOperation P → CRUDOperationResult P → Table P → ClockSt → Prop :=
  | TS_commit op res m' :
      op = PopMin ∨ op = PopMax ∨ (∃ k, op = Delete k) ∨ (∃ k p, op = Insert k p ∨ op = Update k p) →
      leaf_step (clock_time c) m op res m' → tree_step c m op res m' (committed c)
  | TS_pop_none op :
      op = PopMin ∨ op = PopMax → leaf_step (clock_time c) m op Error m → tree_step c m op Error m c
  | TS_read op res :
      op = PeekMin ∨ op = PeekMax ∨ op = Empty ∨ (∃ k w, op = Point k w) →
      leaf_step (clock_time c) m op res m → tree_step c m op res m c
  | TS_point_si k w c' res :
      Clock.current_version_for_reader c me = (w, c') →
      leaf_step (clock_time c) m (Point k w) res m → tree_step c m (PointSi k) res m c'
  | TS_range I w l : range_answer m I w l → tree_step c m (Range I w) (MatchedRecords l) m c
  | TS_range_si I w c' l :
      Clock.current_version_for_reader c me = (w, c') → range_answer m I w l →
      tree_step c m (RangeSi I) (MatchedRecords l) m c'.

Inductive tree_steps c m : list (bool * CRUDOperation P) → list (CRUDOperationResult P) →
    Table P → ClockSt → Prop :=
  | TSS_nil : tree_steps c m [] [] m c
  | TSS_cons toss op ops res ress m1 c1 m2 c2 :
      tree_step c m op res m1 c1 → tree_steps c1 m1 ops ress m2 c2 →
      tree_steps c m ((toss, op) :: ops) (res :: ress) m2 c2.

(** The operations the code implements, of 64-bit keys; a scan of a reversed
    interval may panic. *)
Definition op_ok op : Prop :=
  match op with
  | Insert k _ | Update k _ | Delete k | PointSi k => is_u64 k
  | Point k w => is_u64 k ∧ (w < U64_MAX)%Z
  | Range i w => is_u64 (lower i) ∧ is_u64 (upper i) ∧ (lower i ≤ upper i)%Z ∧ (w < U64_MAX)%Z
  | RangeSi i => is_u64 (lower i) ∧ is_u64 (upper i) ∧ (lower i ≤ upper i)%Z
  | UpdateRand | DeleteRand | InsertRand => False
  | _ => True
  end.
End spec.

Section clock.
Context (me : Tid).
Implicit Types (c : ClockSt).
Local Open Scope Z_scope.

Definition clock_ok c (n : nat) : Prop :=
  0 ≤ clock_time c ∧ clock_time c + Z.of_nat n < VERSION_BOUND ∧ global_min c ≤ clock_time c.

Lemma clock_ok_le c n n' : clock_ok c n → (n' ≤ n)%nat → clock_ok c n'.
Proof using Type. unfold clock_ok. lia. Qed.

Lemma clock_start c n : clock_ok c (S n) →
  GlobalClock.start_commit c me = (clock_time c, set_time (ThreadState.reset_reads c me) (clock_time c + 1)).
Proof using Type.
  intros (H1 & H2 & _). unfold GlobalClock.start_commit. simpl. f_equal. f_equal.
  unfold VERSION_BOUND, u64_wrap in *. apply Z.mod_small. lia.
Qed.

Lemma committed_ok c n : clock_ok c (S n) →
  clock_time (committed me c) = clock_time c + 1 ∧ clock_ok (committed me c) n.
Proof using Type.
  intros Hc. unfold committed. rewrite (clock_start c n Hc). simpl. split; [done|].
  unfold clock_ok in *. simpl. lia.
Qed.

Lemma reader_clock c n w c' :
  clock_ok c n → Clock.current_version_for_reader c me = (w, c') →
  clock_time c' = clock_time c ∧ clock_ok c' n ∧ w < U64_MAX.
Proof using Type.
  unfold clock_ok, Clock.current_version_for_reader, committed_read. intros Hc.
  set (c0 := if ThreadState.has_active_commit c me then _ else c).
  assert (clock_time c0 = clock_time c ∧ global_min c0 = global_min c) as [H1 H2]
    by (unfold c0; repeat case_match; done).
  unfold committed_snapshot. rewrite -H1. clearbody c0.
  pose proof (min_commit_le c0 (next_tid c0) (clock_time c0)) as Hle.
  assert (VERSION_BOUND < U64_MAX) by done.
  destruct (decide (dirty c0 = CLEAN)); [intros [= <- <-]; lia|].
  destruct (decide (dirty c0 = DIRTY)).
  - unfold compare_exchange. rewrite decide_True //. cbn.
    intros [= <- <-]. simpl. unfold min_commit, slot in *. simpl in *. lia.
  - simpl. intros [= <- <-]. simpl. lia.
Qed.
End clock.

(** ** The arms *)
Section refine.
Context {P S : Type} `{!VersionStore P S, !VersionStoreLaws P S}.
Context (F N : nat) (HF : 5 ≤ F) (HN : 3 ≤ N) (st : LockingStrategy).
Context (st_ok : split_seals (latch_type st) = false).
Context (me : Tid) (Key_default : Z) (Payload_default : P) (is_weaver : bool).
Context (version_index_new : Z → P → Version → S).
Context (new_ok : ∀ k p v,
  (0 ≤ v < VERSION_BOUND)%Z → vs_ok k (version_index_new k p v) [(v, Some p)]).
Local Abbreviation St := (MVBPlusTree S).
Local Abbreviation Inv := (Inv F N).
Local Abbreviation olc := (is_optimistic st).
Local Abbreviation tree_step := (tree_step Key_default Payload_default olc me).
Local Abbreviation leaf_step := (leaf_step Key_default Payload_default olc).
Local Abbreviation dispatch := (dispatch (P := P) F N st false me Key_default Payload_default is_weaver version_index_new).
Implicit Types (s : St) (Γ : gmap BlockRef Ty) (m : Table P) (D n : nat).
Implicit Types (I : Interval) (rs : list (VersionedRecordPoint S)) (g : BlockGuard) (k : Z) (v : Version).
Implicit Types (op : CRUDOperation P) (res : CRUDOperationResult P) (toss : bool).

(** A tree for the table [m] whose clock can hand out [n] more versions. *)
Definition tree_good n s m : Prop :=
  (∃ Γ D, Inv s Γ D m) ∧ clock_ok (clock s) n ∧ before (clock_time (clock s)) m.

Lemma all_keys k : is_u64 k → Interval.contains ALL_KEYS k = true.
Proof using Type. intros Hk. apply contains_spec. exact Hk. Qed.

Lemma wp_write_guard fuel s Γ D m append_op k :
  Inv s Γ D m → is_u64 k → enough fuel s →
  wp (write_guard (P := P) F N st false fuel append_op k) s
    (arrived F N st m (clock s) (length (latches s)) (olc = true → append_op = false) k).
Proof using HF HN st_ok.
  intros HI Hk%all_keys Hf. unfold write_guard.
  assert (length (latches s) < fuel) as Hlt by (unfold enough in Hf; clear -Hf; lia).
  destruct (is_optimistic st) eqn:Ho.
  - unfold traversal_write_olc_op. eapply wp_mono; [eapply wp_retry_write; [|done|done|done]|].
    + intros s1 Γ1 D1 ll att HI1 Hf1.
      by apply (wp_internal F N HF HN st st_ok append_op true fuel s1 Γ1 D1 m k ll att).
    + intros g s' (H1 & H2 & H3 & Γ' & D' & J & rs & H4 & H5 & H6 & H7 & H8). split_and!; try done.
      exists Γ', D', J, rs. split_and!; try done. intros Hr. by apply H8, Hr.
  - unfold traversal_write. eapply wp_mono; [eapply wp_retry_write; [|done|done|done]|].
    + intros s1 Γ1 D1 ll att HI1 Hf1.
      by apply (wp_internal F N HF HN st st_ok false false fuel s1 Γ1 D1 m k ll att).
    + intros g s' (H1 & H2 & H3 & Γ' & D' & J & rs & H4 & H5 & H6 & H7 & H8). split_and!; try done.
      exists Γ', D', J, rs. split_and!; try done. intros _. by apply H8.
Qed.

(** What the arm does to the leaf, as the leaf of [VersionedLeaf.v] would. *)
Definition at_leaf v (f : Version → Node S → option (CRUDOperationResult P * Node S)) op I m rs res : Prop :=
  ∃ rs' m1, f v (Leaf rs) = Some (res, Leaf rs') ∧ leaf_step v (restrict I m) op res m1 ∧ leaf_rep rs' m1.

Lemma wp_commit_at s Γ D m g I rs op res f n :
  Inv s Γ D m → clock_ok (clock s) (Datatypes.S n) → before (clock_time (clock s)) m →
  held st g → Γ !! g_block g = Some (mkTy 0 I) → blocks s !! g_block g = Some (Leaf rs) →
  leaf_for op I m → (∀ k p, op = Insert k p → is_u64 k ∧ length rs < N) →
  at_leaf (clock_time (clock s)) f op I m rs res →
  wp (commit_at me g f) s (λ res' s', res' = res ∧ ∃ m', tree_good n s' m' ∧
    leaf_step (clock_time (clock s)) m op res m' ∧ clock s' = committed me (clock s) ∧
    latches s' = latches s).
Proof.
  intros HI Hc Hb Hg Ht Hn Hop Hins (rs' & m1 & Hf & Hstep & Hrep).
  destruct (leaf_step_lift _ _ _ _ _ _ _ _ _ Hstep Hop Hb) as (m' & Hstep' & -> & Htouch).
  unfold commit_at, start_tx_commit, end_tx_commit. apply wp_bind, wp_bind, wp_gets.
  cbn beta. rewrite (clock_start me _ n Hc). wp_steps. eapply wp_guard_deref_mut; [done|done|].
  apply wp_bind. eapply wp_lift; [done|]. cbn beta iota. apply wp_bind, wp_write_block; [by rewrite Hn|].
  wp_steps. split; [done|]. exists m'.
  destruct (committed_ok me _ n Hc) as [Ht1 Hok1].
  assert (committed me (clock s) = GlobalClock.end_commit
    (set_time (ThreadState.reset_reads (clock s) me) (clock_time (clock s) + 1)%Z) me (clock_time (clock s)))
    as Hcm by (unfold committed; by rewrite (clock_start me _ n Hc)).
  split; [|split; [done|]].
  - split; [|split].
    + exists Γ, D. apply (Inv_set_clock F N (set_blocks _ s)).
      eapply (Inv_set_leaf F N s Γ D m m' _ I rs rs'); [done..|].
      intros k p Hkp. destruct (Hins k p Hkp). split; [by apply all_keys|done].
    + simpl. rewrite -Hcm. done.
    + change (before (clock_time (clock s) + 1)%Z m').
      eapply touches_before; [done|done|]. destruct Hc as (_ & Hc & _). clear -Hc. lia.
  - split; [|done]. simpl. by rewrite Hcm.
Qed.

(** ** Writes *)
Lemma wp_keyed_arm fuel s m n op append_op k f :
  tree_good (Datatypes.S n) s m → enough fuel s → is_u64 k →
  (∃ p, op = Insert k p ∧ append_op = false) ∨ (∃ p, op = Update k p) ∨ op = Delete k →
  (∀ v I m rs, (0 ≤ v < VERSION_BOUND)%Z → leaf_rep rs (restrict I m) → before v m →
    (op = Delete k ∨ (∃ p, op = Update k p) ∨ length rs < N) →
    ∃ res, at_leaf v f op I m rs res) →
  wp (guard ← write_guard (P := P) F N st false fuel append_op k; commit_at me guard f) s (λ res s',
    ∃ m', tree_good n s' m' ∧ tree_step (clock s) m op res m' (clock s') ∧
      length (latches s') ≤ length (latches s)).
Proof.
  intros ((Γ & D & HI) & Hc & Hb) Hf Hk Hop Hat. apply wp_bind.
  eapply wp_mono; [by eapply wp_write_guard|].
  intros g s1 (Hg & Hcl & Hw & Γ1 & D1 & J & rs & HI1 & Ht & HJ & Hn & Hroom). rewrite -Hcl in Hc, Hb |- *.
  assert (leaf_for op J m) as Hfor by (destruct Hop as [(p & -> & _)|[(p & ->)| ->]]; done).
  assert (∀ k' p, op = Insert k' p → is_u64 k' ∧ length rs < N) as Hins.
  { intros k' p ->. destruct Hop as [(p' & [= -> ->] & Happ)|[(p' & ?)|?]]; [|done..].
    split; [done|]. by apply Hroom. }
  destruct (inv_store _ _ _ _ _ _ HI1 _ _ Ht) as (nd & Hn' & Hok). rewrite Hn in Hn'. injection Hn' as <-.
  destruct Hok as (_ & Hrep & _).
  destruct (Hat (clock_time (clock s1)) J m rs) as (res & Hres); [|done|done| |].
  { destruct Hc as (H1 & H2 & _). clear -H1 H2. lia. }
  { destruct Hop as [(p & -> & _)|[?| ?]]; [|by right; left|by left]. right. right. by eapply Hins. }
  eapply wp_mono; [by eapply (wp_commit_at s1 Γ1 D1 m g J rs op res f n)|].
  intros res' s2 (-> & m' & Hgood & Hstep & Hcl2 & Hl). exists m'. split; [done|]. split.
  - rewrite Hcl2. apply TS_commit; [|done].
    destruct Hop as [(p & -> & _)|[(p & ->)| ->]]; [by right; right; right; eexists _, _; left| |by right; right; left; eexists].
    right; right; right. eexists _, _. by right.
  - rewrite Hl. exact Hw.
Qed.

Definition simulates fuel s m n op (c : Comp St (CRUDOperationResult P)) : Prop :=
  tree_good (Datatypes.S n) s m → enough fuel s →
  wp c s (λ res s', ∃ m', tree_good n s' m' ∧ tree_step (clock s) m op res m' (clock s') ∧
    length (latches s') ≤ length (latches s)).

Lemma before_restrict v I m : before v m → before v (restrict I m).
Proof using Type. intros Hb k h Hk. rewrite restrict_lookup in Hk. case_match; [|done]. by eapply Hb. Qed.

Lemma simulated_at_leaf toss v f op I m rs :
  (∀ node, dispatch_at_leaf Key_default Payload_default N version_index_new olc toss v op node = f v node) →
  simulated Key_default Payload_default N version_index_new olc toss v op rs (restrict I m) →
  ∃ res, at_leaf v f op I m rs res.
Proof using Type.
  intros Hf (res & rs' & m1 & Heq & Hstep & Hrep). exists res, rs', m1. by rewrite -Hf.
Qed.

Lemma wp_insert fuel s m n toss k p :
  is_u64 k → simulates fuel s m n (Insert k p) (dispatch fuel toss (Insert k p)).
Proof.
  intros Hk Hgood Hf. apply (wp_keyed_arm fuel s m n (Insert k p) false k
    (λ v node, insert_at_leaf N version_index_new toss node k p v)); try done.
  - left. by exists p.
  - intros v J m' rs Hv Hrep Hb Hroom. eapply (simulated_at_leaf toss); [done|].
    apply insert_simulated; [done|done|done|by apply before_restrict|].
    by destruct Hroom as [?|[[? ?]|?]].
Qed.

Lemma wp_update fuel s m n toss k p :
  is_u64 k → simulates fuel s m n (Update k p) (dispatch fuel toss (Update k p)).
Proof.
  intros Hk Hgood Hf. apply (wp_keyed_arm fuel s m n (Update k p) true k
    (λ v node, update_at_leaf toss node k p v)); try done.
  - right. left. by exists p.
  - intros v J m' rs Hv Hrep Hb _. eapply (simulated_at_leaf toss); [done|].
    apply update_simulated; [done|done|done|by apply before_restrict].
Qed.

Lemma wp_delete fuel s m n toss k :
  is_u64 k → simulates fuel s m n (Delete k) (dispatch fuel toss (Delete k)).
Proof.
  intros Hk Hgood Hf. apply (wp_keyed_arm fuel s m n (Delete k) true k
    (λ v node, delete_at_leaf toss node k v)); try done.
  - by right; right.
  - intros v J m' rs Hv Hrep Hb _. eapply (simulated_at_leaf toss); [done|].
    apply delete_simulated; [done|done|done|by apply before_restrict].
Qed.

Definition pop_op (at_end : bool) : CRUDOperation P := if at_end then PopMax else PopMin.
Definition peek_op (at_end : bool) : CRUDOperation P := if at_end then PeekMax else PeekMin.
Definition end_key (at_end : bool) : Z := if at_end then END_KEY else START_KEY.
Definition end_order (at_end : bool) : relation Z := if at_end then Z.ge else Z.le.
Definition end_pos (at_end : bool) rs : nat := if at_end then length rs - 1 else 0.

Lemma rep_end at_end rs m : leaf_rep rs m → rs ≠ [] → ∃ r h,
  rs !! end_pos at_end rs = Some r ∧ extreme (end_order at_end) m (vr_key r) h ∧ vs_ok (vr_key r) (version_index r) h.
Proof using Type.
  intros Hrep Hne. destruct at_end; simpl.
  - destruct (last rs) as [r|] eqn:Hr; [|by apply last_None in Hr].
    destruct (rep_last _ _ r Hrep Hr) as (h & He & Hok). exists r, h. split; [|done].
    rewrite last_lookup in Hr. by rewrite Nat.sub_1_r.
  - destruct rs as [|r rs]; [done|]. destruct (rep_first _ _ r Hrep) as (h & He & Hok); [done|].
    by exists r, h.
Qed.

Lemma leaf_for_end s Γ D m b I rs at_end op :
  Inv s Γ D m → Γ !! b = Some (mkTy 0 I) → blocks s !! b = Some (Leaf rs) →
  Interval.contains I (end_key at_end) = true →
  op = pop_op at_end ∨ op = peek_op at_end → leaf_for op I m.
Proof using HN.
  intros HI Hb Hn Hk Hop. assert (2 ≤ N) as HN2 by (clear -HN; lia). destruct at_end.
  - by eapply (leaf_for_max F N); [..|destruct Hop as [-> | ->]; [right|left]].
  - by eapply (leaf_for_min F N); [..|destruct Hop as [-> | ->]; [right|left]].
Qed.

Lemma pop_error_same v m op m' : leaf_step v m op Error m' → m' = m.
Proof using Type. by inversion 1. Qed.

Lemma end_is_u64 at_end : is_u64 (end_key at_end).
Proof using Type. by destruct at_end. Qed.

Lemma is_pop at_end : pop_op at_end = PopMin ∨ pop_op at_end = PopMax.
Proof using Type. destruct at_end; [by right|by left]. Qed.

Lemma wp_pop_at s Γ D m g I rs toss at_end n :
  Inv s Γ D m → clock_ok (clock s) (Datatypes.S n) → before (clock_time (clock s)) m →
  held st g → Γ !! g_block g = Some (mkTy 0 I) → blocks s !! g_block g = Some (Leaf rs) →
  Interval.contains I (end_key at_end) = true →
  wp (pop_at st me toss g at_end) s (λ res s', ∃ m', tree_good n s' m' ∧
    tree_step (clock s) m (pop_op at_end) res m' (clock s') ∧ latches s' = latches s).
Proof.
  intros HI Hc Hb Hg Ht Hn Hk. unfold pop_at. apply wp_bind.
  eapply (wp_guard_deref_valid st); [destruct Hg as [->|[-> _]]; done|by left|exact Hn|].
  apply wp_bind. eapply wp_lift; [done|]. apply wp_bind. eapply wp_lift; [done|].
  destruct (inv_store _ _ _ _ _ _ HI _ _ Ht) as (nd & Hn' & Hok). rewrite Hn in Hn'. injection Hn' as <-.
  destruct Hok as (_ & Hrep & _). cbn [t_keys] in Hrep.
  pose proof (leaf_for_end s Γ D m _ I rs at_end (pop_op at_end) HI Ht Hn Hk ltac:(by left)) as Hfor.
  assert (∀ op', leaf_step (clock_time (clock s)) (restrict I m) (pop_op at_end) Error (restrict I m) →
    op' = pop_op at_end → ∃ m', tree_good n s m' ∧ tree_step (clock s) m op' Error m' (clock s) ∧
      latches s = latches s) as Herr.
  { intros op' Hstep ->. destruct (leaf_step_lift _ _ _ _ _ _ _ _ _ Hstep Hfor Hb) as (m' & Hs & _ & _).
    pose proof (pop_error_same _ _ _ _ Hs) as ->. exists m. split; [|split; [|done]].
    - split; [by exists Γ, D|]. split; [|done]. eapply clock_ok_le; [done|clear; lia].
    - apply TS_pop_none; [apply is_pop|done]. }
  destruct (decide (rs = [])) as [->|Hne].
  { apply wp_ret, Herr; [|done]. apply LS_pop_none; [by apply rep_none|apply is_pop]. }
  destruct (rep_end at_end rs _ Hrep Hne) as (r & h & Hr & He & Hvs).
  assert (∀ (A : Type) (a b : A), match rs with [] => a | _ => b end = b) as Hcase by (by destruct rs).
  rewrite Hcase. apply wp_bind. eapply wp_lift; [exact Hr|].
  apply wp_bind. eapply wp_lift; [by eapply vs_live_ok|].
  pose proof (pop_record_ok toss (clock_time (clock s)) rs (restrict I m) _ r h Hrep
    ltac:(by apply before_restrict) Hr (proj1 He) Hvs) as Hpop.
  destruct (hist_live h) eqn:Hl; simpl.
  - destruct Hpop as (rs' & Hpop & Hrep').
    eapply wp_mono; [eapply (wp_commit_at s Γ D m g I rs (pop_op at_end) _ _ n); try done|].
    + intros k p. by destruct at_end.
    + eexists rs', _. split; [exact Hpop|]. split; [|exact Hrep'].
      destruct at_end; [by apply LS_pop_max|by apply LS_pop_min].
    + intros res s' (-> & m' & Hgood & Hstep & Hcl & Hlat). exists m'. split; [done|]. split; [|done].
      rewrite Hcl. apply TS_commit; [|done]. destruct (is_pop at_end) as [-> | ->]; [by left|by right; left].
  - apply wp_ret, Herr; [|done].
    eapply (LS_pop_dead _ _ _ _ _ (end_order at_end)); [|done|done]. destruct at_end; [by right|by left].
Qed.

Lemma wp_pop fuel s m n toss at_end :
  simulates fuel s m n (pop_op at_end) (dispatch fuel toss (pop_op at_end)).
Proof.
  intros ((Γ & D & HI) & Hc & Hb) Hf.
  assert (dispatch fuel toss (pop_op at_end) =
    (guard ← write_guard (P := P) F N st false fuel true (end_key at_end); pop_at st me toss guard at_end))
    as -> by by destruct at_end.
  apply wp_bind. eapply wp_mono; [by eapply wp_write_guard; [|apply end_is_u64|]|].
  intros g s1 (Hg & Hcl & Hw & Γ1 & D1 & J & rs & HI1 & Ht & HJ & Hn & _). rewrite -Hcl in Hc, Hb |- *.
  eapply wp_mono; [by eapply (wp_pop_at s1 Γ1 D1 m g J rs toss at_end n)|].
  intros res s2 (m' & Hgood & Hstep & Hl). exists m'. split; [done|]. split; [done|]. rewrite Hl. exact Hw.
Qed.

(** ** Reads *)
Definition answers s Γ k (f : Node S → option (CRUDOperationResult P)) (R : CRUDOperationResult P → Prop) :
    Prop :=
  ∀ b I rs, Γ !! b = Some (mkTy 0 I) → Interval.contains I k = true → blocks s !! b = Some (Leaf rs) →
    ∃ res, f (Leaf rs) = Some res ∧ R res.

Definition unchanged s (R : CRUDOperationResult P → Prop) res s' : Prop :=
  ∃ l, s' = set_latches l s ∧ length l ≤ length (latches s) ∧ R res.

Lemma wp_read_valid attempts fuel s Γ D m k f R :
  olc = true → Inv s Γ D m → is_u64 k → enough fuel s → length (latches s) < attempts →
  answers s Γ k f R → wp (read_valid (P := P) st attempts fuel k f) s (unchanged s R).
Proof.
  intros Ho. revert s. induction attempts as [|attempts IH]; intros s HI Hk Hf Ha Hans;
    [by apply Nat.nlt_0_r in Ha|].
  assert (∀ l, within (length (latches s)) false l →
    wp (read_valid (P := P) st attempts fuel k f) (set_latches l s) (unchanged s R)) as Hagain.
  { intros l Hl. simpl in Hl. unfold enough in Hf. eapply wp_mono; [apply IH|].
    - by apply Inv_lat.
    - done.
    - unfold enough. simpl. clear -Hf Hl. lia.
    - simpl. clear -Ha Hl. lia.
    - done.
    - intros res s' (l' & -> & Hl' & HR). exists l'. split; [done|]. split; [|done].
      simpl in Hl'. clear -Hl Hl'. lia. }
  simpl. apply wp_bind. unfold traversal_read_olc.
  eapply (wp_retry_read F N HF HN st st_ok fuel fuel s Γ D m (length (latches s)));
    [done|done|by apply all_keys|unfold enough in Hf; clear -Hf; lia|unfold enough in Hf; clear -Hf; lia
    |apply within_refl|].
  intros g l Hl (J & rs & Ht & HJ & Hn) Hg Hloc. apply wp_bind.
  destruct (Hans _ _ _ Ht HJ Hn) as (res & Hres & HR). unfold guard_deref_unsafe. rewrite Hloc.
  apply wp_bind. eapply wp_read_page; [exact Hn|]. apply wp_ret.
  apply wp_bind. eapply wp_lift; [done|]. apply wp_bind.
  eapply (wp_guard_valid st _ (length (latches s))); [done|].
  intros [] l' Hl' Hw'; [|by apply (Hagain l')]. eapply wp_lift; [exact Hres|]. exists l'.
  split; [done|]. split; [|done]. exact Hw'.
Qed.

Lemma wp_read_locked fuel s Γ D m k f R :
  olc = false → Inv s Γ D m → is_u64 k → enough fuel s → answers s Γ k f R →
  wp (read_locked (P := P) st fuel k f) s (unchanged s R).
Proof.
  intros Ho HI Hk Hf Hans. unfold read_locked. apply wp_bind.
  eapply (wp_traversal_read F N HF HN st st_ok fuel s Γ D m);
    [done|done|by apply all_keys|unfold enough in Hf; clear -Hf; lia|].
  intros g l Hl (J & rs & Ht & HJ & Hn) Hkind. apply wp_bind.
  destruct (Hans _ _ _ Ht HJ Hn) as (res & Hres & HR).
  eapply (wp_guard_deref_valid st); [done|by right|exact Hn|].
  apply wp_bind. eapply wp_lift; [done|]. eapply wp_lift; [exact Hres|]. by exists l.
Qed.

Lemma leaf_rep_of s Γ D m b I rs :
  Inv s Γ D m → Γ !! b = Some (mkTy 0 I) → blocks s !! b = Some (Leaf rs) → leaf_rep rs (restrict I m).
Proof using Type.
  intros HI Ht Hn. destruct (inv_store _ _ _ _ _ _ HI _ _ Ht) as (nd & Hn' & Hok).
  rewrite Hn in Hn'. injection Hn' as <-. by destruct Hok as (_ & Hrep & _).
Qed.

(** A read of the leaf that the descent finds, as a step of the table. *)
Lemma read_answers v op s Γ D m k f :
  Inv s Γ D m → before v m → (0 ≤ v < VERSION_BOUND)%Z →
  (∀ I rs, leaf_rep rs (restrict I m) → Interval.contains I k = true →
    simulated Key_default Payload_default N version_index_new olc false v op rs (restrict I m)) →
  (∀ b I rs, Γ !! b = Some (mkTy 0 I) → Interval.contains I k = true → blocks s !! b = Some (Leaf rs) →
    leaf_for op I m) →
  (∀ node, dispatch_at_leaf Key_default Payload_default N version_index_new olc false v op node =
    read_only node (f node)) →
  (∀ res m', leaf_step v m op res m' → m' = m) →
  answers s Γ k f (λ res, leaf_step v m op res m).
Proof.
  intros HI Hb Hv Hsim Hfor Hf Hsame b I rs Ht Hk Hn.
  pose proof (leaf_rep_of _ _ _ _ _ _ _ HI Ht Hn) as Hrep.
  destruct (Hsim I rs Hrep Hk) as (res & rs' & m1 & Heq & Hstep & _). rewrite Hf in Heq.
  destruct (leaf_step_lift _ _ _ _ _ _ _ _ _ Hstep (Hfor _ _ _ Ht Hk Hn) Hb) as (m' & Hs & _ & _).
  pose proof (Hsame _ _ Hs) as ->. exists res. split; [|done].
  unfold read_only in Heq. destruct (f (Leaf rs)) as [res'|]; [|done]. by injection Heq as -> _.
Qed.

Lemma point_answers v s Γ D m k w :
  Inv s Γ D m → before v m → (0 ≤ v < VERSION_BOUND)%Z → is_u64 k → (w < U64_MAX)%Z →
  answers s Γ k (λ node, if olc then point_olc node k w
                         else point_locked Key_default Payload_default node k w)
    (λ res, leaf_step v m (Point k w) res m).
Proof.
  intros HI Hb Hv Hk Hw. eapply read_answers; [done|done|done| | |done|].
  - intros I rs Hrep _. by apply point_simulated.
  - by intros b I rs _ HI' _.
  - by inversion 1.
Qed.

Lemma peek_answers v s Γ D m at_end :
  Inv s Γ D m → before v m → (0 ≤ v < VERSION_BOUND)%Z →
  answers s Γ (end_key at_end) (if at_end then peek_max else peek_min)
    (λ res, leaf_step v m (peek_op at_end) res m).
Proof.
  intros HI Hb Hv. eapply read_answers; [done|done|done| | | |].
  - intros I rs Hrep _. apply peek_simulated; [done..|]. destruct at_end; [by right|by left].
  - intros b I rs Ht Hk Hn. eapply leaf_for_end; [done..|by right].
  - by destruct at_end.
  - by destruct at_end; inversion 1.
Qed.

Lemma tree_good_le n n' s m : tree_good n s m → n' ≤ n → tree_good n' s m.
Proof using Type. intros (HI & Hc & Hb) Hn. split; [done|]. split; [|done]. by eapply clock_ok_le. Qed.

Lemma tree_good_latches n s m l : tree_good n s m → tree_good n (set_latches l s) m.
Proof using Type. intros ((Γ & D & HI) & Hc & Hb). split; [|done]. exists Γ, D. by apply Inv_lat. Qed.

Lemma tree_good_version n s m : tree_good n s m → (0 ≤ clock_time (clock s) < VERSION_BOUND)%Z.
Proof using Type. intros (_ & (H1 & H2 & _) & _). clear -H1 H2. lia. Qed.

(** A computation that only reads, as a step of the abstract tree. *)
Lemma read_step n s m op (c : Comp St (CRUDOperationResult P)) R :
  tree_good (Datatypes.S n) s m → wp c s (unchanged s R) →
  (∀ res, R res → tree_step (clock s) m op res m (clock s)) →
  wp c s (λ res s', ∃ m', tree_good n s' m' ∧ tree_step (clock s) m op res m' (clock s') ∧
    length (latches s') ≤ length (latches s)).
Proof using Type.
  intros Hgood Hwp HR. eapply wp_mono; [done|]. intros res s' (l & -> & Hl & Hres). exists m.
  split; [|split; [by apply HR|done]]. apply tree_good_latches. eapply tree_good_le; [done|]. clear. lia.
Qed.

Lemma wp_point_arm fuel s m n k w :
  tree_good n s m → enough fuel s → is_u64 k → (w < U64_MAX)%Z →
  wp (point_arm (P := P) st Key_default Payload_default fuel k w) s
    (unchanged s (λ res, leaf_step (clock_time (clock s)) m (Point k w) res m)).
Proof.
  intros Hgood Hf Hk Hw. pose proof (tree_good_version _ _ _ Hgood) as Hv.
  destruct Hgood as ((Γ & D & HI) & Hc & Hb).
  assert (length (latches s) < fuel) as Hlt by (unfold enough in Hf; clear -Hf; lia).
  pose proof (point_answers (clock_time (clock s)) s Γ D m k w HI Hb Hv Hk Hw) as Hans.
  unfold point_arm. destruct (is_optimistic st) eqn:Ho; [by eapply wp_read_valid|by eapply wp_read_locked].
Qed.

Lemma wp_point fuel s m n toss k w :
  is_u64 k → (w < U64_MAX)%Z → simulates fuel s m n (Point k w) (dispatch fuel toss (Point k w)).
Proof.
  intros Hk Hw Hgood Hf. eapply read_step; [done|by eapply wp_point_arm|].
  intros res Hres. apply TS_read; [|done]. right; right; right. by eexists _, _.
Qed.

Lemma wp_peek fuel s m n toss at_end :
  simulates fuel s m n (peek_op at_end) (dispatch fuel toss (peek_op at_end)).
Proof.
  intros Hgood Hf. pose proof (tree_good_version _ _ _ Hgood) as Hv.
  assert (dispatch fuel toss (peek_op at_end) =
    peek_arm (P := P) st fuel (end_key at_end) (if at_end then peek_max else peek_min)) as ->
    by by destruct at_end.
  assert (length (latches s) < fuel) as Hlt by (unfold enough in Hf; clear -Hf; lia).
  eapply (read_step _ _ _ _ _ (λ res, leaf_step (clock_time (clock s)) m (peek_op at_end) res m)); [done| |].
  - destruct Hgood as ((Γ & D & HI) & Hc & Hb).
    pose proof (peek_answers (clock_time (clock s)) s Γ D m at_end HI Hb Hv) as Hans.
    unfold peek_arm. destruct (is_optimistic st) eqn:Ho;
      [eapply wp_read_valid; [done|exact HI|apply end_is_u64|done|done|exact Hans]
      |eapply wp_read_locked; [done|exact HI|apply end_is_u64|done|exact Hans]].
  - intros res Hres. apply TS_read; [|done]. destruct at_end; [by right; left|by left].
Qed.

Lemma wp_empty fuel s m n toss : simulates fuel s m n Empty (dispatch fuel toss Empty).
Proof.
  intros Hgood Hf. apply (read_step n s m Empty _ (λ res : CRUDOperationResult P, res = Error)); [done| |].
  - apply wp_ret. exists (latches s). by rewrite set_latches_id.
  - intros res ->. apply TS_read; [by right; right; left|apply LS_empty].
Qed.

(** The snapshot of a reader. *)
Lemma tree_good_reader n s m w c' :
  tree_good n s m → Clock.current_version_for_reader (clock s) me = (w, c') →
  tree_good n (set_clock c' s) m ∧ (w < U64_MAX)%Z ∧ clock_time c' = clock_time (clock s).
Proof using Type.
  intros ((Γ & D & HI) & Hc & Hb) Hr. destruct (reader_clock me _ n w c' Hc Hr) as (Ht & Hok & Hw).
  split; [|done]. split; [exists Γ, D; by apply Inv_set_clock|]. simpl. rewrite Ht. done.
Qed.

Lemma wp_snapshot {A} s (f : Version → Comp St A) w c' (Q : A → St → Prop) :
  Clock.current_version_for_reader (clock s) me = (w, c') → wp (f w) (set_clock c' s) Q →
  wp (version ← current_version_for_reader me; f version) s Q.
Proof using Type.
  intros Hr HQ. unfold current_version_for_reader. apply wp_bind, wp_bind, wp_gets. cbn beta.
  rewrite Hr. wp_steps. exact HQ.
Qed.

Lemma wp_point_si fuel s m n toss k :
  is_u64 k → simulates fuel s m n (PointSi k) (dispatch fuel toss (PointSi k)).
Proof.
  intros Hk Hgood Hf. destruct (Clock.current_version_for_reader (clock s) me) as [w c'] eqn:Hr.
  destruct (tree_good_reader _ _ _ _ _ Hgood Hr) as (Hgood' & Hw & Ht).
  eapply (wp_snapshot s); [exact Hr|].
  eapply wp_mono; [eapply (wp_point_arm fuel (set_clock c' s)); [exact Hgood'|exact Hf|done|done]|].
  intros res s' (l & -> & Hl & Hstep). exists m. simpl in Hstep. rewrite Ht in Hstep. split; [|split; [|done]].
  - apply tree_good_latches. eapply tree_good_le; [done|]. clear. lia.
  - by eapply TS_point_si.
Qed.
End refine.
