(* ===== verification/DexaRange.v ===== *)
(** * Range scans of the baseline trees find what the table holds

    The paths of [DexaScan.v] are typed by the invariant; the search for the
    next leaf ends, and the scan collects, leaf by leaf, every key of the
    interval with a version to show. *)
From S2P Require Import Prelude Version Interval Clock VersionHistory VersionedLeaf.
From S2P Require Import DexaLocking DexaCell DexaTree DexaSmo DexaDescent DexaScan.
From S2P Require Import DexaKeys DexaInv DexaSplit DexaGuard DexaRepair DexaWrite DexaRead DexaTable DexaRefine.
#[local] Set Default Proof Using "Type*".

(** ** The records of one leaf *)
Section leaf_range.
Context {P S : Type} `{!VersionStore P S, !VersionStoreLaws P S}.
Implicit Types (rs : list (VersionedRecordPoint S)) (m : Table P) (lo hi : Z) (w : Version).

Lemma partition_point_cons {A} (p : A → bool) x l :
  partition_point p (x :: l) = if p x then Datatypes.S (partition_point p l) else 0.
Proof using Type.
  unfold partition_point. simpl. destruct (p x); [simpl|done].
  by destruct (find_idx (λ y, negb (p y)) l).
Qed.

Lemma sorted_filter (Q : VersionedRecordPoint S → Prop) `{∀ r, Decision (Q r)} rs :
  sorted_by vr_key rs → sorted_by vr_key (filter Q rs).
Proof using Type.
  unfold sorted_by. intros Hs. induction rs as [|x rs IH]; [constructor|].
  apply sorted_cons in Hs as [Hs Hx]. rewrite filter_cons. case_decide; [|by apply IH].
  rewrite fmap_cons. constructor; [by apply IH|]. apply Forall_forall.
  intros k (r & -> & Hr)%list_elem_of_fmap. apply Hx. by apply list_elem_of_filter in Hr as [_ ?].
Qed.

Lemma records_in_filter lo hi rs :
  sorted_by vr_key rs → (lo ≤ hi)%Z →
  records_in (Interval.new lo hi) rs = Some (filter (λ r, (lo ≤ vr_key r ≤ hi)%Z) rs).
Proof using Type.
  intros Hs Hle. induction rs as [|x rs IH]; [done|]. apply sorted_cons in Hs as [Hs Hx].
  specialize (IH Hs). unfold records_in in *. simpl in *.
  set (start := partition_point (λ r, (vr_key r <? lo)%Z)) in *.
  set (end_ := partition_point (λ r, (vr_key r <=? hi)%Z)) in *.
  assert (start (x :: rs) = if (vr_key x <? lo)%Z then Datatypes.S (start rs) else 0) as ->
    by (unfold start; by rewrite partition_point_cons).
  assert (end_ (x :: rs) = if (vr_key x <=? hi)%Z then Datatypes.S (end_ rs) else 0) as ->
    by (unfold end_; by rewrite partition_point_cons).
  assert ((lo ≤ vr_key x)%Z → start rs = 0) as Hstart.
  { intros Hlo. unfold start. destruct rs as [|y rs]; [done|]. rewrite partition_point_cons.
    specialize (Hx y ltac:(by left)). by rewrite (proj2 (Z.ltb_ge _ _)); [|lia]. }
  assert ((hi < vr_key x)%Z → end_ rs = 0) as Hend.
  { intros Hhi. unfold end_. destruct rs as [|y rs]; [done|]. rewrite partition_point_cons.
    specialize (Hx y ltac:(by left)). by rewrite (proj2 (Z.leb_gt _ _)); [|lia]. }
  rewrite filter_cons. destruct (vr_key x <? lo)%Z eqn:E1.
  - apply Z.ltb_lt in E1. rewrite (proj2 (Z.leb_le (vr_key x) hi)); [|lia].
    rewrite (decide_False (P := (lo ≤ vr_key x ≤ hi)%Z)); [|lia].
    destruct (decide (start rs ≤ end_ rs)) as [C|C]; [|done]. rewrite decide_True; [|lia]. exact IH.
  - apply Z.ltb_ge in E1. rewrite Hstart in IH; [|lia]. destruct (decide (0 ≤ end_ rs)); [|lia].
    injection IH as IH. destruct (decide (0 ≤ _)) as [_|]; [|lia]. destruct (vr_key x <=? hi)%Z eqn:E2.
    + destruct (decide (lo ≤ vr_key x ≤ hi)%Z); [|lia]. simpl. by rewrite -IH.
    + destruct (decide (lo ≤ vr_key x ≤ hi)%Z); [lia|]. rewrite Hend in IH; [|lia]. by rewrite -IH.
Qed.

Lemma find_all_answer m w rs :
  (w < U64_MAX)%Z → sorted_by vr_key rs →
  (∀ r, r ∈ rs → ∃ h, m !! vr_key r = Some h ∧ vs_ok (vr_key r) (version_index r) h) →
  ∃ l : list (Z * P), find_all w rs = Some l ∧ StronglySorted Z.lt l.*1 ∧
    ∀ k p, (k, p) ∈ l ↔ (∃ r, r ∈ rs ∧ vr_key r = k) ∧ ∃ h u, m !! k = Some h ∧ hist_at h w = Some (u, p).
Proof using Type.
  intros Hw. induction rs as [|x rs IH]; intros Hs Hok.
  { exists []. split; [done|]. split; [constructor|]. intros k p. split; [by intros ?%elem_of_nil|].
    intros [(r & Hr & _) _]. by apply elem_of_nil in Hr. }
  apply sorted_cons in Hs as [Hs Hx].
  destruct IH as (l & Hl & Hsl & Hin); [done|intros r Hr; apply Hok; by right|].
  destruct (Hok x ltac:(by left)) as (h & Hh & Hvs). simpl. rewrite (vs_find_ok _ _ _ _ Hvs Hw) /= Hl /=.
  assert (∀ k p, (k, p) ∈ l → (vr_key x < k)%Z) as Hlt.
  { intros k p ((r & Hr & <-) & _)%Hin. by apply Hx. }
  destruct (hist_at h w) as [[u q]|] eqn:E.
  - exists ((vr_key x, q) :: l). split; [done|]. split.
    + simpl. constructor; [done|]. apply Forall_forall. intros k ([k' p] & -> & Hp)%list_elem_of_fmap.
      by eapply Hlt.
    + intros k p. rewrite elem_of_cons Hin. split.
      * intros [[= -> ->]|((r & Hr & Hk) & Hh')].
        -- split; [exists x; by split; [left|]|by exists h, u].
        -- split; [exists r; by split; [right|]|done].
      * intros [(r & [->|Hr]%elem_of_cons & <-) (h' & u' & Hh' & Hu')].
        -- left. rewrite Hh in Hh'. injection Hh' as <-. rewrite E in Hu'. by injection Hu' as _ ->.
        -- right. split; [by exists r|by exists h', u'].
  - exists l. split; [done|]. split; [done|]. intros k p. rewrite Hin. split.
    + intros ((r & Hr & Hk) & Hh'). split; [exists r; by split; [right|]|done].
    + intros [(r & [->|Hr]%elem_of_cons & <-) (h' & u' & Hh' & Hu')].
      * rewrite Hh in Hh'. injection Hh' as <-. by rewrite E in Hu'.
      * split; [by exists r|by exists h', u'].
Qed.

(** The leaf with the interval [J] answers for its part of the scan. *)
Lemma leaf_answer m (J : Interval) w lo hi rs :
  (w < U64_MAX)%Z → leaf_rep rs (restrict J m) → Interval.contains J lo = true → (lo ≤ hi)%Z →
  ∃ in_range l, records_in (Interval.new lo hi) rs = Some in_range ∧ find_all w in_range = Some l ∧
    range_answer m (Interval.new lo (Z.min hi (upper J))) w l.
Proof using Type.
  intros Hw Hrep Hlo%contains_spec Hle. pose proof (lr_sorted _ _ Hrep) as Hs.
  set (q := λ r : VersionedRecordPoint S, (lo ≤ vr_key r ≤ hi)%Z).
  destruct (find_all_answer m w (filter q rs)) as (l & Hl & Hsl & Hin); [done| | |].
  - by apply sorted_filter.
  - intros r [_ Hr]%list_elem_of_filter. destruct (lr_ok _ _ Hrep r Hr) as (h & Hh & Hok).
    rewrite restrict_lookup in Hh. case_match; [|done]. by exists h.
  - exists (filter q rs), l. split; [by apply records_in_filter|].
    split; [exact Hl|]. split; [done|]. intros k p. rewrite Hin contains_spec. simpl. split.
    + intros ((r & [Hq Hr]%list_elem_of_filter & <-) & Hh). split; [|done].
      destruct (leaf_key_in _ _ _ r Hrep Hr) as [HJ%contains_spec _]. unfold q in Hq. lia.
    + intros [Hk (h & u & Hh & Hu)]. split; [|by exists h, u].
      destruct (lr_dom _ _ Hrep k) as (r & Hr & Hrk).
      { rewrite restrict_lookup (proj2 (contains_spec _ _)); [by rewrite Hh|]. lia. }
      exists r. split; [|done]. apply list_elem_of_filter. split; [|done]. unfold q. lia.
Qed.

Lemma range_answer_app m w lo mid hi l1 l2 :
  range_answer m (Interval.new lo mid) w l1 → range_answer m (Interval.new (mid + 1) hi) w l2 →
  (lo ≤ mid ≤ hi)%Z → range_answer m (Interval.new lo hi) w (l1 ++ l2).
Proof using Type.
  intros [H1 H1'] [H2 H2'] Hle. split.
  - rewrite fmap_app. apply StronglySorted_app_2; [|done|done].
    intros x y ([k p] & -> & Hx)%list_elem_of_fmap ([k' p'] & -> & Hy)%list_elem_of_fmap.
    apply H1' in Hx as [Hx%contains_spec _]. apply H2' in Hy as [Hy%contains_spec _]. simpl in *. lia.
  - intros k p. rewrite elem_of_app H1' H2' !contains_spec. simpl. split.
    + intros [[? ?]|[? ?]]; (split; [lia|done]).
    + intros [Hk Hh]. destruct (decide (k ≤ mid)%Z); [left|right]; (split; [lia|done]).
Qed.
(** The keys of the table above a key, which bound the leaves still to scan: no
    leaf but the root is empty. *)
Definition keys_above m (u : Z) : nat := size (filter (λ k, (u < k)%Z) (dom m : gset Z)).

Lemma keys_above_size m u : keys_above m u ≤ size m.
Proof using Type.
  unfold keys_above. rewrite -(size_dom (M := gmap Z) (D := gset Z) m). apply subseteq_size.
  intros k Hk. by apply elem_of_filter in Hk as [_ ?].
Qed.

Lemma keys_above_lt m u u' k :
  (u < k ≤ u')%Z → is_Some (m !! k) → keys_above m u' < keys_above m u.
Proof using Type.
  intros Hk Hm. unfold keys_above. apply subset_size. split.
  - intros x [Hx Hd]%elem_of_filter. apply elem_of_filter. split; [lia|done].
  - intros Hsub. specialize (Hsub k). rewrite !elem_of_filter in Hsub.
    destruct Hsub as [Hlt _]; [|lia]. split; [lia|]. by apply (elem_of_dom (M := gmap Z)).
Qed.
End leaf_range.

(** ** Paths *)
Section paths.
Context {P S : Type} `{!VersionStore P S, !VersionStoreLaws P S}.
Context (F N : nat).
Local Abbreviation St := (MVBPlusTree S).
Local Abbreviation Inv := (Inv F N).
Implicit Types (s : St) (Γ : gmap BlockRef Ty) (m : Table P) (D d n i j : nat) (b c : BlockRef).
Implicit Types (I J : Interval) (g : BlockGuard) (k next_key : Z) (l : list bool) (path : Path).

(** The first [n] blocks of a path, from the root down; only the last may be one
    that could not be latched. *)
Record path_ok Γ D path n : Prop := {
  po_length : n ≤ length path;
  po_depth : n ≤ Datatypes.S D;
  po_type i I g : i < n → path !! i = Some (I, g) → Γ !! g_block g = Some (mkTy (D - i) I);
  po_nested i j I J g g' k : i ≤ j → j < n → path !! i = Some (I, g) → path !! j = Some (J, g') →
    Interval.contains J k = true → Interval.contains I k = true;
  po_valid i I g : Datatypes.S i < n → path !! i = Some (I, g) → guard_valid_local g = true;
}.

Lemma path_ok_le Γ D path n n' : path_ok Γ D path n → n' ≤ n → path_ok Γ D path n'.
Proof using Type.
  intros [H1 H2 H3 H4 H5] Hn. split; [lia|lia|..].
  - intros i I g Hi. apply H3. lia.
  - intros i j I J g g' k Hi Hj. apply H4; [done|lia].
  - intros i I g Hi. apply H5. lia.
Qed.

Lemma path_ok_ext Γ D path path' n :
  path_ok Γ D path n → n ≤ length path' → (∀ i, i < n → path' !! i = path !! i) → path_ok Γ D path' n.
Proof using Type.
  intros [H1 H2 H3 H4 H5] Hn He. split; [done|done|..].
  - intros i I g Hi. rewrite He; [by apply H3|done].
  - intros i j I J g g' k Hij Hj. rewrite !He; [by apply H4|done|lia].
  - intros i I g Hi. rewrite He; [by apply H5|lia].
Qed.

Lemma path_ok_take Γ D path n : path_ok Γ D path n → path_ok Γ D (take n path) n.
Proof using Type.
  intros H. eapply path_ok_ext; [done|rewrite length_take; pose proof (po_length _ _ _ _ H); lia|].
  intros i Hi. by rewrite lookup_take_lt.
Qed.

Lemma path_ok_entry Γ D path n i : path_ok Γ D path n → i < n → ∃ I g, path !! i = Some (I, g).
Proof using Type.
  intros H Hi. destruct (lookup_lt_is_Some_2 path i) as [[I g] E]; [pose proof (po_length _ _ _ _ H); lia|].
  by exists I, g.
Qed.

Lemma path_ok_nil Γ D : path_ok Γ D [] 0.
Proof using Type.
  split.
  - done.
  - lia.
  - intros; lia.
  - intros; lia.
  - intros; lia.
Qed.

Lemma path_ok_root s Γ D m g :
  Inv s Γ D m → g_block g = root_block s → path_ok Γ D [(ALL_KEYS, g)] 1.
Proof using Type.
  intros HI Hb. split.
  - done.
  - lia.
  - intros i I g' Hi. destruct i; [|lia]. intros [= <- <-]. rewrite Hb Nat.sub_0_r.
    by eapply inv_root.
  - intros i j I J g1 g2 k Hi Hj. assert (i = 0 ∧ j = 0) as [-> ->] by lia. by intros [= <- <-] [= <- <-].
  - intros; lia.
Qed.

Lemma path_ok_root_keys s Γ D m path n I g :
  Inv s Γ D m → path_ok Γ D path n → 0 < n → path !! 0 = Some (I, g) → I = ALL_KEYS.
Proof using Type.
  intros HI H Hn H0. pose proof (po_type _ _ _ _ H 0 I g Hn H0) as Ht. rewrite Nat.sub_0_r in Ht.
  destruct (inv_depth _ _ _ _ _ _ HI _ _ Ht) as (_ & Hr & _). specialize (Hr eq_refl).
  rewrite Hr (inv_root _ _ _ _ _ _ HI) in Ht. by injection Ht as <-.
Qed.

(** The path with one block more. *)
Definition path_push path i (e : Interval * BlockGuard) : Path :=
  take (Datatypes.S i) path ++ e :: drop (Datatypes.S i) path.

Lemma path_push_lookup path i e j :
  i < length path → path_push path i e !! j =
    if decide (j ≤ i) then path !! j else if decide (j = Datatypes.S i) then Some e else path !! pred j.
Proof using Type.
  intros Hi. unfold path_push. destruct (decide (j ≤ i)).
  - rewrite lookup_app_l; [|rewrite length_take; lia]. by rewrite lookup_take_lt; [|lia].
  - rewrite lookup_app_r length_take; [|lia]. rewrite Nat.min_l; [|lia]. case_decide as C.
    + subst j. by rewrite Nat.sub_diag.
    + rewrite lookup_cons_ne_0; [|lia]. rewrite lookup_drop. f_equal. lia.
Qed.

Lemma path_ok_push Γ D path i I g J g' :
  path_ok Γ D path (Datatypes.S i) → path !! i = Some (I, g) → guard_valid_local g = true →
  Datatypes.S i ≤ D → Γ !! g_block g' = Some (mkTy (D - Datatypes.S i) J) →
  (∀ k, Interval.contains J k = true → Interval.contains I k = true) →
  path_ok Γ D (path_push path i (J, g')) (Datatypes.S (Datatypes.S i)).
Proof using Type.
  intros H Hi Hv HD Ht Hin. pose proof (po_length _ _ _ _ H) as Hlen.
  assert (∀ j x, j < Datatypes.S (Datatypes.S i) → path_push path i (J, g') !! j = Some x →
    j ≤ i ∧ path !! j = Some x ∨ j = Datatypes.S i ∧ x = (J, g')) as Hcase.
  { intros j x Hj. rewrite path_push_lookup; [|lia]. repeat case_decide; [by left| |lia].
    intros [= <-]. by right. }
  split.
  - unfold path_push. rewrite length_app /= length_take length_drop. lia.
  - lia.
  - intros j I' h Hj [[Hji Hx]|[-> [= -> ->]]]%Hcase; [|done|done]. apply (po_type _ _ _ _ H); [lia|done].
  - intros j j' I1 I2 h1 h2 k Hjj Hj' Hx Hy Hk.
    apply Hcase in Hx; [|lia]. apply Hcase in Hy; [|lia].
    destruct Hx as [[Hji Hx]|[-> [= -> ->]]], Hy as [[Hji' Hy]|[-> [= -> ->]]]; [..|done].
    + eapply (po_nested _ _ _ _ H j j'); [done|lia|done..].
    + apply Hin in Hk. eapply (po_nested _ _ _ _ H j i); [done|lia|done..].
    + lia.
  - intros j I' h Hj Hx. apply Hcase in Hx; [|lia].
    destruct Hx as [[Hji Hx]|[-> _]]; [|lia]. destruct (decide (j = i)) as [->|].
    + rewrite Hi in Hx. by injection Hx as <- <-.
    + apply (po_valid _ _ _ _ H j I'); [lia|done].
Qed.

Lemma climb_found s Γ D m path i next_key :
  Inv s Γ D m → path_ok Γ D path (Datatypes.S i) → Interval.contains ALL_KEYS next_key = true →
  ∃ j I g, j ≤ i ∧ climb path i next_key = Some (j, I, g) ∧ climb path j next_key = Some (j, I, g) ∧
    path !! j = Some (I, g) ∧ Interval.contains I next_key = true.
Proof using Type.
  intros HI H Hk. induction i as [|i IH].
  - destruct (path_ok_entry _ _ _ _ 0 H) as (I & g & E); [lia|]. exists 0, I, g.
    assert (I = ALL_KEYS) as -> by (eapply path_ok_root_keys; [done|done|lia|done]).
    cbn [climb]. rewrite E. cbn [mbind option_bind]. by rewrite Hk.
  - destruct (path_ok_entry _ _ _ _ (Datatypes.S i) H) as (I & g & E); [lia|].
    destruct (Interval.contains I next_key) eqn:Hc.
    + exists (Datatypes.S i), I, g. cbn [climb]. rewrite E. cbn [mbind option_bind]. by rewrite Hc.
    + destruct IH as (j & J & h & Hj & Hcl & Hclj & Hlk & Hin); [eapply path_ok_le; [done|lia]|].
      exists j, J, h. split; [lia|]. split; [|done]. cbn [climb]. rewrite E. cbn [mbind option_bind].
      by rewrite Hc.
Qed.
End paths.

(** ** The search for the next leaf *)
Section search.
Context {P S : Type} `{!VersionStore P S, !VersionStoreLaws P S}.
Context (F N : nat) (HF : 5 ≤ F) (HN : 3 ≤ N) (st : LockingStrategy).
Context (st_ok : split_seals (latch_type st) = false).
Local Abbreviation St := (MVBPlusTree S).
Local Abbreviation Inv := (Inv F N).
Implicit Types (s : St) (Γ : gmap BlockRef Ty) (m : Table P) (D d n i j : nat) (b c : BlockRef).
Implicit Types (I J : Interval) (g : BlockGuard) (k next_key idx : Z) (l : list bool) (path : Path).

(** A search at the block [idx] of the path, which covers the key, or about to
    start from the root again. *)
Definition searching Γ D next_key path idx : Prop :=
  (Z.of_nat (length path) ≤ idx)%Z ∨
  ∃ i I g, idx = Z.of_nat i ∧ path_ok Γ D path (Datatypes.S i) ∧ path !! i = Some (I, g) ∧
    Interval.contains I next_key = true.

Definition dead g : nat := if guard_valid_local g then 0 else 2.

(** The rounds to go, if no further latch is lost. *)
Definition rounds D path idx : nat :=
  if (Z.of_nat (length path) <=? idx)%Z then Datatypes.S D
  else D - Z.to_nat idx + match path !! Z.to_nat idx with Some (_, g) => dead g | None => 0 end.

Lemma rounds_at D path i I g : path !! i = Some (I, g) → rounds D path (Z.of_nat i) = D - i + dead g.
Proof using HF HN.
  intros E. unfold rounds. pose proof (lookup_lt_Some _ _ _ E).
  rewrite (proj2 (Z.leb_gt _ _)); [|lia]. by rewrite Nat2Z.id E.
Qed.

Definition leaf_path Γ D next_key path : Prop :=
  path_ok Γ D path (Datatypes.S D) ∧ length path = Datatypes.S D ∧
  ∃ I g, path !! D = Some (I, g) ∧ Interval.contains I next_key = true ∧ guard_valid_local g = true.

Definition round_res Γ D next_key n s (res : Path * Z * Attempts + Path) s' : Prop :=
  ∃ l, s' = set_latches l s ∧ length l ≤ length (latches s) ∧
  match res with
  | inr path => leaf_path Γ D next_key path
  | inl (path, idx, _) => searching Γ D next_key path idx ∧ 2 * length l + rounds D path idx < n
  end.

Lemma searching_retry Γ D next_key path i I g :
  D ≤ 64 → path_ok Γ D path (Datatypes.S i) → path !! i = Some (I, g) →
  Interval.contains I next_key = true →
  searching Γ D next_key (take i path) (usize_pred (Z.of_nat i)) ∧
  rounds D (take i path) (usize_pred (Z.of_nat i)) ≤ Datatypes.S (D - i).
Proof using HF HN.
  intros HD H E Hk. pose proof (po_length _ _ _ _ H) as Hlen. pose proof (po_depth _ _ _ _ H) as Hd.
  unfold usize_pred, u64_wrap. destruct i as [|i].
  - assert (Z.of_nat (length (take 0 path)) ≤ (Z.of_nat 0 - 1) `mod` 2 ^ 64)%Z as Hle by done.
    split; [by left|]. unfold rounds. rewrite (proj2 (Z.leb_le _ _) Hle). lia.
  - destruct (path_ok_entry _ _ _ _ i H) as (J & h & Ei); [lia|].
    rewrite Z.mod_small; [|lia]. replace (Z.of_nat (Datatypes.S i) - 1)%Z with (Z.of_nat i) by lia.
    assert (take (Datatypes.S i) path !! i = Some (J, h)) as Ei' by (rewrite lookup_take_lt; [done|lia]).
    split.
    + right. exists i, J, h. split; [done|]. split; [|split; [done|]].
      * apply path_ok_take. eapply path_ok_le; [done|lia].
      * eapply (po_nested _ _ _ _ H i (Datatypes.S i)); [lia|lia|exact Ei|exact E|done].
    + rewrite (rounds_at _ _ _ _ _ Ei'). unfold dead.
      rewrite (po_valid _ _ _ _ H i J h); [lia|lia|done].
Qed.

Lemma wp_lock_olc s curr_level attempt height b (Q : BlockGuard → St → Prop) :
  obsolete s = ∅ →
  (∀ g l, within (length (latches s)) (guard_valid_local g) l → g_block g = b → Q g (set_latches l s)) →
  wp (lock_olc st curr_level attempt height b) s Q.
Proof using st_ok.
  intros Hob HQ. unfold lock_olc. apply (wp_borrow_as st st_ok s (length (latches s))); [done|apply within_refl|].
  intros g l _ Hw Hb _ _ _. by apply HQ.
Qed.

(** The validation of a guard that is one. *)
Lemma wp_validate s g (Q : bool → St → Prop) :
  guard_valid_local g = true →
  (∀ ok l, within (length (latches s)) ok l → Q ok (set_latches l s)) →
  wp (guard_valid st g) s Q.
Proof using Type.
  unfold guard_valid_local, guard_valid. intros Hv HQ.
  assert (wp (mret true) s Q) as Hret.
  { apply wp_ret. rewrite -(set_latches_id s). apply HQ, within_refl. }
  destruct (g_kind g); [done| |done|done]. destruct (is_optimistic st); [|done].
  apply (wp_win s (length (latches s))); [apply within_refl|]. intros ok l _. apply HQ.
Qed.

Lemma wp_next_leaf_descend s Γ D m path i I g next_key attempts :
  Inv s Γ D m → path_ok Γ D path (Datatypes.S i) → path !! i = Some (I, g) →
  Interval.contains I next_key = true →
  wp (next_leaf_descend st path i next_key attempts) s
    (round_res Γ D next_key (2 * length (latches s) + (D - i + dead g)) s).
Proof.
  intros HI H E Hk. pose proof (depth_bound F N _ _ _ _ HI) as HD.
  pose proof (po_length _ _ _ _ H) as Hlen. pose proof (po_depth _ _ _ _ H) as Hd.
  destruct (searching_retry Γ D next_key path i I g HD H E Hk) as [Hretry Hrounds].
  unfold next_leaf_descend. apply wp_bind.
  assert (climb path i next_key = Some (i, I, g)) as Hcl
    by (destruct i; cbn [climb]; rewrite E; cbn [mbind option_bind]; by rewrite Hk).
  eapply wp_lift; [exact Hcl|]. cbn beta iota.
  pose proof (po_type _ _ _ _ H i I g ltac:(clear; lia) E) as Ht.
  destruct (inv_store _ _ _ _ _ _ HI _ _ Ht) as (node & Hn & _).
  unfold guard_deref_unsafe. destruct (guard_valid_local g) eqn:Hv.
  2:{ apply wp_bind, wp_ret, wp_bind. unfold guard_valid. unfold guard_valid_local in Hv.
      destruct (g_kind g) eqn:Hkind; try done. apply wp_ret, wp_ret. exists (latches s).
      rewrite set_latches_id. split; [done|]. split; [done|]. split; [done|].
      unfold dead, guard_valid_local. rewrite Hkind. clear -Hrounds. lia. }
  apply wp_bind, wp_bind. eapply wp_read_page; [exact Hn|]. apply wp_ret.
  assert (∀ l attempts', within (length (latches s)) false l →
    round_res Γ D next_key (2 * length (latches s) + (D - i + dead g)) s
      (inl (take i path, usize_pred (Z.of_nat i), attempts')) (set_latches l s)) as Hlost.
  { intros l att Hl. simpl in Hl. exists l. split; [done|]. split; [clear -Hl; lia|]. split; [done|].
    clear -Hrounds Hl. lia. }
  apply wp_bind, wp_validate; [done|]. intros [] l1 Hl1; [|by apply wp_ret, Hlost]. cbn [negb].
  pose proof (child_index F N HF HN _ _ _ _ _ _ _ _ _ HI Ht Hn Hk) as Hci. destruct node as [keys cs|rs].
  - destruct Hci as (c & d' & cnode & Hd' & Hc & Hct & Hck & Hcn & _). cbv zeta.
    set (pos := child_position keys (inc_key next_key)) in *.
    apply wp_bind. eapply wp_lift; [exact Hc|]. apply wp_bind, wp_validate; [done|].
    intros [] l2 Hl2; [|apply wp_ret, (Hlost l2); simpl in *; clear -Hl1 Hl2; lia]. cbn [negb].
    apply wp_bind, wp_gets, wp_bind, wp_lock_olc; [by apply (inv_sealed _ _ _ _ _ _ HI)|].
    intros ng l3 Hl3 Hnb. apply wp_ret. simpl in Hl1, Hl2, Hl3. exists l3. split; [done|].
    pose proof (within_true _ _ _ Hl3) as Hl3'. simpl in Hl3'. split; [clear -Hl1 Hl2 Hl3'; lia|].
    change (take (Datatypes.S i) path ++ (child_interval keys pos I, ng) :: drop (Datatypes.S i) path)
      with (path_push path i (child_interval keys pos I, ng)).
    assert (d' = D - Datatypes.S i) as -> by (clear -Hd'; lia).
    destruct (index_typed F N _ _ _ _ _ _ _ _ _ HI Ht Hn) as (_ & _ & Hs & _).
    assert (path_push path i (child_interval keys pos I, ng) !! Datatypes.S i =
      Some (child_interval keys pos I, ng)) as Hnew.
    { rewrite path_push_lookup; [|clear -Hlen; lia]. rewrite decide_False; [|clear; lia].
      by rewrite decide_True. }
    split.
    + right. exists (Datatypes.S i), (child_interval keys pos I), ng. split; [done|]. split; [|done].
      apply (path_ok_push Γ D path i I g); [done|done|done|clear -Hd'; lia|by rewrite Hnb|].
      intros k. apply child_within; [done|by eapply inv_nonempty].
    + rewrite (rounds_at _ _ _ _ _ Hnew). unfold dead. rewrite Hv.
      destruct (guard_valid_local ng); simpl in Hl3; clear -Hl1 Hl2 Hl3 Hd'; lia.
  - apply wp_ret. simpl in Hl1. exists l1. split; [done|]. split; [done|].
    assert (i = D) as -> by (clear -Hci Hd; lia). split; [|split].
    + by apply path_ok_take.
    + rewrite length_take. clear -Hlen. lia.
    + exists I, g. split; [|done]. rewrite lookup_take_lt; [done|clear; lia].
Qed.

(** A search may also start at a block that does not cover the key. *)
Definition search_from Γ D path idx : Prop :=
  (Z.of_nat (length path) ≤ idx)%Z ∨
  ∃ i, idx = Z.of_nat i ∧ path_ok Γ D path (Datatypes.S i) ∧
    ∀ I g, path !! i = Some (I, g) → guard_valid_local g = true.

Lemma wp_next_leaf_round s Γ D m path idx next_key attempts :
  Inv s Γ D m → Interval.contains ALL_KEYS next_key = true → searching Γ D next_key path idx →
  wp (next_leaf_round st path idx next_key attempts) s
    (round_res Γ D next_key (2 * length (latches s) + rounds D path idx) s).
Proof.
  intros HI Hk Hs. unfold next_leaf_round, rounds.
  destruct (Z.of_nat (length path) <=? idx)%Z eqn:Hle.
  - wp_steps. apply wp_lock_olc; [by eapply inv_sealed|]. intros g l Hl Hb.
    pose proof (within_true _ _ _ Hl) as Hlt. simpl in Hlt. apply wp_bind.
    assert (∀ l' att, within (length (latches s)) false l' →
      round_res Γ D next_key (2 * length (latches s) + Datatypes.S D) s (inl ([], idx, att)) (set_latches l' s))
      as Hlost.
    { intros l' att Hl'. simpl in Hl'. exists l'. split; [done|]. split; [clear -Hl'; lia|].
      assert (0 ≤ idx)%Z as Hidx by (apply Z.leb_le in Hle; clear -Hle; lia).
      split; [by left|]. unfold rounds. rewrite (proj2 (Z.leb_le _ _) Hidx). clear -Hl'. lia. }
    destruct (guard_valid_local g) eqn:Hv.
    + apply wp_validate; [done|]. intros [] l1 Hl1; cbn [negb]; simpl in Hl1;
        [|apply wp_ret, (Hlost l1); simpl; clear -Hl1 Hlt; lia].
      eapply wp_mono; [eapply (wp_next_leaf_descend (set_latches l1 s) Γ D m [(ALL_KEYS, g)] 0 ALL_KEYS g);
        [by apply Inv_lat|by eapply path_ok_root|done|done]|].
      intros res s' (l2 & -> & Hl2 & Hres). simpl in Hl2. unfold dead in Hres. rewrite Hv in Hres.
      simpl in Hres. exists l2. split; [done|]. split; [clear -Hlt Hl1 Hl2; lia|].
      destruct res as [[[path' idx'] att']|path']; [|done]. destruct Hres as [Hs' Hlt'].
      split; [done|]. clear -Hlt' Hl1 Hlt. lia.
    + unfold guard_valid. unfold guard_valid_local in Hv. destruct (g_kind g); try done.
      apply wp_ret. cbn [negb]. apply wp_ret. exact (Hlost _ _ Hl).
  - destruct Hs as [Hs|(i & I & g & -> & H & E & Hc)]; [by apply Z.leb_gt in Hle; clear -Hle Hs; lia|].
    rewrite Nat2Z.id E. by eapply wp_next_leaf_descend.
Qed.

Lemma wp_next_leaf_loop fuel s Γ D m path idx next_key attempts :
  Inv s Γ D m → Interval.contains ALL_KEYS next_key = true → searching Γ D next_key path idx →
  2 * length (latches s) + rounds D path idx < fuel →
  wp (next_leaf_loop st fuel path idx next_key attempts) s (λ path' s',
    ∃ l, s' = set_latches l s ∧ length l ≤ length (latches s) ∧ leaf_path Γ D next_key path').
Proof.
  revert s path idx attempts. induction fuel as [|fuel IH]; intros s path idx attempts HI Hk Hs Hf;
    [by apply Nat.nlt_0_r in Hf|]. simpl. apply wp_bind.
  eapply wp_mono; [by eapply wp_next_leaf_round|]. intros [[[path' idx'] att']|path'] s' (l & -> & Hl & Hres).
  - destruct Hres as [Hs' Hlt]. eapply wp_mono; [apply IH; [by apply Inv_lat|done|exact Hs'|]|].
    + simpl. clear -Hlt Hf. lia.
    + intros p s' (l' & -> & Hl' & Hp). exists l'. split; [done|]. split; [|done]. simpl in Hl'. clear -Hl Hl'. lia.
  - apply wp_ret. by exists l.
Qed.

Lemma wp_next_leaf_page fuel s Γ D m path idx next_key :
  Inv s Γ D m → Interval.contains ALL_KEYS next_key = true → search_from Γ D path idx →
  2 * length (latches s) + 66 < fuel →
  wp (next_leaf_page st fuel path idx next_key) s (λ path' s',
    ∃ l, s' = set_latches l s ∧ length l ≤ length (latches s) ∧ leaf_path Γ D next_key path').
Proof.
  intros HI Hk Hs Hf. pose proof (depth_bound F N _ _ _ _ HI) as HD. unfold next_leaf_page.
  destruct Hs as [Hs|(i & -> & H & Hv)].
  - apply (wp_next_leaf_loop _ s Γ D m); [done|done|by left|].
    unfold rounds. rewrite (proj2 (Z.leb_le _ _) Hs). clear -Hf HD. lia.
  - destruct (climb_found F N s Γ D m path i next_key HI H Hk) as (j & I & g & Hj & Hci & Hcj & E & Hc).
    pose proof (po_length _ _ _ _ H) as Hlen.
    assert (∀ att, next_leaf_round (S := S) st path (Z.of_nat i) next_key att =
      next_leaf_round st path (Z.of_nat j) next_key att)
      as Hround.
    { intros att. unfold next_leaf_round. rewrite !(proj2 (Z.leb_gt _ _)); [|clear -Hlen Hj; lia..].
      rewrite !Nat2Z.id. unfold next_leaf_descend. by rewrite Hci Hcj. }
    assert (next_leaf_loop (S := S) st fuel path (Z.of_nat i) next_key 0%Z =
      next_leaf_loop st fuel path (Z.of_nat j) next_key 0%Z)
      as -> by (destruct fuel; [done|]; simpl; by rewrite Hround).
    apply (wp_next_leaf_loop _ s Γ D m); [done|done| |].
    + right. exists j, I, g. split; [done|]. split; [|done]. eapply path_ok_le; [done|clear -Hj; lia].
    + rewrite (rounds_at _ _ _ _ _ E). unfold dead.
      assert (guard_valid_local g = true) as ->; [|clear -Hf HD; lia].
      destruct (decide (j = i)) as [->|Hne]; [by eapply Hv|].
      eapply (po_valid _ _ _ _ H j I); [clear -Hj Hne; lia|done].
Qed.

(** ** The leaves of a scan *)
Lemma path_ok_replace Γ D path I g g' :
  path_ok Γ D path (Datatypes.S D) → path !! D = Some (I, g) → g_block g' = g_block g →
  path_ok Γ D (take D path ++ [(I, g')]) (Datatypes.S D).
Proof using HF HN.
  intros H E Hb. pose proof (po_length _ _ _ _ H) as Hlen.
  assert (∀ i x, (take D path ++ [(I, g')]) !! i = Some x →
    i < D ∧ path !! i = Some x ∨ i = D ∧ x = (I, g')) as Hcase.
  { intros i x Hi. destruct (decide (i < D)) as [Hlt|Hge].
    - rewrite lookup_app_l in Hi; [|rewrite length_take; lia]. rewrite lookup_take_lt // in Hi. by left.
    - rewrite lookup_app_r length_take in Hi; [|lia]. rewrite Nat.min_l in Hi; [|lia].
      destruct (i - D) as [|j] eqn:Ei; [|done]. injection Hi as <-. right. split; [lia|done]. }
  split.
  - rewrite length_app length_take /=. lia.
  - lia.
  - intros i J h Hi [[Hlt Hx]|[-> [= -> ->]]]%Hcase; [by apply (po_type _ _ _ _ H)|].
    rewrite Hb. by eapply (po_type _ _ _ _ H).
  - intros i j J1 J2 h1 h2 k Hij Hj Hx Hy Hk. apply Hcase in Hx, Hy.
    destruct Hx as [[Hi Hx]|[-> [= -> ->]]], Hy as [[Hj' Hy]|[-> [= -> ->]]]; [..|done].
    + eapply (po_nested _ _ _ _ H i j); [done|done|done..].
    + eapply (po_nested _ _ _ _ H i D); [done|done|done..].
    + lia.
  - intros i J h Hi Hx. apply Hcase in Hx. destruct Hx as [[Hlt Hx]|[-> _]]; [|lia].
    by eapply (po_valid _ _ _ _ H i J).
Qed.

(** The path to the leaf of a scan, which can be upgraded. *)
Lemma leaf_path_parent Γ D next_key path :
  D ≤ 64 → leaf_path Γ D next_key path → search_from Γ D (take D path) (last_index (take D path)).
Proof using HF HN.
  intros HD (H & Hlen & _). unfold last_index, usize_pred, u64_wrap. rewrite length_take Nat.min_l; [|lia].
  destruct D as [|D']; [by left|]. right. exists D'. rewrite Z.mod_small; [|lia]. split; [lia|]. split.
  - apply path_ok_take. eapply path_ok_le; [done|lia].
  - intros I g Hg. rewrite lookup_take_lt in Hg; [|lia]. eapply (po_valid _ _ _ _ H D' I); [lia|done].
Qed.

Lemma leaf_path_last Γ D next_key path I g :
  leaf_path Γ D next_key path → path !! D = Some (I, g) → last path = Some (I, g).
Proof using Type. intros (_ & Hlen & _) E. rewrite last_lookup Hlen. exact E. Qed.

Definition leaf_scanned Γ D m lo hi w s (res : Path * list (Z * P)) s' : Prop :=
  ∃ l, s' = set_latches l s ∧ length l ≤ length (latches s) ∧ leaf_path Γ D lo res.1 ∧
    ∀ J g, res.1 !! D = Some (J, g) → range_answer m (Interval.new lo (Z.min hi (upper J))) w res.2.

Lemma guard_downgrade_ok g :
  guard_valid_local g = true →
  g_block (guard_downgrade st g) = g_block g ∧ guard_valid_local (guard_downgrade st g) = true.
Proof using st_ok. destruct g as [b kd]. unfold guard_downgrade. simpl. destruct kd, st; done. Qed.

Lemma wp_leaf_upgrade s g (Q : bool * BlockGuard → St → Prop) :
  guard_valid_local g = true →
  (∀ g' l, length l ≤ length (latches s) → g_block g' = g_block g → g_kind g' = GuardFree ∨ g_kind g' = GuardWriter →
    Q (true, g') (set_latches l s)) →
  (∀ g' l, within (length (latches s)) false l → Q (false, g') (set_latches l s)) →
  wp (guard_upgrade st g) s Q.
Proof using Type.
  unfold guard_valid_local, guard_upgrade. intros Hv HQ1 HQ2. destruct (g_kind g) eqn:E; [| | |done].
  - apply wp_ret. rewrite -(set_latches_id s). apply HQ1; [done|done|by left].
  - apply wp_bind, (wp_win s (length (latches s))); [apply within_refl|].
    intros [] l Hl Hn; apply wp_ret; [|by apply HQ2]. apply HQ1; [done|done|by right].
  - apply wp_ret. rewrite -(set_latches_id s). apply HQ1; [done|done|by right].
Qed.

Lemma wp_leaf_results fuel s Γ D m path lo hi w :
  Inv s Γ D m → leaf_path Γ D lo path → (lo ≤ hi)%Z → Interval.contains ALL_KEYS lo = true →
  (w < U64_MAX)%Z → 2 * length (latches s) + 67 < fuel →
  wp (range_query_leaf_results (P := P) st fuel path (Interval.new lo hi) w) s
    (leaf_scanned Γ D m lo hi w s).
Proof.
  revert s path. induction fuel as [|fuel IH]; intros s path HI Hpath Hle Hlo Hw Hf;
    [by apply Nat.nlt_0_r in Hf|].
  pose proof (depth_bound F N _ _ _ _ HI) as HD. pose proof Hpath as (H & Hlen & I & g & E & Hc & Hv).
  assert (∀ l, within (length (latches s)) false l →
    wp (path ← next_leaf_page st fuel (take D path) (last_index (take D path)) lo;
        range_query_leaf_results (P := P) st fuel path (Interval.new lo hi) w) (set_latches l s)
      (leaf_scanned Γ D m lo hi w s)) as Hagain.
  { intros l Hl. simpl in Hl. apply wp_bind. eapply wp_mono.
    - eapply (wp_next_leaf_page fuel (set_latches l s) Γ D m); [by apply Inv_lat|done|by eapply leaf_path_parent|].
      simpl. clear -Hl Hf. lia.
    - intros path1 s1 (l1 & -> & Hl1 & Hp1). simpl in Hl1.
      eapply wp_mono; [apply (IH (set_latches l1 s)); [by apply Inv_lat|done..|simpl; clear -Hl Hl1 Hf; lia]|].
      intros res s2 (l2 & -> & Hl2 & Hres). simpl in Hl2. exists l2. split; [done|].
      split; [clear -Hl Hl1 Hl2; lia|done]. }
  simpl. apply wp_bind. eapply wp_lift; [by eapply leaf_path_last|]. cbn beta iota. cbv zeta.
  rewrite Hlen. replace (Datatypes.S D - 1) with D by (clear; lia).
  apply wp_bind. unfold upgrade_append. apply wp_leaf_upgrade; [done| |].
  2:{ intros g' l Hl. cbn beta iota. apply wp_bind, wp_ret. by apply Hagain. }
  intros g' l Hl Hb Hk. cbn beta iota. apply wp_bind.
  pose proof (po_type _ _ _ _ H D I g ltac:(clear; lia) E) as Ht. rewrite Nat.sub_diag in Ht.
  destruct (inv_store _ _ _ _ _ _ HI _ _ Ht) as (node & Hn & Hok).
  assert (g_kind g' ≠ GuardNone ∧ guard_valid_local g' = true) as [Hg' Hv'].
  { unfold guard_valid_local. destruct Hk as [-> | ->]; done. }
  unfold guard_deref, guard_valid.
  assert (wp (match g_kind g' with GuardNone => mret false | GuardReader =>
    if is_optimistic st then win else mret true | _ => mret true end) (set_latches l s)
    (λ ok s', ok = true ∧ s' = set_latches l s)) as Hval by (destruct Hk as [-> | ->]; by apply wp_ret).
  apply wp_bind. eapply wp_mono; [exact Hval|]. intros ok s' [-> ->].
  apply wp_bind. eapply wp_read_page; [rewrite Hb; exact Hn|]. apply wp_ret.
  destruct node as [keys cs|rs]; [by destruct Hok as (? & ? & _)|].
  destruct Hok as (_ & Hrep & _). cbn [t_keys] in Hrep.
  destruct (leaf_answer m I w lo hi rs Hw Hrep Hc Hle) as (in_range & l' & Hr & Hfind & Hans).
  apply wp_bind. eapply wp_lift; [exact Hr|]. apply wp_bind. eapply wp_lift; [exact Hfind|]. apply wp_ret.
  destruct (guard_downgrade_ok g' Hv') as [Hdb Hdv]. rewrite Hb in Hdb.
  assert ((take D path ++ [(I, guard_downgrade st g')]) !! D = Some (I, guard_downgrade st g')) as Elast.
  { rewrite lookup_app_r length_take Nat.min_l; [|clear -Hlen; lia..]. by rewrite Nat.sub_diag. }
  exists l. split; [done|]. split; [done|]. cbn [fst snd]. split.
  - split; [by eapply path_ok_replace|]. split; [rewrite length_app length_take /=; clear -Hlen; lia|].
    by exists I, (guard_downgrade st g').
  - intros J h. rewrite Elast. by intros [= <- <-].
Qed.

Lemma next_leaf_above s Γ D m J J' g g' :
  Inv s Γ D m → Γ !! g_block g = Some (mkTy 0 J) → Γ !! g_block g' = Some (mkTy 0 J') →
  g_block g' ≠ root_block s → Interval.contains J' (upper J + 1)%Z = true →
  keys_above m (upper J') < keys_above m (upper J).
Proof using HF HN.
  intros HI Hg Hg' Hroot Hc%contains_spec.
  pose proof (inv_nonempty F N _ _ _ _ _ _ _ HI Hg) as Hne.
  destruct (inv_store _ _ _ _ _ _ HI _ _ Hg') as (node & Hn & Hok).
  destruct node as [keys cs|rs]; [by destruct Hok as (? & ? & _)|].
  destruct Hok as (_ & Hrep & _ & Hfull). specialize (Hfull Hroot). unfold fill_leaf in Hfull.
  destruct rs as [|r rs].
  { change (N / 2 ≤ 0) in Hfull. assert (0 < N / 2) by (apply Nat.div_str_pos; lia). lia. }
  destruct (leaf_key_in _ _ _ r Hrep) as [Hr%contains_spec Hm]; [by left|]. cbn [t_keys] in *.
  apply (keys_above_lt m _ _ (vr_key r)); [|done]. split; [|lia].
  destruct (decide (upper J < lower J')%Z) as [|Hle]; [lia|]. exfalso.
  assert (g_block g = g_block g') as Heq.
  { eapply (inv_apart _ _ _ _ _ _ HI _ _ 0 J J' (upper J)); [done|done|..]; apply contains_spec; lia. }
  rewrite -Heq Hg in Hg'. injection Hg' as <-. lia.
Qed.

Lemma leaf_interval s Γ D m path next_key I g :
  Inv s Γ D m → leaf_path Γ D next_key path → path !! D = Some (I, g) →
  Γ !! g_block g = Some (mkTy 0 I) ∧ (upper I ≤ END_KEY)%Z ∧ (D = 0 → upper I = END_KEY) ∧
  (g_block g = root_block s → D = 0).
Proof using HF HN.
  intros HI (H & Hlen & _) E.
  pose proof (po_type _ _ _ _ H D I g ltac:(lia) E) as Ht. rewrite Nat.sub_diag in Ht.
  pose proof (inv_nonempty F N _ _ _ _ _ _ _ HI Ht) as Hne.
  destruct (path_ok_entry _ _ _ _ 0 H) as (I0 & g0 & E0); [lia|].
  assert (I0 = ALL_KEYS) as -> by (eapply (path_ok_root_keys F N); [done|done|lia|done]).
  split; [done|]. split_and!.
  - assert (Interval.contains ALL_KEYS (upper I) = true) as Hin.
    { eapply (po_nested _ _ _ _ H 0 D); [lia|lia|done..|]. apply contains_spec. lia. }
    apply contains_spec in Hin. change (upper ALL_KEYS) with END_KEY in Hin. lia.
  - intros ->. rewrite E in E0. by injection E0 as -> _.
  - intros Hr. rewrite Hr (inv_root _ _ _ _ _ _ HI) in Ht. by injection Ht as -> _.
Qed.

Definition scanned m lo hi w s (res : list (Z * P)) s' : Prop :=
  ∃ l, s' = set_latches l s ∧ length l ≤ length (latches s) ∧ range_answer m (Interval.new lo hi) w res.

Lemma wp_range_query fuel s Γ D m path lo hi w I g :
  Inv s Γ D m → leaf_path Γ D lo path → path !! D = Some (I, g) →
  (lo ≤ hi ≤ END_KEY)%Z → (START_KEY ≤ lo)%Z → (w < U64_MAX)%Z →
  2 * length (latches s) + 70 + keys_above m (upper I) < fuel →
  wp (range_query_olc (P := P) st fuel path (Interval.new lo hi) w) s (scanned m lo hi w s).
Proof.
  revert s path lo I g. induction fuel as [|fuel IH]; intros s path lo I g HI Hpath E Hle Hlo Hw Hf;
    [by apply Nat.nlt_0_r in Hf|].
  assert (∀ k, (START_KEY ≤ k ≤ END_KEY)%Z → Interval.contains ALL_KEYS k = true) as Hall
    by (intros k Hk; by apply contains_spec).
  pose proof (depth_bound F N _ _ _ _ HI) as HD.
  simpl. apply wp_bind. eapply wp_mono.
  { eapply (wp_leaf_results fuel s Γ D m path lo hi w); [done|done|lia|apply Hall; lia|done|]. clear -Hf. lia. }
  intros [path1 res1] s1 (l1 & -> & Hl1 & Hp1 & Hans). cbn [fst snd] in *.
  destruct Hp1 as (H1 & Hlen1 & J & h & E1 & Hc1 & Hv1).
  assert (leaf_path Γ D lo path1) as Hp1 by (split; [done|]; split; [done|]; by exists J, h).
  specialize (Hans J h E1).
  destruct (leaf_interval s Γ D m path1 lo J h HI Hp1 E1) as (Ht1 & HJ & HJ0 & Hroot1).
  destruct (leaf_interval s Γ D m path lo I g HI Hpath E) as (Ht & _).
  (* the leaf is the one of the path *)
  assert (J = I) as ->.
  { destruct Hpath as (H & _ & I' & g' & E' & Hc & _). rewrite E in E'. injection E' as <- <-.
    pose proof (inv_apart _ _ _ _ _ _ HI _ _ _ _ _ lo Ht1 Ht Hc1 Hc) as Heq. rewrite Heq Ht in Ht1.
    by injection Ht1 as <-. }
  apply wp_bind. eapply wp_lift; [by eapply leaf_path_last|]. cbn beta iota. cbv zeta.
  rewrite Hlen1. replace (Datatypes.S D - 1) with D by (clear; lia).
  apply contains_spec in Hc1.
  assert ((hi ≤ upper I)%Z → wp (mret res1) (set_latches l1 s) (scanned m lo hi w s)) as Hdone.
  { intros Hhi. apply wp_ret. exists l1. split; [done|]. split; [done|]. by rewrite Z.min_l in Hans. }
  destruct (upper I =? END_KEY)%Z eqn:Eend.
  { apply Hdone. apply Z.eqb_eq in Eend. lia. }
  apply Z.eqb_neq in Eend. cbn [lower upper Interval.set_lower].
  assert (inc_key (upper I) = upper I + 1)%Z as Hinc.
  { unfold inc_key, START_KEY, END_KEY in *. rewrite (proj2 (Z.leb_le _ _)); [done|lia]. }
  rewrite Hinc. destruct (hi <? upper I + 1)%Z eqn:Ehi.
  { apply Hdone. apply Z.ltb_lt in Ehi. lia. }
  apply Z.ltb_ge in Ehi. rewrite Z.min_r in Hans; [|lia].
  apply wp_bind. eapply wp_mono.
  { eapply (wp_next_leaf_page fuel (set_latches l1 s) Γ D m);
      [by apply Inv_lat|apply Hall; lia|by eapply leaf_path_parent|]. simpl. clear -Hf Hl1. lia. }
  intros path2 s2 (l2 & -> & Hl2 & Hp2). simpl in Hl2.
  pose proof Hp2 as (_ & _ & I2 & g2 & E2 & Hc2 & _).
  destruct (leaf_interval s Γ D m path2 _ I2 g2 HI Hp2 E2) as (Ht2 & _ & _ & Hroot2).
  assert (keys_above m (upper I2) < keys_above m (upper I)) as Hless.
  { eapply (next_leaf_above s Γ D m I I2 h g2); try done. intros Hr. apply Eend, HJ0, Hroot2, Hr. }
  apply wp_bind. eapply wp_mono.
  { eapply (IH (set_latches l2 s) path2 (upper I + 1)%Z I2 g2); [by apply Inv_lat|done|done|lia|lia|done|].
    simpl. clear -Hf Hl1 Hl2 Hless. lia. }
  intros res2 s3 (l3 & -> & Hl3 & Hans2). simpl in Hl3. apply wp_ret. exists l3. split; [done|].
  split; [clear -Hl1 Hl2 Hl3; lia|]. eapply range_answer_app; [done|done|lia].
Qed.

Lemma wp_range_lazy fuel s Γ D m (ki : Interval) w :
  Inv s Γ D m → is_u64 (lower ki) → is_u64 (upper ki) → (lower ki ≤ upper ki)%Z → (w < U64_MAX)%Z →
  2 * length (latches s) + 70 + size m < fuel →
  wp (range_lazy (P := P) st fuel ki w) s (scanned m (lower ki) (upper ki) w s).
Proof.
  intros HI Hlo Hhi Hle Hw Hf. unfold range_lazy. apply wp_bind. eapply wp_mono.
  { eapply (wp_next_leaf_page fuel s Γ D m); [done|by apply all_keys|by left|clear -Hf; lia]. }
  intros path s1 (l1 & -> & Hl1 & Hp). pose proof Hp as (_ & _ & I & g & E & _).
  pose proof (keys_above_size m (upper I)) as Hk. destruct ki as [lo hi]. cbn [lower upper] in *.
  eapply wp_mono.
  { eapply (wp_range_query fuel (set_latches l1 s) Γ D m path lo hi w I g);
      [by apply Inv_lat|done|done|destruct Hhi; unfold END_KEY; lia|by destruct Hlo|done|].
    simpl. clear -Hf Hk Hl1. lia. }
  intros res s2 (l2 & -> & Hl2 & Hans). simpl in Hl2. exists l2. split; [done|].
  split; [clear -Hl1 Hl2; lia|done].
Qed.
End search.
