(* ===== verification/DexaRun.v ===== *)
(** * Runs of the baseline trees

    Every operation is a step of the abstract tree, and so is every sequence of
    them; the well-formedness of a tree without its table. *)
From S2P Require Import Prelude Version Interval Clock VersionHistory VersionedLeaf.
From S2P Require Import DexaLocking DexaCell DexaTree DexaSmo DexaDescent DexaScan DexaDispatch.
From S2P Require Import DexaKeys DexaInv DexaSplit DexaGuard DexaRepair DexaWrite DexaRead DexaTable.
From S2P Require Import DexaRefine DexaRange.
#[local] Set Default Proof Using "Type*".

(** ** A well-formed tree *)
Section typed.
Context {P S : Type} `{!VersionStore P S, !VersionStoreLaws P S}.
Context (F N : nat).
Implicit Types (s : MVBPlusTree S) (b c : BlockRef) (I : Interval) (d D : nat).

(** The block is the root of a balanced search tree of a depth for the keys of
    an interval; every record has the versions of some history. *)
Inductive typed_at s : nat → Interval → BlockRef → Prop :=
  | typed_leaf I b rs :
      blocks s !! b = Some (Leaf rs) → sorted_by vr_key rs →
      (∀ r, r ∈ rs → Interval.contains I (vr_key r) = true ∧
        ∃ h : History P, vs_ok (vr_key r) (version_index r) h) →
      length rs ≤ N → (b ≠ root_block s → N / 2 ≤ length rs) → typed_at s 0 I b
  | typed_index d I b keys cs :
      blocks s !! b = Some (Index keys cs) → seps_ok I keys →
      length cs = Datatypes.S (length keys) → 1 ≤ length keys ≤ F - 2 →
      (b ≠ root_block s → (F - 3) / 2 ≤ length keys) → NoDup cs →
      (∀ i c, cs !! i = Some c → typed_at s d (child_interval keys i I) c) →
      typed_at s (Datatypes.S d) I b.

Lemma Inv_typed_at s Γ D m d I b :
  Inv F N s Γ D m → Γ !! b = Some (mkTy d I) → typed_at s d I b.
Proof using Type.
  intros HI. revert I b. induction d as [|d IH]; intros I b Hb;
    destruct (inv_store _ _ _ _ _ _ HI _ _ Hb) as ([keys cs|rs] & Hn & Hok).
  - destruct Hok as (? & ? & _). done.
  - destruct Hok as (_ & Hrep & Hl & Hfull). cbn [t_keys] in Hrep. eapply typed_leaf; [done|apply Hrep| |done|done].
    intros r Hr. split; [by eapply leaf_key_in|]. destruct (lr_ok _ _ Hrep r Hr) as (h & _ & Hok). by exists h.
  - destruct Hok as (d' & [= <-] & Hs & Hl & Hr & Hfull & Ht). eapply typed_index; try done.
    + apply NoDup_alt. intros i j c Hi Hj.
      by destruct (parent_unique F N s Γ D m b b _ _ _ _ _ _ _ _ c i j HI Hb Hb Hn Hn Hi Hj).
    + intros i c Hi. apply IH. by apply Ht.
  - destruct Hok as (? & _). done.
Qed.

Definition well_formed s : Prop :=
  ∃ D, D ≤ 64 ∧ typed_at s D ALL_KEYS (root_block s) ∧ root_height s = 1%Z ∧ obsolete s = ∅.

Lemma Inv_well_formed s Γ D m : Inv F N s Γ D m → well_formed s.
Proof using Type.
  intros HI. exists D. split; [by eapply depth_bound|]. split; [|split; apply HI].
  eapply Inv_typed_at; [done|]. by eapply inv_root.
Qed.
End typed.

Section run.
Context {P S : Type} `{!VersionStore P S, !VersionStoreLaws P S}.
Context (F N : nat) (HF : 5 ≤ F) (HN : 3 ≤ N) (st : LockingStrategy).
Context (st_ok : split_seals (latch_type st) = false).
Context (me : Tid) (Key_default : Z) (Payload_default : P) (is_weaver : bool).
Context (version_index_new : Z → P → Version → S).
Context (new_ok : ∀ k p v,
  (0 ≤ v < VERSION_BOUND)%Z → vs_ok k (version_index_new k p v) [(v, Some p)]).
Local Abbreviation St := (MVBPlusTree S).
Local Abbreviation olc := (is_optimistic st).
Local Abbreviation tree_step := (tree_step Key_default Payload_default olc me).
Local Abbreviation tree_steps := (tree_steps Key_default Payload_default olc me).
Local Abbreviation dispatch :=
  (dispatch (P := P) F N st false me Key_default Payload_default is_weaver version_index_new).
Local Abbreviation dispatch_all :=
  (dispatch_all (P := P) F N st false me Key_default Payload_default is_weaver version_index_new).
Local Abbreviation tree_good := (tree_good F N).
Implicit Types (s : St) (m : Table P) (n : nat) (op : CRUDOperation P) (c : ClockSt).
Implicit Types (ops : list (bool * CRUDOperation P)).

(** The scan along the links of the vWeaver is not the one of this dispatch. *)
Definition op_supported op : Prop :=
  op_ok op ∧ (is_weaver = true → match op with Range _ _ | RangeSi _ => False | _ => True end).

(** Fuel for an operation: the descents, and a leaf of a scan per key at most. *)
Definition enough_for (fuel : nat) s m : Prop := 2 * length (latches s) + 200 + size m ≤ fuel.

Lemma set_clock_id s : set_clock (clock s) s = s.
Proof using Type. by destruct s. Qed.

Lemma wp_range fuel s m n w c' (ki : Interval) op :
  tree_good (Datatypes.S n) s m → enough_for fuel s m → is_weaver = false →
  is_u64 (lower ki) → is_u64 (upper ki) → (lower ki ≤ upper ki)%Z → (w < U64_MAX)%Z →
  clock_time c' = clock_time (clock s) → tree_good (Datatypes.S n) (set_clock c' s) m →
  (∀ l, range_answer m ki w l → tree_step (clock s) m op (MatchedRecords l) m c') →
  wp (range_arm (P := P) st is_weaver fuel ki w) (set_clock c' s) (λ res s', ∃ m', tree_good n s' m' ∧
    tree_step (clock s) m op res m' (clock s') ∧ length (latches s') ≤ length (latches s)).
Proof.
  intros Hgood Hf Hwv Hlo Hhi Hle Hw Ht Hgood' Hstep. unfold range_arm. rewrite Hwv.
  pose proof Hgood' as ((Γ & D & HI) & _). apply wp_bind. eapply wp_mono.
  { eapply (wp_range_lazy F N HF HN st st_ok fuel (set_clock c' s) Γ D m ki w); [done..|].
    unfold enough_for in Hf. simpl. clear -Hf. lia. }
  intros l s' (ls & -> & Hl & Hans). apply wp_ret. exists m. split; [|split; [|done]].
  - apply tree_good_latches. eapply tree_good_le; [done|clear; lia].
  - apply Hstep. by destruct ki.
Qed.

Lemma wp_dispatch_op fuel s m n toss op :
  op_supported op → tree_good (Datatypes.S n) s m → enough_for fuel s m →
  wp (dispatch fuel toss op) s (λ res s', ∃ m', tree_good n s' m' ∧
    tree_step (clock s) m op res m' (clock s') ∧ length (latches s') ≤ length (latches s)).
Proof.
  intros [Hop Hwv] Hgood Hf. assert (enough fuel s) as He by (unfold enough_for, enough in *; clear -Hf; lia).
  destruct op as [|k p|k p|k|k w|k| | | | |ki w|ki| | |]; try done; simpl in Hop.
  - by eapply wp_empty.
  - by eapply (wp_insert F N HF HN).
  - by eapply (wp_update F N HF HN).
  - by eapply (wp_delete F N HF HN).
  - destruct Hop. by eapply (wp_point F N HF HN).
  - by eapply (wp_point_si F N HF HN).
  - by apply (wp_peek F N HF HN st st_ok me Key_default Payload_default is_weaver version_index_new
      new_ok fuel s m n toss false).
  - by apply (wp_peek F N HF HN st st_ok me Key_default Payload_default is_weaver version_index_new
      new_ok fuel s m n toss true).
  - by apply (wp_pop F N HF HN st st_ok me Key_default Payload_default is_weaver version_index_new
      new_ok fuel s m n toss false).
  - by apply (wp_pop F N HF HN st st_ok me Key_default Payload_default is_weaver version_index_new
      new_ok fuel s m n toss true).
  - destruct Hop as (Hlo & Hhi & Hle & Hw). rewrite -{1}(set_clock_id s).
    eapply (wp_range fuel s m n w); try done; [by destruct is_weaver; [destruct (Hwv eq_refl)|]|..].
    + by rewrite set_clock_id.
    + intros l Hans. by apply TS_range.
  - destruct Hop as (Hlo & Hhi & Hle).
    destruct (Clock.current_version_for_reader (clock s) me) as [w c'] eqn:Hr.
    destruct (tree_good_reader F N me _ _ _ _ _ Hgood Hr) as (Hgood' & Hw & Ht).
    eapply (wp_snapshot me s); [exact Hr|].
    eapply (wp_range fuel s m n w); try done; [by destruct is_weaver; [destruct (Hwv eq_refl)|]|].
    intros l Hans. by eapply TS_range_si.
Qed.

Lemma tree_step_size c m op res m' c' : tree_step c m op res m' c' → size m' ≤ Datatypes.S (size m).
Proof using Type.
  assert (∀ v op res m', leaf_step Key_default Payload_default olc v m op res m' →
    size m' ≤ Datatypes.S (size m)) as Hleaf.
  { intros v op' res' m1 Hs. assert (∀ k h, size (<[k := h]> m) ≤ Datatypes.S (size m)) as Hins.
    { intros k h. rewrite (map_size_insert (M := gmap Z)). case_match; [apply le_S, le_n|apply le_n]. }
    destruct Hs; try apply Hins; apply le_S, le_n. }
  destruct 1; try (by eapply Hleaf); apply le_S, le_n.
Qed.

(** A run needs no more fuel than its last operation. *)
Lemma wp_dispatch_all fuel ops s m :
  Forall (λ o, op_supported o.2) ops → tree_good (length ops) s m →
  2 * length (latches s) + 200 + size m + length ops ≤ fuel →
  wp (dispatch_all fuel ops) s (λ ress s', ∃ m', tree_steps (clock s) m ops ress m' (clock s') ∧
    tree_good 0 s' m' ∧ length (latches s') ≤ length (latches s)).
Proof.
  revert s m. induction ops as [|[toss op] ops IH]; intros s m Hops Hgood Hf.
  - apply wp_ret. exists m. by split; [constructor|].
  - apply Forall_cons in Hops as [Hop Hops]. simpl in Hgood, Hf |- *. apply wp_bind.
    eapply wp_mono; [eapply (wp_dispatch_op fuel s m (length ops) toss op); [done|done|]|].
    { unfold enough_for. clear -Hf. lia. }
    intros res s1 (m1 & Hgood1 & Hstep & Hl1). pose proof (tree_step_size _ _ _ _ _ _ Hstep) as Hsz.
    apply wp_bind. eapply wp_mono; [apply (IH s1 m1); [done|done|]|].
    { clear -Hf Hl1 Hsz. lia. }
    intros ress s2 (m2 & Hsteps & Hgood2 & Hl2). apply wp_ret. exists m2.
    split; [by econstructor|]. split; [done|]. clear -Hl1 Hl2. lia.
Qed.

(** A new tree stands for the empty table. *)
Lemma make_leaf_rep : leaf_rep ([] : list (VersionedRecordPoint S)) (∅ : Table P).
Proof using Type.
  split.
  - constructor.
  - by intros r ?%elem_of_nil.
  - intros k. rewrite (lookup_empty (M := gmap Z)). by intros [? ?].
Qed.

Lemma make_good l n :
  (Z.of_nat n + 1 < VERSION_BOUND)%Z → tree_good n (set_latches l (make : St)) (∅ : Table P).
Proof using HF HN.
  intros Hn. split; [|split].
  - exists {[0 := mkTy 0 ALL_KEYS]}, 0. split; cbn [root_block root_height blocks next_block obsolete set_latches make].
    + by rewrite lookup_singleton_eq.
    + intros b ty [<- <-]%lookup_singleton_Some. exists (Leaf []). rewrite lookup_singleton_eq. split; [done|].
      split; [done|]. split; [|split; [simpl; lia|done]]. cbn [t_keys]. rewrite restrict_all; [apply make_leaf_rep|].
      intros k h. by rewrite (lookup_empty (M := gmap Z)).
    + intros b c d I J k [<- _]%lookup_singleton_Some [<- _]%lookup_singleton_Some. done.
    + by intros b ty [<- <-]%lookup_singleton_Some.
    + intros b node [<- _]%lookup_singleton_Some. lia.
    + intros k h. by rewrite (lookup_empty (M := gmap Z)).
    + done.
    + done.
  - unfold clock_ok. simpl. unfold START_VERSION in *. lia.
  - intros k h. by rewrite (lookup_empty (M := gmap Z)).
Qed.
End run.
