(* ===== verification/DexaLinks.v ===== *)
(** * Lists of the vWeaver and the links between them

    A list of the vWeaver implements the history of its key. A link leads from a
    version to the next key as it was when the version was replaced: what a scan
    of an older version needs to know of the keys in between. *)
From S2P Require Import Prelude Version Tower Interval VersionHistory VersionLists VersionedLeaf.
From S2P Require Import DexaTree DexaScan DexaDispatch DexaKeys DexaWeaver DexaTable DexaRefine DexaRange.
#[local] Set Default Proof Using "Type*".

(** ** What a reader of an old version can see of a history *)
Section upto.
Context {P : Type}.
Implicit Types (h : History P) (u v w : Version).
Local Open Scope Z_scope.

Definition upto u h : History P := filter (λ e, e.1 ≤ u) h.

Lemma upto_cons u w o h : upto u ((w, o) :: h) = if decide (w ≤ u) then (w, o) :: upto u h else upto u h.
Proof. done. Qed.

Lemma upto_all u h : hist_ok h → newest h ≤ u → upto u h = h.
Proof.
  intros Hok Hu. apply filter_all. intros e He. pose proof (hist_ok_le h e Hok He). lia.
Qed.

Lemma upto_upto u v h : v ≤ u → upto v (upto u h) = upto v h.
Proof.
  intros Hv. unfold upto. apply list_filter_filter_l. intros e He. lia.
Qed.

Lemma hist_at_upto u v h : v ≤ u → hist_at (upto u h) v = hist_at h v.
Proof. intros Hv. unfold hist_at. fold (upto v (upto u h)) (upto v h). by rewrite upto_upto. Qed.

Lemma hist_at_head v h : hist_at h v = e ← head (upto v h); (e.1,.) <$> e.2.
Proof. done. Qed.

(** Two events of a history that follow each other. *)
Definition replaced h w s : Prop := ∃ o o' h1 h2, h = h1 ++ (s, o') :: (w, o) :: h2.

Lemma replaced_cons h e w s : replaced h w s → replaced (e :: h) w s.
Proof. intros (o & o' & h1 & h2 & ->). by exists o, o', (e :: h1), h2. Qed.

Lemma replaced_newest h w s : hist_ok h → replaced h w s → w < s ≤ newest h.
Proof.
  intros Hok (o & o' & h1 & h2 & ->). split.
  - destruct Hok as [Hs _ _]. rewrite fmap_app in Hs. apply StronglySorted_app in Hs as (_ & _ & Hs).
    apply StronglySorted_inv in Hs as [_ Hs]. by apply Forall_cons in Hs as [? _].
  - apply (hist_ok_le _ (s, o') Hok). apply elem_of_app. right. by left.
Qed.

(** What replaced the newest event up to a version came after that version. *)
Lemma replaced_after h u w s :
  hist_ok h → replaced h w s → fst <$> head (upto u h) = Some w → u < s.
Proof.
  intros Hok (o & o' & h1 & h2 & Heq) Hw. destruct (decide (u < s)) as [|Hs]; [done|]. exfalso.
  pose proof (replaced_newest h w s Hok ltac:(by exists o, o', h1, h2)) as [Hlt _].
  destruct Hok as [Hsort _ _].
  rewrite Heq fmap_app in Hsort. apply StronglySorted_app in Hsort as (Hab & H1 & _).
  assert (upto u h = upto u h1 ++ (s, o') :: upto u ((w, o) :: h2)) as Hu.
  { rewrite Heq. unfold upto. rewrite filter_app (filter_cons (λ e : Event P, e.1 ≤ u) (s, o')).
    rewrite decide_True //. simpl. lia. }
  rewrite Hu in Hw. destruct (upto u h1) as [|e l] eqn:E; simpl in Hw; injection Hw as Hw; [lia|].
  assert (e ∈ h1) as He.
  { assert (e ∈ upto u h1) as He by (rewrite E; by left). by apply list_elem_of_filter in He as [_ ?]. }
  specialize (Hab e.1 s (list_elem_of_fmap_2 fst _ _ He) ltac:(by left)). simpl in Hab. lia.
Qed.

(** Whether the payload a reader of [v] sees was never deleted since. *)
Definition lasting h v : Prop := ∀ w, (w, None) ∈ h → w ≤ v.
End upto.

(** ** Nodes of one key *)
Section nodes.
Context {P : Type}.
Local Abbreviation Node := (VWeaverNodeSt P).
Implicit Types (n : Node) (h : History P) (k : Z) (o : option P) (u v w : Version).
Local Open Scope Z_scope.

Fixpoint keyed k n : Prop :=
  let '(WNode next v_ridgy key _ _ _) := n in
  key = k ∧ match next with Some n => keyed k n | None => True end ∧
  match v_ridgy with Some n => keyed k n | None => True end.

Lemma keyed_key k n : keyed k n → Weaver.wn_key n = k.
Proof. destruct n. by intros [? _]. Qed.

Lemma keyed_weave k lvl n n' : keyed k n → Weaver.weave lvl n = Some n' → keyed k n'.
Proof.
  induction n as [nx r k' o v l _ IH] using weaver_ind. cbn [Weaver.weave]. intros Hk.
  case_match; [|by intros [= <-]]. destruct r as [m|]; [|done]. apply IH; [done|]. by destruct Hk as (_ & _ & ?).
Qed.

Lemma keyed_append toss k n o v n' : keyed k n → Weaver.append toss n o v = Some n' → keyed k n'.
Proof.
  intros Hk. destruct toss; simpl.
  - unfold Weaver.append_tower. intros (m & Hm & [= <-])%bind_Some.
    simpl. split; [by apply keyed_key|]. split; [done|]. by eapply keyed_weave.
  - intros [= <-]. simpl. split; [by apply keyed_key|done].
Qed.

Lemma keyed_find k n v b n' : keyed k n → Weaver.find_from n v b = Some (Some n') → keyed k n'.
Proof.
  induction n as [nx r k' o w l IHx IHr] using weaver_ind. cbn [Weaver.find_from]. intros Hk.
  pose proof Hk as (_ & Hx & Hr).
  destruct ((l <? SENTINEL_LEVEL) && (v <? w)).
  - destruct r as [m|], nx as [m'|]; [| |by apply (IHx m')|done];
      (destruct (v <? Weaver.wn_version m); [by apply (IHr m)|]); [by apply (IHx m')|done].
  - destruct ((w <=? v) && _); intros [= <-]; exact Hk.
Qed.

(** The node that stands for the history of a key. *)
Record node_for k n h : Prop := {
  nf_events : events (forget n) = h;
  nf_wf : frugal_wf (forget n);
  nf_keyed : keyed k n;
}.

Lemma node_for_head k n h :
  node_for k n h → head h = Some (Weaver.wn_version n, Weaver.wn_payload n) ∧ Weaver.wn_key n = k.
Proof.
  intros [<- _ Hk]. split; [|by apply keyed_key]. by rewrite events_head forget_version forget_payload.
Qed.

Lemma upto_events (f : AtomicFrugalList P) v m :
  frugal_wf f → head (filter (λ x, fn_version x ≤ v) (iter_from f)) = Some m →
  frugal_wf m ∧ upto v (events f) = events m ∧ fn_version m ≤ v.
Proof.
  intros Hwf Hm.
  assert (m ∈ filter (λ x : AtomicFrugalList P, fn_version x ≤ v) (iter_from f)) as Hin.
  { destruct (filter _ _); [done|]. injection Hm as ->. by left. }
  apply list_elem_of_filter in Hin as [Hv Hin]. split; [by eapply iter_wf|]. split; [|done].
  destruct (iter_suffix f m Hwf Hin) as (pre & Heq & Hpre). unfold events, upto.
  rewrite (filter_fmap_ext _ _ (λ x : AtomicFrugalList P, fn_version x ≤ v)) //. f_equal.
  assert (filter (λ x : AtomicFrugalList P, fn_version x ≤ v) pre = []) as Hnone.
  { destruct (filter (λ x : AtomicFrugalList P, fn_version x ≤ v) pre) as [|x l] eqn:E; [done|].
    rewrite Heq filter_app E in Hm. injection Hm as ->.
    assert (m ∈ m :: l) as Hm by (by left). rewrite -E in Hm. apply list_elem_of_filter in Hm as [_ Hm%Hpre]. lia. }
  rewrite Heq filter_app Hnone /=. apply filter_all. intros x Hx.
  pose proof (iter_version_le m x ltac:(by eapply iter_wf) Hx). lia.
Qed.

(** What a search from a node finds. *)
Definition found_at k h v (b : bool) (res : option Node) : Prop :=
  match head (upto v h) with
  | Some (w, o) =>
      if b || match o with Some _ => true | None => false end
      then ∃ n', res = Some n' ∧ node_for k n' (upto v h) else res = None
  | None => res = None
  end.

Lemma node_find k n h v b :
  node_for k n h → ∃ res, Weaver.find_from n v b = Some res ∧ found_at k h v b res.
Proof.
  intros [<- Hwf Hk]. pose proof (weaver_find_from n v b) as Hf. unfold Frugal.find_from in Hf.
  rewrite (find_from_spec (forget n) v Hwf) in Hf. cbn [mbind option_bind] in Hf.
  destruct (Weaver.find_from n v b) as [res|] eqn:E; [|done]. injection Hf as Hf. exists res. split; [done|].
  unfold found_at.
  destruct (head (filter (λ x, fn_version x ≤ v) (iter_from (forget n)))) as [m|] eqn:Em; simpl in Hf.
  - destruct (upto_events _ v m Hwf Em) as (Hwf' & -> & _). rewrite events_head. unfold Frugal.node_live in Hf.
    destruct (fn_payload m) eqn:Ep; rewrite ?Ep /= in Hf |- *.
    + rewrite orb_true_r in Hf |- *. destruct res as [n'|]; [|done]. injection Hf as <-. exists n'.
      split; [done|]. split; [done|done|by eapply keyed_find].
    + rewrite orb_false_r in Hf |- *. destruct b; [|by destruct res].
      destruct res as [n'|]; [|done]. injection Hf as <-. exists n'.
      split; [done|]. split; [done|done|by eapply keyed_find].
  - assert (upto v (events (forget n)) = []) as ->; [|by destruct res].
    unfold events, upto. rewrite (filter_fmap_ext _ _ (λ x : AtomicFrugalList P, fn_version x ≤ v)) //.
    by destruct (filter _ _).
Qed.

Definition index_for k n h : Prop := weaver_ok n h ∧ keyed k n.

Lemma index_node k n h : index_for k n h → node_for k n h ∧ hist_ok h.
Proof. intros [[Hh He Hwf _] Hk]. by split. Qed.

#[export] Program Instance Weaver_laws : VersionStoreLaws P Node := {| vs_ok := index_for |}.
Next Obligation. intros k n h Hok. by apply index_node in Hok as [_ ?]. Qed.
Next Obligation. intros k n h v [Hok _] _. by apply weaver_find_at. Qed.
Next Obligation. intros k n h [Hok _]. simpl. f_equal. by apply weaver_live_ok. Qed.
Next Obligation. intros k n h [Hok _] _. by apply weaver_newest_ok. Qed.
Next Obligation.
  intros c k n h v p [Hok Hk] Hv. destruct (weaver_append_ok c n h (Some p) v Hok Hv) as (n' & Hn' & Hok').
  exists n'. split; [done|]. split; [done|]. by eapply keyed_append.
Qed.
Next Obligation.
  intros c k n h v p [Hok Hk] _ Hv. destruct (weaver_append_ok c n h (Some p) v Hok Hv) as (n' & Hn' & Hok').
  exists n'. split; [done|]. split; [done|]. by eapply keyed_append.
Qed.
Next Obligation.
  intros c k n h v [Hok Hk] Hv. destruct (weaver_delete_ok c n h v Hok Hv) as (n' & Hn' & Hok').
  exists n'. split; [done|]. split; [done|]. simpl in Hn'. unfold Weaver.delete in Hn'.
  case_match; [by eapply keyed_append|by injection Hn' as <-].
Qed.
Next Obligation. intros cs k n h Hok. by exists n. Qed.

Lemma weaver_new_for k p v : 0 ≤ v < VERSION_BOUND → vs_ok k (Weaver.new k p v) [(v, Some p)].
Proof. intros Hv. split; [by apply weaver_new_ok|done]. Qed.
End nodes.

(** ** Links *)
Section links.
Context {P : Type}.
Local Abbreviation Node := (VWeaverNodeSt P).
Implicit Types (m : Table P) (links : gmap (Z * Version) Node) (n : Node) (h : History P).
Implicit Types (j k : Z) (u v w s : Version) (I : Interval) (res : list (Z * P)).
Local Open Scope Z_scope.

(** The key [k] was linked to [k'] when the version [s] replaced [w]; no key in
    between had a version by then. *)
Definition link_ok m k w n : Prop := ∃ s h k' h',
  m !! k = Some h ∧ m !! k' = Some h' ∧ k < k' ∧ replaced h w s ∧
  node_for k' n (upto s h') ∧ upto s h' ≠ [] ∧
  ∀ j hj, k < j < k' → m !! j = Some hj → upto s hj = [].

Definition links_ok m links : Prop := ∀ k w n, links !! (k, w) = Some n → link_ok m k w n.
Definition hists_ok m : Prop := ∀ k h, m !! k = Some h → hist_ok h.

Definition visible m v k (p : P) : Prop := ∃ h w, m !! k = Some h ∧ hist_at h v = Some (w, p).

(** The records found along the links from the key [k] on: records a reader may
    see, and all those up to the last one found that were not deleted since. *)
Record walked m I v k res : Prop := {
  wk_sorted : StronglySorted Z.lt res.*1;
  wk_sound j p : (j, p) ∈ res → k ≤ j ≤ upper I ∧ visible m v j p;
  wk_complete j h w p e : k ≤ j → e ∈ res.*1 → j ≤ e → m !! j = Some h →
    hist_at h v = Some (w, p) → lasting h v → (j, p) ∈ res;
}.

Lemma head_upto u v h e : head (upto u h) = Some e → e.1 ≤ v ≤ u → head (upto v h) = Some e.
Proof.
  intros He Hv. rewrite -(upto_upto u v h); [|lia]. destruct (upto u h) as [|e' l]; [done|].
  injection He as ->. unfold upto.
  rewrite filter_cons. by rewrite decide_True; [|destruct Hv].
Qed.

Lemma hist_at_hidden s v h : v ≤ s → upto s h = [] → hist_at h v = None.
Proof. intros Hv Hs. rewrite hist_at_head -(upto_upto s v h) // Hs. done. Qed.

Lemma walked_nil m I v k : walked m I v k [].
Proof. split; [constructor|by intros j p ?%elem_of_nil|by intros j h w p e _ ?%elem_of_nil]. Qed.

(** The walk goes on from a greater key if what lies before it cannot be seen. *)
Lemma walked_skip m I v k k' res :
  k ≤ k' → walked m I v k' res →
  (∀ j h w p, k ≤ j < k' → m !! j = Some h → hist_at h v = Some (w, p) → ¬ lasting h v) →
  walked m I v k res.
Proof.
  intros Hk [Hs Hf Hc] Hno. split; [done| |].
  - intros j p Hj. destruct (Hf j p Hj) as [Hr Hv]. split; [lia|done].
  - intros j h w p e Hj He Hle Hm Ha Hl. destruct (decide (k' ≤ j)) as [Hle'|]; [by eapply (Hc j h w p e)|].
    exfalso. by apply (Hno j h w p); [lia|..].
Qed.

Lemma walked_cons m I v k p res :
  k ≤ upper I → visible m v k p → walked m I v (k + 1) res → walked m I v k ((k, p) :: res).
Proof.
  intros Hk Hv [Hs Hf Hc]. split.
  - simpl. constructor; [done|]. rewrite Forall_forall. intros j Hj.
    apply list_elem_of_fmap in Hj as ([j' q] & -> & Hj). apply Hf in Hj as [? _]. simpl. lia.
  - intros j q [[= -> ->]|Hj]%elem_of_cons; [split; [lia|done]|]. destruct (Hf j q Hj). split; [lia|done].
  - intros j h w q e Hj He Hle Hm Ha Hl. destruct (decide (j = k)) as [->|Hne].
    + destruct Hv as (h' & w' & Hm' & Ha'). rewrite Hm in Hm'. injection Hm' as <-.
      rewrite Ha in Ha'. injection Ha' as _ <-. by left.
    + right. simpl in He. apply elem_of_cons in He as [->|He]; [lia|].
      eapply (Hc j h w q e); [lia|done..].
Qed.

Local Open Scope nat_scope.
Lemma ridgy_ok fuel links m I v n k h u last_key :
  hists_ok m → links_ok m links → m !! k = Some h → node_for k n (upto u h) → upto u h ≠ [] →
  (v ≤ u)%Z → (lower I ≤ k)%Z → keys_above m k < fuel →
  ∃ res, ridgy fuel links I v (Some n) last_key = Some (default last_key (last res.*1), res) ∧
    walked m I v k res ∧
    (is_Some (Weaver.wn_payload n) → Interval.contains I k = true → is_Some (hist_at h v) → k ∈ res.*1).
Proof.
  intros Hm Hlinks. revert n k h u last_key. induction fuel as [|fuel IH]; [lia|].
  intros n k h u last_key Hk Hn Hne Hv Hlo Hf. cbn [ridgy].
  pose proof (Hm _ _ Hk) as Hok. destruct (node_for_head _ _ _ Hn) as [Hhd Hkey].
  unfold node_id. rewrite Hkey.
  assert (∀ lk, ∃ res, ridgy fuel links I v (links !! (k, Weaver.wn_version n)) lk =
    Some (default lk (last res.*1), res) ∧ walked m I v (k + 1) res) as Hnext.
  { intros lk. destruct (links !! (k, Weaver.wn_version n)) as [n'|] eqn:El.
    - destruct (Hlinks _ _ _ El) as (s & h0 & k' & h' & Hk0 & Hk' & Hlt & Hrep & Hn' & Hne' & Hhid).
      rewrite Hk in Hk0. injection Hk0 as <-.
      assert (u < s)%Z as Hus by (eapply replaced_after; [done|done|by rewrite Hhd]).
      destruct (IH n' k' h' s lk) as (res & Hres & Hw & _); [done..|lia|lia| |].
      { pose proof (keys_above_lt m k k' k' ltac:(lia) ltac:(by eexists)). lia. }
      exists res. split; [done|]. eapply walked_skip; [|done|]; [lia|].
      intros j hj w p Hj Hmj Ha. assert (upto s hj = []) as Hnil by (eapply Hhid; [|done]; lia).
      by rewrite (hist_at_hidden s) in Ha; [|lia|].
    - exists []. split; [by destruct fuel|apply walked_nil]. }
  assert ((∀ w p, hist_at h v = Some (w, p) → ¬ lasting h v) →
    (is_Some (Weaver.wn_payload n) → hist_at h v = None) →
    ∃ res, ridgy fuel links I v (links !! (k, Weaver.wn_version n)) last_key =
      Some (default last_key (last res.*1), res) ∧ walked m I v k res ∧
      (is_Some (Weaver.wn_payload n) → Interval.contains I k = true → is_Some (hist_at h v) → k ∈ res.*1))
    as Hskip.
  { intros Hno Hnone. destruct (Hnext last_key) as (res & Hres & Hw). exists res. split; [done|].
    split; [|intros Hu _ [? Hs]; by rewrite Hnone in Hs]. eapply walked_skip; [|done|]; [lia|]. intros j hj w p Hj Hmj Ha.
    assert (j = k) as -> by lia. rewrite Hk in Hmj. injection Hmj as <-. by eapply Hno. }
  destruct (Weaver.wn_payload n) as [q|] eqn:Eq.
  2:{ apply Hskip; [|by intros [? ?]]. intros w p Ha Hl.
    destruct (decide (Weaver.wn_version n ≤ v)%Z) as [Hle|Hgt].
    - rewrite hist_at_head (head_upto u v h _ Hhd) //= in Ha.
    - apply Hgt, Hl. assert ((Weaver.wn_version n, None) ∈ upto u h) as Hin.
      { destruct (upto u h); [done|]. injection Hhd as ->. by left. }
      by apply list_elem_of_filter in Hin as [_ ?]. }
  destruct (Interval.contains I k) eqn:Ec; cbn [negb].
  2:{ exists []. split; [done|]. split; [apply walked_nil|done]. }
  destruct (node_find k n (upto u h) v false Hn) as (found & -> & Hfound). cbn [mbind option_bind].
  unfold found_at in Hfound. rewrite (upto_upto u v) // in Hfound.
  pose proof (hist_at_head v h) as Ha. destruct (head (upto v h)) as [[w [p|]]|] eqn:Eh; simpl in Hfound, Ha.
  - destruct Hfound as (n2 & -> & Hn2). destruct (node_for_head _ _ _ Hn2) as [Hhd2 Hkey2].
    rewrite Eh in Hhd2. injection Hhd2 as Hw2 Hp2. rewrite -Hp2 Hkey2. cbn [mbind option_bind].
    destruct (Hnext k) as (res & -> & Hw). cbn [mbind option_bind]. exists ((k, p) :: res). split.
    + f_equal. f_equal. rewrite fmap_cons last_cons. by destruct (last res.*1).
    + split; [|intros _ _ _; by left].
      apply walked_cons; [|by exists h, w|done]. apply contains_spec in Ec. lia.
  - rewrite Hfound. apply Hskip; [|done]. intros w' p'. by rewrite Ha.
  - rewrite Hfound. apply Hskip; [|done]. intros w' p'. by rewrite Ha.
Qed.
End links.
