(* ===== verification/DexaWeaverScan.v ===== *)
(** * Scans along the links of the vWeaver

    A scan returns; what it finds a reader may see, in order; and of what the
    reader may see it misses nothing but keys deleted since. *)
From S2P Require Import Prelude Version Interval VersionHistory VersionLists VersionedLeaf.
From S2P Require Import DexaLocking DexaCell DexaTree DexaSmo DexaDescent DexaScan DexaDispatch DexaWeaver.
From S2P Require Import DexaKeys DexaInv DexaSplit DexaGuard DexaRepair DexaWrite DexaRead DexaTable.
From S2P Require Import DexaRefine DexaRange DexaLinks.
#[local] Set Default Proof Using "Type*".

(** ** The tree under its links *)
Lemma wp_on_tree {P A} (c : Comp (MVBPlusTree (VWeaverNodeSt P)) A) (w : WeaverTree P) Q :
  wp c (tree w) (λ a s, Q a (mkWeaver s (k_ridgy w))) → wp (on_tree c) w Q.
Proof. unfold wp, on_tree. by destruct (c (tree w)) as [[a s]|]. Qed.

Section leaf.
Context {P : Type}.
Local Abbreviation Node := (VWeaverNodeSt P).
Implicit Types (m : Table P) (rs : list (VersionedRecordPoint Node)) (I J : Interval) (v : Version).

(** The first record a reader can see, as a node of its list. *)
Definition first_seen m v rs (found : option Node) : Prop :=
  match found with
  | None => ∀ r p, r ∈ rs → ¬ visible m v (vr_key r) p
  | Some n => ∃ i r h p, rs !! i = Some r ∧ m !! vr_key r = Some h ∧ node_for (vr_key r) n (upto v h) ∧
      visible m v (vr_key r) p ∧ ∀ j r' p', j < i → rs !! j = Some r' → ¬ visible m v (vr_key r') p'
  end.

Lemma not_visible m v k h p : m !! k = Some h → hist_at h v = None → ¬ visible m v k p.
Proof. intros Hk Ha (h' & w & Hk' & Ha'). rewrite Hk in Hk'. injection Hk' as <-. by rewrite Ha in Ha'. Qed.

Lemma first_seen_cons m v r rs found :
  (∀ p, ¬ visible m v (vr_key r) p) → first_seen m v rs found → first_seen m v (r :: rs) found.
Proof.
  intros Hr. destruct found as [n|]; simpl.
  - intros (i & x & h & p & Hi & Hrest & Hn & Hp & Hlt). exists (S i), x, h, p. split_and!; [done..|].
    intros [|j] r' p' Hj; simpl; [by intros [= <-]|]. apply Hlt. lia.
  - intros Hno x p [->|Hx]%elem_of_cons; [done|by apply Hno].
Qed.

Lemma find_weaver_ok m v rs :
  (∀ r, r ∈ rs → ∃ h, m !! vr_key r = Some h ∧ vs_ok (vr_key r) (version_index r) h) →
  ∃ found, find_weaver v rs = Some found ∧ first_seen m v rs found.
Proof.
  induction rs as [|r rs IH]; intros Hok.
  { exists None. split; [done|]. by intros r p ?%elem_of_nil. }
  destruct (Hok r ltac:(by left)) as (h & Hh & [Hn _]%index_node).
  destruct (node_find _ _ _ v false Hn) as (res & Hres & Hfound).
  cbn [find_weaver]. unfold Weaver.find. rewrite Hres. cbn [mbind option_bind].
  unfold found_at in Hfound. pose proof (hist_at_head v h) as Ha.
  assert (hist_at h v = None → res = None → ∃ found, (match res with Some n => Some (Some n)
    | None => find_weaver v rs end) = Some found ∧ first_seen m v (r :: rs) found) as Hskip.
  { intros Hno ->. destruct IH as (found & Hf & Hseen); [intros; apply Hok; by right|].
    exists found. split; [done|]. apply first_seen_cons; [|done]. intros p. by eapply not_visible. }
  destruct (head (upto v h)) as [[w [p|]]|] eqn:Eh; simpl in Hfound, Ha; [|by apply Hskip..].
  destruct Hfound as (n' & -> & Hn'). exists (Some n'). split; [done|].
  exists 0, r, h, p. split_and!; [done|done|done|by exists h, w|]. intros j r' p' Hj. lia.
Qed.

(** The records of a leaf from the key [lo] on, and what they say of the table. *)
Definition leaf_seen m v J lo hi (found : option Node) : Prop :=
  match found with
  | None => ∀ k p, (lo ≤ k ≤ Z.min hi (upper J))%Z → ¬ visible m v k p
  | Some n => ∃ k h p, (lo ≤ k ≤ hi)%Z ∧ m !! k = Some h ∧ node_for k n (upto v h) ∧ visible m v k p ∧
      ∀ j p', (lo ≤ j < k)%Z → ¬ visible m v j p'
  end.

Lemma skip_while_in (I : Interval) rs :
  (∀ r, r ∈ rs → Interval.contains I (vr_key r) = true) →
  skip_while (λ r : VersionedRecordPoint Node, negb (Interval.contains I (vr_key r))) rs = rs.
Proof. destruct rs as [|r rs]; intros Hin; [done|]. simpl. by rewrite Hin; [|left]. Qed.

Lemma leaf_first m J v lo hi rs :
  leaf_rep rs (restrict J m) → Interval.contains J lo = true → (lo ≤ hi)%Z →
  let I := Interval.new lo hi in
  ∃ in_range found, records_in I rs = Some in_range ∧
    find_weaver v (skip_while (λ r, negb (Interval.contains I (vr_key r))) in_range) = Some found ∧
    leaf_seen m v J lo hi found.
Proof.
  intros Hrep Hlo%contains_spec Hle I. pose proof (lr_sorted _ _ Hrep) as Hs.
  set (q := λ r : VersionedRecordPoint Node, (lo ≤ vr_key r ≤ hi)%Z).
  assert (∀ k p, (lo ≤ k ≤ Z.min hi (upper J))%Z → visible m v k p → ∃ r, r ∈ filter q rs ∧ vr_key r = k) as Hdom.
  { intros k p Hk (h & w & Hh & _). destruct (lr_dom _ _ Hrep k) as (r & Hr & Hrk).
    { rewrite restrict_lookup (proj2 (contains_spec _ _)); [by rewrite Hh|]. lia. }
    exists r. split; [|done]. apply list_elem_of_filter. split; [|done]. unfold q. lia. }
  destruct (find_weaver_ok m v (filter q rs)) as (found & Hf & Hseen).
  { intros r [_ Hr]%list_elem_of_filter. destruct (lr_ok _ _ Hrep r Hr) as (h & Hh & Hok).
    rewrite restrict_lookup in Hh. case_match; [|done]. by exists h. }
  exists (filter q rs), found. split; [by apply records_in_filter|]. split.
  { rewrite skip_while_in //. intros r [Hq _]%list_elem_of_filter. by apply contains_spec. }
  destruct found as [n|]; simpl in Hseen |- *.
  - destruct Hseen as (i & r & h & p & Hi & Hh & Hn & Hp & Hlt).
    pose proof (list_elem_of_lookup_2 _ _ _ Hi) as [Hq Hr]%list_elem_of_filter.
    destruct (leaf_key_in _ _ _ r Hrep Hr) as [HJ%contains_spec _].
    exists (vr_key r), h, p. split_and!; [apply Hq|apply Hq|done..|]. intros j p' Hj Hv.
    destruct (Hdom j p') as (r' & [i' Hi']%list_elem_of_lookup & <-); [unfold q in Hq; lia|done|].
    apply (Hlt i' r' p'); [|done|done]. pose proof (sorted_filter q rs Hs) as Hsf.
    destruct (decide (i' < i)) as [|Hge]; [done|]. exfalso.
    assert (vr_key r ≤ vr_key r')%Z; [|lia].
    eapply (sorted_le_lookup (vr_key <$> filter q rs) i i'); [exact Hsf| | |lia];
      by rewrite list_lookup_fmap ?Hi ?Hi'.
  - intros k p Hk Hv. destruct (Hdom k p Hk Hv) as (r & Hr & <-). by apply (Hseen r p).
Qed.
End leaf.

(** ** What a scan answers *)
Section answer.
Context {P : Type}.
Local Abbreviation Node := (VWeaverNodeSt P).
Implicit Types (m : Table P) (links : gmap (Z * Version) Node) (v : Version).
Implicit Types (lo mid hi : Z) (res : list (Z * P)) (n : Node) (h : History P) (k : Z).
Local Open Scope Z_scope.

Record scan_answer m lo hi v res : Prop := {
  sa_sorted : StronglySorted Z.lt res.*1;
  sa_sound k p : (k, p) ∈ res → lo ≤ k ≤ hi ∧ visible m v k p;
  sa_complete k h w p : lo ≤ k ≤ hi → m !! k = Some h → hist_at h v = Some (w, p) → lasting h v →
    (k, p) ∈ res;
}.

Lemma answer_key m lo hi v res j : scan_answer m lo hi v res → j ∈ res.*1 → lo ≤ j ≤ hi.
Proof. intros [_ Hs _] ([k p] & -> & Hk)%list_elem_of_fmap. by apply Hs in Hk as [? _]. Qed.

Lemma scan_answer_app m lo mid hi v l1 l2 :
  lo ≤ mid ≤ hi → scan_answer m lo mid v l1 → scan_answer m (mid + 1) hi v l2 →
  scan_answer m lo hi v (l1 ++ l2).
Proof.
  intros Hmid [H1 S1 C1] [H2 S2 C2]. split.
  - rewrite fmap_app. apply StronglySorted_app_2; [|done..].
    intros x y ([k p] & -> & Hx%S1)%list_elem_of_fmap ([k' p'] & -> & Hy%S2)%list_elem_of_fmap. simpl. lia.
  - intros k p [Hk%S1|Hk%S2]%elem_of_app; (split; [lia|apply Hk]).
  - intros k h w p Hk Hm Ha Hl. apply elem_of_app. destruct (decide (k ≤ mid)); [left|right].
    + eapply C1; [lia|done..].
    + eapply C2; [lia|done..].
Qed.

Lemma keys_above_mono m (u u' : Z) : u ≤ u' → (keys_above m u' ≤ keys_above m u)%nat.
Proof.
  intros Hu. unfold keys_above. apply subseteq_size. intros x. rewrite !elem_of_filter. intros [Hx Hd].
  split; [lia|done].
Qed.

(** A leaf, and the links that leave it: all up to the key [e]. *)
Definition leaf_walked fuel links (I : Interval) v (J : Interval) (found : option Node)
    : option (Z * list (Z * P)) :=
  match found with
  | Some weaver_node =>
      '(last_key, result) ← ridgy fuel links I v (Some weaver_node) (Weaver.wn_key weaver_node);
      Some (inc_key last_key, result)
  | None => Some (inc_key (upper J), [])
  end.

Lemma seen_payload k n h v w p :
  node_for k n (upto v h) → hist_at h v = Some (w, p) → Weaver.wn_version n = w ∧ is_Some (Weaver.wn_payload n).
Proof.
  intros [Hhd _]%node_for_head. rewrite hist_at_head Hhd. simpl. destruct (Weaver.wn_payload n) as [q|]; [|done].
  intros [= <- <-]. by split.
Qed.

Lemma leaf_walked_ok fuel links m J v lo hi found :
  hists_ok m → links_ok m links → leaf_seen m v J lo hi found → Interval.contains J lo = true → lo ≤ hi →
  (keys_above m (lo - 1) ≤ fuel)%nat →
  ∃ e res, leaf_walked fuel links (Interval.new lo hi) v J found = Some (inc_key e, res) ∧ lo ≤ e ∧
    scan_answer m lo (Z.min e hi) v res ∧
    match found with
    | Some _ => e ≤ hi ∧ ∃ k, lo ≤ k ≤ e ∧ is_Some (m !! k)
    | None => e = upper J
    end.
Proof.
  intros Hm Hl Hseen Hlo%contains_spec Hle Hf. destruct found as [n|]; simpl in Hseen.
  - destruct Hseen as (k & h & p & Hk & Hh & Hn & Hv & Hno). cbn [leaf_walked].
    assert (∃ w, hist_at h v = Some (w, p)) as [w Ha].
    { destruct Hv as (h' & w & Hh' & Ha). rewrite Hh in Hh'. injection Hh' as <-. by exists w. }
    assert (keys_above m k < keys_above m (lo - 1))%nat as Hsz
      by (eapply keys_above_lt; [split; [|apply Z.le_refl]; lia|by rewrite Hh]).
    destruct (ridgy_ok fuel links m (Interval.new lo hi) v n k h v (Weaver.wn_key n)) as (res & -> & Hw & Hin);
      [done..| |done|simpl; lia|lia|].
    { intros Hnil. by rewrite hist_at_head Hnil in Ha. }
    specialize (Hin (proj2 (seen_payload k n h v w p Hn Ha)) ltac:(by apply contains_spec) ltac:(by rewrite Ha)).
    destruct Hw as [Ws Wf Wc]. destruct (last res.*1) as [e|] eqn:El.
    2:{ apply last_None in El. rewrite El in Hin. by apply elem_of_nil in Hin. }
    assert (e ∈ res.*1) as He by (apply last_Some in El as [l' ->]; apply elem_of_app; right; by left).
    assert (∀ j, j ∈ res.*1 → j ≤ e) as Hmax.
    { intros j Hj. apply last_Some in El as [l' El]. rewrite El in Ws Hj.
      apply elem_of_app in Hj as [Hj|Hj%list_elem_of_singleton]; [|lia].
      apply Z.lt_le_incl, (StronglySorted_app_1_elem_of Z.lt _ _ _ _ Ws); [done|by left]. }
    assert (∀ j, j ∈ res.*1 → k ≤ j ≤ hi) as Hrange.
    { intros j ([j' q] & -> & Hj)%list_elem_of_fmap. by apply Wf in Hj as [? _]. }
    pose proof (Hrange e He). pose proof (Hmax k Hin). exists e, res. cbn [default mbind option_bind].
    split; [done|]. split; [lia|]. split; [|split; [lia|exists k; split; [lia|by rewrite Hh]]].
    rewrite Z.min_l; [|lia]. split; [done| |].
    + intros j q Hj. pose proof (list_elem_of_fmap_2 fst _ _ Hj) as Hj1. simpl in Hj1.
      pose proof (Hmax j Hj1). destruct (Wf j q Hj). split; [lia|done].
    + intros j hj u q Hj Hmj Haj Hlj. destruct (decide (k ≤ j)) as [Hkj|].
      * eapply (Wc j hj u q e); [done|done|lia|done..].
      * exfalso. apply (Hno j q); [lia|]. by exists hj, u.
  - exists (upper J), []. split; [done|]. split; [lia|]. split; [|done]. split; [constructor|by intros k p ?%elem_of_nil|].
    intros k h w p Hk Hmk Ha _. exfalso. apply (Hseen k p); [lia|]. by exists h, w.
Qed.

(** ** What a scan passes by

    The version a reader sees of the key [k1] was replaced while [k2] was deleted,
    so that its link leads to the deletion; the deletion was undone since, and got
    a link to a greater key that the reader sees. *)
Definition passed_by m links v hi k1 k2 : Prop := ∃ h1 w1 p1 t n3 p3,
  m !! k1 = Some h1 ∧ hist_at h1 v = Some (w1, p1) ∧
  links !! (k1, w1) = Some t ∧ Weaver.wn_key t = k2 ∧ Weaver.wn_payload t = None ∧
  links !! node_id t = Some n3 ∧ is_Some (Weaver.wn_payload n3) ∧ Weaver.wn_key n3 ≤ hi ∧
  visible m v (Weaver.wn_key n3) p3.

Definition first_visible m v lo k : Prop := lo ≤ k ∧ ∀ j p, lo ≤ j < k → ¬ visible m v j p.

Definition passes m links v lo hi res : Prop := ∀ k1 k2,
  first_visible m v lo k1 → passed_by m links v hi k1 k2 → k2 ∉ res.*1.

Lemma passed_by_keys m links v hi k1 k2 :
  hists_ok m → links_ok m links → passed_by m links v hi k1 k2 →
  (∃ p, visible m v k1 p) ∧ is_Some (m !! k1) ∧ is_Some (m !! k2) ∧ k1 < k2 ≤ hi.
Proof.
  intros Hm Hl (h1 & w1 & p1 & t & n3 & p3 & Hk1 & Ha & Ht & <- & _ & Hn3 & _ & Hhi & _).
  destruct (Hl _ _ _ Ht) as (s & h & k2 & h2 & _ & Hk2 & Hlt & _ & Hn & _).
  destruct (Hl _ _ _ Hn3) as (s' & h' & k3 & h3 & _ & _ & Hlt' & _ & Hn' & _).
  apply node_for_head in Hn as [_ Ht2], Hn' as [_ Hk3]. rewrite Hk3 in Hhi. rewrite Ht2 in Hlt' |- *.
  split_and!; [by exists p1, h1, w1|by rewrite Hk1|by rewrite Hk2|done|lia].
Qed.

(** From such a key on the links lead past the deleted one. *)
Lemma ridgy_passes fuel links m I v n k1 h1 k2 hi last_key e res :
  hists_ok m → links_ok m links → m !! k1 = Some h1 → node_for k1 n (upto v h1) →
  passed_by m links v hi k1 k2 → lower I ≤ k1 → upper I = hi → (keys_above m (k1 - 1) ≤ fuel)%nat →
  ridgy fuel links I v (Some n) last_key = Some (e, res) → (k2 ∉ res.*1) ∧ ∃ k3, k3 ∈ res.*1 ∧ k2 < k3.
Proof.
  intros Hm Hl Hk1 Hn Hpass Hlo Hup Hf.
  destruct (passed_by_keys _ _ _ _ _ _ Hm Hl Hpass) as (_ & Hs1 & Hs2 & Hlt & Hle).
  destruct Hpass as (h & w1 & p1 & t & n3 & p3 & Hh & Ha & Ht & Hkey & Hp & Hn3 & Hp3 & Hhi & Hvis).
  rewrite Hk1 in Hh. injection Hh as <-.
  destruct (Hl _ _ _ Hn3) as (s & ht & k3 & h3 & Hht & Hk3 & Hlt3 & Hrep & Hnode3 & Hne3 & _).
  rewrite Hkey in Hht, Hlt3. pose proof (node_for_head _ _ _ Hnode3) as [Hhd3 Hkey3]. rewrite Hkey3 in Hhi, Hvis.
  pose proof (keys_above_lt m (k1 - 1) k1 k1 ltac:(lia) Hs1).
  pose proof (keys_above_lt m k1 k2 k2 ltac:(lia) Hs2).
  pose proof (keys_above_lt m k2 k3 k3 ltac:(lia) ltac:(by eexists)).
  destruct fuel as [|[|fuel]]; [lia|lia|].
  destruct (seen_payload _ _ _ _ _ _ Hn Ha) as [Hw [q Hq]]. pose proof (node_for_head _ _ _ Hn) as [Hhd Hkn].
  cbn [ridgy]. rewrite Hq {1}Hkn (proj2 (contains_spec I k1)); [|lia]. cbn [negb].
  destruct (node_find k1 n (upto v h1) v false Hn) as (found & -> & Hfound). cbn [mbind option_bind].
  unfold found_at in Hfound. rewrite (upto_upto v v h1) in Hfound; [|done].
  rewrite Hhd Hq in Hfound. destruct Hfound as (n' & -> & Hn').
  pose proof (node_for_head _ _ _ Hn') as [Hhd' ->]. rewrite Hhd Hq in Hhd'. injection Hhd' as _ <-.
  cbn [mbind option_bind]. unfold node_id at 1. rewrite Hkn Hw Ht. cbn [ridgy]. rewrite Hp Hn3.
  destruct (Hl _ _ _ Ht) as (s1 & h & k' & h' & Hh & Hk' & _ & Hrep1 & Hnodet & _).
  rewrite Hk1 in Hh. injection Hh as <-. pose proof (node_for_head _ _ _ Hnodet) as [Hhdt Hkt].
  assert (k' = k2) as -> by by rewrite -Hkt. rewrite Hht in Hk'. injection Hk' as <-.
  assert (v < s1) as Hs1' by (eapply replaced_after; [exact (Hm _ _ Hk1)|exact Hrep1|by rewrite Hhd Hw]).
  assert (s1 < s) as Hs' by (eapply replaced_after; [exact (Hm _ _ Hht)|exact Hrep|by rewrite Hhdt]).
  destruct (ridgy_ok fuel links m I v n3 k3 h3 s k1) as (res3 & -> & [_ Hsound _] & Hin); [done..|lia|lia|lia|].
  cbn [mbind option_bind]. intros [= _ <-].
  assert (k3 ∈ res3.*1) as Hk3in.
  { apply Hin; [done|apply contains_spec; lia|]. destruct Hvis as (hv & w & Hhv & Hav).
    rewrite Hk3 in Hhv. injection Hhv as <-. by rewrite Hav. }
  split; [|exists k3; split; [by right|done]]. simpl. intros [->|Hk]%elem_of_cons; [lia|].
  apply list_elem_of_fmap in Hk as ([j p] & -> & Hj). apply Hsound in Hj as [Hj _]. simpl in Hlt3, Hj. lia.
Qed.

Lemma leaf_walked_passes fuel links m J v lo hi found e res :
  hists_ok m → links_ok m links → leaf_seen m v J lo hi found → lo ≤ hi →
  (keys_above m (lo - 1) ≤ fuel)%nat →
  leaf_walked fuel links (Interval.new lo hi) v J found = Some (e, res) → ∀ k1 k2,
  first_visible m v lo k1 → passed_by m links v hi k1 k2 →
  match found with
  | Some _ => (k2 ∉ res.*1) ∧ ∃ k3, k3 ∈ res.*1 ∧ k2 < k3
  | None => res = [] ∧ upper J < k1
  end.
Proof.
  intros Hm Hl Hseen Hle Hf Hwalk k1 k2 [Hlo1 Hfirst] Hpass.
  destruct (passed_by_keys _ _ _ _ _ _ Hm Hl Hpass) as ([p1 Hv1] & _ & _ & Hlt).
  destruct found as [n|]; simpl in Hseen, Hwalk.
  - destruct Hseen as (k & h & p & Hk & Hh & Hn & Hv & Hno).
    assert (k = k1) as ->.
    { destruct (Z.lt_trichotomy k k1) as [|[|]]; [|done|].
      - exfalso. by apply (Hfirst k p); [lia|].
      - exfalso. by apply (Hno k1 p1); [lia|]. }
    destruct (ridgy _ _ _ _ _ _) as [[lk res']|] eqn:Er; [|done]. injection Hwalk as _ <-.
    eapply (ridgy_passes fuel links m (Interval.new lo hi) v n k1 h k2 hi); [done..| |exact Er].
    pose proof (keys_above_mono m (lo - 1) (k1 - 1) ltac:(lia)). lia.
  - injection Hwalk as _ <-. split; [done|]. apply Z.nle_gt. intros Hle1. by apply (Hseen k1 p1); [lia|].
Qed.

Lemma passes_app fuel links m J v lo hi found e e' res rest :
  hists_ok m → links_ok m links → leaf_seen m v J lo hi found → lo ≤ hi →
  (keys_above m (lo - 1) ≤ fuel)%nat →
  leaf_walked fuel links (Interval.new lo hi) v J found = Some (e', res) →
  lo ≤ e → (∀ j, j ∈ res.*1 → j ≤ e) → (found = None → e = upper J) →
  (∀ j, j ∈ rest.*1 → e < j) → passes m links v (e + 1) hi rest → passes m links v lo hi (res ++ rest).
Proof.
  intros Hm Hl Hseen Hle Hf Hwalk Hloe He HJ Hrest Hpass k1 k2 Hk1 Hk2. pose proof (leaf_walked_passes
    fuel links m J v lo hi found e' res Hm Hl Hseen Hle Hf Hwalk k1 k2 Hk1 Hk2) as Hw.
  rewrite fmap_app. destruct found as [n|].
  - destruct Hw as (Hno & k3 & Hk3%He & Hlt). intros [?|Hin%Hrest]%elem_of_app; [done|lia].
  - destruct Hw as [-> Hlt]. rewrite -(HJ eq_refl) in Hlt. apply (Hpass k1 k2); [|done].
    destruct Hk1 as [Hlo Hfirst]. split; [lia|]. intros j p Hj. apply Hfirst. lia.
Qed.
End answer.

(** ** The scan *)
Section scan.
Context {P : Type}.
Local Abbreviation Node := (VWeaverNodeSt P).
Context (F N : nat) (HF : 5 ≤ F) (HN : 3 ≤ N) (st : LockingStrategy).
Context (st_ok : split_seals (latch_type st) = false).
Local Abbreviation St := (MVBPlusTree Node).
Local Abbreviation Inv := (Inv F N).
Implicit Types (s : St) (Γ : gmap BlockRef Ty) (m : Table P) (D b fuel : nat) (c : BlockRef).
Implicit Types (links : gmap (Z * Version) Node) (v : Version) (lo hi idx : Z) (J : Interval) (path : Path).

Definition scanned_links m lo hi v s links (res : list (Z * P)) (w : WeaverTree P) : Prop :=
  ∃ l, w = mkWeaver (set_latches l s) links ∧ length l ≤ length (latches s) ∧ scan_answer m lo hi v res ∧
    passes m links v lo hi res.

Lemma leaf_path_next Γ D key path :
  D ≤ 64 → leaf_path Γ D key path → search_from Γ D (take D path) (Z.of_nat (length path - 2)).
Proof using HF HN.
  intros HD (H & Hlen & _). rewrite Hlen. destruct D as [|D']; [by left|]. right. exists D'.
  split; [lia|]. split; [apply path_ok_take; eapply path_ok_le; [done|lia]|].
  intros I g Hg. rewrite lookup_take_lt in Hg; [|lia]. eapply (po_valid _ _ _ _ H D' I); [lia|done].
Qed.

(** The leaf after a leaf that is not the last one: it starts where that one
    ends, and is not the root. *)
Definition aligned s Γ lo : Prop :=
  ∀ c J, Γ !! c = Some (mkTy 0 J) → Interval.contains J lo = true → lower J = lo ∧ c ≠ root_block s.

Lemma aligned_next s Γ D m c J :
  Inv s Γ D m → Γ !! c = Some (mkTy 0 J) → c ≠ root_block s → aligned s Γ (upper J + 1)%Z.
Proof using HF HN.
  intros HI Hc Hroot c' J' Hc' Hin%contains_spec.
  pose proof (inv_nonempty F N _ _ _ _ _ _ _ HI Hc) as Hne.
  assert (D ≠ 0) as HD.
  { intros ->. apply Hroot. by eapply (inv_depth _ _ _ _ _ _ HI c). }
  split.
  - destruct (decide (upper J < lower J')%Z) as [|Hle]; [lia|]. exfalso.
    assert (c = c') as <-.
    { eapply (inv_apart _ _ _ _ _ _ HI _ _ 0 J J' (upper J)); [done|done|..]; apply contains_spec; lia. }
    rewrite Hc in Hc'. injection Hc' as <-. lia.
  - intros ->. rewrite (inv_root _ _ _ _ _ _ HI) in Hc'. by injection Hc' as -> _.
Qed.

(** An aligned leaf has a key. *)
Lemma aligned_key s Γ D m c J lo :
  Inv s Γ D m → aligned s Γ lo → Γ !! c = Some (mkTy 0 J) → Interval.contains J lo = true →
  ∃ k, (lo ≤ k ≤ upper J)%Z ∧ is_Some (m !! k).
Proof using HF HN.
  intros HI Ha Hc Hin. destruct (Ha c J Hc Hin) as [<- Hroot].
  destruct (inv_store _ _ _ _ _ _ HI _ _ Hc) as (node & Hn & Hok).
  destruct node as [keys cs|rs]; [by destruct Hok as (? & ? & _)|].
  destruct Hok as (_ & Hrep & _ & Hfull). specialize (Hfull Hroot). unfold fill_leaf in Hfull.
  destruct rs as [|r rs].
  { change (N / 2 ≤ 0) in Hfull. assert (0 < N / 2) by (apply Nat.div_str_pos; lia). lia. }
  destruct (leaf_key_in _ _ _ r Hrep) as [Hr%contains_spec Hm]; [by left|]. by exists (vr_key r).
Qed.

Lemma inc_key_cases e :
  (e ≤ END_KEY)%Z → (e < END_KEY)%Z ∧ inc_key e = (e + 1)%Z ∨ e = END_KEY ∧ inc_key e = END_KEY.
Proof using Type.
  clear. unfold inc_key. change END_KEY with U64_MAX. intros He. destruct (_ <=? _)%Z eqn:E.
  - apply Z.leb_le in E. left. lia.
  - apply Z.leb_gt in E. right. lia.
Qed.

Lemma wp_scan_loop fuel s links Γ D m path idx lo hi v b :
  Inv s Γ D m → hists_ok m → links_ok m links → search_from Γ D path idx →
  (START_KEY ≤ lo ≤ hi)%Z → (hi < END_KEY)%Z → b ≤ 1 → (b = 0 → aligned s Γ lo) →
  2 * length (latches s) + 70 + 2 * keys_above m (lo - 1) + b < fuel →
  wp (scan_loop st fuel path idx (Interval.new lo hi) v) (mkWeaver s links)
    (scanned_links m lo hi v s links).
Proof.
  intros HI Hm Hlinks. revert s path idx lo b HI.
  induction fuel as [|fuel IH]; intros s path idx lo b HI Hfrom Hlo Hhi Hb Hal Hf; [by apply Nat.nlt_0_r in Hf|].
  pose proof (depth_bound F N _ _ _ _ HI) as HD. cbn [scan_loop]. cbn [Interval.set_lower lower upper Interval.new].
  apply wp_bind, wp_on_tree. eapply wp_mono.
  { eapply (wp_next_leaf_page F N HF HN st st_ok fuel s Γ D m path idx lo);
      [done|apply contains_spec; unfold ALL_KEYS; simpl; lia|done|clear -Hf; lia]. }
  intros path1 s1 (l1 & -> & Hl1 & Hp1). cbn [tree k_ridgy]. cbv zeta.
  pose proof Hp1 as (Hok1 & Hlen1 & J & g & E1 & Hc1 & Hv1).
  destruct (leaf_interval F N HF HN s Γ D m path1 lo J g HI Hp1 E1) as (Ht & HJ & HJ0 & Hroot).
  rewrite (leaf_path_last Γ D lo path1 J g Hp1 E1).
  pose proof (leaf_path_next Γ D lo path1 HD Hp1) as Hfrom1. rewrite {1}Hlen1.
  replace (S D - 1) with D by (clear; lia).
  apply wp_bind, wp_on_tree. unfold upgrade_append. apply wp_leaf_upgrade; [done| |].
  2:{ intros g' l Hl. cbn beta iota. cbn [negb]. simpl in Hl. eapply wp_mono.
      - eapply (IH (set_latches l s) _ _ lo b); [by apply Inv_lat|done..|simpl; clear -Hf Hl Hl1; lia].
      - intros res w (l' & -> & Hl' & Hans). simpl in Hl'. exists l'. split; [done|].
        split; [clear -Hl' Hl Hl1; lia|done]. }
  intros g' l Hl Hg' Hk. simpl in Hl. cbn beta iota. cbn [negb].
  destruct (inv_store _ _ _ _ _ _ HI _ _ Ht) as (node & Hn & Hnok).
  destruct node as [keys cs|rs]; [by destruct Hnok as (? & ? & _)|]. destruct Hnok as (_ & Hrep & _).
  apply wp_bind, wp_on_tree. unfold guard_deref_unsafe.
  assert (guard_valid_local g' = true) as -> by (unfold guard_valid_local; destruct Hk as [-> | ->]; done).
  apply wp_bind. eapply wp_read_page; [rewrite Hg'; exact Hn|]. apply wp_ret. cbn [tree k_ridgy].
  apply wp_bind. eapply wp_lift; [done|]. apply wp_bind. eapply wp_lift; [done|].
  destruct (leaf_first m J v lo hi rs Hrep Hc1 ltac:(lia)) as (in_range & found & Hin & Hfind & Hseen).
  apply wp_bind. eapply wp_lift; [exact Hin|]. apply wp_bind. eapply wp_lift; [exact Hfind|].
  apply wp_bind, wp_gets. cbn [k_ridgy].
  destruct (leaf_walked_ok fuel links m J v lo hi found Hm Hlinks Hseen Hc1) as (e & res & Hwalk & He & Hans & Hprog);
    [lia|clear -Hf; lia|].
  apply wp_bind. eapply wp_lift; [exact Hwalk|]. cbn beta iota.
  assert (e ≤ END_KEY)%Z as HeE by (destruct found; [destruct Hprog as [? _]; lia|lia]).
  assert (∀ rest, (∀ j, j ∈ rest.*1 → (e < j)%Z) → passes m links v (e + 1) hi rest →
    passes m links v lo hi (res ++ rest)) as Happ.
  { intros rest. eapply (passes_app fuel links m J v lo hi found e); [done..|lia| |exact Hwalk|done| |].
    - clear -Hf. lia.
    - intros j Hj. apply (answer_key _ _ _ _ _ _ Hans) in Hj. lia.
    - by intros ->. }
  destruct (_ || _) eqn:Estop.
  { apply wp_ret. exists l. split; [done|]. split; [clear -Hl Hl1; lia|]. split.
    2:{ rewrite -(app_nil_r res). apply Happ; [by intros j ?%elem_of_nil|by intros k1 k2 _ _ ?%elem_of_nil]. }
    rewrite Z.min_r in Hans; [done|]. apply orb_true_iff in Estop. rewrite Z.ltb_lt Z.leb_le in Estop.
    destruct (inc_key_cases e HeE) as [[_ Hinc]|[-> _]]; [rewrite Hinc in Estop|]; lia. }
  apply orb_false_iff in Estop as [Hstop%Z.ltb_ge Hstop'%Z.leb_gt].
  destruct (inc_key_cases e HeE) as [[Hend Hinc]|[-> Hinc]]; rewrite Hinc in Hstop Hstop' |- *; [|lia].
  rewrite Z.min_l in Hans; [|lia].
  assert (∃ b', b' ≤ 1 ∧ (b' = 0 → aligned s Γ (e + 1)%Z) ∧
    2 * keys_above m e + b' < 2 * keys_above m (lo - 1) + b) as (b' & Hb' & Hal' & Hless).
  { destruct found as [n|].
    - destruct Hprog as (_ & k & Hk' & Hmk). exists 1. split; [done|]. split; [done|].
      pose proof (keys_above_lt m (lo - 1) e k ltac:(lia) Hmk). clear -H. lia.
    - subst e. assert (g_block g ≠ root_block s) as Hne by (intros E%Hroot%HJ0; lia).
      exists 0. split; [lia|]. split; [intros _; by eapply aligned_next|].
      destruct b as [|b].
      + destruct (aligned_key s Γ D m _ J lo HI (Hal eq_refl) Ht Hc1) as (k & Hk' & Hmk).
        pose proof (keys_above_lt m (lo - 1) (upper J) k ltac:(lia) Hmk). clear -H. lia.
      + pose proof (keys_above_mono m (lo - 1) (upper J) ltac:(lia)). clear -H. lia. }
  apply wp_bind. rewrite Hlen1. replace (S D - 1) with D by (clear; lia). rewrite -Hlen1.
  eapply wp_mono.
  - eapply (IH (set_latches l s) _ _ (e + 1)%Z b'); [by apply Inv_lat|done|lia|done|done|done|].
    replace (e + 1 - 1)%Z with e by lia. simpl. clear -Hf Hl Hl1 Hless. lia.
  - intros rest w (l' & -> & Hl' & Hans' & Hpass). simpl in Hl'. apply wp_ret. exists l'. split; [done|].
    split; [clear -Hl' Hl Hl1; lia|]. split; [eapply (scan_answer_app m lo e hi); [lia|done..]|].
    apply Happ; [|done]. intros j Hj. apply (answer_key _ _ _ _ _ _ Hans') in Hj. lia.
Qed.

Lemma wp_weaver_scan fuel s links Γ D m lo hi v :
  Inv s Γ D m → hists_ok m → links_ok m links → (START_KEY ≤ lo ≤ hi)%Z → (hi < END_KEY)%Z →
  2 * length (latches s) + 71 + 2 * size m < fuel →
  wp (weaver_scan_dispatch st fuel (Interval.new lo hi) v) (mkWeaver s links)
    (scanned_links m lo hi v s links).
Proof.
  intros HI Hm Hlinks Hlo Hhi Hf. pose proof (keys_above_size m (lo - 1)) as Hk.
  eapply (wp_scan_loop fuel s links Γ D m [] 0%Z lo hi v 1); [done..|by left|done|done|lia|done|].
  clear -Hf Hk. lia.
Qed.
End scan.
