(* ===== verification/DexaLinkStep.v ===== *)
(** * The links of the vWeaver, as the tree changes

    A write adds a version to one history and leaves the links true; the link
    that it sets itself leads to the next key of the table. *)
From S2P Require Import Prelude Version Tower Interval Clock VersionHistory VersionLists VersionedLeaf.
From S2P Require Import DexaLocking DexaCell DexaTree DexaSmo DexaDescent DexaScan DexaDispatch DexaWeaver.
From S2P Require Import DexaKeys DexaInv DexaSplit DexaGuard DexaRepair DexaWrite DexaRead DexaTable.
From S2P Require Import DexaRefine DexaRange DexaRun DexaLinks DexaWeaverScan.
#[local] Set Default Proof Using "Type*".

(** ** Tables that only gain versions *)
Section grows.
Context {P : Type}.
Local Abbreviation Node := (VWeaverNodeSt P).
Implicit Types (m : Table P) (links : gmap (Z * Version) Node) (n : Node) (h : History P).
Implicit Types (j k : Z) (u v w s : Version).
Local Open Scope Z_scope.

(** A history with at most a version [v] more. *)
Definition hist_grows v h h' : Prop := h' = h ∨ ∃ o, h' = (v, o) :: h.

Definition grows v m m' : Prop :=
  (∀ k h, m !! k = Some h → ∃ h', m' !! k = Some h' ∧ hist_grows v h h') ∧
  (∀ k h', m' !! k = Some h' → hist_grows v (default [] (m !! k)) h').

Lemma grows_refl v m : grows v m m.
Proof. split; intros k h Hk; [|rewrite Hk; by left]. exists h. split; [done|by left]. Qed.

Lemma grows_insert v m k h' :
  hist_grows v (default [] (m !! k)) h' → grows v m (<[k := h']> m).
Proof.
  intros Hg. split; intros j h Hj.
  - destruct (decide (k = j)) as [->|Hne].
    + rewrite lookup_insert_eq. exists h'. by rewrite Hj in Hg.
    + rewrite lookup_insert_ne //. exists h. split; [done|by left].
  - apply (lookup_insert_Some (M := gmap Z)) in Hj as [[<- <-]|[_ Hj]]; [done|]. rewrite Hj. by left.
Qed.

Lemma hist_grows_kill v h : hist_grows v h (hist_kill v h).
Proof. unfold hist_kill. case_match; [right; by eexists|by left]. Qed.

Lemma leaf_step_grows kd pd olc v m op res m' : leaf_step kd pd olc v m op res m' → grows v m m'.
Proof.
  destruct 1 as [k p|k p h Hk Hl| |k h Hk Hl| | | | | |k h [Hk _] Hl|k h [Hk _] Hl| | |];
    try apply grows_refl; apply grows_insert; rewrite ?Hk; try apply hist_grows_kill; right; by eexists.
Qed.

Lemma hist_grows_upto s v h h' : s < v → hist_grows v h h' → upto s h' = upto s h.
Proof.
  intros Hs [->|[o ->]]; [done|]. rewrite upto_cons decide_False //. lia.
Qed.

Lemma hist_grows_replaced v h h' w s : hist_grows v h h' → replaced h w s → replaced h' w s.
Proof. intros [->|[o ->]]; [done|]. apply replaced_cons. Qed.

Lemma grows_hists v m m' :
  grows v m m' → before v m → 0 ≤ v < VERSION_BOUND → hists_ok m → 
  (∀ k h, m' !! k = Some h → m !! k = None → ∃ p, h = [(v, Some p)]) → hists_ok m'.
Proof.
  intros [_ Hg] Hb Hv Hm Hnew k h' Hk. destruct (m !! k) as [h|] eqn:E.
  - specialize (Hg k h' Hk). rewrite E in Hg. destruct Hg as [->|[o ->]]; [by eapply Hm|].
    apply hist_ok_cons; [by eapply Hm|]. by eapply Hb.
  - destruct (Hnew k h' Hk E) as [p ->]. by apply hist_ok_new.
Qed.

Lemma grows_links v m m' links :
  grows v m m' → before v m → hists_ok m → links_ok m links → links_ok m' links.
Proof.
  intros [Hg Hg'] Hb Hm Hl k w n Hn.
  destruct (Hl k w n Hn) as (s & h & k' & h1 & Hk & Hk' & Hlt & Hrep & Hnode & Hne & Hno).
  destruct (Hg _ _ Hk) as (h' & Hh' & Hgh). destruct (Hg _ _ Hk') as (h1' & Hh1' & Hgh1).
  assert (s < v) as Hs.
  { pose proof (replaced_newest h w s (Hm _ _ Hk) Hrep). destruct (Hb _ _ Hk). lia. }
  rewrite -(hist_grows_upto s v _ _ Hs Hgh1) in Hnode Hne.
  exists s, h', k', h1'. split_and!; [done..|by eapply hist_grows_replaced|done|done|].
  intros j hj Hj Hmj. pose proof (hist_grows_upto s v _ _ Hs (Hg' _ _ Hmj)) as ->.
  destruct (m !! j) as [x|] eqn:E; [by apply (Hno j x)|done].
Qed.

Lemma leaf_step_hists kd pd olc v m op res m' :
  leaf_step kd pd olc v m op res m' → before v m → 0 ≤ v < VERSION_BOUND → hists_ok m → hists_ok m'.
Proof.
  intros Hs Hb Hv Hm. eapply grows_hists; [by eapply leaf_step_grows|done..|]. intros k h' Hk Hnone.
  destruct Hs as [j p|j p h Hj Hl| |j h Hj Hl| | | | | |j h [Hj _] Hl|j h [Hj _] Hl| | |];
    try (by rewrite Hnone in Hk); apply (lookup_insert_Some (M := gmap Z)) in Hk as [[<- <-]|[_ Hk]];
    try (by rewrite Hnone in Hk); try (by rewrite Hnone in Hj).
  rewrite Hnone. by exists p.
Qed.

(** ** The link a write sets *)
Definition next_of m v k (found : option Node) : Prop :=
  match found with
  | None => True
  | Some n => ∃ k' h', m !! k' = Some h' ∧ k < k' ∧ node_for k' n (upto v h') ∧ upto v h' ≠ [] ∧
      ∀ j, k < j < k' → m !! j = None
  end.

Lemma links_insert m links k h w n v o o' :
  links_ok m links → m !! k = Some ((v, o) :: (w, o') :: h) → next_of m v k (Some n) →
  links_ok m (<[(k, w) := n]> links).
Proof.
  intros Hl Hk (k' & h' & Hk' & Hlt & Hn & Hne & Hno) j u x Hx.
  apply (lookup_insert_Some (M := gmap (Z * Version))) in Hx as [[[= <- <-] <-]|[_ Hx]]; [|by apply Hl].
  exists v, ((v, o) :: (w, o') :: h), k', h'. split_and!; [done..| |done|done|].
  - by exists o', o, [], h.
  - intros i hi Hi Hmi. by rewrite (Hno i Hi) in Hmi.
Qed.

(** The version that a node replaced. *)
Lemma node_next k n v o h :
  node_for k n ((v, o) :: h) →
  match wn_next n with
  | Some n' => ∃ o' h', h = (Weaver.wn_version n', o') :: h' ∧ Weaver.wn_key n' = k
  | None => h = []
  end.
Proof.
  intros [He Hwf Hk]. destruct n as [nx r k' o1 w l]. cbn [wn_next]. unfold events in He.
  destruct nx as [n'|]; simpl in He; injection He as -> -> He; [|done].
  change (events (forget n') = h) in He. destruct Hk as (_ & Hk & _).
  pose proof (keyed_key _ _ Hk) as Hkey. pose proof (events_head (forget n')) as Hh.
  rewrite He forget_version forget_payload in Hh. destruct h as [|e h]; [done|]. injection Hh as ->.
  by eexists _, _.
Qed.
End grows.

(** ** The next key *)
Section next.
Context {P : Type}.
Local Abbreviation Node := (VWeaverNodeSt P).
Implicit Types (m : Table P) (n : Node) (h : History P) (rs : list (VersionedRecordPoint Node)).
Implicit Types (k : Z) (v : Version) (J : Interval) (i j : nat).

Lemma node_find_any k n h v :
  node_for k n h → ∃ res, Weaver.find_any n v = Some res ∧
    match res with Some n' => node_for k n' (upto v h) ∧ upto v h ≠ [] | None => upto v h = [] end.
Proof.
  intros Hn. destruct (node_find k n h v true Hn) as (res & Hres & Hfound). exists res. split; [done|].
  unfold found_at in Hfound. destruct (upto v h) as [|[w o] l] eqn:E; simpl in Hfound; [by subst res|].
  destruct Hfound as (n' & -> & Hn'). split; [done|]. discriminate.
Qed.

Lemma leaf_node m J rs i r :
  leaf_rep rs (restrict J m) → rs !! i = Some r →
  ∃ h, m !! vr_key r = Some h ∧ node_for (vr_key r) (version_index r) h.
Proof.
  intros Hrep Hi. destruct (lr_ok _ _ Hrep r) as (h & Hh & [Hn _]%index_node); [by eapply list_elem_of_lookup_2|].
  rewrite restrict_lookup in Hh. case_match; [|done]. by exists h.
Qed.

Lemma leaf_le rs i j r r' :
  sorted_by vr_key rs → rs !! i = Some r → rs !! j = Some r' → i ≤ j → (vr_key r ≤ vr_key r')%Z.
Proof.
  intros Hs Hi Hj Hle. eapply (sorted_le_lookup (vr_key <$> rs) i j); [exact Hs| | |done];
    by rewrite list_lookup_fmap ?Hi ?Hj.
Qed.

(** The first record of a leaf above a key is the next of the table. *)
Lemma leaf_next m v J rs k i r n h :
  leaf_rep rs (restrict J m) → (lower J ≤ k + 1)%Z → rs !! i = Some r → (k < vr_key r)%Z →
  (∀ j r', j < i → rs !! j = Some r' → (vr_key r' ≤ k)%Z) →
  m !! vr_key r = Some h → node_for (vr_key r) n (upto v h) → upto v h ≠ [] → next_of m v k (Some n).
Proof.
  intros Hrep HJ Hi Hk Hlt Hh Hn Hne. exists (vr_key r), h. split_and!; [done..|]. intros j Hj.
  destruct (m !! j) as [hj|] eqn:Ej; [|done]. exfalso.
  destruct (leaf_key_in _ _ _ r Hrep) as [Hin%contains_spec _]; [by eapply list_elem_of_lookup_2|].
  destruct (lr_dom _ _ Hrep j) as (r' & [i' Hi']%list_elem_of_lookup & Hr').
  { rewrite restrict_lookup (proj2 (contains_spec _ _)); [by rewrite Ej|]. lia. }
  destruct (decide (i' < i)) as [Hlt'|Hge].
  - specialize (Hlt i' r' Hlt' Hi'). lia.
  - pose proof (leaf_le rs i i' r r' (lr_sorted _ _ Hrep) Hi Hi' ltac:(lia)). lia.
Qed.
End next.

(** ** The callback of a write *)
Section callback.
Context {P : Type}.
Local Abbreviation Node := (VWeaverNodeSt P).
Context (F N : nat) (HF : 5 ≤ F) (HN : 3 ≤ N) (st : LockingStrategy) (locked : is_optimistic st = false).
Context (st_ok : split_seals (latch_type st) = false).
Local Abbreviation St := (MVBPlusTree Node).
Local Abbreviation Inv := (Inv F N).
Implicit Types (s : St) (Γ : gmap BlockRef Ty) (m : Table P) (D fuel : nat) (rs : list (VersionedRecordPoint Node)).
Implicit Types (links : gmap (Z * Version) Node) (v : Version) (k : Z) (J : Interval) (g : BlockGuard).

Lemma wp_locked_valid s g (Q : bool → St → Prop) :
  guard_valid_local g = true → Q true s → wp (guard_valid st g) s Q.
Proof using locked.
  unfold guard_valid_local, guard_valid. rewrite locked. destruct (g_kind g); try done; intros _; apply wp_ret.
Qed.

Lemma wp_first_above s m v J k g rs pre :
  guard_valid_local g = true → leaf_rep (pre ++ rs) (restrict J m) → (lower J ≤ k + 1)%Z →
  (∀ r, r ∈ pre → (vr_key r ≤ k)%Z) →
  wp (first_above st g k v rs) s (λ res s', s' = s ∧ ∃ found, res = Some found ∧ next_of m v k found).
Proof using locked.
  intros Hg. revert pre. induction rs as [|r rs IH]; intros pre Hrep HJ Hpre; cbn [first_above].
  { apply wp_ret. split; [done|]. by exists None. }
  destruct (k <? vr_key r)%Z eqn:E.
  - apply wp_bind, wp_locked_valid; [done|].
    assert ((pre ++ r :: rs) !! length pre = Some r) as Hi by by rewrite list_lookup_middle.
    destruct (leaf_node m J _ _ r Hrep Hi) as (h & Hh & Hn). destruct (node_find_any _ _ _ v Hn) as (res & Hres & Hspec).
    apply wp_bind. eapply wp_lift; [exact Hres|]. apply wp_ret. split; [done|]. exists res. split; [done|].
    destruct res as [n'|]; [|done]. destruct Hspec. eapply (leaf_next m v J _ k (length pre) r); try done.
    + by apply Z.ltb_lt.
    + intros j r' Hj Hr'. apply Hpre. rewrite lookup_app_l // in Hr'. by eapply list_elem_of_lookup_2.
  - apply wp_bind, wp_ret, wp_bind, wp_locked_valid; [done|]. cbn [negb].
    apply (IH (pre ++ [r])); [by rewrite -app_assoc|done|].
    intros r' [Hr'|Hr'%list_elem_of_singleton]%elem_of_app; [by apply Hpre|]. subst. by apply Z.ltb_ge.
Qed.

Definition neighbour_of m v k s (found : option Node) s' : Prop :=
  ∃ l, s' = set_latches l s ∧ length l ≤ length (latches s) ∧ next_of m v k found.

Lemma wp_find_neighbour fuel s Γ D m k v :
  Inv s Γ D m → is_u64 k → 2 * length (latches s) + 67 < fuel →
  wp (find_neighbour st fuel [] 0%Z k v) s (neighbour_of m v k s).
Proof.
  intros HI Hk Hf. destruct fuel as [|fuel]; [by apply Nat.nlt_0_r in Hf|]. cbn [find_neighbour].
  assert (is_u64 (inc_key k) ∧ (inc_key k ≤ k + 1)%Z) as [Hk' Hle].
  { clear -Hk. destruct Hk as [H0 H1]. unfold is_u64, inc_key. destruct (_ <=? _)%Z eqn:E;
      [apply Z.leb_le in E|apply Z.leb_gt in E]; unfold U64_MAX in *; lia. }
  apply wp_bind. eapply wp_mono.
  { eapply (wp_next_leaf_page F N HF HN st st_ok fuel s Γ D m [] 0%Z);
      [done|by apply all_keys|by left|clear -Hf; lia]. }
  intros path s1 (l1 & -> & Hl1 & Hp). cbv zeta. pose proof Hp as (Hok & Hlen & J & g & E & Hc & Hv).
  destruct (leaf_interval F N HF HN s Γ D m path _ J g HI Hp E) as (Ht & _).
  apply wp_bind. eapply wp_lift; [by eapply leaf_path_last|]. cbn beta iota.
  destruct (inv_store _ _ _ _ _ _ HI _ _ Ht) as (node & Hn & Hnok).
  destruct node as [keys cs|rs]; [by destruct Hnok as (? & ? & _)|]. destruct Hnok as (_ & Hrep & _).
  apply wp_bind. unfold guard_deref. apply wp_bind, wp_locked_valid; [done|].
  apply wp_bind. eapply wp_read_page; [exact Hn|]. apply wp_ret. apply wp_bind. eapply wp_lift; [done|].
  apply contains_spec in Hc. apply wp_bind. eapply wp_mono.
  { apply (wp_first_above _ m v J k g rs []); [done|exact Hrep|clear -Hc Hle; lia|by intros r ?%elem_of_nil]. }
  intros res s2 (-> & found & -> & Hnext). apply wp_bind, wp_locked_valid; [done|]. cbn [negb].
  apply wp_ret. by exists l1.
Qed.

Definition linked m v k s (w : WeaverTree P) : Prop :=
  ∃ l links', w = mkWeaver (set_latches l s) links' ∧ length l ≤ length (latches s) ∧ links_ok m links'.

Lemma linked_same m v k s links : links_ok m links → linked m v k s (mkWeaver s links).
Proof using Type. intros Hl. exists (latches s), links. by rewrite set_latches_id. Qed.

(** A thread without latches, or whose latch is not in its own way. *)
Definition unhindered : Prop := ∀ A pinned leaf (c : Comp St A), holding st pinned leaf c = c.

(** The record that a write left, and the version it replaced. *)
Lemma written_node m J rs k v o h :
  leaf_rep rs (restrict J m) → Interval.contains J k = true → m !! k = Some ((v, o) :: h) →
  hist_ok ((v, o) :: h) →
  ∃ i r n, binary_search_by_key vr_key k rs = inl i ∧ rs !! i = Some r ∧ vr_key r = k ∧
    Weaver.find_any (version_index r) v = Some (Some n) ∧ node_for k n ((v, o) :: h).
Proof using Type.
  intros Hrep Hk Hm Hok. destruct (binary_search_by_key vr_key k rs) as [i|i] eqn:E.
  - destruct (search_found vr_key rs k i E) as (r & Hi & Hr).
    destruct (leaf_node m J rs i r Hrep Hi) as (h' & Hh' & Hn). rewrite Hr Hm in Hh'. injection Hh' as <-.
    destruct (node_find_any _ _ _ v Hn) as (res & Hres & Hspec). rewrite upto_all // in Hspec.
    destruct res as [n|]; [|done]. exists i, r, n. rewrite Hr in Hspec. by destruct Hspec.
  - exfalso. destruct (search_missing vr_key rs k i E) as [_ Hne].
    destruct (lr_dom _ _ Hrep k) as (r & Hr & Hrk); [by rewrite restrict_lookup Hk Hm|]. by apply (Hne r).
Qed.

Lemma wp_weaver_callback fuel pinned s links Γ D m g J k v o h :
  unhindered → Inv s Γ D m → hists_ok m → links_ok m links → Γ !! g_block g = Some (mkTy 0 J) →
  Interval.contains J k = true → is_u64 k → guard_valid_local g = true → m !! k = Some ((v, o) :: h) →
  2 * length (latches s) + 67 < fuel →
  wp (weaver_callback st fuel pinned g k v) (mkWeaver s links) (λ _, linked m v k s).
Proof.
  intros Hfree HI Hm Hl Ht Hk Hu Hg Hmk Hf. unfold weaver_callback.
  destruct (inv_store _ _ _ _ _ _ HI _ _ Ht) as (node & Hn & Hnok).
  destruct node as [keys cs|rs]; [by destruct Hnok as (? & ? & _)|]. destruct Hnok as (_ & Hrep & _).
  destruct (written_node m J rs k v o h Hrep Hk Hmk (Hm _ _ Hmk)) as (i & r & n & Es & Hi & Hr & Hfind & Hnode).
  apply wp_bind, wp_on_tree. unfold guard_deref_unsafe. rewrite Hg.
  apply wp_bind. eapply wp_read_page; [exact Hn|]. apply wp_ret. cbn [tree k_ridgy].
  apply wp_bind. eapply wp_lift; [done|]. apply wp_bind. eapply wp_lift; [done|].
  rewrite Es. apply wp_bind. eapply wp_lift; [done|]. apply wp_bind. eapply wp_lift; [exact Hi|].
  apply wp_bind. eapply wp_lift; [exact Hfind|]. apply wp_bind. eapply wp_lift; [done|].
  apply wp_bind, wp_gets. cbn [k_ridgy]. pose proof (node_next _ _ _ _ _ Hnode) as Hnx.
  destruct (wn_next n) as [n1|]; [|by apply wp_ret, linked_same].
  destruct Hnx as (o1 & h1 & -> & Hkey). unfold node_id. rewrite Hkey.
  destruct (links !! (k, Weaver.wn_version n1)); [by apply wp_ret, linked_same|].
  apply wp_bind.
  assert (∀ found l, length l ≤ length (latches s) → next_of m v k found →
    wp (match found with Some next_weaver_node => link n1 next_weaver_node | None => mret () end)
      (mkWeaver (set_latches l s) links) (λ _, linked m v k s)) as Hset.
  { intros [n'|] l Hll Hnext; [apply wp_modify|apply wp_ret]; exists l; eexists; (split; [done|]); (split; [done|]).
    - unfold node_id. rewrite Hkey. by eapply links_insert.
    - done. }
  case_decide as Hlen.
  - apply wp_bind. destruct (lookup_lt_is_Some_2 rs (S i) Hlen) as [r' Hi'].
    eapply wp_lift; [exact Hi'|]. destruct (leaf_node m J rs _ r' Hrep Hi') as (h' & Hh' & Hn').
    destruct (node_find_any _ _ _ v Hn') as (res & Hres & Hspec). eapply wp_lift; [exact Hres|].
    rewrite -(set_latches_id s). apply Hset; [done|]. destruct res as [n'|]; [|done]. destruct Hspec.
    eapply (leaf_next m v J rs k (S i) r'); try done.
    + apply contains_spec in Hk. clear -Hk. lia.
    + rewrite -Hr. eapply (sorted_lookup (vr_key <$> rs) i (S i)); [apply (lr_sorted _ _ Hrep)| | |clear; lia];
        by rewrite list_lookup_fmap ?Hi ?Hi'.
    + intros j x Hj Hx. rewrite -Hr. eapply (leaf_le rs j i); [apply (lr_sorted _ _ Hrep)|done..|clear -Hj; lia].
  - apply wp_on_tree. rewrite Hfree. eapply wp_mono; [by eapply wp_find_neighbour|].
    intros found s1 (l & -> & Hll & Hnext). cbn [k_ridgy]. by apply Hset.
Qed.
End callback.
