(* ===== verification/DexaWeaverRun.v ===== *)
(** * Runs of a tree of the vWeaver

    Every operation of a tree whose records are lists of the vWeaver returns,
    keeps the links true, and is a step of the table of histories, a scan one
    that may pass by a key that was deleted since. *)
From S2P Require Import Prelude Version Interval Clock VersionHistory VersionLists VersionedLeaf.
From S2P Require Import DexaLocking DexaCell DexaTree DexaSmo DexaDescent DexaScan DexaDispatch DexaWeaver.
From S2P Require Import DexaKeys DexaInv DexaSplit DexaGuard DexaRepair DexaWrite DexaRead DexaTable.
From S2P Require Import DexaRefine DexaRange DexaRun DexaLinks DexaWeaverScan DexaLinkStep.
#[local] Set Default Proof Using "Type*".

(** ** The abstract tree *)
Section spec.
Context {P : Type} (Key_default : Z) (Payload_default : P) (olc : bool) (me : Tid).
Implicit Types (m : Table P) (c : ClockSt) (v w : Version) (k : Z) (p : P).
Implicit Types (op : CRUDOperation P) (res : CRUDOperationResult P).
Local Abbreviation tree_step := (tree_step Key_default Payload_default olc me).

Definition is_range op : bool := match op with Range _ _ | RangeSi _ => true | _ => false end.

Inductive weaver_step c m : CRUDOperation P → CRUDOperationResult P → Table P → ClockSt → Prop :=
  | WS_tree op res m' c' :
      is_range op = false → tree_step c m op res m' c' → weaver_step c m op res m' c'
  | WS_range I v l :
      scan_answer m (lower I) (upper I) v l → weaver_step c m (Range I v) (MatchedRecords l) m c
  | WS_range_si I v c' l :
      Clock.current_version_for_reader c me = (v, c') → scan_answer m (lower I) (upper I) v l →
      weaver_step c m (RangeSi I) (MatchedRecords l) m c'.

Inductive weaver_steps c m : list (bool * CRUDOperation P) → list (CRUDOperationResult P) →
    Table P → ClockSt → Prop :=
  | WSS_nil : weaver_steps c m [] [] m c
  | WSS_cons toss op ops res ress m1 c1 m2 c2 :
      weaver_step c m op res m1 c1 → weaver_steps c1 m1 ops ress m2 c2 →
      weaver_steps c m ((toss, op) :: ops) (res :: ress) m2 c2.

(** A scan stops before the greatest key of all, which it would find twice. *)
Definition weaver_op_ok op : Prop :=
  op_ok op ∧ match op with Range i _ | RangeSi i => (upper i < END_KEY)%Z | _ => True end.

(** A write that succeeds leaves its version in front. *)
Lemma leaf_step_written v m op res m' k :
  leaf_step Key_default Payload_default olc v m op res m' →
  op = Delete k ∨ (∃ p, op = Insert k p ∨ op = Update k p) →
  match res with
  | Deleted _ | Inserted _ | Updated _ => ∃ o h, m' !! k = Some ((v, o) :: h)
  | _ => True
  end.
Proof using Type.
  intros Hs Hop. destruct Hs as [j p|j p h Hj Hl| |j h Hj Hl| | | | | | | | | |]; try done.
  - destruct Hop as [?|(q & [[= -> _]|?])]; [done| |done]. rewrite lookup_insert_eq. by eexists _, _.
  - destruct Hop as [?|(q & [?|[= -> _]])]; [done..|]. rewrite lookup_insert_eq. by eexists _, _.
  - destruct Hop as [[= ->]|(q & [?|?])]; [|done..]. rewrite lookup_insert_eq. unfold hist_kill. rewrite Hl.
    by eexists _, _.
Qed.

Lemma tree_step_hists c m op res m' c' :
  tree_step c m op res m' c' → before (clock_time c) m → (0 ≤ clock_time c < VERSION_BOUND)%Z →
  hists_ok m → hists_ok m'.
Proof using Type. destruct 1; try done; intros; by eapply leaf_step_hists. Qed.

Lemma tree_step_links c m op res m' c' links :
  tree_step c m op res m' c' → before (clock_time c) m → hists_ok m → links_ok m links → links_ok m' links.
Proof using Type.
  destruct 1 as [op res m' _ Hs| | | | |]; try done; intros Hb Hm. eapply grows_links; [|done..].
  by eapply leaf_step_grows.
Qed.
End spec.

Section run.
Context {P : Type} (F N : nat) (HF : 5 ≤ F) (HN : 3 ≤ N) (st : LockingStrategy).
Context (locked : is_optimistic st = false) (st_ok : split_seals (latch_type st) = false).
Local Abbreviation Node := (VWeaverNodeSt P).
Context (free : unhindered (P := P) st).
Context (me : Tid) (Key_default : Z) (Payload_default : P).
Local Abbreviation St := (MVBPlusTree Node).
Local Abbreviation Inv := (Inv F N).
Local Abbreviation leaf_step := (leaf_step Key_default Payload_default false).
Local Abbreviation tree_step := (tree_step Key_default Payload_default false me).
Local Abbreviation weaver_step := (weaver_step Key_default Payload_default false me).
Local Abbreviation weaver_steps := (weaver_steps Key_default Payload_default false me).
Local Abbreviation tree_good := (tree_good F N).
Local Abbreviation dispatch_weaver := (dispatch_weaver F N st false me Key_default Payload_default).
Local Abbreviation dispatch_weaver_all := (dispatch_weaver_all F N st false me Key_default Payload_default).
Implicit Types (s : St) (w : WeaverTree P) (Γ : gmap BlockRef Ty) (m : Table P) (D n fuel : nat).
Implicit Types (links : gmap (Z * Version) Node) (v : Version) (op : CRUDOperation P).
Implicit Types (res : CRUDOperationResult P) (g : BlockGuard) (k : Z) (I : Interval).

Definition weaver_good n w m : Prop :=
  tree_good n (tree w) m ∧ hists_ok m ∧ links_ok m (k_ridgy w).

Definition weaver_enough fuel w m : Prop := 2 * length (latches (tree w)) + 200 + 2 * size m ≤ fuel.

Definition weaver_sim n w m op res w' : Prop :=
  ∃ m', weaver_good n w' m' ∧ weaver_step (clock (tree w)) m op res m' (clock (tree w')) ∧
    length (latches (tree w')) ≤ length (latches (tree w)).

Lemma new_weaver k (p : P) v : (0 ≤ v < VERSION_BOUND)%Z → vs_ok k (Weaver.new k p v) [(v, Some p)].
Proof using Type. apply weaver_new_for. Qed.

(** The writes that link. *)
Definition linking op k append_op : Prop :=
  (∃ p, op = Insert k p ∧ append_op = false) ∨ (∃ p, op = Update k p) ∨ op = Delete k.

Lemma wp_commit_linked fuel (pinned : bool) s links Γ D m g I rs op k res f n append_op :
  Inv s Γ D m → clock_ok (clock s) (S n) → before (clock_time (clock s)) m → hists_ok m → links_ok m links →
  held st g → Γ !! g_block g = Some (mkTy 0 I) → blocks s !! g_block g = Some (Leaf rs) →
  linking op k append_op → Interval.contains I k = true → is_u64 k → (append_op = false → length rs < N) →
  at_leaf st Key_default Payload_default (clock_time (clock s)) f op I m rs res →
  2 * length (latches s) + 67 < fuel →
  wp (commit_linked st me fuel pinned g k f) (mkWeaver s links) (weaver_sim n (mkWeaver s links) m op).
Proof.
  intros HI Hc Hb Hm Hl Hg Ht Hn Hop Hk Hu Hroom (rs' & m1 & Hf & Hstep & Hrep) Hfuel.
  rewrite locked in Hstep.
  assert (leaf_for op I m) as Hfor by (destruct Hop as [(p & -> & _)|[(p & ->)| ->]]; done).
  destruct (leaf_step_lift _ _ _ _ _ _ _ _ _ Hstep Hfor Hb) as (m' & Hstep' & -> & Htouch).
  assert (op = Delete k ∨ ∃ p, op = Insert k p ∨ op = Update k p) as Hop'.
  { destruct Hop as [(p & -> & _)|[(p & ->)| ->]]; [right; exists p; by left|right; exists p; by right|by left]. }
  pose proof (leaf_step_written _ _ _ _ _ _ _ _ k Hstep' Hop') as Hwritten.
  pose proof Hc as (Hv0 & Hv1 & _). set (v := clock_time (clock s)) in *.
  assert (0 ≤ v < VERSION_BOUND)%Z as Hv by lia.
  pose proof (leaf_step_hists _ _ _ _ _ _ _ _ Hstep' Hb Hv Hm) as Hm'.
  pose proof (grows_links _ _ _ _ (leaf_step_grows _ _ _ _ _ _ _ _ Hstep') Hb Hm Hl) as Hl'.
  destruct (committed_ok me _ n Hc) as [Htime Hok].
  unfold commit_linked, start_tx_commit, end_tx_commit.
  apply wp_bind, wp_on_tree, wp_bind, wp_gets. cbn [tree k_ridgy]. rewrite (clock_start me _ n Hc). fold v.
  set (c1 := set_time _ _) in *. apply wp_bind, wp_modify, wp_ret. cbn [tree].
  apply wp_bind, wp_on_tree. eapply wp_guard_deref_mut; [done|exact Hn|]. cbn [k_ridgy].
  apply wp_bind. eapply wp_lift; [exact Hf|]. cbn beta iota.
  apply wp_bind, wp_on_tree, wp_write_block; [by rewrite Hn|]. cbn [tree k_ridgy blocks set_clock].
  set (s1 := set_blocks _ _).
  assert (Inv s1 Γ D m') as HI1.
  { eapply (Inv_set_leaf F N (set_clock c1 s) Γ D m m' _ I rs rs');
      [by apply Inv_set_clock|done..|]. intros j p ->.
    destruct Hop as [(q & [= -> ->] & Happ)|[(q & ?)|?]]; [|done..]. split; [by apply all_keys|by apply Hroom]. }
  apply wp_bind. eapply (wp_mono _ _ (λ _, linked m' v k s1)).
  { assert (∀ o h, m' !! k = Some ((v, o) :: h) →
      wp (weaver_callback st fuel pinned g k v) (mkWeaver s1 links) (λ _, linked m' v k s1)) as Hcb.
    { intros o h Hmk. eapply (wp_weaver_callback F N HF HN st locked st_ok fuel pinned s1 links Γ D m' g I);
        [done..|by apply (held_valid st)|done|exact Hfuel]. }
    destruct res; try (apply wp_ret, linked_same; done); destruct Hwritten as (o & h & Hmk); by eapply Hcb. }
  intros _ w (l & links' & -> & Hll & Hlinks'). apply wp_bind, wp_on_tree, wp_bind, wp_gets, wp_modify. cbn [tree k_ridgy].
  apply wp_ret. exists m'.
  assert (committed me (clock s) = GlobalClock.end_commit c1 me v) as Hcm
    by (unfold committed; by rewrite (clock_start me _ n Hc)).
  cbn [tree clock set_clock set_latches s1 set_blocks latches] in Hll |- *. rewrite -Hcm.
  split; [|split; [|done]].
  - split; [|done]. split; [exists Γ, D; by apply Inv_set_clock, Inv_lat|]. cbn [tree clock set_clock].
    split; [done|]. rewrite Htime. eapply touches_before; [done|done|]. lia.
  - apply WS_tree; [by destruct Hop as [(p & -> & _)|[(p & ->)| ->]]|]. apply TS_commit; [|done]. right; right.
    destruct Hop' as [?|(p & Hp)]; [left; by eexists|right; by eexists _, p].
Qed.

Lemma weaver_good_le n n' w m : weaver_good n w m → n' ≤ n → weaver_good n' w m.
Proof using Type. intros [Hg Hl] Hn. split; [by eapply tree_good_le|done]. Qed.

Lemma wp_linked_arm fuel (pinned : bool) w m n op append_op k f :
  weaver_good (S n) w m → weaver_enough fuel w m → is_u64 k → linking op k append_op →
  (∀ v I m rs, (0 ≤ v < VERSION_BOUND)%Z → leaf_rep rs (restrict I m) → before v m →
    (op = Delete k ∨ (∃ p, op = Update k p) ∨ length rs < N) →
    ∃ res, at_leaf st Key_default Payload_default v f op I m rs res) →
  wp (guard ← on_tree (write_guard (P := P) F N st false fuel append_op k);
      commit_linked st me fuel pinned guard k f) w (weaver_sim n w m op).
Proof.
  destruct w as [s links]. intros (((Γ & D & HI) & Hc & Hb) & Hm & Hl) Hf Hk Hop Hat. cbn [tree k_ridgy] in *.
  unfold weaver_enough in Hf. cbn [tree] in Hf.
  apply wp_bind, wp_on_tree. eapply wp_mono.
  { eapply (wp_write_guard F N HF HN st st_ok fuel s Γ D m append_op k); [done|done|].
    unfold enough. clear -Hf. lia. }
  intros g s1 (Hg & Hcl & Hw & Γ1 & D1 & J & rs & HI1 & Ht & HJ & Hn & Hroom). cbn [tree k_ridgy].
  simpl in Hw. rewrite -Hcl in Hc, Hb.
  assert (append_op = false → length rs < N) as Hroom'.
  { intros Ha. apply Hroom. by intros _. }
  pose proof (leaf_rep_of F N _ _ _ _ _ _ _ HI1 Ht Hn) as Hrep.
  destruct (Hat (clock_time (clock s1)) J m rs) as (res & Hres); [|done|done| |].
  { destruct Hc as (H1 & H2 & _). clear -H1 H2. lia. }
  { destruct Hop as [(p & -> & Ha)|[?| ?]]; [right; right; by apply Hroom'|by right; left|by left]. }
  eapply wp_mono.
  { eapply (wp_commit_linked fuel pinned s1 links Γ1 D1 m g J rs op k res f n append_op); try done.
    clear -Hf Hw. lia. }
  intros res' w' (m' & Hgood & Hstep & Hlat). exists m'. cbn [tree] in *. rewrite Hcl in Hstep.
  split; [done|]. split; [done|]. clear -Hw Hlat. lia.
Qed.

Lemma wp_weaver_write fuel w m n toss op :
  match op with Insert k _ | Update k _ | Delete k => is_u64 k | _ => False end →
  weaver_good (S n) w m → weaver_enough fuel w m →
  wp (dispatch_weaver fuel toss op) w (weaver_sim n w m op).
Proof.
  intros Hop Hgood Hf. destruct op as [|k p|k p|k|k v|k| | | | |I v|I| | |]; try done; cbn [DexaWeaver.dispatch_weaver].
  - apply (wp_linked_arm fuel false w m n (Insert k p) false k); try done; [left; by exists p|].
    intros v J m' rs Hv Hrep Hb Hroom. eapply (simulated_at_leaf N st Key_default Payload_default Weaver.new toss); [done|].
    apply insert_simulated; [exact new_weaver|done|done|by apply before_restrict|].
    by destruct Hroom as [?|[[? ?]|?]].
  - apply (wp_linked_arm fuel true w m n (Update k p) true k); try done; [right; left; by exists p|].
    intros v J m' rs Hv Hrep Hb _. eapply (simulated_at_leaf N st Key_default Payload_default Weaver.new toss); [done|].
    apply update_simulated; [exact new_weaver|done|done|by apply before_restrict].
  - apply (wp_linked_arm fuel true w m n (Delete k) true k); try done; [by right; right|].
    intros v J m' rs Hv Hrep Hb _. eapply (simulated_at_leaf N st Key_default Payload_default Weaver.new toss); [done|].
    apply delete_simulated; [exact new_weaver|done|done|by apply before_restrict].
Qed.

(** The operations that do not link or scan are those of every tree. *)
Lemma wp_weaver_plain fuel w m n toss op :
  op_ok op → is_range op = false → weaver_good (S n) w m → weaver_enough fuel w m →
  wp (on_tree (dispatch (P := P) F N st false me Key_default Payload_default true Weaver.new fuel toss op)) w
    (weaver_sim n w m op).
Proof.
  intros Hop Hr (Hgood & Hm & Hl) Hf. pose proof (tree_good_version F N _ _ _ Hgood) as Hv.
  apply wp_on_tree. eapply wp_mono.
  { eapply (wp_dispatch_op F N HF HN st st_ok me Key_default Payload_default true Weaver.new new_weaver
      fuel (tree w) m n toss op); [split; [done|by destruct op]|done|].
    unfold enough_for, weaver_enough in *. clear -Hf. lia. }
  rewrite locked. intros res s' (m' & Hgood' & Hstep & Hlat). destruct Hgood as (_ & _ & Hb).
  exists m'. split; [|split; [by apply WS_tree|done]]. split; [done|]. split.
  - by eapply tree_step_hists.
  - by eapply tree_step_links.
Qed.

Lemma wp_scan_arm fuel s links m n I v c' op :
  weaver_good (S n) (mkWeaver s links) m → weaver_enough fuel (mkWeaver s links) m →
  tree_good (S n) (set_clock c' s) m → is_u64 (lower I) → (lower I ≤ upper I < END_KEY)%Z →
  (∀ l, scan_answer m (lower I) (upper I) v l → weaver_step (clock s) m op (MatchedRecords l) m c') →
  wp (scan_arm (P := P) st fuel I v) (mkWeaver (set_clock c' s) links) (weaver_sim n (mkWeaver s links) m op).
Proof.
  intros (_ & Hm & Hl) Hf Hgood Hlo Hhi Hstep. pose proof Hgood as ((Γ & D & HI) & _).
  destruct I as [lo hi]. cbn [lower upper] in *. unfold scan_arm. apply wp_bind. eapply wp_mono.
  { eapply (wp_weaver_scan F N HF HN st st_ok fuel (set_clock c' s) links Γ D m lo hi v); try done.
    - split; [by destruct Hlo|lia].
    - lia.
    - unfold weaver_enough in Hf. simpl in *. clear -Hf. lia. }
  intros l w (ls & -> & Hls & Hans & _). apply wp_ret. exists m. split; [|split; [by apply Hstep|done]].
  split; [|done]. apply tree_good_latches. eapply tree_good_le; [done|]. clear. lia.
Qed.

Lemma wp_dispatch_weaver fuel w m n toss op :
  weaver_op_ok op → weaver_good (S n) w m → weaver_enough fuel w m →
  wp (dispatch_weaver fuel toss op) w (weaver_sim n w m op).
Proof.
  intros [Hop Hend] Hgood Hf.
  destruct op as [|k p|k p|k|k v|k| | | | |I v|I| | |]; try done;
    try (by apply wp_weaver_write); try (by apply wp_weaver_plain).
  - destruct Hop as (Hlo & _ & Hle & _). destruct w as [s links]. rewrite -{1}(set_clock_id s).
    apply (wp_scan_arm fuel s links m n I v (clock s)); [done|done| |done|by split|by constructor].
    rewrite set_clock_id. apply Hgood.
  - destruct Hop as (Hlo & _ & Hle). destruct w as [s links]. pose proof Hgood as (Hg & _).
    destruct (Clock.current_version_for_reader (clock s) me) as [v c'] eqn:Hr.
    destruct (tree_good_reader F N me _ _ _ _ _ Hg Hr) as (Hg' & _ & _).
    cbn [DexaWeaver.dispatch_weaver]. apply wp_bind, wp_on_tree. cbn [tree k_ridgy].
    unfold current_version_for_reader. apply wp_bind, wp_gets. cbn beta. rewrite Hr.
    apply wp_bind, wp_modify, wp_ret.
    eapply (wp_scan_arm fuel s links m n I v c'); [done|done|done|done|by split|].
    intros l Hl. by eapply WS_range_si.
Qed.

Lemma wp_dispatch_weaver_all fuel ops w m :
  Forall (λ o, weaver_op_ok o.2) ops → weaver_good (length ops) w m →
  2 * length (latches (tree w)) + 200 + 2 * (size m + length ops) ≤ fuel →
  wp (dispatch_weaver_all fuel ops) w (λ ress w', ∃ m',
    weaver_steps (clock (tree w)) m ops ress m' (clock (tree w')) ∧ weaver_good 0 w' m' ∧
    length (latches (tree w')) ≤ length (latches (tree w)) ∧ size m' ≤ size m + length ops).
Proof.
  revert w m. induction ops as [|[toss op] ops IH]; intros w m Hops Hgood Hf.
  - apply wp_ret. exists m. split; [constructor|]. split; [done|]. split; [done|]. apply Nat.le_add_r.
  - apply Forall_cons in Hops as [Hop Hops]. simpl in Hgood, Hf. cbn [DexaWeaver.dispatch_weaver_all].
    apply wp_bind. eapply wp_mono; [eapply (wp_dispatch_weaver fuel w m (length ops) toss op); [done|done|]|].
    { unfold weaver_enough. clear -Hf. lia. }
    intros res w1 (m1 & Hgood1 & Hstep & Hl1).
    assert (size m1 ≤ S (size m)) as Hsz.
    { destruct Hstep as [op res m1 c1 _ Hstep| |]; [rewrite -locked in Hstep; eapply tree_step_size, Hstep|apply le_S, le_n..]. }
    apply wp_bind. eapply wp_mono; [apply (IH w1 m1); [done|done|]|].
    { clear -Hf Hl1 Hsz. lia. }
    intros ress w2 (m2 & Hsteps & Hgood2 & Hl2 & Hsz2). apply wp_ret. exists m2.
    split; [by econstructor|]. split; [done|]. simpl. clear -Hl1 Hl2 Hsz Hsz2. lia.
Qed.

Lemma make_weaver_good l n :
  (Z.of_nat n + 1 < VERSION_BOUND)%Z → weaver_good n (mkWeaver (set_latches l make) ∅) (∅ : Table P).
Proof using HF HN.
  intros Hn. split; [by apply make_good|]. split.
  - intros k h. by rewrite (lookup_empty (M := gmap Z)).
  - intros k v x. by rewrite (lookup_empty (M := gmap (Z * Version))).
Qed.
End run.
