(* ===== verification/DexaTheorems.v ===== *)
(** * The baseline trees

    The claims on the B+ tree of [src/src/dexa/] as a whole: what its operations
    answer, that it stays a balanced search tree, that scans are exact and
    descents end, and where the structure modifications depart from what they
    mean to do. The collector ([gc]) is off except where a claim says so. *)
From S2P Require Import Prelude OrdMap Version Interval RootIndex Clock VersionHistory.
From S2P Require Import VersionLists VersionIndex VersionedLeaf BaselineTheorems.
From S2P Require Import DexaLocking DexaCell DexaTree DexaSmo DexaDescent DexaScan DexaDispatch.
From S2P Require Import DexaKeys DexaInv DexaSplit DexaGuard DexaRepair DexaWrite DexaRead DexaTable.
From S2P Require Import DexaRefine DexaRange DexaRun.
#[local] Set Default Proof Using "Type*".

Section baseline_tree.
Context {M : ∀ K, KeyOrder K → Type → Type} `{!OrdMap M, !OrdMapLaws M}.
Context {T : Type → Type} `{!BPlusTree T, !BPlusTreeRecords T}.
Context {P : Type} (Key_default : Z) (Payload_default : P).
Context (F N : nat) (HF : 5 ≤ F) (HN : 3 ≤ N) (st : LockingStrategy).
Context (st_ok : split_seals (latch_type st) = false).
Context (kind : VersionIndexType) (kind_ok : kind ≠ KBTree) (me : Tid).
Local Abbreviation VersionIndex := (VersionIndex M T P).
Local Abbreviation St := (MVBPlusTree VersionIndex).
Local Abbreviation mk := (λ k p v, index_new (M := M) (T := T) (P := P) k kind p v).
Local Abbreviation dispatch_all := (dispatch_all (P := P) F N st false me Key_default Payload_default
  (is_v_weaver kind) mk).
Local Abbreviation op_supported := (op_supported (is_v_weaver kind)).
Implicit Types (s : St) (m : Table P) (ops : list (bool * CRUDOperation P)) (l : list bool).

Lemma mk_ok k (p : P) v : (0 ≤ v < VERSION_BOUND)%Z → vs_ok k (mk k p v : VersionIndex) [(v, Some p)].
Proof. intros Hv. by apply version_index_new_ok. Qed.

(** C3: a run of the tree is a run of a table of histories. From any good tree,
    whatever latches the thread loses, every sequence of operations returns;
    each answers as the abstract tree and leaves a tree for its table. Writes
    take the next version of the clock, reads answer from the history of the
    key, [PeekMin] and [PopMin] (and [PeekMax] and [PopMax]) find the extreme
    record of the whole table, and a scan finds exactly the keys of its interval
    with a version to show, in order. *)
Theorem baseline_refines fuel ops s m :
  Forall (λ o, op_supported o.2) ops → tree_good F N (length ops) s m →
  2 * length (latches s) + 200 + size m + length ops ≤ fuel →
  ∃ ress s' m', dispatch_all fuel ops s = Some (ress, s') ∧
    tree_steps Key_default Payload_default (is_optimistic st) me (clock s) m ops ress m' (clock s') ∧
    tree_good F N 0 s' m'.
Proof.
  intros Hops Hgood Hf. pose proof (wp_dispatch_all F N HF HN st st_ok me Key_default Payload_default
    (is_v_weaver kind) mk mk_ok fuel ops s m Hops Hgood Hf) as Hwp.
  apply wp_run in Hwp as (ress & s' & Hrun & m' & Hsteps & Hgood' & _). by exists ress, s', m'.
Qed.

(** C9: the operations keep the tree well-typed. Every tree that operations make
    of a new one is a balanced search tree: all leaves at one depth, at most 64;
    the keys of every node sorted and in the interval its parent leaves for it;
    no node but the root less than half full, none over its capacity; no child
    twice in its parent; every record with the index of some history. *)
Theorem baseline_well_typed fuel ops l :
  Forall (λ o, op_supported o.2) ops → (Z.of_nat (length ops) + 1 < VERSION_BOUND)%Z →
  2 * length l + 200 + length ops ≤ fuel →
  ∃ ress s, dispatch_all fuel ops (set_latches l make) = Some (ress, s) ∧ well_formed (P := P) F N s.
Proof.
  intros Hops Hn Hf. pose proof (wp_dispatch_all F N HF HN st st_ok me Key_default Payload_default
    (is_v_weaver kind) mk mk_ok fuel ops (set_latches l make) ∅ Hops (make_good F N HF HN l _ Hn)) as Hwp.
  change (size (∅ : Table P)) with (size (∅ : gmap Z (History P))) in Hwp. rewrite map_size_empty in Hwp.
  apply wp_run in Hwp as (ress & s & Hrun & m' & _ & ((Γ & D & HI) & _) & _); [|simpl; clear -Hf; lia].
  exists ress, s. split; [exact Hrun|]. by eapply Inv_well_formed.
Qed.

(** C4: a scan is exact. On a good tree the scan of an interval at a version
    returns, in the order of the keys, each key of the interval whose history
    has a payload at that version, with that payload, and no other; it changes
    nothing but the latches that are left to lose. *)
Theorem baseline_scan_exact fuel s m n (key_interval : Interval) version :
  tree_good F N n s m → is_u64 (lower key_interval) → is_u64 (upper key_interval) →
  (lower key_interval ≤ upper key_interval)%Z → (version < U64_MAX)%Z →
  2 * length (latches s) + 70 + size m < fuel →
  ∃ records l, range_lazy (P := P) st fuel key_interval version s = Some (records, set_latches l s) ∧
    StronglySorted Z.lt records.*1 ∧
    ∀ k p, (k, p) ∈ records ↔ Interval.contains key_interval k = true ∧
      ∃ h v, m !! k = Some h ∧ hist_at h version = Some (v, p).
Proof using HF HN st_ok OrdMapLaws0 OrdMap0.
  intros ((Γ & D & HI) & _) Hlo Hhi Hle Hv Hf.
  pose proof (wp_range_lazy F N HF HN st st_ok fuel s Γ D m key_interval version HI Hlo Hhi Hle Hv Hf) as Hwp.
  apply wp_run in Hwp as (records & s' & Hrun & l & -> & _ & [Hs Hin]). exists records, l.
  split; [done|]. split; [done|]. intros k p. rewrite Hin. by destruct key_interval.
Qed.

(** C10: the descent of a writer ends. Whatever latches are lost on the way, it
    returns with a guard for writing on the leaf whose interval has the key,
    after repairs that leave a tree for the same table; an insertion finds room
    for a record there. *)
Theorem baseline_descent_ends fuel s m n (append_op : bool) key :
  tree_good F N n s m → is_u64 key → 2 * length (latches s) + 200 ≤ fuel →
  ∃ guard s' Γ D I records,
    write_guard (P := P) F N st false fuel append_op key s = Some (guard, s') ∧
    held st guard ∧ clock s' = clock s ∧ length (latches s') ≤ length (latches s) ∧
    Inv F N s' Γ D m ∧ Γ !! g_block guard = Some (mkTy 0 I) ∧ Interval.contains I key = true ∧
    blocks s' !! g_block guard = Some (Leaf records) ∧
    (append_op = false → length records < N).
Proof using HF HN st_ok OrdMapLaws0 OrdMap0.
  intros ((Γ & D & HI) & _) Hk Hf.
  pose proof (wp_write_guard F N HF HN st st_ok fuel s Γ D m append_op key HI Hk Hf) as Hwp.
  apply wp_run in Hwp as (g & s' & Hrun & Hg & Hcl & Hl & Γ' & D' & J & rs & HI' & Ht & HJk & Hn & Hroom).
  exists g, s', Γ', D', J, rs. split_and!; try done. intros Ha. by apply Hroom.
Qed.
End baseline_tree.

(** C26: the height of a tree is never raised. A new tree has the height 1, and so
    has every tree that operations make of it, however deep it is; under the
    coupling of readers and writers, which is to lock exclusively from the
    height on, writers therefore lock every block exclusively, from the root
    down, at any parameters and any attempt. *)
Theorem baseline_height_stuck {M : ∀ K, KeyOrder K → Type → Type} `{!OrdMap M, !OrdMapLaws M}
    {T : Type → Type} `{!BPlusTree T, !BPlusTreeRecords T} {P : Type} Key_default (Payload_default : P)
    F N write_level write_attempt kind me fuel ops l :
  let st := ORWC write_level write_attempt in
  5 ≤ F → 3 ≤ N → kind ≠ KBTree → Forall (λ o, op_supported (is_v_weaver kind) o.2) ops →
  (Z.of_nat (length ops) + 1 < VERSION_BOUND)%Z → 2 * length l + 200 + length ops ≤ fuel →
  ∃ ress (s : MVBPlusTree (VersionIndex M T P)),
    dispatch_all F N st false me Key_default Payload_default (is_v_weaver kind)
      (λ k p v, index_new k kind p v) fuel ops (set_latches l make) = Some (ress, s) ∧
    root_height s = 1%Z ∧
    ∀ curr_level max_level attempt, (INIT_TREE_HEIGHT ≤ curr_level)%Z →
      apply_for_ref st curr_level max_level attempt (root_height s) = BorrowMut.
Proof.
  intros st HF HN Hk Hops Hn Hf.
  pose proof (wp_dispatch_all F N HF HN st eq_refl me Key_default Payload_default (is_v_weaver kind)
    (λ k p v, index_new (M := M) (T := T) k kind p v)
    (λ k p v, version_index_new_ok k kind p v Hk) fuel ops (set_latches l make) ∅ Hops
    (make_good F N HF HN l _ Hn)) as Hwp.
  change (size (∅ : Table P)) with (size (∅ : gmap Z (History P))) in Hwp. rewrite map_size_empty in Hwp.
  apply wp_run in Hwp as (ress & s & Hrun & m' & _ & ((Γ & D & HI) & _) & _); [|simpl; clear -Hf; lia].
  exists ress, s. split; [exact Hrun|]. pose proof (inv_height _ _ _ _ _ _ HI) as Hh. split; [done|].
  intros curr_level max_level attempt Hc. rewrite Hh. by apply orwc_at_height_one.
Qed.

(** ** The redistribution of two index pages *)
Section key_split.
Context {P S : Type} (F : nat).
Implicit Types (s : MVBPlusTree S) (keys : list Z) (children cs : list BlockRef).

Lemma children_len_cons keys : keys ≠ [] → children_len keys = Datatypes.S (length keys).
Proof using Type. by destruct keys. Qed.

Lemma new_index_cell_Some keys children s b s' :
  new_index_cell F keys children s = Some (b, s') →
  b = next_block s ∧ next_block s' = Datatypes.S (next_block s) ∧
  blocks s' = <[b := Index keys (take (children_len keys) children)]> (blocks s).
Proof using Type.
  unfold new_index_cell, count_alloc, new_cell, index_page.
  repeat setoid_rewrite bind_comp_Some. case_decide as Hc; [|naive_solver].
  intros (? & ? & (? & ? & [= <- <-] & [= <- <-]) & ? & ? & [= <- <-] & ? & ? & [= <- <-] & ? & ? & [= <- <-]
    & ? & ? & [= <- <-] & ? & ? & [= <- <-] & [= <- <-]). done.
Qed.

(** C20: the redistribution of two index pages loses a child. Whenever it returns,
    the two new pages have together one child less than the two old ones: the
    middle key goes up, and the child that would need it for a separator is cut
    off with its subtree. *)
Theorem key_split_loses_child pg keys children child_pos merge_index (from merged : IndexPage) s s' :
  length from.2 = Datatypes.S (length from.1) → length merged.2 = Datatypes.S (length merged.1) →
  4 ≤ length from.1 + length merged.1 → g_block pg < next_block s →
  key_split_indexes F pg keys children child_pos merge_index from merged s = Some ((), s') →
  ∃ left_keys left right_keys right,
    blocks s' !! next_block s = Some (Index left_keys left) ∧
    blocks s' !! Datatypes.S (next_block s) = Some (Index right_keys right) ∧
    length left + length right + 1 = length from.2 + length merged.2.
Proof using Type.
  intros Hf Hm Hlen Hpg. unfold key_split_indexes.
  set (parts := if decide (child_pos < merge_index) then _ else _).
  destruct parts as [[[lo hi] lower] upper] eqn:Eparts.
  assert (length lower.2 + length upper.2 = length from.2 + length merged.2 ∧
    length lower.1 + length upper.1 = length from.1 + length merged.1) as [H2 H1].
  { unfold parts in Eparts. case_decide; injection Eparts as <- <- <- <-; lia. }
  cbv zeta. set (jk := merge_by Z.leb lower.1 upper.1). set (jc := merge_by (λ _ _, true) lower.2 upper.2).
  assert (length jk = length from.1 + length merged.1) as Hjk by (unfold jk; rewrite length_merge_by; lia).
  assert (length jc = length from.2 + length merged.2) as Hjc by (unfold jc; rewrite length_merge_by; lia).
  pose proof (Nat.div_lt (length jk) 2 ltac:(lia) ltac:(lia)) as Hhalf.
  pose proof (Nat.div_le_lower_bound (length jk) 2 2 ltac:(lia) ltac:(lia)) as Hhalf2.
  pose proof (Nat.div_mod_eq (length jk) 2) as Hdm. pose proof (Nat.mod_upper_bound (length jk) 2 ltac:(lia)) as Hmod.
  set (half := length jk / 2) in *.
  intros (k & s1 & (? & _ & [= <- <-])%lift_Some & Hrest)%bind_comp_Some.
  apply bind_comp_Some in Hrest as (left & s2 & (-> & Hn2 & Hb2)%new_index_cell_Some & Hrest).
  apply bind_comp_Some in Hrest as (right & s3 & (-> & Hn3 & Hb3)%new_index_cell_Some & Hrest).
  apply bind_comp_Some in Hrest as (node & s4 & (? & _ & [= -> ->])%lift_Some & Hrest).
  unfold write_block in Hrest. apply bind_comp_Some in Hrest as (bs & s5 & Hbs & Hrest). injection Hbs as <- <-.
  destruct (blocks s3 !! g_block pg); [|done]. injection Hrest as <-.
  cbn [blocks set_blocks]. rewrite Hb3 Hb2 Hn2.
  eexists _, _, _, _. split_and!.
  - do 2 (rewrite lookup_insert_ne; [|lia]). by rewrite lookup_insert_eq.
  - rewrite lookup_insert_ne; [|lia]. by rewrite lookup_insert_eq.
  - rewrite !children_len_cons; [|intros E; apply (f_equal length) in E; rewrite ?length_take ?length_drop in E; simpl in E; lia..].
    rewrite ?length_take ?length_drop ?length_take. lia.
Qed.
End key_split.

(** ** Examples *)
Abbreviation ex_new := (λ k p v, index_new (M := AssocMap) (T := SortedTree) (P := Z) k KVANILLA p v).
Definition ex_run (gc : bool) (ops : list (bool * CRUDOperation Z))
    : option (list (CRUDOperationResult Z) * MVBPlusTree ex_index) :=
  dispatch_all 7 14 OLC gc 0 0%Z 0%Z false ex_new 300 ops make.

Definition inserts (ks : list Z) : list (bool * CRUDOperation Z) := (λ k, (true, Insert k k)) <$> ks.
Definition deletes (ks : list Z) : list (bool * CRUDOperation Z) := (λ k, (true, Delete k)) <$> ks.

(** The keys of the [j]th leaf, and keys between them. *)
Definition leaf_keys (j : nat) : list Z := (λ i, Z.of_nat (100 * (7 * (j - 1) + i))) <$> seq 1 7.
Definition between (j : nat) : list Z := Z.succ <$> leaf_keys j.

(** Twelve leaves under three index pages; two leaves of the second page are
    filled, partly deleted and split; two merges leave that page one separator. *)
Definition loss_ops : list (bool * CRUDOperation Z) :=
  inserts ((λ i, Z.of_nat (100 * i)) <$> seq 1 85) ++ inserts (between 4 ++ between 5) ++
  deletes (take 5 (between 4) ++ take 5 (between 5)) ++ inserts [3500; 2800; 2200]%Z.

Definition last_answer (r : option (list (CRUDOperationResult Z) * MVBPlusTree ex_index))
    : option (CRUDOperationResult Z) := '(ress, _) ← r; last ress.

(** C19: with the collector on, an insertion loses records of other keys. Key
    8500 was inserted and never deleted. After [loss_ops] it is found; one more
    insertion, of the far smaller key 2200, redistributes two index pages, and
    8500 is gone at every version since; with the collector off it is there. *)
Theorem collector_loses_records :
  let read := [(true, Point 8500%Z 1000%Z)] in
  (true, Insert 8500%Z 8500%Z) ∈ loss_ops ∧ (∀ t, (t, Delete 8500%Z) ∉ loss_ops) ∧
  last_answer (ex_run true (loss_ops ++ read)) = Some (MatchedRecord (Some (8500%Z, 8500%Z))) ∧
  last_answer (ex_run true (loss_ops ++ inserts [2200%Z] ++ read)) = Some (MatchedRecord None) ∧
  last_answer (ex_run false (loss_ops ++ inserts [2200%Z] ++ read)) =
    Some (MatchedRecord (Some (8500%Z, 8500%Z))).
Proof.
  split_and!.
  - apply list_elem_of_lookup. exists 84. vm_compute. reflexivity.
  - intros t Ht. assert (forallb (λ o, match o.2 with Delete k => negb (k =? 8500)%Z | _ => true end) loss_ops = true)
      as Hall by (vm_compute; reflexivity).
    rewrite forallb_forall in Hall. apply list_elem_of_In in Ht. by specialize (Hall _ Ht).
  - vm_compute. reflexivity.
  - vm_compute. reflexivity.
  - vm_compute. reflexivity.
Qed.

(** Some operations of every kind, for a small tree. *)
Definition ex_tree_ops : list (bool * CRUDOperation Z) :=
  inserts [10; 20; 30; 40; 50; 60]%Z ++
  [(true, Update 20%Z 21%Z); (false, Delete 10%Z); (true, Update 10%Z 11%Z); (true, Point 20%Z 3%Z);
   (true, PointSi 20%Z); (true, PeekMin); (true, PopMax); (true, Range (Interval.new 15 45) 100%Z);
   (true, RangeSi (Interval.new 0 U64_MAX)); (true, Empty)].

(** Latches that are lost every other time. *)
Definition ex_lost : list bool := [true; false; true; false; false; true; false].

Lemma ex_supported : Forall (λ o, op_supported false o.2) ex_tree_ops.
Proof. repeat constructor; try (by intros); by vm_compute. Qed.

Lemma baseline_refines_witness :
  ∃ ress s' m', dispatch_all 5 3 OLC false 0 0%Z 0%Z false ex_new 300 ex_tree_ops
      (set_latches ex_lost (make : MVBPlusTree ex_index)) = Some (ress, s') ∧
    tree_steps 0%Z 0%Z true 0 clock_init ∅ ex_tree_ops ress m' (clock s') ∧ tree_good 5 3 0 s' m'.
Proof.
  apply (baseline_refines (M := AssocMap) (T := SortedTree) 0%Z 0%Z 5 3 ltac:(lia) ltac:(lia) OLC eq_refl
    KVANILLA ltac:(discriminate) 0 300 ex_tree_ops (set_latches ex_lost make) ∅).
  - exact ex_supported.
  - apply (make_good 5 3); [lia|lia|reflexivity].
  - change (2 * 7 + 200 + 0 + 16 ≤ 300). lia.
Defined.

Lemma baseline_well_typed_witness :
  ∃ ress s, dispatch_all 5 3 OLC false 0 0%Z 0%Z false ex_new 300 ex_tree_ops
      (set_latches ex_lost (make : MVBPlusTree ex_index)) = Some (ress, s) ∧ well_formed (P := Z) 5 3 s.
Proof.
  apply (baseline_well_typed (M := AssocMap) (T := SortedTree) 0%Z 0%Z 5 3 ltac:(lia) ltac:(lia) OLC eq_refl
    KVANILLA ltac:(discriminate) 0 300 ex_tree_ops ex_lost).
  - exact ex_supported.
  - reflexivity.
  - change (2 * 7 + 200 + 16 ≤ 300). lia.
Defined.

(** The tree that the operations make, for the claims about one tree. *)
Lemma tree_steps_size {P : Type} (Key_default : Z) (Payload_default : P) st me c (m : Table P) ops ress m' c' :
  tree_steps Key_default Payload_default (is_optimistic st) me c m ops ress m' c' → size m' ≤ size m + length ops.
Proof.
  induction 1 as [|c m toss op ops res ress m1 c1 m2 c2 Hstep _ IH]; simpl; [lia|].
  apply tree_step_size in Hstep. lia.
Qed.

Lemma ex_tree : ∃ ress s (m : Table Z),
  dispatch_all 5 3 OLC false 0 0%Z 0%Z false ex_new 300 ex_tree_ops
    (set_latches ex_lost (make : MVBPlusTree ex_index)) = Some (ress, s) ∧
  tree_good 5 3 0 s m ∧ length (latches s) ≤ 7 ∧ size m ≤ 16.
Proof.
  assert (wp (dispatch_all 5 3 OLC false 0 0%Z 0%Z false ex_new 300 ex_tree_ops)
    (set_latches ex_lost (make : MVBPlusTree ex_index)) (λ _ s, ∃ m : Table Z,
      tree_good 5 3 0 s m ∧ length (latches s) ≤ 7 ∧ size m ≤ 16)) as Hwp.
  { eapply wp_mono.
    - apply (wp_dispatch_all 5 3 ltac:(lia) ltac:(lia) OLC eq_refl 0 0%Z 0%Z false ex_new
        (λ k p v, version_index_new_ok k KVANILLA p v ltac:(discriminate)) 300 ex_tree_ops _ ∅ ex_supported).
      + apply (make_good 5 3); [lia|lia|reflexivity].
      + change (2 * 7 + 200 + 0 + 16 ≤ 300). lia.
    - intros ress s (m & Hsteps & Hgood & Hl). exists m. split; [done|]. split; [exact Hl|].
      apply (tree_steps_size _ _ OLC) in Hsteps. exact Hsteps. }
  destruct (proj1 (wp_run _ _ _) Hwp) as (ress & s & Hrun & m & H). exists ress, s, m. exact (conj Hrun H).
Qed.

Lemma is_u64_15 : is_u64 15.
Proof. by vm_compute. Qed.
Lemma is_u64_45 : is_u64 45.
Proof. by vm_compute. Qed.

Lemma baseline_scan_exact_witness : ∃ ress s (m : Table Z) records l,
  dispatch_all 5 3 OLC false 0 0%Z 0%Z false ex_new 300 ex_tree_ops
    (set_latches ex_lost (make : MVBPlusTree ex_index)) = Some (ress, s) ∧
  range_lazy (P := Z) OLC 300 (Interval.new 15 45) 100%Z s = Some (records, set_latches l s) ∧
  StronglySorted Z.lt records.*1 ∧
  ∀ k p, (k, p) ∈ records ↔ Interval.contains (Interval.new 15 45) k = true ∧
    ∃ h v, m !! k = Some h ∧ hist_at h 100%Z = Some (v, p).
Proof.
  destruct ex_tree as (ress & s & m & Hrun & Hgood & Hl & Hm).
  destruct (baseline_scan_exact 5 3 ltac:(lia) ltac:(lia) OLC eq_refl 300 s m 0 (Interval.new 15 45) 100%Z
    Hgood is_u64_15 is_u64_45 ltac:(clear; vm_compute; discriminate) eq_refl ltac:(clear -Hl Hm; lia)) as (records & l & H1 & H2 & H3).
  exists ress, s, m, records, l. exact (conj Hrun (conj H1 (conj H2 H3))).
Defined.

Lemma baseline_descent_ends_witness : ∃ ress s (m : Table Z),
  dispatch_all 5 3 OLC false 0 0%Z 0%Z false ex_new 300 ex_tree_ops
    (set_latches ex_lost (make : MVBPlusTree ex_index)) = Some (ress, s) ∧
  ∃ guard s' Γ D I records,
    write_guard (P := Z) 5 3 OLC false 300 false 15%Z s = Some (guard, s') ∧
    held OLC guard ∧ clock s' = clock s ∧ length (latches s') ≤ length (latches s) ∧
    Inv 5 3 s' Γ D m ∧ Γ !! g_block guard = Some (mkTy 0 I) ∧ Interval.contains I 15%Z = true ∧
    blocks s' !! g_block guard = Some (Leaf records) ∧
    (false = false → length records < 3).
Proof.
  destruct ex_tree as (ress & s & m & Hrun & Hgood & Hl & Hm). exists ress, s, m. split; [exact Hrun|].
  apply (baseline_descent_ends 5 3 ltac:(lia) ltac:(lia) OLC eq_refl 300 s m 0 false 15%Z Hgood is_u64_15).
  clear -Hl. lia.
Defined.

Lemma baseline_height_stuck_witness :
  ∃ ress (s : MVBPlusTree ex_index),
    dispatch_all 5 3 (ORWC f32_one 4%Z) false 0 0%Z 0%Z false ex_new 300 ex_tree_ops
      (set_latches ex_lost make) = Some (ress, s) ∧ root_height s = 1%Z ∧
    ∀ curr_level max_level attempt, (INIT_TREE_HEIGHT ≤ curr_level)%Z →
      apply_for_ref (ORWC f32_one 4%Z) curr_level max_level attempt (root_height s) = BorrowMut.
Proof.
  apply (baseline_height_stuck (M := AssocMap) (T := SortedTree) 0%Z 0%Z 5 3 f32_one 4%Z KVANILLA 0 300
    ex_tree_ops ex_lost); [lia|lia|discriminate|exact ex_supported|reflexivity|].
  change (2 * 7 + 200 + 16 ≤ 300). lia.
Defined.

(** A parent of two index pages, and the state that holds it. *)
Definition ex_from : IndexPage := ([10; 20]%Z, [1; 2; 3]).
Definition ex_merged : IndexPage := ([40; 50]%Z, [4; 5; 6]).
Definition ex_parent : MVBPlusTree Z := set_blocks {[0 := Index [30%Z] [8; 9]]} (mkBPlusTree 0 1%Z ∅ 10 10%Z [] ∅ clock_init []).

Lemma key_split_loses_child_witness : ∃ s' left_keys left right_keys right,
  key_split_indexes 5 (mkGuard 0 GuardWriter) [30%Z] [8; 9] 0 1 ex_from ex_merged ex_parent = Some ((), s') ∧
  blocks s' !! 10 = Some (Index left_keys left) ∧ blocks s' !! 11 = Some (Index right_keys right) ∧
  length left + length right + 1 = 6.
Proof.
  assert (∃ s', key_split_indexes 5 (mkGuard 0 GuardWriter) [30%Z] [8; 9] 0 1 ex_from ex_merged ex_parent =
    Some ((), s')) as [s' Hs] by (eexists; vm_compute; reflexivity).
  exists s'. destruct (key_split_loses_child 5 (mkGuard 0 GuardWriter) [30%Z] [8; 9] 0 1 ex_from ex_merged
    ex_parent s' eq_refl eq_refl ltac:(simpl; lia) ltac:(simpl; lia) Hs) as (lk & l & rk & r & H1 & H2 & H3).
  by exists lk, l, rk, r.
Defined.
