(* ===== verification/WeaverTheorems.v ===== *)
(** * The trees of the vWeaver

    The claims on the links between lists of the vWeaver and the scans along
    them: what they promise, which keys a scan passes by, and when a writer waits
    for the leaf it holds. *)
From S2P Require Import Prelude Version Interval Clock VersionHistory VersionLists VersionedLeaf.
From S2P Require Import DexaLocking DexaCell DexaTree DexaSmo DexaDescent DexaScan DexaDispatch DexaWeaver.
From S2P Require Import DexaKeys DexaInv DexaSplit DexaGuard DexaRepair DexaWrite DexaRead DexaTable.
From S2P Require Import DexaRefine DexaRange DexaRun DexaLinks DexaWeaverScan DexaLinkStep DexaWeaverRun.
#[local] Set Default Proof Using "Type*".

Lemma mono_unhindered {P} : unhindered (P := P) MonoWriter.
Proof. by intros A pinned leaf c. Qed.

Section weaver_tree.
Context {P : Type} (Key_default : Z) (Payload_default : P).
Context (F N : nat) (HF : 5 ≤ F) (HN : 3 ≤ N) (me : Tid).
Local Abbreviation Node := (VWeaverNodeSt P).
Local Abbreviation dispatch_weaver_all :=
  (dispatch_weaver_all F N MonoWriter false me Key_default Payload_default).
Implicit Types (w : WeaverTree P) (m : Table P) (ops : list (bool * CRUDOperation P)) (l : list bool).

(** C5: a run of a tree of the vWeaver is a run of a table of histories. Without
    latches every sequence of operations returns from any good tree, linking
    included, and each operation answers as the abstract tree; a scan of an
    interval answers with records that its reader may see, in the order of their
    keys, among them every one whose key was not deleted after its version. *)
Theorem weaver_refines fuel ops w m :
  Forall (λ o, weaver_op_ok o.2) ops → weaver_good F N (length ops) w m →
  2 * length (latches (tree w)) + 200 + 2 * (size m + length ops) ≤ fuel →
  ∃ ress w' m', dispatch_weaver_all fuel ops w = Some (ress, w') ∧
    weaver_steps Key_default Payload_default false me (clock (tree w)) m ops ress m' (clock (tree w')) ∧
    weaver_good F N 0 w' m'.
Proof.
  intros Hops Hgood Hf. pose proof (wp_dispatch_weaver_all F N HF HN MonoWriter eq_refl eq_refl mono_unhindered
    me Key_default Payload_default fuel ops w m Hops Hgood Hf) as Hwp.
  apply wp_run in Hwp as (ress & w' & Hrun & m' & Hsteps & Hgood' & _). by exists ress, w', m'.
Qed.

(** C27: the links stay true. After any run from a new tree, a link that leaves
    the version [v] of a key [k] leads to a greater key as it was when [v] was
    replaced, and no key in between had a version by then. *)
Theorem weaver_links_true fuel ops l :
  Forall (λ o, weaver_op_ok o.2) ops → (Z.of_nat (length ops) + 1 < VERSION_BOUND)%Z →
  2 * length l + 200 + 2 * length ops ≤ fuel →
  ∃ ress w m, dispatch_weaver_all fuel ops (mkWeaver (set_latches l make) ∅) = Some (ress, w) ∧
    weaver_steps Key_default Payload_default false me clock_init ∅ ops ress m (clock (tree w)) ∧
    ∀ k v n, k_ridgy w !! (k, v) = Some n → ∃ s h k' h',
      m !! k = Some h ∧ m !! k' = Some h' ∧ (k < k')%Z ∧ replaced h v s ∧
      node_for k' n (upto s h') ∧ ∀ j hj, (k < j < k')%Z → m !! j = Some hj → upto s hj = [].
Proof.
  intros Hops Hn Hf. pose proof (wp_dispatch_weaver_all F N HF HN MonoWriter eq_refl eq_refl mono_unhindered
    me Key_default Payload_default fuel ops (mkWeaver (set_latches l make) ∅) ∅ Hops
    (make_weaver_good F N HF HN l _ Hn)) as Hwp.
  change (size (∅ : Table P)) with (size (∅ : gmap Z (History P))) in Hwp. rewrite map_size_empty in Hwp.
  apply wp_run in Hwp as (ress & w & Hrun & m & Hsteps & (_ & _ & Hl) & _); [|simpl; clear -Hf; lia].
  exists ress, w, m. split; [exact Hrun|]. split; [exact Hsteps|]. intros k v n Hk.
  destruct (Hl k v n Hk) as (s & h & k' & h' & H1 & H2 & H3 & H4 & H5 & _ & H6). by exists s, h, k', h'.
Qed.
End weaver_tree.

Section weaver_scan.
Context {P : Type} (F N : nat) (HF : 5 ≤ F) (HN : 3 ≤ N) (st : LockingStrategy).
Context (st_ok : split_seals (latch_type st) = false).
Implicit Types (w : WeaverTree P) (m : Table P).

(** C6: a scan along the links returns, under every locking strategy whose splits
    seal nothing and whatever latches it loses; what it returns a reader of its
    version may see, in the order of the keys; and it misses no key of the
    interval but keys that were deleted since. *)
Theorem weaver_scan_lasting fuel w m n (key_interval : Interval) version :
  weaver_good F N n w m → is_u64 (lower key_interval) →
  (lower key_interval ≤ upper key_interval < END_KEY)%Z →
  2 * length (latches (tree w)) + 71 + 2 * size m < fuel →
  ∃ records l, weaver_scan_dispatch st fuel key_interval version w =
      Some (records, mkWeaver (set_latches l (tree w)) (k_ridgy w)) ∧
    StronglySorted Z.lt records.*1 ∧
    (∀ k p, (k, p) ∈ records → Interval.contains key_interval k = true ∧
      ∃ h v, m !! k = Some h ∧ hist_at h version = Some (v, p)) ∧
    (∀ k h v p, Interval.contains key_interval k = true → m !! k = Some h →
      hist_at h version = Some (v, p) → lasting h version → (k, p) ∈ records).
Proof.
  destruct w as [s links], key_interval as [lo hi]. intros (((Γ & D & HI) & _) & Hm & Hl) Hlo Hhi Hf. cbn in *.
  pose proof (wp_weaver_scan F N HF HN st st_ok fuel s links Γ D m lo hi version HI Hm Hl
    ltac:(destruct Hlo; split; [done|lia]) ltac:(lia) Hf) as Hwp.
  apply wp_run in Hwp as (records & w' & Hrun & l & -> & _ & [Hs Hsound Hcomplete] & _). exists records, l.
  split; [exact Hrun|]. split; [done|]. split.
  - intros k p Hk. destruct (Hsound k p Hk) as [Hr Hv]. split; [by apply contains_spec|done].
  - intros k h v p Hk%contains_spec. by apply Hcomplete.
Qed.

(** C21: a scan passes by a key that a reader sees. Let the first key [k1] that the
    reader sees be linked to a deletion of [k2] that was undone since, and the
    deletion to a key further on that the reader sees. Under every strategy whose
    splits seal nothing, and whatever latches are lost, the scan returns without
    [k2], and a read of [k2] at the same version returns its record. *)
Theorem weaver_scan_loses_key (me : Tid) Key_default (Payload_default : P) fuel toss w m n lo hi version k1 k2 p2 :
  weaver_good F N n w m → is_u64 lo → (lo ≤ hi < END_KEY)%Z → (version < U64_MAX)%Z →
  2 * length (latches (tree w)) + 200 + 2 * size m ≤ fuel →
  first_visible m version lo k1 → passed_by m (k_ridgy w) version hi k1 k2 → visible m version k2 p2 →
  ∃ records l l',
    dispatch_weaver F N st false me Key_default Payload_default fuel toss (Range (Interval.new lo hi) version) w =
      Some (MatchedRecords records, mkWeaver (set_latches l (tree w)) (k_ridgy w)) ∧
    (lo ≤ k2 ≤ hi)%Z ∧ (k2 ∉ records.*1) ∧
    dispatch_weaver F N st false me Key_default Payload_default fuel toss (Point k2 version) w =
      Some (MatchedRecord (Some (k2, p2)), mkWeaver (set_latches l' (tree w)) (k_ridgy w)).
Proof.
  destruct w as [s links]. intros (Hgood & Hm & Hl) Hlo Hhi Hv Hf Hfirst Hpass Hvis. cbn [tree k_ridgy] in *.
  pose proof Hgood as ((Γ & D & HI) & _).
  destruct (passed_by_keys _ _ _ _ _ _ Hm Hl Hpass) as (_ & _ & _ & Hk2). pose proof Hfirst as [Hk1 _].
  pose proof (wp_weaver_scan F N HF HN st st_ok fuel s links Γ D m lo hi version HI Hm Hl
    ltac:(destruct Hlo; split; [done|lia]) ltac:(lia) ltac:(clear -Hf; lia)) as Hscan.
  apply wp_run in Hscan as (records & w' & Hrun & l & -> & _ & _ & Hpasses).
  assert (is_u64 k2) as Hu by (unfold is_u64 in *; change END_KEY with U64_MAX in Hhi; lia).
  assert (enough fuel s) as He by (unfold enough; clear -Hf; lia).
  pose proof (wp_point_arm F N HF HN st st_ok Key_default Payload_default Weaver.new new_weaver
    fuel s m n k2 version Hgood He Hu Hv) as Hpoint.
  apply wp_run in Hpoint as (res & s' & Hread & l' & -> & _ & Hres).
  exists records, l, l'. split; [|split; [lia|split; [by apply (Hpasses k1 k2)|]]].
  - unfold dispatch_weaver, scan_arm. by rewrite (bind_comp_eq _ _ _ _ _ Hrun).
  - unfold dispatch_weaver, on_tree. cbn [tree k_ridgy dispatch]. rewrite Hread. cbn [mbind option_bind].
    destruct Hvis as (h & u & Hk & Ha). inversion Hres; subst; [unfold point_answer; by rewrite Hk Ha|naive_solver..].
Qed.
End weaver_scan.

(** ** A writer that waits for itself

    The leaf a writer holds is found sealed by the search of its own callback:
    the write flag is in its word. *)
Lemma block_read {S} b node (s : MVBPlusTree S) :
  blocks s !! b = Some node → read_block b s = Some (node, s).
Proof. intros Hn. unfold read_block. erewrite bind_comp_eq; [|done]. by rewrite /lift Hn. Qed.

Section waiting.
Context {P : Type} (st : LockingStrategy) (optimistic : is_optimistic st = true).
Local Abbreviation Node := (VWeaverNodeSt P).
Local Abbreviation St := (MVBPlusTree Node).
Implicit Types (s : St) (key next_key : Z) (fuel : nat) (rs : list (VersionedRecordPoint Node)).

Definition held_by_writer (leaf : BlockRef) s : St := set_obsolete ({[leaf]} ∪ obsolete s) s.

(** One round of the search for a leaf that ends by asking for another. *)
Definition search_turn next_key (a b : Path * Z * Attempts * St) : Prop :=
  let '(path, parent_index, attempts, s) := a in
  let '(next, s') := b in
  next_leaf_round st path parent_index next_key attempts s = Some (inl next, s').

(** It never gets past a root that is sealed. *)
Lemma sealed_turn s idx next_key attempts :
  root_block s ∈ obsolete s → (0 ≤ idx)%Z →
  search_turn next_key ([], idx, attempts, s) ([], idx, u32_wrap (attempts + 1), s).
Proof.
  intros Hs Hidx. unfold search_turn, next_leaf_round. simpl length. rewrite (proj2 (Z.leb_le _ _) Hidx).
  assert (lock_olc st 0%Z attempts 0%Z (root_block s) s = Some (mkGuard (root_block s) GuardNone, s)) as Hlock.
  { assert (is_sealed (root_block s) s = Some (true, s)) as Hsealed.
    { unfold is_sealed. erewrite bind_comp_eq; [|done]. by rewrite bool_decide_true. }
    unfold lock_olc, borrow_as. rewrite optimistic.
    destruct (lock_reader_olc st 0%Z attempts 0%Z) eqn:Eb;
      [exfalso; destruct st; simpl in Eb; by repeat case_match|..];
      (erewrite bind_comp_eq; [|exact Hsealed]); done. }
  erewrite bind_comp_eq; [|done]. erewrite bind_comp_eq; [|exact Hlock].
  erewrite bind_comp_eq; [|done]. done.
Qed.

Lemma search_sealed fuel s idx next_key attempts :
  root_block s ∈ obsolete s → (0 ≤ idx)%Z → next_leaf_loop st fuel [] idx next_key attempts s = None.
Proof.
  intros Hs Hidx. revert attempts. induction fuel as [|fuel IH]; intros attempts; [done|].
  cbn [next_leaf_loop]. erewrite bind_comp_eq; [|by apply sealed_turn]. apply IH.
Qed.

Lemma bind_none {W A B} (c : Comp W A) (f : A → Comp W B) (w : W) : c w = None → (c ≫= f) w = None.
Proof using Type. unfold mbind, Comp_bind. by intros ->. Qed.

Lemma neighbour_sealed fuel s key v :
  root_block s ∈ obsolete s → find_neighbour st fuel [] 0%Z key v s = None.
Proof. intros Hs. destruct fuel as [|fuel]; [done|]. cbn [find_neighbour]. by apply bind_none, search_sealed. Qed.

(** Without the seal it ends in the root, a leaf without a greater key. *)
Lemma guard_valid_alone s g :
  guard_valid_local g = true → latches s = [] → guard_valid st g s = Some (true, s).
Proof.
  intros Hg Hl. unfold guard_valid, guard_valid_local in *. destruct (g_kind g); try done.
  rewrite optimistic. unfold win. erewrite bind_comp_eq; [|done]. by rewrite Hl.
Qed.

Lemma search_root fuel s rs next_key :
  latches s = [] → root_block s ∉ obsolete s → blocks s !! root_block s = Some (Leaf rs) → is_u64 next_key →
  ∃ g, g_block g = root_block s ∧ guard_valid_local g = true ∧
    next_leaf_page st (S fuel) [] 0%Z next_key s = Some ([(Interval.new START_KEY END_KEY, g)], s).
Proof.
  intros Hl Ho Hb Hkey. set (I := Interval.new START_KEY END_KEY).
  assert (∃ g, lock_olc st 0%Z 0%Z 0%Z (root_block s) s = Some (g, s) ∧ g_block g = root_block s ∧
    guard_valid_local g = true) as (g & Hlock & Hg & Hv).
  { assert (is_sealed (root_block s) s = Some (false, s)) as Hsealed.
    { unfold is_sealed. erewrite bind_comp_eq; [|done]. by rewrite bool_decide_false. }
    assert (win s = Some (true, s)) as Hwin.
    { unfold win. erewrite bind_comp_eq; [|done]. by rewrite Hl. }
    unfold lock_olc, borrow_as. rewrite optimistic.
    destruct (lock_reader_olc st 0%Z 0%Z 0%Z) eqn:Eb; [by eexists|..];
      (eexists; split; [erewrite bind_comp_eq; [|exact Hsealed]; cbn beta iota; by erewrite bind_comp_eq; [|exact Hwin]|]);
      (split; [done|]); destruct st; done. }
  exists g. split; [done|]. split; [done|]. unfold next_leaf_page. cbn [next_leaf_loop].
  assert (next_leaf_round st [] 0%Z next_key 0%Z s = Some (inr [(I, g)], s)) as Hround.
  { unfold next_leaf_round. simpl length. rewrite (proj2 (Z.leb_le _ _) (Z.le_refl 0)).
    erewrite bind_comp_eq; [|done]. erewrite bind_comp_eq; [|exact Hlock].
    erewrite bind_comp_eq; [|by apply guard_valid_alone]. cbn [negb]. unfold next_leaf_descend.
    assert (climb [(I, g)] 0 next_key = Some (0, I, g)) as Hc.
    { cbn. unfold I. by rewrite (proj2 (contains_spec (Interval.new START_KEY END_KEY) next_key) Hkey). }
    erewrite bind_comp_eq; [|by rewrite /lift Hc]. cbn beta iota.
    assert (guard_deref_unsafe g s = Some (Some (Leaf rs), s)) as Hd.
    { unfold guard_deref_unsafe. rewrite Hv Hg. erewrite bind_comp_eq; [|by apply block_read]. done. }
    erewrite bind_comp_eq; [|exact Hd]. erewrite bind_comp_eq; [|by apply guard_valid_alone]. done. }
  erewrite bind_comp_eq; [|exact Hround]. done.
Qed.

Lemma no_greater s g rs key v :
  guard_valid_local g = true → latches s = [] → (∀ r, r ∈ rs → (vr_key r ≤ key)%Z) →
  first_above st g key v rs s = Some (Some None, s).
Proof.
  intros Hg Hl. induction rs as [|r rs IH]; intros Hle; [done|]. cbn [first_above].
  rewrite (proj2 (Z.ltb_ge _ _) (Hle r ltac:(by left))). erewrite bind_comp_eq; [|done]. cbn beta iota.
  erewrite bind_comp_eq; [|by apply guard_valid_alone]. cbn beta iota delta [negb]. apply IH. intros r' Hr'. apply Hle. by right.
Qed.

Lemma neighbour_root fuel s rs key v :
  latches s = [] → root_block s ∉ obsolete s → blocks s !! root_block s = Some (Leaf rs) → is_u64 key →
  (∀ r, r ∈ rs → (vr_key r ≤ key)%Z) → find_neighbour st (S (S fuel)) [] 0%Z key v s = Some (None, s).
Proof.
  intros Hl Ho Hb Hkey Hle. remember (S fuel) as f eqn:Hf. cbn [find_neighbour]. subst f.
  assert (is_u64 (inc_key key)) as Hinc.
  { unfold is_u64, inc_key in *. destruct (_ <=? _)%Z eqn:E; unfold U64_MAX in *; lia. }
  destruct (search_root fuel s rs (inc_key key) Hl Ho Hb Hinc) as (g & Hg & Hv & Hpage).
  erewrite bind_comp_eq; [|exact Hpage]. cbv zeta. erewrite bind_comp_eq; [|done]. cbn beta iota.
  assert (guard_deref st g s = Some (Some (Leaf rs), s)) as Hd.
  { unfold guard_deref. erewrite bind_comp_eq; [|by apply guard_valid_alone]. rewrite Hg.
    by erewrite bind_comp_eq; [|by apply block_read]. }
  erewrite bind_comp_eq; [|exact Hd]. cbn beta iota. erewrite bind_comp_eq; [|done].
  erewrite bind_comp_eq; [|by apply no_greater]. cbn beta iota. erewrite bind_comp_eq; [|by apply guard_valid_alone]. done.
Qed.
End waiting.

Lemma search_last {A} (f : A → Z) (l : list A) x :
  sorted_by f l → last l = Some x → binary_search_by_key f (f x) l = inl (length l - 1).
Proof.
  intros Hs Hl. pose proof Hl as [l' ->]%last_Some. rewrite length_app Nat.add_sub.
  destruct (binary_search_by_key f (f x) (l' ++ [x])) as [i|i] eqn:E.
  - destruct (search_found f _ _ _ E) as (y & Hi & Hy). f_equal.
    apply (proj1 (NoDup_alt _) (sorted_NoDup f _ Hs) i (length l') (f x)); rewrite list_lookup_fmap.
    + by rewrite Hi /= Hy.
    + by rewrite list_lookup_middle.
  - exfalso. destruct (search_missing f _ _ _ E) as [_ Hne].
    apply (Hne x); [|done]. apply elem_of_app. right. by left.
Qed.

Lemma last_greatest {A} (f : A → Z) (l : list A) x y :
  sorted_by f l → last l = Some x → y ∈ l → (f y ≤ f x)%Z.
Proof.
  intros Hs Hl [i Hi]%list_elem_of_lookup. rewrite last_lookup in Hl.
  pose proof (lookup_lt_Some _ _ _ Hi).
  eapply (sorted_le_lookup (f <$> l) i (pred (length l))); [exact Hs| | |lia]; by rewrite list_lookup_fmap ?Hi ?Hl.
Qed.

(** What the callback of a write to the last record of a leaf does. *)
Lemma callback_searches {P : Type} (st : LockingStrategy) fuel (pinned : bool) (s : MVBPlusTree (VWeaverNodeSt P))
    links g version rs (r : VersionedRecordPoint (VWeaverNodeSt P)) n next :
  guard_valid_local g = true → blocks s !! g_block g = Some (Leaf rs) → sorted_by vr_key rs → last rs = Some r →
  Weaver.find_any (version_index r) version = Some (Some n) → wn_next n = Some next →
  links !! node_id next = None →
  weaver_callback st fuel pinned g (vr_key r) version (mkWeaver s links) =
    (next_weaver_node ← on_tree (holding st pinned (g_block g) (find_neighbour st fuel [] 0%Z (vr_key r) version));
     match next_weaver_node with
     | Some next_weaver_node => link next next_weaver_node
     | None => mret ()
     end) (mkWeaver s links).
Proof.
  intros Hg Hn Hs Hl Hfind Hnext Hlink. unfold weaver_callback.
  assert (on_tree (guard_deref_unsafe g) (mkWeaver s links) = Some (Some (Leaf rs), mkWeaver s links)) as Hderef.
  { unfold on_tree, guard_deref_unsafe. rewrite Hg. cbn [tree k_ridgy].
    by erewrite bind_comp_eq; [|by apply block_read]. }
  erewrite bind_comp_eq; [|exact Hderef]. do 2 (erewrite bind_comp_eq; [|done]).
  rewrite (search_last vr_key rs r Hs Hl). erewrite bind_comp_eq; [|done].
  assert (rs !! (length rs - 1) = Some r) as Hlast by (rewrite Nat.sub_1_r -last_lookup; exact Hl).
  erewrite bind_comp_eq; [|by rewrite /lift Hlast]. erewrite bind_comp_eq; [|by rewrite /lift Hfind].
  do 2 (erewrite bind_comp_eq; [|done]). cbn [k_ridgy]. rewrite Hnext Hlink.
  destruct (decide _) as [Hlt|_]; [|done]. exfalso. destruct rs; [done|]. simpl in Hlt. lia.
Qed.

(** C22: a writer can wait for itself for ever. In a tree of one leaf, let a writer
    that holds the leaf have replaced the newest version of the greatest key. Its
    callback looks for the next key in the leaf that covers the successor: the
    leaf it holds. It returns with no amount of fuel, since every round of its
    search ends by asking for another, without end; and nothing else is in its
    way, since a writer that only pins the leaf returns from the same callback in
    the same tree. Of the operations under [OLC] an insertion holds its leaf, an
    update or a deletion pins it; the strategy with a readers-writer lock beside
    the word blocks in the search instead and is not covered. *)
Theorem weaver_callback_hangs {P : Type} (st : LockingStrategy) (w : WeaverTree P) g
    version rs (r : VersionedRecordPoint (VWeaverNodeSt P)) n next :
  is_optimistic st = true → is_hybrid_lock st = false →
  root_block (tree w) = g_block g → guard_valid_local g = true →
  blocks (tree w) !! g_block g = Some (Leaf rs) → sorted_by vr_key rs → last rs = Some r → is_u64 (vr_key r) →
  Weaver.find_any (version_index r) version = Some (Some n) → wn_next n = Some next →
  k_ridgy w !! node_id next = None →
  (∀ fuel, weaver_callback st fuel false g (vr_key r) version w = None) ∧
  (∃ turns : nat → Path * Z * Attempts * MVBPlusTree (VWeaverNodeSt P),
    turns 0 = ([], 0%Z, 0%Z, held_by_writer (g_block g) (tree w)) ∧
    ∀ i, search_turn st (inc_key (vr_key r)) (turns i) (turns (S i))) ∧
  (latches (tree w) = [] → g_block g ∉ obsolete (tree w) →
    ∀ fuel, weaver_callback st (S (S fuel)) true g (vr_key r) version w = Some ((), w)).
Proof.
  destruct w as [s links]. cbn [tree k_ridgy]. intros Ho Hh Hroot Hg Hn Hs Hl Hu Hfind Hnext Hlink.
  assert (root_block (held_by_writer (g_block g) s) ∈ obsolete (held_by_writer (g_block g) s)) as Hheld.
  { unfold held_by_writer. cbn. rewrite Hroot. set_solver. }
  split; [|split].
  - intros fuel. erewrite callback_searches; [|done..]. apply bind_none. unfold on_tree, holding. cbn [tree].
    assert ((sealed ← gets obsolete; modify (set_obsolete ({[g_block g]} ∪ sealed));;
      a ← find_neighbour st fuel [] 0%Z (vr_key r) version; modify (set_obsolete sealed);; mret a) s = None) as E.
    { erewrite bind_comp_eq; [|done]. erewrite bind_comp_eq; [|done]. by apply bind_none, neighbour_sealed. }
    destruct st; try done; cbn [andb]; by rewrite E.
  - exists (λ i, ([], 0%Z, u32_wrap (Z.of_nat i), held_by_writer (g_block g) s)). split; [done|].
    intros i. replace (u32_wrap (Z.of_nat (S i))) with (u32_wrap (u32_wrap (Z.of_nat i) + 1)).
    { by apply sealed_turn. }
    unfold u32_wrap. rewrite Zplus_mod_idemp_l. f_equal. lia.
  - intros Hlat Hobs fuel. erewrite callback_searches; [|done..].
    erewrite (bind_comp_eq _ _ _ None (mkWeaver s links)); [done|]. unfold on_tree. cbn [tree k_ridgy].
    assert (∀ r', r' ∈ rs → (vr_key r' ≤ vr_key r)%Z) as Hle
      by (intros r'; by apply last_greatest).
    rewrite -Hroot in Hn, Hobs.
    assert (holding st true (g_block g) (find_neighbour st (S (S fuel)) [] 0%Z (vr_key r) version) s =
      Some (None, s)) as ->; [|done].
    assert (holding st true (g_block g) (find_neighbour st (S (S fuel)) [] 0%Z (vr_key r) version) =
      find_neighbour st (S (S fuel)) [] 0%Z (vr_key r) version) as -> by by destruct st.
    by eapply neighbour_root.
Qed.

(** ** Examples *)
Definition ex_weaver_run (st : LockingStrategy) (ops : list (bool * CRUDOperation Z))
    : option (list (CRUDOperationResult Z) * WeaverTree Z) :=
  dispatch_weaver_all 7 14 st false 0 0%Z 0%Z 100 ops make_weaver.

Definition deleted_between : list (bool * CRUDOperation Z) :=
  (true,.) <$> [Insert 10 1; Insert 20 2; Insert 30 3; Delete 20; Update 10 5; Insert 20 6]%Z.

Definition ex_deleted : WeaverTree Z := from_option snd make_weaver (ex_weaver_run MonoWriter deleted_between).

Lemma ex_deleted_good : ∃ m, weaver_good 7 14 0 ex_deleted m ∧ size m ≤ 6.
Proof.
  assert (Forall (λ o, weaver_op_ok o.2) deleted_between) as Hok by (repeat constructor; by vm_compute).
  pose proof (wp_dispatch_weaver_all 7 14 ltac:(lia) ltac:(lia) MonoWriter eq_refl eq_refl mono_unhindered
    0 0%Z 0%Z 300 deleted_between make_weaver ∅ Hok
    (make_weaver_good 7 14 ltac:(lia) ltac:(lia) [] (length deleted_between) eq_refl)
    ltac:(change (2 * 0 + 200 + 2 * (0 + 6) ≤ 300); lia)) as Hwp.
  destruct (proj1 (wp_run _ _ _) Hwp) as (ress & w & Hrun & m & _ & Hgood & _ & Hm). exists m.
  assert (w = ex_deleted) as ->; [|by split].
  unfold ex_deleted, ex_weaver_run. clear -Hrun. vm_compute in Hrun |- *. by injection Hrun as _ <-.
Qed.

(** In a tree of one leaf the table is what the leaf holds. *)
Lemma root_history {P} F N n (w : WeaverTree P) m rs i r :
  weaver_good F N n w m → blocks (tree w) !! root_block (tree w) = Some (Leaf rs) → rs !! i = Some r →
  m !! vr_key r = Some (events (forget (version_index r))).
Proof.
  intros (((Γ & D & HI) & _) & _) Hroot Hr. pose proof (inv_root _ _ _ _ _ _ HI) as Ht.
  destruct (inv_store _ _ _ _ _ _ HI _ _ Ht) as (node & Hn & Hok). rewrite Hroot in Hn. injection Hn as <-.
  destruct Hok as (_ & Hrep & _). apply list_elem_of_lookup_2 in Hr.
  destruct (lr_ok _ _ Hrep r Hr) as (h & Hh & [[<- _ _] _]%index_node).
  rewrite restrict_lookup in Hh. by case_match.
Qed.

Lemma weaver_scan_loses_key_witness : ∃ records l l',
  dispatch_weaver 7 14 MonoWriter false 0 0%Z 0%Z 300 true (Range (Interval.new 10 100) 3%Z) ex_deleted =
    Some (MatchedRecords records, mkWeaver (set_latches l (tree ex_deleted)) (k_ridgy ex_deleted)) ∧
  (10 ≤ 20 ≤ 100)%Z ∧ (20%Z ∉ records.*1) ∧
  dispatch_weaver 7 14 MonoWriter false 0 0%Z 0%Z 300 true (Point 20%Z 3%Z) ex_deleted =
    Some (MatchedRecord (Some (20, 2)%Z), mkWeaver (set_latches l' (tree ex_deleted)) (k_ridgy ex_deleted)).
Proof.
  destruct ex_deleted_good as (m & Hgood & Hsize).
  assert (∀ i k h, (r ← (match blocks (tree ex_deleted) !! 0 with Some (Leaf rs) => rs | _ => [] end) !! i;
    Some (vr_key r, events (forget (version_index r)))) = Some (k, h) → m !! k = Some h) as Hm.
  { intros i k h Hi. destruct (blocks (tree ex_deleted) !! 0) as [[keys cs|rs]|] eqn:E; [done| |done].
    destruct (rs !! i) as [r|] eqn:Er; [|done]. injection Hi as <- <-.
    eapply (root_history 7 14 0 ex_deleted m rs i); [exact Hgood| |exact Er]. rewrite -E. by vm_compute. }
  pose proof (Hm 0 10%Z _ ltac:(vm_compute; reflexivity)) as H10.
  pose proof (Hm 1 20%Z _ ltac:(vm_compute; reflexivity)) as H20.
  pose proof (Hm 2 30%Z _ ltac:(vm_compute; reflexivity)) as H30.
  eapply (weaver_scan_loses_key 7 14 ltac:(lia) ltac:(lia) MonoWriter eq_refl 0 0%Z 0%Z 300 true ex_deleted m 0
    10 100 3 10 20 2%Z); [exact Hgood|by vm_compute|by vm_compute|by vm_compute| | | |].
  - change (2 * 0 + 200 + 2 * size m ≤ 300). lia.
  - split; [done|]. intros j p Hj. lia.
  - do 6 eexists. split; [exact H10|]. split; [by vm_compute|]. split; [by vm_compute|]. split; [by vm_compute|].
    split; [by vm_compute|]. split; [by vm_compute|]. split; [by eexists|]. split; [by vm_compute|].
    do 2 eexists. split; [exact H30|by vm_compute].
  - do 2 eexists. split; [exact H20|by vm_compute].
Defined.

Definition last_record {A} (r : option (list (CRUDOperationResult Z) * A)) : option (CRUDOperationResult Z) :=
  '(ress, _) ← r; last ress.

(** A scan up to the greatest key of all finds that key twice: its successor is
    the key itself. *)
Lemma weaver_scan_twice :
  last_record (ex_weaver_run MonoWriter [(true, Insert 10%Z 1%Z); (true, Insert U64_MAX 2%Z);
    (true, Range (Interval.new 0 U64_MAX) 5%Z)]) =
    Some (MatchedRecords [(10, 1); (U64_MAX, 2); (U64_MAX, 2)]%Z).
Proof. vm_compute. reflexivity. Qed.

(** A small tree: splits, links across leaves, a deletion and reads. *)
Definition ex_weaver_ops : list (bool * CRUDOperation Z) :=
  (true,.) <$> [Insert 10 1; Insert 20 2; Insert 30 3; Insert 40 4; Insert 50 5; Update 20 6;
    Delete 10; Update 40 7; Insert 10 8; Point 20 3; PeekMax; Range (Interval.new 5 45) 6;
    RangeSi (Interval.new 0 100); PopMin; Empty]%Z.

Lemma ex_weaver_ok : Forall (λ o, weaver_op_ok o.2) ex_weaver_ops.
Proof. repeat constructor; by vm_compute. Qed.

Lemma ex_weaver_tree : ∃ ress (w : WeaverTree Z) (m : Table Z),
  dispatch_weaver_all 5 3 MonoWriter false 0 0%Z 0%Z 300 ex_weaver_ops make_weaver = Some (ress, w) ∧
  weaver_good 5 3 0 w m ∧ length (latches (tree w)) ≤ 0 ∧ size m ≤ 15.
Proof.
  pose proof (wp_dispatch_weaver_all 5 3 ltac:(lia) ltac:(lia) MonoWriter eq_refl eq_refl mono_unhindered
    0 0%Z 0%Z 300 ex_weaver_ops make_weaver ∅ ex_weaver_ok
    (make_weaver_good 5 3 ltac:(lia) ltac:(lia) [] (length ex_weaver_ops) eq_refl) ltac:(change (2 * 0 + 200 + 2 * (0 + 15) ≤ 300); lia))
    as Hwp.
  destruct (proj1 (wp_run _ _ _) Hwp) as (ress & w & Hrun & m & _ & H). exists ress, w, m. exact (conj Hrun H).
Qed.

Lemma weaver_refines_witness : ∃ ress w' (m' : Table Z),
  dispatch_weaver_all 5 3 MonoWriter false 0 0%Z 0%Z 300 ex_weaver_ops make_weaver = Some (ress, w') ∧
  weaver_steps 0%Z 0%Z false 0 clock_init ∅ ex_weaver_ops ress m' (clock (tree w')) ∧
  weaver_good 5 3 0 w' m'.
Proof.
  apply (weaver_refines 0%Z 0%Z 5 3 ltac:(lia) ltac:(lia) 0 300 ex_weaver_ops make_weaver ∅).
  - exact ex_weaver_ok.
  - apply (make_weaver_good 5 3 ltac:(lia) ltac:(lia) []). reflexivity.
  - change (2 * 0 + 200 + 2 * (0 + 15) ≤ 300). lia.
Defined.

Lemma weaver_links_true_witness : ∃ ress w (m : Table Z),
  dispatch_weaver_all 5 3 MonoWriter false 0 0%Z 0%Z 300 ex_weaver_ops (mkWeaver (set_latches [] make) ∅) =
    Some (ress, w) ∧
  weaver_steps 0%Z 0%Z false 0 clock_init ∅ ex_weaver_ops ress m (clock (tree w)) ∧
  ∀ k v n, k_ridgy w !! (k, v) = Some n → ∃ s h k' h',
    m !! k = Some h ∧ m !! k' = Some h' ∧ (k < k')%Z ∧ replaced h v s ∧
    node_for k' n (upto s h') ∧ ∀ j hj, (k < j < k')%Z → m !! j = Some hj → upto s hj = [].
Proof.
  apply (weaver_links_true 0%Z 0%Z 5 3 ltac:(lia) ltac:(lia) 0 300 ex_weaver_ops []).
  - exact ex_weaver_ok.
  - reflexivity.
  - change (2 * 0 + 200 + 2 * 15 ≤ 300). lia.
Defined.

(** A tree of one leaf with one record of two versions. *)
Definition ex_two_versions : VWeaverNodeSt Z :=
  WNode (Some (Weaver.new 10%Z 1%Z 1%Z)) None 10%Z (Some 2%Z) 2%Z 1%Z.
Definition ex_record : VersionedRecordPoint (VWeaverNodeSt Z) := mkVRecord 10%Z ex_two_versions.
Definition ex_waiting : WeaverTree Z :=
  mkWeaver (set_blocks {[0 := Leaf [ex_record]]} make) ∅.

Lemma is_u64_5 : is_u64 5.
Proof. by vm_compute. Qed.
Lemma ex_bounds : (lower (Interval.new 5 45) ≤ upper (Interval.new 5 45) < END_KEY)%Z.
Proof. by vm_compute. Qed.

Lemma weaver_scan_lasting_witness : ∃ ress (w : WeaverTree Z) (m : Table Z) records l,
  dispatch_weaver_all 5 3 MonoWriter false 0 0%Z 0%Z 300 ex_weaver_ops make_weaver = Some (ress, w) ∧
  weaver_scan_dispatch OLC 300 (Interval.new 5 45) 6%Z w =
    Some (records, mkWeaver (set_latches l (tree w)) (k_ridgy w)) ∧
  StronglySorted Z.lt records.*1 ∧
  (∀ k p, (k, p) ∈ records → Interval.contains (Interval.new 5 45) k = true ∧
    ∃ h v, m !! k = Some h ∧ hist_at h 6%Z = Some (v, p)) ∧
  (∀ k h v p, Interval.contains (Interval.new 5 45) k = true → m !! k = Some h →
    hist_at h 6%Z = Some (v, p) → lasting h 6%Z → (k, p) ∈ records).
Proof.
  destruct ex_weaver_tree as (ress & w & m & Hrun & Hgood & Hl & Hm).
  assert (2 * length (latches (tree w)) + 71 + 2 * size m < 300) as Hfuel by (clear -Hl Hm; lia).
  destruct (weaver_scan_lasting 5 3 ltac:(lia) ltac:(lia) OLC eq_refl 300 w m 0 (Interval.new 5 45) 6%Z Hgood
    is_u64_5 ex_bounds Hfuel) as (records & l & H).
  exists ress, w, m, records, l. exact (conj Hrun H).
Defined.

Lemma weaver_callback_hangs_witness :
  (∀ fuel, weaver_callback OLC fuel false (mkGuard 0 GuardWriter) (vr_key ex_record) 2%Z ex_waiting = None) ∧
  (∃ turns : nat → Path * Z * Attempts * MVBPlusTree (VWeaverNodeSt Z),
    turns 0 = ([], 0%Z, 0%Z, held_by_writer 0 (tree ex_waiting)) ∧
    ∀ i, search_turn OLC (inc_key (vr_key ex_record)) (turns i) (turns (S i))) ∧
  (latches (tree ex_waiting) = [] → 0 ∉ obsolete (tree ex_waiting) → ∀ fuel,
    weaver_callback OLC (S (S fuel)) true (mkGuard 0 GuardWriter) (vr_key ex_record) 2%Z ex_waiting =
      Some ((), ex_waiting)).
Proof.
  exact (weaver_callback_hangs (P := Z) OLC ex_waiting (mkGuard 0 GuardWriter) 2%Z
    [ex_record] ex_record ex_two_versions (Weaver.new 10%Z 1%Z 1%Z) eq_refl eq_refl
    eq_refl eq_refl eq_refl ltac:(repeat constructor) eq_refl ltac:(by vm_compute)
    ltac:(vm_compute; reflexivity) eq_refl ltac:(vm_compute; reflexivity)).
Defined.
