(* ===== verification/YcsbValue.v ===== *)
(** * The record values of the benchmark

    [src/src/ycsb/value.rs]: the payload is the key itself, or a block of 1024
    bytes that holds the key, a tag and a pattern made of the key, so that a
    record that was mixed up or torn is noticed. *)
From S2P Require Import Prelude.
From stdpp Require Import strings.
Local Open Scope Z_scope.

Definition RECORD_BYTES : nat := 1024.

(** [u64::rotate_left] *)
Definition rotate_left (x : Z) (k : Z) : Z :=
  Z.lor (u64_wrap (Z.shiftl x k)) (Z.shiftr x (64 - k)).

Definition to_le_bytes (x : Z) : list Z := Z_to_little_endian 8 8 x.
Definition from_le_bytes (bs : list Z) : Z := little_endian_to_Z 8 bs.

(** [slice.chunks_exact(8)] leaves out a shorter rest. *)
Fixpoint chunks_exact_8 {A} (l : list A) : list (list A) :=
  match l with
  | a :: b :: c :: d :: e :: f :: g :: h :: l => [a; b; c; d; e; f; g; h] :: chunks_exact_8 l
  | _ => []
  end.

(** What the trees store, and how the benchmark builds and checks it. Blobs get
    their tags from a counter of the thread. *)
Class Value (V : Type) := {
  bytes_of : nat;
  record : Z → Z → V * Z;
  tagged : Z → Z → V;
  tag : V → Z;
  check : V → Z → bool;
  value_default : V;
}.

Definition Inline8 := Z.
#[export] Instance Inline8_value : Value Inline8 := {|
  bytes_of := 8;
  record key next_tag := (key, next_tag);
  tagged _ tag := tag;
  tag v := v;
  check v key := v =? key;
  value_default := 0;
|}.

(** ** A kilobyte behind a pointer *)
Module Blob.
Definition t := list Z.
Definition GOLDEN : Z := 0x9E3779B97F4A7C15.

Definition word (key : Z) (index : nat) : Z :=
  Z.lxor (rotate_left key (Z.of_nat index `mod` 61)) (u64_wrap (GOLDEN * (Z.of_nat index + 1))).

Definition words (key : Z) : list (list Z) := (λ i, to_le_bytes (word key i)) <$> seq 0 126.

Definition build (key tag : Z) : t := to_le_bytes key ++ to_le_bytes tag ++ concat (words key).

Definition record (key next_tag : Z) : t * Z := (build key next_tag, u64_wrap (next_tag + 1)).
Definition tagged (key tag : Z) : t := build key tag.
Definition tag (self : t) : Z := from_le_bytes (take 8 (drop 8 self)).

Definition check (self : t) (key : Z) : bool :=
  bool_decide (take 8 self = to_le_bytes key) &&
  forallb (λ '(i, chunk), bool_decide (chunk = to_le_bytes (word key i)))
    (zip (seq 0 (length self)) (chunks_exact_8 (drop 16 self))).

Definition default : t := replicate RECORD_BYTES 0.
End Blob.

#[export] Instance Blob1K_value : Value Blob.t := {|
  bytes_of := RECORD_BYTES;
  record := Blob.record;
  tagged := Blob.tagged;
  tag := Blob.tag;
  check := Blob.check;
  value_default := Blob.default;
|}.

Inductive ValueKind := KInline8 | KBlob1K.
Definition value_bytes (self : ValueKind) : nat :=
  match self with KInline8 => bytes_of (V := Inline8) | KBlob1K => bytes_of (V := Blob.t) end.

Definition ValueKind_parse (bytes : string) : result ValueKind string :=
  if String.eqb bytes "8" then Ok KInline8
  else if String.eqb bytes "1024" || String.eqb bytes "1k" || String.eqb bytes "1K" then Ok KBlob1K
  else Err ("unsupported --value-size '" +:+ bytes +:+ "' (8 or 1024)")%string.

(** ** Blobs are what [build] makes *)
Lemma length_to_le_bytes x : length (to_le_bytes x) = 8%nat.
Proof. apply Nat2Z.inj. unfold to_le_bytes. by rewrite length_Z_to_little_endian. Qed.

Lemma from_to_le_bytes x : is_u64 x → from_le_bytes (to_le_bytes x) = x.
Proof.
  intros Hx. unfold from_le_bytes, to_le_bytes. rewrite little_endian_to_Z_to_little_endian; [|lia..].
  apply Z.mod_small. unfold is_u64, U64_MAX in Hx. lia.
Qed.

Lemma to_from_le_bytes bs :
  length bs = 8%nat → Forall (λ b, 0 ≤ b < 2 ^ 8) bs → to_le_bytes (from_le_bytes bs) = bs.
Proof.
  intros Hl Hb. unfold to_le_bytes, from_le_bytes. apply Z_to_little_endian_to_Z; [by rewrite Hl|lia|done].
Qed.

Lemma to_le_bytes_inj x y : is_u64 x → is_u64 y → to_le_bytes x = to_le_bytes y → x = y.
Proof. intros Hx Hy E. by rewrite -(from_to_le_bytes x Hx) -(from_to_le_bytes y Hy) E. Qed.

Lemma chunks_concat (n : nat) (l : list Z) :
  length l = (8 * n)%nat → concat (chunks_exact_8 l) = l ∧ length (chunks_exact_8 l) = n.
Proof.
  revert l. induction n as [|n IH]; intros l Hl; [by destruct l|].
  do 8 (destruct l as [|? l]; [simpl in Hl; lia|]). destruct (IH l) as [H1 H2]; [simpl in Hl; lia|].
  simpl. by rewrite H1 H2.
Qed.

Lemma chunks_words ws : Forall (λ w, length w = 8%nat) ws → chunks_exact_8 (concat ws : list Z) = ws.
Proof.
  induction 1 as [|w ws Hw _ IH]; [done|].
  do 8 (destruct w as [|? w]; [done|]). destruct w; [|done]. simpl. by rewrite IH.
Qed.

Lemma length_words key : Forall (λ w, length w = 8%nat) (Blob.words key).
Proof. apply Forall_fmap, Forall_forall. intros i _. apply length_to_le_bytes. Qed.

Lemma check_words (f : nat → list Z) (cs : list (list Z)) n m :
  length cs = n → (n ≤ m)%nat →
  forallb (λ '(i, chunk), bool_decide (chunk = f i)) (zip (seq 0 m) cs) = true ↔ cs = f <$> seq 0 n.
Proof.
  intros Hn Hm. rewrite forallb_forall. split.
  - intros Hall. apply list_eq. intros i. rewrite list_lookup_fmap.
    destruct (decide (i < n)%nat) as [Hi|Hi].
    + rewrite lookup_seq_lt //=. destruct (lookup_lt_is_Some_2 cs i ltac:(lia)) as [c Hc]. rewrite Hc. f_equal.
      assert ((i, c) ∈ zip (seq 0 m) cs) as Hin.
      { apply list_elem_of_lookup. exists i. apply lookup_zip_Some. split; [|done]. apply lookup_seq_lt. lia. }
      apply list_elem_of_In, Hall in Hin. by apply bool_decide_eq_true in Hin.
    + rewrite lookup_seq_ge; [|lia]. apply lookup_ge_None. lia.
  - intros -> [i c] Hin. apply list_elem_of_In, list_elem_of_lookup in Hin as [j Hj].
    apply lookup_zip_Some in Hj as [Hi Hc]. apply lookup_seq in Hi as [-> _].
    rewrite list_lookup_fmap_Some in Hc. destruct Hc as (k & -> & Hk). apply lookup_seq in Hk as [-> _].
    by apply bool_decide_eq_true.
Qed.

Definition is_bytes (l : list Z) : Prop := Forall (λ b, 0 ≤ b < 2 ^ 8) l.

Lemma build_parts key tag :
  take 8 (Blob.build key tag) = to_le_bytes key ∧ take 8 (drop 8 (Blob.build key tag)) = to_le_bytes tag ∧
  drop 16 (Blob.build key tag) = concat (Blob.words key).
Proof.
  unfold Blob.build. split_and!.
  - rewrite take_app_length' ?length_to_le_bytes //.
  - rewrite drop_app_length' ?length_to_le_bytes //.
  - rewrite app_assoc drop_app_length' //.
Qed.

Lemma length_parts (a b : list Z) (ws : list (list Z)) :
  length a = 8%nat → length b = 8%nat → Forall (λ w, length w = 8%nat) ws →
  length (a ++ b ++ concat ws) = (16 + 8 * length ws)%nat.
Proof.
  intros Ha Hb Hw. rewrite !length_app Ha Hb.
  induction Hw as [|w ws Hlen _ IH]; [done|]. simpl. rewrite length_app Hlen. simpl in IH. lia.
Qed.

Lemma length_build key tag : length (Blob.build key tag) = RECORD_BYTES.
Proof.
  assert (length (Blob.words key) = 126%nat) as Hw by (unfold Blob.words; by rewrite length_fmap length_seq).
  pose proof (length_parts (to_le_bytes key) (to_le_bytes tag) (Blob.words key) (length_to_le_bytes _)
    (length_to_le_bytes _) (length_words key)) as H. rewrite Hw in H. exact H.
Qed.

Lemma check_build key tag : Blob.check (Blob.build key tag) key = true.
Proof.
  destruct (build_parts key tag) as (H1 & _ & H3). unfold Blob.check. rewrite H1 H3 length_build.
  rewrite (chunks_words _ (length_words key)) (bool_decide_true _ eq_refl). cbn [andb].
  apply (check_words _ _ 126); [|unfold RECORD_BYTES; lia|reflexivity].
  unfold Blob.words. by rewrite length_fmap length_seq.
Qed.

Lemma check_is_build b key :
  length b = RECORD_BYTES → is_bytes b → Blob.check b key = true → b = Blob.build key (Blob.tag b).
Proof.
  intros Hl Hb. unfold Blob.check. rewrite andb_true_iff bool_decide_eq_true. intros [Hk Hw].
  destruct (chunks_concat 126 (drop 16 b)) as [Hc Hn]; [rewrite length_drop Hl; done|].
  apply (check_words _ _ 126) in Hw; [|done|rewrite Hl; unfold RECORD_BYTES; lia].
  unfold Blob.build. rewrite -Hk. unfold Blob.tag. rewrite to_from_le_bytes.
  - change (concat (Blob.words key)) with (concat ((λ i, to_le_bytes (Blob.word key i)) <$> seq 0 126)).
    rewrite -Hw Hc. rewrite -{1}(take_drop 8 b). f_equal. rewrite -{1}(take_drop 8 (drop 8 b)). f_equal.
    by rewrite drop_drop.
  - rewrite length_take length_drop Hl. done.
  - by apply Forall_take, Forall_drop.
Qed.

Lemma tag_is b : length b = RECORD_BYTES → is_bytes b → is_u64 (Blob.tag b).
Proof.
  intros Hl Hb. unfold Blob.tag, from_le_bytes. set (bs := take 8 (drop 8 b)).
  assert (length bs = 8%nat) as E by (unfold bs; rewrite length_take length_drop Hl; reflexivity).
  assert (Forall (λ x, 0 ≤ x < 2 ^ 8) bs) as Hbs by by apply Forall_take, Forall_drop.
  pose proof (little_endian_to_Z_bound 8 bs ltac:(lia) Hbs) as H. rewrite E in H.
  change (8 * Z.of_nat 8) with 64 in H. unfold is_u64, U64_MAX. lia.
Qed.
