(* ===== verification/YcsbWorkload.v ===== *)
(** * The workloads of the benchmark

    [src/src/ycsb/workload.rs]: a generator of random numbers, distributions of
    keys, and the choice of a key in a window of live keys. Doubles are those of
    the Standard Library's executable specification of IEEE 754; logarithm and
    exponential are parameters. *)
From S2P Require Import Prelude YcsbValue.
From Stdlib Require Import SpecFloat.
From stdpp Require Import strings.
Local Open Scope Z_scope.

(** ** [f64] *)
Definition f64 := spec_float.
Definition f64_of_Z (z : Z) : f64 := binary_normalize 53 1024 z 0 false.
Definition f64_add : f64 → f64 → f64 := SFadd 53 1024.
Definition f64_sub : f64 → f64 → f64 := SFsub 53 1024.
Definition f64_mul : f64 → f64 → f64 := SFmul 53 1024.
Definition f64_div : f64 → f64 → f64 := SFdiv 53 1024.
Definition f64_lt (x y : f64) : bool := SFltb x y.
Definition f64_le (x y : f64) : bool := SFleb x y.
Definition f64_max (x y : f64) : f64 :=
  match x, y with S754_nan, _ => y | _, S754_nan => x | _, _ => if f64_lt x y then y else x end.
Definition f64_is_finite (x : f64) : bool :=
  match x with S754_zero _ | S754_finite _ _ _ => true | _ => false end.

(** A decimal fraction is rounded as the quotient of two exact doubles is. *)
Definition f64_lit (num den : Z) : f64 := f64_div (f64_of_Z num) (f64_of_Z den).

(** [x as u64] truncates and saturates; [x.ceil()] before it rounds up. *)
Definition f64_to_u64 (x : f64) : Z :=
  match x with
  | S754_zero _ | S754_nan => 0
  | S754_infinity s => if s then 0 else U64_MAX
  | S754_finite s m e =>
      if s then 0 else Z.min U64_MAX (if 0 <=? e then Zpos m * 2 ^ e else Zpos m / 2 ^ (- e))
  end.

Definition f64_ceil_to_u64 (x : f64) : Z :=
  match x with
  | S754_finite false m e =>
      Z.min U64_MAX (if 0 <=? e then Zpos m * 2 ^ e else (Zpos m + 2 ^ (- e) - 1) / 2 ^ (- e))
  | _ => f64_to_u64 x
  end.

Definition f64_zero : f64 := f64_of_Z 0.
Definition f64_one : f64 := f64_of_Z 1.

(** What the source uses of the mathematical library. *)
Class Libm := { ln : f64 → f64; exp : f64 → f64; exp_m1 : f64 → f64; ln_1p : f64 → f64 }.

(** ** Random numbers *)
Module Rng.
Record t := mk { s0 : Z; s1 : Z; s2 : Z; s3 : Z }.

(** SplitMix64 seeds the four words of xoshiro256**. *)
Definition split_mix (z : Z) : Z * Z :=
  let z := u64_wrap (z + 0x9E3779B97F4A7C15) in
  let x := u64_wrap (Z.lxor z (Z.shiftr z 30) * 0xBF58476D1CE4E5B9) in
  let x := u64_wrap (Z.lxor x (Z.shiftr x 27) * 0x94D049BB133111EB) in
  (Z.lxor x (Z.shiftr x 31), z).

Definition new (seed : Z) : t :=
  let '(a, z) := split_mix seed in
  let '(b, z) := split_mix z in
  let '(c, z) := split_mix z in
  let '(d, _) := split_mix z in
  mk a b c d.

Definition next_u64 (self : t) : Z * t :=
  let result := u64_wrap (rotate_left (u64_wrap (s1 self * 5)) 7 * 9) in
  let shifted := u64_wrap (Z.shiftl (s1 self) 17) in
  let c := Z.lxor (s2 self) (s0 self) in
  let d := Z.lxor (s3 self) (s1 self) in
  let b := Z.lxor (s1 self) c in
  let a := Z.lxor (s0 self) d in
  let c := Z.lxor c shifted in
  let d := rotate_left d 45 in
  (result, mk a b c d).

Definition next_f64 (self : t) : f64 * t :=
  let '(x, self) := next_u64 self in
  (f64_mul (f64_of_Z (Z.shiftr x 11)) (f64_div f64_one (f64_of_Z (2 ^ 53))), self).

Definition below (self : t) (n : Z) : Z * t :=
  let '(x, self) := next_u64 self in (Z.shiftr (x * n) 64, self).
End Rng.

(** ** Distributions *)
Inductive Dist :=
  | Uniform
  | Zipfian (theta : f64)
  | Latest (theta : f64)
  | Hotspot (hot_frac hot_prob : f64).

Module Dist.
Local Open Scope string_scope.
Definition parse (name : string) (theta hot_frac hot_prob : f64) : result Dist string :=
  if negb (f64_is_finite theta) || f64_lt theta f64_zero
  then Err "--theta must be a finite number >= 0"
  else if negb (f64_is_finite hot_frac) || negb (f64_le f64_zero hot_frac && f64_le hot_frac f64_one)
  then Err "--hot-frac must be a finite number in [0, 1]"
  else if negb (f64_is_finite hot_prob) || negb (f64_le f64_zero hot_prob && f64_le hot_prob f64_one)
  then Err "--hot-prob must be a finite number in [0, 1]"
  else if String.eqb name "uniform" then Ok Uniform
  else if String.eqb name "zipf" || String.eqb name "zipfian" then
    Ok (if f64_le theta f64_zero then Uniform else Zipfian theta)
  else if String.eqb name "latest" then Ok (Latest theta)
  else if String.eqb name "hotspot" then Ok (Hotspot hot_frac hot_prob)
  else Err ("unknown distribution '" +:+ name +:+ "' (uniform|zipf|latest|hotspot)").
End Dist.

(** ** Zipfian ranks *)
Module ZipfParams.
Section zipf.
Context `{!Libm}.
Record t := mk { n : Z; theta : f64; h_integral_x1 : f64; h_integral_n : f64; s : f64 }.

(** [(exp(x) - 1) / x] and [ln(1 + x) / x]. *)
Definition tiny : f64 := f64_lit 1 (10 ^ 8).
Definition helper2 (x : f64) : f64 :=
  if f64_lt tiny (SFabs x) then f64_div (exp_m1 x) x
  else f64_add f64_one (f64_mul (f64_mul x (f64_lit 1 2))
    (f64_add f64_one (f64_mul (f64_div x (f64_of_Z 3)) (f64_add f64_one (f64_mul (f64_lit 1 4) x))))).
Definition helper1 (x : f64) : f64 :=
  if f64_lt tiny (SFabs x) then f64_div (ln_1p x) x
  else f64_sub f64_one (f64_mul x
    (f64_sub (f64_lit 1 2) (f64_mul x (f64_sub (f64_div f64_one (f64_of_Z 3)) (f64_mul (f64_lit 1 4) x))))).

Definition h (self : t) (x : f64) : f64 := exp (f64_mul (SFopp (theta self)) (ln x)).
Definition h_integral (self : t) (x : f64) : f64 :=
  let log_x := ln x in
  f64_mul (helper2 (f64_mul (f64_sub f64_one (theta self)) log_x)) log_x.
Definition h_integral_inverse (self : t) (x : f64) : f64 :=
  let t := f64_max (f64_mul x (f64_sub f64_one (theta self))) (f64_of_Z (-1)) in
  exp (f64_mul (helper1 t) x).

(** [None] is the failed assertion. *)
Definition new (n : Z) (theta : f64) : option t :=
  if f64_lt f64_zero theta && (1 <=? n) then
    let z := mk n theta f64_zero f64_zero f64_zero in
    let x1 := f64_sub (h_integral z (f64_lit 3 2)) f64_one in
    let hn := h_integral z (f64_add (f64_of_Z n) (f64_lit 1 2)) in
    let z := mk n theta x1 hn f64_zero in
    Some (mk n theta x1 hn
      (f64_sub (f64_of_Z 2) (h_integral_inverse z (f64_sub (h_integral z (f64_lit 5 2)) (h z (f64_of_Z 2))))))
  else None.

Fixpoint sample (fuel : nat) (self : t) (rng : Rng.t) : option (Z * Rng.t) :=
  match fuel with
  | O => None
  | S fuel =>
      let '(r, rng) := Rng.next_f64 rng in
      let u := f64_add (h_integral_n self) (f64_mul r (f64_sub (h_integral_x1 self) (h_integral_n self))) in
      let x := h_integral_inverse self u in
      let k := Z.min (n self) (Z.max 1 (f64_to_u64 (f64_add x (f64_lit 1 2)))) in
      if f64_le (f64_sub (f64_of_Z k) x) (s self) ||
         f64_le (f64_sub (h_integral self (f64_add (f64_of_Z k) (f64_lit 1 2))) (h self (f64_of_Z k))) u
      then Some (k - 1, rng) else sample fuel self rng
  end.
End zipf.
End ZipfParams.

(** ** Scrambled ranks *)
Module Scramble.
Record t := mk { n : Z; a : Z; b : Z }.

(** Two steps halve the second number. *)
Fixpoint gcd (fuel : nat) (a b : Z) : Z :=
  match fuel with
  | O => 0
  | S fuel => if b =? 0 then a else gcd fuel b (a mod b)
  end.
Definition gcd_u64 (a b : Z) : Z := gcd 130 a b.

Fixpoint coprime_from (fuel : nat) (a n : Z) : option Z :=
  match fuel with
  | O => None
  | S fuel => if gcd_u64 a n =? 1 then Some a else coprime_from fuel (u64_wrap (a + 2)) n
  end.

Definition start (n : Z) : Z :=
  Z.lor (f64_to_u64 (f64_mul (f64_of_Z n) (f64_lit 6180339887 (10 ^ 10)))) 1.

Definition new (fuel : nat) (n : Z) : option t :=
  a ← coprime_from fuel (start n) n; Some (mk n a (n / 3)).

(** In 128 bits; [None] is a division by zero. *)
Definition apply (self : t) (rank : Z) : option Z :=
  if n self =? 0 then None else Some ((rank * a self + b self) mod n self).
End Scramble.

(** ** The choice of a key *)
Module KeyChooser.
Section chooser.
Context `{!Libm}.
Record t := mk { dist : Dist; records : Z; zipf : option ZipfParams.t; scramble : option Scramble.t }.

Definition new (fuel : nat) (dist : Dist) (records : Z) (scramble : bool) : option t :=
  zipf ← (match dist with
          | Zipfian theta | Latest theta => Some <$> ZipfParams.new records theta
          | _ => Some None
          end);
  scramble ← (if scramble && match dist with Zipfian _ | Hotspot _ _ => true | _ => false end
              then Some <$> Scramble.new fuel records else Some None);
  Some (mk dist records zipf scramble).

Definition share (self : t) : t := mk (dist self) (records self) (zipf self) (scramble self).

(** A rank, folded onto the window. *)
Definition fold_rank (self : t) (lo window rank : Z) : option Z :=
  id ← (match scramble self with Some s => Scramble.apply s rank | None => Some rank end);
  if window =? 0 then None else Some (u64_wrap (lo + id mod window)).

Definition next (fuel : nat) (self : t) (rng : Rng.t) (lo hi : Z) : option (Z * Rng.t) :=
  let window := u64_wrap (Z.max 0 (hi - lo) + 1) in
  match dist self with
  | Uniform => let '(x, rng) := Rng.below rng window in Some (u64_wrap (lo + x), rng)
  | Zipfian _ =>
      z ← zipf self;
      '(rank, rng) ← ZipfParams.sample fuel z rng;
      key ← fold_rank self lo window rank; Some (key, rng)
  | Latest _ =>
      z ← zipf self;
      '(back, rng) ← ZipfParams.sample fuel z rng;
      Some (u64_wrap (hi - Z.min back (u64_wrap (window - 1))), rng)
  | Hotspot hot_frac hot_prob =>
      let hot := Z.max 1 (f64_to_u64 (f64_mul (f64_of_Z (records self)) hot_frac)) in
      let '(x, rng) := Rng.next_f64 rng in
      let '(rank, rng) :=
        if f64_lt x hot_prob then Rng.below rng hot
        else let '(x, rng) := Rng.below rng (Z.max 1 (u64_wrap (records self - hot))) in
             (u64_wrap (hot + x), rng) in
      key ← fold_rank self lo window rank; Some (key, rng)
  end.
End chooser.
End KeyChooser.

(** ** The mix of operations *)
Inductive Op := Read | Update | Insert | Delete | Scan | ReadModifyWrite.
Definition OPS : list Op := [Read; Update; Insert; Delete; Scan; ReadModifyWrite].
#[export] Instance Op_eq_dec : EqDecision Op.
Proof. solve_decision. Defined.
Definition op_index (self : Op) : nat :=
  match self with Read => 0 | Update => 1 | Insert => 2 | Delete => 3 | Scan => 4 | ReadModifyWrite => 5 end.
Definition op_name (self : Op) : string :=
  match self with
  | Read => "read"
  | Update => "update"
  | Insert => "insert"
  | Delete => "delete"
  | Scan => "scan"
  | ReadModifyWrite => "rmw"
  end.

(** Six shares in percent, in the order of [OPS]. *)
Module Mix.
Definition t := list f64.

Fixpoint pick_loop (ops : list (Op * f64)) (x : f64) : Op :=
  match ops with
  | [] => Read
  | (op, share) :: ops => if f64_lt x share then op else pick_loop ops (f64_sub x share)
  end.

Definition pick (self : t) (rng : Rng.t) : Op * Rng.t :=
  let '(r, rng) := Rng.next_f64 rng in
  (pick_loop (zip OPS self) (f64_mul r (f64_of_Z 100)), rng).
End Mix.

Inductive DeleteKeys := FromDistribution | Oldest.
#[export] Instance DeleteKeys_eq_dec : EqDecision DeleteKeys.
Proof. solve_decision. Defined.

Record Preset := mkPreset { p_mix : Mix.t; p_dist : Dist; p_deletes : DeleteKeys }.

Definition shares (l : list Z) : Mix.t := f64_of_Z <$> l.

Definition preset (name : string) (theta : f64) : option Preset :=
  let flat := f64_le theta f64_zero in
  let zipf := if flat then Uniform else Zipfian theta in
  let p mix dist deletes := Some (mkPreset (shares mix) dist deletes) in
  if String.eqb name "a" then p [50; 50; 0; 0; 0; 0] zipf FromDistribution
  else if String.eqb name "b" then p [95; 5; 0; 0; 0; 0] zipf FromDistribution
  else if String.eqb name "c" then p [100; 0; 0; 0; 0; 0] zipf FromDistribution
  else if String.eqb name "d"
  then p [95; 0; 5; 0; 0; 0] (Latest (if flat then f64_lit 99 100 else theta)) FromDistribution
  else if String.eqb name "e" then p [0; 0; 5; 0; 95; 0] zipf FromDistribution
  else if String.eqb name "f" then p [50; 0; 0; 0; 0; 50] zipf FromDistribution
  else if String.eqb name "churn" then p [25; 25; 25; 25; 0; 0] zipf Oldest
  else if String.eqb name "update-heavy" then p [10; 90; 0; 0; 0; 0] zipf FromDistribution
  else None.

(** ** Bounds *)
Lemma u64_wrap_is x : is_u64 (u64_wrap x).
Proof. unfold is_u64, u64_wrap, U64_MAX. pose proof (Z.mod_pos_bound x (2 ^ 64) ltac:(lia)). lia. Qed.

Lemma u64_wrap_small x : is_u64 x → u64_wrap x = x.
Proof. intros Hx. unfold is_u64, U64_MAX in Hx. unfold u64_wrap. apply Z.mod_small. lia. Qed.

Lemma rng_below_lt rng n : 0 < n → 0 ≤ (Rng.below rng n).1 < n.
Proof.
  intros Hn. unfold Rng.below, Rng.next_u64. cbn [fst].
  pose proof (u64_wrap_is (rotate_left (u64_wrap (Rng.s1 rng * 5)) 7 * 9)) as Hx. unfold is_u64, U64_MAX in Hx.
  rewrite Z.shiftr_div_pow2; [|lia]. split; [apply Z.div_pos; nia|].
  apply Z.div_lt_upper_bound; nia.
Qed.

Lemma sample_lt `{!Libm} fuel z rng k rng' :
  1 ≤ ZipfParams.n z → ZipfParams.sample fuel z rng = Some (k, rng') → 0 ≤ k < ZipfParams.n z.
Proof.
  intros Hn. revert rng. induction fuel as [|fuel IH]; intros rng; [done|].
  cbn [ZipfParams.sample]. destruct (Rng.next_f64 rng) as [r rng1]. cbv zeta.
  destruct (_ || _); [|apply IH]. intros [= <- _]. lia.
Qed.

(** ** Euclid's algorithm *)
Lemma gcd_step a b : b ≠ 0 → Z.gcd b (a mod b) = Z.gcd a b.
Proof. intros Hb. rewrite Z.gcd_comm Z.gcd_mod //. apply Z.gcd_comm. Qed.

Lemma gcd_ok k fuel a b :
  0 ≤ a → 0 ≤ b < 2 ^ Z.of_nat k → (2 * k < fuel)%nat → Scramble.gcd fuel a b = Z.gcd a b.
Proof.
  revert fuel a b. induction k as [|k IH]; intros fuel a b Ha Hb Hf; (destruct fuel as [|fuel]; [lia|]); simpl.
  - assert (b = 0) as -> by (simpl in Hb; lia). by rewrite Z.gcd_0_r Z.abs_eq.
  - destruct (b =? 0) eqn:E; [apply Z.eqb_eq in E as ->; by rewrite Z.gcd_0_r Z.abs_eq|]. apply Z.eqb_neq in E.
    pose proof (Z.mod_pos_bound a b ltac:(lia)) as Hr. set (r := a mod b) in *.
    assert (Z.gcd b r = Z.gcd a b) as Hg by by apply gcd_step.
    destruct fuel as [|fuel]; [lia|]. simpl. destruct (r =? 0) eqn:E'.
    + apply Z.eqb_eq in E'. rewrite -Hg E' Z.gcd_0_r Z.abs_eq; [done|lia].
    + apply Z.eqb_neq in E'. rewrite (IH fuel r (b mod r)); [|lia| |lia].
      * by rewrite -Hg gcd_step.
      * pose proof (Z.mod_pos_bound b r ltac:(lia)). pose proof (Z.div_mod b r ltac:(lia)) as Hd.
        assert (1 ≤ b / r) by (apply Z.div_le_lower_bound; lia).
        rewrite Nat2Z.inj_succ Z.pow_succ_r in Hb; [|lia]. nia.
Qed.

Lemma gcd_u64_ok a b : is_u64 a → is_u64 b → Scramble.gcd_u64 a b = Z.gcd a b.
Proof.
  unfold is_u64, U64_MAX. intros Ha Hb. apply (gcd_ok 64); [lia| |lia].
  change (Z.of_nat 64) with 64. lia.
Qed.

#[local] Opaque Scramble.gcd_u64.

(** ** The scramble *)
Lemma coprime_from_ok fuel a n a' :
  is_u64 a → is_u64 n → Scramble.coprime_from fuel a n = Some a' → is_u64 a' ∧ Z.gcd a' n = 1.
Proof.
  intros Ha Hn. revert a Ha. induction fuel as [|fuel IH]; intros a Ha; [done|]. simpl.
  destruct (Scramble.gcd_u64 a n =? 1) eqn:E.
  - intros [= <-]. apply Z.eqb_eq in E. rewrite gcd_u64_ok in E; done.
  - apply IH, u64_wrap_is.
Qed.

(** The search wraps around to 1 at the latest. *)
Lemma coprime_from_ends d a n :
  is_u64 n → 1 ≤ a < 2 ^ 64 → 2 * Z.of_nat d = 2 ^ 64 + 1 - a →
  ∃ a', Scramble.coprime_from (S d) a n = Some a'.
Proof.
  intros Hn. revert a. induction d as [|d IH]; intros a Ha Hd; [lia|].
  remember (S d) as f eqn:Hf. cbn [Scramble.coprime_from]. destruct (_ =? 1); [by eexists|]. subst f.
  destruct (decide (a + 2 < 2 ^ 64)) as [Hlt|Hge].
  - rewrite u64_wrap_small; [|unfold is_u64, U64_MAX; lia]. apply IH; lia.
  - assert (u64_wrap (a + 2) = 1) as ->.
    { unfold u64_wrap. replace (a + 2) with (1 + 1 * 2 ^ 64) by lia. by rewrite Z.mod_add. }
    exists 1. cbn [Scramble.coprime_from]. rewrite gcd_u64_ok //. by rewrite Z.gcd_1_l.
Qed.

Lemma f64_to_u64_is x : is_u64 (f64_to_u64 x).
Proof.
  unfold is_u64. destruct x as [| [] | | [] m e]; simpl; try (unfold U64_MAX; lia). case_match; [|].
  - pose proof (Z.pow_nonneg 2 e ltac:(lia)). unfold U64_MAX. nia.
  - pose proof (Z.div_pos (Zpos m) (2 ^ (- e)) ltac:(lia)) as Hd.
    destruct (decide (0 < 2 ^ (- e))); [unfold U64_MAX; lia|].
    assert (2 ^ (- e) = 0) as -> by (pose proof (Z.pow_nonneg 2 (- e) ltac:(lia)); lia).
    rewrite Z.div_0_r. unfold U64_MAX. lia.
Qed.

Lemma lor_1 x : 0 ≤ x → Z.lor x 1 = 2 * (x / 2) + 1.
Proof.
  intros Hx. apply Z.bits_inj'. intros i Hi. rewrite Z.lor_spec.
  destruct (decide (i = 0)) as [->|Hne]; [by rewrite Z.testbit_odd_0 orb_true_r|].
  rewrite -(Z.succ_pred i) Z.testbit_odd_succ; [|lia]. rewrite Z.div2_bits; [|lia].
  rewrite (Z.bits_above_log2 1); [by rewrite orb_false_r|lia|change (Z.log2 1) with 0; lia].
Qed.

Lemma start_odd n : 1 ≤ Scramble.start n < 2 ^ 64 ∧ ∃ d : nat, 2 * Z.of_nat d = 2 ^ 64 + 1 - Scramble.start n.
Proof.
  unfold Scramble.start. set (x := f64_to_u64 _). pose proof (f64_to_u64_is _ : is_u64 x) as Hx. clearbody x.
  unfold is_u64, U64_MAX in Hx.
  rewrite lor_1; [|lia]. pose proof (Z.div_mod x 2 ltac:(lia)). pose proof (Z.mod_pos_bound x 2 ltac:(lia)).
  split; [lia|]. exists (Z.to_nat (2 ^ 63 - x / 2)). lia.
Qed.
#[local] Opaque Scramble.start.

Lemma scramble_new_ends n : is_u64 n → ∃ fuel s, Scramble.new fuel n = Some s.
Proof.
  intros Hn. destruct (start_odd n) as [Ha [d Hd]]. destruct (coprime_from_ends d _ n Hn Ha Hd) as [a E].
  exists (S d). eexists. unfold Scramble.new. by rewrite E.
Qed.

Lemma scramble_new_ok fuel n s :
  is_u64 n → Scramble.new fuel n = Some s →
  Scramble.n s = n ∧ is_u64 (Scramble.a s) ∧ Z.gcd (Scramble.a s) n = 1.
Proof.
  intros Hn (a & Ha & Hs)%bind_Some. injection Hs as <-. destruct (start_odd n) as [Hstart _].
  apply coprime_from_ok in Ha as [? ?]; [done|unfold is_u64, U64_MAX; lia|done].
Qed.

Lemma apply_range s r : 0 < Scramble.n s → ∃ id, Scramble.apply s r = Some id ∧ 0 ≤ id < Scramble.n s.
Proof.
  intros Hn. unfold Scramble.apply. rewrite (proj2 (Z.eqb_neq _ _)); [|lia]. eexists. split; [done|].
  apply Z.mod_pos_bound. lia.
Qed.

Lemma apply_inj s r r' id :
  Z.gcd (Scramble.a s) (Scramble.n s) = 1 → 0 ≤ r < Scramble.n s → 0 ≤ r' < Scramble.n s →
  Scramble.apply s r = Some id → Scramble.apply s r' = Some id → r = r'.
Proof.
  destruct s as [n a b]. unfold Scramble.apply. simpl. intros Hg Hr Hr'.
  rewrite (proj2 (Z.eqb_neq n 0)); [|lia]. intros [= <-] [= E].
  assert ((n | a * (r - r'))) as Hd.
  { apply Z.mod_divide; [lia|]. replace (a * (r - r')) with ((r * a + b) - (r' * a + b)) by lia.
    rewrite Zminus_mod E Z.sub_diag. apply Z.mod_0_l. lia. }
  apply Z.gauss in Hd; [|by rewrite Z.gcd_comm]. destruct Hd as [q Hq].
  assert (q = 0) by nia. lia.
Qed.

Lemma fold_rank_in `{!Libm} c lo hi rank :
  (∀ s, KeyChooser.scramble c = Some s → 0 < Scramble.n s) → is_u64 lo → is_u64 hi → lo ≤ hi → 0 ≤ rank →
  ∃ key, KeyChooser.fold_rank c lo (hi - lo + 1) rank = Some key ∧ lo ≤ key ≤ hi.
Proof.
  intros Hs Hlo Hhi Hle Hr. unfold KeyChooser.fold_rank.
  assert (∃ id, match KeyChooser.scramble c with Some s => Scramble.apply s rank | None => Some rank end = Some id)
    as [id ->].
  { destruct (KeyChooser.scramble c) as [s|]; [|by eexists]. destruct (apply_range s rank) as (id & Hid & _); [by apply Hs|].
    by exists id. }
  cbn [mbind option_bind]. rewrite (proj2 (Z.eqb_neq _ _)); [|lia]. eexists. split; [done|].
  pose proof (Z.mod_pos_bound id (hi - lo + 1) ltac:(lia)). unfold is_u64 in *.
  rewrite u64_wrap_small; unfold is_u64; lia.
Qed.

Lemma zipf_new_ok `{!Libm} n theta z : ZipfParams.new n theta = Some z → ZipfParams.n z = n ∧ 1 ≤ n.
Proof.
  unfold ZipfParams.new. destruct (_ && _) eqn:E; [|discriminate]. intros <-%(inj Some). cbn [ZipfParams.n].
  apply andb_true_iff in E as [_ E%Z.leb_le]. done.
Qed.

(** What a chooser is made of. *)
Record chooser_ok `{!Libm} (c : KeyChooser.t) : Prop := {
  ck_zipf z : KeyChooser.zipf c = Some z → 1 ≤ ZipfParams.n z;
  ck_scramble s : KeyChooser.scramble c = Some s → 0 < Scramble.n s;
}.

Lemma chooser_new_ok `{!Libm} fuel dist records scramble c :
  is_u64 records → 1 ≤ records → KeyChooser.new fuel dist records scramble = Some c →
  KeyChooser.dist c = dist ∧ KeyChooser.records c = records ∧ chooser_ok c.
Proof.
  intros Hr Hr1 (z & Hz & (s & Hs & Hc)%bind_Some)%bind_Some. injection Hc as <-.
  split; [done|]. split; [done|]. split; cbn [KeyChooser.zipf KeyChooser.scramble].
  - intros z' ->. destruct dist; try done;
      by apply fmap_Some in Hz as (? & [? ?]%zipf_new_ok & [= ->]); lia.
  - intros s' ->. destruct (scramble && _); [|done].
    apply fmap_Some in Hs as (? & (Hn & _)%scramble_new_ok & [= ->]); [lia|done].
Qed.

Lemma window_is lo hi :
  is_u64 lo → is_u64 hi → lo ≤ hi → hi - lo < U64_MAX → u64_wrap (Z.max 0 (hi - lo) + 1) = hi - lo + 1.
Proof. unfold is_u64. intros. rewrite u64_wrap_small; [lia|]. unfold is_u64. lia. Qed.

Lemma next_in_window `{!Libm} c fuel rng lo hi key rng' :
  chooser_ok c → is_u64 lo → is_u64 hi → lo ≤ hi → hi - lo < U64_MAX →
  KeyChooser.next fuel c rng lo hi = Some (key, rng') → lo ≤ key ≤ hi.
Proof.
  intros Hc Hlo Hhi Hle Hw. unfold KeyChooser.next. rewrite window_is //.
  assert (∀ rank rng1, 0 ≤ rank →
    (key ← KeyChooser.fold_rank c lo (hi - lo + 1) rank; Some (key, rng1)) = Some (key, rng') → lo ≤ key ≤ hi) as Hfold.
  { intros rank rng1 Hrank. destruct (fold_rank_in c lo hi rank) as (k & -> & Hk); [apply Hc|done..|].
    cbn [mbind option_bind]. intros [= <- _]. done. }
  destruct (KeyChooser.dist c) as [|theta|theta|frac prob].
  - pose proof (rng_below_lt rng (hi - lo + 1) ltac:(lia)) as Hb. destruct (Rng.below _ _) as [x rng1].
    cbn [fst] in Hb. intros [= <- _]. unfold is_u64 in *. rewrite u64_wrap_small; unfold is_u64; lia.
  - destruct (KeyChooser.zipf c) as [z|] eqn:Ez; [|done]. cbn [mbind option_bind].
    destruct (ZipfParams.sample fuel z rng) as [[rank rng1]|] eqn:Es; [|done]. cbn [mbind option_bind].
    apply Hfold. pose proof (ck_zipf _ Hc z Ez). by apply sample_lt in Es as [? _].
  - destruct (KeyChooser.zipf c) as [z|] eqn:Ez; [|done]. cbn [mbind option_bind].
    destruct (ZipfParams.sample fuel z rng) as [[back rng1]|] eqn:Es; [|done]. cbn [mbind option_bind].
    pose proof (ck_zipf _ Hc z Ez). apply sample_lt in Es as [? _]; [|done]. intros [= <- _].
    unfold is_u64 in *. rewrite (u64_wrap_small (hi - lo + 1 - 1)); [|unfold is_u64; lia].
    rewrite u64_wrap_small; unfold is_u64; lia.
  - set (hot := Z.max 1 _). destruct (Rng.next_f64 rng) as [x rng1]. destruct (f64_lt x prob).
    + pose proof (rng_below_lt rng1 hot ltac:(lia)) as Hb. destruct (Rng.below _ _) as [y rng2]. apply Hfold, Hb.
    + destruct (Rng.below _ _) as [y rng2]. apply Hfold. apply (u64_wrap_is (hot + y)).
Qed.

(** Without a logarithm there is nothing to reject. *)
Lemma next_returns `{!Libm} c fuel rng lo hi :
  chooser_ok c → is_u64 lo → is_u64 hi → lo ≤ hi → hi - lo < U64_MAX →
  KeyChooser.dist c = Uniform ∨ (∃ frac prob, KeyChooser.dist c = Hotspot frac prob) →
  is_Some (KeyChooser.next fuel c rng lo hi).
Proof.
  intros Hc Hlo Hhi Hle Hw Hd. unfold KeyChooser.next. rewrite window_is //.
  destruct Hd as [->|(frac & prob & ->)].
  - destruct (Rng.below _ _). by eexists.
  - set (hot := Z.max 1 _). destruct (Rng.next_f64 rng) as [x rng1].
    assert (∀ rank (rng2 : Rng.t), 0 ≤ rank →
      is_Some (key ← KeyChooser.fold_rank c lo (hi - lo + 1) rank; Some (key, rng2))) as Hfold.
    { intros rank rng2 Hrank. destruct (fold_rank_in c lo hi rank) as (k & -> & _); [apply Hc|done..|]. by eexists. }
    destruct (f64_lt x prob).
    + pose proof (rng_below_lt rng1 hot ltac:(lia)) as Hb. destruct (Rng.below _ _) as [y rng2]. apply Hfold, Hb.
    + destruct (Rng.below _ _) as [y rng2]. apply Hfold. apply (u64_wrap_is (hot + y)).
Qed.

(** [--dist latest] with no skew is let through, and the generator of ranks asserts. *)
Lemma latest_needs_skew `{!Libm} frac prob fuel records scramble :
  f64_is_finite frac = true → f64_le f64_zero frac && f64_le frac f64_one = true →
  f64_is_finite prob = true → f64_le f64_zero prob && f64_le prob f64_one = true →
  Dist.parse "latest" f64_zero frac prob = Ok (Latest f64_zero) ∧
  KeyChooser.new fuel (Latest f64_zero) records scramble = None.
Proof.
  intros Hf Hf1 Hp Hp1. unfold Dist.parse. rewrite Hf Hf1 Hp Hp1. split; [by vm_compute|].
  unfold KeyChooser.new, ZipfParams.new. change (f64_lt f64_zero f64_zero) with false. reflexivity.
Qed.
