(* ===== verification/YcsbStats.v ===== *)
(** * The statistics of the benchmark

    [src/src/ycsb/stats.rs]: a histogram of latencies with four buckets for every
    power of two, and the counters of a thread. *)
From S2P Require Import Prelude YcsbValue YcsbWorkload.
From Stdlib Require Import SpecFloat.
From Stdlib Require Import ZifyNat.
Ltac Zify.zify_post_hook ::= Z.div_mod_to_equations.
Local Open Scope Z_scope.

Module Histogram.
Record t := mk { buckets : list Z; count : Z }.

Definition new : t := mk (replicate 256 0) 0.

(** [63 - ns.leading_zeros()] is the logarithm. *)
Definition bucket_of (ns : Z) : Z :=
  if ns <? 4 then ns
  else let e := Z.log2 ns in e * 4 + Z.land (Z.shiftr ns (e - 2)) 3.

(** [None] is an index out of bounds. *)
Definition record (self : t) (ns : Z) : option t :=
  let idx := Z.to_nat (bucket_of ns) in
  c ← buckets self !! idx;
  Some (mk (<[idx := u64_wrap (c + 1)]> (buckets self)) (u64_wrap (count self + 1))).

Definition merge (self other : t) : t :=
  mk (zip_with (λ a b, u64_wrap (a + b)) (buckets self) (buckets other)) (u64_wrap (count self + count other)).

(** The lower bound of a bucket. *)
Definition bucket_floor (idx : Z) : Z :=
  if idx <? 4 then idx else Z.shiftl (4 + idx mod 4) (idx / 4 - 2).

Fixpoint quantile_loop (idx : Z) (buckets : list Z) (seen target : Z) : Z :=
  match buckets with
  | [] => 0
  | c :: buckets =>
      let seen := u64_wrap (seen + c) in
      if target <=? seen then bucket_floor idx else quantile_loop (idx + 1) buckets seen target
  end.

Definition target_of (count : Z) (q : f64) : Z := Z.max 1 (f64_ceil_to_u64 (f64_mul (f64_of_Z count) q)).

Definition quantile (self : t) (q : f64) : Z :=
  if count self =? 0 then 0 else quantile_loop 0 (buckets self) 0 (target_of (count self) q).
End Histogram.

Record OpStats := mkOpStats { attempted : Z; succeeded : Z; latency : Histogram.t }.

Module ThreadStats.
Record t := mk { ops : list OpStats; violations : Z; scanned_records : Z }.

Definition new : t := mk ((λ _, mkOpStats 0 0 Histogram.new) <$> OPS) 0 0.

Definition record (self : t) (op : Op) (ok : bool) (ns : Z) : option t :=
  s ← ops self !! op_index op;
  latency ← Histogram.record (latency s) ns;
  Some (mk (<[op_index op := mkOpStats (u64_wrap (attempted s + 1)) (u64_wrap (succeeded s + Z.b2z ok)) latency]>
          (ops self)) (violations self) (scanned_records self)).

Definition merge (self other : t) : t :=
  mk (zip_with (λ a b, mkOpStats (u64_wrap (attempted a + attempted b)) (u64_wrap (succeeded a + succeeded b))
        (Histogram.merge (latency a) (latency b))) (ops self) (ops other))
    (u64_wrap (violations self + violations other)) (u64_wrap (scanned_records self + scanned_records other)).
End ThreadStats.

(** ** Buckets *)
Section buckets.
Import Histogram.
Implicit Types (x y : Z).

Lemma bucket_form x : 4 ≤ x →
  let e := Z.log2 x in
  2 ≤ e ∧ ∃ r, 0 ≤ r < 4 ∧ (4 + r) * 2 ^ (e - 2) ≤ x < (5 + r) * 2 ^ (e - 2) ∧ bucket_of x = e * 4 + r.
Proof.
  intros Hx e. pose proof (Z.log2_spec x ltac:(lia)) as [H1 H2]. fold e in H1, H2.
  assert (2 ≤ e) as He by (change 2 with (Z.log2 4); by apply Z.log2_le_mono). split; [done|].
  set (w := 2 ^ (e - 2)). assert (0 < w) as Hw by (apply Z.pow_pos_nonneg; lia).
  assert (2 ^ e = 4 * w) as E1 by (unfold w; rewrite -(Z.pow_add_r 2 2); [f_equal; lia|lia..]).
  assert (2 ^ Z.succ e = 8 * w) as E2 by (rewrite Z.pow_succ_r; lia). rewrite E1 in H1. rewrite E2 in H2.
  assert (4 ≤ x / w < 8) as Hq.
  { split; [apply Z.div_le_lower_bound; lia|apply Z.div_lt_upper_bound; lia]. }
  exists (x / w - 4). split; [lia|].
  pose proof (Z.div_mod x w ltac:(lia)) as Hd. pose proof (Z.mod_pos_bound x w Hw).
  split; [nia|]. unfold bucket_of. rewrite (proj2 (Z.ltb_ge _ _)) //. fold e.
  rewrite Z.shiftr_div_pow2; [|lia]. fold w. change 3 with (Z.ones 2). rewrite Z.land_ones; [|lia].
  change (2 ^ 2) with 4. f_equal. lia.
Qed.

Lemma bucket_range x : 0 ≤ x < 2 ^ 64 → 0 ≤ bucket_of x < 256.
Proof.
  intros Hx. destruct (decide (x < 4)) as [Hs|Hs].
  - unfold bucket_of. rewrite (proj2 (Z.ltb_lt _ _)) //. lia.
  - destruct (bucket_form x ltac:(lia)) as (He & r & Hr & _ & ->).
    assert (Z.log2 x < 64) by (apply Z.log2_lt_pow2; lia). lia.
Qed.

(** A bucket holds the values from its floor to a quarter of it above. *)
Lemma bucket_floor_spec x :
  0 ≤ x → bucket_floor (bucket_of x) ≤ x ∧ 4 * (x - bucket_floor (bucket_of x)) ≤ bucket_floor (bucket_of x).
Proof.
  intros Hx. destruct (decide (x < 4)) as [Hs|Hs].
  - unfold bucket_of. rewrite (proj2 (Z.ltb_lt _ _)) //. unfold bucket_floor. rewrite (proj2 (Z.ltb_lt _ _)) //. lia.
  - destruct (bucket_form x ltac:(lia)) as (He & r & Hr & Hb & ->). unfold bucket_floor.
    rewrite (proj2 (Z.ltb_ge _ _)); [|lia]. replace ((Z.log2 x * 4 + r) mod 4) with r by lia.
    replace ((Z.log2 x * 4 + r) / 4) with (Z.log2 x) by lia. rewrite Z.shiftl_mul_pow2; [|lia].
    set (w := 2 ^ (Z.log2 x - 2)) in *. split; [lia|]. nia.
Qed.

Lemma bucket_mono x y : 0 ≤ x ≤ y → bucket_of x ≤ bucket_of y.
Proof.
  intros Hxy. destruct (decide (y < 4)) as [Hy|Hy].
  { unfold bucket_of. rewrite !(proj2 (Z.ltb_lt _ _)); lia. }
  destruct (bucket_form y ltac:(lia)) as (Hey & r & Hr & Hb & Ey). destruct (decide (x < 4)) as [Hx|Hx].
  { rewrite Ey. unfold bucket_of. rewrite (proj2 (Z.ltb_lt _ _)); lia. }
  destruct (bucket_form x ltac:(lia)) as (Hex & r' & Hr' & Hb' & Ex). rewrite Ex Ey.
  pose proof (Z.log2_le_mono x y ltac:(lia)) as Hle.
  destruct (decide (Z.log2 x = Z.log2 y)) as [Heq|Hne]; [|lia]. rewrite Heq in Hb' |- *.
  assert (0 < 2 ^ (Z.log2 y - 2)) by (apply Z.pow_pos_nonneg; lia). nia.
Qed.
End buckets.

(** ** A histogram of recorded values *)
Section tally.
Import Histogram.
Implicit Types (x y : Z) (l : list Z) (h : t) (i : nat).

Definition in_bucket l i : list Z := filter (λ y, bucket_of y = Z.of_nat i) l.
Definition tally l : list Z := (λ i, Z.of_nat (length (in_bucket l i))) <$> seq 0 256.

Definition fits l : Prop := Forall is_u64 l ∧ Z.of_nat (length l) < 2 ^ 64.

Record represents h l : Prop := {
  rp_buckets : buckets h = tally l;
  rp_count : count h = Z.of_nat (length l);
  rp_fits : fits l;
}.

Lemma tally_lookup l i : (i < 256)%nat → tally l !! i = Some (Z.of_nat (length (in_bucket l i))).
Proof. intros Hi. unfold tally. by rewrite list_lookup_fmap lookup_seq_lt. Qed.

Lemma new_represents : represents new [].
Proof. split; [by vm_compute|done|]. split; [constructor|done]. Qed.

Lemma wrap_count n : 0 ≤ n < 2 ^ 64 → u64_wrap n = n.
Proof. apply Z.mod_small. Qed.

Lemma record_represents h l x :
  represents h l → fits (x :: l) → ∃ h', record h x = Some h' ∧ represents h' (x :: l).
Proof.
  intros [Hb Hc _] [Hx Hl]. pose proof Hx as [Hx1 _]%Forall_cons. unfold is_u64, U64_MAX in Hx1.
  pose proof (bucket_range x ltac:(lia)) as Hr. unfold record. rewrite Hb tally_lookup; [|lia].
  cbn [mbind option_bind]. eexists. split; [done|]. simpl in Hl. split; [| |done]; cbn [buckets count].
  - apply list_eq. intros i. destruct (decide (i < 256)%nat) as [Hi|Hi].
    2:{ rewrite list_lookup_insert_ne; [|lia]. unfold tally. rewrite !list_lookup_fmap !lookup_seq_ge //; lia. }
    rewrite tally_lookup // list_lookup_insert tally_lookup //.
    unfold in_bucket. rewrite filter_cons. destruct (decide (bucket_of x = Z.of_nat i)) as [E|E].
    + rewrite decide_True; [|split; [lia|unfold tally; rewrite length_fmap length_seq; lia]].
      rewrite E Nat2Z.id. f_equal. rewrite wrap_count; [simpl; lia|].
      pose proof (length_filter (λ y, bucket_of y = Z.of_nat i) l). lia.
    + rewrite decide_False //. intros [? _]. lia.
  - rewrite Hc wrap_count; simpl; lia.
Qed.

Lemma merge_represents h h' l l' :
  represents h l → represents h' l' → fits (l ++ l') → represents (merge h h') (l ++ l').
Proof.
  intros [Hb Hc _] [Hb' Hc' _] Hf. pose proof Hf as [_ Hl]. rewrite length_app in Hl. split; [| |done].
  - cbn [buckets merge]. rewrite Hb Hb'. apply list_eq. intros i. rewrite lookup_zip_with.
    destruct (decide (i < 256)%nat) as [Hi|Hi].
    + rewrite !tally_lookup //. cbn. f_equal. unfold in_bucket. rewrite filter_app length_app.
      pose proof (length_filter (λ y, bucket_of y = Z.of_nat i) l).
      pose proof (length_filter (λ y, bucket_of y = Z.of_nat i) l'). rewrite wrap_count; lia.
    + unfold tally. rewrite !list_lookup_fmap !lookup_seq_ge //; lia.
  - cbn [count merge]. rewrite Hc Hc' length_app wrap_count; lia.
Qed.

(** The values below a bucket. *)
Definition below l (k : Z) : nat := length (filter (λ y, bucket_of y < k) l).

Lemma below_succ l (k : Z) :
  below l (k + 1) = (below l k + length (filter (λ y, bucket_of y = k) l))%nat.
Proof.
  unfold below. induction l as [|y l IH]; [done|]. rewrite !filter_cons.
  repeat case_decide; simpl; lia.
Qed.

Lemma quantile_loop_spec l n i seen target :
  fits l → (i + n = 256)%nat → seen = Z.of_nat (below l (Z.of_nat i)) → seen < target ≤ Z.of_nat (below l 256) →
  ∃ k, Z.of_nat (below l k) < target ≤ Z.of_nat (below l (k + 1)) ∧
    quantile_loop (Z.of_nat i) (drop i (tally l)) seen target = bucket_floor k.
Proof.
  intros [_ Hl]. revert i seen. induction n as [|n IH]; intros i seen Hi Hs Ht.
  { assert (i = 256%nat) as -> by lia. change (Z.of_nat 256) with 256 in Hs. lia. }
  rewrite (drop_S (tally l) (Z.of_nat (length (in_bucket l i)))); [|apply tally_lookup; lia].
  cbn [quantile_loop]. pose proof (below_succ l (Z.of_nat i)) as Hsucc. fold (in_bucket l i) in Hsucc.
  assert (u64_wrap (seen + Z.of_nat (length (in_bucket l i))) = Z.of_nat (below l (Z.of_nat i + 1))) as ->.
  { rewrite Hs wrap_count; [lia|]. pose proof (length_filter (λ y, bucket_of y < Z.of_nat i + 1) l).
    unfold below in Hsucc |- *. lia. }
  destruct (target <=? _) eqn:E.
  - apply Z.leb_le in E. exists (Z.of_nat i). split; [lia|done].
  - apply Z.leb_gt in E. replace (Z.of_nat i + 1) with (Z.of_nat (S i)) in * by lia.
    apply IH; [lia|done|lia].
Qed.

(** In a sorted list the elements below a bucket come first. *)
Lemma sorted_below l (k : Z) i x :
  StronglySorted Z.le l → Forall (λ y, 0 ≤ y) l → l !! i = Some x → bucket_of x < k ↔ (i < below l k)%nat.
Proof.
  unfold below. intros Hs Hp. revert i. induction l as [|y l IH]; intros i Hi; [done|].
  apply StronglySorted_inv in Hs as [Hs Hy]. apply Forall_cons in Hp as [Hy0 Hp]. rewrite filter_cons.
  case_decide as Hk.
  - destruct i as [|i]; simpl in Hi |- *; [injection Hi as ->; split; [lia|done]|].
    rewrite (IH Hs Hp i Hi). lia.
  - rewrite filter_none; [simpl; split; [|lia]|].
    + intros Hx. exfalso. apply Hk. destruct i as [|i]; simpl in Hi; [by injection Hi as ->|].
      rewrite Forall_forall in Hy. pose proof (Hy x ltac:(by eapply list_elem_of_lookup_2)).
      pose proof (bucket_mono y x ltac:(lia)). lia.
    + intros z Hz. rewrite Forall_forall in Hy. pose proof (Hy z Hz). pose proof (bucket_mono y z ltac:(lia)). lia.
Qed.

Lemma below_all l : Forall is_u64 l → below l 256 = length l.
Proof.
  intros Hl. unfold below. rewrite filter_all //. intros y Hy. rewrite Forall_forall in Hl.
  specialize (Hl y Hy). unfold is_u64, U64_MAX in Hl. pose proof (bucket_range y ltac:(lia)). lia.
Qed.

Lemma quantile_is h l l' q x :
  represents h l → l ≡ₚ l' → StronglySorted Z.le l' → (l ≠ []) →
  target_of (Z.of_nat (length l)) q ≤ Z.of_nat (length l) →
  l' !! Z.to_nat (target_of (Z.of_nat (length l)) q - 1) = Some x →
  quantile h q = bucket_floor (bucket_of x).
Proof.
  intros [Hb Hc Hf] Hp Hs Hne Ht Hx. unfold quantile. rewrite Hc Hb.
  rewrite (proj2 (Z.eqb_neq _ _)); [|destruct l; [done|simpl; lia]].
  set (target := target_of _ q) in *. assert (1 ≤ target) by (unfold target, target_of; lia).
  destruct (quantile_loop_spec l 256 0 0 target Hf) as (k & Hk & Hq); [lia| | |].
  - assert (below l (Z.of_nat 0) = 0%nat) as ->; [|done]. unfold below. rewrite filter_none //.
    intros y Hy. destruct Hf as [Hf _]. rewrite Forall_forall in Hf. specialize (Hf y Hy).
    unfold is_u64, U64_MAX in Hf. pose proof (bucket_range y ltac:(lia)). simpl. lia.
  - rewrite below_all; [lia|apply Hf].
  - rewrite Hq. f_equal.
    assert (∀ k', below l k' = below l' k') as Hperm by (intros k'; unfold below; by rewrite Hp).
    assert (Forall (λ y, 0 ≤ y) l') as Hpos.
    { rewrite -Hp. eapply Forall_impl; [apply Hf|]. by intros y []. }
    pose proof (sorted_below l' k _ x Hs Hpos Hx) as H1. pose proof (sorted_below l' (k + 1) _ x Hs Hpos Hx) as H2.
    rewrite -!Hperm in H1 H2. lia.
Qed.
Lemma fits_app_l l l' : fits (l ++ l') → fits l ∧ fits l'.
Proof. intros [[? ?]%Forall_app Hl]. rewrite length_app in Hl. split; split; [done|lia|done|lia]. Qed.

(** A thread records its values one by one, the last of them ends up in front. *)
Lemma foldl_record l h past :
  represents h past → fits (rev l ++ past) →
  ∃ h', foldl (λ acc ns, acc ≫= λ h, record h ns) (Some h) l = Some h' ∧ represents h' (rev l ++ past).
Proof.
  revert h past. induction l as [|x l IH]; intros h past Hrep Hf; [by exists h|].
  simpl in Hf. rewrite -(assoc_L (++)) in Hf. simpl in Hf.
  destruct (record_represents h past x Hrep) as (h1 & Hrec & Hrep1); [by apply fits_app_l in Hf as [_ ?]|].
  cbn [foldl mbind option_bind]. rewrite Hrec. destruct (IH h1 (x :: past) Hrep1 Hf) as (h' & Hh' & Hr').
  exists h'. split; [exact Hh'|]. simpl. by rewrite -(assoc_L (++)).
Qed.

#[export] Instance fits_proper : Proper ((≡ₚ) ==> iff) fits.
Proof. intros l l' Hp. unfold fits. by rewrite Hp. Qed.

Lemma foldl_merge ls hs h l :
  Forall2 (λ l h, foldl (λ acc ns, acc ≫= λ h, record h ns) (Some new) l = Some h) ls hs →
  represents h l → fits (l ++ concat ls) →
  ∃ l', l' ≡ₚ l ++ concat ls ∧ represents (foldl merge h hs) l'.
Proof.
  intros Hls. revert h l. induction Hls as [|l1 h1 ls hs Hl1 _ IH]; intros h l Hrep Hf.
  { exists l. by rewrite app_nil_r. }
  simpl in Hf |- *. rewrite (assoc_L (++)) in Hf. pose proof (fits_app_l _ _ Hf) as [Hf1 _].
  destruct (foldl_record l1 new [] new_represents) as (h1' & Hh1 & Hrep1).
  { rewrite app_nil_r -Permutation_rev. by apply fits_app_l in Hf1 as [_ ?]. }
  rewrite Hl1 in Hh1. injection Hh1 as <-. rewrite app_nil_r in Hrep1.
  destruct (IH (merge h h1) (l ++ rev l1)) as (l' & Hp & Hrep').
  - apply merge_represents; [done|done|]. by rewrite -Permutation_rev.
  - by rewrite -Permutation_rev.
  - exists l'. split; [|done]. rewrite Hp -Permutation_rev. by rewrite (assoc_L (++)).
Qed.

Lemma merged_represents ls hs :
  Forall2 (λ l h, foldl (λ acc ns, acc ≫= λ h, record h ns) (Some new) l = Some h) ls hs →
  fits (concat ls) → ∃ l, l ≡ₚ concat ls ∧ represents (foldl merge new hs) l.
Proof. intros Hls Hf. exact (foldl_merge ls hs new [] Hls new_represents Hf). Qed.
End tally.

(** A thread books an operation under its kind and leaves the other kinds alone. *)
Lemma thread_record_represents st op ok ns l s :
  ThreadStats.ops st !! op_index op = Some s → represents (latency s) l → fits (ns :: l) →
  ∃ st' s', ThreadStats.record st op ok ns = Some st' ∧ ThreadStats.ops st' !! op_index op = Some s' ∧
    represents (latency s') (ns :: l) ∧ attempted s' = u64_wrap (attempted s + 1) ∧
    succeeded s' = u64_wrap (succeeded s + Z.b2z ok) ∧
    ∀ op', op' ≠ op → ThreadStats.ops st' !! op_index op' = ThreadStats.ops st !! op_index op'.
Proof.
  intros Hs Hr Hf. unfold ThreadStats.record. rewrite Hs. cbn [mbind option_bind].
  destruct (record_represents _ _ _ Hr Hf) as (h & -> & Hh). cbn [mbind option_bind].
  eexists _, _. split; [done|]. cbn [ThreadStats.ops]. split.
  { apply list_lookup_insert_eq. by eapply lookup_lt_Some. }
  split; [exact Hh|]. split; [done|]. split; [done|]. intros op' Hne.
  apply list_lookup_insert_ne. by destruct op, op'.
Qed.
