(* ===== verification/YcsbTheorems.v ===== *)
(** * The benchmark's generator, values and statistics *)
From S2P Require Import Prelude YcsbValue YcsbWorkload YcsbStats.
From Stdlib Require Import SpecFloat.
Local Open Scope Z_scope.

(** C39: the scramble is a bijection. For every number of keys the search for a
    multiplier ends, even if it wraps around, and with the multiplier it finds the
    ranks are mapped to the keys, each rank to a key of its own. *)
Theorem scramble_permutes n :
  1 ≤ n → is_u64 n →
  (∃ fuel s, Scramble.new fuel n = Some s) ∧
  ∀ fuel s, Scramble.new fuel n = Some s → ∃ ids,
    mapM (Scramble.apply s) (Z.of_nat <$> seq 0 (Z.to_nat n)) = Some ids ∧
    ids ≡ₚ Z.of_nat <$> seq 0 (Z.to_nat n).
Proof.
  intros Hn Hu. split; [by apply scramble_new_ends|]. intros fuel s Hs.
  destruct (scramble_new_ok fuel n s Hu Hs) as (Hsn & _ & Hg). set (ranks := Z.of_nat <$> _).
  assert (∀ r, r ∈ ranks → 0 ≤ r < Scramble.n s) as Hranks.
  { intros r (i & -> & Hi%elem_of_seq)%list_elem_of_fmap. lia. }
  assert (∃ ids, mapM (Scramble.apply s) ranks = Some ids) as [ids Hids].
  { apply mapM_is_Some, Forall_forall. intros r _. destruct (apply_range s r) as (id & E & _); [lia|by exists id]. }
  exists ids. split; [done|]. apply mapM_Some in Hids.
  assert (∀ id, id ∈ ids → id ∈ ranks) as Hin.
  { intros id [i Hi]%list_elem_of_lookup. destruct (Forall2_lookup_r _ _ _ _ _ Hids Hi) as (r & _ & Hr).
    destruct (apply_range s r) as (id' & Hr' & Hid); [lia|]. rewrite Hr in Hr'. injection Hr' as <-.
    apply list_elem_of_fmap. exists (Z.to_nat id). split; [lia|]. apply elem_of_seq. lia. }
  assert (NoDup ranks) as Hnd by (apply (NoDup_fmap_2 _), NoDup_seq).
  assert (NoDup ids) as Hndi.
  { apply NoDup_alt. intros i j id Hi Hj.
    destruct (Forall2_lookup_r _ _ _ _ _ Hids Hi) as (r & Hr & Hri).
    destruct (Forall2_lookup_r _ _ _ _ _ Hids Hj) as (r' & Hr' & Hrj).
    assert (r = r') as <-.
    { apply (apply_inj s r r' id); [by rewrite Hsn|apply Hranks; by eapply list_elem_of_lookup_2..|done|done]. }
    by eapply (proj1 (NoDup_alt _) Hnd). }
  apply submseteq_length_Permutation; [by apply NoDup_submseteq|].
  by rewrite (Forall2_length _ _ _ Hids).
Qed.

Lemma scramble_permutes_witness :
  Scramble.new 5 10 = Some (Scramble.mk 10 7 3) ∧
  ∃ ids, mapM (Scramble.apply (Scramble.mk 10 7 3)) (Z.of_nat <$> seq 0 (Z.to_nat 10)) = Some ids ∧
    ids ≡ₚ Z.of_nat <$> seq 0 (Z.to_nat 10).
Proof.
  split; [by vm_compute|]. apply (proj2 (scramble_permutes 10 ltac:(lia) ltac:(unfold is_u64, U64_MAX; lia)) 5%nat).
  by vm_compute.
Defined.

(** C38: a key is chosen in the window of the live keys. Whatever the distribution,
    whatever logarithm and exponential compute, a key that is chosen is neither
    below nor above the window; a uniform or a hot-spot choice always returns. *)
Theorem chooser_in_window `{!Libm} fuel dist records scramble c rng lo hi :
  is_u64 records → 1 ≤ records → is_u64 lo → is_u64 hi → lo ≤ hi → hi - lo < U64_MAX →
  KeyChooser.new fuel dist records scramble = Some c →
  (∀ fuel key rng', KeyChooser.next fuel c rng lo hi = Some (key, rng') → lo ≤ key ≤ hi) ∧
  (dist = Uniform ∨ (∃ frac prob, dist = Hotspot frac prob) →
    ∀ fuel, is_Some (KeyChooser.next fuel c rng lo hi)).
Proof.
  intros Hr Hr1 Hlo Hhi Hle Hw Hnew.
  destruct (chooser_new_ok _ _ _ _ _ Hr Hr1 Hnew) as (Hd & _ & Hc). split.
  - intros fuel' key rng'. by apply next_in_window.
  - intros Hu fuel'. apply next_returns; try done. by rewrite Hd.
Qed.

(** Approximations of the first order, good enough for a sample. *)
Definition near_one : Libm :=
  {| ln x := f64_sub x f64_one; exp x := f64_add x f64_one; exp_m1 x := x; ln_1p x := x |}.

Lemma chooser_in_window_witness :
  let dist := Zipfian (f64_lit 1 2) in
  let next c := KeyChooser.next (H := near_one) 100 c (Rng.new 1) 5 8 in
  (∃ c key rng, KeyChooser.new (H := near_one) 5 dist 10 true = Some c ∧ next c = Some (key, rng) ∧ 5 ≤ key ≤ 8) ∧
  (∃ c, KeyChooser.new (H := near_one) 5 (Hotspot (f64_lit 1 5) (f64_lit 4 5)) 10 false = Some c ∧ is_Some (next c)).
Proof.
  assert (is_u64 10) as H10 by (unfold is_u64, U64_MAX; lia). assert (is_u64 5) as H5 by (unfold is_u64, U64_MAX; lia).
  assert (is_u64 8) as H8 by (unfold is_u64, U64_MAX; lia). assert (8 - 5 < U64_MAX) as Hw by (unfold U64_MAX; lia).
  intros dist next. split.
  - destruct (KeyChooser.new (H := near_one) 5 dist 10 true) as [c|] eqn:Hc; [|by vm_compute in Hc].
    assert (is_Some (next c)) as [[key rng] Hn].
    { clear -Hc. vm_compute in Hc. injection Hc as <-. vm_compute. by eexists. }
    exists c, key, rng. split; [done|]. split; [exact Hn|].
    exact (proj1 (chooser_in_window (H := near_one) 5 dist 10 true c (Rng.new 1) 5 8 H10 ltac:(lia) H5 H8 ltac:(lia) Hw Hc) _ _ _ Hn).
  - destruct (KeyChooser.new (H := near_one) 5 (Hotspot (f64_lit 1 5) (f64_lit 4 5)) 10 false) as [c|] eqn:Hc;
      [|by vm_compute in Hc]. exists c. split; [done|].
    apply (proj2 (chooser_in_window (H := near_one) 5 _ 10 false c (Rng.new 1) 5 8 H10 ltac:(lia) H5 H8 ltac:(lia) Hw Hc)).
    right. by do 2 eexists.
Defined.

(** C37: a torn record is noticed, and nothing else is reported. Of the records of
    1024 bytes those that pass the check for a key are exactly the ones that were
    built for the key, with whatever tag; no record passes it for two keys; and the
    tag that was put in is the one that comes out. *)
Theorem blob_check_exact b key :
  length b = RECORD_BYTES → is_bytes b → is_u64 key →
  (Blob.check b key = true ↔ ∃ tag, is_u64 tag ∧ b = Blob.tagged key tag ∧ Blob.tag b = tag) ∧
  (∀ key', is_u64 key' → Blob.check b key = true → Blob.check b key' = true → key = key').
Proof.
  intros Hl Hb Hk. split; [split|].
  - intros Hc. exists (Blob.tag b). split; [by apply tag_is|]. split; [by apply check_is_build|done].
  - intros (tag & _ & -> & _). apply check_build.
  - intros key' Hk' [H1 _]%andb_true_iff [H2 _]%andb_true_iff. apply bool_decide_eq_true in H1, H2.
    apply to_le_bytes_inj; [done|done|]. by rewrite -H1 -H2.
Qed.

Lemma blob_check_exact_witness :
  let b := Blob.build 42 7 in
  Blob.check b 42 = true ∧ Blob.check b 43 = false ∧ ∃ tag, is_u64 tag ∧ b = Blob.tagged 42 tag ∧ Blob.tag b = tag.
Proof.
  intros b. assert (Blob.check b 42 = true) as Hc by by vm_compute. split; [done|]. split; [by vm_compute|].
  assert (is_bytes b) as Hb.
  { apply Forall_forall. intros x Hx. assert (forallb (λ x, (0 <=? x) && (x <? 256)) b = true) as Hall by by vm_compute.
    rewrite forallb_forall in Hall. apply list_elem_of_In, Hall, andb_true_iff in Hx as [?%Z.leb_le ?%Z.ltb_lt]. lia. }
  apply (blob_check_exact b 42); [by vm_compute|done|unfold is_u64, U64_MAX; lia|done].
Defined.

(** C40: a quantile of the latencies. For a histogram that recorded the values of
    every thread and was merged, the answer is the floor of the bucket of the value
    that stands at the wanted place in the sorted list of them all: that value is
    not below the answer and at most a quarter above it. *)
Theorem quantile_exact ls hs h q sorted x :
  Forall2 (λ l h, foldl (λ acc ns, acc ≫= λ h, Histogram.record h ns) (Some Histogram.new) l = Some h) ls hs →
  foldl Histogram.merge Histogram.new hs = h →
  fits (concat ls) → concat ls ≡ₚ sorted → StronglySorted Z.le sorted → sorted ≠ [] →
  let target := Histogram.target_of (Z.of_nat (length sorted)) q in
  target ≤ Z.of_nat (length sorted) → sorted !! Z.to_nat (target - 1) = Some x →
  let answer := Histogram.quantile h q in
  answer = Histogram.bucket_floor (Histogram.bucket_of x) ∧ answer ≤ x ∧ 4 * (x - answer) ≤ answer.
Proof.
  intros Hls <- Hf Hp Hs Hne target Ht Hx answer.
  destruct (merged_represents ls hs Hls Hf) as (l & Hl & Hrep).
  assert (answer = Histogram.bucket_floor (Histogram.bucket_of x)) as E.
  { assert (l ≡ₚ sorted) as Hp' by by rewrite Hl.
    eapply quantile_is; [done|exact Hp'|done| |by rewrite Hp'|by rewrite Hp'].
    intros ->. apply Permutation_nil_l in Hp'. by subst. }
  split; [done|]. rewrite E. apply bucket_floor_spec.
  assert (x ∈ concat ls) as Hin by (rewrite Hp; by eapply list_elem_of_lookup_2).
  destruct Hf as [Hf _]. rewrite Forall_forall in Hf. by destruct (Hf x Hin).
Qed.

Lemma quantile_exact_witness :
  let record l := foldl (λ acc ns, acc ≫= λ h, Histogram.record h ns) (Some Histogram.new) l in
  ∃ h1 h2, record [300; 100] = Some h1 ∧ record [200] = Some h2 ∧
    let answer := Histogram.quantile (foldl Histogram.merge Histogram.new [h1; h2]) (f64_lit 1 2) in
    answer = 192 ∧ answer = Histogram.bucket_floor (Histogram.bucket_of 200) ∧ answer ≤ 200 ∧ 4 * (200 - answer) ≤ answer.
Proof.
  intros record. destruct (record [300; 100]) as [h1|] eqn:E1; [|by vm_compute in E1].
  destruct (record [200]) as [h2|] eqn:E2; [|by vm_compute in E2].
  exists h1, h2. split; [done|]. split; [done|]. split.
  { vm_compute in E1. injection E1 as <-. vm_compute in E2. injection E2 as <-. by vm_compute. }
  apply (quantile_exact [[300; 100]; [200]] [h1; h2] _ (f64_lit 1 2) [100; 200; 300] 200).
  - constructor; [exact E1|]. constructor; [exact E2|constructor].
  - done.
  - split; [repeat constructor; unfold U64_MAX; lia|simpl; lia].
  - by apply (bool_decide_unpack _); vm_compute.
  - repeat constructor; lia.
  - done.
  - by vm_compute.
  - by vm_compute.
Defined.
